(* ===== verification/_CoqProject ===== *)
-Q . S2P
Prelude.v
Text.v
Context.v
Json.v
Crdt.v
TupleSpace.v
LatticeSpace.v
Replicas.v
CircuitBreaker.v
Idempotency.v
Mailbox.v
Locks.v
Swim.v
Scheduler.v
TaskRouter.v
Identity.v
Facets.v
Registry.v
Links.v
Exits.v
VirtualActors.v
Activation.v
Supervisor.v
KeyValue.v
Groups.v
ElasticPool.v
Retry.v
WorkflowStore.v
Workflow.v
WorkflowSpec.v
WorkflowService.v
Channels.v
Outbox.v
SqliteChannel.v
Journal.v
Durability.v
