(* ===== verification/Prelude.v ===== *)
(** Verification of PlexSpaces: the coordination core of an actor platform written in Rust.

    * The program

    PlexSpaces runs actors on a cluster of nodes.  An actor has an identity ([Identity]) and a mailbox
    ([Mailbox]) that deduplicates keyed messages with a store of idempotency keys ([Idempotency]); a
    supervisor restarts the actors that fail ([Supervisor]).  A node keeps an inventory of its actors
    ([Registry]); requests carry a context to other nodes ([Context]); actors are linked and monitored
    across nodes ([Links]), and the end of one is told to the others and may end them ([Exits]).  A
    virtual actor is started when a message arrives and evicted when there are too many
    ([VirtualActors], [Activation]).  Facets attached to an actor intercept its messages ([Facets]); with
    one of them an actor is durable: it journals its messages and recovers its state from
    checkpoints and replay ([Durability], over the storage of [Journal]).  A scheduler places actors on
    the nodes that have room for them ([Scheduler]) and a router spreads tasks over groups of actors
    ([TaskRouter]).
    Actors coordinate through a tuple space ([TupleSpace]), through a replicated tuple space that is
    merged by gossip ([LatticeSpace]) and is built on conflict-free data types ([Crdt]), and through
    leased locks ([Locks]) and process groups ([Groups]), whose registry is kept in a key-value store
    ([KeyValue]).  Workflows of steps are executed over tables of an SQL database ([Workflow], over
    [WorkflowStore]) behind a gRPC service and an actor ([WorkflowService]).  Workers are shared by elastic pools ([ElasticPool]).  Messages that leave
    the node go through channels ([Channels], [SqliteChannel]), from which a relay delivers them under a concurrency
    limit ([Outbox]) and by policies of retry ([Retry]).  Calls to remote services go through circuit
    breakers ([CircuitBreaker]); nodes find each other and detect failures by a membership protocol
    ([Swim]).

    * The files

    Every definition carries the name of the Rust item that it translates, prefixed by its type where
    two would clash; a method takes its receiver as an argument and returns the new one.

    - [Prelude]: results, machine integers and doubles, total orders, maps, insertion-ordered maps,
      transition systems, and the lemmas and tactics that the components share.
    - [Crdt]: crates/lattice/src/crdt.rs.  The trait [Lattice] and its laws as type classes ([Lattice],
      [JoinLaws]), and every data type of the file.
    - [TupleSpace]: crates/tuplespace/src/mod.rs, storage.rs and provider.rs.  Tuples, patterns, the
      space with its back ends (a class for the storage trait), leases, watchers and barriers; module
      [Space] holds the operations.  The abstract Linda space is the list of the live tuples.
    - [LatticeSpace]: crates/tuplespace/src/lattice_space.rs, module [Lts].  Replicas and gossip, the
      latter as a program whose steps are the critical sections of the code.
    - [Replicas]: replicas of the observed-remove set of [Crdt], in which the lattice space keeps its
      tuples, that exchange their states over a network without order; their specification is a history
      of updates.
    - [CircuitBreaker]: crates/common/src/circuit_breaker/circuit_breaker.rs, module [Cb]; the machine that
      it refines is in module [Machine] and the simulation in module [Sim].
    - [Idempotency]: crates/service-traits/src/idempotency_store.rs (a class with its laws) and its
      instance, crates/mailbox/src/in_memory_idempotency_store.rs.
    - [Mailbox]: crates/mailbox/src/mod.rs and the receiving half of crates/channel/src/channel.rs,
      module [Mb].  The fast, priority and durable paths, deduplication, backpressure, the background
      processors, acknowledgements and shutdown.  Deduplication uses the interface of [Idempotency].
    - [Locks]: crates/locks/src/memory.rs, module [Lk].
    - [Swim]: crates/services/src/node_registry/swim.rs, module [Sw].
    - [Scheduler]: crates/scheduler/src, the capacities of nodes, the choice of a node, the SQLite store
      of requests, the service, and the background scheduler with its lease of [Locks].
    - [TaskRouter]: crates/scheduler/src/task_router.rs.
    - [Identity]: crates/service-traits/src/actor_id.rs, crates/actor/src/exit_reason.rs and the string
      form of exit reasons in actor_monitor.rs.
    - [Facets]: crates/facet/src/mod.rs (a class for the trait, containers, registries and the facets of
      the file), facet_manager.rs, and process_message of crates/actor/src/mod.rs.
    - [Supervisor]: crates/actor/src/supervisor/ (restart.rs, tree.rs, mod.rs) and child_spec.rs, in a
      monad of state and error; what the supervisor asks of actors and facets is a class.
    - [Text]: the functions of the standard library on strings, with their lemmas.
    - [Context]: crates/common/src/request_context_ext.rs and crates/actor/src/service_locator.rs.
    - [Registry]: crates/actor/src/actor_registry.rs (inventory, index of types, tree, scopes) and
      pending_asks.rs.
    - [Links]: crates/actor/src/actor_monitor.rs and the operations of actor_registry.rs on links and
      monitors, with the handlers of crates/services/src/actor_service that they call at other nodes,
      over connections that may lose requests and responses.
    - [Exits]: the termination of actors in actor_registry.rs, the watcher of actor_factory_impl.rs, the
      exits of the message loop of crates/actor/src/mod.rs, and cascades of them as a step relation.
    - [VirtualActors]: crates/actor/src/virtual_actor_manager.rs and
      crates/journaling/src/virtual_actor_facet.rs.
    - [Activation]: the routing of messages to a virtual actor (actor_registry.rs) and its activation
      (actor_factory_impl.rs), as tasks whose steps interleave.
    - [KeyValue]: crates/keyvalue/src, the trait of key-value stores (lib.rs) as a class with a contract
      and the back ends of sql.rs over a table (modules [Sql] and [Pg]).
    - [Groups]: crates/actor/src/process_groups/mod.rs, written against the interface of [KeyValue], with
      groups as maps for its specification (module [Abs]).
    - [ElasticPool]: crates/elastic-pool/src/elastic_pool.rs.  Operations that release a lock in between
      are split into phases, which a transition relation interleaves.
    - [Retry]: crates/common/src/retry.rs.
    - [Json]: the values of serde_json, whose text is a parameter, the structures of protobuf and the
      conversions between them of crates/workflow/src.
    - [WorkflowStore]: crates/workflow/src/types.rs and storage/sql.rs, in a monad of state and error
      whose statements let other connections act in between (class [World]).
    - [Workflow]: crates/workflow/src/executor.rs.  Branches and items are state machines with one
      statement per transition, which a schedule interleaves.
    - [WorkflowSpec]: the evaluation of workflows without a storage, which the executor refines.
    - [WorkflowService]: crates/workflow/src/service.rs and workflow_actor.rs.
    - [Channels]: crates/channel/src/channel.rs (a class with the contract of delivery at least once)
      and its instance in_memory.rs.
    - [Outbox]: crates/outbox/src (limiter, router, relay, partitioned relay, status), modules [Lim],
      [Router], [Relay] and [Part].  The relay is written against the interface of [Channels].
    - [SqliteChannel]: crates/channel/src/sqlite_backend.rs over its table (module [Sqc]), with statements
      that may fail; an instance of the contract of [Channels], over which the relay of [Outbox] runs.
    - [Journal]: crates/service-traits/src/journal_storage.rs (a class with its laws), the SQLite back
      end storage/sql/sqlite.rs as tables that discharge the laws (module [Sql]), and, of
      crates/journaling/src, execution_context.rs (module [Ctx]) and checkpoint_manager.rs (module
      [Ckpt]).
    - [Durability]: crates/journaling/src/durability_facet.rs (module [Df]) in a monad of state and error
      over any storage with the laws of [Journal], and the part of crates/actor/src/mod.rs that
      drives it (module [Act]); the actor's behaviour is a class.

    * What the theorems show

    - Tuple space: the operations refine the Linda space of the live tuples at any time; over any run
      each written tuple is taken once, expired or still there; watchers see exactly the matching
      events, and a write releases exactly the waiters of the barriers that it completes.
    - Replication: replicas of a set that have learned of the same updates agree, in whatever order and
      how often their states were exchanged, and hold what was added and not removed by an update that
      knew of the addition;
      uninterrupted gossip makes both replicas the join of the two, and a write in between is lost.
    - Mailbox: the counter is the number of pending messages, within the capacity; the mailbox refines
      a bounded queue, errors included; control messages come first; the processor forwards by
      priority; a keyed message that was accepted is enqueued once, whatever happens to the mailbox and
      the shared store within its lifetime; a rejected one is lost when it is retried.
    - Idempotency: of the retries of a key exactly one is the first; the capacity bounds the store.
    - Circuit breaker: the invariant of the reachable states; over any run of requests and outcomes the
      breaker answers as the documented machine does, thresholds, timeout and quota included (the
      request that half-opens it is not counted); how many requests a half-open period admits, when
      it cannot end.
    - Locks: a valid lease excludes every other holder; a renewal that is interleaved breaks this.
    - Membership: updates converge whatever their order; a full merge is a join; the invariant of the
      queue of updates; which suspicions time out; what a stale death and a refutation do.
    - Scheduling: the node that is chosen is a best one of those that fit; a request reads back in its own
      scope; each scheduler keeps its lease, which excludes no other; no request that the service admits
      is ever placed.  Round robin is fair, and no strategy tells who was selected.
    - Identity: which forms of identities and exit reasons read back, and when identities are equal.
    - Supervision: no task is lost, the intensity of restarts is bounded under every strategy, each
      strategy restarts exactly the children it concerns, a failing restart ends a batch; and where
      the code departs from its documentation (linked exits, the adaptive strategy, duplicates).
    - Facets: containers keep their facets unique and in order, and empty themselves when an actor ends;
      the cache refines a list in the order of use; which messages a thread refuses when facets answer
      them, what a cache makes of repetitions, and what happens to a facet that is being written.
    - Registry: over any operations the tables agree with each other and the tree of parents with the
      tree of children; a subtree is the set of the descendants where no chain of parents is a ring; a
      reply reaches the question it belongs to; how far a lookup without a tenant sees.
    - Links and exits: the table refines a set of pairs; linking across nodes answers and reaches both,
      and what a failed call leaves; a termination tells those concerned and forgets the actor; the
      exits of a crash come to an end and end exactly the actors that are linked to it over others
      that do not trap exits; which exits are misread.
    - Virtual actors: eviction makes room and takes the least recently used; durations read back; each
      message for an actor that is being started is in one place, and is lost only where a queued one
      is refused when it is delivered; the activations come to rest; which failures leave the
      actor unable to start again, which interleavings start it twice or strand a message.
    - Elastic pool: in any interleaving each worker is in one place; who can serve a waiter; a drain
      ends; sizes stay within their bounds; which races lose a worker.
    - Key-value store: the tables of SQLite and PostgreSQL refine a map with expiries; watchers see the
      events of the writes; two interleaved compare-and-swaps of PostgreSQL are both granted.
    - Process groups: over any store with the contract the registry refines maps of memberships; an
      actor stays a member until its last leave; what later topics do to a subscription.
    - Workflows: in any interleaving of its branches a run refines the evaluation of its workflow, and
      ends; tasks are a pipeline, attempted until they succeed; at most one node takes an execution
      over, signals are queues; what a cancellation, another tenant and a resumption do; which values
      survive a protobuf structure.
    - Channels, retries and outbox: the in-memory channel refines a bounded queue; the SQLite channel
      keeps the contract of delivery at least once while its dead-letter queue is enabled; over every channel
      with this contract the relay delivers each message at least once, and its retries end, with
      one attempt more for each acknowledgement that fails; the partitioned relay attempts each
      message once; the limiter stays within its bounds in any interleaving; back-off delays lie in
      their window.
    - Journal and durability: the tables of SQLite satisfy the contract of the storage; every operation
      of the facet keeps its well-formed states; through any run of messages, promises, stops and
      crashes the recovered state is the fold of the accepted messages, and promises and recorded side
      effects read back; when recovery is blocked or loses state.

    * Conventions

    Integers are kept at their width: an operator of Rust is followed by [wrap], which is what the
    release profile computes (the development and test profiles turn an overflow into a panic), and
    the saturating and atomic operations are written out.  Doubles are the executable IEEE model of the
    Standard Library.  The time, the fresh identifiers and the random draws are arguments of the
    operations.  A Rust string is the sequence of its bytes.  An operation that holds a lock from its
    first to its last access is one function; where the code releases a lock in between and a theorem
    depends on it ([LatticeSpace.Lts.gossip_step], the phases of [Locks.Lk.renew_lock],
    [Mailbox.Mb.fast_send] and [Mailbox.Mb.fast_count]) the phases are separate functions.
    The iteration order of a hash map is that of stdpp's [map_to_list] or an argument.

    Fuel is used where the recursion of the code is not structural: [Identity.parse_fuel] and the
    loops on slugs take the length of the string, which every round shortens
    ([Identity.parse_fuel_enough]); [Mailbox.Mb.heap_drain] takes the length of the heap, which every
    round shortens ([Mailbox.Mb.heap_drain_perm]); [TupleSpace.Space.provider_default_clear] answers
    [None] without enough fuel, and [TupleSpace.default_clear_in_memory] shows that more than the
    number of tuples is enough.  [ElasticPool.drain_terminates] gives the rounds after which a drain has
    answered; the rounds of a relay ([Outbox.Relay.rounds]) are counted because the relay runs until it
    is stopped, and [Outbox.retries_terminate] bounds those that one message takes.  The loop over the
    steps of a workflow takes one more than their number, since every round visits another step, and a
    task two statements per attempt ([WorkflowSpec.workflow_terminates]); a signal step polls as often
    as [Workflow.poll] is told, and waits for ever in the code.  The operations of [Links] call each other
    at most four deep ([Links.link_reaches_both_nodes]); a search of a subtree takes a round for each
    descendant and one for the root, and goes on for ever on a ring ([Registry.subtree_lists_descendants],
    [Registry.ring_runs_on]); the reason of an exit is read in two rounds or never
    ([Exits.crafted_exit_is_never_read]).  A tick of the heartbeat of a scheduler makes at most twice
    [Scheduler.LEASE_RETRY_MAX] attempts, as the code does ([Scheduler.heartbeat_goes_on]).

    * What is not modelled

    Metrics, logs and tracing; the wake-up of background tasks (a round of a task may run at any
    time); channels that are full (the event channel of a supervisor is taken to have room); the
    clients of external services (PostgreSQL channels, Redis, DynamoDB, Kafka, NATS, SQS), the gRPC services and the
    binding to the WASM runtime.  Of the journal, events, reminders and statistics; a storage that
    fails is modelled by its errors, but the theorems on recovery take one that does not.  Nested
    supervisors and the shutdown of a tree, the subscribers of lifecycle events, the other facets of
    the journal, the catalogue of nodes and the signal that stops a scheduler are left out as
    well: they are stores of records, timers and calls to the components above. *)
From Stdlib Require Import ZArith Lia.
From Stdlib Require Export Floats.SpecFloat Sorting.Sorted.
From Stdlib Require Import Structures.OrderedTypeEx.
From stdpp Require Export base gmap sets strings option list.

#[global] Open Scope Z_scope.

(** ** Fallible code: Rust's [Result]

    [result E T] is Rust's [Result<T, E>]. Its instances of stdpp's monad classes give the
    notation [x ← m; k], which is the question-mark operator: an early return on [Err]. *)

Inductive result (E T : Type) : Type :=
| Ok (t : T)
| Err (e : E).
Arguments Ok {E T} t.
Arguments Err {E T} e.

#[export] Instance result_ret {E} : MRet (result E) := λ T t, Ok t.
#[export] Instance result_bind {E} : MBind (result E) := λ A B k m,
  match m with Ok a => k a | Err e => Err e end.
#[export] Instance result_fmap {E} : FMap (result E) := λ A B f m,
  match m with Ok a => Ok (f a) | Err e => Err e end.

Definition is_ok {E A : Type} (m : result E A) : bool :=
  match m with Ok _ => true | Err _ => false end.

(** ** Machine integers

    A [u32], [u64] or [usize] is a [Z]; an arithmetic operator is followed by [wrap], which is
    what the release profile computes (the dev and test profiles turn an overflow into a panic).
    Atomic [fetch_add] and [fetch_sub] wrap in every profile. *)

Definition wrap (w x : Z) : Z := x mod 2 ^ w.
Definition u32_max : Z := 2 ^ 32 - 1.
Definition u64_max : Z := 2 ^ 64 - 1.
Definition u32_add (x y : Z) : Z := wrap 32 (x + y).
Definition u64_add (x y : Z) : Z := wrap 64 (x + y).
Definition u64_sub (x y : Z) : Z := wrap 64 (x - y).
Definition sat_sub (x y : Z) : Z := Z.max 0 (x - y).
Definition u64_sat_add (x y : Z) : Z := Z.min u64_max (x + y).
Definition u64_sat_mul (x y : Z) : Z := Z.min u64_max (x * y).
Definition u32_sat_add (x y : Z) : Z := Z.min u32_max (x + y).
(** Rust's [as u32] on a wider unsigned value. *)
Definition as_u32 (x : Z) : Z := wrap 32 x.
(** Rust's [as u64] on an [i64]. *)
Definition as_u64 (x : Z) : Z := wrap 64 x.
(** Rust's [as i64] on a wider or unsigned value. *)
Definition as_i64 (x : Z) : Z := let y := wrap 64 x in if y <? 2 ^ 63 then y else y - 2 ^ 64.
(** Rust's [as i32] on an integer. *)
Definition as_i32 (x : Z) : Z := let y := wrap 32 x in if y <? 2 ^ 31 then y else y - 2 ^ 32.

(** ** Double-precision floats

    An [f64] is a [spec_float] of the Standard Library's executable IEEE-754 model at
    precision 53 and maximal exponent 1024. *)

Definition f64 : Type := spec_float.
Definition f64_of_Z (z : Z) : f64 := binary_normalize 53 1024 z 0 false.
Definition f64_div (x y : f64) : f64 := SFdiv 53 1024 x y.
Definition f64_mul (x y : f64) : f64 := SFmul 53 1024 x y.
Definition f64_add (x y : f64) : f64 := SFadd 53 1024 x y.
(** The comparison operators are false when an operand is a NaN. *)
Definition f64_ltb (x y : f64) : bool := SFltb x y.
Definition f64_leb (x y : f64) : bool := SFleb x y.
Definition f64_is_nan (x : f64) : bool := match x with S754_nan => true | _ => false end.
(** [f64::min]: the other operand when one is a NaN. *)
Definition f64_min (x y : f64) : f64 :=
  if f64_is_nan x then y else if f64_is_nan y then x else if f64_ltb y x then y else x.
Definition f64_max (x y : f64) : f64 :=
  if f64_is_nan x then y else if f64_is_nan y then x else if f64_ltb x y then y else x.
(** The mathematical integer part of a finite float, towards zero. *)
Definition f64_trunc (x : f64) : Z :=
  match x with
  | S754_finite s m e =>
      let a := if decide (0 <= e) then Zpos m * 2 ^ e else Zpos m / 2 ^ (- e) in
      if s then - a else a
  | _ => 0
  end.
(** Rust's saturating [as] casts from [f64] to an unsigned integer of maximum [mx]. *)
Definition f64_as_unsigned (mx : Z) (x : f64) : Z :=
  match x with
  | S754_nan => 0
  | S754_infinity s => if s then 0 else mx
  | _ => Z.max 0 (Z.min mx (f64_trunc x))
  end.
(** The cast of [x.ceil()]. *)
Definition f64_ceil_as_unsigned (mx : Z) (x : f64) : Z :=
  match x with
  | S754_finite s m e =>
      let num := if s then Zneg m else Zpos m in
      Z.max 0 (Z.min mx (if decide (0 <= e) then num * 2 ^ e else - ((- num) / 2 ^ (- e))))
  | _ => f64_as_unsigned mx x
  end.
Definition f64_as_u64 : f64 → Z := f64_as_unsigned u64_max.
Definition f64_as_u32 : f64 → Z := f64_as_unsigned u32_max.

(** ** Total orders: Rust's [Ord] *)

Class Ord (T : Type) : Type := cmp : T → T → comparison.

Class OrdLaws (T : Type) `{!Ord T} : Prop := {
  cmp_eq : ∀ x y : T, cmp x y = Eq ↔ x = y;
  cmp_antisym : ∀ x y : T, cmp y x = CompOpp (cmp x y);
  cmp_trans : ∀ x y z : T, cmp x y = Lt → cmp y z = Lt → cmp x z = Lt
}.

(** [Ord::max] returns its second argument on a tie, [Ord::min] its first. *)
Definition ord_max {T} `{!Ord T} (x y : T) : T :=
  match cmp x y with Lt | Eq => y | Gt => x end.
Definition ord_min {T} `{!Ord T} (x y : T) : T :=
  match cmp x y with Lt | Eq => x | Gt => y end.
(** The operator [>]. *)
Definition ord_gtb {T} `{!Ord T} (x y : T) : bool :=
  match cmp x y with Gt => true | _ => false end.

#[export] Instance Z_Ord : Ord Z := Z.compare.
(** [String]'s order is the lexicographic order of its bytes. *)
#[export] Instance string_Ord : Ord string := String.compare.

(** Tuples and derived structures compare lexicographically. *)
#[export] Instance prod_Ord {A B} `{!Ord A, !Ord B} : Ord (A * B) := λ x y,
  match cmp x.1 y.1 with Eq => cmp x.2 y.2 | c => c end.

(** ** Maps

    [merge_into f m1 m2] is the loop [for (k, v) in m2 { m1.entry(k).and_modify(f).or_insert(v) }],
    which the CRDTs use to merge two [HashMap]s. *)

Section maps.
Context {K : Type} `{Countable K} {V : Type}.

Definition entry_merge (f : V → V → V) (k : K) (v : V) (m : gmap K V) : gmap K V :=
  match m !! k with
  | Some x => <[k := f x v]> m
  | None => <[k := v]> m
  end.

Definition merge_into (f : V → V → V) (m1 m2 : gmap K V) : gmap K V :=
  map_fold (entry_merge f) m1 m2.

End maps.

(** ** Insertion-ordered maps: [IndexMap] with string keys *)

Section index_map.
Context {V : Type}.
Implicit Types (l : list (string * V)) (k : string).

Fixpoint im_get k l : option V :=
  match l with
  | [] => None
  | (k', v) :: l => if bool_decide (k' = k) then Some v else im_get k l
  end.
(** A key that is there keeps its place. *)
Fixpoint im_insert k (v : V) l : list (string * V) :=
  match l with
  | [] => [(k, v)]
  | (k', v') :: l => if bool_decide (k' = k) then (k', v) :: l else (k', v') :: im_insert k v l
  end.
Fixpoint im_remove k l : list (string * V) :=
  match l with
  | [] => []
  | (k', v') :: l => if bool_decide (k' = k) then l else (k', v') :: im_remove k l
  end.
(** [get_mut] followed by an assignment. *)
Fixpoint im_update k (f : V → V) l : list (string * V) :=
  match l with
  | [] => []
  | (k', v) :: l => if bool_decide (k' = k) then (k', f v) :: l else (k', v) :: im_update k f l
  end.
End index_map.

(** ** Transition systems *)

Section reachability.
Context {S : Type} (step : S → S → Prop).

Inductive steps : S → S → Prop :=
| steps_refl s : steps s s
| steps_step s1 s2 s3 : steps s1 s2 → step s2 s3 → steps s1 s3.

End reachability.

(** ** Tactics *)

(** Case analysis on the scrutinee of a [match] or [if] of the goal. *)
Ltac case_goal :=
  match goal with
  | |- context [match ?x with _ => _ end] =>
      lazymatch x with
      | context [match _ with _ => _ end] => fail
      | _ => let E := fresh "E" in destruct x eqn:E
      end
  end.
(** The same on a hypothesis. *)
Ltac case_hyp :=
  match goal with
  | H : context [match ?x with _ => _ end] |- _ =>
      lazymatch x with
      | context [match _ with _ => _ end] => fail
      | _ => let E := fresh "E" in destruct x eqn:E
      end
  end.
Ltac case_all := repeat (first [case_hyp | case_goal]; simplify_eq/=; try done).
(** Boolean comparisons of [Z] as propositions. *)
Ltac bool_to_Prop :=
  repeat match goal with
  | H : (_ && _)%bool = true |- _ => apply andb_prop in H; destruct H
  | H : (_ || _)%bool = false |- _ => apply orb_false_elim in H; destruct H
  | H : negb _ = true |- _ => apply negb_true_iff in H
  | H : negb _ = false |- _ => apply negb_false_iff in H
  | H : (_ <=? _)%Z = true |- _ => apply Z.leb_le in H
  | H : (_ <=? _)%Z = false |- _ => apply Z.leb_gt in H
  | H : (_ <? _)%Z = true |- _ => apply Z.ltb_lt in H
  | H : (_ <? _)%Z = false |- _ => apply Z.ltb_ge in H
  | H : (_ =? _)%Z = true |- _ => apply Z.eqb_eq in H
  | H : (_ =? _)%Z = false |- _ => apply Z.eqb_neq in H
  | H : bool_decide _ = true |- _ => apply bool_decide_eq_true in H
  | H : bool_decide _ = false |- _ => apply bool_decide_eq_false in H
  end.

Create HintDb plex discriminated.
#[export] Hint Constructors steps : plex.

(** ** Lemmas: machine integers *)

Lemma wrap_small w x : 0 <= x < 2 ^ w → wrap w x = x.
Proof. apply Z.mod_small. Qed.

Lemma wrap_bound w x : 0 <= w → 0 <= wrap w x < 2 ^ w.
Proof. intros. apply Z.mod_pos_bound, Z.pow_pos_nonneg; lia. Qed.

Lemma u64_add_small x y : 0 <= x + y <= u64_max → u64_add x y = x + y.
Proof. intros. apply wrap_small. unfold u64_max in *. lia. Qed.

Lemma u32_add_small x y : 0 <= x + y <= u32_max → u32_add x y = x + y.
Proof. intros. apply wrap_small. unfold u32_max in *. lia. Qed.

Lemma u64_sub_small x y : 0 <= y <= x → x <= u64_max → u64_sub x y = x - y.
Proof. intros. apply wrap_small. unfold u64_max in *. lia. Qed.

Lemma u64_add_sub x y z : u64_sub (u64_add x y) z = wrap 64 (x + y - z).
Proof. unfold u64_sub, u64_add, wrap. by rewrite Zminus_mod_idemp_l. Qed.

#[export] Hint Resolve u64_add_small u32_add_small u64_sub_small : plex.

(** ** Lemmas: floats *)

Lemma f64_as_unsigned_bound mx x : 0 <= mx → 0 <= f64_as_unsigned mx x <= mx.
Proof. intros. destruct x as [| [] | |]; cbn [f64_as_unsigned]; lia. Qed.

(** ** Lemmas: total orders *)

#[export] Instance Z_OrdLaws : OrdLaws Z.
Proof.
  split; unfold cmp, Z_Ord.
  - apply Z.compare_eq_iff.
  - intros. apply Z.compare_antisym.
  - intros x y z. rewrite !Z.compare_lt_iff. lia.
Qed.

#[export] Instance string_OrdLaws : OrdLaws string.
Proof.
  split; unfold cmp, string_Ord.
  - intros. split; [apply String.compare_eq_iff | intros ->].
    apply String_as_OT.cmp_eq. done.
  - intros. apply String.compare_antisym.
  - intros x y z Hxy Hyz. apply String_as_OT.cmp_lt in Hxy, Hyz. apply String_as_OT.cmp_lt.
    by eapply String_as_OT.lt_trans.
Qed.

#[export] Instance prod_OrdLaws {A B} `{OrdLaws A, OrdLaws B} : OrdLaws (A * B).
Proof.
  split; unfold cmp, prod_Ord.
  - intros [a b] [a' b']. simpl. destruct (cmp a a') eqn:E.
    + apply cmp_eq in E as ->. rewrite cmp_eq. naive_solver.
    + split; [done|]. intros [= -> ->]. by rewrite (proj2 (cmp_eq a' a') eq_refl) in E.
    + split; [done|]. intros [= -> ->]. by rewrite (proj2 (cmp_eq a' a') eq_refl) in E.
  - intros [a b] [a' b']. simpl. rewrite (cmp_antisym a a'), (cmp_antisym b b').
    by destruct (cmp a a').
  - intros [a b] [a' b'] [a'' b'']. simpl.
    destruct (cmp a a') eqn:E1, (cmp a' a'') eqn:E2; intros H1 H2; try done;
      repeat match goal with E : cmp _ _ = Eq |- _ => apply cmp_eq in E as -> end;
      rewrite ?(proj2 (cmp_eq _ _) eq_refl), ?E1, ?E2; try done.
    + by eapply cmp_trans.
    + by rewrite (cmp_trans _ _ _ E1 E2).
Qed.

Section ord.
Context {T : Type} `{OrdLaws T}.
Implicit Types x y z : T.

Lemma cmp_refl x : cmp x x = Eq.
Proof. by apply cmp_eq. Qed.

Lemma ord_gtb_asym x y : ord_gtb x y = true → ord_gtb y x = false.
Proof. unfold ord_gtb. rewrite (cmp_antisym x y). by destruct (cmp x y). Qed.

Lemma ord_gtb_total x y : ord_gtb x y = false → ord_gtb y x = false → x = y.
Proof.
  unfold ord_gtb. rewrite (cmp_antisym x y). intros. apply cmp_eq. by destruct (cmp x y).
Qed.

(** The reversed order, to obtain the laws of [ord_min] from those of [ord_max]. *)
Lemma ord_max_comm x y : ord_max x y = ord_max y x.
Proof.
  unfold ord_max. rewrite (cmp_antisym x y). destruct (cmp x y) eqn:E; try done.
  symmetry. by apply cmp_eq.
Qed.

Lemma ord_min_comm x y : ord_min x y = ord_min y x.
Proof.
  unfold ord_min. rewrite (cmp_antisym x y). destruct (cmp x y) eqn:E; try done.
  by apply cmp_eq.
Qed.

Lemma ord_max_idemp x : ord_max x x = x.
Proof. unfold ord_max. by rewrite cmp_refl. Qed.

Lemma ord_min_idemp x : ord_min x x = x.
Proof. unfold ord_min. by rewrite cmp_refl. Qed.

Lemma cmp_trans_gt x y z : cmp x y = Gt → cmp y z = Gt → cmp x z = Gt.
Proof.
  intros Hxy Hyz. rewrite (cmp_antisym z x), (cmp_trans z y x); [done | |].
  - by rewrite (cmp_antisym y z), Hyz.
  - by rewrite (cmp_antisym x y), Hxy.
Qed.

Lemma ord_gtb_trans x y z : ord_gtb x y = true → ord_gtb y z = true → ord_gtb x z = true.
Proof.
  unfold ord_gtb. destruct (cmp x y) eqn:E1, (cmp y z) eqn:E2; try done.
  by rewrite (cmp_trans_gt x y z).
Qed.

Lemma ord_gtb_neg_trans x y z :
  ord_gtb x y = false → ord_gtb y z = false → ord_gtb x z = false.
Proof.
  intros Hxy Hyz. destruct (ord_gtb x z) eqn:Hxz; [|done].
  destruct (ord_gtb y x) eqn:Hyx.
  - by rewrite (ord_gtb_trans y x z) in Hyz.
  - by rewrite (ord_gtb_total x y Hxy Hyx), Hyz in Hxz.
Qed.

(** A fold of [ord_max] is the greatest of its arguments, so it depends only on their set. *)
Lemma ord_max_spec x y :
  (ord_max x y = x ∨ ord_max x y = y)
  ∧ ord_gtb x (ord_max x y) = false ∧ ord_gtb y (ord_max x y) = false.
Proof.
  pose proof (cmp_antisym x y) as Ha. unfold ord_max, ord_gtb.
  destruct (cmp x y) eqn:E; rewrite ?cmp_refl, ?E, ?Ha; auto.
Qed.

Lemma foldl_ord_max_spec x l :
  (foldl ord_max x l = x ∨ foldl ord_max x l ∈ l)
  ∧ ord_gtb x (foldl ord_max x l) = false
  ∧ ∀ y, y ∈ l → ord_gtb y (foldl ord_max x l) = false.
Proof.
  revert x. induction l as [|z l IH]; intros x; simpl.
  - split; [by left|]. split; [unfold ord_gtb; by rewrite cmp_refl|]. by intros y ?%not_elem_of_nil.
  - destruct (IH (ord_max x z)) as (Hin & Hx & Hl). destruct (ord_max_spec x z) as (Hm & H1 & H2).
    split_and!.
    + destruct Hin as [Hin|Hin]; [|right; by right]. rewrite Hin.
      destruct Hm as [->| ->]; [by left | right; by left].
    + by eapply ord_gtb_neg_trans.
    + intros y [->|Hy]%elem_of_cons; [by eapply ord_gtb_neg_trans | by apply Hl].
Qed.

Lemma foldl_ord_max_set x l1 l2 :
  (∀ y, y ∈ l1 ↔ y ∈ l2) → foldl ord_max x l1 = foldl ord_max x l2.
Proof.
  intros Hset. destruct (foldl_ord_max_spec x l1) as (Hin1 & Hx1 & Hl1).
  destruct (foldl_ord_max_spec x l2) as (Hin2 & Hx2 & Hl2).
  apply ord_gtb_total.
  - destruct Hin1 as [->|Hin1]; [done | by apply Hl2, Hset].
  - destruct Hin2 as [->|Hin2]; [done | by apply Hl1, Hset].
Qed.

#[local] Ltac cmp_solve :=
  repeat match goal with H : cmp _ _ = Eq |- _ => apply cmp_eq in H as -> end;
  repeat match goal with
  | H1 : cmp ?x ?y = Lt, H2 : cmp ?y ?z = Lt |- _ => rewrite (cmp_trans x y z H1 H2)
  | H1 : cmp ?x ?y = Gt, H2 : cmp ?y ?z = Gt |- _ => rewrite (cmp_trans_gt x y z H1 H2)
  | H : cmp ?x ?y = _ |- context [cmp ?x ?y] => rewrite H
  end; rewrite ?cmp_refl; done.

Lemma ord_max_assoc x y z : ord_max x (ord_max y z) = ord_max (ord_max x y) z.
Proof.
  unfold ord_max. destruct (cmp x y) eqn:Exy, (cmp y z) eqn:Eyz; rewrite ?Exy, ?Eyz;
    cmp_solve.
Qed.

Lemma ord_min_assoc x y z : ord_min x (ord_min y z) = ord_min (ord_min x y) z.
Proof.
  unfold ord_min. destruct (cmp x y) eqn:Exy, (cmp y z) eqn:Eyz; rewrite ?Exy, ?Eyz;
    cmp_solve.
Qed.

End ord.

(** ** Lemmas: lists filtered by a boolean *)

Lemma find_filter {A} (f g : A → bool) l :
  List.find g (List.filter f l) = List.find (λ x, f x && g x) l.
Proof.
  induction l as [|y l IH]; simpl; [done|]. destruct (f y); simpl; [|done].
  by destruct (g y).
Qed.

Lemma filter_filter {A} (f g : A → bool) l :
  List.filter g (List.filter f l) = List.filter (λ x, f x && g x) l.
Proof.
  induction l as [|y l IH]; simpl; [done|]. destruct (f y); simpl; [|done].
  destruct (g y); by rewrite IH.
Qed.

Lemma filter_partition {A} (f : A → bool) l :
  l ≡ₚ List.filter f l ++ List.filter (λ x, negb (f x)) l.
Proof.
  induction l as [|y l IH]; simpl; [done|]. destruct (f y); simpl.
  - by rewrite <-IH.
  - rewrite <-Permutation_middle. by rewrite <-IH.
Qed.

Lemma filter_ext_in {A} (f g : A → bool) l :
  (∀ x, x ∈ l → f x = g x) → List.filter f l = List.filter g l.
Proof.
  induction l as [|y l IH]; intros Hfg; simpl; [done|].
  rewrite (Hfg y) by (apply elem_of_cons; by left).
  rewrite IH; [done|]. intros x Hx. apply Hfg, elem_of_cons. by right.
Qed.

Lemma elem_of_filterb {A} (f : A → bool) l x : x ∈ List.filter f l ↔ x ∈ l ∧ f x = true.
Proof. rewrite !list_elem_of_In. apply filter_In. Qed.

Lemma filterb_app {A} (f : A → bool) l1 l2 :
  List.filter f (l1 ++ l2) = List.filter f l1 ++ List.filter f l2.
Proof. apply List.filter_app. Qed.

#[export] Instance filterb_Permutation {A} (f : A → bool) :
  Proper ((≡ₚ) ==> (≡ₚ)) (List.filter f).
Proof.
  intros l l'. induction 1 as [|x l l' _ IH|x y l|l l' l'' _ IH1 _ IH2]; simpl.
  - done.
  - destruct (f x); by rewrite IH.
  - destruct (f x), (f y); try done. apply perm_swap.
  - by etrans.
Qed.

(** ** Lemmas: maps *)

Section map_lemmas.
Context {K : Type} `{Countable K} {V : Type}.
Implicit Types (f : V → V → V) (m : gmap K V).

Lemma lookup_entry_merge f k v m i :
  entry_merge f k v m !! i =
    if decide (k = i) then Some (from_option (λ x, f x v) v (m !! k)) else m !! i.
Proof.
  unfold entry_merge. destruct (m !! k) eqn:E; rewrite lookup_insert; by case_decide.
Qed.

Lemma lookup_merge_into f m1 m2 i :
  merge_into f m1 m2 !! i = union_with (λ x y, Some (f x y)) (m1 !! i) (m2 !! i).
Proof.
  unfold merge_into. revert i.
  apply (map_fold_weak_ind (λ r m2, ∀ i, r !! i = union_with _ (m1 !! i) (m2 !! i))).
  - intros i. rewrite lookup_empty. by destruct (m1 !! i).
  - intros k v m r Hk IH i. rewrite lookup_entry_merge, lookup_insert, !IH.
    case_decide as Hki; [subst i |done]. rewrite Hk. by destruct (m1 !! k).
Qed.

Lemma merge_into_alt f m1 m2 :
  merge_into f m1 m2 = union_with (λ x y, Some (f x y)) m1 m2.
Proof. apply map_eq. intros i. by rewrite lookup_merge_into, lookup_union_with. Qed.

Lemma merge_into_comm f m1 m2 :
  (∀ x y, f x y = f y x) → merge_into f m1 m2 = merge_into f m2 m1.
Proof.
  intros Hf. apply map_eq. intros i. rewrite !lookup_merge_into.
  destruct (m1 !! i), (m2 !! i); simpl; by rewrite 1?Hf.
Qed.

Lemma merge_into_assoc f m1 m2 m3 :
  (∀ x y z, f x (f y z) = f (f x y) z) →
  merge_into f m1 (merge_into f m2 m3) = merge_into f (merge_into f m1 m2) m3.
Proof.
  intros Hf. apply map_eq. intros i. rewrite !lookup_merge_into.
  destruct (m1 !! i), (m2 !! i), (m3 !! i); simpl; by rewrite 1?Hf.
Qed.

Lemma merge_into_idemp f m : (∀ x, f x x = x) → merge_into f m m = m.
Proof.
  intros Hf. apply map_eq. intros i. rewrite lookup_merge_into.
  destruct (m !! i); simpl; by rewrite 1?Hf.
Qed.

Lemma merge_into_empty_l f m : merge_into f ∅ m = m.
Proof. apply map_eq. intros i. rewrite lookup_merge_into, lookup_empty. by destruct (m !! i). Qed.

End map_lemmas.

(** The union of finite sets is associative, commutative and idempotent, in the form in which
    [auto] applies it. *)
Section gset_lemmas.
Context {K : Type} `{Countable K}.
Implicit Types X Y Z : gset K.

Lemma gset_union_comm X Y : X ∪ Y = Y ∪ X.
Proof. apply (comm_L (∪)). Qed.

Lemma gset_union_assoc X Y Z : X ∪ (Y ∪ Z) = X ∪ Y ∪ Z.
Proof. apply (assoc_L (∪)). Qed.

Lemma gset_union_idemp X : X ∪ X = X.
Proof. apply (idemp_L (∪)). Qed.

End gset_lemmas.

#[export] Hint Resolve gset_union_comm gset_union_assoc gset_union_idemp
  merge_into_comm merge_into_assoc merge_into_idemp : plex.
#[export] Hint Resolve Z.max_comm Z.max_assoc Z.max_id : plex.
#[export] Hint Resolve ord_max_comm ord_max_assoc ord_max_idemp
  ord_min_comm ord_min_assoc ord_min_idemp : plex.

(** ** Lemmas: insertion-ordered maps *)

Section index_map_lemmas.
Context {V : Type}.
Implicit Types (l : list (string * V)) (k : string).

Lemma im_get_None k l : im_get k l = None ↔ k ∉ l.*1.
Proof.
  induction l as [|[k' v] l IH]; simpl; [set_solver|]. rewrite not_elem_of_cons.
  case_bool_decide; naive_solver.
Qed.

Lemma im_get_In k v l : im_get k l = Some v → (k, v) ∈ l.
Proof.
  induction l as [|[k' v'] l IH]; simpl; [done|]. rewrite elem_of_cons.
  case_bool_decide as H; [|by eauto]. intros [= ->]. left. congruence.
Qed.

Lemma im_get_NoDup k v l : NoDup l.*1 → (k, v) ∈ l → im_get k l = Some v.
Proof.
  induction l as [|[k' v'] l IH]; [by intros _ ?%not_elem_of_nil|].
  rewrite fmap_cons. intros [Hk Hl]%NoDup_cons. rewrite elem_of_cons. cbn [im_get].
  intros [[= -> ->]|Hin]; [by rewrite bool_decide_eq_true_2|].
  rewrite bool_decide_eq_false_2; [by apply IH|]. intros ->. apply Hk, list_elem_of_fmap.
  by exists (k, v).
Qed.

Lemma im_get_insert k k' v l :
  im_get k (im_insert k' v l) = if decide (k = k') then Some v else im_get k l.
Proof.
  induction l as [|[k2 v2] l IH]; cbn [im_insert im_get].
  - case_bool_decide; case_decide; congruence.
  - destruct (decide (k2 = k')) as [->|H1].
    + rewrite (bool_decide_eq_true_2 (k' = k')) by done. cbn [im_get].
      case_bool_decide; case_decide; congruence.
    + rewrite (bool_decide_eq_false_2 (k2 = k')) by done. cbn [im_get]. rewrite IH.
      case_bool_decide; case_decide; congruence.
Qed.

Lemma im_get_update k k' f l :
  im_get k (im_update k' f l) = if decide (k = k') then f <$> im_get k l else im_get k l.
Proof.
  induction l as [|[k2 v2] l IH]; cbn [im_update im_get]; [by case_decide|].
  destruct (decide (k2 = k')) as [->|H1].
  - rewrite (bool_decide_eq_true_2 (k' = k')) by done. cbn [im_get].
    destruct (decide (k = k')) as [->|]; [by rewrite bool_decide_eq_true_2|].
    by rewrite bool_decide_eq_false_2 by done.
  - rewrite (bool_decide_eq_false_2 (k2 = k')) by done. cbn [im_get]. rewrite IH.
    destruct (decide (k = k')) as [->|]; [by rewrite bool_decide_eq_false_2|done].
Qed.

Lemma im_get_remove k k' l : NoDup l.*1 →
  im_get k (im_remove k' l) = if decide (k = k') then None else im_get k l.
Proof.
  induction l as [|[k2 v2] l IH]; cbn [im_remove im_get]; [by case_decide|].
  rewrite fmap_cons. intros [Hk Hl]%NoDup_cons. specialize (IH Hl).
  destruct (decide (k2 = k')) as [->|H1].
  - rewrite (bool_decide_eq_true_2 (k' = k')) by done.
    destruct (decide (k = k')) as [->|]; [by apply im_get_None|].
    by rewrite bool_decide_eq_false_2 by done.
  - rewrite (bool_decide_eq_false_2 (k2 = k')) by done. cbn [im_get]. rewrite IH.
    destruct (decide (k = k')) as [->|]; [by rewrite bool_decide_eq_false_2|done].
Qed.

Lemma im_update_keys k f l : (im_update k f l).*1 = l.*1.
Proof.
  induction l as [|[k' v] l IH]; [done|]. cbn [im_update].
  case_bool_decide; rewrite !fmap_cons; [done | by rewrite IH].
Qed.

Lemma im_insert_keys k v l :
  (im_insert k v l).*1 = l.*1 ++ (if decide (k ∈ l.*1) then [] else [k]).
Proof.
  induction l as [|[k' v'] l IH]; [done|]. cbn [im_insert]. case_bool_decide as Hk.
  - subst. rewrite fmap_cons. rewrite decide_True by (rewrite fmap_cons; by left).
    by rewrite app_nil_r.
  - rewrite !fmap_cons, IH. simpl. f_equal. f_equal.
    destruct (decide (k ∈ l.*1)) as [Hin|Hin].
    + by rewrite decide_True by (by right).
    + rewrite decide_False; [done|]. intros [?|?]%elem_of_cons; congruence.
Qed.

Lemma im_remove_sublist k l : (im_remove k l).*1 `sublist_of` l.*1.
Proof.
  induction l as [|[k' v] l IH]; simpl; [done|].
  case_bool_decide; [by apply sublist_cons | by apply sublist_skip].
Qed.

Lemma im_insert_NoDup k v l : NoDup l.*1 → NoDup (im_insert k v l).*1.
Proof.
  intros Hl. rewrite im_insert_keys. case_decide; [by rewrite app_nil_r|].
  apply NoDup_app. split_and!; [done | | apply NoDup_singleton].
  intros x Hx ->%list_elem_of_singleton. done.
Qed.

Lemma im_remove_NoDup k l : NoDup l.*1 → NoDup (im_remove k l).*1.
Proof. intros Hl. eapply sublist_NoDup; [exact Hl | apply im_remove_sublist]. Qed.

Lemma im_update_compose k f g l :
  im_update k f (im_update k g l) = im_update k (λ v, f (g v)) l.
Proof.
  induction l as [|[k' v] l IH]; [done|]. cbn [im_update].
  destruct (decide (k' = k)) as [->|Hk].
  - rewrite bool_decide_eq_true_2 by done. cbn [im_update]. by rewrite bool_decide_eq_true_2.
  - rewrite bool_decide_eq_false_2 by done. cbn [im_update].
    rewrite bool_decide_eq_false_2 by done. by rewrite IH.
Qed.

Lemma im_update_NoDup k f l : NoDup l.*1 → NoDup (im_update k f l).*1.
Proof. by rewrite im_update_keys. Qed.
End index_map_lemmas.

#[export] Hint Resolve im_insert_NoDup im_remove_NoDup im_update_NoDup : plex.

(** ** Lemmas: transition systems *)

Section reachability_lemmas.
Context {S : Type} (step : S → S → Prop).

(** An invariant preserved by every step holds of every reachable state. *)
Lemma steps_invariant (Inv : S → Prop) s s' :
  (∀ s1 s2, Inv s1 → step s1 s2 → Inv s2) → Inv s → steps step s s' → Inv s'.
Proof. intros Hpres Hs. induction 1; eauto. Qed.

Lemma steps_trans s1 s2 s3 : steps step s1 s2 → steps step s2 s3 → steps step s1 s3.
Proof. intros H12. induction 1; eauto with plex. Qed.

(** A relation that is a preorder and contains every step contains every run. *)
Lemma steps_preorder (R : S → S → Prop) `{!PreOrder R} s s' :
  (∀ s1 s2, step s1 s2 → R s1 s2) → steps step s s' → R s s'.
Proof. intros HR. induction 1; [done | etrans; eauto]. Qed.

End reachability_lemmas.
