(* ===== verification/Text.v ===== *)
(** Text: the strings of the Standard Library of Rust that several components use, with their lemmas.

    A Rust string is the sequence of its bytes; a separator that is searched is ASCII. *)
From Stdlib Require Import Ascii.
From S2P Require Import Prelude.

#[local] Arguments String.append : simpl nomatch.

(** ** Strings of the Standard Library of Rust *)

Fixpoint str_drop (n : nat) (s : string) : string :=
  match n, s with S n, String _ s => str_drop n s | _, _ => s end.
(** [s.split_once(pat)] *)
Fixpoint split_once (pat s : string) : option (string * string) :=
  if String.prefix pat s then Some ("", str_drop (String.length pat) s)
  else match s with
       | EmptyString => None
       | String c s => '(a, b) ← split_once pat s; Some (String c a, b)
       end.
(** [s.rsplit_once(c)] *)
Fixpoint rsplit_once (c : ascii) (s : string) : option (string * string) :=
  match s with
  | EmptyString => None
  | String d s =>
      match rsplit_once c s with
      | Some (a, b) => Some (String d a, b)
      | None => if bool_decide (d = c) then Some ("", s) else None
      end
  end.
(** [s.splitn(n, c).collect()] *)
Fixpoint splitn (n : nat) (c : ascii) (s : string) : list string :=
  match n with
  | O => []
  | S O => [s]
  | S n => match split_once (String c "") s with Some (a, b) => a :: splitn n c b | None => [s] end
  end.
Fixpoint str_all (f : ascii → bool) (s : string) : bool :=
  match s with EmptyString => true | String c s => f c && str_all f s end.

Definition in_range (lo hi : nat) (c : ascii) : bool :=
  (lo <=? nat_of_ascii c)%nat && (nat_of_ascii c <=? hi)%nat.
Definition is_ascii_alphabetic (c : ascii) : bool := in_range 65 90 c || in_range 97 122 c.
Definition is_ascii_alphanumeric (c : ascii) : bool := is_ascii_alphabetic c || in_range 48 57 c.
Definition is_ascii_lowercase (c : ascii) : bool := in_range 97 122 c.

(** ** Lemmas: strings *)

Lemma prefix_app p s : String.prefix p (p +:+ s) = true.
Proof.
  induction p as [|c p IH]; simpl; [by destruct s|]. destruct (ascii_dec c c); [done | congruence].
Qed.

Lemma str_drop_app p s : str_drop (String.length p) (p +:+ s) = s.
Proof. induction p; [done | simpl; done]. Qed.

Lemma str_app_assoc a b c : (a +:+ b) +:+ c = a +:+ b +:+ c.
Proof. induction a as [|x a IH]; [done|]. simpl. by rewrite IH. Qed.

(** A separator is found where it is put when its first character does not occur before. *)
Lemma split_once_app p pat a b :
  str_all (λ c, negb (bool_decide (c = p))) a = true →
  split_once (String p pat) (a +:+ String p pat +:+ b) = Some (a, b).
Proof.
  induction a as [|c a IH]; intros Ha.
  - pose proof (prefix_app (String p pat) b) as Hp.
    pose proof (str_drop_app (String p pat) b) as Hd.
    change ("" +:+ String p pat +:+ b) with (String p (pat +:+ b)) in *.
    change (String p pat +:+ b) with (String p (pat +:+ b)) in *.
    cbn [split_once]. by rewrite Hp, Hd.
  - cbn [str_all] in Ha. apply andb_prop in Ha as [Hc Ha].
    apply negb_true_iff, bool_decide_eq_false in Hc.
    change (String c a +:+ String p pat +:+ b) with (String c (a +:+ String p pat +:+ b)).
    cbn [split_once]. cbn [String.prefix]. destruct (ascii_dec p c); [congruence|].
    by rewrite IH.
Qed.

Lemma split_once_None p pat s :
  str_all (λ c, negb (bool_decide (c = p))) s = true → split_once (String p pat) s = None.
Proof.
  induction s as [|c s IH]; [done|]. cbn [str_all]. intros [Hc Hs]%andb_prop.
  apply negb_true_iff, bool_decide_eq_false in Hc. cbn [split_once String.prefix].
  destruct (ascii_dec p c); [congruence|]. by rewrite IH.
Qed.

Lemma rsplit_once_None c s :
  rsplit_once c s = None ↔ str_all (λ d, negb (bool_decide (d = c))) s = true.
Proof.
  induction s as [|d s IH]; [done|]. simpl. destruct (rsplit_once c s) as [[a b]|].
  - rewrite andb_true_iff. split; [done|]. intros [_ Hs]. by apply IH in Hs.
  - rewrite (proj1 IH eq_refl), andb_true_r. by case_bool_decide.
Qed.

Lemma rsplit_once_app c a b :
  str_all (λ d, negb (bool_decide (d = c))) b = true →
  rsplit_once c (a +:+ String c b) = Some (a, b).
Proof.
  intros Hb. induction a as [|d a IH]; simpl.
  - rewrite (proj2 (rsplit_once_None c b)) by done. by rewrite bool_decide_eq_true_2.
  - by rewrite IH.
Qed.

Lemma rsplit_once_spec c s a b :
  rsplit_once c s = Some (a, b) →
  s = a +:+ String c b ∧ str_all (λ d, negb (bool_decide (d = c))) b = true.
Proof.
  revert a. induction s as [|d s IH]; intros a; simpl; [done|].
  destruct (rsplit_once c s) as [[a' b']|] eqn:E.
  - intros [= <- <-]. destruct (IH a' eq_refl) as [-> ?]. done.
  - case_bool_decide as Hd; [|done]. intros [= <- <-]. subst d.
    split; [done | by apply rsplit_once_None].
Qed.

Lemma prefix_spec p s : String.prefix p s = true → s = p +:+ str_drop (String.length p) s.
Proof.
  revert s. induction p as [|c p IH]; intros s; [by destruct s|]. destruct s as [|d s]; [done|].
  cbn [String.prefix]. destruct (ascii_dec c d) as [->|]; [|done]. intros H. simpl. f_equal.
  by apply IH.
Qed.

Lemma split_once_spec pat s a b :
  pat ≠ "" → split_once pat s = Some (a, b) → s = a +:+ pat +:+ b.
Proof.
  intros Hp. revert a b. induction s as [|c s IH]; intros a b; cbn [split_once].
  - by destruct pat.
  - destruct (String.prefix pat (String c s)) eqn:E.
    + intros [= <- <-]. by apply prefix_spec.
    + destruct (split_once pat s) as [[x y]|] eqn:E'; [|done]. simpl. intros [= <- <-].
      simpl. f_equal. by apply IH.
Qed.

Lemma str_all_impl (f g : ascii → bool) s :
  (∀ c, f c = true → g c = true) → str_all f s = true → str_all g s = true.
Proof.
  intros Hfg. induction s as [|c s IH]; simpl; [done|].
  intros [? ?]%andb_prop. apply andb_true_intro. split; [by apply Hfg | by apply IH].
Qed.

Lemma str_all_app f a b : str_all f (a +:+ b) = str_all f a && str_all f b.
Proof. induction a as [|c a IH]; simpl; [done|]. by rewrite IH, andb_assoc. Qed.

Lemma str_length_app a b : String.length (a +:+ b) = (String.length a + String.length b)%nat.
Proof. induction a; simpl; [done | by f_equal]. Qed.
