(* ===== verification/Context.v ===== *)
(** Context: the context of a request of crates/common/src/request_context_ext.rs, and how it crosses
    to another node (crates/actor/src/service_locator.rs).

    Of the context the tenant, the namespace, the flags and the user are kept; headers, metadata and
    identifiers of requests take no part in what is modelled.  The metadata of gRPC are a list of
    headers; a value that is no ASCII string is refused by the library and is then left out ([is_ascii]). *)
From S2P Require Import Prelude Text.

Record RequestContext := mkCtx {
  tenant_id : string;
  namespace : string;
  admin : bool;
  internal : bool;
  auth_enabled : bool;
  user_id : string
}.
Inductive RequestContextError := MissingTenantId.

Definition make_context (tenant_id namespace : string) (auth_enabled : bool) : RequestContext :=
  mkCtx tenant_id namespace false false auth_enabled "".
Definition context_new (tenant_id namespace : string) (auth_enabled : bool)
    : result RequestContextError RequestContext :=
  if auth_enabled && String.eqb tenant_id "" then Err MissingTenantId
  else Ok (make_context tenant_id namespace auth_enabled).
Definition new_without_auth (tenant_id namespace : string) : RequestContext :=
  make_context tenant_id namespace false.
Definition with_admin (b : bool) (c : RequestContext) : RequestContext :=
  mkCtx (tenant_id c) (namespace c) b (internal c) (auth_enabled c) (user_id c).
Definition with_internal (b : bool) (c : RequestContext) : RequestContext :=
  mkCtx (tenant_id c) (namespace c) (admin c) b (auth_enabled c) (user_id c).
Definition with_user_id (u : string) (c : RequestContext) : RequestContext :=
  mkCtx (tenant_id c) (namespace c) (admin c) (internal c) (auth_enabled c) u.
Definition should_skip_namespace_filter (c : RequestContext) : bool :=
  (admin c || internal c) && String.eqb (namespace c) "".

Definition from_auth (tenant ns user : option string) (admin auth_enabled : bool)
    (default_tenant : option string) : result RequestContextError RequestContext :=
  t ← (if auth_enabled then match tenant with Some t => Ok t | None => Err MissingTenantId end
       else Ok (default "" (match tenant with Some t => Some t | None => default_tenant end)));
  c ← context_new t (default "" ns) auth_enabled;
  let c := with_admin admin c in
  Ok (match user with Some u => with_user_id u c | None => c end).

(** ** On the wire *)

Abbreviation Metadata := (list (string * string)).

Definition is_ascii (s : string) : bool := str_all (in_range 32 126) s.
Definition header (k v : string) : Metadata := if negb (String.eqb v "") && is_ascii v then [(k, v)] else [].
Definition apply_request_context_to_grpc_metadata (c : RequestContext) : Metadata :=
  header "x-tenant-id" (tenant_id c) ++ header "x-namespace" (namespace c)
  ++ header "x-user-id" (user_id c) ++ (if admin c then [("x-admin", "true")] else []).
Definition non_empty (o : option string) : option string :=
  o ≫= (λ s, if String.eqb s "" then None else Some s).
Definition request_context_from_grpc_request (auth_enabled : bool) (md : Metadata)
    : result RequestContextError RequestContext :=
  from_auth (non_empty (im_get "x-tenant-id" md)) (im_get "x-namespace" md)
    (non_empty (im_get "x-user-id" md))
    match im_get "x-admin" md with Some s => String.eqb s "true" || String.eqb s "1" | None => false end
    auth_enabled None.
(** The context that a node with the flag [auth_enabled] recovers from a call. *)
Definition received (auth_enabled : bool) (c : RequestContext) : result RequestContextError RequestContext :=
  request_context_from_grpc_request auth_enabled (apply_request_context_to_grpc_metadata c).

(** ** Lemmas *)

Lemma im_get_header k k' v (md : Metadata) : is_ascii v = true →
  im_get k (header k' v ++ md) = if String.eqb k' k && negb (String.eqb v "") then Some v else im_get k md.
Proof.
  intros Hv. unfold header. rewrite Hv, andb_true_r. destruct (String.eqb v ""); cbn.
  - by rewrite andb_false_r.
  - rewrite andb_true_r. case_bool_decide as Hk; [subst; by rewrite String.eqb_refl|].
    by rewrite (proj2 (String.eqb_neq _ _) Hk).
Qed.

(** ** Properties *)

(** A context of ASCII fields crosses to another node with its tenant, its namespace, its user and the
    flag of administrators; the flag of internal calls is lost, authentication is that of the receiver,
    and without a tenant a receiver that authenticates refuses the call. *)
Theorem context_crosses_nodes a c : is_ascii (tenant_id c) = true → is_ascii (namespace c) = true →
  is_ascii (user_id c) = true →
  received a c = if a && String.eqb (tenant_id c) "" then Err MissingTenantId
                 else Ok (mkCtx (tenant_id c) (namespace c) (admin c) false a (user_id c)).
Proof.
  destruct c as [t n ad i au u]. cbn [tenant_id namespace admin user_id]. intros Ht Hn Hu.
  unfold received, request_context_from_grpc_request, apply_request_context_to_grpc_metadata.
  cbn [tenant_id namespace admin user_id]. rewrite !im_get_header by done.
  replace (im_get "x-tenant-id" (if ad then [("x-admin", "true")] else [])) with (@None string) by by destruct ad.
  replace (im_get "x-namespace" (if ad then [("x-admin", "true")] else [])) with (@None string) by by destruct ad.
  replace (im_get "x-user-id" (if ad then [("x-admin", "true")] else [])) with (@None string) by by destruct ad.
  cbn [String.eqb Ascii.eqb Bool.eqb andb].
  unfold from_auth, context_new, non_empty.
  destruct (String.eqb t "") eqn:Et, (String.eqb n "") eqn:En, (String.eqb u "") eqn:Eu, ad, a;
    repeat match goal with E : String.eqb _ "" = true |- _ => apply String.eqb_eq in E as -> end;
    cbn; rewrite ?Et, ?Eu; cbn; rewrite ?Et; done.
Qed.

Lemma context_crosses_nodes_witness :
  received true (with_internal true (new_without_auth "acme" "prod"))
  = Ok (mkCtx "acme" "prod" false false true "").
Proof. rewrite (context_crosses_nodes true (with_internal true (new_without_auth "acme" "prod"))) by done. done. Defined.
