(* ===== verification/Json.v ===== *)
(** Json: the values of serde_json, the structures of protobuf (google.protobuf.Struct), and the two
    conversions between them of crates/workflow/src (storage/sql.rs and types.rs).

    An object is the list of its fields in the order of their names, as in the map of serde_json and in
    that of a protobuf structure; [obj_insert] keeps the order.  A number is an integer or a double, as
    it is parsed; the numbers of a protobuf structure are doubles.  The text of a value is a parameter
    ([JsonText]): what is used of it is that the values of [storable] are read back, those whose doubles
    are whole numbers that a double holds exactly and which are not nested deeper than serde_json reads. *)
From S2P Require Import Prelude.

(** ** Values *)

Inductive Value :=
| Null
| Bool (b : bool)
| Number (n : Z)
| Float (x : f64)
| Str (s : string)
| Array (vs : list Value)
| Object (vs : list (string * Value)).

Abbreviation Fields := (list (string * Value)).

Definition get (k : string) (v : Value) : option Value :=
  match v with Object vs => im_get k vs | _ => None end.
(** [as_i64], for numbers in the range of [i64]. *)
Definition value_as_i64 (v : Value) : option Z :=
  match v with
  | Number n => if (- 2 ^ 63 <=? n) && (n <? 2 ^ 63) then Some n else None
  | _ => None
  end.
Definition value_as_u64 (v : Value) : option Z :=
  match v with
  | Number n => if (0 <=? n) && (n <? 2 ^ 64) then Some n else None
  | _ => None
  end.
Definition value_as_f64 (v : Value) : option f64 :=
  match v with Number n => Some (f64_of_Z n) | Float x => Some x | _ => None end.
Definition value_as_bool (v : Value) : option bool := match v with Bool b => Some b | _ => None end.
Definition value_as_str (v : Value) : option string := match v with Str s => Some s | _ => None end.
Definition value_as_array (v : Value) : option (list Value) :=
  match v with Array vs => Some vs | _ => None end.
Definition is_null (v : Value) : bool := match v with Null => true | _ => false end.

(** [Map::insert] *)
Fixpoint sorted_insert {A} (k : string) (v : A) (l : list (string * A)) : list (string * A) :=
  match l with
  | [] => [(k, v)]
  | (k', v') :: l' =>
      match String.compare k k' with
      | Eq => (k, v) :: l'
      | Lt => (k, v) :: l
      | Gt => (k', v') :: sorted_insert k v l'
      end
  end.
Definition obj_insert : string → Value → Fields → Fields := sorted_insert.
(** [json!({..})] *)
Definition json_object (kvs : Fields) : Value :=
  Object (foldl (λ m '(k, v), obj_insert k v m) [] kvs).

(** [PartialEq]: an integer and a double are never equal. *)
Definition f64_eqb (x y : f64) : bool := SFeqb x y.
Fixpoint value_eqb (v w : Value) {struct v} : bool :=
  match v, w with
  | Null, Null => true
  | Bool a, Bool b => Bool.eqb a b
  | Number a, Number b => a =? b
  | Float a, Float b => f64_eqb a b
  | Str a, Str b => String.eqb a b
  | Array vs, Array ws =>
      (fix go (vs ws : list Value) : bool :=
         match vs, ws with
         | [], [] => true
         | v :: vs, w :: ws => value_eqb v w && go vs ws
         | _, _ => false
         end) vs ws
  | Object vs, Object ws =>
      (fix go (vs ws : Fields) : bool :=
         match vs, ws with
         | [], [] => true
         | (k, v) :: vs, (l, w) :: ws => String.eqb k l && value_eqb v w && go vs ws
         | _, _ => false
         end) vs ws
  | _, _ => false
  end.

(** ** Text *)

(** Whole doubles of less than 2 ^ 53. *)
Definition exact (x : f64) : bool :=
  match x with
  | S754_zero s => negb s
  | S754_finite _ _ _ => (Z.abs (f64_trunc x) <? 2 ^ 53) && f64_eqb (f64_of_Z (f64_trunc x)) x
  | _ => false
  end.
Fixpoint exact_numbers (v : Value) : bool :=
  match v with
  | Null | Bool _ | Str _ => true
  | Number n => (- 2 ^ 63 <=? n) && (n <? 2 ^ 64)
  | Float x => exact x
  | Array vs => forallb exact_numbers vs
  | Object vs => forallb (λ kv, exact_numbers kv.2) vs
  end.
Fixpoint depth (v : Value) : Z :=
  match v with
  | Array vs => 1 + foldr (λ v d, Z.max (depth v) d) 0 vs
  | Object vs => 1 + foldr (λ kv d, Z.max (depth kv.2) d) 0 vs
  | _ => 0
  end.
Definition storable_at (d : Z) (v : Value) : bool := exact_numbers v && (depth v <=? d).
Definition storable : Value → bool := storable_at 127.

Class JsonText := {
  text : Type;
  to_string : Value → text;
  from_str : text → option Value
}.
Class JsonTextLaws `{!JsonText} : Prop :=
  from_to_string v : storable v = true → from_str (to_string v) = Some v.

(** ** Protobuf structures *)

Inductive PValue :=
| PNone
| NullValue
| BoolValue (b : bool)
| NumberValue (x : f64)
| StringValue (s : string)
| ListValue (vs : list PValue)
| StructValue (fields : list (string * PValue)).
Abbreviation Struct := (list (string * PValue)).

Definition sentinel : string := "__value__".

(** [Number::as_f64] *)
Definition number_as_f64 (v : Value) : f64 := default (f64_of_Z 0) (value_as_f64 v).

(** *** storage/sql.rs *)

Fixpoint value_to_prost_value (v : Value) : PValue :=
  match v with
  | Null => NullValue
  | Bool b => BoolValue b
  | Number _ | Float _ => NumberValue (number_as_f64 v)
  | Str s => StringValue s
  | Array vs => ListValue (value_to_prost_value <$> vs)
  | Object vs => StructValue ((λ '(k, v), (k, value_to_prost_value v)) <$> vs)
  end.
Definition value_to_struct (v : Value) : option Struct :=
  match v with
  | Object vs => Some ((λ '(k, v), (k, value_to_prost_value v)) <$> vs)
  | Null => None
  | _ => Some [(sentinel, value_to_prost_value v)]
  end.
Definition value_to_opt_struct (v : Value) : option Struct :=
  if is_null v then None else value_to_struct v.

(** [Number::from_f64], which refuses infinities and NaN. *)
Definition float_to_value (x : f64) : Value :=
  match x with S754_nan | S754_infinity _ => Null | _ => Float x end.
(** The value of the sentinel, when it is the only field. *)
Definition unwrap_sentinel (vs : Fields) : Value :=
  match vs with
  | [(k, v)] => if String.eqb k sentinel then v else Object vs
  | _ => Object vs
  end.
Fixpoint prost_value_to_value (p : PValue) : Value :=
  match p with
  | PNone | NullValue => Null
  | BoolValue b => Bool b
  | NumberValue x => float_to_value x
  | StringValue s => Str s
  | ListValue vs => Array (prost_value_to_value <$> vs)
  | StructValue fields => unwrap_sentinel ((λ '(k, p), (k, prost_value_to_value p)) <$> fields)
  end.
Definition struct_to_value (s : Struct) : Value :=
  unwrap_sentinel ((λ '(k, p), (k, prost_value_to_value p)) <$> s).
(** Without a test for the sentinel. *)
Definition execution_input_to_value (input : option Struct) : option Value :=
  (λ s, Object ((λ '(k, p), (k, prost_value_to_value p)) <$> s)) <$> input.

(** *** types.rs *)

Fixpoint json_value_to_prost_value (v : Value) : PValue :=
  match v with
  | Null => NullValue
  | Bool b => BoolValue b
  | Number _ | Float _ => NumberValue (number_as_f64 v)
  | Str s => StringValue s
  | Array vs => ListValue (json_value_to_prost_value <$> vs)
  | Object vs => StructValue ((λ '(k, v), (k, json_value_to_prost_value v)) <$> vs)
  end.
Definition json_value_to_prost_struct (v : Value) : option Struct :=
  match v with
  | Object vs => Some ((λ '(k, v), (k, json_value_to_prost_value v)) <$> vs)
  | _ => Some [(sentinel, json_value_to_prost_value v)]
  end.
Fixpoint prost_value_to_json (p : PValue) : Value :=
  match p with
  | PNone | NullValue => Null
  | BoolValue b => Bool b
  | NumberValue x => float_to_value x
  | StringValue s => Str s
  | ListValue vs => Array (prost_value_to_json <$> vs)
  | StructValue fields => unwrap_sentinel ((λ '(k, p), (k, prost_value_to_json p)) <$> fields)
  end.
Definition prost_struct_to_value (s : Struct) : Value :=
  unwrap_sentinel ((λ '(k, p), (k, prost_value_to_json p)) <$> s).

(** ** What a round trip through a structure does

    The numbers become doubles, and an object whose only field is the sentinel becomes the value of that
    field. *)

Fixpoint as_doubles (v : Value) : Value :=
  match v with
  | Number _ | Float _ => float_to_value (number_as_f64 v)
  | Array vs => Array (as_doubles <$> vs)
  | Object vs => unwrap_sentinel ((λ '(k, v), (k, as_doubles v)) <$> vs)
  | Null | Bool _ | Str _ => v
  end.
(** The values that it leaves alone. *)
Fixpoint plain (v : Value) : bool :=
  match v with
  | Number _ => false
  | Float x => match x with S754_nan | S754_infinity _ => false | _ => true end
  | Array vs => forallb plain vs
  | Object vs =>
      forallb (λ '(_, v), plain v) vs
      && match vs with [(k, _)] => negb (String.eqb k sentinel) | _ => true end
  | Null | Bool _ | Str _ => true
  end.

(** ** Lemmas *)

Section value_ind.
Variable P : Value → Prop.
Hypotheses (HNull : P Null) (HBool : ∀ b, P (Bool b)) (HNumber : ∀ n, P (Number n))
  (HFloat : ∀ x, P (Float x)) (HStr : ∀ s, P (Str s))
  (HArray : ∀ vs, Forall P vs → P (Array vs))
  (HObject : ∀ vs, Forall (λ kv, P kv.2) vs → P (Object vs)).

Fixpoint value_rect (v : Value) : P v :=
  match v with
  | Null => HNull
  | Bool b => HBool b
  | Number n => HNumber n
  | Float x => HFloat x
  | Str s => HStr s
  | Array vs =>
      HArray vs ((fix go (vs : list Value) : Forall P vs :=
        match vs with
        | [] => @List.Forall_nil _ P
        | v :: vs => @List.Forall_cons _ P v vs (value_rect v) (go vs)
        end) vs)
  | Object vs =>
      HObject vs ((fix go (vs : Fields) : Forall (λ kv, P kv.2) vs :=
        match vs with
        | [] => @List.Forall_nil _ _
        | kv :: vs => @List.Forall_cons _ (λ kv, P kv.2) kv vs (value_rect kv.2) (go vs)
        end) vs)
  end.
End value_ind.

(** Two maps over the values of fields. *)
Lemma fields_map {A B C} (f : A → B) (g : B → C) (l : list (string * A)) :
  (λ '(k, y), (k, g y)) <$> ((λ '(k, x), (k, f x)) <$> l) = (λ '(k, x), (k, g (f x))) <$> l.
Proof. rewrite <-list_fmap_compose. apply list_fmap_ext. by intros ? [k x]. Qed.
Lemma fields_ext {A B} (f g : A → B) (l : list (string * A)) :
  Forall (λ kv, f kv.2 = g kv.2) l → (λ '(k, x), (k, f x)) <$> l = (λ '(k, x), (k, g x)) <$> l.
Proof. induction 1 as [|[k x] l Hx _ IH]; cbn in *; [done|]. by rewrite Hx, IH. Qed.
Lemma fields_id {A} (f : A → A) (l : list (string * A)) :
  Forall (λ kv, f kv.2 = kv.2) l → (λ '(k, x), (k, f x)) <$> l = l.
Proof. induction 1 as [|[k x] l Hx _ IH]; cbn in *; [done|]. by rewrite Hx, IH. Qed.

Lemma value_roundtrip v : prost_value_to_value (value_to_prost_value v) = as_doubles v.
Proof.
  induction v as [| | | | |vs IH|vs IH] using value_rect; cbn; try done; f_equal.
  - rewrite <-list_fmap_compose. by apply Forall_fmap_ext_1.
  - rewrite fields_map. by apply fields_ext.
Qed.
Lemma plain_as_doubles v : plain v = true → as_doubles v = v.
Proof.
  induction v as [| | |x| |vs IH|vs IH] using value_rect; cbn; try done.
  - by destruct x.
  - intros Hp. f_equal. induction IH as [|v vs Hv _ IHvs]; cbn in *; [done|].
    apply andb_prop in Hp as [Hv' Hp]. by rewrite Hv, IHvs.
  - intros [Hp Hs]%andb_prop. rewrite fields_id.
    + unfold unwrap_sentinel. destruct vs as [|[k v] []]; [done| |done]. by destruct (String.eqb k sentinel).
    + clear Hs. induction IH as [|[k v] vs Hv _ IHvs]; cbn in *; [done|].
      apply andb_prop in Hp as [Hv' Hp]. constructor; cbn; auto.
Qed.
(** The two files convert alike, but for a null at the top. *)
Lemma json_value_same v : json_value_to_prost_value v = value_to_prost_value v.
Proof. reflexivity. Qed.
Lemma prost_value_same p : prost_value_to_json p = prost_value_to_value p.
Proof. reflexivity. Qed.

Lemma get_object k vs : get k (Object vs) = im_get k vs.
Proof. done. Qed.
Lemma storable_object d vs : 0 <= d → Forall (λ kv, storable_at d kv.2 = true) vs →
  storable_at (1 + d) (Object vs) = true.
Proof.
  intros Hd Hv. unfold storable_at. cbn [exact_numbers depth].
  assert (forallb (λ kv, exact_numbers kv.2) vs = true
          ∧ 0 <= foldr (λ kv d, Z.max (depth kv.2) d) 0 vs <= d) as [-> ?]; [|cbn; lia].
  induction Hv as [|kv vs Hkv _ IH]; cbn; [lia|]. unfold storable_at in Hkv.
  apply andb_prop in Hkv as [-> Hx%Z.leb_le]. destruct IH as [-> ?]. split; [done|lia].
Qed.
Lemma storable_at_scalar d v : 0 <= d → match v with Null | Bool _ | Str _ => True | _ => False end →
  storable_at d v = true.
Proof. intros Hd. unfold storable_at. destruct v; try done; cbn; lia. Qed.

(** ** Properties *)

(** Every value but null has a protobuf structure, which reads back as the value with its numbers as
    doubles and its sentinels unwrapped; the values without integers, infinite doubles and objects whose
    only field is the sentinel read back as they are. *)
Theorem struct_roundtrip v : v ≠ Null →
  struct_to_value <$> value_to_struct v = Some (as_doubles v)
  ∧ prost_struct_to_value <$> json_value_to_prost_struct v = Some (as_doubles v)
  ∧ (plain v = true → as_doubles v = v).
Proof.
  intros Hv.
  assert (struct_to_value <$> value_to_struct v = Some (as_doubles v)) as Hs.
  { destruct v; cbn; try done; f_equal.
    - f_equal. rewrite <-list_fmap_compose. apply list_fmap_ext. intros _ x _. apply value_roundtrip.
    - unfold struct_to_value. rewrite fields_map. f_equal. apply fields_ext, Forall_true.
      intros kv. apply value_roundtrip. }
  split_and!; [exact Hs| |by apply plain_as_doubles]. rewrite <-Hs. by destruct v.
Qed.

Lemma struct_roundtrip_witness :
  struct_to_value <$> value_to_struct (Object [("n", Number 5); ("xs", Array [Bool true; Null])])
  = Some (Object [("n", Float (f64_of_Z 5)); ("xs", Array [Bool true; Null])]).
Proof.
  destruct (struct_roundtrip (Object [("n", Number 5); ("xs", Array [Bool true; Null])])) as (-> & _); [done|].
  by vm_compute.
Defined.

(** An object whose only field is called as the sentinel loses it. *)
Example sentinel_is_lost :
  struct_to_value <$> value_to_struct (Object [("__value__", Str "x")]) = Some (Str "x").
Proof. done. Qed.
(** The input of an execution is read without a test for the sentinel: a list comes back wrapped. *)
Example input_is_not_unwrapped :
  execution_input_to_value (value_to_struct (Array [Null])) = Some (Object [("__value__", Array [Null])]).
Proof. done. Qed.
