(* ===== verification/Crdt.v ===== *)
(** Crdt: the lattice data types of crates/lattice/src/crdt.rs.

    The trait [Lattice] is the class [Lattice]; its documented contract (merge is associative,
    commutative and idempotent, bottom is the identity of merge) is the pair of classes
    [JoinLaws] and [BottomLaw], which the types that honour it instantiate.  A [HashMap] is a
    [gmap], a [BTreeSet] a [gset], a [u64] a [Z].  A [bottom] that panics is [None]. *)
From S2P Require Import Prelude.

(** ** The trait *)

Class Lattice (A : Type) := {
  merge : A → A → A;
  bottom : option A
}.

Definition subsumes {A} `{!Lattice A, !EqDecision A} (x y : A) : bool :=
  bool_decide (merge x y = x).

(** The documented contract of the trait. *)
Class JoinLaws (A : Type) `{!Lattice A} : Prop := {
  merge_comm : ∀ x y : A, merge x y = merge y x;
  merge_assoc : ∀ x y z : A, merge x (merge y z) = merge (merge x y) z;
  merge_idemp : ∀ x : A, merge x x = x
}.

Class BottomLaw (A : Type) `{!Lattice A} : Prop :=
  merge_bottom : ∀ b x : A, bottom = Some b → merge b x = x.

Class Default (T : Type) : Type := default_value : T.
#[export] Instance Z_Default : Default Z := 0.

(** ** Last-Writer-Wins *)

Record LWWLattice (T : Type) := mkLWW {
  lww_value : T;
  lww_timestamp : Z;
  lww_writer_id : string
}.
Arguments mkLWW {T}.
Arguments lww_value {T}.
Arguments lww_timestamp {T}.
Arguments lww_writer_id {T}.

Definition LWW_new {T} (v : T) (ts : Z) (w : string) : LWWLattice T := mkLWW v ts w.

Definition LWW_merge {T} (self other : LWWLattice T) : LWWLattice T :=
  match cmp (lww_timestamp self) (lww_timestamp other) with
  | Lt => other
  | Gt => self
  | Eq => if ord_gtb (lww_writer_id other) (lww_writer_id self) then other else self
  end.

#[export] Instance LWW_Lattice {T} : Lattice (LWWLattice T) :=
  {| merge := LWW_merge; bottom := None |}.

(** ** Grow-only set *)

Record SetLattice (T : Type) `{Countable T} := mkSet { set_elements : gset T }.
Arguments mkSet {T _ _}.
Arguments set_elements {T _ _}.

Section set.
Context {T : Type} `{Countable T}.

Definition Set_new : SetLattice T := mkSet ∅.
Definition Set_singleton (v : T) : SetLattice T := mkSet {[v]}.
Definition Set_contains (s : SetLattice T) (v : T) : bool := bool_decide (v ∈ set_elements s).
Definition Set_len (s : SetLattice T) : nat := size (set_elements s).
Definition Set_is_empty (s : SetLattice T) : bool := bool_decide (set_elements s = ∅).
Definition Set_merge (self other : SetLattice T) : SetLattice T :=
  mkSet (set_elements self ∪ set_elements other).

#[export] Instance Set_Lattice : Lattice (SetLattice T) :=
  {| merge := Set_merge; bottom := Some Set_new |}.
End set.

(** ** Counter *)

Record CounterLattice := mkCounter { counts : gmap string Z }.

Definition Counter_new : CounterLattice := mkCounter ∅.
Definition Counter_inc (actor_id : string) (amount : Z) : CounterLattice :=
  mkCounter {[actor_id := amount]}.
(** [values().sum()] on [u64]. *)
Definition Counter_total (c : CounterLattice) : Z :=
  map_fold (λ _ n acc, u64_add acc n) 0 (counts c).
Definition Counter_get (c : CounterLattice) (actor_id : string) : Z :=
  default 0 (counts c !! actor_id).
Definition Counter_merge (self other : CounterLattice) : CounterLattice :=
  mkCounter (merge_into Z.max (counts self) (counts other)).

#[export] Instance Counter_Lattice : Lattice CounterLattice :=
  {| merge := Counter_merge; bottom := Some Counter_new |}.

(** ** Maximum and minimum *)

Record MaxLattice (T : Type) := mkMax { max_value : T }.
Arguments mkMax {T}.
Arguments max_value {T}.
Record MinLattice (T : Type) := mkMin { min_value : T }.
Arguments mkMin {T}.
Arguments min_value {T}.

Section extrema.
Context {T : Type} `{!Ord T, !Default T}.

Definition Max_merge (self other : MaxLattice T) : MaxLattice T :=
  mkMax (ord_max (max_value self) (max_value other)).
Definition Max_bottom : MaxLattice T := mkMax default_value.
Definition Min_merge (self other : MinLattice T) : MinLattice T :=
  mkMin (ord_min (min_value self) (min_value other)).
Definition Min_bottom : MinLattice T := mkMin default_value.

#[export] Instance Max_Lattice : Lattice (MaxLattice T) :=
  {| merge := Max_merge; bottom := Some Max_bottom |}.
#[export] Instance Min_Lattice : Lattice (MinLattice T) :=
  {| merge := Min_merge; bottom := Some Min_bottom |}.
End extrema.

(** ** Vector clock *)

Record VectorClock := mkVC { clocks : gmap string Z }.
#[export] Instance VectorClock_eq_dec : EqDecision VectorClock.
Proof. solve_decision. Defined.

Definition VC_new : VectorClock := mkVC ∅.
(** [*c += 1] on [u64], or [1] for a node without an entry. *)
Definition VC_inc (vc : VectorClock) (node_id : string) : VectorClock :=
  mkVC (<[node_id := from_option (λ c, u64_add c 1) 1 (clocks vc !! node_id)]> (clocks vc)).
Definition VC_get (vc : VectorClock) (node_id : string) : Z := default 0 (clocks vc !! node_id).
Definition VC_happens_before (self other : VectorClock) : bool :=
  bool_decide (map_Forall (λ k v, v <= VC_get other k) (clocks self))
  && bool_decide (size (clocks self) ≤ size (clocks other))%nat.
Definition VC_concurrent (self other : VectorClock) : bool :=
  negb (VC_happens_before self other) && negb (VC_happens_before other self).
Definition VC_merge (self other : VectorClock) : VectorClock :=
  mkVC (merge_into Z.max (clocks self) (clocks other)).

#[export] Instance VC_Lattice : Lattice VectorClock :=
  {| merge := VC_merge; bottom := Some VC_new |}.

(** ** Pair *)

Record PairLattice (A B : Type) := mkPair { pair_first : A; pair_second : B }.
Arguments mkPair {A B}.
Arguments pair_first {A B}.
Arguments pair_second {A B}.

Section pair.
Context {A B : Type} `{!Lattice A, !Lattice B}.

Definition Pair_merge (self other : PairLattice A B) : PairLattice A B :=
  mkPair (merge (pair_first self) (pair_first other))
         (merge (pair_second self) (pair_second other)).
Definition Pair_bottom : option (PairLattice A B) :=
  a ← bottom; b ← bottom; Some (mkPair a b).

#[export] Instance Pair_Lattice : Lattice (PairLattice A B) :=
  {| merge := Pair_merge; bottom := Pair_bottom |}.
End pair.

(** ** Map *)

Record MapLattice (K V : Type) `{Countable K} := mkMap { map_entries : gmap K V }.
Arguments mkMap {K V _ _}.
Arguments map_entries {K V _ _}.

Section map.
Context {K V : Type} `{Countable K} `{!Lattice V}.

Definition Map_new : MapLattice K V := mkMap ∅.
Definition Map_insert (m : MapLattice K V) (k : K) (v : V) : MapLattice K V :=
  mkMap (entry_merge merge k v (map_entries m)).
Definition Map_get (m : MapLattice K V) (k : K) : option V := map_entries m !! k.
Definition Map_merge (self other : MapLattice K V) : MapLattice K V :=
  mkMap (merge_into merge (map_entries self) (map_entries other)).

#[export] Instance Map_Lattice : Lattice (MapLattice K V) :=
  {| merge := Map_merge; bottom := Some Map_new |}.
End map.

(** ** Observed-remove set *)

Record OrSetLattice (T : Type) `{Countable T} := mkOrSet {
  added : gmap T (gset string);
  removed : gset string
}.
Arguments mkOrSet {T _ _}.
Arguments added {T _ _}.
Arguments removed {T _ _}.

Section orset.
Context {T : Type} `{Countable T}.

Definition OrSet_new : OrSetLattice T := mkOrSet ∅ ∅.
Definition OrSet_add (s : OrSetLattice T) (value : T) (unique_id : string) : OrSetLattice T :=
  mkOrSet (<[value := {[unique_id]} ∪ default ∅ (added s !! value)]> (added s)) (removed s).
Definition OrSet_remove (s : OrSetLattice T) (value : T) : OrSetLattice T :=
  match added s !! value with
  | Some ids => mkOrSet (added s) (ids ∪ removed s)
  | None => s
  end.
(** [ids.iter().any(|id| !self.removed.contains(id))] *)
Definition OrSet_live (s : OrSetLattice T) (ids : gset string) : bool :=
  existsb (λ id, bool_decide (id ∉ removed s)) (elements ids).
Definition OrSet_contains (s : OrSetLattice T) (value : T) : bool :=
  from_option (OrSet_live s) false (added s !! value).
Definition OrSet_elements (s : OrSetLattice T) : list T :=
  (filter (λ kv : T * gset string, Is_true (OrSet_live s kv.2)) (map_to_list (added s))).*1.
Definition OrSet_merge (self other : OrSetLattice T) : OrSetLattice T :=
  mkOrSet (merge_into (∪) (added self) (added other)) (removed self ∪ removed other).

#[export] Instance OrSet_Lattice : Lattice (OrSetLattice T) :=
  {| merge := OrSet_merge; bottom := Some OrSet_new |}.
End orset.

(** ** Consistency levels *)

Inductive ConsistencyLevel :=
| Eventual | Causal | ReadCommitted | ReadUncommitted | Linearizable.

(** ** Theory of the trait

    What the code above the lattices relies on: the order [merge x y = y] is a partial order with
    [merge] its least upper bound, and the state of a replica depends only on the set of updates
    merged into it. *)

Section join_theory.
Context {A : Type} `{JoinLaws A}.
Implicit Types x y z : A.

Definition join_le x y : Prop := merge x y = y.

#[export] Instance join_le_preorder : PreOrder join_le.
Proof.
  split; unfold join_le.
  - intros x. apply merge_idemp.
  - intros x y z Hxy Hyz. rewrite <-Hyz, merge_assoc. by rewrite Hxy.
Qed.

Lemma join_le_antisym x y : join_le x y → join_le y x → x = y.
Proof. unfold join_le. intros Hxy Hyx. by rewrite <-Hxy, merge_comm. Qed.

Lemma join_ub_l x y : join_le x (merge x y).
Proof. unfold join_le. by rewrite merge_assoc, merge_idemp. Qed.

Lemma join_ub_r x y : join_le y (merge x y).
Proof. rewrite merge_comm. apply join_ub_l. Qed.

Lemma join_lub x y z : join_le x z → join_le y z → join_le (merge x y) z.
Proof. unfold join_le. intros Hx Hy. by rewrite <-merge_assoc, Hy. Qed.

Lemma subsumes_spec `{!EqDecision A} x y : subsumes x y = true ↔ join_le y x.
Proof. unfold subsumes, join_le. by rewrite bool_decide_eq_true, merge_comm. Qed.

Lemma foldl_merge_ub s l x : x = s ∨ x ∈ l → join_le x (foldl merge s l).
Proof.
  revert s x. induction l as [|y l IH]; intros s x; simpl.
  - intros [->|Hx]; [done | by apply elem_of_nil in Hx].
  - rewrite elem_of_cons. intros [->|[->|Hx]]; [| |by eauto].
    + etrans; [apply (join_ub_l s y) | eauto].
    + etrans; [apply (join_ub_r s y) | eauto].
Qed.

Lemma foldl_merge_lub s l z :
  join_le s z → (∀ x, x ∈ l → join_le x z) → join_le (foldl merge s l) z.
Proof.
  revert s. induction l as [|y l IH]; intros s Hs Hl; simpl; [done|].
  apply IH; [apply join_lub; [done | apply Hl, elem_of_cons; by left] |].
  intros x Hx. apply Hl, elem_of_cons. by right.
Qed.

End join_theory.

#[export] Hint Resolve join_ub_l join_ub_r join_lub : plex.

(** ** The laws of each type *)

#[export] Instance Set_JoinLaws `{Countable T} : JoinLaws (SetLattice T).
Proof.
  split; intros; simpl; unfold Set_merge; try destruct x; simpl; f_equal;
    auto with plex.
Qed.

#[export] Instance Set_BottomLaw `{Countable T} : BottomLaw (SetLattice T).
Proof. intros b [x] [= <-]. simpl. unfold Set_merge. simpl. by rewrite union_empty_l_L. Qed.

#[export] Instance Counter_JoinLaws : JoinLaws CounterLattice.
Proof.
  split; intros; simpl; unfold Counter_merge; try destruct x; simpl; f_equal;
    auto with plex.
Qed.

#[export] Instance Counter_BottomLaw : BottomLaw CounterLattice.
Proof. intros b [x] [= <-]. simpl. unfold Counter_merge. simpl. by rewrite merge_into_empty_l. Qed.

#[export] Instance Max_JoinLaws `{OrdLaws T, !Default T} : JoinLaws (MaxLattice T).
Proof.
  split; intros; simpl; unfold Max_merge; try destruct x; simpl; f_equal;
    auto with plex.
Qed.

#[export] Instance Min_JoinLaws `{OrdLaws T, !Default T} : JoinLaws (MinLattice T).
Proof.
  split; intros; simpl; unfold Min_merge; try destruct x; simpl; f_equal;
    auto with plex.
Qed.

#[export] Instance VC_JoinLaws : JoinLaws VectorClock.
Proof.
  split; intros; simpl; unfold VC_merge; try destruct x; simpl; f_equal;
    auto with plex.
Qed.

#[export] Instance VC_BottomLaw : BottomLaw VectorClock.
Proof. intros b [x] [= <-]. simpl. unfold VC_merge. simpl. by rewrite merge_into_empty_l. Qed.

#[export] Instance Pair_JoinLaws `{JoinLaws A, JoinLaws B} : JoinLaws (PairLattice A B).
Proof.
  split; intros; simpl; unfold Pair_merge; try destruct x; simpl; f_equal;
    auto using merge_comm, merge_assoc, merge_idemp.
Qed.

#[export] Instance Pair_BottomLaw `{BottomLaw A, BottomLaw B} : BottomLaw (PairLattice A B).
Proof.
  intros b [x y]. simpl. unfold Pair_bottom, Pair_merge. simpl.
  destruct (bottom : option A) eqn:EA, (bottom : option B) eqn:EB; intros; simplify_eq/=.
  f_equal; by apply merge_bottom.
Qed.

#[export] Instance Map_JoinLaws `{Countable K, JoinLaws V} : JoinLaws (MapLattice K V).
Proof.
  split; intros; simpl; unfold Map_merge; try destruct x; simpl; f_equal;
    auto using merge_comm, merge_assoc, merge_idemp with plex.
Qed.

#[export] Instance Map_BottomLaw `{Countable K, !Lattice V} : BottomLaw (MapLattice K V).
Proof. intros b [x] [= <-]. simpl. unfold Map_merge. simpl. by rewrite merge_into_empty_l. Qed.

#[export] Instance OrSet_JoinLaws `{Countable T} : JoinLaws (OrSetLattice T).
Proof.
  split; intros; simpl; unfold OrSet_merge; try destruct x; simpl; f_equal;
    auto with plex.
Qed.

#[export] Instance OrSet_BottomLaw `{Countable T} : BottomLaw (OrSetLattice T).
Proof.
  intros b [x r] [= <-]. simpl. unfold OrSet_merge. simpl. by rewrite merge_into_empty_l, union_empty_l_L.
Qed.

(** ** Lemmas on the observed-remove set *)

Section orset_lemmas.
Context {T : Type} `{Countable T}.
Implicit Types s : OrSetLattice T.

Lemma OrSet_live_spec s ids : OrSet_live s ids = true ↔ ∃ id, id ∈ ids ∧ id ∉ removed s.
Proof.
  unfold OrSet_live. rewrite existsb_exists. split.
  - intros (id & Hin & Hid%bool_decide_eq_true). exists id. split; [|done].
    by apply elem_of_elements, list_elem_of_In.
  - intros (id & Hin & Hid). exists id. rewrite bool_decide_eq_true. split; [|done].
    by apply list_elem_of_In, elem_of_elements.
Qed.

(** A value is in the set iff one of its identifiers has not been removed. *)
Lemma OrSet_contains_spec s v :
  OrSet_contains s v = true ↔ ∃ ids id, added s !! v = Some ids ∧ id ∈ ids ∧ id ∉ removed s.
Proof.
  unfold OrSet_contains. destruct (added s !! v) as [ids|] eqn:E; simpl.
  - rewrite OrSet_live_spec. naive_solver.
  - naive_solver.
Qed.

Lemma OrSet_elements_spec s v : v ∈ OrSet_elements s ↔ OrSet_contains s v = true.
Proof.
  unfold OrSet_elements. rewrite list_elem_of_fmap. unfold OrSet_contains. split.
  - intros ([v' ids] & -> & Hin). apply list_elem_of_filter in Hin as [Hl Hin].
    apply elem_of_map_to_list in Hin. simpl in *. rewrite Hin. by apply Is_true_true.
  - destruct (added s !! v) as [ids|] eqn:E; [|done]. simpl. intros Hl.
    exists (v, ids). split; [done|]. apply list_elem_of_filter. simpl.
    by rewrite Is_true_true, elem_of_map_to_list.
Qed.

Lemma OrSet_added_merge s1 s2 v :
  added (OrSet_merge s1 s2) !! v = union_with (λ x y, Some (x ∪ y)) (added s1 !! v) (added s2 !! v).
Proof. apply lookup_merge_into. Qed.

End orset_lemmas.

(** ** Lemmas on the vector clock *)

(** Every clock value is positive: what [VC_inc] writes while no clock overflows. *)
Definition VC_wf (vc : VectorClock) : Prop := map_Forall (λ _ v, 0 < v) (clocks vc).

Lemma VC_new_wf : VC_wf VC_new.
Proof. apply map_Forall_empty. Qed.

Lemma VC_inc_wf vc n : VC_get vc n < u64_max → VC_wf vc → VC_wf (VC_inc vc n).
Proof.
  unfold VC_get. intros Hn Hwf. apply map_Forall_insert_2; [|done].
  destruct (clocks vc !! n) as [c|] eqn:E; simpl in *; [|lia].
  specialize (Hwf _ _ E). simpl in Hwf. rewrite u64_add_small; lia.
Qed.

Lemma VC_merge_wf a b : VC_wf a → VC_wf b → VC_wf (VC_merge a b).
Proof.
  intros Ha Hb k v. simpl. rewrite lookup_merge_into.
  destruct (clocks a !! k) eqn:Ea, (clocks b !! k) eqn:Eb; simpl; intros [= <-]; eauto.
  specialize (Ha _ _ Ea). specialize (Hb _ _ Eb). simpl in *. lia.
Qed.

#[export] Hint Resolve VC_new_wf VC_inc_wf VC_merge_wf : plex.

Lemma VC_get_merge a b n :
  VC_wf a → VC_wf b → VC_get (VC_merge a b) n = Z.max (VC_get a n) (VC_get b n).
Proof.
  intros Ha Hb. unfold VC_get. simpl. rewrite lookup_merge_into.
  destruct (clocks a !! n) eqn:Ea, (clocks b !! n) eqn:Eb; simpl; try done.
  - specialize (Ha _ _ Ea). simpl in *. lia.
  - specialize (Hb _ _ Eb). simpl in *. lia.
Qed.

Lemma VC_get_nonneg a n : VC_wf a → 0 <= VC_get a n.
Proof.
  intros Ha. unfold VC_get. destruct (clocks a !! n) as [v|] eqn:E; simpl; [|done].
  specialize (Ha _ _ E). simpl in Ha. lia.
Qed.

Lemma VC_dom_get a n : VC_wf a → n ∈ dom (clocks a) ↔ 0 < VC_get a n.
Proof.
  intros Ha. unfold VC_get. rewrite elem_of_dom.
  destruct (clocks a !! n) as [v|] eqn:E; simpl; split; intros Hn; try done.
  apply (Ha _ _ E).
Qed.

(** On well-formed clocks the size test of [happens_before] is redundant: it is the pointwise
    order of the clock values. *)
Lemma VC_happens_before_spec a b :
  VC_wf a → VC_wf b → VC_happens_before a b = true ↔ ∀ n, VC_get a n <= VC_get b n.
Proof.
  intros Ha Hb. unfold VC_happens_before. rewrite andb_true_iff, !bool_decide_eq_true. split.
  - intros [Hle _] n. unfold VC_get at 1. destruct (clocks a !! n) as [v|] eqn:E; simpl.
    + by apply Hle in E.
    + by apply VC_get_nonneg.
  - intros Hle. split.
    + intros k v E. specialize (Hle k). unfold VC_get at 1 in Hle. by rewrite E in Hle.
    + rewrite <-!size_dom. apply subseteq_size. intros k.
      rewrite !VC_dom_get by done. specialize (Hle k). lia.
Qed.

Lemma VC_ext a b : VC_wf a → VC_wf b → (∀ n, VC_get a n = VC_get b n) → a = b.
Proof.
  destruct a as [ma], b as [mb]. intros Ha Hb Hab. f_equal. apply map_eq. intros n.
  specialize (Hab n). unfold VC_get in Hab. simpl in Hab.
  destruct (ma !! n) eqn:Ea, (mb !! n) eqn:Eb; simpl in *; simplify_eq/=; try done.
  - specialize (Ha _ _ Ea). simpl in Ha. lia.
  - specialize (Hb _ _ Eb). simpl in Hb. lia.
Qed.

Lemma VC_happens_before_join_le a b :
  VC_wf a → VC_wf b → VC_happens_before a b = true ↔ join_le a b.
Proof.
  intros Ha Hb. rewrite VC_happens_before_spec by done. unfold join_le. simpl. split.
  - intros Hle. apply VC_ext; auto with plex. intros n. rewrite VC_get_merge by done.
    specialize (Hle n). lia.
  - intros Hab n. rewrite <-Hab, VC_get_merge by done. lia.
Qed.

Lemma VC_happens_before_false a b :
  VC_wf a → VC_wf b → VC_happens_before a b = false ↔ ∃ n, VC_get b n < VC_get a n.
Proof.
  intros Ha Hb. rewrite <-not_true_iff_false, VC_happens_before_spec by done. split.
  - intros Hn. destruct (decide (map_Forall (λ k v, v <= VC_get b k) (clocks a))) as [Hd|Hd].
    + destruct Hn. intros n. destruct (clocks a !! n) as [v|] eqn:E.
      * unfold VC_get at 1. rewrite E. by apply (Hd _ _ E).
      * unfold VC_get at 1. rewrite E. by apply VC_get_nonneg.
    + apply map_not_Forall in Hd as (k & v & E & Hv); [|apply _]. exists k.
      unfold VC_get at 2. rewrite E. simpl. lia.
  - intros [n Hn] Hle. specialize (Hle n). lia.
Qed.

Lemma VC_get_inc a n m :
  VC_wf a → VC_get a n < u64_max →
  VC_get (VC_inc a n) m = VC_get a m + (if decide (n = m) then 1 else 0).
Proof.
  intros Ha Hn. unfold VC_get at 1. simpl. rewrite lookup_insert. case_decide as Hnm.
  - subst m. pose proof (VC_get_nonneg a n Ha). unfold VC_get in *.
    destruct (clocks a !! n) as [c|]; simpl in *; [|done]. apply u64_add_small. lia.
  - unfold VC_get. lia.
Qed.

(** ** Lemmas on the last-writer-wins lattice *)

(** The key two writes are compared by. *)
Definition LWW_key {T} (a : LWWLattice T) : Z * string := (lww_timestamp a, lww_writer_id a).

Lemma LWW_merge_alt {T} (a b : LWWLattice T) :
  LWW_merge a b = if ord_gtb (LWW_key b) (LWW_key a) then b else a.
Proof.
  unfold LWW_merge, ord_gtb, LWW_key. unfold cmp at 3, prod_Ord. simpl.
  rewrite (cmp_antisym (lww_timestamp a)). by destruct (cmp _ _).
Qed.

(** ** Properties *)

(** Strong eventual consistency: two replicas that start in the same state and merge the
    same set of updates, in any order and with any duplication, reach the same state. *)
Theorem replicas_converge {A : Type} `{JoinLaws A} (s : A) (l1 l2 : list A) :
  (∀ x, x ∈ l1 ↔ x ∈ l2) → foldl merge s l1 = foldl merge s l2.
Proof.
  intros Hl. apply join_le_antisym; apply foldl_merge_lub.
  1,3: by apply foldl_merge_ub; left.
  all: intros x Hx; apply foldl_merge_ub; right; by apply Hl.
Qed.

Lemma replicas_converge_witness :
  let a := OrSet_add OrSet_new 1 "n1-a" in
  let b := OrSet_remove (OrSet_add a 2 "n2-b") 1 in
  foldl merge OrSet_new [a; b; a] = foldl merge OrSet_new [b; a].
Proof. apply (replicas_converge (A := OrSetLattice Z)). set_solver. Defined.

(** Observed-remove semantics: a remove deletes the value for good in the replica that
    executes it, and a concurrent add with a fresh identifier survives the merge with that
    remove, whatever the order of the two replicas in the merge. *)
Theorem or_set_add_wins {T : Type} `{Countable T} (s : OrSetLattice T) (v : T) (uid : string) :
  uid ∉ removed s → (∀ ids, added s !! v = Some ids → uid ∉ ids) →
  OrSet_contains (OrSet_remove s v) v = false
  ∧ OrSet_contains (merge (OrSet_remove s v) (OrSet_add s v uid)) v = true
  ∧ OrSet_contains (merge (OrSet_add s v uid) (OrSet_remove s v)) v = true.
Proof.
  intros Hr Hids.
  assert (Hwin : OrSet_contains (merge (OrSet_remove s v) (OrSet_add s v uid)) v = true).
  { apply OrSet_contains_spec. unfold OrSet_remove. destruct (added s !! v) as [ids|] eqn:E.
    - exists (ids ∪ ({[uid]} ∪ ids)), uid. specialize (Hids _ eq_refl). simpl.
      rewrite lookup_merge_into, lookup_insert_eq, E. set_solver.
    - exists ({[uid]} ∪ ∅), uid. simpl. rewrite lookup_merge_into, lookup_insert_eq, E.
      set_solver. }
  split_and!; [|done|by rewrite merge_comm].
  apply not_true_iff_false. rewrite OrSet_contains_spec. unfold OrSet_remove.
  destruct (added s !! v) as [ids|] eqn:E; simpl; [set_solver|naive_solver].
Qed.

Lemma or_set_add_wins_witness :
  let s := OrSet_add OrSet_new 7 "n1-0" in
  OrSet_contains (OrSet_remove s 7) 7 = false
  ∧ OrSet_contains (merge (OrSet_remove s 7) (OrSet_add s 7 "n2-1")) 7 = true
  ∧ OrSet_contains (merge (OrSet_add s 7 "n2-1") (OrSet_remove s 7)) 7 = true.
Proof.
  apply (or_set_add_wins (OrSet_add OrSet_new 7 "n1-0") 7 "n2-1"); [set_solver|].
  intros ids. vm_compute. intros [= <-]. by vm_compute.
Defined.

(** [LWWLattice::merge] is associative and idempotent, but it commutes only on writes that
    differ in timestamp or writer: two writes with the same timestamp and writer and different
    values leave two replicas that merge each other's state in different states, so the
    documented law of the trait fails. *)
Theorem lww_merge_laws {T : Type} :
  (∀ a b c : LWWLattice T, merge a (merge b c) = merge (merge a b) c)
  ∧ (∀ a : LWWLattice T, merge a a = a)
  ∧ (∀ a b : LWWLattice T, merge a b = merge b a ↔
       lww_timestamp a ≠ lww_timestamp b ∨ lww_writer_id a ≠ lww_writer_id b ∨ a = b).
Proof.
  simpl. split_and!.
  - intros a b c. rewrite !LWW_merge_alt.
    destruct (ord_gtb (LWW_key c) (LWW_key b)) eqn:Ecb,
      (ord_gtb (LWW_key b) (LWW_key a)) eqn:Eba; rewrite ?Ecb, ?Eba; try done.
    + by rewrite (ord_gtb_trans _ _ _ Ecb Eba).
    + by rewrite (ord_gtb_neg_trans _ _ _ Ecb Eba).
  - intros a. rewrite LWW_merge_alt. by destruct (ord_gtb _ _).
  - intros a b. rewrite !LWW_merge_alt. destruct (ord_gtb (LWW_key b) (LWW_key a)) eqn:Eba.
    + rewrite (ord_gtb_asym _ _ Eba). split; [intros _ | done].
      destruct (decide (LWW_key a = LWW_key b)) as [Hk|Hk].
      * by rewrite Hk, (ord_gtb_asym _ _ Eba) in Eba.
      * unfold LWW_key in Hk. destruct (decide (lww_timestamp a = lww_timestamp b)); [|by left].
        right. left. congruence.
    + destruct (ord_gtb (LWW_key a) (LWW_key b)) eqn:Eab.
      * split; [intros _|done].
        destruct (decide (lww_timestamp a = lww_timestamp b)) as [Ht|]; [|by left].
        right. left. intros Hw. unfold LWW_key in *. rewrite Ht, Hw in *. congruence.
      * pose proof (ord_gtb_total _ _ Eab Eba) as [= Ht Hw]. naive_solver.
Qed.

(** [VectorClock::happens_before] is the causal order: on clocks built by [inc] and [merge]
    it is a partial order, [merge] is the least upper bound of two clocks, a local event
    strictly advances the clock, and [concurrent] holds of exactly the incomparable clocks. *)
Theorem vector_clock_causality (a b : VectorClock) (n : string) :
  VC_wf a → VC_wf b → VC_get a n < u64_max →
  (VC_happens_before a b = true → VC_happens_before b a = true → a = b)
  ∧ (VC_happens_before a (VC_merge a b) = true ∧ VC_happens_before b (VC_merge a b) = true)
  ∧ (∀ c, VC_wf c → VC_happens_before a c = true → VC_happens_before b c = true →
       VC_happens_before (VC_merge a b) c = true)
  ∧ (VC_happens_before a (VC_inc a n) = true ∧ VC_happens_before (VC_inc a n) a = false)
  ∧ (VC_concurrent a b = true ↔
       (∃ m, VC_get b m < VC_get a m) ∧ (∃ m, VC_get a m < VC_get b m)).
Proof.
  intros Ha Hb Hn.
  assert (Hm : VC_wf (VC_merge a b)) by auto with plex.
  assert (Hi : VC_wf (VC_inc a n)) by auto with plex.
  split_and!.
  - rewrite !VC_happens_before_join_le by done. apply join_le_antisym.
  - apply VC_happens_before_join_le; [done..|]. exact (join_ub_l a b).
  - apply VC_happens_before_join_le; [done..|]. exact (join_ub_r a b).
  - intros c Hc. rewrite !VC_happens_before_join_le by done. exact (join_lub a b c).
  - apply VC_happens_before_spec; [done..|]. intros m. rewrite VC_get_inc by done.
    case_decide; lia.
  - apply VC_happens_before_false; [done..|]. exists n. rewrite VC_get_inc by done.
    rewrite decide_True by done. lia.
  - unfold VC_concurrent. by rewrite andb_true_iff, !negb_true_iff, !VC_happens_before_false.
Qed.

Lemma vector_clock_causality_witness :
  let a := VC_inc VC_new "n1" in
  let b := VC_inc VC_new "n2" in
  VC_wf a ∧ VC_concurrent a b = true
  ∧ ((∃ m, VC_get b m < VC_get a m) ∧ (∃ m, VC_get a m < VC_get b m)).
Proof.
  assert (Ha : VC_wf (VC_inc VC_new "n1")) by (apply VC_inc_wf; [done|apply VC_new_wf]).
  assert (Hb : VC_wf (VC_inc VC_new "n2")) by (apply VC_inc_wf; [done|apply VC_new_wf]).
  split_and!; [done|done|..];
    apply (vector_clock_causality (VC_inc VC_new "n1") (VC_inc VC_new "n2") "n1" Ha Hb); done.
Defined.

(** The [bottom] of [MinLattice] is the default of the value type, which for an unsigned
    integer is the least value: it is not the identity of [merge] but an absorbing element, so
    merging a replica into a fresh [MinLattice] discards the replica's value. [MaxLattice]'s
    bottom is the identity for unsigned values, and not for a negative one. *)
Theorem min_bottom_absorbs (x : Z) :
  0 <= x →
  merge Min_bottom (mkMin x) = Min_bottom
  ∧ merge Max_bottom (mkMax x) = mkMax x
  ∧ (¬ BottomLaw (MinLattice Z)) ∧ (¬ BottomLaw (MaxLattice Z)).
Proof.
  intros Hx. split_and!.
  - simpl. unfold Min_merge, Min_bottom, ord_min, default_value, Z_Default, cmp, Z_Ord. simpl.
    by destruct x.
  - simpl. unfold Max_merge, Max_bottom, ord_max, default_value, Z_Default, cmp, Z_Ord. simpl.
    by destruct x.
  - intros Hb. by specialize (Hb Min_bottom (mkMin 5) eq_refl).
  - intros Hb. by specialize (Hb Max_bottom (mkMax (-5)) eq_refl).
Qed.

Lemma min_bottom_absorbs_witness :
  merge Min_bottom (mkMin 5) = Min_bottom ∧ ¬ BottomLaw (MinLattice Z).
Proof. split; by apply (min_bottom_absorbs 5). Defined.
