(* ===== verification/TupleSpace.v ===== *)
(** TupleSpace: the Linda tuple space of crates/tuplespace/src (mod.rs, provider.rs) and the
    storage trait of storage.rs.

    A time is a number of nanoseconds; an operation takes the time [now] at which it runs, which
    stands for every call of [Utc::now()] it makes.  An operation changes the tuples in one
    critical section and notifies the watchers and barriers in later ones; the definitions compose
    these sections in their order, and a run executes its operations one after the other, which is
    what one task sees.  A watcher's channel is the sequence of the events sent to it: a sender
    that finds the 100 slots of the channel full waits, which delays events and does not reorder or
    drop them.  On an external storage a spawned task forwards the events of other nodes to the
    local watchers; one forwarded event is the operation [forward_event]. *)
From S2P Require Import Prelude.

(** ** Fields and tuples *)

(** An [f64] by its 64 bits ([to_bits]). *)
Record OrderedFloat := mkOF { of_bits : Z }.

Inductive TupleField :=
| TFInteger (z : Z)
| TFString (s : string)
| TFBoolean (b : bool)
| TFBinary (bytes : list Z)
| TFFloat (x : OrderedFloat)
| TFNull.

Definition f64_of_bits (b : Z) : f64 :=
  let sign := Z.testbit b 63 in
  let ex := Z.land (Z.shiftr b 52) 2047 in
  let man := Z.land b (2 ^ 52 - 1) in
  if decide (ex = 2047) then (if decide (man = 0) then S754_infinity sign else S754_nan)
  else if decide (ex = 0) then
    match man with Zpos p => S754_finite sign p (-1074) | _ => S754_zero sign end
  else
    match man + 2 ^ 52 with Zpos p => S754_finite sign p (ex - 1075) | _ => S754_nan end.

(** [PartialEq for OrderedFloat] compares bits, [Ord for OrderedFloat] compares values with NaN
    above every number. *)
Definition OrderedFloat_eq (x y : OrderedFloat) : bool := of_bits x =? of_bits y.
Definition OrderedFloat_cmp (x y : OrderedFloat) : comparison :=
  let fx := f64_of_bits (of_bits x) in
  let fy := f64_of_bits (of_bits y) in
  match f64_is_nan fx, f64_is_nan fy with
  | true, true => Eq
  | true, false => Gt
  | false, true => Lt
  | false, false => default Eq (SFcompare fx fy)
  end.

#[export] Instance OrderedFloat_eq_dec : EqDecision OrderedFloat.
Proof. solve_decision. Defined.
#[export] Instance TupleField_eq_dec : EqDecision TupleField.
Proof. solve_decision. Defined.
#[export] Instance TupleField_countable : Countable TupleField.
Proof.
  refine (inj_countable'
    (λ f, match f with
          | TFInteger z => inl (inl z) | TFString s => inl (inr (inl s))
          | TFBoolean b => inl (inr (inr b)) | TFBinary l => inr (inl l)
          | TFFloat x => inr (inr (Some (of_bits x))) | TFNull => inr (inr None) end)
    (λ c : (Z + (string + bool)) + (list Z + option Z),
          match c with
          | inl (inl z) => TFInteger z | inl (inr (inl s)) => TFString s
          | inl (inr (inr b)) => TFBoolean b | inr (inl l) => TFBinary l
          | inr (inr (Some x)) => TFFloat (mkOF x) | inr (inr None) => TFNull end) _).
  by intros [| | | | [] |].
Defined.

Record Lease := mkLease { expires_at : Z; owner : option string; renewable : bool }.
#[export] Instance Lease_eq_dec : EqDecision Lease.
Proof. solve_decision. Defined.
#[export] Instance Lease_countable : Countable Lease.
Proof.
  refine (inj_countable' (λ l, (expires_at l, owner l, renewable l))
    (λ '(e, o, r), mkLease e o r) _). by intros [].
Defined.

Definition Lease_new (now duration : Z) : Lease := mkLease (now + duration) None false.
Definition Lease_renewable (l : Lease) : Lease := mkLease (expires_at l) (owner l) true.
Definition Lease_with_owner (l : Lease) (o : string) : Lease :=
  mkLease (expires_at l) (Some o) (renewable l).
Definition Lease_is_expired (now : Z) (l : Lease) : bool := expires_at l <? now.
Definition Lease_renew (now : Z) (l : Lease) (duration : Z) : Lease * result string () :=
  if negb (renewable l) then (l, Err "Lease is not renewable"%string)
  else (mkLease (now + duration) (owner l) (renewable l), Ok ()).
(** [num_seconds] and [num_milliseconds] truncate the positive duration. *)
Definition Lease_ttl_seconds (now : Z) (l : Lease) : Z :=
  if now <? expires_at l then
    let duration := expires_at l - now in
    let seconds := duration / 1000000000 in
    let millis := (duration / 1000000) mod 1000 in
    if (0 <? millis) && (0 <=? seconds) then Z.max (seconds + 1) 0 else Z.max seconds 0
  else 0.

Record Tuple := mkTuple {
  fields : list TupleField;
  lease : option Lease;
  metadata : gmap string string
}.
#[export] Instance Tuple_eq_dec : EqDecision Tuple.
Proof. solve_decision. Defined.
#[export] Instance Tuple_countable : Countable Tuple.
Proof.
  refine (inj_countable' (λ t, (fields t, lease t, metadata t))
    (λ '(f, l, m), mkTuple f l m) _). by intros [].
Defined.

Definition Tuple_new (fs : list TupleField) : Tuple := mkTuple fs None ∅.
Definition with_lease (t : Tuple) (l : Lease) : Tuple := mkTuple (fields t) (Some l) (metadata t).
Definition with_metadata (t : Tuple) (k v : string) : Tuple :=
  mkTuple (fields t) (lease t) (<[k := v]> (metadata t)).
Definition is_expired (now : Z) (t : Tuple) : bool :=
  match lease t with Some l => Lease_is_expired now l | None => false end.

(** ** Patterns *)

Inductive FieldType := FTInteger | FTString | FTBoolean | FTBinary | FTFloat | FTNull.

Inductive PatternField :=
| Exact (f : TupleField)
| Wildcard
| TypeOf (ty : FieldType)
| Predicate (pred : TupleField → bool).

Record Pattern := mkPattern { pattern_fields : list PatternField }.

Definition matches_type (field : TupleField) (field_type : FieldType) : bool :=
  match field, field_type with
  | TFInteger _, FTInteger | TFString _, FTString | TFBoolean _, FTBoolean
  | TFBinary _, FTBinary | TFFloat _, FTFloat | TFNull, FTNull => true
  | _, _ => false
  end.

Definition PatternField_matches (p : PatternField) (field : TupleField) : bool :=
  match p with
  | Exact expected => bool_decide (field = expected)
  | Wildcard => true
  | TypeOf ty => matches_type field ty
  | Predicate pred => pred field
  end.

(** The loop over the zipped fields, with its early [return false]. *)
Fixpoint matches_fields (ps : list PatternField) (fs : list TupleField) : bool :=
  match ps, fs with
  | p :: ps, f :: fs => if negb (PatternField_matches p f) then false else matches_fields ps fs
  | _, _ => true
  end.

Definition Tuple_matches (t : Tuple) (p : Pattern) : bool :=
  if negb (length (fields t) =? length (pattern_fields p))%nat then false
  else matches_fields (pattern_fields p) (fields t).
Definition Pattern_matches (p : Pattern) (t : Tuple) : bool :=
  if negb (length (pattern_fields p) =? length (fields t))%nat then false
  else matches_fields (pattern_fields p) (fields t).

(** ** Errors, statistics, watchers and barriers *)

Inductive TupleSpaceError :=
| NotFound
| PatternError (msg : string) | LeaseError (msg : string) | IoError (msg : string)
| BackendError (msg : string) | SerializationError (msg : string) | NotSupported (msg : string)
| NotImplemented (msg : string) | InvalidConfiguration (msg : string)
| ConnectionError (msg : string).

Record TupleSpaceStats := mkStats {
  total_writes : Z; total_reads : Z; total_takes : Z; current_size : Z
}.
Definition stats_default : TupleSpaceStats := mkStats 0 0 0 0.
Definition stats_read (s : TupleSpaceStats) : TupleSpaceStats :=
  mkStats (total_writes s) (u64_add (total_reads s) 1) (total_takes s) (current_size s).
Definition stats_write (s : TupleSpaceStats) : TupleSpaceStats :=
  mkStats (u64_add (total_writes s) 1) (total_reads s) (total_takes s) (current_size s).
Definition stats_take (s : TupleSpaceStats) (n : Z) : TupleSpaceStats :=
  mkStats (total_writes s) (total_reads s) (u64_add (total_takes s) n) (current_size s).
Definition stats_size (s : TupleSpaceStats) (n : Z) : TupleSpaceStats :=
  mkStats (total_writes s) (total_reads s) (total_takes s) n.

Inductive WatchEvent := Added (t : Tuple) | Removed (t : Tuple).

(** The sending half of a watcher's channel: the events delivered so far, and whether the
    receiver still exists (a send to a dropped receiver fails and is ignored). *)
Record WatchSender := mkSender { delivered : list WatchEvent; receiver_open : bool }.
Definition sender_send (s : WatchSender) (e : WatchEvent) : WatchSender :=
  if receiver_open s then mkSender (delivered s ++ [e]) true else s.

Record Watcher := mkWatcher { watch_pattern : Pattern; watch_sender : WatchSender }.
(** [if tuple.matches(&watcher.pattern) { sender.send(event) }] *)
Definition watcher_notify (ev : Tuple → WatchEvent) (t : Tuple) (w : Watcher) : Watcher :=
  if Tuple_matches t (watch_pattern w)
  then mkWatcher (watch_pattern w) (sender_send (watch_sender w) (ev t)) else w.

(** Waiters are numbered; [barrier_count] is the participant count. *)
Record Barrier := mkBarrier {
  barrier_pattern : Pattern; barrier_count : Z; barrier_waiters : list Z
}.
Definition barrier_complete (t : Tuple) (b : Barrier) : bool :=
  Tuple_matches t (barrier_pattern b)
  && (barrier_count b <=? Z.of_nat (length (barrier_waiters b))).

(** ** The storage trait *)

Class TupleSpaceStorage (S : Type) := {
  storage_write : S → Tuple → S * result TupleSpaceError string;
  storage_read : S → Pattern → S * result TupleSpaceError (list Tuple);
  storage_take : S → Pattern → S * result TupleSpaceError (list Tuple);
  storage_count : S → Pattern → S * result TupleSpaceError Z;
  storage_exists : S → Pattern → S * result TupleSpaceError bool;
  storage_clear : S → S * result TupleSpaceError ();
  storage_publish_watch_event : S → string → Tuple → string → S * result TupleSpaceError ()
}.

(** What the trait's documentation promises, for a store whose contents are [contents]: [read]
    returns the matching tuples, [take] returns and removes them ("read + remove in single
    operation"). *)
Class StorageLaws (S : Type) `{!TupleSpaceStorage S} (contents : S → list Tuple) : Prop := {
  storage_read_spec : ∀ s p, storage_read s p
    = (s, Ok (List.filter (λ t, Tuple_matches t p) (contents s)));
  storage_take_spec : ∀ s p, ∃ s', storage_take s p
      = (s', Ok (List.filter (λ t, Tuple_matches t p) (contents s)))
    ∧ contents s' = List.filter (λ t, negb (Tuple_matches t p)) (contents s);
  storage_publish_contents : ∀ s e t n, contents (storage_publish_watch_event s e t n).1 = contents s
}.

(** ** The space *)

Inductive TupleSpaceBackend (S : Type) :=
| InMemory (tuples : list Tuple)
| External (storage : S).
Arguments InMemory {S} tuples.
Arguments External {S} storage.

Record TupleSpace (S : Type) := mkTS {
  storage : TupleSpaceBackend S;
  watchers : gmap string Watcher;
  barriers : gmap string Barrier;
  stats : TupleSpaceStats;
  tenant : string;
  namespace : string;
  capabilities : gmap string string;
  (** the waiters whose receiver has been sent its [()] *)
  signalled : gset Z
}.
Arguments mkTS {S}.
Arguments storage {S}.
Arguments watchers {S}.
Arguments barriers {S}.
Arguments stats {S}.
Arguments tenant {S}.
Arguments namespace {S}.
Arguments capabilities {S}.
Arguments signalled {S}.

(** The operations of the space; the module keeps their names apart from those of lists. *)
Module Space.
Section space.
Context {S : Type} `{!TupleSpaceStorage S}.
Implicit Types ts : TupleSpace S.

Definition set_storage ts (b : TupleSpaceBackend S) : TupleSpace S :=
  mkTS b (watchers ts) (barriers ts) (stats ts) (tenant ts) (namespace ts) (capabilities ts)
    (signalled ts).
Definition set_stats ts (s : TupleSpaceStats) : TupleSpace S :=
  mkTS (storage ts) (watchers ts) (barriers ts) s (tenant ts) (namespace ts) (capabilities ts)
    (signalled ts).
Definition set_watchers ts (w : gmap string Watcher) : TupleSpace S :=
  mkTS (storage ts) w (barriers ts) (stats ts) (tenant ts) (namespace ts) (capabilities ts)
    (signalled ts).
Definition set_barriers ts (b : gmap string Barrier) (sig : gset Z) : TupleSpace S :=
  mkTS (storage ts) (watchers ts) b (stats ts) (tenant ts) (namespace ts) (capabilities ts) sig.

Definition memory_capabilities : gmap string string :=
  {[ "storage" := "memory"; "storage.persistent" := "false"; "storage.distributed" := "false";
     "replication" := "none"; "barriers" := "enabled"; "leases" := "enabled" ]}%string.
Definition with_tenant_namespace (tn ns : string) : TupleSpace S :=
  mkTS (InMemory []) ∅ ∅ stats_default tn ns memory_capabilities ∅.

Definition external_capabilities : gmap string string :=
  {[ "storage" := "external"; "storage.persistent" := "true"; "storage.distributed" := "false";
     "replication" := "none"; "barriers" := "enabled"; "leases" := "enabled" ]}%string.
Definition with_storage_and_tenant (s : S) (tn ns : string) : TupleSpace S :=
  mkTS (External s) ∅ ∅ stats_default tn ns external_capabilities ∅.

(** [retain(|t| !t.is_expired())] *)
Definition retain_live (now : Z) (l : list Tuple) : list Tuple :=
  List.filter (λ t, negb (is_expired now t)) l.

Definition write_to_storage (now : Z) ts (t : Tuple) : TupleSpace S * result TupleSpaceError () :=
  match storage ts with
  | InMemory tuples =>
      let tuples' := retain_live now tuples ++ [t] in
      let st := stats_size (stats_write (stats ts)) (Z.of_nat (length tuples')) in
      (set_stats (set_storage ts (InMemory tuples')) st, Ok ())
  | External s =>
      match storage_write s t with
      | (s', Ok _) => (set_stats (set_storage ts (External s')) (stats_write (stats ts)), Ok ())
      | (s', Err e) => (set_storage ts (External s'), Err e)
      end
  end.

Definition notify_watchers (ev : Tuple → WatchEvent) ts (t : Tuple) : TupleSpace S :=
  set_watchers ts (watcher_notify ev t <$> watchers ts).

Definition publish_watch (event : string) ts (t : Tuple) : TupleSpace S :=
  match storage ts with
  | InMemory _ => ts
  | External s => set_storage ts (External (storage_publish_watch_event s event t (namespace ts)).1)
  end.

(** A complete barrier wakes and drains all its waiters and stays in place. *)
Definition check_barriers ts (t : Tuple) : TupleSpace S :=
  set_barriers ts
    ((λ b, if barrier_complete t b then mkBarrier (barrier_pattern b) (barrier_count b) [] else b)
       <$> barriers ts)
    (map_fold (λ _ b acc,
       if barrier_complete t b then list_to_set (barrier_waiters b) ∪ acc else acc)
       (signalled ts) (barriers ts)).

Definition notify_watchers_and_barriers ts (t : Tuple) : TupleSpace S :=
  check_barriers (publish_watch "Added" (notify_watchers Added ts t) t) t.
Definition notify_watchers_on_removal ts (t : Tuple) : TupleSpace S :=
  publish_watch "Removed" (notify_watchers Removed ts t) t.

Definition write (now : Z) ts (t : Tuple) : TupleSpace S * result TupleSpaceError () :=
  match write_to_storage now ts t with
  | (ts', Ok _) => (notify_watchers_and_barriers ts' t, Ok ())
  | (ts', Err e) => (ts', Err e)
  end.

Definition read (now : Z) ts (p : Pattern) : TupleSpace S * result TupleSpaceError (option Tuple) :=
  let ts := set_stats ts (stats_read (stats ts)) in
  match storage ts with
  | InMemory tuples =>
      (ts, Ok (List.find (λ t, negb (is_expired now t) && Tuple_matches t p) tuples))
  | External s =>
      let '(s', r) := storage_read s p in
      (set_storage ts (External s'), head <$> r)
  end.

Definition read_all (now : Z) ts (p : Pattern)
    : TupleSpace S * result TupleSpaceError (list Tuple) :=
  let ts := set_stats ts (stats_read (stats ts)) in
  match storage ts with
  | InMemory tuples =>
      (ts, Ok (List.filter (λ t, negb (is_expired now t) && Tuple_matches t p) tuples))
  | External s => let '(s', r) := storage_read s p in (set_storage ts (External s'), r)
  end.

(** [iter().position(..)] and [Vec::remove]. *)
Fixpoint position {A : Type} (f : A → bool) (l : list A) : option nat :=
  match l with
  | [] => None
  | x :: l => if f x then Some O else Datatypes.S <$> position f l
  end.

Definition take_from_storage (now : Z) ts (p : Pattern)
    : TupleSpace S * result TupleSpaceError (option Tuple) :=
  match storage ts with
  | InMemory tuples =>
      let tuples' := retain_live now tuples in
      match position (λ t, Tuple_matches t p) tuples' with
      | Some pos =>
          let rest := delete pos tuples' in
          let st := stats_size (stats_take (stats ts) 1) (Z.of_nat (length rest)) in
          (set_stats (set_storage ts (InMemory rest)) st, Ok (tuples' !! pos))
      | None => (set_storage ts (InMemory tuples'), Ok None)
      end
  | External s =>
      match storage_take s p with
      | (s', Ok tuples) =>
          let t := last tuples in  (* [Vec::pop] *)
          let st := match t with Some _ => stats_take (stats ts) 1 | None => stats ts end in
          (set_stats (set_storage ts (External s')) st, Ok t)
      | (s', Err e) => (set_storage ts (External s'), Err e)
      end
  end.

Definition take (now : Z) ts (p : Pattern) : TupleSpace S * result TupleSpaceError (option Tuple) :=
  match take_from_storage now ts p with
  | (ts', Ok (Some t)) => (notify_watchers_on_removal ts' t, Ok (Some t))
  | r => r
  end.

Definition take_all (now : Z) ts (p : Pattern)
    : TupleSpace S * result TupleSpaceError (list Tuple) :=
  match storage ts with
  | InMemory tuples =>
      let live := retain_live now tuples in
      let taken := List.filter (λ t, Tuple_matches t p) live in
      let remaining := List.filter (λ t, negb (Tuple_matches t p)) live in
      let ts := foldl (notify_watchers Removed) ts taken in
      let st := stats_size (stats_take (stats ts) (Z.of_nat (length taken)))
                  (Z.of_nat (length remaining)) in
      (set_stats (set_storage ts (InMemory remaining)) st, Ok taken)
  | External s =>
      match storage_take s p with
      | (s', Ok taken) =>
          let ts := set_stats (set_storage ts (External s'))
                      (stats_take (stats ts) (Z.of_nat (length taken))) in
          (foldl (notify_watchers Removed) ts taken, Ok taken)
      | (s', Err e) => (set_storage ts (External s'), Err e)
      end
  end.

Definition eval {R : Type} (now : Z) ts (p : Pattern) (f : Tuple → R)
    : TupleSpace S * result TupleSpaceError (list R) :=
  match storage ts with
  | InMemory tuples =>
      (ts, Ok (f <$> List.filter (λ t, negb (is_expired now t) && Tuple_matches t p) tuples))
  | External s =>
      let '(s', r) := storage_read s p in (set_storage ts (External s'), fmap (M := list) f <$> r)
  end.

Definition count (now : Z) ts (p : Pattern) : TupleSpace S * result TupleSpaceError Z :=
  match storage ts with
  | InMemory tuples =>
      (ts, Ok (Z.of_nat (length
        (List.filter (λ t, negb (is_expired now t) && Tuple_matches t p) tuples))))
  | External s => let '(s', r) := storage_count s p in (set_storage ts (External s'), r)
  end.

Definition exists_ (now : Z) ts (p : Pattern) : TupleSpace S * result TupleSpaceError bool :=
  match storage ts with
  | InMemory tuples =>
      (ts, Ok (existsb (λ t, negb (is_expired now t) && Tuple_matches t p) tuples))
  | External s => let '(s', r) := storage_exists s p in (set_storage ts (External s'), r)
  end.

(** One iteration of the loop of the task that [with_storage_and_tenant] spawns. *)
Definition forward_event ts (event_type : string) (t : Tuple) : TupleSpace S :=
  if bool_decide (event_type = "Added"%string) then notify_watchers Added ts t
  else if bool_decide (event_type = "Removed"%string) then notify_watchers Removed ts t
  else ts.

(** [id] is the fresh identifier ([Ulid::new()]) of the watcher. *)
Definition watch ts (id : string) (p : Pattern) : TupleSpace S :=
  set_watchers ts (<[id := mkWatcher p (mkSender [] true)]> (watchers ts)).

(** [waiter] is the fresh number of the waiter. *)
Definition barrier ts (name : string) (p : Pattern) (n : Z) (waiter : Z) : TupleSpace S :=
  let b := default (mkBarrier p n []) (barriers ts !! name) in
  set_barriers ts
    (<[name := mkBarrier (barrier_pattern b) n (barrier_waiters b ++ [waiter])]> (barriers ts))
    (signalled ts).

(** [for tuple in tuples { self.write(tuple).await?; }] *)
Fixpoint write_batch (now : Z) ts (l : list Tuple) : TupleSpace S * result TupleSpaceError () :=
  match l with
  | [] => (ts, Ok ())
  | t :: l =>
      match write now ts t with
      | (ts', Ok _) => write_batch now ts' l
      | (ts', Err e) => (ts', Err e)
      end
  end.

Definition clear_internal ts : TupleSpace S :=
  match storage ts with
  | InMemory _ => set_stats (set_storage ts (InMemory [])) (stats_size (stats ts) 0)
  | External s =>
      set_stats (set_storage ts (External (storage_clear s).1)) (stats_size (stats ts) 0)
  end.

(** *** The provider trait's operations *)

(** [TupleSpaceProvider::barrier] up to its [recv().await]: the waiter is registered and then
    waits for its signal. *)
Definition provider_barrier ts (barrier_id : string) (expected_count : Z) (waiter : Z)
    : TupleSpace S * result TupleSpaceError () :=
  if bool_decide (capabilities ts !! "barriers"%string ≠ Some "enabled"%string)
  then (ts, Err (NotSupported "Barriers not supported by this provider"))
  else
    let p := mkPattern [Exact (TFString "barrier"); Exact (TFString barrier_id)] in
    (barrier ts barrier_id p expected_count waiter, Ok ()).

Definition cleanup_expired (now : Z) ts : TupleSpace S * result TupleSpaceError Z :=
  if bool_decide (capabilities ts !! "leases"%string ≠ Some "enabled"%string) then (ts, Ok 0)
  else
    match storage ts with
    | InMemory tuples =>
        let kept := retain_live now tuples in
        (set_storage ts (InMemory kept),
         Ok (Z.of_nat (length tuples) - Z.of_nat (length kept)))
    | External _ => (ts, Ok 0)
    end.

(** The trait's default [clear]: [take] a one-field wildcard until nothing matches.  [fuel]
    bounds the iterations. *)
Fixpoint provider_default_clear (fuel : nat) (now : Z) ts
    : option (TupleSpace S * result TupleSpaceError ()) :=
  match fuel with
  | O => None
  | Datatypes.S fuel =>
      match take now ts (mkPattern [Wildcard]) with
      | (ts', Ok (Some _)) => provider_default_clear fuel now ts'
      | (ts', Ok None) => Some (ts', Ok ())
      | (ts', Err e) => Some (ts', Err e)
      end
  end.

End space.

(** ** Runs *)

(** A run of operations, each at its own time.  [exec] returns the space, the tuples that the
    operation took and the events it caused. *)
Inductive SpaceOp :=
| OpWrite (t : Tuple) | OpRead (p : Pattern) | OpReadAll (p : Pattern)
| OpTake (p : Pattern) | OpTakeAll (p : Pattern) | OpCleanup
| OpForward (added : bool) (t : Tuple).

Section runs.
Context {S : Type} `{!TupleSpaceStorage S}.
Implicit Types ts : TupleSpace S.

Definition exec (now : Z) ts (op : SpaceOp) : TupleSpace S * list Tuple * list WatchEvent :=
  match op with
  | OpWrite t =>
      let '(ts', r) := write now ts t in (ts', [], if is_ok r then [Added t] else [])
  | OpRead p => ((read now ts p).1, [], [])
  | OpReadAll p => ((read_all now ts p).1, [], [])
  | OpTake p =>
      let '(ts', r) := take now ts p in
      let got := match r with Ok (Some t) => [t] | _ => [] end in (ts', got, Removed <$> got)
  | OpTakeAll p =>
      let '(ts', r) := take_all now ts p in
      let got := match r with Ok l => l | _ => [] end in (ts', got, Removed <$> got)
  | OpCleanup => ((cleanup_expired now ts).1, [], [])
  | OpForward added t =>
      (forward_event ts (if added then "Added" else "Removed")%string t, [],
       [if added then Added t else Removed t])
  end.

Fixpoint run (ops : list (Z * SpaceOp)) ts : TupleSpace S * list Tuple * list WatchEvent :=
  match ops with
  | [] => (ts, [], [])
  | (now, op) :: ops =>
      let '(ts1, got1, ev1) := exec now ts op in
      let '(ts2, got2, ev2) := run ops ts1 in (ts2, got1 ++ got2, ev1 ++ ev2)
  end.

Definition written (ops : list (Z * SpaceOp)) : list Tuple :=
  omap (λ '(_, op), match op with OpWrite t => Some t | _ => None end) ops.
Definition event_matches (p : Pattern) (e : WatchEvent) : bool :=
  match e with Added t | Removed t => Tuple_matches t p end.

End runs.

(** ** Lemmas: matching *)

Lemma matches_fields_spec ps fs :
  length ps = length fs →
  matches_fields ps fs = true ↔ Forall2 (λ p f, PatternField_matches p f = true) ps fs.
Proof.
  revert fs. induction ps as [|p ps IH]; intros [|f fs] Hlen; simplify_eq/=.
  - split; [constructor | done].
  - rewrite Forall2_cons, <-IH by done. destruct (PatternField_matches p f); naive_solver.
Qed.

Lemma Tuple_matches_spec t p :
  Tuple_matches t p = true
    ↔ Forall2 (λ p f, PatternField_matches p f = true) (pattern_fields p) (fields t).
Proof.
  unfold Tuple_matches. destruct (Nat.eqb_spec (length (fields t)) (length (pattern_fields p))).
  - simpl. by apply matches_fields_spec.
  - split; [done|]. intros Hf. by apply Forall2_length in Hf.
Qed.

(** ** Lemmas: lists *)

Lemma position_spec {A} (f : A → bool) l :
  match position f l with
  | Some pos => ∃ x, l !! pos = Some x ∧ List.find f l = Some x ∧ f x = true
      ∧ l ≡ₚ x :: delete pos l
  | None => List.find f l = None
  end.
Proof.
  induction l as [|y l IH]; simpl; [done|]. destruct (f y) eqn:E; simpl.
  - by exists y.
  - destruct (position f l) as [pos|]; simpl; [|done].
    destruct IH as (x & Hx & Hf & Ht & Hp). exists x. split_and!; try done.
    change (delete (S pos) (y :: l)) with (y :: delete pos l).
    by rewrite Permutation_swap, <-Hp.
Qed.

Lemma retain_live_idemp now l : retain_live now (retain_live now l) = retain_live now l.
Proof.
  unfold retain_live. rewrite filter_filter. apply filter_ext_in. intros x _. apply andb_diag.
Qed.

(** ** The in-memory space as a Linda space

    The abstract state of an in-memory space at time [now] is the sequence of its live tuples, in
    the order in which they were written. *)

Definition tuples_of {S} (ts : TupleSpace S) : list Tuple :=
  match storage ts with InMemory l => l | External _ => [] end.
Definition in_memory {S} (ts : TupleSpace S) : Prop :=
  match storage ts with InMemory _ => True | External _ => False end.
Definition live {S} (now : Z) (ts : TupleSpace S) : list Tuple := retain_live now (tuples_of ts).

Section lemmas.
Context {S : Type} `{!TupleSpaceStorage S}.
Implicit Types ts : TupleSpace S.

Lemma tuples_of_notify ev ts t : tuples_of (notify_watchers ev ts t) = tuples_of ts.
Proof. done. Qed.

Lemma storage_foldl_notify ev ts l : storage (foldl (notify_watchers ev) ts l) = storage ts.
Proof. revert ts. induction l as [|t l IH]; intros ts; simpl; [done|]. by rewrite IH. Qed.

Lemma publish_in_memory event ts t : in_memory ts → publish_watch event ts t = ts.
Proof. unfold in_memory, publish_watch. by destruct (storage ts). Qed.

Lemma write_in_memory now ts t :
  in_memory ts →
  (write now ts t).2 = Ok ()
  ∧ storage (write now ts t).1 = InMemory (live now ts ++ [t]).
Proof.
  unfold in_memory, write, write_to_storage, live, tuples_of. destruct (storage ts); [|done].
  intros _. done.
Qed.

Lemma take_in_memory now ts p :
  in_memory ts →
  (take now ts p).2 = Ok (List.find (λ t, Tuple_matches t p) (live now ts))
  ∧ ∃ rest, storage (take now ts p).1 = InMemory rest
    ∧ live now ts ≡ₚ option_list (List.find (λ t, Tuple_matches t p) (live now ts)) ++ rest.
Proof.
  unfold in_memory, take, take_from_storage, live, tuples_of. destruct (storage ts) as [l|]; [|done].
  intros _. pose proof (position_spec (λ t, Tuple_matches t p) (retain_live now l)) as Hp.
  destruct (position _ _) as [pos|].
  - destruct Hp as (x & Hx & Hf & _ & Hperm). rewrite Hx, Hf. split; [done|].
    by exists (delete pos (retain_live now l)).
  - rewrite Hp. split; [done|]. by exists (retain_live now l).
Qed.

Lemma take_all_in_memory now ts p :
  in_memory ts →
  (take_all now ts p).2 = Ok (List.filter (λ t, Tuple_matches t p) (live now ts))
  ∧ storage (take_all now ts p).1
    = InMemory (List.filter (λ t, negb (Tuple_matches t p)) (live now ts)).
Proof.
  unfold in_memory, take_all, live, tuples_of. by destruct (storage ts).
Qed.

Lemma read_in_memory now ts p :
  in_memory ts →
  (read now ts p).2 = Ok (List.find (λ t, Tuple_matches t p) (live now ts))
  ∧ (read_all now ts p).2 = Ok (List.filter (λ t, Tuple_matches t p) (live now ts))
  ∧ storage (read now ts p).1 = storage ts ∧ storage (read_all now ts p).1 = storage ts.
Proof.
  unfold in_memory, read, read_all, live, tuples_of, retain_live. simpl.
  destruct (storage ts) as [l|] eqn:E; [|done]. intros _. simpl.
  by rewrite find_filter, filter_filter, E.
Qed.

Lemma in_memory_storage ts l : storage ts = InMemory l → in_memory ts ∧ tuples_of ts = l.
Proof. unfold in_memory, tuples_of. by intros ->. Qed.

Lemma retain_live_all now l : Forall (λ t, is_expired now t = false) l → retain_live now l = l.
Proof.
  unfold retain_live. induction 1 as [|t l Ht Hl IH]; simpl; [done|]. by rewrite Ht, IH.
Qed.

Lemma live_Forall now ts : Forall (λ t, is_expired now t = false) (live now ts).
Proof.
  apply Forall_forall. intros t [_ Ht]%elem_of_filterb. by apply negb_true_iff in Ht.
Qed.

(** A sub-multiset of the live tuples is live. *)
Lemma live_sub now ts l l' ts' :
  live now ts ≡ₚ l' ++ l → storage ts' = InMemory l → live now ts' = l.
Proof.
  intros Hp Hs. unfold live at 1, tuples_of. rewrite Hs. apply retain_live_all.
  pose proof (live_Forall now ts) as Hl. rewrite Hp in Hl. by apply Forall_app in Hl as [_ ?].
Qed.

End lemmas.

End Space.

Import Space.

Section run_lemmas.
Context {S : Type} `{!TupleSpaceStorage S}.
Implicit Types ts : TupleSpace S.

Lemma retain_live_split now l : ∃ expired,
  l ≡ₚ retain_live now l ++ expired ∧ Forall (λ t, is_expired now t = true) expired.
Proof.
  exists (List.filter (λ x, negb (negb (is_expired now x))) l).
  split; [apply filter_partition|]. apply Forall_forall.
  intros t [_ Ht]%elem_of_filterb. by rewrite negb_involutive in Ht.
Qed.

(** One operation conserves tuples: what was there or is written is taken, expired or there. *)
Lemma exec_conserves now ts op ts' got ev :
  in_memory ts → exec now ts op = (ts', got, ev) →
  in_memory ts' ∧ ∃ expired, Forall (λ t, is_expired now t = true) expired
    ∧ tuples_of ts ++ written [(now, op)] ≡ₚ got ++ expired ++ tuples_of ts'.
Proof.
  intros Hm. destruct (retain_live_split now (tuples_of ts)) as (ex & Hsplit & Hex).
  destruct op as [t|p|p|p|p| |[] t]; simpl.
  - destruct (write_in_memory now ts t Hm) as [Hw Hs]. destruct (write now ts t) as [ts1 r].
    simpl in *. intros [= <- <- <-]. apply in_memory_storage in Hs as [Hm' ->].
    split; [done|]. exists ex. split; [done|]. rewrite Hsplit at 1. simpl.
    by rewrite (Permutation_app_comm _ ex), (assoc (++)).
  - intros [= <- <- <-]. destruct (read_in_memory now ts p Hm) as (_ & _ & Hs & _).
    unfold in_memory, tuples_of in *. rewrite Hs. split; [done|]. exists [].
    by rewrite app_nil_r.
  - intros [= <- <- <-]. destruct (read_in_memory now ts p Hm) as (_ & _ & _ & Hs).
    unfold in_memory, tuples_of in *. rewrite Hs. split; [done|]. exists [].
    by rewrite app_nil_r.
  - destruct (take_in_memory now ts p Hm) as (Htk & rest & Hs & Hperm).
    destruct (Space.take now ts p) as [ts1 r]. simpl in *. subst r.
    intros [= <- <- <-]. apply in_memory_storage in Hs as [Hm' ->]. split; [done|].
    exists ex. split; [done|]. rewrite app_nil_r, Hsplit at 1. unfold live in Hperm.
    rewrite Hperm at 1. rewrite <-(assoc (++)), (Permutation_app_comm rest ex).
    by destruct (List.find _ _).
  - destruct (take_all_in_memory now ts p Hm) as [Hta Hs].
    destruct (take_all now ts p) as [ts1 r]. simpl in *. subst r.
    intros [= <- <- <-]. apply in_memory_storage in Hs as [Hm' ->]. split; [done|].
    exists ex. split; [done|]. rewrite app_nil_r, Hsplit at 1. fold (live now ts).
    rewrite (filter_partition (λ t, Tuple_matches t p) (live now ts)) at 1.
    by rewrite <-(assoc (++)), (Permutation_app_comm _ ex).
  - intros [= <- <- <-]. unfold cleanup_expired. rewrite app_nil_r.
    unfold in_memory, tuples_of in *. destruct (storage ts) as [l|] eqn:E; [|done].
    case_bool_decide; simpl; rewrite ?E; (split; [done|]).
    + by exists [].
    + exists ex. split; [done|]. by rewrite (Permutation_app_comm ex).
  - intros [= <- <- <-]. split; [done|]. exists []. by rewrite app_nil_r.
  - intros [= <- <- <-]. split; [done|]. exists []. by rewrite app_nil_r.
Qed.

(** What a watcher with an open channel sees of a change of the space: the events that match its
    pattern are appended to its channel. *)
Definition observes (id : string) (evs : list WatchEvent) ts ts' : Prop :=
  ∀ w, watchers ts !! id = Some w → receiver_open (watch_sender w) = true →
  ∃ w', watchers ts' !! id = Some w' ∧ watch_pattern w' = watch_pattern w
    ∧ receiver_open (watch_sender w') = true
    ∧ delivered (watch_sender w')
      = delivered (watch_sender w) ++ List.filter (event_matches (watch_pattern w)) evs.

Lemma observes_same id ts ts' : watchers ts' = watchers ts → observes id [] ts ts'.
Proof. intros Heq w Hw Ho. exists w. by rewrite Heq, app_nil_r. Qed.

Lemma observes_trans id evs1 evs2 ts1 ts2 ts3 :
  observes id evs1 ts1 ts2 → observes id evs2 ts2 ts3 → observes id (evs1 ++ evs2) ts1 ts3.
Proof.
  intros H12 H23 w Hw Ho. destruct (H12 w Hw Ho) as (w2 & Hw2 & Hp2 & Ho2 & Hd2).
  destruct (H23 w2 Hw2 Ho2) as (w3 & Hw3 & Hp3 & Ho3 & Hd3).
  exists w3. rewrite Hp3, Hd3, Hd2, Hp2, filterb_app, (assoc (++)). done.
Qed.

Lemma observes_one id ev t ts ts1 ts' :
  (∀ p, event_matches p (ev t) = Tuple_matches t p) →
  watchers ts1 = watchers ts → watchers ts' = watchers (notify_watchers ev ts1 t) →
  observes id [ev t] ts ts'.
Proof.
  intros Hev H1 H2 w Hw Ho. exists (watcher_notify ev t w).
  rewrite H2. simpl. rewrite lookup_fmap, H1, Hw, Hev. split; [done|].
  unfold watcher_notify, sender_send. rewrite Ho.
  destruct (Tuple_matches t _); simpl; by rewrite ?app_nil_r.
Qed.

Lemma observes_foldl id ev l ts ts1 ts' :
  (∀ t p, event_matches p (ev t) = Tuple_matches t p) →
  watchers ts1 = watchers ts → watchers ts' = watchers (foldl (notify_watchers ev) ts1 l) →
  observes id (ev <$> l) ts ts'.
Proof.
  intros Hev. revert ts ts1. induction l as [|t l IH]; intros ts ts1 H1 H2; simpl in *.
  - apply observes_same. congruence.
  - apply (observes_trans id [ev t] _ _ (notify_watchers ev ts1 t)).
    + by eapply observes_one.
    + by eapply IH.
Qed.

(** One operation sends to a watcher the events that match its pattern. *)
Lemma exec_observed id now ts op ts' got ev :
  exec now ts op = (ts', got, ev) → observes id ev ts ts'.
Proof.
  intros Hexec. destruct op as [t|p|p|p|p| |[] t]; simpl in Hexec.
  - unfold write, write_to_storage, notify_watchers_and_barriers, publish_watch in Hexec.
    case_all; first [by apply observes_same | by eapply (observes_one id Added)].
  - unfold read in Hexec. case_all; by apply observes_same.
  - unfold read_all in Hexec. case_all; by apply observes_same.
  - unfold Space.take, take_from_storage, notify_watchers_on_removal, publish_watch in Hexec.
    case_all; first [by apply observes_same | by eapply (observes_one id Removed)].
  - unfold take_all in Hexec.
    case_all; first [by apply observes_same | eapply (observes_foldl id Removed); [done | | reflexivity]; done].
  - unfold cleanup_expired in Hexec. case_all; by apply observes_same.
  - simplify_eq. by eapply (observes_one id Added).
  - simplify_eq. by eapply (observes_one id Removed).
Qed.

Lemma run_observed id ops ts ts' got ev : run ops ts = (ts', got, ev) → observes id ev ts ts'.
Proof.
  revert ts ts' got ev. induction ops as [|[now op] ops IH]; intros ts ts' got ev Hrun; simpl in Hrun.
  - simplify_eq. by apply observes_same.
  - destruct (exec now ts op) as [[ts1 got1] ev1] eqn:E1.
    destruct (run ops ts1) as [[ts2 got2] ev2] eqn:E2. simplify_eq.
    eapply observes_trans; [by eapply exec_observed | by eapply IH].
Qed.

Lemma run_conserves ops ts ts' got ev :
  in_memory ts → run ops ts = (ts', got, ev) →
  in_memory ts' ∧ ∃ expired,
    Forall (λ t, ∃ now, now ∈ ops.*1 ∧ is_expired now t = true) expired
    ∧ tuples_of ts ++ written ops ≡ₚ got ++ expired ++ tuples_of ts'.
Proof.
  revert ts ts' got ev.
  induction ops as [|[now op] ops IH]; intros ts ts' got ev Hm Hrun; simpl in Hrun.
  - simplify_eq. split; [done|]. exists []. by rewrite app_nil_r.
  - destruct (exec now ts op) as [[ts1 got1] ev1] eqn:E1.
    destruct (run ops ts1) as [[ts2 got2] ev2] eqn:E2. simplify_eq.
    destruct (exec_conserves _ _ _ _ _ _ Hm E1) as (Hm1 & ex1 & Hex1 & Hp1).
    destruct (IH _ _ _ _ Hm1 E2) as (Hm2 & ex2 & Hex2 & Hp2). split; [done|].
    exists (ex1 ++ ex2). split.
    + apply Forall_app; split; [eapply Forall_impl; [exact Hex1|]
        | eapply Forall_impl; [exact Hex2|]]; simpl; intros t Ht.
      * exists now. split; [set_solver | done].
      * destruct Ht as (n & Hn & Ht). exists n. split; [set_solver | done].
    + change ((now, op) :: ops) with ([(now, op)] ++ ops). unfold written. rewrite omap_app.
      fold (written [(now, op)]) (written ops). rewrite (assoc (++)), Hp1.
      rewrite <-!(assoc (++)), Hp2. solve_Permutation.
Qed.

(** *** Lemmas: barriers *)

Lemma signalled_check_barriers ts t w :
  w ∈ signalled (check_barriers ts t) ↔
    w ∈ signalled ts
    ∨ ∃ name b, barriers ts !! name = Some b ∧ barrier_complete t b = true
        ∧ w ∈ barrier_waiters b.
Proof.
  unfold check_barriers. simpl.
  apply (map_fold_weak_ind (λ r m, w ∈ r ↔ w ∈ signalled ts
    ∨ ∃ name b, m !! name = Some b ∧ barrier_complete t b = true ∧ w ∈ barrier_waiters b)).
  - setoid_rewrite lookup_empty. naive_solver.
  - intros k b m r Hk IH. destruct (barrier_complete t b) eqn:E.
    + rewrite elem_of_union, elem_of_list_to_set, IH. split.
      * intros [?|[?|(n & b' & ? & ? & ?)]]; [|by left|]; right.
        -- exists k, b. by rewrite lookup_insert_eq.
        -- exists n, b'. rewrite lookup_insert_ne by congruence. done.
      * intros [?|(n & b' & Hn & ? & ?)]; [naive_solver|].
        apply lookup_insert_Some in Hn as [[<- <-]|[? ?]]; [by left|]. naive_solver.
    + rewrite IH. split.
      * intros [?|(n & b' & ? & ? & ?)]; [by left|]. right. exists n, b'.
        rewrite lookup_insert_ne by congruence. done.
      * intros [?|(n & b' & Hn & ? & ?)]; [by left|]. right. exists n, b'.
        apply lookup_insert_Some in Hn as [[<- <-]|[? ?]]; [congruence | done].
Qed.

(** A successful write is a change of the storage followed by the barrier check. *)
Lemma write_barriers now ts t :
  (write now ts t).2 = Ok () →
  ∃ ts1, (write now ts t).1 = check_barriers ts1 t
    ∧ barriers ts1 = barriers ts ∧ signalled ts1 = signalled ts.
Proof.
  unfold write, write_to_storage, notify_watchers_and_barriers, publish_watch.
  destruct (storage ts) as [l|s]; simpl; [eauto|].
  destruct (storage_write s t) as [s' [i|e]]; simpl; [eauto | done].
Qed.

(** *** Lemmas: external storage *)

Lemma take_external (contents : S → list Tuple) `{HL : !StorageLaws S contents} now ts s p :
  storage ts = External s →
  (Space.take now ts p).2 = Ok (last (List.filter (λ t, Tuple_matches t p) (contents s)))
  ∧ ∃ s', storage (Space.take now ts p).1 = External s'
    ∧ contents s' = List.filter (λ t, negb (Tuple_matches t p)) (contents s).
Proof.
  intros Hs. destruct (storage_take_spec s p) as (s1 & H1 & Hc1).
  unfold Space.take, take_from_storage. rewrite Hs, H1.
  destruct (last _) as [t|]; simpl; [|eauto]. unfold publish_watch. simpl. split; [done|].
  eexists; split; [done|]. by rewrite storage_publish_contents.
Qed.

(** *** Lemmas: the default clear *)

Lemma default_clear_in_memory fuel now ts :
  in_memory ts → (length (live now ts) < fuel)%nat →
  ∃ ts', provider_default_clear fuel now ts = Some (ts', Ok ())
    ∧ in_memory ts'
    ∧ live now ts' ≡ₚ List.filter (λ t, negb (length (fields t) =? 1)%nat) (live now ts).
Proof.
  revert ts. induction fuel as [|fuel IH]; intros ts Hm Hlen; [lia|]. simpl.
  assert (Hmt : ∀ t, Tuple_matches t (mkPattern [Wildcard]) = (length (fields t) =? 1)%nat).
  { intros t. unfold Tuple_matches. by destruct (fields t) as [|f [|]]. }
  destruct (take_in_memory now ts (mkPattern [Wildcard]) Hm) as (Htk & rest & Hs & Hperm).
  destruct (Space.take now ts _) as [ts1 r] eqn:E. simpl in Htk, Hs. subst r.
  destruct (in_memory_storage ts1 rest Hs) as [Hm1 Ht1].
  pose proof (live_sub _ _ _ _ _ Hperm Hs) as Hl1.
  destruct (List.find _ (live now ts)) as [t|] eqn:Ef; simpl in *.
  - destruct (IH ts1 Hm1) as (ts' & Hc & Hm' & Hl').
    { rewrite Hl1. rewrite Hperm in Hlen. simpl in Hlen. lia. }
    exists ts'. split_and!; [done..|]. rewrite Hl', Hl1.
    apply find_some in Ef as [_ Ef]. rewrite Hmt in Ef.
    rewrite Hperm. simpl. by rewrite Ef.
  - exists ts1. split_and!; [done..|]. rewrite Hl1, <-Hperm.
    rewrite (filter_ext_in _ (λ _, true)); [by rewrite List.filter_true|].
    intros t Ht. rewrite <-Hmt. apply negb_true_iff.
    apply (find_none _ _ Ef). by apply list_elem_of_In.
Qed.

End run_lemmas.

(** ** Properties *)

(** C1. The in-memory space refines the Linda space: at any time, [write] appends the tuple to
    the live tuples, [read] returns the oldest live tuple that matches and removes nothing,
    [read_all] returns every live match, [take] returns the oldest live match and removes exactly
    that tuple, [take_all] returns and removes exactly the live matches; none of them fails. *)
Theorem in_memory_refines_linda {S : Type} `{!TupleSpaceStorage S}
    (now : Z) (ts : TupleSpace S) (t : Tuple) (p : Pattern) :
  in_memory ts →
  let c := live now ts in
  let first := List.find (λ t, Tuple_matches t p) c in
  let w := write now ts t in let r := read now ts p in let ra := read_all now ts p in
  let tk := Space.take now ts p in let ta := take_all now ts p in
  (w.2 = Ok () ∧ live now w.1 = c ++ (if is_expired now t then [] else [t]))
  ∧ (r.2 = Ok first ∧ live now r.1 = c)
  ∧ (ra.2 = Ok (List.filter (λ t, Tuple_matches t p) c) ∧ live now ra.1 = c)
  ∧ (tk.2 = Ok first ∧ c ≡ₚ option_list first ++ live now tk.1)
  ∧ (ta.2 = Ok (List.filter (λ t, Tuple_matches t p) c)
     ∧ live now ta.1 = List.filter (λ t, negb (Tuple_matches t p)) c).
Proof.
  intros Hm. cbv zeta.
  destruct (write_in_memory now ts t Hm) as [Hw Hws].
  destruct (read_in_memory now ts p Hm) as (Hr & Hra & Hrs & Hras).
  destruct (take_in_memory now ts p Hm) as (Htk & rest & Htks & Hperm).
  destruct (take_all_in_memory now ts p Hm) as [Hta Htas].
  split_and!; try done.
  - unfold live at 1, tuples_of. rewrite Hws. unfold retain_live at 1. rewrite filterb_app. f_equal.
    + apply retain_live_idemp.
    + simpl. by destruct (is_expired now t).
  - unfold live, tuples_of. by rewrite Hrs.
  - unfold live, tuples_of. by rewrite Hras.
  - by rewrite (live_sub now ts rest _ _ Hperm Htks).
  - eapply live_sub; [|done]. apply (filter_partition (λ t, Tuple_matches t p)).
Qed.


(** C2. Takes are exclusive and nothing is lost: over any run of operations on an in-memory space,
    each at its own time, the tuples present at the start and the tuples written are, as a
    multiset, exactly those that takes returned (each to one taker), those that expired at the
    time of one of the operations, and those still in the space. *)
Theorem takes_are_exclusive {S : Type} `{!TupleSpaceStorage S}
    (ops : list (Z * SpaceOp)) (ts : TupleSpace S) :
  in_memory ts →
  let '(ts', taken, _) := run ops ts in
  ∃ expired,
    Forall (λ t, ∃ now, now ∈ ops.*1 ∧ is_expired now t = true) expired
    ∧ tuples_of ts ++ written ops ≡ₚ taken ++ expired ++ tuples_of ts'.
Proof.
  intros Hm. destruct (run ops ts) as [[ts' taken] ev] eqn:E.
  by destruct (run_conserves _ _ _ _ _ Hm E).
Qed.

(** C37. A watcher sees exactly the matching changes, in order: over any run of operations, in
    memory or on an external storage (with the events forwarded from other nodes), the events
    delivered to a watcher whose receiver is alive are
    the events of the run whose tuple matches its pattern, in the order of the run. *)
Theorem watchers_see_matching_events {S : Type} `{!TupleSpaceStorage S}
    (ops : list (Z * SpaceOp)) (ts : TupleSpace S) (id : string) (p : Pattern) :
  let '(ts', _, events) := run ops (watch ts id p) in
  ∃ w, watchers ts' !! id = Some w ∧ watch_pattern w = p
    ∧ delivered (watch_sender w) = List.filter (event_matches p) events.
Proof.
  destruct (run ops (watch ts id p)) as [[ts' taken] ev] eqn:E.
  apply run_observed with (id := id) in E.
  destruct (E (mkWatcher p (mkSender [] true))) as (w & Hw & Hp & _ & Hd); [|done|].
  - apply lookup_insert_eq.
  - by exists w.
Qed.

(** A write wakes exactly the waiters of the barriers it completes: after a successful write,
    a waiter has been signalled iff it had been before or it waits at a barrier whose pattern the
    tuple matches and whose participant count is reached, and such a barrier keeps no waiter. *)
Theorem write_completes_barriers {S : Type} `{!TupleSpaceStorage S}
    (now : Z) (ts : TupleSpace S) (t : Tuple) :
  let '(ts', r) := write now ts t in
  r = Ok () →
  (∀ w, w ∈ signalled ts' ↔ w ∈ signalled ts
     ∨ ∃ name b, barriers ts !! name = Some b ∧ barrier_complete t b = true
         ∧ w ∈ barrier_waiters b)
  ∧ (∀ name b, barriers ts !! name = Some b →
       barriers ts' !! name = Some (if barrier_complete t b
         then mkBarrier (barrier_pattern b) (barrier_count b) [] else b)).
Proof.
  destruct (write now ts t) as [ts' r] eqn:E. intros ->.
  destruct (write_barriers now ts t) as (ts1 & Hw & Hb & Hs); rewrite E in *; [done|].
  simpl in Hw. subst ts'. split.
  - intros w. by rewrite signalled_check_barriers, Hb, Hs.
  - intros name b Hn. simpl. by rewrite lookup_fmap, Hb, Hn.
Qed.

(** Arrivals alone never release [TupleSpaceProvider::barrier]: however many participants
    arrive at a barrier of expected count [n], none of them is signalled; they are all queued
    (the documentation says that the barrier opens when [n] participants have arrived). *)
Theorem provider_barrier_waits_for_a_write {S : Type} `{!TupleSpaceStorage S}
    (ts : TupleSpace S) (id : string) (n : Z) (arrivals : list Z) :
  capabilities ts !! "barriers"%string = Some "enabled"%string →
  barriers ts !! id = None →
  arrivals ≠ [] →
  let ts' := foldl (λ ts w, (provider_barrier ts id n w).1) ts arrivals in
  signalled ts' = signalled ts
  ∧ barrier_waiters <$> barriers ts' !! id = Some arrivals.
Proof.
  intros Hc Hb. cbv zeta.
  induction arrivals as [|w ws IH] using rev_ind; [done|]. intros _.
  rewrite foldl_app. simpl. set (ts1 := foldl _ ts ws) in *.
  assert (Hc1 : capabilities ts1 = capabilities ts).
  { subst ts1. clear. revert ts. induction ws as [|w ws IH]; intros ts; simpl; [done|].
    rewrite IH. unfold provider_barrier. by case_bool_decide. }
  assert (Hws : signalled ts1 = signalled ts
    ∧ barrier_waiters (default (mkBarrier (mkPattern [Exact (TFString "barrier");
        Exact (TFString id)]) n []) (barriers ts1 !! id)) = ws).
  { destruct (decide (ws = [])) as [->|Hne]; [subst ts1; simpl; by rewrite Hb|].
    destruct (IH Hne) as [? Heq]. split; [done|]. by destruct (barriers ts1 !! id); simplify_eq/=. }
  unfold provider_barrier. rewrite Hc1, Hc. rewrite bool_decide_eq_false_2 by naive_solver.
  simpl. rewrite lookup_insert_eq. simpl. destruct Hws as [-> ->]. done.
Qed.

(** [take] of one tuple empties an external storage of every match: under the storage trait's
    contract, the first [take] returns the last matching tuple, and a second [take] of the same
    pattern returns nothing, however many tuples matched. *)
Theorem external_take_discards_matches {S : Type} `{!TupleSpaceStorage S}
    (contents : S → list Tuple) `{!StorageLaws S contents}
    (now now' : Z) (ts : TupleSpace S) (s : S) (p : Pattern) :
  storage ts = External s →
  (Space.take now ts p).2 = Ok (last (List.filter (λ t, Tuple_matches t p) (contents s)))
  ∧ (Space.take now' (Space.take now ts p).1 p).2 = Ok None.
Proof.
  intros Hs. destruct (take_external contents now ts s p Hs) as (Hr & s' & Hs' & Hc'). split; [done|].
  destruct (take_external contents now' _ s' p Hs') as (-> & _). rewrite Hc', filter_filter.
  rewrite (filter_ext_in _ (λ _, false)) by (intros x _; by destruct (Tuple_matches x p)).
  by rewrite List.filter_false.
Qed.

(** The provider trait's default [clear] terminates on an in-memory space (one iteration per
    tuple and a last one are enough) and removes exactly the live tuples of one field: every tuple
    of another arity stays, although the operation is documented to clear all tuples (the tuple
    space overrides the default with [clear_internal]). *)
Theorem default_clear_keeps_other_arities {S : Type} `{!TupleSpaceStorage S}
    (fuel : nat) (now : Z) (ts : TupleSpace S) :
  in_memory ts → (length (live now ts) < fuel)%nat →
  ∃ ts', provider_default_clear fuel now ts = Some (ts', Ok ())
    ∧ live now ts' ≡ₚ List.filter (λ t, negb (length (fields t) =? 1)%nat) (live now ts).
Proof.
  intros Hm Hf. destruct (default_clear_in_memory fuel now ts Hm Hf) as (ts' & ? & _ & ?).
  by exists ts'.
Qed.

(** ** Witnesses

    A store that keeps its tuples in a list discharges the storage trait's contract. *)

#[export] Instance list_storage : TupleSpaceStorage (list Tuple) := {|
  storage_write s t := (s ++ [t], Ok "id"%string);
  storage_read s p := (s, Ok (List.filter (λ t, Tuple_matches t p) s));
  storage_take s p := (List.filter (λ t, negb (Tuple_matches t p)) s,
                       Ok (List.filter (λ t, Tuple_matches t p) s));
  storage_count s p := (s, Ok (Z.of_nat (length (List.filter (λ t, Tuple_matches t p) s))));
  storage_exists s p := (s, Ok (existsb (λ t, Tuple_matches t p) s));
  storage_clear s := ([], Ok ());
  storage_publish_watch_event s e t n := (s, Ok ())
|}.

#[export] Instance list_storage_laws : StorageLaws (list Tuple) id.
Proof. split; [done | | done]. intros s p. by eexists. Qed.

Definition point (x y : Z) : Tuple := Tuple_new [TFString "point"; TFInteger x; TFInteger y].
Definition points : Pattern := mkPattern [Exact (TFString "point"); Wildcard; TypeOf FTInteger].
Definition space0 : TupleSpace (list Tuple) := with_tenant_namespace "t" "n".
Definition leased (t : Tuple) (now d : Z) : Tuple := with_lease t (Lease_new now d).
Definition space1 : TupleSpace (list Tuple) :=
  (run [(0, OpWrite (leased (point 1 2) 0 10)); (1, OpWrite (point 3 4));
        (2, OpWrite (Tuple_new [TFInteger 5]))] space0).1.1.

Example space1_take :
  (Space.take 5 space1 points).2 = Ok (Some (leased (point 1 2) 0 10))
  ∧ (Space.take 11 space1 points).2 = Ok (Some (point 3 4))
  ∧ (write 20 space1 (point 5 6)).2 = Ok ()
  ∧ total_writes (stats (write 20 space1 (point 5 6)).1) = 4
  ∧ current_size (stats (write 20 space1 (point 5 6)).1) = 3.
Proof. by vm_compute. Qed.

Lemma in_memory_refines_linda_witness :
  in_memory space1 ∧ (Space.take 11 space1 points).2 = Ok (Some (point 3 4)).
Proof.
  split; [done|].
  destruct (in_memory_refines_linda 11 space1 (point 0 0) points) as (_ & _ & _ & [Htk _] & _).
  - exact I.
  - transitivity (Ok (E := TupleSpaceError)
      (List.find (λ t, Tuple_matches t points) (live 11 space1))); [exact Htk|].
    vm_compute. reflexivity.
Defined.

Lemma takes_are_exclusive_witness : in_memory space1 ∧ ∃ expired,
  tuples_of space1 ≡ₚ [point 3 4; Tuple_new [TFInteger 5]] ++ expired.
Proof.
  split; [done|].
  pose proof (takes_are_exclusive [(20, OpTake points); (20, OpTake points);
    (20, OpTakeAll (mkPattern [Wildcard]))] space1 I) as H.
  vm_compute in H. destruct H as (ex & _ & H). exists ex.
  vm_compute. rewrite (Permutation_app_comm ex) in H. exact H.
Defined.

Lemma write_completes_barriers_witness :
  2 ∈ signalled (write 20 (barrier (barrier space1 "b" points 2 1) "b" points 2 2) (point 0 0)).1.
Proof.
  pose proof (write_completes_barriers 20 (barrier (barrier space1 "b" points 2 1) "b" points 2 2)
    (point 0 0)) as H.
  destruct (write _ _ _) as [ts' r] eqn:E.
  assert (r = Ok ()) as Hr by (vm_compute in E; by injection E as _ <-).
  destruct (H Hr) as [Hs _]. apply Hs. right. exists "b"%string, (mkBarrier points 2 [1; 2]).
  split_and!; [reflexivity | reflexivity | set_solver].
Defined.

Lemma provider_barrier_waits_for_a_write_witness :
  signalled (foldl (λ ts w, (provider_barrier ts "b" 2 w).1) space1 [1; 2; 3]) = ∅.
Proof.
  destruct (provider_barrier_waits_for_a_write space1 "b" 2 [1; 2; 3]) as [H _];
    [reflexivity | reflexivity | discriminate | exact H].
Defined.

Lemma external_take_discards_matches_witness :
  let s := [point 1 2; point 3 4; point 5 6] in
  let ts := with_storage_and_tenant s "t" "n" in
  (Space.take 0 ts points).2 = Ok (Some (point 5 6))
  ∧ (Space.take 0 (Space.take 0 ts points).1 points).2 = Ok None.
Proof. intros s ts. exact (external_take_discards_matches id 0 0 ts s points eq_refl). Defined.

Lemma default_clear_keeps_other_arities_witness :
  ∃ ts', provider_default_clear 4 20 space1 = Some (ts', Ok ()) ∧ live 20 ts' ≡ₚ [point 3 4].
Proof.
  exact (default_clear_keeps_other_arities 4 20 space1 I
    ltac:(vm_compute; repeat constructor)).
Defined.
