(* ===== verification/LatticeSpace.v ===== *)
(** LatticeSpace: the coordination-free tuple space of crates/tuplespace/src/lattice_space.rs.

    A replica is an observed-remove set of tuples and a vector clock, each behind its own lock.
    [write], [take], [merge] and the reads hold their locks to the end and are one step each.
    [gossip] releases every lock between its accesses, so it is a program of eight steps, one per
    lock acquisition, between which other operations of the two replicas may run. *)
From S2P Require Import Prelude Crdt TupleSpace.

Record LatticeTupleSpace := mkLTS {
  lts_tuples : OrSetLattice Tuple;
  lts_clock : VectorClock;
  lts_node_id : string
}.

Inductive LatticeSpaceError :=
| ConsistencyViolation (msg : string) | MergeConflict (msg : string) | NetworkError (msg : string).

Record TupleSpaceSnapshot := mkSnapshot {
  snapshot_tuples : OrSetLattice Tuple;
  snapshot_clock : VectorClock;
  snapshot_node_id : string
}.

Module Lts.

Definition new (node_id : string) : LatticeTupleSpace := mkLTS OrSet_new VC_new node_id.

(** [ulid] is the fresh [Ulid::new()]. *)
Definition write (r : LatticeTupleSpace) (t : Tuple) (ulid : string)
    : LatticeTupleSpace * result LatticeSpaceError () :=
  let unique_id := (lts_node_id r +:+ "-" +:+ ulid)%string in
  (mkLTS (OrSet_add (lts_tuples r) t unique_id) (VC_inc (lts_clock r) (lts_node_id r))
     (lts_node_id r), Ok ()).

(** The order of the elements is the iteration order of the hash map. *)
Definition read (r : LatticeTupleSpace) (p : Pattern) : list Tuple :=
  List.filter (Pattern_matches p) (OrSet_elements (lts_tuples r)).

Definition take (r : LatticeTupleSpace) (p : Pattern) : LatticeTupleSpace * option Tuple :=
  let matching := List.find (Pattern_matches p) (OrSet_elements (lts_tuples r)) in
  match matching with
  | Some t => (mkLTS (OrSet_remove (lts_tuples r) t) (VC_inc (lts_clock r) (lts_node_id r))
                 (lts_node_id r), matching)
  | None => (r, matching)
  end.

Definition merge_replica (r other : LatticeTupleSpace)
    : LatticeTupleSpace * result LatticeSpaceError () :=
  (mkLTS (merge (lts_tuples r) (lts_tuples other)) (merge (lts_clock r) (lts_clock other))
     (lts_node_id r), Ok ()).

Definition get_clock (r : LatticeTupleSpace) : VectorClock := lts_clock r.
Definition is_causal (r : LatticeTupleSpace) (other_clock : VectorClock) : bool :=
  negb (VC_concurrent (lts_clock r) other_clock).

Definition snapshot (r : LatticeTupleSpace) : TupleSpaceSnapshot :=
  mkSnapshot (lts_tuples r) (lts_clock r) (lts_node_id r).
Definition restore (r : LatticeTupleSpace) (s : TupleSpaceSnapshot)
    : LatticeTupleSpace * result LatticeSpaceError () :=
  (mkLTS (snapshot_tuples s) (snapshot_clock s) (lts_node_id r), Ok ()).

(** *** Gossip *)

Definition set_tuples (r : LatticeTupleSpace) (t : OrSetLattice Tuple) : LatticeTupleSpace :=
  mkLTS t (lts_clock r) (lts_node_id r).
Definition set_clock (r : LatticeTupleSpace) (c : VectorClock) : LatticeTupleSpace :=
  mkLTS (lts_tuples r) c (lts_node_id r).

(** Where a call of [gossip] is, with the local variables it still needs. *)
Inductive GossipPc :=
| GossipStart
| GossipOurs (our_tuples : OrSetLattice Tuple)
| GossipBoth (merged_tuples : OrSetLattice Tuple)
| GossipSelfWritten (merged_tuples : OrSetLattice Tuple)
| GossipTuplesDone
| GossipOurClock (our_clock : VectorClock)
| GossipBothClocks (merged_clock : VectorClock)
| GossipSelfClockWritten (merged_clock : VectorClock)
| GossipDone.

Definition gossip_step (c : GossipPc * LatticeTupleSpace * LatticeTupleSpace)
    : GossipPc * LatticeTupleSpace * LatticeTupleSpace :=
  let '(pc, self, peer) := c in
  match pc with
  | GossipStart => (GossipOurs (lts_tuples self), self, peer)
  | GossipOurs our => (GossipBoth (merge our (lts_tuples peer)), self, peer)
  | GossipBoth m => (GossipSelfWritten m, set_tuples self m, peer)
  | GossipSelfWritten m => (GossipTuplesDone, self, set_tuples peer m)
  | GossipTuplesDone => (GossipOurClock (lts_clock self), self, peer)
  | GossipOurClock our => (GossipBothClocks (merge our (lts_clock peer)), self, peer)
  | GossipBothClocks m => (GossipSelfClockWritten m, set_clock self m, peer)
  | GossipSelfClockWritten m => (GossipDone, self, set_clock peer m)
  | GossipDone => (GossipDone, self, peer)
  end.

(** A call that no other operation interleaves with. *)
Definition gossip (self peer : LatticeTupleSpace) : LatticeTupleSpace * LatticeTupleSpace :=
  let '(_, self, peer) := Nat.iter 8 gossip_step (GossipStart, self, peer) in (self, peer).

(** ** Lemmas *)

Lemma Pattern_matches_Tuple_matches p t : Pattern_matches p t = Tuple_matches t p.
Proof. unfold Pattern_matches, Tuple_matches. by rewrite Nat.eqb_sym. Qed.

Lemma elem_of_read r p t :
  t ∈ read r p ↔ OrSet_contains (lts_tuples r) t = true ∧ Tuple_matches t p = true.
Proof.
  unfold read. by rewrite elem_of_filterb, OrSet_elements_spec, Pattern_matches_Tuple_matches.
Qed.

Lemma contains_add s (t t' : Tuple) u :
  OrSet_contains (OrSet_add s t u) t' = true
    ↔ (t' = t ∧ u ∉ removed s) ∨ OrSet_contains s t' = true.
Proof.
  rewrite !OrSet_contains_spec. simpl. destruct (decide (t' = t)) as [->|Hne].
  - rewrite lookup_insert_eq. split.
    + intros (ids & id & [= <-] & Hin & Hr). apply elem_of_union in Hin as [Hin|Hin].
      * apply elem_of_singleton in Hin as ->. by left.
      * right. destruct (added s !! t) as [ids|]; simpl in Hin; [|set_solver]. by exists ids, id.
    + intros [[_ Hu]|(ids & id & Hl & Hin & Hr)].
      * eexists _, u. split; [done|]. split; [set_solver | done].
      * eexists _, id. split; [done|]. rewrite Hl. simpl. split; [set_solver | done].
  - rewrite lookup_insert_ne by congruence. split; [by right|]. intros [[? _]|?]; done.
Qed.

Lemma contains_remove s (t t' : Tuple) :
  OrSet_contains (OrSet_remove s t) t' = true → OrSet_contains s t' = true ∧ t' ≠ t.
Proof.
  unfold OrSet_remove. destruct (added s !! t) as [ids0|] eqn:Et.
  - rewrite !OrSet_contains_spec. simpl. intros (ids & id & Hl & Hin & Hr). split; [set_solver|].
    intros ->. simplify_eq. set_solver.
  - intros Hc. split; [done|]. intros ->. apply OrSet_contains_spec in Hc as (? & ? & ? & _). congruence.
Qed.

(** What a replica removed stays removed in every merge with a replica that knows no other
    identifier of the tuple. *)
Lemma contains_merge s1 s2 (t : Tuple) :
  OrSet_contains (OrSet_merge s1 s2) t = true →
  OrSet_contains s1 t = true ∨ OrSet_contains s2 t = true.
Proof.
  rewrite !OrSet_contains_spec. intros (ids & id & Hl & Hin & Hr). simpl in Hr.
  rewrite OrSet_added_merge in Hl.
  destruct (added s1 !! t) as [i1|], (added s2 !! t) as [i2|]; simplify_eq/=; set_solver.
Qed.

Lemma gossip_unfold r q :
  gossip r q =
    (mkLTS (merge (lts_tuples r) (lts_tuples q)) (merge (lts_clock r) (lts_clock q)) (lts_node_id r),
     mkLTS (merge (lts_tuples r) (lts_tuples q)) (merge (lts_clock r) (lts_clock q)) (lts_node_id q)).
Proof. done. Qed.

End Lts.

Import Lts.

(** ** Properties *)

(** C38. An uninterrupted gossip makes the two replicas agree: both end with the join of their
    tuples and the join of their clocks, so they answer every read alike; it equals a [merge] in
    each direction, in either order, and repeating it changes nothing. *)
Theorem gossip_converges (r q : LatticeTupleSpace) :
  let '(r', q') := gossip r q in
  (lts_tuples r' = lts_tuples q' ∧ lts_clock r' = lts_clock q')
  ∧ r' = (merge_replica r q).1 ∧ q' = (merge_replica q r).1
  ∧ (∀ p, Lts.read r' p = Lts.read q' p)
  ∧ gossip r' q' = (r', q') ∧ gossip q' r' = (q', r').
Proof.
  rewrite gossip_unfold. unfold merge_replica.
  rewrite (merge_comm (lts_tuples q)), (merge_comm (lts_clock q)).
  split_and!; try done; rewrite gossip_unfold; cbn [lts_tuples lts_clock lts_node_id];
    by rewrite !merge_idemp.
Qed.

(** Gossip loses concurrent writes: when a write of a tuple that neither replica holds runs
    between the reads of a gossip and its commit, the write reports success, and once the gossip
    is complete neither replica holds the tuple, although both clocks count the write (the
    update replaces the state of the replica instead of joining with it). *)
Theorem gossip_loses_concurrent_write (r q : LatticeTupleSpace) (t : Tuple) (u : string) :
  OrSet_contains (lts_tuples r) t = false →
  OrSet_contains (lts_tuples q) t = false →
  let '(pc, r1, q1) := Nat.iter 2 gossip_step (GossipStart, r, q) in
  let '(r2, res) := Lts.write r1 t u in
  let '(_, r3, q3) := Nat.iter 6 gossip_step (pc, r2, q1) in
  res = Ok ()
  ∧ (∀ p, (t ∉ Lts.read r3 p) ∧ (t ∉ Lts.read q3 p))
  ∧ lts_clock r3 = merge (VC_inc (lts_clock r) (lts_node_id r)) (lts_clock q)
  ∧ lts_clock q3 = lts_clock r3.
Proof.
  intros Hr Hq. simpl.
  split_and!; [done | | done | done].
  intros p. rewrite !elem_of_read. simpl.
  split; intros [Hc _]; apply contains_merge in Hc; intuition congruence.
Qed.

(** A replica is a tuple space on its own: after a write with a fresh identifier, the read of
    a pattern returns the tuple (when it matches) and what it returned before; a take returns
    nothing when no tuple matches and otherwise a tuple that the read returned, which no later
    read of the replica returns until it is written again. *)
Theorem lattice_space_write_take (r : LatticeTupleSpace) (t : Tuple) (u : string) (p : Pattern) :
  (lts_node_id r +:+ "-" +:+ u)%string ∉ removed (lts_tuples r) →
  (∀ x, x ∈ Lts.read (Lts.write r t u).1 p
     ↔ (x = t ∧ Tuple_matches t p = true) ∨ x ∈ Lts.read r p)
  ∧ match Lts.take r p with
    | (r', Some x) => x ∈ Lts.read r p
        ∧ ∀ p' y, y ∈ Lts.read r' p' → y ∈ Lts.read r p' ∧ y ≠ x
    | (r', None) => Lts.read r p = [] ∧ r' = r
    end.
Proof.
  intros Hu. split.
  - intros x. rewrite !elem_of_read. simpl. rewrite contains_add. naive_solver.
  - unfold Lts.take.
    destruct (List.find _ (OrSet_elements (lts_tuples r))) as [x|] eqn:E.
    + apply find_some in E as [Hin Hx]. split.
      * apply elem_of_filterb. by rewrite list_elem_of_In.
      * intros p' y. rewrite !elem_of_read. simpl. intros [Hc Hm].
        apply contains_remove in Hc as [? ?]. done.
    + split; [|done]. apply elem_of_nil_inv. intros x. unfold Lts.read.
      intros [Hin Hx]%elem_of_filterb.
      apply list_elem_of_In in Hin. by rewrite (find_none _ _ E _ Hin) in Hx.
Qed.

(** ** Witnesses *)

Definition replica_a : LatticeTupleSpace := (Lts.write (Lts.new "a") (point 1 2) "1").1.
Definition replica_b : LatticeTupleSpace := (Lts.write (Lts.new "b") (point 3 4) "1").1.

Example replica_take : (Lts.take replica_a points).2 = Some (point 1 2).
Proof. by vm_compute. Qed.

Definition gossip_with_write (r q : LatticeTupleSpace) (t : Tuple) (u : string)
    : LatticeTupleSpace :=
  let '(pc, r1, q1) := Nat.iter 2 gossip_step (GossipStart, r, q) in
  (Nat.iter 6 gossip_step (pc, (Lts.write r1 t u).1, q1)).1.2.

Lemma gossip_loses_concurrent_write_witness :
  OrSet_contains (lts_tuples replica_a) (point 5 6) = false
  ∧ (point 5 6 ∉ Lts.read (gossip_with_write replica_a replica_b (point 5 6) "2") points)
  ∧ VC_get (lts_clock (gossip_with_write replica_a replica_b (point 5 6) "2")) "a" = 2.
Proof.
  split; [vm_compute; reflexivity | split; [|vm_compute; reflexivity]].
  pose proof (gossip_loses_concurrent_write replica_a replica_b (point 5 6) "2"
    eq_refl eq_refl) as H.
  exact (proj1 (proj1 (proj2 H) points)).
Defined.

Lemma lattice_space_write_take_witness :
  point 5 6 ∈ Lts.read (Lts.write replica_a (point 5 6) "2").1 points.
Proof.
  destruct (lattice_space_write_take replica_a (point 5 6) "2" points) as [H _].
  - exact (not_elem_of_empty _).
  - apply H. left. split; reflexivity.
Defined.
