(* ===== verification/Replicas.v ===== *)
(** Replicas: systems of replicas of the observed-remove set of crates/lattice/src/crdt.rs ([Crdt]), in which
    crates/tuplespace/src/lattice_space.rs keeps its tuples: each replica applies its own updates and merges states
    that others sent.  The network keeps every state that was sent
    and may deliver it late, never, often and in any order.

    The specification is a history without sets: the updates in the order in which they were made, each
    with the updates that its replica knew of. *)
From S2P Require Import Prelude Crdt.

Section replicas.
Context {T : Type} `{Countable T}.
Implicit Types (s : OrSetLattice T) (v : T) (uid : string) (K : gset nat).

(** ** The system *)

Inductive Update := Add (v : T) (uid : string) | Remove (v : T).
Definition apply_update (u : Update) s : OrSetLattice T :=
  match u with Add v uid => OrSet_add s v uid | Remove v => OrSet_remove s v end.

(** A replica updates its set, sends its state, or merges a state that was sent. *)
Inductive NetOp := DoUpdate (r : nat) (u : Update) | Send (r : nat) | Receive (r k : nat).
Record Net := mkNet { replicas : list (OrSetLattice T); mail : list (OrSetLattice T) }.
Definition net_new (n : nat) : Net := mkNet (replicate n OrSet_new) [].
Definition net_step (o : NetOp) (c : Net) : Net :=
  match o with
  | DoUpdate r u => mkNet (alter (apply_update u) r (replicas c)) (mail c)
  | Send r => mkNet (replicas c) (mail c ++ option_list (replicas c !! r))
  | Receive r k =>
      mkNet (from_option (λ m, alter (λ s, merge s m) r (replicas c)) (replicas c) (mail c !! k)) (mail c)
  end.
Definition net_run (ops : list NetOp) (c : Net) : Net := foldl (flip net_step) c ops.

(** ** The history *)

(** The numbers of the updates that each replica and each state in the network know of, and the updates. *)
Record History := mkHistory {
  known : list (gset nat);
  letters : list (gset nat);
  log : list (Update * gset nat)
}.
Definition history_new (n : nat) : History := mkHistory (replicate n ∅) [] [].
Definition history_step (o : NetOp) (h : History) : History :=
  match o with
  | DoUpdate r u =>
      mkHistory (alter (λ K, {[length (log h)]} ∪ K) r (known h)) (letters h)
        (log h ++ [(u, default ∅ (known h !! r))])
  | Send r => mkHistory (known h) (letters h ++ option_list (known h !! r)) (log h)
  | Receive r k =>
      mkHistory (from_option (λ m, alter (λ K, K ∪ m) r (known h)) (known h) (letters h !! k)) (letters h) (log h)
  end.
Definition history_run (ops : list NetOp) (h : History) : History := foldl (flip history_step) h ops.

(** The identifiers of the additions. *)
Definition add_id (u : Update) : option string := match u with Add _ uid => Some uid | Remove _ => None end.
Definition update_of (o : NetOp) : option Update := match o with DoUpdate _ u => Some u | _ => None end.
Definition add_ids (ops : list NetOp) : list string := omap (λ o, update_of o ≫= add_id) ops.

(** What the updates [K] of a history add, and which additions they remove. *)
Definition added_in (l : list (Update * gset nat)) K v uid : Prop :=
  ∃ n past, n ∈ K ∧ l !! n = Some (Add v uid, past).
Definition removed_in (l : list (Update * gset nat)) K uid : Prop :=
  ∃ n v past, n ∈ K ∧ l !! n = Some (Remove v, past) ∧ added_in l past v uid.
(** The state [s] of a replica that knows [K]. *)
Record shows (l : list (Update * gset nat)) K s : Prop := {
  shows_added v uid : uid ∈ default ∅ (added s !! v) ↔ added_in l K v uid;
  shows_removed uid : uid ∈ removed s ↔ removed_in l K uid;
  shows_some v : added s !! v ≠ Some ∅
}.

(** ** Lemmas *)

Lemma shows_unique l K s1 s2 : shows l K s1 → shows l K s2 → s1 = s2.
Proof.
  intros [Ha1 Hr1 Hs1] [Ha2 Hr2 Hs2]. destruct s1 as [a1 r1], s2 as [a2 r2]. cbn in *. f_equal.
  - apply map_eq. intros v.
    assert (default ∅ (a1 !! v) = default ∅ (a2 !! v)) as He by (apply set_eq; intros uid; by rewrite Ha1, Ha2).
    specialize (Hs1 v). specialize (Hs2 v). destruct (a1 !! v), (a2 !! v); cbn in He; congruence.
  - apply set_eq. intros uid. by rewrite Hr1, Hr2.
Qed.
Lemma shows_new l : shows l ∅ OrSet_new.
Proof.
  split; cbn.
  - intros v uid. rewrite lookup_empty. cbn. split; [set_solver|]. intros (n & past & Hn & _). set_solver.
  - intros uid. split; [set_solver|]. intros (n & v & past & Hn & _). set_solver.
  - intros v. by rewrite lookup_empty.
Qed.
Lemma shows_merge l K1 K2 s1 s2 : shows l K1 s1 → shows l K2 s2 → shows l (K1 ∪ K2) (merge s1 s2).
Proof.
  intros [Ha1 Hr1 Hs1] [Ha2 Hr2 Hs2]. cbn. split.
  - intros v uid. rewrite OrSet_added_merge.
    assert (uid ∈ default ∅ (union_with (λ x y, Some (x ∪ y)) (added s1 !! v) (added s2 !! v)) ↔
      uid ∈ default ∅ (added s1 !! v) ∨ uid ∈ default ∅ (added s2 !! v)) as ->
      by (destruct (added s1 !! v), (added s2 !! v); cbn; set_solver).
    rewrite Ha1, Ha2. unfold added_in. set_solver.
  - intros uid. cbn. rewrite elem_of_union, Hr1, Hr2. unfold removed_in. set_solver.
  - intros v. rewrite OrSet_added_merge. specialize (Hs1 v). specialize (Hs2 v).
    destruct (added s1 !! v) as [x|], (added s2 !! v) as [y|]; cbn; try done. intros [= He].
    destruct Hs1. f_equal. set_solver.
Qed.
(** The updates that are known have been made. *)
Definition below (n : nat) K : Prop := ∀ m, m ∈ K → (m < n)%nat.
Definition log_ok (l : list (Update * gset nat)) : Prop := ∀ n u past, l !! n = Some (u, past) → below n past.
Lemma added_in_app l x K v uid : below (length l) K → added_in (l ++ x) K v uid ↔ added_in l K v uid.
Proof.
  intros HK. unfold added_in. split; intros (n & past & Hn & Hl); exists n, past; (split; [done|]).
  - by rewrite lookup_app_l in Hl by by apply HK.
  - by apply lookup_app_l_Some.
Qed.
Lemma removed_in_app l x K uid : log_ok l → below (length l) K → removed_in (l ++ x) K uid ↔ removed_in l K uid.
Proof.
  intros Hl HK. unfold removed_in. split; intros (n & v & past & Hn & Hln & Ha); exists n, v, past; (split; [done|]).
  - rewrite lookup_app_l in Hln by by apply HK. split; [done|]. apply added_in_app in Ha; [done|].
    intros m Hm. pose proof (Hl _ _ _ Hln m Hm). specialize (HK n Hn). lia.
  - split; [by apply lookup_app_l_Some|]. apply added_in_app; [|done].
    intros m Hm. pose proof (Hl _ _ _ Hln m Hm). specialize (HK n Hn). lia.
Qed.
Lemma shows_later l x K s : log_ok l → below (length l) K → shows l K s → shows (l ++ x) K s.
Proof.
  intros Hl HK [Ha Hr Hs]. split; [..|done].
  - intros v uid. by rewrite added_in_app.
  - intros uid. by rewrite removed_in_app.
Qed.
Lemma update_added u s v uid :
  uid ∈ default ∅ (added (apply_update u s) !! v) ↔ uid ∈ default ∅ (added s !! v) ∨ u = Add v uid.
Proof.
  destruct u as [v' uid'|v']; cbn.
  - rewrite lookup_insert. case_decide as Hv; cbn; [subst; set_solver|naive_solver].
  - unfold OrSet_remove. destruct (added s !! v'); cbn; naive_solver.
Qed.
Lemma update_removed u s uid :
  uid ∈ removed (apply_update u s) ↔ uid ∈ removed s ∨ ∃ v, u = Remove v ∧ uid ∈ default ∅ (added s !! v).
Proof.
  destruct u as [v' uid'|v']; cbn; [naive_solver|].
  unfold OrSet_remove. destruct (added s !! v') as [ids|] eqn:E; cbn.
  - rewrite elem_of_union. split.
    + intros [?|?]; [right|by left]. exists v'. by rewrite E.
    + intros [?|(v & [= <-] & Hu)]; [by right|]. rewrite E in Hu. by left.
  - split; [by left|]. intros [?|(v & [= <-] & Hu)]; [done|]. rewrite E in Hu. cbn in Hu. set_solver.
Qed.
Lemma update_some u s v : added s !! v ≠ Some ∅ → added (apply_update u s) !! v ≠ Some ∅.
Proof.
  destruct u as [v' uid'|v']; cbn.
  - rewrite lookup_insert. case_decide; [|done]. intros _ [= He]. set_solver.
  - unfold OrSet_remove. by destruct (added s !! v').
Qed.
Lemma added_in_snoc l u K v uid : below (length l) K →
  added_in (l ++ [(u, K)]) ({[length l]} ∪ K) v uid ↔ added_in l K v uid ∨ u = Add v uid.
Proof.
  intros HK. rewrite <-(added_in_app l [(u, K)] K v uid HK). unfold added_in. split.
  - intros (n & past & [Hn%elem_of_singleton|Hn]%elem_of_union & Hl); [right|left; eauto].
    subst n. rewrite lookup_app_r, Nat.sub_diag in Hl by lia. by injection Hl.
  - intros [(n & past & Hn & Hl)| ->]; [exists n, past; set_solver|]. exists (length l), K. split; [set_solver|].
    by rewrite lookup_app_r, Nat.sub_diag by lia.
Qed.
Lemma removed_in_snoc l u K uid : log_ok l → below (length l) K →
  removed_in (l ++ [(u, K)]) ({[length l]} ∪ K) uid ↔ removed_in l K uid ∨ ∃ v, u = Remove v ∧ added_in l K v uid.
Proof.
  intros Hl HK. rewrite <-(removed_in_app l [(u, K)] K uid Hl HK). unfold removed_in. split.
  - intros (n & v & past & [Hn%elem_of_singleton|Hn]%elem_of_union & Hln & Ha); [right|left; eauto 6].
    subst n. rewrite lookup_app_r, Nat.sub_diag in Hln by lia. injection Hln as -> ->. exists v. split; [done|].
    by apply added_in_app in Ha.
  - intros [(n & v & past & Hn & Hln & Ha)|(v & -> & Ha)]; [exists n, v, past; set_solver|].
    exists (length l), v, K. split; [set_solver|]. split; [by rewrite lookup_app_r, Nat.sub_diag by lia|].
    by apply added_in_app.
Qed.
Lemma shows_update l u K s : log_ok l → below (length l) K → shows l K s →
  shows (l ++ [(u, K)]) ({[length l]} ∪ K) (apply_update u s).
Proof.
  intros Hl HK [Ha Hr Hs]. split.
  - intros v uid. by rewrite update_added, added_in_snoc, Ha.
  - intros uid. rewrite update_removed, removed_in_snoc, Hr by done. by setoid_rewrite Ha.
  - intros v. by apply update_some.
Qed.

(** *** The system keeps to its history *)
Record in_step (c : Net) (h : History) : Prop := {
  st_log : log_ok (log h);
  st_known : Forall2 (λ K s, below (length (log h)) K ∧ shows (log h) K s) (known h) (replicas c);
  st_mail : Forall2 (λ K s, below (length (log h)) K ∧ shows (log h) K s) (letters h) (mail c)
}.
Lemma in_step_new n : in_step (net_new n) (history_new n).
Proof.
  split; [by intros m u past|..|constructor]. cbn. apply Forall2_replicate. split; [|apply shows_new].
  intros m Hm. set_solver.
Qed.
Lemma Forall2_alter2 {A B} (P : A → B → Prop) f g k l1 l2 : Forall2 P l1 l2 →
  (∀ x y, l1 !! k = Some x → l2 !! k = Some y → P x y → P (f x) (g y)) →
  Forall2 P (alter f k l1) (alter g k l2).
Proof. intros. by apply Forall2_alter. Qed.
Lemma in_step_step o c h : in_step c h → in_step (net_step o c) (history_step o h).
Proof.
  intros [Hl Hk Hm]. destruct o as [r u|r|r k]; cbn.
  - assert (∀ l1 l2, Forall2 (λ K s, below (length (log h)) K ∧ shows (log h) K s) l1 l2 →
      Forall2 (λ K s, below (length (log h ++ [(u, default ∅ (known h !! r))])) K ∧
        shows (log h ++ [(u, default ∅ (known h !! r))]) K s) l1 l2) as Hlater.
    { intros l1 l2 Hl12. eapply Forall2_impl; [exact Hl12|]. cbn. intros K s [HK Hs]. rewrite length_app. split.
      - intros m Hm'. specialize (HK m Hm'). cbn. lia.
      - by apply shows_later. }
    split; cbn.
    + intros n u' past [Hn|[Hge Hn]]%lookup_app_Some; [by eapply Hl|].
      apply list_lookup_singleton_Some in Hn as [Hn [= _ <-]]. intros m Hin.
      destruct (known h !! r) as [K|] eqn:HK; cbn in Hin; [|set_solver].
      destruct (Forall2_lookup_l _ _ _ _ _ Hk HK) as (s & _ & Hb & _). specialize (Hb m Hin). lia.
    + apply Forall2_alter2; [by apply Hlater|]. intros K s HK Hs _. rewrite HK. cbn [default].
      destruct (Forall2_lookup_lr _ _ _ _ _ _ Hk HK Hs) as [Hb Hsh]. split; [|by apply shows_update].
      rewrite length_app. cbn. intros m [Hin%elem_of_singleton|Hin]%elem_of_union; [lia|]. specialize (Hb m Hin). lia.
    + by apply Hlater.
  - split; try done; cbn. apply Forall2_app; [done|].
    destruct (proj1 (Forall2_lookup _ _ _) Hk r); cbn; [constructor; [done|]|]; constructor.
  - split; try done; cbn. destruct (proj1 (Forall2_lookup _ _ _) Hm k) as [K' s' [HK' Hs']|]; cbn; [|done].
    apply Forall2_alter2; [done|]. intros K s _ _ [HK Hs]. split; [|by apply shows_merge].
    intros m [Hin|Hin]%elem_of_union; [by apply HK|by apply HK'].
Qed.
Lemma in_step_run ops c h : in_step c h → in_step (net_run ops c) (history_run ops h).
Proof. revert c h. induction ops as [|o ops IH]; intros c h Hs; [done|]. by apply IH, in_step_step. Qed.
Lemma log_updates ops h : (log (history_run ops h)).*1 = (log h).*1 ++ omap update_of ops.
Proof.
  revert h. induction ops as [|o ops IH]; intros h; [by rewrite app_nil_r|].
  change (history_run (o :: ops) h) with (history_run ops (history_step o h)). rewrite IH.
  destruct o; cbn; [|done..]. by rewrite fmap_app, <-(assoc_L (++)).
Qed.
Lemma NoDup_omap_index {A B} (f : A → option B) l i j x y b : NoDup (omap f l) →
  l !! i = Some x → l !! j = Some y → f x = Some b → f y = Some b → i = j.
Proof.
  revert i j. induction l as [|z l IH]; intros i j Hnd Hi Hj Hx Hy; [done|]. cbn in Hnd.
  assert (∀ k w, l !! k = Some w → f w = Some b → b ∈ omap f l) as Hin.
  { intros k w Hk Hw. apply list_elem_of_omap. exists w. split; [by eapply list_elem_of_lookup_2|done]. }
  destruct i as [|i], j as [|j]; cbn in *; [done|..].
  - injection Hi as ->. rewrite Hx in Hnd. apply NoDup_cons in Hnd as [Hn _]. by destruct Hn; eapply Hin.
  - injection Hj as ->. rewrite Hy in Hnd. apply NoDup_cons in Hnd as [Hn _]. by destruct Hn; eapply Hin.
  - f_equal. destruct (f z); [apply NoDup_cons in Hnd as [_ Hnd]|]; by eapply IH.
Qed.
Lemma add_ids_log ops n : add_ids ops = omap add_id (log (history_run ops (history_new n))).*1.
Proof.
  rewrite log_updates. cbn. unfold add_ids. induction ops as [|o ops IH]; [done|]. cbn.
  destruct o as [r u|r|r k]; cbn; [|done..]. destruct (add_id u); by rewrite IH.
Qed.

(** ** Properties *)

(** C40. Strong eventual consistency of the observed-remove set.  Let replicas of a set make additions and removals,
    send their states and merge states that were sent at any time before, late, repeatedly or never.  Then two
    replicas that know the same updates are in the same state; and if no two additions have the same identifier,
    the values of a replica are exactly those with an addition that it knows of and that no removal it knows of had
    known: an addition wins over a concurrent removal. *)
Theorem or_set_replicas_converge (n : nat) (ops : list NetOp) :
  let c := net_run ops (net_new n) in
  let h := history_run ops (history_new n) in
  (∀ r1 r2 s1 s2 K, replicas c !! r1 = Some s1 → replicas c !! r2 = Some s2 →
     known h !! r1 = Some K → known h !! r2 = Some K → s1 = s2) ∧
  (NoDup (add_ids ops) → ∀ r s K v, replicas c !! r = Some s → known h !! r = Some K →
     OrSet_contains s v = true ↔
     ∃ k uid past, k ∈ K ∧ log h !! k = Some (Add v uid, past) ∧
       ∀ k' past', k' ∈ K → log h !! k' = Some (Remove v, past') → k ∉ past').
Proof.
  cbv zeta. destruct (in_step_run ops _ _ (in_step_new n)) as [_ Hk _].
  assert (∀ r s K, replicas (net_run ops (net_new n)) !! r = Some s →
    known (history_run ops (history_new n)) !! r = Some K → shows (log (history_run ops (history_new n))) K s) as Hsh.
  { intros r s K Hr HK. by destruct (Forall2_lookup_lr _ _ _ _ _ _ Hk HK Hr). }
  split; [intros r1 r2 s1 s2 K H1 H2 HK1 HK2; eapply shows_unique; by eapply Hsh|].
  rewrite (add_ids_log ops n). generalize dependent (history_run ops (history_new n)). intros h _ Hsh Hnd r s K v Hr HK.
  assert (∀ i j v1 v2 uid p1 p2, log h !! i = Some (Add v1 uid, p1) → log h !! j = Some (Add v2 uid, p2) → i = j) as Hid.
  { intros i j v1 v2 uid p1 p2 Hi Hj. eapply (NoDup_omap_index _ _ i j); [done|..]; rewrite ?list_lookup_fmap, ?Hi, ?Hj; done. }
  destruct (Hsh r s K Hr HK) as [Ha Hrm _]. rewrite OrSet_contains_spec. split.
  - intros (ids & uid & Hv & Hin & Hnr). assert (added_in (log h) K v uid) as (k & past & HkK & Hl) by (apply Ha; by rewrite Hv).
    exists k, uid, past. split_and!; try done. intros k' past' Hk' Hl' Hp. apply Hnr, Hrm. exists k', v, past'.
    split_and!; try done. by exists k, past.
  - intros (k & uid & past & HkK & Hl & Hw). assert (uid ∈ default ∅ (added s !! v)) as Hin by (apply Ha; by exists k, past).
    destruct (added s !! v) as [ids|]; cbn in Hin; [|set_solver]. exists ids, uid. split_and!; try done.
    intros (k' & v' & past' & Hk' & Hl' & (j & pj & Hj & Hlj))%Hrm.
    assert (k = j) as <- by by eapply Hid. rewrite Hl in Hlj. injection Hlj as <- <-. by eapply Hw.
Qed.
End replicas.

(** Two replicas: one adds a value again while the other removes it, and both states travel.  The addition
    wins at both, and the replicas end in the same state. *)
Definition race : list (NetOp (T := Z)) :=
  [DoUpdate 0 (Add 7 "a"); Send 0; Receive 1 0; DoUpdate 1 (Remove 7); DoUpdate 0 (Add 7 "b"); Send 1; Send 0;
   Receive 0 1; Receive 1 2; Receive 1 0].
Definition race_end : Net (T := Z) := net_run race (net_new 2).
Lemma or_set_replicas_converge_witness :
  NoDup (add_ids race) ∧ replicas race_end !! 0%nat = replicas race_end !! 1%nat ∧
  ∃ s, replicas race_end !! 0%nat = Some s ∧ OrSet_contains s 7 = true.
Proof.
  destruct (or_set_replicas_converge 2 race) as [Heq Hin].
  assert (NoDup (add_ids race)) as Hnd by (apply (bool_decide_unpack _); vm_compute; exact I).
  split; [exact Hnd|]. split.
  - destruct (replicas race_end !! 0%nat) as [s1|] eqn:H1; [|discriminate H1].
    destruct (replicas race_end !! 1%nat) as [s2|] eqn:H2; [|discriminate H2].
    f_equal. apply (Heq 0%nat 1%nat s1 s2 {[0; 1; 2]}%nat); [exact H1 | exact H2 |..];
      apply (bool_decide_unpack _); vm_compute; exact I.
  - destruct (replicas race_end !! 0%nat) as [s1|] eqn:H1; [|discriminate H1]. exists s1. split; [reflexivity|].
    apply (Hin Hnd 0%nat s1 {[0; 1; 2]}%nat 7 H1).
    { apply (bool_decide_unpack _); vm_compute; exact I. }
    exists 2%nat, "b", {[0%nat]}. split_and!; [set_solver|vm_compute; reflexivity|].
    intros k' past' Hk' Hl. assert (k' = 1%nat) as ->.
    { assert (k' = 0 ∨ k' = 1 ∨ k' = 2)%nat as [->|[->| ->]] by set_solver; [|done|]; discriminate Hl. }
    injection Hl as <-. set_solver.
Defined.
