(* ===== verification/CircuitBreaker.v ===== *)
(** CircuitBreaker: the circuit breaker of crates/common/src/circuit_breaker/circuit_breaker.rs.

    An [Instant] is a number of nanoseconds; every operation takes the instant [now] at which it
    runs, which stands for all its calls of [Instant::now()].  The public operations hold the
    write lock of the state, so each is one step. *)
From S2P Require Import Prelude.

(** ** Configuration and state *)

Inductive CircuitState := Closed | Open | HalfOpen | Disabled.
#[export] Instance CircuitState_eq_dec : EqDecision CircuitState.
Proof. solve_decision. Defined.
Definition CircuitState_i32 (s : CircuitState) : Z :=
  match s with Closed => 0 | Open => 1 | HalfOpen => 2 | Disabled => 3 end.

Inductive FailureStrategy := Consecutive | SlidingWindow | ErrorRate | Custom.
(** [FailureStrategy::try_from(x).unwrap_or(Consecutive)] *)
Definition FailureStrategy_of_i32 (x : Z) : FailureStrategy :=
  if x =? 1 then SlidingWindow else if x =? 2 then ErrorRate else if x =? 3 then Custom
  else Consecutive.

(** A protobuf [Duration] by its seconds. *)
Record SlidingWindowConfig := mkWindow {
  window_size : Z;
  window_duration : option Z;
  minimum_requests : Z
}.

Record CircuitBreakerConfig := mkConfig {
  cfg_name : string;
  failure_strategy : Z;
  failure_threshold : Z;
  success_threshold : Z;
  timeout : option Z;
  sliding_window : option SlidingWindowConfig;
  max_half_open_requests : Z
}.

Record RequestRecord := mkRecord { success : bool; timestamp : Z }.

Record CircuitBreakerState := mkState {
  config : CircuitBreakerConfig;
  state : CircuitState;
  state_since : Z;
  total_requests : Z;
  successful_requests : Z;
  failed_requests : Z;
  rejected_requests : Z;
  consecutive_failures : Z;
  consecutive_successes : Z;
  trip_count : Z;
  request_window : list RequestRecord;
  last_opened : option Z;
  last_closed : option Z;
  half_open_requests : Z
}.

Definition nanos : Z := 1000000000.
(** [Duration::from_secs(d.seconds as u64)] *)
Definition duration_from_secs (seconds : Z) : Z := as_u64 seconds * nanos.

Module Cb.

Definition new (now : Z) (c : CircuitBreakerConfig) : CircuitBreakerState :=
  mkState c Closed now 0 0 0 0 0 0 0 [] None None 0.

(** *** Transitions *)

Definition transition_to_open (now : Z) (s : CircuitBreakerState) : CircuitBreakerState :=
  mkState (config s) Open now (total_requests s) (successful_requests s) (failed_requests s)
    (rejected_requests s) (consecutive_failures s) (consecutive_successes s)
    (u64_add (trip_count s) 1) (request_window s) (Some now) (last_closed s) 0.

Definition transition_to_half_open (now : Z) (s : CircuitBreakerState) : CircuitBreakerState :=
  mkState (config s) HalfOpen now (total_requests s) (successful_requests s) (failed_requests s)
    (rejected_requests s) 0 0 (trip_count s) (request_window s) (last_opened s) (last_closed s) 0.

Definition transition_to_closed (now : Z) (s : CircuitBreakerState) : CircuitBreakerState :=
  mkState (config s) Closed now (total_requests s) (successful_requests s) (failed_requests s)
    (rejected_requests s) 0 0 (trip_count s) (request_window s) (last_opened s) (Some now) 0.

(** *** Admission *)

Definition set_half_open_requests (s : CircuitBreakerState) (n : Z) : CircuitBreakerState :=
  mkState (config s) (state s) (state_since s) (total_requests s) (successful_requests s)
    (failed_requests s) (rejected_requests s) (consecutive_failures s) (consecutive_successes s)
    (trip_count s) (request_window s) (last_opened s) (last_closed s) n.

Definition state_is_request_allowed (now : Z) (s : CircuitBreakerState)
    : CircuitBreakerState * bool :=
  match state s with
  | Closed => (s, true)
  | Open =>
      match timeout (config s), last_opened s with
      | Some seconds, Some opened_at =>
          if duration_from_secs seconds <=? now - opened_at
          then (transition_to_half_open now s, true) else (s, false)
      | _, _ => (s, false)
      end
  | HalfOpen =>
      if half_open_requests s <? max_half_open_requests (config s)
      then (set_half_open_requests s (u32_add (half_open_requests s) 1), true) else (s, false)
  | Disabled => (s, true)
  end.

Definition count_rejected (s : CircuitBreakerState) : CircuitBreakerState :=
  mkState (config s) (state s) (state_since s) (total_requests s) (successful_requests s)
    (failed_requests s) (u64_add (rejected_requests s) 1) (consecutive_failures s)
    (consecutive_successes s) (trip_count s) (request_window s) (last_opened s) (last_closed s)
    (half_open_requests s).

Definition is_request_allowed (now : Z) (s : CircuitBreakerState) : CircuitBreakerState * bool :=
  let '(s', allowed) := state_is_request_allowed now s in
  if negb allowed then (count_rejected s', allowed) else (s', allowed).

(** *** The sliding window *)

(** [while front.timestamp < cutoff { pop_front() }] *)
Fixpoint drop_old (cutoff : Z) (w : list RequestRecord) : list RequestRecord :=
  match w with
  | r :: w' => if timestamp r <? cutoff then drop_old cutoff w' else w
  | [] => []
  end.

(** [while len > size { pop_front() }] *)
Fixpoint limit_size (size : Z) (w : list RequestRecord) : list RequestRecord :=
  match w with
  | r :: w' => if size <? Z.of_nat (length w) then limit_size size w' else w
  | [] => []
  end.

Definition add_to_window (now : Z) (c : CircuitBreakerConfig) (w : list RequestRecord) (ok : bool)
    : list RequestRecord :=
  match sliding_window c with
  | Some wc =>
      let w := w ++ [mkRecord ok now] in
      let w := match window_duration wc with
               | Some d => drop_old (now - duration_from_secs d) w | None => w end in
      limit_size (window_size wc) w
  | None => w
  end.

Definition count_failures_in_window (s : CircuitBreakerState) : Z :=
  as_u32 (Z.of_nat (length (List.filter (λ r, negb (success r)) (request_window s)))).

(** *** Outcomes *)

Definition should_trip (s : CircuitBreakerState) : bool :=
  let c := config s in
  match FailureStrategy_of_i32 (failure_strategy c) with
  | Consecutive => failure_threshold c <=? consecutive_failures s
  | SlidingWindow =>
      match sliding_window c with
      | Some wc =>
          let failures_in_window := count_failures_in_window s in
          let total_in_window := as_u32 (Z.of_nat (length (request_window s))) in
          if total_in_window <? minimum_requests wc then false
          else failure_threshold c <=? failures_in_window
      | None => false
      end
  | ErrorRate =>
      match sliding_window c with
      | Some wc =>
          let total_in_window := as_u32 (Z.of_nat (length (request_window s))) in
          if total_in_window <? minimum_requests wc then false
          else
            let failures_in_window := count_failures_in_window s in
            let error_rate := f64_div (f64_of_Z failures_in_window) (f64_of_Z total_in_window) in
            let threshold_rate := f64_div (f64_of_Z (failure_threshold c)) (f64_of_Z 100) in
            f64_leb threshold_rate error_rate
      | None => false
      end
  | Custom => false
  end.

Definition record_success (now : Z) (s : CircuitBreakerState) : CircuitBreakerState :=
  let s1 := mkState (config s) (state s) (state_since s) (u64_add (total_requests s) 1)
    (u64_add (successful_requests s) 1) (failed_requests s) (rejected_requests s) 0
    (u32_add (consecutive_successes s) 1) (trip_count s)
    (add_to_window now (config s) (request_window s) true) (last_opened s) (last_closed s)
    (half_open_requests s) in
  if bool_decide (state s1 = HalfOpen) then
    if success_threshold (config s1) <=? consecutive_successes s1
    then transition_to_closed now s1 else s1
  else s1.

Definition record_failure (now : Z) (s : CircuitBreakerState) : CircuitBreakerState :=
  let s1 := mkState (config s) (state s) (state_since s) (u64_add (total_requests s) 1)
    (successful_requests s) (u64_add (failed_requests s) 1) (rejected_requests s)
    (u32_add (consecutive_failures s) 1) 0 (trip_count s)
    (add_to_window now (config s) (request_window s) false) (last_opened s) (last_closed s)
    (half_open_requests s) in
  match state s1 with
  | Closed => if should_trip s1 then transition_to_open now s1 else s1
  | HalfOpen => transition_to_open now s1
  | _ => s1
  end.

Definition get_state (s : CircuitBreakerState) : CircuitState := state s.
Definition trip (now : Z) (s : CircuitBreakerState) : CircuitBreakerState :=
  transition_to_open now s.
Definition reset (now : Z) (s : CircuitBreakerState) : CircuitBreakerState :=
  transition_to_closed now s.

(** *** Metrics *)

Record SlidingWindowMetrics := mkWindowMetrics { window_requests : Z; window_failures : Z }.
Record CircuitBreakerMetrics := mkMetrics {
  m_name : string;
  m_state : Z;
  m_total_requests : Z;
  m_successful_requests : Z;
  m_failed_requests : Z;
  m_rejected_requests : Z;
  m_error_rate : f64;
  m_consecutive_failures : Z;
  m_consecutive_successes : Z;
  m_last_opened : option (Z * Z);
  m_last_closed : option (Z * Z);
  m_time_in_state : Z * Z;
  m_trip_count : Z;
  m_sliding_window_metrics : option SlidingWindowMetrics
}.

Definition calculate_error_rate (s : CircuitBreakerState) : f64 :=
  if total_requests s =? 0 then S754_zero false
  else f64_div (f64_of_Z (failed_requests s)) (f64_of_Z (total_requests s)).

(** The seconds and nanoseconds since an instant. *)
Definition elapsed (now t : Z) : Z * Z := ((now - t) / nanos, (now - t) mod nanos).

Definition get_metrics (now : Z) (s : CircuitBreakerState) : CircuitBreakerMetrics :=
  mkMetrics (cfg_name (config s)) (CircuitState_i32 (state s)) (total_requests s)
    (successful_requests s) (failed_requests s) (rejected_requests s) (calculate_error_rate s)
    (consecutive_failures s) (consecutive_successes s) (elapsed now <$> last_opened s)
    (elapsed now <$> last_closed s) (elapsed now (state_since s)) (trip_count s)
    ((λ _, mkWindowMetrics (as_u32 (Z.of_nat (length (request_window s))))
        (count_failures_in_window s)) <$> sliding_window (config s)).

(** ** Runs *)

Inductive CbOp := Request | Success | Failure | Trip | Reset.

Definition exec (now : Z) (op : CbOp) (s : CircuitBreakerState) : CircuitBreakerState * bool :=
  match op with
  | Request => is_request_allowed now s
  | Success => (record_success now s, false)
  | Failure => (record_failure now s, false)
  | Trip => (trip now s, false)
  | Reset => (reset now s, false)
  end.

(** The states and the number of admitted requests of a run. *)
Fixpoint run (ops : list (Z * CbOp)) (s : CircuitBreakerState) : CircuitBreakerState * Z :=
  match ops with
  | [] => (s, 0)
  | (now, op) :: ops =>
      let '(s1, admitted) := exec now op s in
      let '(s2, n) := run ops s1 in (s2, (if admitted then 1 else 0) + n)
  end.

(** What a run answered to each of its operations. *)
Fixpoint answers (ops : list (Z * CbOp)) (s : CircuitBreakerState) : list bool :=
  match ops with
  | [] => []
  | (now, op) :: ops => let '(s1, b) := exec now op s in b :: answers ops s1
  end.

(** What every reachable state satisfies. *)
Record invariant (s : CircuitBreakerState) : Prop := {
  inv_config : 0 <= max_half_open_requests (config s) <= u32_max;
  inv_total : total_requests s = wrap 64 (successful_requests s + failed_requests s);
  inv_opened : state s = Open → is_Some (last_opened s);
  inv_half_open : state s = HalfOpen →
    0 <= half_open_requests s <= max_half_open_requests (config s);
  inv_window : ∀ wc, sliding_window (config s) = Some wc →
    Z.of_nat (length (request_window s)) <= Z.max 0 (window_size wc);
  inv_runs : consecutive_failures s = 0 ∨ consecutive_successes s = 0;
  inv_closed : FailureStrategy_of_i32 (failure_strategy (config s)) = Consecutive →
    0 < failure_threshold (config s) → state s = Closed →
    consecutive_failures s < failure_threshold (config s)
}.

(** ** Lemmas *)

Lemma exec_config now op s : config (exec now op s).1 = config s.
Proof.
  destruct op; simpl; unfold is_request_allowed, state_is_request_allowed, record_success,
    record_failure; by repeat (case_match; simplify_eq/=).
Qed.

Lemma limit_size_length size w :
  Z.of_nat (length (limit_size size w)) <= Z.max 0 size.
Proof.
  induction w as [|r w IH]; [simpl; lia|]. cbn [limit_size].
  destruct (Z.ltb_spec size (Z.of_nat (length (r :: w)))); [done | lia].
Qed.

Lemma add_to_window_length now c w ok wc :
  sliding_window c = Some wc →
  Z.of_nat (length (add_to_window now c w ok)) <= Z.max 0 (window_size wc).
Proof. unfold add_to_window. intros ->. apply limit_size_length. Qed.

Lemma new_invariant now c :
  0 <= max_half_open_requests c <= u32_max → invariant (new now c).
Proof. intros. split; simpl; try done; try lia. Qed.

Lemma total_succ_l a b c : a = wrap 64 (b + c) → u64_add a 1 = wrap 64 (u64_add b 1 + c).
Proof.
  intros ->. unfold u64_add, wrap. rewrite Zplus_mod_idemp_l, Zplus_mod_idemp_l. f_equal. lia.
Qed.

Lemma total_succ_r a b c : a = wrap 64 (b + c) → u64_add a 1 = wrap 64 (b + u64_add c 1).
Proof.
  intros ->. unfold u64_add, wrap. rewrite Zplus_mod_idemp_l, Zplus_mod_idemp_r. f_equal. lia.
Qed.

Lemma to_open_invariant now s : invariant s → invariant (transition_to_open now s).
Proof. intros []. by split. Qed.

Lemma to_closed_invariant now s : invariant s → invariant (transition_to_closed now s).
Proof. intros []. split; simpl; try done; by left. Qed.

Lemma to_half_open_invariant now s : invariant s → invariant (transition_to_half_open now s).
Proof. intros []. split; simpl; try done; [lia | by left]. Qed.

Lemma request_invariant now s : invariant s → invariant (is_request_allowed now s).1.
Proof.
  intros Hs. unfold is_request_allowed, state_is_request_allowed.
  assert (Hrej : invariant (count_rejected s)) by (destruct Hs; by split).
  destruct (state s) eqn:Es; simpl; try done.
  - destruct (timeout _), (last_opened s); simpl; try done.
    destruct (_ <=? _); simpl; [by apply to_half_open_invariant | done].
  - destruct (Z.ltb_spec (half_open_requests s) (max_half_open_requests (config s))); simpl; [|done].
    destruct Hs as [Hc ? ? Hh]. specialize (Hh Es). split; simpl; try done.
    rewrite u32_add_small by lia. lia.
Qed.

Lemma success_invariant now s : invariant s → invariant (record_success now s).
Proof.
  intros Hs. unfold record_success.
  match goal with |- context [mkState ?a ?b ?c ?d ?e ?f ?g ?h ?i ?j ?k ?l ?m ?n] =>
    assert (invariant (mkState a b c d e f g h i j k l m n)) as H1;
      [|set (s1 := mkState a b c d e f g h i j k l m n) in *] end.
  - destruct Hs. split; simpl; try done.
    + by apply total_succ_l.
    + intros wc Hw. by apply add_to_window_length.
    + by left.
  - case_bool_decide; [|done]. case_match; [by apply to_closed_invariant | done].
Qed.

Lemma failure_invariant now s : invariant s → invariant (record_failure now s).
Proof.
  intros Hs. unfold record_failure.
  match goal with |- context [mkState ?a ?b ?c ?d ?e ?f ?g ?h ?i ?j ?k ?l ?m ?n] =>
    set (s1 := mkState a b c d e f g h i j k l m n) end.
  assert (Hs1 : (state s1 = Closed → should_trip s1 = false) → invariant s1).
  { intros Htrip. destruct Hs. split; simpl; try done.
    - by apply total_succ_r.
    - intros wc Hw. by apply add_to_window_length.
    - by right.
    - intros Hst _ Hcl. specialize (Htrip Hcl). unfold should_trip in Htrip. simpl in Htrip.
      rewrite Hst in Htrip. by apply Z.leb_gt in Htrip. }
  assert (Hopen : invariant (transition_to_open now s1)).
  { destruct Hs. split; simpl; try done; auto with plex.
    - by apply total_succ_r.
    - intros wc Hw. by apply add_to_window_length. }
  destruct (state s1) eqn:Es.
  - destruct (should_trip s1) eqn:Et; [done|]. by apply Hs1.
  - by apply Hs1.
  - done.
  - by apply Hs1.
Qed.

Lemma exec_invariant now op s : invariant s → invariant (exec now op s).1.
Proof.
  destruct op; simpl; auto using request_invariant, success_invariant, failure_invariant,
    to_open_invariant, to_closed_invariant.
Qed.

Lemma run_app ops1 ops2 s :
  run (ops1 ++ ops2) s =
    let '(s1, n1) := run ops1 s in let '(s2, n2) := run ops2 s1 in (s2, n1 + n2).
Proof.
  revert s. induction ops1 as [|[now op] ops1 IH]; intros s; cbn [run app].
  - by destruct (run ops2 s).
  - destruct (exec now op s) as [s1 b]. rewrite IH. destruct (run ops1 s1) as [s2 n1].
    destruct (run ops2 s2) as [s3 n2]. f_equal. lia.
Qed.

Lemma run_invariant ops s : invariant s → invariant (run ops s).1.
Proof.
  revert s. induction ops as [|[now op] ops IH]; intros s Hs; simpl; [done|].
  pose proof (exec_invariant now op s Hs) as H1. destruct (exec now op s) as [s1 b].
  specialize (IH s1 H1). by destruct (run ops s1).
Qed.

(** A half-open breaker that has used its quota rejects requests and stays half-open. *)
Lemma half_open_exhausted times s :
  state s = HalfOpen → half_open_requests s = max_half_open_requests (config s) →
  let '(s', n) := run ((λ now, (now, Request)) <$> times) s in n = 0 ∧ state s' = HalfOpen.
Proof.
  revert s. induction times as [|now times IH]; intros s Hst Hq; simpl; [done|].
  unfold is_request_allowed, state_is_request_allowed. rewrite Hst, Hq, Z.ltb_irrefl. simpl.
  specialize (IH (count_rejected s) Hst Hq). by destruct (run _ _).
Qed.

(** Requests alone use up the quota of a half-open breaker one by one. *)
Lemma half_open_requests_run times s :
  state s = HalfOpen →
  0 <= half_open_requests s <= max_half_open_requests (config s) →
  max_half_open_requests (config s) <= u32_max →
  let '(s', n) := run ((λ now, (now, Request)) <$> times) s in
  n = Z.min (Z.of_nat (length times)) (max_half_open_requests (config s) - half_open_requests s).
Proof.
  revert s. induction times as [|now times IH]; intros s Hst Hq Hmax; [simpl; lia|].
  destruct (decide (half_open_requests s = max_half_open_requests (config s))) as [Heq|Hne].
  - pose proof (half_open_exhausted (now :: times) s Hst Heq) as H.
    destruct (run _ s). destruct H as [-> _]. lia.
  - cbn [fmap list_fmap run exec]. unfold is_request_allowed, state_is_request_allowed. rewrite Hst.
    destruct (Z.ltb_spec (half_open_requests s) (max_half_open_requests (config s))) as [Hlt|]; [|lia].
    cbn [negb].
    specialize (IH (set_half_open_requests s (u32_add (half_open_requests s) 1)) Hst).
    destruct (run _ _) as [s' n].
    cbn [half_open_requests set_half_open_requests config] in IH.
    rewrite u32_add_small in IH by lia. rewrite IH by lia. cbn [length]. lia.
Qed.

(** An open breaker whose timeout has passed becomes half-open on the next request. *)
Lemma open_recovers now s seconds opened_at :
  state s = Open → timeout (config s) = Some seconds → last_opened s = Some opened_at →
  duration_from_secs seconds <= now - opened_at →
  is_request_allowed now s = (transition_to_half_open now s, true).
Proof.
  intros Hst Hto Hop Hd. unfold is_request_allowed, state_is_request_allowed.
  rewrite Hst, Hto, Hop. apply Z.leb_le in Hd. by rewrite Hd.
Qed.

(** A success below the threshold only counts. *)
Lemma success_below_threshold now s :
  state s = HalfOpen → 0 <= consecutive_successes s ->
  consecutive_successes s + 1 < success_threshold (config s) → success_threshold (config s) <= u32_max →
  let s' := record_success now s in
  state s' = HalfOpen ∧ config s' = config s ∧ half_open_requests s' = half_open_requests s
  ∧ consecutive_successes s' = consecutive_successes s + 1.
Proof.
  intros Hst H0 Hlt Hmax. unfold record_success. simpl. rewrite Hst. simpl.
  rewrite u32_add_small by lia.
  destruct (Z.leb_spec (success_threshold (config s)) (consecutive_successes s + 1)); [lia|]. done.
Qed.

(** [k] successful trial requests of a half-open breaker. *)
Lemma half_open_successes times s :
  state s = HalfOpen →
  0 <= half_open_requests s → 0 <= consecutive_successes s →
  half_open_requests s + Z.of_nat (length times) <= max_half_open_requests (config s) →
  max_half_open_requests (config s) <= u32_max →
  consecutive_successes s + Z.of_nat (length times) < success_threshold (config s) →
  success_threshold (config s) <= u32_max →
  let '(s', n) := run (times ≫= λ now, [(now, Request); (now, Success)]) s in
  n = Z.of_nat (length times) ∧ state s' = HalfOpen ∧ config s' = config s
  ∧ half_open_requests s' = half_open_requests s + Z.of_nat (length times).
Proof.
  revert s. induction times as [|now times IH]; intros s Hst Hh Hc Hq Hmax Hs Hsm.
  - simpl. split_and!; lia || done.
  - cbn [length] in *. cbn [mbind list_bind app run exec].
    unfold is_request_allowed, state_is_request_allowed. rewrite Hst.
    destruct (Z.ltb_spec (half_open_requests s) (max_half_open_requests (config s))); [|lia].
    cbn [negb]. set (s1 := set_half_open_requests s (u32_add (half_open_requests s) 1)).
    destruct (success_below_threshold now s1 Hst Hc) as (H1 & H2 & H3 & H4);
      cbn [set_half_open_requests s1 config consecutive_successes]; [lia..|].
    cbn in H2, H3, H4. rewrite u32_add_small in H3 by lia.
    specialize (IH (record_success now s1)). rewrite H1, H2, H3, H4 in IH.
    specialize (IH eq_refl ltac:(lia) ltac:(lia) ltac:(lia) Hmax ltac:(lia) Hsm).
    destruct (run _ _) as [s' n]. destruct IH as (-> & ? & ? & ->). split_and!; lia || done.
Qed.

(** Failures of a closed breaker with the consecutive strategy. *)
Lemma consecutive_failures_run times s :
  state s = Closed → FailureStrategy_of_i32 (failure_strategy (config s)) = Consecutive →
  0 <= consecutive_failures s < failure_threshold (config s) →
  failure_threshold (config s) <= u32_max →
  (consecutive_failures s + Z.of_nat (length times) < failure_threshold (config s) →
     state (run ((λ now, (now, Failure)) <$> times) s).1 = Closed)
  ∧ (failure_threshold (config s) <= consecutive_failures s + Z.of_nat (length times) →
     state (run ((λ now, (now, Failure)) <$> times) s).1 = Open).
Proof.
  assert (Hopen : ∀ times s, state s = Open →
    state (run ((λ now, (now, Failure)) <$> times) s).1 = Open).
  { clear. induction times as [|now times IH]; intros s Hs; [done|].
    cbn [fmap list_fmap run exec]. specialize (IH (record_failure now s)).
    unfold record_failure in *. simpl in *. rewrite Hs in *. destruct (run _ _). by apply IH. }
  revert s. induction times as [|now times IH]; intros s Hst Hstr Hcf Hth; [simpl; split; [done|lia]|].
  cbn [fmap list_fmap run exec length].
  destruct (run _ (record_failure now s)) as [s' n] eqn:Er. cbn [fst].
  revert Er. unfold record_failure. cbn [state]. rewrite Hst.
  match goal with |- context [should_trip ?x] => set (s1 := x) end.
  assert (Htrip : should_trip s1 = (failure_threshold (config s) <=? consecutive_failures s + 1)).
  { unfold should_trip. simpl. rewrite Hstr, u32_add_small by lia. done. }
  rewrite Htrip. destruct (Z.leb_spec (failure_threshold (config s)) (consecutive_failures s + 1)).
  - intros Er. split; [lia|]. intros _.
    pose proof (Hopen times (transition_to_open now s1) eq_refl) as Ho. by rewrite Er in Ho.
  - intros Er. specialize (IH s1 eq_refl Hstr). cbn [s1 config consecutive_failures] in IH.
    rewrite u32_add_small in IH by lia. rewrite Er in IH.
    destruct IH as [IH1 IH2]; [lia.. |]. split; intros; [apply IH1 | apply IH2]; lia.
Qed.

(** *** The window *)

Definition newest (n : Z) (w : list RequestRecord) : list RequestRecord :=
  drop (length w - Z.to_nat n) w.

Lemma limit_size_newest n w : 0 <= n → limit_size n w = newest n w.
Proof.
  intros Hn. unfold newest. induction w as [|r w IH]; [done|]. cbn [limit_size length].
  destruct (Z.ltb_spec n (Z.of_nat (S (length w)))).
  - rewrite IH. by replace (S (length w) - Z.to_nat n)%nat with (S (length w - Z.to_nat n)) by lia.
  - by replace (S (length w) - Z.to_nat n)%nat with 0%nat by lia.
Qed.

Lemma drop_old_filter cutoff w :
  StronglySorted (λ r1 r2, timestamp r1 <= timestamp r2) w →
  drop_old cutoff w = List.filter (λ r, cutoff <=? timestamp r) w.
Proof.
  induction 1 as [|r w Hw IH Hr]; [done|]. cbn [drop_old List.filter].
  destruct (Z.ltb_spec (timestamp r) cutoff), (Z.leb_spec cutoff (timestamp r)); try lia; [done|].
  f_equal. rewrite (filter_ext_in _ (λ _, true)); [by rewrite List.filter_true|].
  intros x Hx. apply Z.leb_le. rewrite Forall_forall in Hr. specialize (Hr x Hx). lia.
Qed.

Lemma StronglySorted_snoc w r :
  StronglySorted (λ r1 r2, timestamp r1 <= timestamp r2) w →
  Forall (λ x, timestamp x <= timestamp r) w →
  StronglySorted (λ r1 r2, timestamp r1 <= timestamp r2) (w ++ [r]).
Proof.
  induction 1 as [|x w Hw IH Hx]; intros Hall; simpl; [repeat constructor|].
  apply Forall_cons in Hall as [H1 H2]. constructor; [by apply IH|].
  apply Forall_app. split; [done | by constructor].
Qed.

End Cb.

(** ** The documented machine

    What the configuration promises, as a machine on the outcomes alone: it has no counters and no
    window, and reads what it needs off the list of all outcomes and of those since it closed.  Where the
    code leaves the documentation the machine goes with the code: an error rate is a percentage and no
    fraction, and the trial request that ends the wait of an open circuit does not count for the quota. *)
Module Machine.
Import Cb.

Inductive Phase :=
| PClosed (since_closed : list bool)   (* the outcomes since it closed, the newest first *)
| POpen (since : Z)
| PHalfOpen (admitted successes : Z).
Record Machine := mkMachine {
  phase : Phase;
  history : list RequestRecord;   (* all outcomes, the newest last *)
  refused : Z
}.
Definition start : Machine := mkMachine (PClosed []) [] 0.
Definition tag (p : Phase) : CircuitState :=
  match p with PClosed _ => Closed | POpen _ => Open | PHalfOpen _ _ => HalfOpen end.

Section config.
Context (c : CircuitBreakerConfig).

(** The failures since the last success. *)
Fixpoint failures_in_a_row (newest_first : list bool) : Z :=
  match newest_first with false :: l => 1 + failures_in_a_row l | _ => 0 end.
Definition failures (l : list RequestRecord) : Z :=
  Z.of_nat (length (List.filter (λ r, negb (success r)) l)).
(** The newest [window_size] of the outcomes that are not older than [window_duration]. *)
Definition recent (now : Z) (l : list RequestRecord) : list RequestRecord :=
  match sliding_window c with
  | Some wc =>
      newest (window_size wc)
        (List.filter (λ r, match window_duration wc with
                           | Some d => now - duration_from_secs d <=? timestamp r
                           | None => true end) l)
  | None => []
  end.
(** Whether a failure opens the circuit. *)
Definition trips (now : Z) (since_closed : list bool) (all : list RequestRecord) : bool :=
  let l := recent now all in
  let n := Z.of_nat (length l) in
  match FailureStrategy_of_i32 (failure_strategy c), sliding_window c with
  | Consecutive, _ => failure_threshold c <=? failures_in_a_row since_closed
  | SlidingWindow, Some wc => (minimum_requests wc <=? n) && (failure_threshold c <=? failures l)
  | ErrorRate, Some wc =>
      (minimum_requests wc <=? n)
      && f64_leb (f64_div (f64_of_Z (failure_threshold c)) (f64_of_Z 100))
           (f64_div (f64_of_Z (failures l)) (f64_of_Z n))
  | _, _ => false
  end.

Definition request (now : Z) (m : Machine) : Machine * bool :=
  let refuse := (mkMachine (phase m) (history m) (refused m + 1), false) in
  let go p := (mkMachine p (history m) (refused m), true) in
  match phase m with
  | PClosed l => go (PClosed l)
  | POpen since =>
      match timeout c with
      | Some d => if duration_from_secs d <=? now - since then go (PHalfOpen 0 0) else refuse
      | None => refuse
      end
  | PHalfOpen n k => if n <? max_half_open_requests c then go (PHalfOpen (n + 1) k) else refuse
  end.
Definition outcome (now : Z) (ok : bool) (m : Machine) : Machine :=
  let all := history m ++ [mkRecord ok now] in
  let p :=
    match phase m, ok with
    | PClosed l, true => PClosed (true :: l)
    | PClosed l, false =>
        if trips now (false :: l) all then POpen now else PClosed (false :: l)
    | POpen since, _ => POpen since
    | PHalfOpen n k, true =>
        if success_threshold c <=? k + 1 then PClosed [] else PHalfOpen n (k + 1)
    | PHalfOpen _ _, false => POpen now
    end in
  mkMachine p all (refused m).
Definition step (now : Z) (op : CbOp) (m : Machine) : Machine * bool :=
  match op with
  | Request => request now m
  | Success => (outcome now true m, false)
  | Failure => (outcome now false m, false)
  | Trip => (mkMachine (POpen now) (history m) (refused m), false)
  | Reset => (mkMachine (PClosed []) (history m) (refused m), false)
  end.
Fixpoint run (ops : list (Z * CbOp)) (m : Machine) : Machine * list bool :=
  match ops with
  | [] => (m, [])
  | (now, op) :: ops =>
      let '(m1, b) := step now op m in
      let '(m2, bs) := run ops m1 in (m2, b :: bs)
  end.
End config.
End Machine.

(** ** Lemmas: the breaker keeps step with the machine *)
Module Sim.
Import Cb Machine.

Abbreviation in_order := (StronglySorted (λ r1 r2, timestamp r1 <= timestamp r2)).

Lemma newest_app n l l' : newest n (newest n l ++ l') = newest n (l ++ l').
Proof.
  unfold newest. rewrite length_app, length_drop, length_app.
  destruct (decide (length l <= Z.to_nat n)%nat).
  - replace (length l - Z.to_nat n)%nat with 0%nat by lia. by rewrite Nat.sub_0_r.
  - rewrite <-(drop_app_le l l') by lia. rewrite drop_drop. f_equal. lia.
Qed.
Lemma newest_cons n r l : (Z.to_nat n <= length l)%nat → newest n (r :: l) = newest n l.
Proof.
  intros Hn. unfold newest. cbn [length].
  by replace (S (length l) - Z.to_nat n)%nat with (S (length l - Z.to_nat n)) by lia.
Qed.
Lemma newest_short n l : (length l <= Z.to_nat n)%nat → newest n l = l.
Proof. intros Hn. unfold newest. by replace (length l - Z.to_nat n)%nat with 0%nat by lia. Qed.
Lemma newest_newest n l : newest n (newest n l) = newest n l.
Proof. pose proof (newest_app n l []) as H. by rewrite !app_nil_r in H. Qed.

(** Old outcomes may be dropped at any time. *)
Lemma newest_filter cutoff n l : in_order l →
  newest n (List.filter (λ r, cutoff <=? timestamp r) (newest n l)) =
  newest n (List.filter (λ r, cutoff <=? timestamp r) l).
Proof.
  induction 1 as [|r l Hl IH Hr]; [done|].
  destruct (decide (Z.to_nat n <= length l)%nat) as [Hn|Hn];
    [|rewrite (newest_short n (r :: l)); [done | cbn; lia]].
  rewrite newest_cons by done. cbn [List.filter]. destruct (Z.leb_spec cutoff (timestamp r)); [|done].
  assert (∀ l', l' ⊆ r :: l → List.filter (λ x, cutoff <=? timestamp x) l' = l') as Hall.
  { intros l' Hl'. rewrite (filter_ext_in _ (λ _, true)); [by rewrite List.filter_true|].
    intros x Hx%Hl'. apply Z.leb_le. rewrite Forall_forall in Hr.
    apply elem_of_cons in Hx as [->|Hx]; [done|]. specialize (Hr x Hx). lia. }
  rewrite !Hall; [by rewrite newest_newest, newest_cons | set_solver |].
  unfold newest. intros x Hx. right. by apply (subseteq_drop (length l - Z.to_nat n)).
Qed.
Lemma in_order_filter f l : in_order l → in_order (List.filter f l).
Proof.
  induction 1 as [|r l Hl IH Hr]; cbn; [constructor|]. destruct (f r); [|done]. constructor; [done|].
  rewrite Forall_forall in Hr |- *. intros x [Hx _]%elem_of_filterb. by apply Hr.
Qed.
Lemma in_order_drop n l : in_order l → in_order (drop n l).
Proof.
  intros Hl. revert n. induction Hl as [|r l Hl IH Hr]; intros [|n]; cbn; try by constructor.
  apply IH.
Qed.

Section sim.
Context (c : CircuitBreakerConfig).
Context (Hsize : ∀ wc, sliding_window c = Some wc → 0 <= window_size wc).
Context (Hmax : 0 <= max_half_open_requests c <= u32_max).

(** The window of the breaker after one more outcome. *)
Lemma add_to_window_recent t now l ok : in_order l → Forall (λ r, timestamp r <= now) l → t <= now →
  add_to_window now c (recent c t l) ok = recent c now (l ++ [mkRecord ok now]).
Proof.
  intros Hl Hnow Ht. unfold add_to_window, recent.
  destruct (sliding_window c) as [wc|] eqn:Hwc; [|done]. specialize (Hsize wc eq_refl).
  destruct (window_duration wc) as [d|].
  - set (P t r := t - duration_from_secs d <=? timestamp r).
    change (λ r, t - duration_from_secs d <=? timestamp r) with (P t).
    rewrite drop_old_filter, limit_size_newest; [|done|].
    2: { apply StronglySorted_snoc; [by apply in_order_drop, in_order_filter|]. apply Forall_drop.
      rewrite Forall_forall in Hnow |- *. intros r [Hr _]%elem_of_filterb. by apply Hnow. }
    change (λ r, now - duration_from_secs d <=? timestamp r) with (P now).
    rewrite !List.filter_app, <-(newest_app _ (List.filter (P now) (newest _ _))).
    unfold P at 1. rewrite newest_filter by by apply in_order_filter.
    change (λ r, now - duration_from_secs d <=? timestamp r) with (P now).
    rewrite filter_filter, newest_app, (filter_ext_in _ (P now)); [done|].
    intros r _. unfold P. lia.
  - rewrite !List.filter_true, limit_size_newest by done. apply newest_app.
Qed.

(** The breaker [s] and the machine [m] after [n] operations, the last of them at [t]: what they have
    recorded, and the phase. *)
Definition last_outcome (l : list RequestRecord) : Z := from_option timestamp 0 (last l).
Record recorded (n t : Z) (s : CircuitBreakerState) (l : list RequestRecord) (refused : Z) : Prop := {
  rec_config : config s = c;
  rec_order : in_order l;
  rec_past : Forall (λ r, timestamp r <= t) l;
  rec_window : request_window s = recent c (last_outcome l) l;
  rec_size : Z.of_nat (length l) + refused <= n ∧ 0 <= refused;
  rec_refused : rejected_requests s = refused;
  rec_total : total_requests s = Z.of_nat (length l);
  rec_failed : failed_requests s = failures l;
  rec_successful : successful_requests s = Z.of_nat (length l) - failures l
}.
Definition in_phase (n : Z) (s : CircuitBreakerState) (p : Phase) : Prop :=
  state s = tag p ∧
  match p with
  | PClosed l => consecutive_failures s = failures_in_a_row l ∧ Z.of_nat (length l) <= n
  | POpen since => last_opened s = Some since
  | PHalfOpen k j =>
      half_open_requests s = k ∧ 0 <= k ∧ consecutive_successes s = j ∧ 0 <= j <= n
  end.
Definition sim (n t : Z) (s : CircuitBreakerState) (m : Machine) : Prop :=
  recorded n t s (history m) (refused m) ∧ in_phase n s (phase m).

Lemma failures_in_a_row_bounds l : 0 <= failures_in_a_row l <= Z.of_nat (length l).
Proof. induction l as [|[] l IH]; cbn -[Z.add Z.of_nat]; lia. Qed.
Lemma failures_bounds l : 0 <= failures l <= Z.of_nat (length l).
Proof. unfold failures. pose proof (List.filter_length_le (λ r, negb (success r)) l). lia. Qed.
Lemma failures_snoc l r : failures (l ++ [r]) = failures l + (if success r then 0 else 1).
Proof.
  unfold failures. rewrite List.filter_app, length_app. cbn. destruct (success r); cbn; lia.
Qed.
Lemma recent_length now l : (length (recent c now l) <= length l)%nat.
Proof.
  unfold recent. destruct (sliding_window c); [|cbn; lia]. unfold newest. rewrite length_drop.
  match goal with |- context [List.filter ?f ?l] => pose proof (List.filter_length_le f l) end. lia.
Qed.

Lemma as_u32_small x : 0 <= x <= u32_max → as_u32 x = x.
Proof. intros. apply wrap_small. unfold u32_max in *. lia. Qed.
Lemma trips_agree n now s l o :
  config s = c → request_window s = recent c now l → Z.of_nat (length l) <= n <= u32_max →
  consecutive_failures s = failures_in_a_row o → should_trip s = trips c now o l.
Proof.
  intros Hc Hw Hn Hf. unfold should_trip, trips, count_failures_in_window. rewrite Hc, Hw, Hf.
  pose proof (recent_length now l). pose proof (failures_bounds (recent c now l)) as Hb.
  change (Z.of_nat (length (List.filter (λ r, negb (success r)) (recent c now l))))
    with (failures (recent c now l)).
  rewrite !as_u32_small by lia.
  destruct (FailureStrategy_of_i32 _), (sliding_window c) as [wc|]; try done;
    destruct (Z.ltb_spec (Z.of_nat (length (recent c now l))) (minimum_requests wc)),
      (Z.leb_spec (minimum_requests wc) (Z.of_nat (length (recent c now l)))); done || lia.
Qed.

Lemma recorded_later n t now s l rf : recorded n t s l rf → t <= now → recorded (n + 1) now s l rf.
Proof.
  intros [] Ht. split; try done; [|lia]. eapply Forall_impl; [done|]. cbn. lia.
Qed.
Lemma last_outcome_past now l : Forall (λ r, timestamp r <= now) l →
  ∃ t, t <= now ∧ recent c (last_outcome l) l = recent c t l.
Proof.
  unfold last_outcome. destruct (last l) as [r|] eqn:Hl.
  - intros Hf. exists (timestamp r). split; [|done]. apply last_Some in Hl as [l' ->].
    apply Forall_app in Hf as [_ Hf]. by rewrite Forall_singleton in Hf.
  - apply last_None in Hl as ->. intros _. exists now. split; [done|].
    unfold recent, newest. destruct (sliding_window c); [cbn; by rewrite !drop_nil | done].
Qed.
Lemma recorded_outcome n t now s l rf ok s1 : recorded n t s l rf → t <= now → n < u32_max →
  config s1 = config s → request_window s1 = add_to_window now (config s) (request_window s) ok →
  total_requests s1 = u64_add (total_requests s) 1 →
  successful_requests s1 = (if ok then u64_add (successful_requests s) 1 else successful_requests s) →
  failed_requests s1 = (if ok then failed_requests s else u64_add (failed_requests s) 1) →
  rejected_requests s1 = rejected_requests s →
  recorded (n + 1) now s1 (l ++ [mkRecord ok now]) rf ∧
  request_window s1 = recent c now (l ++ [mkRecord ok now]).
Proof.
  intros [Hc Ho Hp Hw [Hz Hr0] Hr Ht Hf Hs] Hnow Hn Hc1 Hw1 Ht1 Hs1 Hf1 Hr1.
  assert (Forall (λ r, timestamp r <= now) l) as Hp1 by (eapply Forall_impl; [done|]; cbn; lia).
  destruct (last_outcome_past now l Hp1) as (u & Hu & Hlu).
  assert (request_window s1 = recent c now (l ++ [mkRecord ok now])) as Hwin.
  { rewrite Hw1, Hc, Hw, Hlu. by apply add_to_window_recent. }
  pose proof (failures_bounds l). unfold u32_max in *. split; [|done]. split.
  - congruence.
  - by apply StronglySorted_snoc.
  - apply Forall_app. split; [done|]. constructor; [cbn; lia | constructor].
  - unfold last_outcome. by rewrite last_snoc.
  - rewrite length_app. cbn. lia.
  - lia.
  - rewrite Ht1, Ht, u64_add_small, length_app by (unfold u64_max; lia). cbn. lia.
  - rewrite Hf1, failures_snoc, Hf. cbn. destruct ok; [lia|]. rewrite u64_add_small by (unfold u64_max; lia). done.
  - rewrite Hs1, failures_snoc, Hs, length_app. cbn.
    destruct ok; [rewrite u64_add_small by (unfold u64_max; lia)|]; lia.
Qed.

Lemma sim_outcome n t now s m (ok : bool) : sim n t s m → t <= now → n < u32_max →
  sim (n + 1) now (if ok then record_success now s else record_failure now s) (outcome c now ok m).
Proof.
  intros [Hrec Hph] Hnow Hn. pose proof (rec_config _ _ _ _ _ Hrec) as Hc.
  destruct m as [p l rf]. cbn [history refused phase] in *.
  set (s1 := mkState (config s) (tag p) (state_since s) (u64_add (total_requests s) 1)
    (if ok then u64_add (successful_requests s) 1 else successful_requests s)
    (if ok then failed_requests s else u64_add (failed_requests s) 1) (rejected_requests s)
    (if ok then 0 else u32_add (consecutive_failures s) 1) (if ok then u32_add (consecutive_successes s) 1 else 0)
    (trip_count s) (add_to_window now (config s) (request_window s) ok) (last_opened s) (last_closed s)
    (half_open_requests s)).
  destruct (recorded_outcome n t now s l rf ok s1 Hrec Hnow Hn) as [Hrec1 Hwin]; try (by destruct ok).
  destruct Hph as [Hst Hph]. pose proof (rec_size _ _ _ _ _ Hrec1) as [Hz _].
  pose proof (rec_size _ _ _ _ _ Hrec) as [Hz0 Hrf]. 
  unfold u32_max in *. destruct p as [o|since|k j]; cbn [tag] in Hst, s1; destruct ok; unfold record_success, record_failure;
    cbn [state]; rewrite Hst; try (split; [exact Hrec1|]; cbn; by auto).
  - destruct Hph as [Hcf Hlo]. split; [exact Hrec1|]. cbn -[Z.of_nat]. split_and!; [done..|cbn; lia].
  - destruct Hph as [Hcf Hlo]. pose proof (failures_in_a_row_bounds o). fold s1.
    assert (consecutive_failures s1 = failures_in_a_row (false :: o)) as Hcf1.
    { cbn. rewrite u32_add_small by (unfold u32_max; lia). lia. }
    rewrite (trips_agree (n + 1) now s1 (l ++ [mkRecord false now]) (false :: o)) by
      (done || (unfold u32_max; lia)).
    unfold outcome. cbn [phase history refused]. destruct (trips _ _ _ _); [by split; destruct Hrec1|].
    split; [exact Hrec1|]. cbn -[Z.of_nat failures_in_a_row]. split_and!; [done..|cbn; lia].
  - destruct Hph as (Hk & Hk0 & Hj & Hj0). rewrite bool_decide_eq_true_2 by done. fold s1.
    assert (consecutive_successes s1 = j + 1) as Hj1.
    { cbn. rewrite u32_add_small by (unfold u32_max; lia). lia. }
    change (config s1) with (config s). rewrite Hj1, Hc. unfold outcome. cbn [phase history refused].
    destruct (success_threshold c <=? j + 1);
      [split; [by destruct Hrec1|]; split_and!; [done..|cbn; lia]|].
    split; [exact Hrec1|]. cbn [phase]. split; [done|]. split_and!; done || lia.
  - split; [by destruct Hrec1 | done].
Qed.

Lemma sim_request n t now s m : sim n t s m → t <= now → n < u32_max →
  sim (n + 1) now (is_request_allowed now s).1 (request c now m).1 ∧
  (is_request_allowed now s).2 = (request c now m).2.
Proof.
  intros [Hrec Hph] Hnow Hn. pose proof (rec_config _ _ _ _ _ Hrec) as Hc.
  pose proof (rec_size _ _ _ _ _ Hrec) as [Hz Hrf]. apply (recorded_later _ _ now) in Hrec; [|done].
  assert (recorded (n + 1) now (count_rejected s) (history m) (refused m + 1)) as Hrej.
  { destruct Hrec. split; try done; [lia|]. cbn. rewrite u64_add_small; [congruence|].
    unfold u64_max, u32_max in *. lia. }
  destruct m as [p l rf]. cbn [history refused phase] in *.
  assert (in_phase (n + 1) s p) as Hph'.
  { destruct Hph as [Hst Hph]. split; [done|]. destruct p; [|done|]; intuition lia. }
  assert (sim (n + 1) now (count_rejected s) (mkMachine p l (rf + 1))) as Href by done.
  assert (sim (n + 1) now s (mkMachine p l rf)) as Hgo by done.
  destruct Hph as [Hst Hph]. unfold is_request_allowed, state_is_request_allowed, request. rewrite Hc.
  destruct p as [o|since|k j]; cbn [tag phase history refused] in *; rewrite Hst; [done|..].
  - rewrite Hph. destruct (timeout c) as [d|]; [destruct (_ <=? _)|]; [|done..].
    split; [|done]. split; [by destruct Hrec|]. cbn. split_and!; done || lia.
  - destruct Hph as (Hk & Hk0 & Hj & Hj0). rewrite Hk.
    destruct (Z.ltb_spec k (max_half_open_requests c)); [|done].
    split; [|done]. split; [by destruct Hrec|]. cbn. unfold u32_max in *.
    rewrite u32_add_small by (unfold u32_max; lia). split_and!; done || lia.
Qed.

Lemma sim_step n t now op s m : sim n t s m → t <= now → n < u32_max →
  sim (n + 1) now (exec now op s).1 (step c now op m).1 ∧ (exec now op s).2 = (step c now op m).2.
Proof.
  intros Hs Hnow Hn. destruct op; cbn [exec step fst snd].
  - by eapply sim_request.
  - split; [|done]. by apply (sim_outcome n t now s m true).
  - split; [|done]. by apply (sim_outcome n t now s m false).
  - destruct Hs as [Hrec _]. apply (recorded_later _ _ now) in Hrec; [|done].
    split; [|done]. split; [by destruct Hrec | done].
  - destruct Hs as [Hrec _]. pose proof (rec_size _ _ _ _ _ Hrec). apply (recorded_later _ _ now) in Hrec; [|done].
    split; [|done]. split; [by destruct Hrec|]. split_and!; [done..|cbn; lia].
Qed.

Lemma sim_run ops n t s m : sim n t s m → StronglySorted Z.le (t :: ops.*1) →
  n + Z.of_nat (length ops) <= u32_max →
  ∃ t', sim (n + Z.of_nat (length ops)) t' (Cb.run ops s).1 (run c ops m).1 ∧
    Cb.answers ops s = (run c ops m).2.
Proof.
  revert n t s m. induction ops as [|[now op] ops IH]; intros n t s m Hs Ht Hn.
  - exists t. cbn. by rewrite Z.add_0_r.
  - cbn [fmap list_fmap fst] in Ht. apply StronglySorted_inv in Ht as [Ht [Hnow _]%Forall_cons].
    cbn [length] in Hn. destruct (sim_step n t now op s m Hs Hnow) as [Hs1 Hb]; [lia|].
    cbn [Cb.run Cb.answers run length].
    replace (n + Z.of_nat (S (length ops))) with (n + 1 + Z.of_nat (length ops)) by lia.
    destruct (exec now op s) as [s1 b], (step c now op m) as [m1 b']. cbn in Hs1, Hb. subst b'.
    destruct (IH (n + 1) now s1 m1 Hs1 Ht) as (t' & Hs2 & Ha); [lia|].
    destruct (Cb.run ops s1) as [s2 k], (run c ops m1) as [m2 bs]. cbn [fst snd] in *. exists t'. by rewrite Ha.
Qed.

Lemma sim_new now : sim 0 now (Cb.new now c) start.
Proof.
  split; [split; try done; [constructor..|]|].
  - cbn. unfold recent, newest. destruct (sliding_window c); [cbn; by rewrite drop_nil | done].
  - done.
Qed.
End sim.
End Sim.

Import Cb.

(** ** Properties *)

(** C8. Invariant: every state that a run of operations reaches from a new breaker counts each
    request as a success or a failure (modulo 2^64), has an opening time when open, has admitted at
    most its quota when half-open, keeps at most [window_size] records, never has a run of
    successes and a run of failures at once, and with the consecutive strategy is closed only
    below the failure threshold. *)
Theorem breaker_invariant (ops : list (Z * CbOp)) (now : Z) (c : CircuitBreakerConfig) :
  0 <= max_half_open_requests c <= u32_max → invariant (Cb.run ops (Cb.new now c)).1.
Proof. intros Hc. by apply run_invariant, new_invariant. Qed.

(** C11. Refinement of the documented machine, over whole runs: whatever requests and outcomes a new
    breaker sees, in the order of their times and at most 2^32 - 1 of them, it answers each request and ends
    in the state as the machine does that knows only the outcomes.  A closed one admits everything and opens at
    the failure with which the failures in a row since it closed, or those among the recent outcomes, or
    their rate reach the threshold; an open one refuses until its timeout has passed and admits the request that
    half-opens it; a half-open one admits its quota besides that request, closes with the success that reaches the threshold and opens at a failure.  Its
    counters are those of the outcomes and of the refused requests. *)
Theorem breaker_refines_state_machine (c : CircuitBreakerConfig) (now : Z) (ops : list (Z * CbOp)) :
  (∀ wc, sliding_window c = Some wc → 0 <= window_size wc) →
  0 <= max_half_open_requests c <= u32_max →
  StronglySorted Z.le (now :: ops.*1) → Z.of_nat (length ops) <= u32_max →
  let s := (Cb.run ops (Cb.new now c)).1 in
  let '(m, granted) := Machine.run c ops Machine.start in
  Cb.answers ops (Cb.new now c) = granted
  ∧ state s = Machine.tag (Machine.phase m)
  ∧ config s = c
  ∧ total_requests s = Z.of_nat (length (Machine.history m))
  ∧ failed_requests s = Machine.failures (Machine.history m)
  ∧ successful_requests s = total_requests s - failed_requests s
  ∧ rejected_requests s = Machine.refused m.
Proof.
  intros Hsize Hmax Hops Hlen.
  destruct (Sim.sim_run c Hsize Hmax ops 0 now _ _ (Sim.sim_new c Hsize now) Hops Hlen) as (t & [[] [Hst _]] & Ha).
  destruct (Machine.run _ _ _) as [m granted]. cbn in *. split_and!; congruence.
Qed.

(** With the consecutive strategy a new breaker opens at the threshold and not before: after
    a run of [n] failures it is open if [n] has reached the threshold and closed otherwise. *)
Theorem consecutive_failures_trip_at_threshold (times : list Z) (now : Z)
    (c : CircuitBreakerConfig) :
  FailureStrategy_of_i32 (failure_strategy c) = Consecutive →
  0 < failure_threshold c <= u32_max →
  state (Cb.run ((λ t, (t, Failure)) <$> times) (Cb.new now c)).1
    = if failure_threshold c <=? Z.of_nat (length times) then Open else Closed.
Proof.
  intros Hstr Hth. destruct (consecutive_failures_run times (Cb.new now c)) as [H1 H2];
    [done | done | simpl; lia | simpl; lia |].
  simpl in H1, H2. destruct (Z.leb_spec (failure_threshold c) (Z.of_nat (length times))).
  - apply H2. lia.
  - apply H1. lia.
Qed.

(** A half-open period admits one request more than [max_half_open_requests]: the request
    that moves an open breaker to half-open is admitted and not counted, so of [n] requests
    after the timeout, min(n, max + 1) are admitted. *)
Theorem half_open_admits_quota_plus_one (now : Z) (times : list Z) (s : CircuitBreakerState)
    (seconds opened_at : Z) :
  state s = Open → timeout (config s) = Some seconds → last_opened s = Some opened_at →
  duration_from_secs seconds <= now - opened_at →
  0 <= max_half_open_requests (config s) <= u32_max →
  (Cb.run ((λ t, (t, Request)) <$> (now :: times)) s).2
    = Z.min (Z.of_nat (length (now :: times))) (max_half_open_requests (config s) + 1).
Proof.
  intros Hst Hto Hop Hd Hmax. cbn [fmap list_fmap Cb.run Cb.exec length].
  rewrite (open_recovers now s seconds opened_at) by done.
  pose proof (half_open_requests_run times (transition_to_half_open now s) eq_refl) as H.
  change ((fix go (l : list Z) : list (Z * CbOp) := _) times) with ((λ t, (t, Request)) <$> times) in *.
  destruct (Cb.run _ (transition_to_half_open now s)) as [s' n]. simpl in H. simpl.
  rewrite H by lia. lia.
Qed.

(** A half-open breaker can be stuck: when the success threshold exceeds
    [max_half_open_requests + 1], every one of the [max + 1] admitted trial requests may succeed
    and the breaker stays half-open, and from then on it rejects every request for ever (the
    counter of half-open requests is not decremented when a request completes). *)
Theorem half_open_can_be_stuck (now : Z) (trials later : list Z) (s : CircuitBreakerState)
    (seconds opened_at : Z) :
  state s = Open → timeout (config s) = Some seconds → last_opened s = Some opened_at →
  duration_from_secs seconds <= now - opened_at →
  0 <= max_half_open_requests (config s) →
  max_half_open_requests (config s) + 1 < success_threshold (config s) <= u32_max →
  Z.of_nat (length trials) = max_half_open_requests (config s) →
  let '(s1, n1) := Cb.run ((now :: trials) ≫= λ t, [(t, Request); (t, Success)]) s in
  let '(s2, n2) := Cb.run ((λ t, (t, Request)) <$> later) s1 in
  n1 = max_half_open_requests (config s) + 1 ∧ state s1 = HalfOpen
  ∧ n2 = 0 ∧ state s2 = HalfOpen.
Proof.
  intros Hst Hto Hop Hd Hmax Hth Hlen. cbn [mbind list_bind app Cb.run Cb.exec].
  rewrite (open_recovers now s seconds opened_at) by done.
  set (s0 := transition_to_half_open now s).
  destruct (success_below_threshold now s0) as (H1 & H2 & H3 & H4); [done | simpl; lia.. |].
  pose proof (half_open_successes trials (record_success now s0)) as Hrun.
  rewrite H1, H2, H3, H4 in Hrun.
  change (config s0) with (config s) in *. change (half_open_requests s0) with 0 in *.
  change (consecutive_successes s0) with 0 in *. specialize (Hrun eq_refl).
  destruct (Cb.run _ (record_success now s0)) as [s1 n].
  destruct Hrun as (-> & Hs1 & Hc1 & Hq1); [lia..|].
  pose proof (half_open_exhausted later s1 Hs1) as Hex. rewrite Hc1, Hq1 in Hex.
  destruct (Cb.run _ s1) as [s2 n2]. destruct Hex as [-> ?]; [lia|]. split_and!; lia || done.
Qed.

(** The sliding window keeps the recent requests: on a window in time order, adding a record
    keeps exactly the newest [window_size] of the records that are not older than
    [window_duration], and the result is again in time order. *)
Theorem window_keeps_recent (now : Z) (c : CircuitBreakerConfig) (wc : SlidingWindowConfig)
    (w : list RequestRecord) (ok : bool) :
  sliding_window c = Some wc → 0 <= window_size wc →
  StronglySorted (λ r1 r2, timestamp r1 <= timestamp r2) w →
  Forall (λ r, timestamp r <= now) w →
  add_to_window now c w ok =
    newest (window_size wc)
      (List.filter (λ r, match window_duration wc with
                         | Some d => now - duration_from_secs d <=? timestamp r
                         | None => true end) (w ++ [mkRecord ok now])).
Proof.
  intros Hwc Hsize Hsort Hnow. unfold add_to_window. rewrite Hwc, limit_size_newest by done.
  f_equal. destruct (window_duration wc) as [d|]; [|by rewrite List.filter_true].
  apply drop_old_filter. by apply StronglySorted_snoc.
Qed.

(** ** Witnesses *)

Definition config0 : CircuitBreakerConfig :=
  mkConfig "c" 0 3 4 (Some 30) (Some (mkWindow 2 (Some 60) 1)) 2.
Definition opened : CircuitBreakerState := Cb.trip 5 (Cb.new 0 config0).

(** The documentation gives the error-rate threshold as a number from 0.0 to 1.0; the field is an
    integer that the code divides by 100, so the documented 1 trips at one per cent. *)
Example error_rate_is_a_percentage :
  let c := mkConfig "c" 2 1 4 None (Some (mkWindow 100 None 1)) 2 in
  state (Cb.run (((λ t, (t, Success)) <$> replicate 99 0) ++ [(1, Failure)]) (Cb.new 0 c)).1 = Open.
Proof. by vm_compute. Qed.

Lemma breaker_invariant_witness :
  invariant (Cb.run [(1, Failure); (2, Trip); (30000000002, Request)] (Cb.new 0 config0)).1.
Proof. apply breaker_invariant. vm_compute. split; discriminate. Defined.

(** Three failures open the breaker, which refuses a request, tries one after its timeout and opens
    again at its failure; the sliding window forgets the failures that are older than a minute. *)
Definition some_ops : list (Z * CbOp) :=
  [(1, Failure); (2, Failure); (3, Success); (4, Failure); (5, Failure); (6, Request); (7, Failure); (8, Request);
   (40 * nanos, Request); (41 * nanos, Failure); (42 * nanos, Request)].
Definition windowed : CircuitBreakerConfig :=
  mkConfig "w" 1 2 4 (Some 30) (Some (mkWindow 3 (Some 60) 2)) 2.
Example window_forgets :
  state (Cb.run [(1, Failure); (70 * nanos, Failure)] (Cb.new 0 windowed)).1 = Closed
  ∧ state (Cb.run [(1, Failure); (2, Success); (3, Failure)] (Cb.new 0 windowed)).1 = Open.
Proof. split; vm_compute; reflexivity. Qed.
Lemma breaker_refines_state_machine_witness :
  Cb.answers some_ops (Cb.new 0 config0) =
    [false; false; false; false; false; true; false; false; true; false; false]
  ∧ state (Cb.run some_ops (Cb.new 0 config0)).1 = Machine.tag (Machine.POpen (41 * nanos)).
Proof.
  refine (_ (breaker_refines_state_machine config0 0 some_ops _ _ _ _)).
  - cbv zeta. replace (Machine.run config0 some_ops Machine.start) with
      (Machine.mkMachine (Machine.POpen (41 * nanos))
        ((λ x, mkRecord x.1 x.2) <$> [(false, 1); (false, 2); (true, 3); (false, 4); (false, 5); (false, 7);
          (false, 41 * nanos)]) 2,
       [false; false; false; false; false; true; false; false; true; false; false])
      by (vm_compute; reflexivity).
    intros (Ha & Hst & _). by split.
  - intros wc [= <-]. discriminate.
  - split; discriminate.
  - repeat constructor; discriminate.
  - discriminate.
Defined.

Lemma consecutive_failures_trip_at_threshold_witness :
  state (Cb.run ((λ t, (t, Failure)) <$> [1; 2; 3]) (Cb.new 0 config0)).1 = Open.
Proof.
  rewrite consecutive_failures_trip_at_threshold; [reflexivity | reflexivity |].
  vm_compute. split; [reflexivity | discriminate].
Defined.

Lemma half_open_admits_quota_plus_one_witness :
  (Cb.run ((λ t, (t, Request)) <$> replicate 9 (40 * nanos)) opened).2 = 3.
Proof.
  etransitivity; [apply (half_open_admits_quota_plus_one (40 * nanos)
    (replicate 8 (40 * nanos)) opened 30 5) | vm_compute; reflexivity];
    vm_compute; try split; try discriminate; reflexivity.
Defined.

Lemma half_open_can_be_stuck_witness :
  let '(s1, n1) := Cb.run ([40 * nanos; 41 * nanos; 42 * nanos]
                     ≫= λ t, [(t, Request); (t, Success)]) opened in
  let '(s2, n2) := Cb.run ((λ t, (t, Request)) <$> [99 * nanos; 999 * nanos]) s1 in
  n1 = 3 ∧ state s1 = HalfOpen ∧ n2 = 0 ∧ state s2 = HalfOpen.
Proof.
  apply (half_open_can_be_stuck (40 * nanos) [41 * nanos; 42 * nanos] [99 * nanos; 999 * nanos]
    opened 30 5); vm_compute; try split; try discriminate; reflexivity.
Defined.

Lemma window_keeps_recent_witness :
  add_to_window (70 * nanos) config0 [mkRecord true 1; mkRecord true (65 * nanos)] false
    = [mkRecord true (65 * nanos); mkRecord false (70 * nanos)].
Proof.
  rewrite (window_keeps_recent _ _ (mkWindow 2 (Some 60) 1)).
  - vm_compute. reflexivity.
  - reflexivity.
  - vm_compute. discriminate.
  - repeat constructor; vm_compute; discriminate.
  - repeat constructor; vm_compute; discriminate.
Defined.
