(* ===== verification/Idempotency.v ===== *)
(** Idempotency: the idempotency store trait of crates/service-traits/src/idempotency_store.rs and
    its in-memory implementation, crates/mailbox/src/in_memory_idempotency_store.rs.

    An [Instant] and a [Duration] are numbers of nanoseconds.  A bucket is behind a mutex that
    every operation holds to its end, so an operation is one step; the mutexes are never poisoned
    because no code panics while holding one. *)
From S2P Require Import Prelude.

(** ** The trait *)

Inductive IdempotencyError :=
| Storage (msg : string) | Serialization (msg : string) | Configuration (msg : string).

Inductive IdempotencyOutcome :=
| FirstSeen
| Duplicate (response : option (list Z))
| InFlightOutcome.
#[export] Instance IdempotencyOutcome_eq_dec : EqDecision IdempotencyOutcome.
Proof. solve_decision. Defined.

Class IdempotencyStore (I : Type) := {
  check_and_record (now : Z) (s : I) (tenant_id namespace key : string)
    : I * result IdempotencyError IdempotencyOutcome;
  complete_record (now : Z) (s : I) (tenant_id namespace key : string)
    (response : option (list Z)) : I * result IdempotencyError ();
  cleanup_expired (now : Z) (s : I) : I * result IdempotencyError Z
}.

(** The documented contract: a key that the store does not remember is seen for the first time,
    and from then on remembered for the time to live; a key that it remembers is a duplicate or
    in flight. *)
Class IdempotencyLaws (I : Type) `{!IdempotencyStore I}
    (remembers : I → Z → string → string → string → Prop) (time_to_live : I → string → string → Z)
    : Prop := {
  check_remembered now s t n k : remembers s now t n k →
    ∃ o, check_and_record now s t n k = (s, Ok o) ∧ o ≠ FirstSeen;
  check_new now s t n k : ¬ remembers s now t n k →
    (check_and_record now s t n k).2 = Ok FirstSeen
    ∧ ∀ now', now' <= now + time_to_live s t n → remembers (check_and_record now s t n k).1 now' t n k;
  complete_remembers now now' s t n k r : remembers s now' t n k →
    (complete_record now s t n k r).2 = Ok ()
    ∧ remembers (complete_record now s t n k r).1 now' t n k
}.

(** How long a store keeps a key: [retained s t n k r until room] says that the key is kept up to the time
    [until] unless more than [room] other keys are recorded, in flight or with the response [r]. *)
Definition kept_outcome (r : option (option (list Z))) : IdempotencyOutcome :=
  match r with Some response => Duplicate response | None => InFlightOutcome end.
Class Retention (I : Type) `{!IdempotencyStore I} := {
  retained : I → string → string → string → option (option (list Z)) → Z → nat → Prop;
  well_kept : I → Prop;
  lifetime : I → string → string → Z;
  spare_keys : I → nat;
  retained_check now s t n k r until room : retained s t n k r until room → now <= until →
    check_and_record now s t n k = (s, Ok (kept_outcome r));
  retained_first now s t n k : well_kept s → (check_and_record now s t n k).2 = Ok FirstSeen →
    retained (check_and_record now s t n k).1 t n k None (now + lifetime s t n) (spare_keys s);
  retained_other now s t n k r until room t' n' k' : retained s t n k r until (S room) → k' ≠ k →
    retained (check_and_record now s t' n' k').1 t n k r until room;
  retained_same now s t n k r until room t' n' : retained s t n k r until room → now <= until →
    retained (check_and_record now s t' n' k).1 t n k r until room;
  retained_complete now s t n k r until room response : retained s t n k r until room →
    retained (complete_record now s t n k response).1 t n k (Some response) until room;
  retained_complete_other now s t n k r until room t' n' k' response : retained s t n k r until room → k' ≠ k →
    retained (complete_record now s t' n' k' response).1 t n k r until room;
  retained_less s t n k r until room room' : retained s t n k r until room → (room' <= room)%nat →
    retained s t n k r until room'
}.

(** ** The in-memory store *)

Inductive EntryState :=
| InFlight (inserted_at : Z)
| Complete (inserted_at : Z) (response : option (list Z)).
Definition inserted_at (e : EntryState) : Z :=
  match e with InFlight t | Complete t _ => t end.

Record Bucket := mkBucket {
  entries : gmap string EntryState;
  order : list string;
  capacity : nat;
  ttl : Z
}.

Definition Bucket_new (capacity : nat) (ttl : Z) : Bucket := mkBucket ∅ [] capacity ttl.

(** [self.order.retain(|k| k != key)] *)
Definition order_without (key : string) (l : list string) : list string :=
  List.filter (λ k, negb (bool_decide (k = key))) l.
Definition entry_expired (now ttl : Z) (e : EntryState) : bool := ttl <? now - inserted_at e.

Definition get_valid (now : Z) (b : Bucket) (key : string) : Bucket * option EntryState :=
  match entries b !! key with
  | Some e =>
      if entry_expired now (ttl b) e
      then (mkBucket (delete key (entries b)) (order_without key (order b)) (capacity b) (ttl b), None)
      else (b, Some e)
  | None => (b, None)
  end.

Definition insert_in_flight (now : Z) (b : Bucket) (key : string) : Bucket :=
  let b :=
    if (capacity b <=? size (entries b))%nat then
      match order b with
      | oldest :: rest => mkBucket (delete oldest (entries b)) rest (capacity b) (ttl b)
      | [] => b
      end
    else b in
  mkBucket (<[key := InFlight now]> (entries b)) (order b ++ [key]) (capacity b) (ttl b).

Definition evict_expired (now : Z) (b : Bucket) : Bucket * Z :=
  let expired_keys :=
    (filter (λ kv : string * EntryState, Is_true (entry_expired now (ttl b) kv.2))
       (map_to_list (entries b))).*1 in
  let b' := foldl (λ b k, mkBucket (delete k (entries b)) (order_without k (order b))
                            (capacity b) (ttl b)) b expired_keys in
  (b', Z.of_nat (size (entries b)) - Z.of_nat (size (entries b'))).

Record InMemoryIdempotencyStore := mkStore {
  buckets : gmap string Bucket;
  capacity_per_bucket : nat;
  store_ttl : Z
}.

Definition store_new (capacity_per_bucket : nat) (ttl : Z) : InMemoryIdempotencyStore :=
  mkStore ∅ capacity_per_bucket ttl.

Definition bucket_key (tenant_id namespace : string) : string :=
  (tenant_id +:+ String (Ascii.ascii_of_nat 0) namespace)%string.

Definition get_or_create_bucket (s : InMemoryIdempotencyStore) (tenant_id namespace : string)
    : Bucket :=
  default (Bucket_new (capacity_per_bucket s) (store_ttl s))
    (buckets s !! bucket_key tenant_id namespace).
Definition set_bucket (s : InMemoryIdempotencyStore) (tenant_id namespace : string) (b : Bucket)
    : InMemoryIdempotencyStore :=
  mkStore (<[bucket_key tenant_id namespace := b]> (buckets s)) (capacity_per_bucket s)
    (store_ttl s).

Definition store_check_and_record (now : Z) (s : InMemoryIdempotencyStore)
    (tenant_id namespace key : string)
    : InMemoryIdempotencyStore * result IdempotencyError IdempotencyOutcome :=
  let bucket := get_or_create_bucket s tenant_id namespace in
  match get_valid now bucket key with
  | (bucket, Some (InFlight _)) => (set_bucket s tenant_id namespace bucket, Ok InFlightOutcome)
  | (bucket, Some (Complete _ response)) =>
      (set_bucket s tenant_id namespace bucket, Ok (Duplicate response))
  | (bucket, None) =>
      (set_bucket s tenant_id namespace (insert_in_flight now bucket key), Ok FirstSeen)
  end.

Definition store_complete_record (now : Z) (s : InMemoryIdempotencyStore)
    (tenant_id namespace key : string) (response : option (list Z))
    : InMemoryIdempotencyStore * result IdempotencyError () :=
  let bucket := get_or_create_bucket s tenant_id namespace in
  match entries bucket !! key with
  | Some e =>
      (set_bucket s tenant_id namespace
         (mkBucket (<[key := Complete (inserted_at e) response]> (entries bucket)) (order bucket)
            (capacity bucket) (ttl bucket)), Ok ())
  | None => (set_bucket s tenant_id namespace bucket, Ok ())
  end.

Definition store_cleanup_expired (now : Z) (s : InMemoryIdempotencyStore)
    : InMemoryIdempotencyStore * result IdempotencyError Z :=
  (mkStore ((λ b, (evict_expired now b).1) <$> buckets s) (capacity_per_bucket s) (store_ttl s),
   Ok (map_fold (λ _ b total, total + (evict_expired now b).2) 0 (buckets s))).

#[export] Instance InMemory_IdempotencyStore : IdempotencyStore InMemoryIdempotencyStore := {|
  check_and_record := store_check_and_record;
  complete_record := store_complete_record;
  cleanup_expired := store_cleanup_expired
|}.

(** What the store remembers: the unexpired entries. *)
Definition remembered (s : InMemoryIdempotencyStore) (now : Z) (t n k : string) : option EntryState :=
  match entries (get_or_create_bucket s t n) !! k with
  | Some e => if entry_expired now (ttl (get_or_create_bucket s t n)) e then None else Some e
  | None => None
  end.

(** The invariant of a bucket: the order lists each key once, and there are at most [capacity]
    entries (one, when the capacity is zero). *)
Record bucket_wf (b : Bucket) : Prop := {
  wf_order : ∀ k, k ∈ order b ↔ is_Some (entries b !! k);
  wf_nodup : NoDup (order b);
  wf_capacity : (size (entries b) <= Nat.max 1 (capacity b))%nat
}.
Definition store_wf (s : InMemoryIdempotencyStore) : Prop :=
  map_Forall (λ _ b, bucket_wf b ∧ ttl b = store_ttl s ∧ capacity b = capacity_per_bucket s) (buckets s).

(** The operations on a store. *)
Inductive StoreOp :=
| Check (t n k : string) | Finish (t n k : string) (r : option (list Z)) | Cleanup.
Definition store_exec (now : Z) (op : StoreOp) (s : InMemoryIdempotencyStore)
    : InMemoryIdempotencyStore :=
  match op with
  | Check t n k => (store_check_and_record now s t n k).1
  | Finish t n k r => (store_complete_record now s t n k r).1
  | Cleanup => (store_cleanup_expired now s).1
  end.

(** Retries of one key, at the given times. *)
Fixpoint check_all (times : list Z) (s : InMemoryIdempotencyStore) (t n k : string)
    : InMemoryIdempotencyStore * list (result IdempotencyError IdempotencyOutcome) :=
  match times with
  | [] => (s, [])
  | now :: times =>
      let '(s1, r) := store_check_and_record now s t n k in
      let '(s2, rs) := check_all times s1 t n k in (s2, r :: rs)
  end.

(** ** Lemmas *)

Lemma elem_of_order_without key l k : k ∈ order_without key l ↔ k ∈ l ∧ k ≠ key.
Proof.
  unfold order_without. rewrite elem_of_filterb, negb_true_iff, bool_decide_eq_false. done.
Qed.

Lemma order_without_NoDup key l : NoDup l → NoDup (order_without key l).
Proof.
  unfold order_without. induction 1 as [|k l Hk Hl IH]; simpl; [constructor|].
  destruct (negb _); [|done]. constructor; [|done]. by intros [? _]%elem_of_filterb.
Qed.

Lemma Bucket_new_wf c t : bucket_wf (Bucket_new c t).
Proof.
  split; simpl.
  - intros k. rewrite lookup_empty. split; [by intros ?%not_elem_of_nil | by intros [? ?]].
  - constructor.
  - rewrite map_size_empty. lia.
Qed.

(** Forgetting a key, which [get_valid] and [evict_expired] do. *)
Lemma forget_wf b k :
  bucket_wf b →
  bucket_wf (mkBucket (delete k (entries b)) (order_without k (order b)) (capacity b) (ttl b)).
Proof.
  intros [Ho Hn Hc]. split; simpl.
  - intros j. rewrite elem_of_order_without, Ho, lookup_delete_is_Some. naive_solver.
  - by apply order_without_NoDup.
  - rewrite map_size_delete. destruct (entries b !! k); simpl; lia.
Qed.

Lemma get_valid_wf now b k : bucket_wf b → bucket_wf (get_valid now b k).1.
Proof.
  intros Hb. unfold get_valid. destruct (entries b !! k) as [e|]; [|done].
  destruct (entry_expired _ _ _); [by apply forget_wf | done].
Qed.

Lemma get_valid_None now b k b' :
  bucket_wf b → get_valid now b k = (b', None) →
  bucket_wf b' ∧ entries b' !! k = None ∧ ttl b' = ttl b ∧ capacity b' = capacity b.
Proof.
  intros Hb Hg. pose proof (get_valid_wf now b k Hb) as Hw. rewrite Hg in Hw.
  unfold get_valid in Hg. destruct (entries b !! k) as [e|] eqn:E; [|by simplify_eq].
  destruct (entry_expired _ _ _); simplify_eq/=. by rewrite lookup_delete_eq.
Qed.

(** The entries after the eviction of the oldest one. *)
Definition make_room (b : Bucket) : Bucket :=
  if (capacity b <=? size (entries b))%nat then
    match order b with
    | oldest :: rest => mkBucket (delete oldest (entries b)) rest (capacity b) (ttl b)
    | [] => b
    end
  else b.

Lemma make_room_wf b :
  bucket_wf b → bucket_wf (make_room b)
  ∧ (S (size (entries (make_room b))) <= Nat.max 1 (capacity b))%nat
  ∧ ∀ k, entries b !! k = None → entries (make_room b) !! k = None.
Proof.
  intros Hb. unfold make_room. destruct (Nat.leb_spec (capacity b) (size (entries b))) as [Hle|Hlt].
  - destruct (order b) as [|oldest rest] eqn:Eo.
    + split; [done|]. split; [|done]. assert (entries b = ∅) as ->.
      { apply map_empty. intros k. apply eq_None_not_Some. intros Hk.
        apply (wf_order b Hb) in Hk. rewrite Eo in Hk. by apply not_elem_of_nil in Hk. }
      rewrite map_size_empty. lia.
    + assert (Hsome : is_Some (entries b !! oldest)).
      { apply (wf_order b Hb). rewrite Eo. apply elem_of_cons. by left. }
      pose proof (wf_capacity b Hb) as Hcap. pose proof (wf_nodup b Hb) as Hnd.
      rewrite Eo in Hnd. apply NoDup_cons in Hnd as [Hnin Hnd].
      assert (Hsize : size (entries b) ≠ 0%nat).
      { intros Hz. apply map_size_empty_inv in Hz. rewrite Hz in Hsome.
        by destruct Hsome as [? ?%lookup_empty_Some]. }
      split; [split|]; simpl.
      * intros j. rewrite lookup_delete_is_Some, <-(wf_order b Hb), Eo, elem_of_cons. naive_solver.
      * done.
      * rewrite map_size_delete_Some by done. lia.
      * split; [rewrite map_size_delete_Some by done; lia|].
        intros k Hk. apply lookup_delete_None. by right.
  - split; [done|]. split; [lia | done].
Qed.

Lemma insert_in_flight_wf now b k :
  bucket_wf b → entries b !! k = None → bucket_wf (insert_in_flight now b k).
Proof.
  intros Hb Hk. destruct (make_room_wf b Hb) as ([Ho Hn Hc] & Hsize & Hnone).
  specialize (Hnone k Hk). unfold insert_in_flight. fold (make_room b).
  assert (Hcap : capacity (make_room b) = capacity b).
  { unfold make_room. by repeat case_match. }
  split; simpl.
  - intros j. rewrite elem_of_app, list_elem_of_singleton, Ho, lookup_insert_is_Some'. naive_solver.
  - apply NoDup_app. split; [done|]. split; [|apply NoDup_singleton].
    intros j Hj ->%list_elem_of_singleton. apply Ho in Hj as [? ?]. congruence.
  - rewrite map_size_insert_None by done. lia.
Qed.

Lemma insert_in_flight_entry now b k :
  entries (insert_in_flight now b k) !! k = Some (InFlight now)
  ∧ ttl (insert_in_flight now b k) = ttl b ∧ capacity (insert_in_flight now b k) = capacity b.
Proof.
  unfold insert_in_flight. simpl. rewrite lookup_insert_eq. split; [done|]. by repeat case_match.
Qed.

Lemma evict_expired_wf now b :
  bucket_wf b → bucket_wf (evict_expired now b).1
  ∧ ttl (evict_expired now b).1 = ttl b ∧ capacity (evict_expired now b).1 = capacity b.
Proof.
  unfold evict_expired. simpl. generalize (filter (λ kv : string * EntryState,
    Is_true (entry_expired now (ttl b) kv.2)) (map_to_list (entries b))).*1.
  intros ks. revert b. induction ks as [|k ks IH]; intros b Hb; simpl; [done|].
  by apply (IH (mkBucket _ _ _ _)), forget_wf.
Qed.

(** *** Buckets of a store *)

Lemma get_set_bucket s t n b : get_or_create_bucket (set_bucket s t n b) t n = b.
Proof. unfold get_or_create_bucket. simpl. by rewrite lookup_insert_eq. Qed.

Lemma get_bucket_wf s t n :
  store_wf s → bucket_wf (get_or_create_bucket s t n)
  ∧ ttl (get_or_create_bucket s t n) = store_ttl s
  ∧ capacity (get_or_create_bucket s t n) = capacity_per_bucket s.
Proof.
  intros Hs. unfold get_or_create_bucket. destruct (buckets s !! _) as [b|] eqn:E; simpl.
  - by apply (Hs _ _ E).
  - split; [apply Bucket_new_wf | done].
Qed.

Lemma set_bucket_wf s t n b :
  store_wf s → bucket_wf b → ttl b = store_ttl s → capacity b = capacity_per_bucket s →
  store_wf (set_bucket s t n b).
Proof. intros Hs Hb Ht Hc. by apply map_Forall_insert_2. Qed.

Lemma store_exec_wf now op s : store_wf s → store_wf (store_exec now op s).
Proof.
  intros Hs. destruct op as [t n k|t n k r|]; simpl.
  - unfold store_check_and_record. destruct (get_bucket_wf s t n Hs) as (Hb & Ht & Hc).
    destruct (get_valid now (get_or_create_bucket s t n) k) as [b [e|]] eqn:E.
    + assert (b = get_or_create_bucket s t n) as ->.
      { unfold get_valid in E. by repeat case_match; simplify_eq. }
      destruct e; by apply set_bucket_wf.
    + destruct (get_valid_None _ _ _ _ Hb E) as (Hb' & Hk & Ht' & Hc').
      destruct (insert_in_flight_entry now b k) as (_ & Ht2 & Hc2).
      apply set_bucket_wf; [done | by apply insert_in_flight_wf | congruence | congruence].
  - unfold store_complete_record. destruct (get_bucket_wf s t n Hs) as (Hb & Ht & Hc).
    destruct (entries _ !! k) as [e|] eqn:E; [|by apply set_bucket_wf].
    apply set_bucket_wf; try done. destruct Hb as [Ho Hn Hcap]. split; simpl; [|done|].
    + intros j. rewrite Ho, lookup_insert_is_Some'. naive_solver.
    + by rewrite map_size_insert_Some.
  - unfold store_wf, store_cleanup_expired. simpl. intros i b Hb.
    apply lookup_fmap_Some in Hb as (b' & <- & Hb'). destruct (Hs _ _ Hb') as (Hw & ? & ?).
    destruct (evict_expired_wf now b' Hw) as (? & Ht & Hc). split; [done|].
    split; etrans; [exact Ht | done | exact Hc | done].
Qed.

(** *** The contract *)

Lemma remembered_set_bucket s t n b now k :
  remembered (set_bucket s t n b) now t n k =
    match entries b !! k with
    | Some e => if entry_expired now (ttl b) e then None else Some e
    | None => None
    end.
Proof. unfold remembered. by rewrite get_set_bucket. Qed.

Lemma set_get_bucket_remembered s t n now k :
  remembered (set_bucket s t n (get_or_create_bucket s t n)) now t n k = remembered s now t n k.
Proof. by rewrite remembered_set_bucket. Qed.

Lemma check_remembered_entry now s t n k e :
  remembered s now t n k = Some e →
  store_check_and_record now s t n k =
    (set_bucket s t n (get_or_create_bucket s t n),
     Ok (match e with InFlight _ => InFlightOutcome | Complete _ r => Duplicate r end)).
Proof.
  unfold remembered, store_check_and_record, get_valid.
  destruct (entries _ !! k) as [e'|]; [|done].
  destruct (entry_expired _ _ _); intros; simplify_eq. by destruct e.
Qed.

Lemma check_forgotten now s t n k :
  remembered s now t n k = None →
  ∃ b, store_check_and_record now s t n k = (set_bucket s t n (insert_in_flight now b k), Ok FirstSeen)
    ∧ ttl b = ttl (get_or_create_bucket s t n).
Proof.
  unfold remembered, store_check_and_record, get_valid.
  destruct (entries _ !! k) as [e'|]; [|by eexists].
  destruct (entry_expired _ _ _); intros; simplify_eq. by eexists.
Qed.

Lemma complete_remembered now now' s t n k r e :
  remembered s now' t n k = Some e →
  (store_complete_record now s t n k r).2 = Ok ()
  ∧ remembered (store_complete_record now s t n k r).1 now' t n k
    = Some (Complete (inserted_at e) r).
Proof.
  unfold store_complete_record, remembered at 1.
  destruct (entries (get_or_create_bucket s t n) !! k) as [e'|] eqn:E; [|done].
  destruct (entry_expired now' (ttl _) e') eqn:Ex; [done|]. intros [= ->]. split; [done|].
  cbn [fst]. rewrite remembered_set_bucket. simpl. rewrite lookup_insert_eq.
  unfold entry_expired in *. simpl. by rewrite Ex.
Qed.

Lemma check_first_seen now now' s t n k :
  remembered s now t n k = None → now' <= now + ttl (get_or_create_bucket s t n) →
  remembered (store_check_and_record now s t n k).1 now' t n k = Some (InFlight now).
Proof.
  intros Hr Hle. destruct (check_forgotten _ _ _ _ _ Hr) as (b & -> & Ht). cbn [fst].
  rewrite remembered_set_bucket.
  destruct (insert_in_flight_entry now b k) as (-> & Ht2 & _). rewrite Ht2, Ht.
  unfold entry_expired. simpl. by destruct (Z.ltb_spec (ttl (get_or_create_bucket s t n)) (now' - now)); [lia|].
Qed.

(** Retries of a key that the store remembers. *)
Lemma check_all_remembered t n k e times s :
  (∀ now, now ∈ times → remembered s now t n k = Some e) →
  let '(s', rs) := check_all times s t n k in
  rs = replicate (length times)
         (Ok (match e with InFlight _ => InFlightOutcome | Complete _ r => Duplicate r end))
  ∧ ∀ now, remembered s' now t n k = remembered s now t n k.
Proof.
  revert s. induction times as [|now times IH]; intros s Hrem; simpl; [done|].
  rewrite (check_remembered_entry _ _ _ _ _ e) by (apply Hrem; by left).
  specialize (IH (set_bucket s t n (get_or_create_bucket s t n))).
  destruct (check_all times _ t n k) as [s2 rs]. destruct IH as [-> Hr].
  - intros now' Hin. rewrite set_get_bucket_remembered. apply Hrem. by right.
  - split; [done|]. intros now'. by rewrite Hr, set_get_bucket_remembered.
Qed.

Lemma set_get_bucket s t n now k e :
  remembered s now t n k = Some e → set_bucket s t n (get_or_create_bucket s t n) = s.
Proof.
  unfold remembered, set_bucket, get_or_create_bucket.
  destruct (buckets s !! bucket_key t n) as [b|] eqn:E; simpl; [|by rewrite lookup_empty].
  intros _. rewrite insert_id by done. by destruct s.
Qed.

#[export] Instance InMemory_laws : IdempotencyLaws InMemoryIdempotencyStore
  (λ s now t n k, is_Some (remembered s now t n k))
  (λ s t n, ttl (get_or_create_bucket s t n)).
Proof.
  split; simpl.
  - intros now s t n k [e He]. eexists. rewrite (check_remembered_entry _ _ _ _ _ e) by done.
    rewrite (set_get_bucket _ _ _ _ _ _ He). split; [done | by destruct e].
  - intros now s t n k Hr. apply eq_None_not_Some in Hr. split.
    + by destruct (check_forgotten _ _ _ _ _ Hr) as (b & -> & _).
    + intros now' Hle. eexists. by apply check_first_seen.
  - intros now now' s t n k r [e He].
    destruct (complete_remembered now _ _ _ _ _ r _ He) as [-> Hr]. by rewrite Hr.
Qed.

(** *** Retention *)

Lemma bucket_wf_length b : bucket_wf b → length (order b) = size (entries b).
Proof.
  intros [Ho Hn _]. rewrite <-size_dom, <-(size_list_to_set (C := gset string)) by done. f_equal.
  apply set_eq. intros k. by rewrite elem_of_list_to_set, Ho, elem_of_dom.
Qed.
(** A key of a bucket with the keys that are older, and how many others may still come before it goes. *)
Record keeps (b : Bucket) (k : string) (e : EntryState) (room : nat) : Prop := {
  kp_wf : bucket_wf b;
  kp_entry : entries b !! k = Some e;
  kp_room : ∃ pre post, order b = pre ++ k :: post ∧ (room <= length pre + (capacity b - size (entries b)))%nat
}.
Lemma keeps_less b k e room room' : keeps b k e room → (room' <= room)%nat → keeps b k e room'.
Proof. intros [? ? (pre & post & ? & ?)] ?. split; [done..|]. exists pre, post. split; [done|lia]. Qed.
Lemma order_without_id k l : k ∉ l → order_without k l = l.
Proof.
  intros Hk. unfold order_without. rewrite (filter_ext_in _ (λ _, true)); [apply List.filter_true|].
  intros x Hx. rewrite bool_decide_eq_false_2; [done|]. by intros ->.
Qed.
Lemma order_without_length k l : NoDup l → k ∈ l → length l = S (length (order_without k l)).
Proof.
  induction 1 as [|x l Hx Hl IH]; intros Hk; [by apply not_elem_of_nil in Hk|].
  unfold order_without. cbn [List.filter length]. case_bool_decide as Hxk; cbn [negb].
  - subst x. f_equal. change (length l = length (order_without k l)). by rewrite order_without_id.
  - cbn [length]. f_equal. apply IH. by apply elem_of_cons in Hk as [->|?].
Qed.
Lemma order_without_app k l l' : order_without k (l ++ l') = order_without k l ++ order_without k l'.
Proof. apply List.filter_app. Qed.
(** Another key is looked up; if it has expired it is forgotten. *)
Lemma get_valid_keeps now b k e room k' : keeps b k e room → k' ≠ k → keeps (get_valid now b k').1 k e room.
Proof.
  intros [Hw He (pre & post & Ho & Hr)] Hk. pose proof (get_valid_wf now b k' Hw) as Hw'. unfold get_valid in *.
  destruct (entries b !! k') as [e'|] eqn:Hk'; [|split; eauto].
  destruct (entry_expired _ _ _); [|split; eauto]. cbn [fst] in *. split; [done| |]; cbn.
  { by rewrite lookup_delete_ne. }
  exists (order_without k' pre), (order_without k' post). rewrite Ho, order_without_app. split.
  { f_equal. unfold order_without. cbn. by rewrite bool_decide_eq_false_2. }
  rewrite map_size_delete, Hk'. cbn. pose proof (bucket_wf_length b Hw) as Hlen. pose proof (wf_nodup b Hw) as Hnd.
  pose proof (wf_capacity b Hw) as Hcap. rewrite Ho in Hlen, Hnd. apply NoDup_app in Hnd as (Hnd & _ & _).
  assert (k' ∈ order b) as Hin by (apply (wf_order b Hw); eauto).
  rewrite Ho in Hin. rewrite length_app in Hlen. cbn in Hlen.
  destruct (decide (k' ∈ pre)) as [Hp|Hp].
  - pose proof (order_without_length k' pre Hnd Hp). lia.
  - rewrite order_without_id by done. lia.
Qed.
(** Another key is recorded. *)
Lemma insert_keeps now b k e room k' : keeps b k e (S room) → k' ≠ k → entries b !! k' = None →
  keeps (insert_in_flight now b k') k e room.
Proof.
  intros [Hw He (pre & post & Ho & Hr)] Hk Hk'. pose proof (insert_in_flight_wf now b k' Hw Hk') as Hw'.
  pose proof (wf_nodup b Hw) as Hnd. rewrite Ho in Hnd.
  split; [done|..]; unfold insert_in_flight; destruct (Nat.leb_spec (capacity b) (size (entries b))) as [Hle|Hlt];
    [destruct pre as [|p pre]; [cbn in Hr; lia|]| |destruct pre as [|p pre]; [cbn in Hr; lia|]|]; rewrite ?Ho; cbn.
  - rewrite lookup_insert_ne, lookup_delete_ne; [done| |done]. intros ->. cbn in Hnd.
    apply NoDup_cons in Hnd as [Hnd _]. set_solver.
  - by rewrite lookup_insert_ne.
  - exists pre, (post ++ [k']). split; [by rewrite <-(assoc_L (++))|]. cbn in Hr. lia.
  - exists pre, (post ++ [k']). split; [by rewrite <-(assoc_L (++))|]. rewrite map_size_insert_None by done. lia.
Qed.

(** The bucket after a key was looked up and recorded. *)
Definition bucket_check (now : Z) (b : Bucket) (k : string) : Bucket :=
  match get_valid now b k with (b, None) => insert_in_flight now b k | (b, Some _) => b end.
Lemma store_check_bucket now s t n k :
  (store_check_and_record now s t n k).1 = set_bucket s t n (bucket_check now (get_or_create_bucket s t n) k).
Proof. unfold store_check_and_record, bucket_check. by destruct (get_valid _ _ _) as [b [[]|]]. Qed.
Lemma bucket_check_keeps now b k e room k' : keeps b k e (S room) → k' ≠ k →
  keeps (bucket_check now b k') k e room ∧ ttl (bucket_check now b k') = ttl b.
Proof.
  intros Hk Hne. pose proof (get_valid_keeps now b k e _ k' Hk Hne) as Hg. unfold bucket_check.
  destruct (get_valid now b k') as [b' [e'|]] eqn:E; cbn [fst] in Hg.
  - split; [apply (keeps_less _ _ _ _ _ Hg); lia|]. unfold get_valid in E. by repeat case_match; simplify_eq/=.
  - destruct (get_valid_None _ _ _ _ (kp_wf _ _ _ _ Hk) E) as (_ & Hn & Ht & _).
    split; [by apply insert_keeps|]. rewrite <-Ht. apply insert_in_flight_entry.
Qed.
Lemma get_set_bucket_case s t n t' n' b : get_or_create_bucket (set_bucket s t' n' b) t n =
  if decide (bucket_key t' n' = bucket_key t n) then b else get_or_create_bucket s t n.
Proof.
  unfold get_or_create_bucket, set_bucket. cbn. rewrite lookup_insert. by case_decide.
Qed.
Lemma get_bucket_same s t n t' n' : bucket_key t' n' = bucket_key t n →
  get_or_create_bucket s t' n' = get_or_create_bucket s t n.
Proof. unfold get_or_create_bucket. by intros ->. Qed.
(** The key [k] is kept by the store, with its response if it has one. *)
Record kept (s : InMemoryIdempotencyStore) (t n k : string) (r : option (option (list Z))) (until : Z) (room : nat)
    (e : EntryState) : Prop := {
  kept_keeps : keeps (get_or_create_bucket s t n) k e room;
  kept_until : until <= inserted_at e + ttl (get_or_create_bucket s t n);
  kept_response : r = match e with InFlight _ => None | Complete _ response => Some response end
}.
Lemma kept_bucket s t n k r until room e room' t' n' b :
  kept s t n k r until room e → (room' <= room)%nat →
  (bucket_key t' n' = bucket_key t n → keeps b k e room' ∧ ttl b = ttl (get_or_create_bucket s t n)) →
  kept (set_bucket s t' n' b) t n k r until room' e.
Proof.
  intros [Hk Hu Hr] Hle Hb. split; [..|done]; rewrite get_set_bucket_case; case_decide as Hd.
  - by apply Hb.
  - by eapply keeps_less.
  - destruct (Hb Hd) as [_ ->]. done.
  - done.
Qed.
Lemma kept_remembered s t n k r until room e now : kept s t n k r until room e → now <= until →
  remembered s now t n k = Some e.
Proof.
  intros [[_ He _] Hu _] Hnow. unfold remembered. rewrite He. unfold entry_expired.
  by destruct (Z.ltb_spec (ttl (get_or_create_bucket s t n)) (now - inserted_at e)); [lia|].
Qed.

#[export] Instance InMemory_retention : Retention InMemoryIdempotencyStore.
Proof.
  refine {|
    retained s t n k r until room := ∃ e, kept s t n k r until room e;
    well_kept := store_wf;
    lifetime s t n := store_ttl s;
    spare_keys s := pred (capacity_per_bucket s)
  |}; cbn.
  - intros now s t n k r until room [e He] Hnow. pose proof (kept_remembered _ _ _ _ _ _ _ _ _ He Hnow) as Hr.
    rewrite (check_remembered_entry _ _ _ _ _ _ Hr), (set_get_bucket _ _ _ _ _ _ Hr). destruct He as [_ _ ->].
    by destruct e.
  - intros now s t n k Hs Hf. exists (InFlight now). rewrite store_check_bucket.
    destruct (get_bucket_wf s t n Hs) as (Hb & Ht & Hc). unfold store_check_and_record in Hf. unfold bucket_check.
    destruct (get_valid now _ k) as [b [[]|]] eqn:E; try done.
    destruct (get_valid_None _ _ _ _ Hb E) as (Hb' & Hk & Ht' & Hc').
    destruct (insert_in_flight_entry now b k) as (He & Ht2 & Hc2).
    pose proof (insert_in_flight_wf now b k Hb' Hk) as Hw. split; [|cbn; rewrite get_set_bucket; lia|done].
    rewrite get_set_bucket. split; [done..|]. pose proof (bucket_wf_length _ Hw) as Hlen.
    pose proof (wf_capacity _ Hw) as Hcap. rewrite Hc2 in *.
    unfold insert_in_flight in Hlen |- *. cbn [order entries capacity] in *.
    eexists _, []. split; [reflexivity|]. rewrite length_app in Hlen. cbn in Hlen.
    unfold insert_in_flight in Hcap. cbn [entries] in Hcap. rewrite Hc', Hc in *. lia.
  - intros now s t n k r until room t' n' k' [e He] Hk. exists e. rewrite store_check_bucket.
    eapply kept_bucket; [exact He|lia|]. intros Hd. rewrite (get_bucket_same _ _ _ _ _ Hd).
    apply bucket_check_keeps; [apply He|done].
  - intros now s t n k r until room t' n' [e He] Hnow. exists e. rewrite store_check_bucket.
    eapply kept_bucket; [exact He|lia|]. intros Hd. rewrite (get_bucket_same _ _ _ _ _ Hd).
    destruct He as [[Hw He Hr] Hu _]. unfold bucket_check, get_valid. rewrite He. unfold entry_expired.
    by destruct (Z.ltb_spec (ttl (get_or_create_bucket s t n)) (now - inserted_at e)); [lia|].
  - intros now s t n k r until room response [e [[Hw He Hr] Hu _]]. exists (Complete (inserted_at e) response).
    unfold store_complete_record. rewrite He. cbn [fst]. split; [|by rewrite get_set_bucket|done].
    rewrite get_set_bucket. split; cbn; [|by rewrite lookup_insert_eq|].
    + destruct Hw as [Ho Hn Hc]. split; cbn; [|done|by rewrite map_size_insert_Some].
      intros j. rewrite Ho, lookup_insert_is_Some'. naive_solver.
    + by rewrite map_size_insert_Some.
  - intros now s t n k r until room t' n' k' response [e He] Hk. exists e. unfold store_complete_record.
    destruct (entries (get_or_create_bucket s t' n') !! k') as [e'|] eqn:E; cbn [fst];
      (eapply kept_bucket; [exact He|lia|]); intros Hd; rewrite (get_bucket_same _ _ _ _ _ Hd) in *; [|split; [apply He|done]].
    destruct He as [[Hw He Hr] _ _]. split; [|done]. split; cbn; [|by rewrite lookup_insert_ne|].
    + destruct Hw as [Ho Hn Hc]. split; cbn; [|done|by rewrite map_size_insert_Some].
      intros j. rewrite Ho, lookup_insert_is_Some'. naive_solver.
    + by rewrite map_size_insert_Some.
  - intros s t n k r until room room' [e [Hk Hu Hr]] Hle. exists e. split; [by eapply keeps_less|done..].
Defined.

(** ** Properties *)

(** C23. Exactly one first sight: of the retries of a key that the store does not remember, within
    the time to live of the first of them, the first is [FirstSeen] and all the others are in
    flight; after the record is completed with a response, every retry within the time to live is
    a duplicate that carries the response. *)
Theorem exactly_one_first_seen (s : InMemoryIdempotencyStore) (t n k : string) (now completed : Z)
    (retries later : list Z) (response : option (list Z)) :
  remembered s now t n k = None →
  Forall (λ x, x <= now + ttl (get_or_create_bucket s t n)) (retries ++ later) →
  let '(s1, rs1) := check_all (now :: retries) s t n k in
  let '(s2, r) := store_complete_record completed s1 t n k response in
  let '(_, rs2) := check_all later s2 t n k in
  rs1 = Ok FirstSeen :: replicate (length retries) (Ok InFlightOutcome)
  ∧ r = Ok () ∧ rs2 = replicate (length later) (Ok (Duplicate response)).
Proof.
  intros Hr Hall. rewrite Forall_forall in Hall. cbn [check_all].
  assert (Hrem : ∀ x, x ∈ retries ++ later →
    remembered (store_check_and_record now s t n k).1 x t n k = Some (InFlight now)).
  { intros x Hx. apply check_first_seen; [done | by apply Hall]. }
  destruct (store_check_and_record now s t n k) as [s0 r0] eqn:E0.
  assert (r0 = Ok FirstSeen) as ->.
  { destruct (check_forgotten _ _ _ _ _ Hr) as (b & Hb & _). rewrite E0 in Hb. by simplify_eq. }
  pose proof (check_all_remembered t n k (InFlight now) retries s0) as Hall1.
  destruct (check_all retries s0 t n k) as [s1 rs1].
  destruct Hall1 as [-> Hs1]; [intros x Hx; apply Hrem, elem_of_app; by left|].
  pose proof (λ x e, complete_remembered completed x s1 t n k response e) as Hcomp.
  pose proof (check_all_remembered t n k (Complete now response) later
    (store_complete_record completed s1 t n k response).1) as Hall2.
  assert (Hc2 : (store_complete_record completed s1 t n k response).2 = Ok ()).
  { unfold store_complete_record. by destruct (entries _ !! k). }
  destruct (store_complete_record completed s1 t n k response) as [s2 r2]. simpl in Hc2, Hall2. subst r2.
  destruct (check_all later s2 t n k) as [s3 rs3]. destruct Hall2 as [-> _]; [|done].
  intros x Hx. apply (Hcomp x (InFlight now)). rewrite Hs1. apply Hrem, elem_of_app. by right.
Qed.

(** Invariant and bound: in every store that operations reach from a new one, the order queue
    of each bucket lists each of its entries exactly once and a bucket never holds more than its
    capacity of entries (one entry when the capacity is zero). *)
Theorem store_capacity_invariant (ops : list (Z * StoreOp)) (cap : nat) (time_to_live : Z) :
  let s := foldl (λ s '(now, op), store_exec now op s) (store_new cap time_to_live) ops in
  map_Forall (λ _ b, NoDup (order b) ∧ (∀ k, k ∈ order b ↔ is_Some (entries b !! k))
                     ∧ (size (entries b) <= Nat.max 1 cap)%nat) (buckets s).
Proof.
  intros s.
  assert (Hs : store_wf s ∧ capacity_per_bucket s = cap).
  { subst s. induction ops as [|[now op] ops IH] using rev_ind.
    - split; [apply map_Forall_empty | done].
    - rewrite foldl_app. simpl. destruct IH as [IH Hc].
      split; [by apply store_exec_wf | etrans; [|exact Hc]].
      destruct op; simpl; [unfold store_check_and_record | unfold store_complete_record | done].
      + by destruct (get_valid _ _ _) as [b [[]|]].
      + by destruct (entries _ !! k). }
  destruct Hs as [Hs Hcap]. intros i b Hb. destruct (Hs _ _ Hb) as ([Ho Hn Hc] & _ & Hcb).
  split_and!; [done..|]. by rewrite <-Hcap, <-Hcb.
Qed.

(** ** Witnesses *)

Lemma exactly_one_first_seen_witness :
  (check_all [5; 6; 7] (store_new 10 100) "t" "n" "k").2
    = [Ok FirstSeen; Ok InFlightOutcome; Ok InFlightOutcome].
Proof.
  pose proof (exactly_one_first_seen (store_new 10 100) "t" "n" "k" 5 8 [6; 7] [9] None) as H.
  assert (H0 : remembered (store_new 10 100) 5 "t" "n" "k" = None) by reflexivity.
  specialize (H H0 ltac:(apply (bool_decide_unpack _); vm_compute; exact I)).
  exact (proj1 H).
Defined.
