(* ===== verification/Mailbox.v ===== *)
(** Mailbox: the actor mailbox of crates/mailbox/src/mod.rs.

    The mailbox has three data paths.  The fast path (in memory, FIFO, no DropOldest) is one bounded
    channel; the in-memory slow path is an internal queue that a background processor drains into
    an unbounded local channel; the durable path drains the queue into a storage [Channel] that a
    second task pumps into the local channel.  A channel of messages is the list of the messages
    in it.  The counters are atomic [usize] and [u64] values, whose [fetch_add] and [fetch_sub]
    wrap.  The environment variables are the argument [env], which gives the parsed value of a
    variable that is set and parses. *)
From S2P Require Import Prelude Idempotency.

(** ** Messages *)

(** The fields of the protobuf message that the mailbox reads or writes. *)
Record ProtoMessage := mkMsg {
  msg_id : string;
  msg_channel : string;
  message_type : string;
  priority : Z;
  idempotency_key : string;
  conflict_resolution : Z;
  headers : gmap string string;
  payload : list Z
}.
#[export] Instance ProtoMessage_eq_dec : EqDecision ProtoMessage.
Proof. solve_decision. Defined.

(** [str::starts_with("__")] *)
Definition is_ctrl_message (message_type : string) : bool := String.prefix "__" message_type.

(** [str::parse::<i64>] *)
Definition digit (c : Ascii.ascii) : option Z :=
  let n := Z.of_nat (Ascii.nat_of_ascii c) in
  if (48 <=? n) && (n <=? 57) then Some (n - 48) else None.
Fixpoint parse_digits (acc : Z) (s : string) : option Z :=
  match s with
  | EmptyString => Some acc
  | String c s => d ← digit c; parse_digits (10 * acc + d) s
  end.
Definition parse_magnitude (s : string) : option Z :=
  match s with EmptyString => None | _ => parse_digits 0 s end.
Definition in_i64 (z : Z) : option Z :=
  if (- 2 ^ 63 <=? z) && (z <? 2 ^ 63) then Some z else None.
Definition parse_i64 (s : string) : option Z :=
  match s with
  | String c rest =>
      if Ascii.eqb c (Ascii.ascii_of_nat 45) then n ← parse_magnitude rest; in_i64 (- n)
      else if Ascii.eqb c (Ascii.ascii_of_nat 43) then n ← parse_magnitude rest; in_i64 n
      else n ← parse_magnitude s; in_i64 n
  | EmptyString => None
  end.

Definition sequence_number (m : ProtoMessage) : option Z :=
  s ← headers m !! "sequence_number"%string; parse_i64 s.

(** ** Errors and configuration *)

Inductive MailboxError :=
| Full (depth capacity retry_after_ms : Z)
| StorageError (msg : string)
| InvalidConfig (msg : string).

Inductive MailboxErrorProto :=
| MailboxErrorUnspecified | MailboxErrorNotFound | MailboxErrorFull | MailboxErrorTimeout
| MailboxErrorInvalidConfig | MailboxErrorStorage | MailboxErrorSerialization.
Definition MailboxError_to_proto (e : MailboxError) : MailboxErrorProto :=
  match e with
  | Full _ _ _ => MailboxErrorFull
  | StorageError _ => MailboxErrorStorage
  | InvalidConfig _ => MailboxErrorInvalidConfig
  end.
Definition MailboxError_from_proto (e : MailboxErrorProto) : MailboxError :=
  match e with
  | MailboxErrorUnspecified => StorageError "Unspecified error"
  | MailboxErrorNotFound => StorageError "Mailbox not found"
  | MailboxErrorFull => Full 0 0 100
  | MailboxErrorTimeout => StorageError "Timeout"
  | MailboxErrorInvalidConfig => InvalidConfig "Invalid config"
  | MailboxErrorStorage => StorageError "Storage error"
  | MailboxErrorSerialization => StorageError "Serialization error"
  end.

Inductive MessagePriority :=
| PriorityUnspecified | Lowest | Low | Normal | High | Highest | System.
Definition message_priority_value (p : MessagePriority) : Z :=
  match p with
  | PriorityUnspecified => 0 | Lowest => 1 | Low => 2 | Normal => 3 | High => 4 | Highest => 5
  | System => 10
  end.

Inductive OrderingStrategy :=
| OrderingUnspecified | OrderingFifo | OrderingPriority | OrderingLifo | OrderingRandom.
Inductive BackpressureStrategy :=
| BackpressureUnspecified | BackpressureError | BackpressureDropOldest | BackpressureDropNewest.
#[export] Instance OrderingStrategy_eq_dec : EqDecision OrderingStrategy.
Proof. solve_decision. Defined.
#[export] Instance BackpressureStrategy_eq_dec : EqDecision BackpressureStrategy.
Proof. solve_decision. Defined.

Record MailboxConfig := mkMailboxConfig {
  cfg_capacity : Z;
  cfg_max_capacity : Z;
  cfg_retry_after_ms : Z;
  cfg_backpressure : Z;
  cfg_ordering : Z;
  cfg_channel_provider : Z
}.

Definition mailbox_config_default : MailboxConfig := mkMailboxConfig 10000 0 0 1 1 0.

(** The [try_from] of a protobuf enumeration with its default. *)
Definition mailbox_config_ordering (c : MailboxConfig) : OrderingStrategy :=
  if cfg_ordering c =? 0 then OrderingUnspecified
  else if cfg_ordering c =? 2 then OrderingPriority
  else if cfg_ordering c =? 3 then OrderingLifo
  else if cfg_ordering c =? 4 then OrderingRandom else OrderingFifo.
Definition mailbox_config_backpressure (c : MailboxConfig) : BackpressureStrategy :=
  if cfg_backpressure c =? 0 then BackpressureUnspecified
  else if cfg_backpressure c =? 2 then BackpressureDropOldest
  else if cfg_backpressure c =? 3 then BackpressureDropNewest else BackpressureError.
(** The values of [ChannelProvider]. *)
Definition valid_provider (p : Z) : bool := ((0 <=? p) && (p <=? 8)) || (p =? 99).

(** [if let Ok(n) = .. { if n > 0 { return n; } }] *)
Definition env_positive (env : string → option Z) (name : string) (k : Z) : Z :=
  match env name with Some n => if 0 <? n then n else k | None => k end.
Definition mailbox_config_max_size (env : string → option Z) (c : MailboxConfig) : Z :=
  env_positive env "PLEXSPACES_MAILBOX_MAX_CAPACITY"
    (if 0 <? cfg_max_capacity c then cfg_max_capacity c
     else env_positive env "PLEXSPACES_MAILBOX_CAPACITY"
       (if 0 <? cfg_capacity c then cfg_capacity c else 10000)).
Definition mailbox_config_retry_after_ms (env : string → option Z) (c : MailboxConfig) : Z :=
  env_positive env "PLEXSPACES_MAILBOX_RETRY_AFTER_MS"
    (if 0 <? cfg_retry_after_ms c then cfg_retry_after_ms c else 100).

(** ** Interfaces *)

(** [BinaryHeap] of the messages, ordered by priority: [pop] removes a greatest message; which
    one of several equal ones is not specified.  [into_vec] order is not observed. *)
Class BinaryHeap := heap_pop : list ProtoMessage → option (ProtoMessage * list ProtoMessage).
Class BinaryHeapLaws `{BinaryHeap} : Prop := {
  heap_pop_none h : heap_pop h = None ↔ h = [];
  heap_pop_some h m h' : heap_pop h = Some (m, h') →
    h ≡ₚ m :: h' ∧ Forall (λ x, priority x <= priority m) h'
}.

Inductive ChannelError :=
| ChannelFull (msg : string) | ChannelClosed (msg : string) | ChannelOther (msg : string).

(** The storage channel of the durable backends. *)
Class Channel (C : Type) := {
  ch_send : C → ProtoMessage → C * result ChannelError string;
  ch_try_receive : C → nat → C * result ChannelError (list ProtoMessage);
  ch_ack : C → string → C * result ChannelError ();
  ch_nack : C → string → C * result ChannelError ();
  ch_close : C → C * result ChannelError ();
  ch_name : C → string
}.

(** ** State *)

Inductive MessageStorage :=
| Queue (q : list ProtoMessage)
| Priority (h : list ProtoMessage).

(** The sender and the receiver half together with the channels between them. *)
Record Mailbox (I C : Type) := mkMailbox {
  config : MailboxConfig;
  channel : option C;
  channel_name : string;
  channel_provider : Z;
  (** the bounded channel of the fast path *)
  data_tx : option (list ProtoMessage);
  internal_queue : option MessageStorage;
  local_channel : list ProtoMessage;
  ctrl_channel : list ProtoMessage;
  receiver_alive : bool;
  data_queue_size : Z;
  ctrl_size : Z;
  total_enqueued : Z;
  total_dequeued : Z;
  total_dropped : Z;
  tenant_id : string;
  namespace : string;
  idempotency_store : option I;
  max_capacity : Z;
  retry_after_ms : Z;
  shutdown_flag : bool;
  in_progress_count : Z
}.
Arguments mkMailbox {I C}.
Arguments config {I C}.
Arguments channel {I C}.
Arguments channel_name {I C}.
Arguments channel_provider {I C}.
Arguments data_tx {I C}.
Arguments internal_queue {I C}.
Arguments local_channel {I C}.
Arguments ctrl_channel {I C}.
Arguments receiver_alive {I C}.
Arguments data_queue_size {I C}.
Arguments ctrl_size {I C}.
Arguments total_enqueued {I C}.
Arguments total_dequeued {I C}.
Arguments total_dropped {I C}.
Arguments tenant_id {I C}.
Arguments namespace {I C}.
Arguments idempotency_store {I C}.
Arguments max_capacity {I C}.
Arguments retry_after_ms {I C}.
Arguments shutdown_flag {I C}.
Arguments in_progress_count {I C}.

Module Mb.
Section mailbox.
Context {I C : Type} `{!IdempotencyStore I, !Channel C} `{HB : BinaryHeap}.
Implicit Types mb : Mailbox I C.

Definition set_channel mb (v : option C) : Mailbox I C :=
  mkMailbox (config mb) v (channel_name mb) (channel_provider mb) (data_tx mb) (internal_queue
    mb) (local_channel mb) (ctrl_channel mb) (receiver_alive mb) (data_queue_size mb)
    (ctrl_size mb) (total_enqueued mb) (total_dequeued mb) (total_dropped mb) (tenant_id mb)
    (namespace mb) (idempotency_store mb) (max_capacity mb) (retry_after_ms mb) (shutdown_flag
    mb) (in_progress_count mb).
Definition set_data_tx mb (v : option (list ProtoMessage)) : Mailbox I C :=
  mkMailbox (config mb) (channel mb) (channel_name mb) (channel_provider mb) v (internal_queue
    mb) (local_channel mb) (ctrl_channel mb) (receiver_alive mb) (data_queue_size mb)
    (ctrl_size mb) (total_enqueued mb) (total_dequeued mb) (total_dropped mb) (tenant_id mb)
    (namespace mb) (idempotency_store mb) (max_capacity mb) (retry_after_ms mb) (shutdown_flag
    mb) (in_progress_count mb).
Definition set_internal_queue mb (v : option MessageStorage) : Mailbox I C :=
  mkMailbox (config mb) (channel mb) (channel_name mb) (channel_provider mb) (data_tx mb) v
    (local_channel mb) (ctrl_channel mb) (receiver_alive mb) (data_queue_size mb) (ctrl_size
    mb) (total_enqueued mb) (total_dequeued mb) (total_dropped mb) (tenant_id mb) (namespace
    mb) (idempotency_store mb) (max_capacity mb) (retry_after_ms mb) (shutdown_flag mb)
    (in_progress_count mb).
Definition set_local_channel mb (v : list ProtoMessage) : Mailbox I C :=
  mkMailbox (config mb) (channel mb) (channel_name mb) (channel_provider mb) (data_tx mb)
    (internal_queue mb) v (ctrl_channel mb) (receiver_alive mb) (data_queue_size mb)
    (ctrl_size mb) (total_enqueued mb) (total_dequeued mb) (total_dropped mb) (tenant_id mb)
    (namespace mb) (idempotency_store mb) (max_capacity mb) (retry_after_ms mb) (shutdown_flag
    mb) (in_progress_count mb).
Definition set_ctrl_channel mb (v : list ProtoMessage) : Mailbox I C :=
  mkMailbox (config mb) (channel mb) (channel_name mb) (channel_provider mb) (data_tx mb)
    (internal_queue mb) (local_channel mb) v (receiver_alive mb) (data_queue_size mb)
    (ctrl_size mb) (total_enqueued mb) (total_dequeued mb) (total_dropped mb) (tenant_id mb)
    (namespace mb) (idempotency_store mb) (max_capacity mb) (retry_after_ms mb) (shutdown_flag
    mb) (in_progress_count mb).
Definition set_receiver_alive mb (v : bool) : Mailbox I C :=
  mkMailbox (config mb) (channel mb) (channel_name mb) (channel_provider mb) (data_tx mb)
    (internal_queue mb) (local_channel mb) (ctrl_channel mb) v (data_queue_size mb) (ctrl_size
    mb) (total_enqueued mb) (total_dequeued mb) (total_dropped mb) (tenant_id mb) (namespace
    mb) (idempotency_store mb) (max_capacity mb) (retry_after_ms mb) (shutdown_flag mb)
    (in_progress_count mb).
Definition set_data_queue_size mb (v : Z) : Mailbox I C :=
  mkMailbox (config mb) (channel mb) (channel_name mb) (channel_provider mb) (data_tx mb)
    (internal_queue mb) (local_channel mb) (ctrl_channel mb) (receiver_alive mb) v (ctrl_size
    mb) (total_enqueued mb) (total_dequeued mb) (total_dropped mb) (tenant_id mb) (namespace
    mb) (idempotency_store mb) (max_capacity mb) (retry_after_ms mb) (shutdown_flag mb)
    (in_progress_count mb).
Definition set_ctrl_size mb (v : Z) : Mailbox I C :=
  mkMailbox (config mb) (channel mb) (channel_name mb) (channel_provider mb) (data_tx mb)
    (internal_queue mb) (local_channel mb) (ctrl_channel mb) (receiver_alive mb)
    (data_queue_size mb) v (total_enqueued mb) (total_dequeued mb) (total_dropped mb)
    (tenant_id mb) (namespace mb) (idempotency_store mb) (max_capacity mb) (retry_after_ms mb)
    (shutdown_flag mb) (in_progress_count mb).
Definition set_total_enqueued mb (v : Z) : Mailbox I C :=
  mkMailbox (config mb) (channel mb) (channel_name mb) (channel_provider mb) (data_tx mb)
    (internal_queue mb) (local_channel mb) (ctrl_channel mb) (receiver_alive mb)
    (data_queue_size mb) (ctrl_size mb) v (total_dequeued mb) (total_dropped mb) (tenant_id
    mb) (namespace mb) (idempotency_store mb) (max_capacity mb) (retry_after_ms mb)
    (shutdown_flag mb) (in_progress_count mb).
Definition set_total_dequeued mb (v : Z) : Mailbox I C :=
  mkMailbox (config mb) (channel mb) (channel_name mb) (channel_provider mb) (data_tx mb)
    (internal_queue mb) (local_channel mb) (ctrl_channel mb) (receiver_alive mb)
    (data_queue_size mb) (ctrl_size mb) (total_enqueued mb) v (total_dropped mb) (tenant_id
    mb) (namespace mb) (idempotency_store mb) (max_capacity mb) (retry_after_ms mb)
    (shutdown_flag mb) (in_progress_count mb).
Definition set_total_dropped mb (v : Z) : Mailbox I C :=
  mkMailbox (config mb) (channel mb) (channel_name mb) (channel_provider mb) (data_tx mb)
    (internal_queue mb) (local_channel mb) (ctrl_channel mb) (receiver_alive mb)
    (data_queue_size mb) (ctrl_size mb) (total_enqueued mb) (total_dequeued mb) v (tenant_id
    mb) (namespace mb) (idempotency_store mb) (max_capacity mb) (retry_after_ms mb)
    (shutdown_flag mb) (in_progress_count mb).
Definition set_idempotency_store mb (v : option I) : Mailbox I C :=
  mkMailbox (config mb) (channel mb) (channel_name mb) (channel_provider mb) (data_tx mb)
    (internal_queue mb) (local_channel mb) (ctrl_channel mb) (receiver_alive mb)
    (data_queue_size mb) (ctrl_size mb) (total_enqueued mb) (total_dequeued mb) (total_dropped
    mb) (tenant_id mb) (namespace mb) v (max_capacity mb) (retry_after_ms mb) (shutdown_flag
    mb) (in_progress_count mb).
Definition set_shutdown_flag mb (v : bool) : Mailbox I C :=
  mkMailbox (config mb) (channel mb) (channel_name mb) (channel_provider mb) (data_tx mb)
    (internal_queue mb) (local_channel mb) (ctrl_channel mb) (receiver_alive mb)
    (data_queue_size mb) (ctrl_size mb) (total_enqueued mb) (total_dequeued mb) (total_dropped
    mb) (tenant_id mb) (namespace mb) (idempotency_store mb) (max_capacity mb) (retry_after_ms
    mb) v (in_progress_count mb).
Definition set_in_progress_count mb (v : Z) : Mailbox I C :=
  mkMailbox (config mb) (channel mb) (channel_name mb) (channel_provider mb) (data_tx mb)
    (internal_queue mb) (local_channel mb) (ctrl_channel mb) (receiver_alive mb)
    (data_queue_size mb) (ctrl_size mb) (total_enqueued mb) (total_dequeued mb) (total_dropped
    mb) (tenant_id mb) (namespace mb) (idempotency_store mb) (max_capacity mb) (retry_after_ms
    mb) (shutdown_flag mb) v.

(** *** Construction *)

(** [Mailbox::new] with its receiver.  [create_channel] is the constructor of the durable
    backends; [injected] is the channel that the caller supplies. *)
Definition new (env : string → option Z) (c : MailboxConfig)
    (mailbox_id tenant_id namespace : string) (store : option I) (injected : option C)
    (create_channel : Z → result string C) : result MailboxError (Mailbox I C) :=
  provider ← (if negb (cfg_channel_provider c =? 0) then
                if valid_provider (cfg_channel_provider c) then Ok (cfg_channel_provider c)
                else Err (InvalidConfig "Invalid channel_provider")
              else Ok 0);
  let is_in_memory := provider =? 0 in
  let ordering := mailbox_config_ordering c in
  let is_priority := bool_decide (ordering = OrderingPriority) in
  let is_lifo := bool_decide (ordering = OrderingLifo) in
  let is_drop_oldest := bool_decide (mailbox_config_backpressure c = BackpressureDropOldest) in
  let use_fast_path := is_in_memory && negb is_priority && negb is_lifo && negb is_drop_oldest in
  let default_name := ("mailbox:" +:+ mailbox_id)%string in
  chan ← match injected with
         | Some ch =>
             Ok (Some ch, if bool_decide (ch_name ch = ""%string) then default_name else ch_name ch)
         | None =>
             if use_fast_path || is_in_memory then Ok (None, default_name)
             else match create_channel provider with
                  | Ok ch => Ok (Some ch, ch_name ch)
                  | Err e => Err (StorageError ("Failed to create channel backend: " +:+ e)%string)
                  end
         end;
  Ok (mkMailbox c chan.1 chan.2 provider
        (if use_fast_path then Some [] else None)
        (if negb use_fast_path then Some (if is_priority then Priority [] else Queue []) else None)
        [] [] true 0 0 0 0 0 tenant_id namespace store
        (mailbox_config_max_size env c) (mailbox_config_retry_after_ms env c) false 0).

Definition is_in_memory mb : bool := channel_provider mb =? 0.
Definition is_durable mb : bool :=
  if valid_provider (channel_provider mb)
  then negb (channel_provider mb =? 0) && negb (channel_provider mb =? 5) else false.
Definition backend_type mb : string :=
  let p := channel_provider mb in
  if p =? 0 then "in_memory" else if p =? 1 then "redis" else if p =? 2 then "kafka"
  else if p =? 3 then "sqlite" else if p =? 4 then "nats" else if p =? 5 then "udp"
  else if p =? 6 then "sqs" else if p =? 7 then "process_group" else if p =? 8 then "postgres"
  else if p =? 99 then "custom" else "unknown".

(** *** Enqueue *)

Definition enqueue_ctrl mb (m : ProtoMessage) : Mailbox I C :=
  let mb := if receiver_alive mb then set_ctrl_channel mb (ctrl_channel mb ++ [m]) else mb in
  set_ctrl_size mb (u64_add (ctrl_size mb) 1).

(** The last-write-wins rule: whether a queued message gives way to the incoming one. *)
Definition overwritten (key : string) (incoming_seq : option Z) (queued : ProtoMessage) : bool :=
  if negb (bool_decide (idempotency_key queued = key)) then false
  else
    match incoming_seq with
    | Some inc => negb (inc <=? default (- 2 ^ 63) (sequence_number queued))
    | None => true
    end.

Definition fetch_sub_removed mb (removed : nat) : Mailbox I C :=
  if (0 <? removed)%nat then set_data_queue_size mb (u64_sub (data_queue_size mb) (Z.of_nat removed))
  else mb.

(** The removal of queued messages with the key of an [Overwrite] message; [true] when the
    incoming message is dropped because a newer one is queued. *)
Definition overwrite mb (m : ProtoMessage) : Mailbox I C * bool :=
  let key := idempotency_key m in
  let incoming_seq := sequence_number m in
  let same_key x := bool_decide (idempotency_key x = key) in
  match internal_queue mb with
  | Some (Queue vd) =>
      let vd' := List.filter (λ x, negb (overwritten key incoming_seq x)) vd in
      let removed := (length vd - length vd')%nat in
      let mb := fetch_sub_removed (set_internal_queue mb (Some (Queue vd'))) removed in
      (mb, (length vd =? length vd')%nat && existsb same_key vd')
  | Some (Priority heap) =>
      let heap' := List.filter (λ x, negb (overwritten key incoming_seq x)) heap in
      let removed := (length heap - length heap')%nat in
      let mb := fetch_sub_removed (set_internal_queue mb (Some (Priority heap'))) removed in
      (mb, existsb same_key heap')
  | None => (mb, false)
  end.

(** Deduplication.  [None]: [enqueue] returns [Ok(())] here; [Some b]: it goes on, and records
    the completion when [b]. *)
Definition dedup (now : Z) mb (m : ProtoMessage) : Mailbox I C * option bool :=
  let key := idempotency_key m in
  let is_overwrite := (conflict_resolution m =? 1) && negb (bool_decide (key = ""%string)) in
  if negb (bool_decide (key = ""%string)) then
    if is_overwrite then
      let '(mb, skip) := overwrite mb m in (mb, if skip then None else Some false)
    else
      match idempotency_store mb with
      | Some store =>
          let '(store, r) := check_and_record now store (tenant_id mb) (namespace mb) key in
          (set_idempotency_store mb (Some store),
           match r with
           | Ok FirstSeen => Some true
           | Ok (Duplicate _) | Ok InFlightOutcome => None
           | Err _ => Some false
           end)
      | None => (mb, Some false)
      end
  else (mb, Some false).

Definition record_complete (now : Z) mb (m : ProtoMessage) (should_record_complete : bool)
    : Mailbox I C :=
  if should_record_complete then
    match idempotency_store mb with
    | Some store =>
        set_idempotency_store mb
          (Some (complete_record now store (tenant_id mb) (namespace mb) (idempotency_key m) None).1)
    | None => mb
    end
  else mb.

Definition count_dropped mb : Mailbox I C := set_total_dropped mb (u64_add (total_dropped mb) 1).
Definition full_error mb : MailboxError :=
  Full (data_queue_size mb) (max_capacity mb) (retry_after_ms mb).

(** The fast path is not atomic: the load of the counter and [try_send], then, when the message
    was sent, the two [fetch_add]s. *)
Inductive SendOutcome := Sent | Closed | Returns (r : result MailboxError ()).
Definition fast_send mb (q : list ProtoMessage) (m : ProtoMessage) : Mailbox I C * SendOutcome :=
  if max_capacity mb <=? data_queue_size mb then
    match mailbox_config_backpressure (config mb) with
    | BackpressureDropOldest | BackpressureDropNewest => (count_dropped mb, Returns (Ok ()))
    | _ => (mb, Returns (Err (full_error mb)))
    end
  else if negb (receiver_alive mb) then (mb, Closed)
  else if Z.max (max_capacity mb) 1 <=? Z.of_nat (length q)
  then (mb, Returns (Err (full_error mb)))
  else (set_data_tx mb (Some (q ++ [m])), Sent).
Definition fast_count mb : Mailbox I C :=
  let mb := set_data_queue_size mb (u64_add (data_queue_size mb) 1) in
  set_total_enqueued mb (u64_add (total_enqueued mb) 1).

Definition enqueue_fast (now : Z) mb (q : list ProtoMessage) (m : ProtoMessage)
    (should_record_complete : bool) : Mailbox I C * result MailboxError () :=
  match fast_send mb q m with
  | (mb, Returns r) => (mb, r)
  | (mb, Sent) => (record_complete now (fast_count mb) m should_record_complete, Ok ())
  | (mb, Closed) => (record_complete now mb m should_record_complete, Ok ())
  end.

(** [DropOldest] on a full queue. *)
Definition drop_oldest mb (q : MessageStorage) : Mailbox I C * MessageStorage :=
  let q' := match q with
            | Queue vd => Queue (tail vd)
            | Priority h => Priority (from_option snd h (heap_pop h))
            end in
  let mb := count_dropped mb in
  (set_data_queue_size mb (u64_sub (data_queue_size mb) 1), q').

(** [pos] is the random position of [OrderingRandom]. *)
Definition insert_message (o : OrderingStrategy) (pos : nat) (q : MessageStorage) (m : ProtoMessage)
    : MessageStorage :=
  match o, q with
  | OrderingLifo, Queue vd => Queue (m :: vd)
  | OrderingPriority, Priority h => Priority (m :: h)
  | OrderingPriority, Queue vd => Queue vd
  | OrderingRandom, Queue vd => Queue (take pos vd ++ [m] ++ drop pos vd)
  | _, Queue vd => Queue (vd ++ [m])
  | _, Priority h => Priority h
  end.

Definition enqueue_slow (now : Z) (pos : nat) mb (q : MessageStorage) (m : ProtoMessage)
    (should_record_complete : bool) : Mailbox I C * result MailboxError () :=
  let push mb q :=
    let q := insert_message (mailbox_config_ordering (config mb)) pos q m in
    let mb := set_internal_queue mb (Some q) in
    let mb := set_total_enqueued mb (u64_add (total_enqueued mb) 1) in
    let mb := set_data_queue_size mb (u64_add (data_queue_size mb) 1) in
    (record_complete now mb m should_record_complete, Ok ()) in
  if max_capacity mb <=? data_queue_size mb then
    match mailbox_config_backpressure (config mb) with
    | BackpressureDropOldest => let '(mb, q) := drop_oldest mb q in push mb q
    | BackpressureDropNewest => (count_dropped mb, Ok ())
    | _ => (mb, Err (full_error mb))
    end
  else push mb q.

Definition enqueue (now : Z) (pos : nat) mb (m : ProtoMessage)
    : Mailbox I C * result MailboxError () :=
  if is_ctrl_message (message_type m) then (enqueue_ctrl mb m, Ok ())
  else if negb (is_in_memory mb) && shutdown_flag mb then
    (mb, Err (StorageError "Mailbox is shutting down, not accepting new messages"))
  else
    match dedup now mb m with
    | (mb, None) => (mb, Ok ())
    | (mb, Some should_record_complete) =>
        match data_tx mb, internal_queue mb with
        | Some q, _ => enqueue_fast now mb q m should_record_complete
        | None, Some q => enqueue_slow now pos mb q m should_record_complete
        | None, None => (mb, Ok ())  (* unreachable: [new] creates one of the two *)
        end
    end.

(** *** Background processors *)

(** [while let Some(pm) = heap.pop() { messages.push(pm) }] *)
Fixpoint heap_drain (fuel : nat) (h : list ProtoMessage) : list ProtoMessage :=
  match fuel with
  | O => []
  | S fuel => match heap_pop h with Some (m, h) => m :: heap_drain fuel h | None => [] end
  end.
Definition drain (q : MessageStorage) : MessageStorage * list ProtoMessage :=
  match q with
  | Queue vd => (Queue [], vd)
  | Priority h => (Priority [], heap_drain (length h) h)
  end.

(** One round of the in-memory processor; it stops when the receiver is gone. *)
Definition process mb : Mailbox I C :=
  match internal_queue mb with
  | Some q =>
      let '(q, msgs) := drain q in
      let mb := set_internal_queue mb (Some q) in
      if receiver_alive mb then set_local_channel mb (local_channel mb ++ msgs) else mb
  | None => mb
  end.

(** One round of the durable processor: every drained message is sent to the channel; a closed
    channel ends the task, another error only skips the message. *)
Fixpoint send_all (name : string) (c : C) (msgs : list ProtoMessage) : C :=
  match msgs with
  | [] => c
  | m :: msgs =>
      let m := mkMsg (msg_id m) name (message_type m) (priority m) (idempotency_key m)
                 (conflict_resolution m) (headers m) (payload m) in
      match ch_send c m with
      | (c, Err (ChannelClosed _)) => c
      | (c, _) => send_all name c msgs
      end
  end.
Definition durable_process mb : Mailbox I C :=
  match internal_queue mb, channel mb with
  | Some q, Some c =>
      let '(q, msgs) := drain q in
      let mb := set_internal_queue mb (Some q) in
      set_channel mb (Some (send_all (channel_name mb) c msgs))
  | _, _ => mb
  end.

(** One round of the durable pump. *)
Definition durable_pump mb : Mailbox I C :=
  match channel mb with
  | Some c =>
      match ch_try_receive c 32 with
      | (c, Ok msgs) =>
          if receiver_alive mb then
            let c := foldl (λ c m, (ch_ack c (msg_id m)).1) c msgs in
            set_local_channel (set_channel mb (Some c)) (local_channel mb ++ msgs)
          else set_channel mb (Some c)
      | (c, Err _) => set_channel mb (Some c)
      end
  | None => mb
  end.

(** *** The receiver *)

Definition ctrl_try_recv mb : Mailbox I C * option ProtoMessage :=
  match ctrl_channel mb with
  | m :: rest => (set_ctrl_size (set_ctrl_channel mb rest) (u64_sub (ctrl_size mb) 1), Some m)
  | [] => (mb, None)
  end.

Definition data_try_recv mb : Mailbox I C * option ProtoMessage :=
  let fetch_sub mb := set_data_queue_size mb (u64_sub (data_queue_size mb) 1) in
  match data_tx mb with
  | Some (m :: rest) => (fetch_sub (set_data_tx mb (Some rest)), Some m)
  | Some [] => (mb, None)
  | None =>
      match local_channel mb with
      | m :: rest => (fetch_sub (set_local_channel mb rest), Some m)
      | [] => (mb, None)
      end
  end.

(** [dequeue_with_timeout], the biased select with the control channel first; [None] stands for
    the wait that the timeout ends. *)
Definition dequeue mb : Mailbox I C * option ProtoMessage :=
  match ctrl_try_recv mb with
  | (mb, Some m) => (mb, Some m)
  | (mb, None) => data_try_recv mb
  end.

(** *** Acknowledgements, statistics, shutdown *)

Definition ack_message mb (m : ProtoMessage) : Mailbox I C * result MailboxError () :=
  let done mb := set_total_dequeued mb (u64_add (total_dequeued mb) 1) in
  match channel mb with
  | Some c =>
      match ch_ack c (msg_id m) with
      | (c, Ok _) => (done (set_channel mb (Some c)), Ok ())
      | (c, Err _) => (set_channel mb (Some c), Err (StorageError "Failed to ack message"))
      end
  | None => (done mb, Ok ())
  end.
Definition nack_message mb (m : ProtoMessage) : Mailbox I C * result MailboxError () :=
  match channel mb with
  | Some c =>
      match ch_nack c (msg_id m) with
      | (c, Ok _) => (count_dropped (set_channel mb (Some c)), Ok ())
      | (c, Err _) => (set_channel mb (Some c), Err (StorageError "Failed to nack message"))
      end
  | None => (count_dropped mb, Ok ())
  end.

Definition size mb : Z := data_queue_size mb.
Definition begin_processing mb : Mailbox I C :=
  set_in_progress_count mb (u64_add (in_progress_count mb) 1).
(** The second component is whether the shutdown is notified. *)
Definition end_processing mb : Mailbox I C * bool :=
  (set_in_progress_count mb (u64_sub (in_progress_count mb) 1), in_progress_count mb =? 1).
(** [graceful_shutdown] once no message is in progress or the timeout has passed. *)
Definition graceful_shutdown mb : Mailbox I C * result MailboxError () :=
  let mb := if negb (is_in_memory mb) then set_shutdown_flag mb true else mb in
  match channel mb with
  | Some c => (if is_durable mb then set_channel mb (Some (ch_close c).1) else mb, Ok ())
  | None => (mb, Ok ())
  end.

Record MailboxObservabilityStats := mkMailboxStats {
  stats_data_queue_size : Z;
  stats_ctrl_queue_size : Z;
  stats_total_enqueued : Z;
  stats_total_dequeued : Z;
  stats_total_dropped : Z;
  stats_backend_type : string;
  stats_is_durable : bool
}.
Definition get_stats mb : MailboxObservabilityStats :=
  mkMailboxStats (data_queue_size mb) (ctrl_size mb) (total_enqueued mb) (total_dequeued mb)
    (total_dropped mb) (backend_type mb) (is_durable mb).
Definition total_size (s : MailboxObservabilityStats) : Z :=
  u64_add (stats_data_queue_size s) (stats_ctrl_queue_size s).

(** The messages accepted and not yet received, in the order of delivery. *)
Definition storage_messages (q : MessageStorage) : list ProtoMessage :=
  match q with Queue vd => vd | Priority h => h end.
Definition pending mb : list ProtoMessage :=
  match data_tx mb with
  | Some q => q
  | None => local_channel mb ++ from_option storage_messages [] (internal_queue mb)
  end.

End mailbox.

(** *** Runs *)

Section runs.
Context {I C : Type} `{!IdempotencyStore I, !Channel C} `{HB : BinaryHeap}.
Implicit Types mb : Mailbox I C.

Inductive MbOp :=
| OpEnqueue (pos : nat) (m : ProtoMessage) | OpDequeue | OpProcess
| OpAck (m : ProtoMessage) | OpNack (m : ProtoMessage) | OpBegin | OpEnd.

Definition exec (now : Z) (op : MbOp) mb : Mailbox I C :=
  match op with
  | OpEnqueue pos m => (enqueue now pos mb m).1
  | OpDequeue => (dequeue mb).1
  | OpProcess => process mb
  | OpAck m => (ack_message mb m).1
  | OpNack m => (nack_message mb m).1
  | OpBegin => begin_processing mb
  | OpEnd => (end_processing mb).1
  end.
Definition run (ops : list (Z * MbOp)) mb : Mailbox I C :=
  foldl (λ mb '(now, op), exec now op mb) mb ops.

(** The store is shared by the mailboxes of a node: between two operations other mailboxes may look up keys and
    complete them. *)
Inductive MbEvent := Own (op : MbOp) | Shared (t n k : string) | SharedDone (t n k : string) (r : option (list Z)).
Definition on_store (f : I → I) mb : Mailbox I C :=
  match idempotency_store mb with Some s => set_idempotency_store mb (Some (f s)) | None => mb end.
Definition exec_event (now : Z) (e : MbEvent) mb : Mailbox I C :=
  match e with
  | Own op => exec now op mb
  | Shared t n k => on_store (λ s, (check_and_record now s t n k).1) mb
  | SharedDone t n k r => on_store (λ s, (complete_record now s t n k r).1) mb
  end.
Definition run_shared (es : list (Z * MbEvent)) mb : Mailbox I C :=
  foldl (λ mb '(now, e), exec_event now e mb) mb es.
(** The events that may record a key other than [key]. *)
Definition takes_room (key : string) (e : MbEvent) : bool :=
  match e with
  | Own (OpEnqueue _ x) => negb (bool_decide (idempotency_key x = key))
  | Shared _ _ k => negb (bool_decide (k = key))
  | _ => false
  end.
(** [key] comes again only up to the time [until], and no other mailbox completes it. *)
Definition within (key : string) (until now : Z) (e : MbEvent) : Prop :=
  match e with
  | Own (OpEnqueue _ x) => idempotency_key x = key → now <= until
  | Own _ => True
  | Shared _ _ k => k = key → now <= until
  | SharedDone _ _ k _ => k ≠ key
  end.

(** The invariant of an in-memory mailbox without [DropOldest]: it has one data path, the storage
    is of the kind of the ordering, and the counter is the number of pending messages. *)
Record mb_wf mb : Prop := {
  wf_in_memory : is_in_memory mb = true;
  wf_path : match data_tx mb, internal_queue mb with
            | Some _, None => local_channel mb = []
            | None, Some (Queue _) => mailbox_config_ordering (config mb) ≠ OrderingPriority
            | None, Some (Priority _) => mailbox_config_ordering (config mb) = OrderingPriority
            | _, _ => False
            end;
  wf_alive : receiver_alive mb = true;
  wf_size : data_queue_size mb = Z.of_nat (length (pending mb));
  wf_bound : data_queue_size mb <= max_capacity mb <= u64_max;
  wf_policy : mailbox_config_backpressure (config mb) ≠ BackpressureDropOldest
}.

End runs.

(** ** Lemmas *)

Section lemmas.
Context {I C : Type} `{!IdempotencyStore I, !Channel C} `{HB : BinaryHeap}.
Implicit Types mb : Mailbox I C.

Lemma record_complete_frame now mb m b :
  ∃ s, record_complete now mb m b = set_idempotency_store mb s.
Proof.
  unfold record_complete. destruct b; [|exists (idempotency_store mb); by destruct mb].
  destruct (idempotency_store mb) eqn:E; [by eexists|]. exists None. destruct mb. simpl in *. by subst.
Qed.

Lemma set_store_wf mb s : mb_wf mb → mb_wf (set_idempotency_store mb s).
Proof. intros []. by split. Qed.

Lemma record_complete_wf now mb m b : mb_wf mb → mb_wf (record_complete now mb m b).
Proof. destruct (record_complete_frame now mb m b) as [s ->]. apply set_store_wf. Qed.

Lemma set_path_id mb q : internal_queue mb = Some q → set_internal_queue mb (Some q) = mb.
Proof. intros H. destruct mb. simpl in *. by subst. Qed.

Lemma fetch_sub_removed_size mb removed :
  0 <= data_queue_size mb <= u64_max → Z.of_nat removed <= data_queue_size mb →
  fetch_sub_removed mb removed
    = set_data_queue_size mb (data_queue_size mb - Z.of_nat removed).
Proof.
  intros Hs Hr. unfold fetch_sub_removed. destruct (Nat.ltb_spec 0 removed).
  - by rewrite u64_sub_small by lia.
  - replace removed with 0%nat by lia. rewrite Z.sub_0_r. by destruct mb.
Qed.

Lemma overwrite_wf mb m : mb_wf mb → mb_wf (overwrite mb m).1.
Proof.
  intros Hwf. pose proof Hwf as [Hm Hp Ha Hs Hb Hpol]. unfold overwrite.
  destruct (data_tx mb) as [tx|] eqn:Etx, (internal_queue mb) as [[vd|h]|] eqn:Eq; try done.
  - unfold pending in Hs. rewrite Etx, Eq, length_app in Hs. simpl in Hs.
    pose proof (List.filter_length_le
      (λ x, negb (overwritten (idempotency_key m) (sequence_number m) x)) vd) as Hle.
    cbn [fst]. rewrite fetch_sub_removed_size by (cbn; lia).
    split; try done; unfold pending; cbn; rewrite ?Etx, ?length_app; cbn; try done; lia.
  - unfold pending in Hs. rewrite Etx, Eq, length_app in Hs. simpl in Hs.
    pose proof (List.filter_length_le
      (λ x, negb (overwritten (idempotency_key m) (sequence_number m) x)) h) as Hle.
    cbn [fst]. rewrite fetch_sub_removed_size by (cbn; lia).
    split; try done; unfold pending; cbn; rewrite ?Etx, ?length_app; cbn; try done; lia.
Qed.

Lemma dedup_wf now mb m : mb_wf mb → mb_wf (dedup now mb m).1.
Proof.
  intros Hwf. unfold dedup. destruct (negb _); [|done]. destruct (_ && _).
  - pose proof (overwrite_wf mb m Hwf) as H. by destruct (overwrite mb m) as [mb' []].
  - destruct (idempotency_store mb) as [s|]; [|done].
    destruct (check_and_record _ _ _ _ _) as [s' r]. by apply set_store_wf.
Qed.

Lemma count_dropped_wf mb : mb_wf mb → mb_wf (count_dropped mb).
Proof. intros []. by split. Qed.

Lemma insert_message_length o pos q m :
  match q with Queue _ => o ≠ OrderingPriority | Priority _ => o = OrderingPriority end →
  length (storage_messages (insert_message o pos q m)) = S (length (storage_messages q))
  ∧ match q, insert_message o pos q m with
    | Queue _, Queue _ | Priority _, Priority _ => True | _, _ => False end.
Proof.
  intros Ho. destruct q as [vd|h]; [|by subst o].
  destruct o; simpl; try done; rewrite ?length_app; simpl; (split; [|done]); try lia.
  rewrite length_take, length_drop. lia.
Qed.

Lemma enqueue_fast_wf now mb q m b :
  mb_wf mb → data_tx mb = Some q → mb_wf (enqueue_fast now mb q m b).1.
Proof.
  intros Hwf Hq. pose proof Hwf as [Hm Hp Ha Hs Hb Hpol]. unfold enqueue_fast, fast_send.
  rewrite Hq in Hp. destruct (internal_queue mb) eqn:Ei; [done|].
  unfold pending in Hs. rewrite Hq in Hs.
  destruct (Z.leb_spec (max_capacity mb) (data_queue_size mb)) as [Hle|Hlt].
  - destruct (mailbox_config_backpressure _); simpl; try done; by apply count_dropped_wf.
  - rewrite Ha. cbn [negb].
    destruct (Z.leb_spec (Z.max (max_capacity mb) 1) (Z.of_nat (length q))); [done|].
    cbn [fst]. apply record_complete_wf.
    split; unfold pending; cbn; rewrite ?Ei, ?length_app; cbn; try done;
      rewrite u64_add_small; lia.
Qed.

Lemma enqueue_slow_wf now pos mb q m b :
  mb_wf mb → data_tx mb = None → internal_queue mb = Some q →
  mb_wf (enqueue_slow now pos mb q m b).1.
Proof.
  intros Hwf Hq Hi. pose proof Hwf as [Hm Hp Ha Hs Hb Hpol]. unfold enqueue_slow.
  rewrite Hq, Hi in Hp. unfold pending in Hs. rewrite Hq, Hi, length_app in Hs.
  destruct (Z.leb_spec (max_capacity mb) (data_queue_size mb)) as [Hle|Hlt].
  - destruct (mailbox_config_backpressure _); simpl; try done; by apply count_dropped_wf.
  - cbn [fst]. apply record_complete_wf.
    destruct (insert_message_length (mailbox_config_ordering (config mb)) pos q m) as [Hlen Hk];
      [by destruct q|].
    split; unfold pending; cbn; rewrite ?Hq, ?length_app; cbn; try done.
    + destruct q, (insert_message _ _ _ _); done.
    + rewrite Hlen, u64_add_small; simpl in *; lia.
    + rewrite u64_add_small; lia.
Qed.

Lemma enqueue_wf now pos mb m : mb_wf mb → mb_wf (enqueue now pos mb m).1.
Proof.
  intros Hwf. unfold enqueue. destruct (is_ctrl_message _).
  - unfold enqueue_ctrl. rewrite (wf_alive _ Hwf). destruct Hwf. by split.
  - destruct (_ && _); [done|]. pose proof (dedup_wf now mb m Hwf) as Hd.
    destruct (dedup now mb m) as [mb' [b|]]; simpl in Hd; [|done].
    destruct (data_tx mb') as [q|] eqn:Etx; [by apply enqueue_fast_wf|].
    destruct (internal_queue mb') as [q|] eqn:Eq; [by apply enqueue_slow_wf | done].
Qed.

Lemma ctrl_try_recv_wf mb : mb_wf mb → mb_wf (ctrl_try_recv mb).1.
Proof. intros Hwf. unfold ctrl_try_recv. destruct (ctrl_channel mb); [done|]. destruct Hwf. by split. Qed.

Lemma data_try_recv_wf mb : mb_wf mb → mb_wf (data_try_recv mb).1.
Proof.
  intros Hwf. pose proof Hwf as [Hm Hp Ha Hs Hb Hpol]. unfold data_try_recv, pending in *.
  destruct (data_tx mb) as [[|x q]|] eqn:Etx; [done | |].
  - simpl in Hs. split; unfold pending; cbn; try done; rewrite u64_sub_small; lia.
  - destruct (local_channel mb) as [|x l] eqn:El; [done|].
    destruct (internal_queue mb) as [q|] eqn:Ei; [|done]. simpl in Hs. rewrite length_app in Hs.
    split; unfold pending; cbn; rewrite ?Etx, ?Ei; cbn; rewrite ?length_app; try done;
      rewrite u64_sub_small; simpl in *; lia.
Qed.

Lemma dequeue_wf mb : mb_wf mb → mb_wf (dequeue mb).1.
Proof.
  intros Hwf. unfold dequeue. pose proof (ctrl_try_recv_wf mb Hwf) as H.
  destruct (ctrl_try_recv mb) as [mb' [m|]]; simpl in *; [done | by apply data_try_recv_wf].
Qed.

Lemma heap_drain_perm `{!BinaryHeapLaws} fuel h :
  (length h <= fuel)%nat → heap_drain fuel h ≡ₚ h.
Proof.
  revert h. induction fuel as [|fuel IH]; intros h Hlen; simpl.
  - by destruct h; [|simpl in Hlen; lia].
  - destruct (heap_pop h) as [[m h']|] eqn:E.
    + apply heap_pop_some in E as [Hp _]. rewrite Hp in Hlen |- *. simpl in Hlen.
      rewrite IH by lia. done.
    + apply heap_pop_none in E. by subst.
Qed.

Lemma heap_drain_sorted `{!BinaryHeapLaws} fuel h :
  (length h <= fuel)%nat →
  StronglySorted (λ x y, priority y <= priority x) (heap_drain fuel h).
Proof.
  revert h. induction fuel as [|fuel IH]; intros h Hlen; simpl; [constructor|].
  destruct (heap_pop h) as [[m h']|] eqn:E; [|constructor].
  apply heap_pop_some in E as [Hp Hmax]. rewrite Hp in Hlen. simpl in Hlen.
  constructor; [apply IH; lia|]. by rewrite heap_drain_perm by lia.
Qed.

Lemma process_wf `{!BinaryHeapLaws} mb : mb_wf mb → mb_wf (process mb).
Proof.
  intros Hwf. pose proof Hwf as [Hm Hp Ha Hs Hb Hpol]. unfold process.
  destruct (internal_queue mb) as [q|] eqn:Ei; [|done].
  destruct (data_tx mb) eqn:Etx; [done|]. unfold pending in Hs. rewrite Etx, Ei in Hs.
  assert (Hlen : length (drain q).2 = length (storage_messages q)).
  { destruct q as [vd|h]; [done|]. simpl. by rewrite heap_drain_perm. }
  destruct (drain q) as [q' msgs] eqn:Ed. simpl in Hlen.
  cbn [receiver_alive set_internal_queue]. rewrite Ha.
  assert (storage_messages q' = [] ∧ match q, q' with Queue _, Queue _ | Priority _, Priority _ => True | _, _ => False end)
    as [Hq' Hk] by (destruct q; by simplify_eq/=).
  split; unfold pending; cbn; rewrite ?Etx; cbn; try done.
  - by destruct q, q'.
  - rewrite Hq', app_nil_r, Hs, !length_app, Hlen. done.
Qed.

Lemma exec_wf `{!BinaryHeapLaws} now op mb :
  channel mb = None → mb_wf mb → mb_wf (exec now op mb) ∧ channel (exec now op mb) = None.
Proof.
  intros Hch Hwf. destruct op as [pos m| | |m|m| |]; cbn [exec].
  - split; [by apply enqueue_wf|].
    unfold enqueue, enqueue_ctrl, dedup, overwrite, enqueue_fast, enqueue_slow, fast_send, drop_oldest,
      record_complete, fetch_sub_removed; repeat (case_match; simplify_eq/=; try done).
  - split; [by apply dequeue_wf|].
    unfold dequeue, ctrl_try_recv, data_try_recv. repeat (case_match; simplify_eq/=; try done).
  - split; [by apply process_wf|].
    unfold process. repeat (case_match; simplify_eq/=; try done).
  - unfold ack_message. rewrite Hch. destruct Hwf. by split.
  - unfold nack_message. rewrite Hch. destruct Hwf. by split.
  - destruct Hwf. by split.
  - destruct Hwf. by split.
Qed.

Lemma run_wf `{!BinaryHeapLaws} ops mb :
  channel mb = None → mb_wf mb → mb_wf (run ops mb).
Proof.
  intros Hch Hwf. unfold run. revert mb Hch Hwf.
  induction ops as [|[now op] ops IH]; intros mb Hch Hwf; simpl; [done|].
  destruct (exec_wf now op mb Hch Hwf). by apply IH.
Qed.

Lemma new_wf env c id tn ns store create mb :
  new env c id tn ns store None create = Ok mb →
  cfg_channel_provider c = 0 → mailbox_config_backpressure c ≠ BackpressureDropOldest →
  0 <= mailbox_config_max_size env c <= u64_max →
  mb_wf mb ∧ channel mb = None ∧ max_capacity mb = mailbox_config_max_size env c.
Proof.
  intros Hnew Hp Hb Hmax. unfold new in Hnew. rewrite Hp in Hnew. simpl in Hnew.
  rewrite orb_true_r in Hnew. simpl in Hnew. injection Hnew as <-.
  split; [|done]. rewrite (bool_decide_eq_false_2 _ Hb). cbn [negb].
  split; cbn; try done.
  - case_bool_decide as Hpri; cbn; [done|]. case_bool_decide; by cbn.
  - unfold pending. cbn. by repeat case_bool_decide.
Qed.

(** *** Plain messages *)

(** A message that is not a control message and carries no idempotency key. *)
Definition plain (m : ProtoMessage) : Prop :=
  is_ctrl_message (message_type m) = false ∧ idempotency_key m = ""%string.

Lemma dedup_plain now mb m : plain m → dedup now mb m = (mb, Some false).
Proof. intros [_ Hk]. unfold dedup. by rewrite Hk. Qed.

Lemma enqueue_plain now pos mb m :
  plain m → is_in_memory mb = true →
  enqueue now pos mb m =
    match data_tx mb, internal_queue mb with
    | Some q, _ => enqueue_fast now mb q m false
    | None, Some q => enqueue_slow now pos mb q m false
    | None, None => (mb, Ok ())
    end.
Proof.
  intros Hpl Hm. unfold enqueue. rewrite (proj1 Hpl), Hm. cbn [negb andb].
  by rewrite dedup_plain.
Qed.

(** *** Keyed messages *)

Definition keyed (m : ProtoMessage) : Prop :=
  is_ctrl_message (message_type m) = false ∧ idempotency_key m ≠ ""%string
  ∧ conflict_resolution m ≠ 1.

Lemma dedup_keyed now mb m store :
  keyed m → idempotency_store mb = Some store →
  dedup now mb m =
    let '(store, r) := check_and_record now store (tenant_id mb) (namespace mb) (idempotency_key m) in
    (set_idempotency_store mb (Some store),
     match r with
     | Ok FirstSeen => Some true
     | Ok (Duplicate _) | Ok InFlightOutcome => None
     | Err _ => Some false
     end).
Proof.
  intros (_ & Hk & Hc) Hs. unfold dedup. rewrite bool_decide_eq_false_2 by done.
  apply Z.eqb_neq in Hc. by rewrite Hc, Hs.
Qed.

(** A message whose key the store remembers changes nothing. *)
Lemma enqueue_remembered {remembers time_to_live} `{!IdempotencyLaws I remembers time_to_live}
    now pos mb m store :
  keyed m → idempotency_store mb = Some store →
  remembers store now (tenant_id mb) (namespace mb) (idempotency_key m) →
  is_in_memory mb = true →
  enqueue now pos mb m = (mb, Ok ()).
Proof.
  intros Hk Hs Hr Hm. unfold enqueue. rewrite (proj1 Hk), Hm. cbn [negb andb].
  rewrite (dedup_keyed now mb m store Hk Hs).
  destruct (check_remembered _ _ _ _ _ Hr) as (o & -> & Ho).
  destruct o; [done| |]; f_equal; destruct mb; simpl in *; by subst.
Qed.

(** What [enqueue] does with the store. *)
Lemma enqueue_store now pos mb x store :
  idempotency_store mb = Some store →
  let mb' := (enqueue now pos mb x).1 in
  let k := idempotency_key x in
  let r := check_and_record now store (tenant_id mb) (namespace mb) k in
  tenant_id mb' = tenant_id mb ∧ namespace mb' = namespace mb ∧
  ∃ store', idempotency_store mb' = Some store' ∧
    (store' = store ∨ store' = r.1 ∨
     r.2 = Ok FirstSeen ∧ store' = (complete_record now r.1 (tenant_id mb) (namespace mb) k None).1).
Proof.
  intros Hs. unfold enqueue, enqueue_ctrl, dedup, overwrite, enqueue_fast, enqueue_slow, fast_send, drop_oldest,
    record_complete, fetch_sub_removed.
  repeat (case_match; simplify_eq/=; eauto 8).
Qed.

Section retention.
Context `{!Retention I, !BinaryHeapLaws}.

(** A mailbox whose store keeps a key up to [until] with room for [room] others. *)
Record remembering (t n key : string) (r : option (option (list Z))) (until : Z) (room : nat) mb : Prop := {
  rm_wf : mb_wf mb;
  rm_channel : channel mb = None;
  rm_tenant : tenant_id mb = t ∧ namespace mb = n;
  rm_store : ∃ store, idempotency_store mb = Some store ∧ retained store t n key r until room
}.
Lemma store_frame now op mb : channel mb = None → mb_wf mb → (∀ pos x, op ≠ OpEnqueue pos x) →
  tenant_id (exec now op mb) = tenant_id mb ∧ namespace (exec now op mb) = namespace mb ∧
  idempotency_store (exec now op mb) = idempotency_store mb.
Proof.
  intros Hch Hwf Hop. destruct op as [pos x| | |x|x| |]; cbn [exec]; [by destruct (Hop pos x)|..|done|done].
  - unfold dequeue, ctrl_try_recv, data_try_recv. by repeat (case_match; simplify_eq/=).
  - unfold process. by repeat (case_match; simplify_eq/=).
  - unfold ack_message. by rewrite Hch.
  - unfold nack_message. by rewrite Hch.
Qed.
Lemma event_remembering t n key r until room now e mb :
  remembering t n key r until (if takes_room key e then S room else room) mb → r ≠ None →
  within key until now e → remembering t n key r until room (exec_event now e mb).
Proof.
  intros [Hwf Hch [<- <-] (store & Hs & Hr)] Hrn Hw.
  destruct e as [op|t' n' k'|t' n' k' resp]; cbn [exec_event takes_room within] in *.
  - destruct (exec_wf now op mb Hch Hwf) as [Hwf' Hch'].
    assert ((∃ pos x, op = OpEnqueue pos x) ∨ ∀ pos x, op ≠ OpEnqueue pos x) as [(pos & x & ->)|Hop]
      by (destruct op; eauto; right; done).
    + cbn [exec] in *. destruct (enqueue_store now pos mb x store Hs) as (Ht & Hn & store' & Hs' & Hcase).
      split; [done..|]. exists store'. split; [done|]. case_bool_decide as Hk; cbn [negb] in Hr.
      * specialize (Hw Hk). subst key. pose proof (retained_check now _ _ _ _ _ _ _ Hr Hw) as Hc.
        rewrite Hc in Hcase. cbn in Hcase. destruct Hcase as [->|[->|[Hf _]]]; [done..|]. by destruct r.
      * destruct Hcase as [->|[->|[_ ->]]].
        -- eapply retained_less; [exact Hr|lia].
        -- by apply retained_other.
        -- apply retained_complete_other; [|done]. by apply retained_other.
    + destruct (store_frame now op mb Hch Hwf Hop) as (Ht & Hn & Hs').
      split; [done..|]. exists store. rewrite Hs'. split; [done|]. destruct op; try done. by destruct (Hop pos m).
  - unfold on_store. rewrite Hs. split; [by apply set_store_wf|done|done|]. eexists. split; [done|].
    case_bool_decide as Hk; cbn [negb] in Hr; [subst; apply retained_same; auto | by apply retained_other].
  - unfold on_store. rewrite Hs. split; [by apply set_store_wf|done|done|]. eexists. split; [done|].
    by apply retained_complete_other.
Qed.
Lemma run_remembering t n key r until es room mb :
  remembering t n key r until (room + length (List.filter (λ e, takes_room key e.2) es)) mb → r ≠ None →
  Forall (λ e, within key until e.1 e.2) es → remembering t n key r until room (run_shared es mb).
Proof.
  intros Hm Hr Hes. revert mb Hm. induction Hes as [|[now e] es He Hes IH]; intros mb Hm.
  - cbn in Hm. by rewrite Nat.add_0_r in Hm.
  - change (run_shared ((now, e) :: es) mb) with (run_shared es (exec_event now e mb)).
    apply IH. apply event_remembering; [|done|done]. cbn [List.filter] in Hm. cbn [snd] in Hm.
    destruct (takes_room key e); [|done]. cbn [length] in Hm. by rewrite Nat.add_succ_r in Hm.
Qed.
Lemma enqueue_kept t n r until room now pos mb m : keyed m → r ≠ None →
  remembering t n (idempotency_key m) r until room mb → now <= until →
  enqueue now pos mb m = (mb, Ok ()) ∧
  ∃ store, idempotency_store mb = Some store ∧
    check_and_record now store t n (idempotency_key m) = (store, Ok (kept_outcome r)).
Proof.
  intros Hk Hr [Hwf _ [<- <-] (store & Hs & Hrt)] Hnow.
  pose proof (retained_check now _ _ _ _ _ _ _ Hrt Hnow) as Hc. split; [|by eauto].
  unfold enqueue. rewrite (proj1 Hk), (wf_in_memory _ Hwf). cbn [negb andb].
  rewrite (dedup_keyed now mb m store Hk Hs), Hc. destruct r; [|done]. cbn.
  destruct mb. cbn in *. by subst.
Qed.
End retention.

(** *** FIFO ordering *)

Lemma enqueue_fifo now pos mb m :
  mb_wf mb → plain m → mailbox_config_ordering (config mb) = OrderingFifo → 0 < max_capacity mb →
  if data_queue_size mb <? max_capacity mb
  then (enqueue now pos mb m).2 = Ok ()
    ∧ pending (enqueue now pos mb m).1 = pending mb ++ [m]
    ∧ total_enqueued (enqueue now pos mb m).1 = u64_add (total_enqueued mb) 1
  else pending (enqueue now pos mb m).1 = pending mb
    ∧ if bool_decide (mailbox_config_backpressure (config mb) = BackpressureDropNewest)
      then (enqueue now pos mb m).2 = Ok ()
        ∧ total_dropped (enqueue now pos mb m).1 = u64_add (total_dropped mb) 1
      else (enqueue now pos mb m).2 = Err (full_error mb) ∧ (enqueue now pos mb m).1 = mb.
Proof.
  intros Hwf Hpl Hord Hpos. pose proof Hwf as [Hm Hp Ha Hs Hb Hpol].
  rewrite enqueue_plain by done. unfold pending in *.
  destruct (data_tx mb) as [q|] eqn:Etx.
  - destruct (internal_queue mb) eqn:Ei; [done|].
    unfold enqueue_fast, fast_send. rewrite Ha.
    destruct (Z.leb_spec (max_capacity mb) (data_queue_size mb)),
      (Z.ltb_spec (data_queue_size mb) (max_capacity mb)); try lia.
    + destruct (mailbox_config_backpressure (config mb)); try done; cbn; by rewrite Etx.
    + cbn [negb]. by destruct (Z.leb_spec (Z.max (max_capacity mb) 1) (Z.of_nat (length q))); [lia|].
  - destruct (internal_queue mb) as [[vd|h]|] eqn:Ei; [| congruence | done].
    simpl in Hs. rewrite length_app in Hs. unfold enqueue_slow. rewrite Hord.
    destruct (Z.leb_spec (max_capacity mb) (data_queue_size mb)),
      (Z.ltb_spec (data_queue_size mb) (max_capacity mb)); try lia.
    + destruct (mailbox_config_backpressure (config mb)); try done; cbn; by rewrite Etx, Ei.
    + cbn. rewrite Etx. cbn. by rewrite (assoc (++)).
Qed.

Lemma process_fifo mb :
  mb_wf mb → mailbox_config_ordering (config mb) = OrderingFifo →
  pending (process mb) = pending mb.
Proof.
  intros [Hm Hp Ha Hs Hb Hpol] Hord. unfold process, pending in *.
  destruct (data_tx mb) as [q|] eqn:Etx, (internal_queue mb) as [[vd|h]|] eqn:Ei; try done.
  - by rewrite Etx.
  - cbn. rewrite Ha. cbn. rewrite Etx. cbn. by rewrite app_nil_r.
  - congruence.
Qed.

Lemma dequeue_fifo mb :
  mb_wf mb → mailbox_config_ordering (config mb) = OrderingFifo → ctrl_channel mb = [] →
  (dequeue (process mb)).2 = head (pending mb)
  ∧ pending (dequeue (process mb)).1 = tail (pending mb).
Proof.
  intros [Hm Hp Ha Hs Hb Hpol] Hord Hc. unfold process, pending, dequeue, ctrl_try_recv, data_try_recv in *.
  destruct (data_tx mb) as [q|] eqn:Etx, (internal_queue mb) as [[vd|h]|] eqn:Ei; try done.
  - rewrite Hc, Etx. destruct q; cbn; by rewrite ?Etx.
  - cbn. rewrite Ha. cbn. rewrite Hc. cbn. rewrite ?Etx. cbn.
    destruct (local_channel mb ++ vd); cbn; rewrite ?Etx; cbn; by rewrite ?app_nil_r.
  - congruence.
Qed.

(** *** [DropOldest] after the processor has emptied the queue *)

Lemma drop_oldest_round now pos mb m :
  plain m → is_in_memory mb = true → receiver_alive mb = true → data_tx mb = None →
  internal_queue mb = Some (Queue []) → mailbox_config_ordering (config mb) = OrderingFifo →
  mailbox_config_backpressure (config mb) = BackpressureDropOldest →
  data_queue_size mb = max_capacity mb → 0 < max_capacity mb <= u64_max →
  let mb1 := process (enqueue now pos mb m).1 in
  is_in_memory mb1 = true ∧ receiver_alive mb1 = true ∧ data_tx mb1 = None
  ∧ internal_queue mb1 = Some (Queue []) ∧ config mb1 = config mb
  ∧ data_queue_size mb1 = data_queue_size mb ∧ max_capacity mb1 = max_capacity mb
  ∧ pending mb1 = pending mb ++ [m] ∧ total_dropped mb1 = u64_add (total_dropped mb) 1.
Proof.
  intros Hpl Hm Ha Htx Hq Hord Hbp Hs Hmax.
  cbv zeta. rewrite enqueue_plain by done. destruct mb. cbn in *. subst.
  unfold enqueue_slow, drop_oldest, process, pending. cbn. rewrite Z.leb_refl, Hbp, Hord. cbn.
  split_and!; try done.
  - rewrite u64_sub_small, u64_add_small; lia.
  - by rewrite !app_nil_r.
Qed.

End lemmas.

End Mb.

Import Mb.

(** ** Properties *)

Section properties.
Context {I C : Type} `{!IdempotencyStore I, !Channel C} `{HB : BinaryHeap, !BinaryHeapLaws}.
Implicit Types mb : Mailbox I C.

(** C3. Size and capacity: in an in-memory mailbox whose policy is not [DropOldest], after any
    sequence of completed operations the depth counter is exactly the number of messages accepted
    and not yet received, and it never exceeds the configured capacity. *)
Theorem mailbox_size_invariant env c id tn ns (store : option I) create mb
    (ops : list (Z * MbOp)) :
  new env c id tn ns store None create = Ok mb →
  cfg_channel_provider c = 0 → mailbox_config_backpressure c ≠ BackpressureDropOldest →
  0 <= mailbox_config_max_size env c <= u64_max →
  let mb' := Mb.run ops mb in
  Mb.size mb' = Z.of_nat (length (pending mb'))
  ∧ Mb.size mb' <= max_capacity mb'.
Proof.
  intros Hnew Hp Hb Hmax. destruct (new_wf _ _ _ _ _ _ _ _ Hnew Hp Hb Hmax) as (Hwf & Hch & _).
  pose proof (run_wf ops mb Hch Hwf) as Hr. split; [apply (wf_size _ Hr) | apply (wf_bound _ Hr)].
Qed.

(** C4. Refinement of a bounded FIFO queue: with FIFO ordering, a plain message offered below the
    capacity is appended; at the capacity it is rejected with [Full], or silently dropped and
    counted under [DropNewest]; the background processor does not change the queue, and a
    receiver with no control message gets the oldest message. *)
Theorem mailbox_refines_bounded_fifo (now : Z) (pos : nat) mb (m : ProtoMessage) :
  mb_wf mb → plain m →
  mailbox_config_ordering (config mb) = OrderingFifo → 0 < max_capacity mb →
  let mb' := (enqueue now pos mb m).1 in
  let r := (enqueue now pos mb m).2 in
  let mb'' := process mb in
  (if Mb.size mb <? max_capacity mb
   then r = Ok () ∧ pending mb' = pending mb ++ [m]
        ∧ total_enqueued mb' = u64_add (total_enqueued mb) 1
   else pending mb' = pending mb
        ∧ if bool_decide (mailbox_config_backpressure (config mb) = BackpressureDropNewest)
          then r = Ok () ∧ total_dropped mb' = u64_add (total_dropped mb) 1
          else r = Err (Full (Mb.size mb) (max_capacity mb) (retry_after_ms mb)) ∧ mb' = mb)
  ∧ pending mb'' = pending mb
  ∧ (ctrl_channel mb = [] →
     (dequeue mb'').2 = head (pending mb) ∧ pending (dequeue mb'').1 = tail (pending mb)).
Proof.
  intros Hwf Hpl Hord Hpos. cbv zeta. split; [by apply enqueue_fifo|].
  split; [by apply process_fifo | by apply dequeue_fifo].
Qed.

(** Control messages: a message whose type starts with ["__"] is always accepted, whatever the
    depth, the capacity or a shutdown, without touching the data queue; the receiver gets the
    control messages in their order, before every data message. *)
Theorem ctrl_messages_first (now : Z) (pos : nat) mb (m : ProtoMessage) :
  is_ctrl_message (message_type m) = true → receiver_alive mb = true →
  let '(mb', r) := enqueue now pos mb m in
  r = Ok () ∧ pending mb' = pending mb ∧ Mb.size mb' = Mb.size mb
  ∧ ctrl_channel mb' = ctrl_channel mb ++ [m]
  ∧ (dequeue mb').2 = head (ctrl_channel mb ++ [m])
  ∧ pending (dequeue mb').1 = pending mb.
Proof.
  intros Hc Ha. unfold enqueue, enqueue_ctrl. rewrite Hc, Ha.
  split_and!; try done; unfold dequeue, ctrl_try_recv; cbn; by destruct (ctrl_channel mb).
Qed.

(** Priority: one round of the processor moves the whole heap to the receiver's channel, as a
    permutation sorted by descending priority, behind what was already forwarded; the pending
    messages are the same multiset before and after. *)
Theorem priority_drain_sorted mb (h : list ProtoMessage) :
  data_tx mb = None → internal_queue mb = Some (Priority h) → receiver_alive mb = true →
  ∃ msgs, local_channel (process mb) = local_channel mb ++ msgs
    ∧ msgs ≡ₚ h ∧ StronglySorted (λ x y, priority y <= priority x) msgs
    ∧ internal_queue (process mb) = Some (Priority [])
    ∧ pending (process mb) ≡ₚ pending mb.
Proof.
  intros Htx Hq Ha. exists (heap_drain (length h) h). unfold process, pending. rewrite Hq.
  cbn. rewrite Ha. cbn. rewrite ?Htx, ?Hq. cbn.
  split_and!; try done; rewrite ?app_nil_r.
  - by apply heap_drain_perm.
  - by apply heap_drain_sorted.
  - by rewrite heap_drain_perm.
Qed.

(** A message that was rejected as [Full] is lost when it is retried: under the idempotency
    store's contract, the rejected attempt has already recorded the key, so when the sender
    follows the [retry_after_ms] advice, in whatever state of the mailbox (emptied, say) with the
    same store and within the time to live, the retry reports success and enqueues nothing. *)
Theorem rejected_message_is_lost_on_retry {remembers time_to_live}
    `{!IdempotencyLaws I remembers time_to_live}
    (now now' : Z) (pos pos' : nat) mb mb' (m : ProtoMessage) (store : I) :
  keyed m → is_in_memory mb = true →
  idempotency_store mb = Some store →
  ¬ remembers store now (tenant_id mb) (namespace mb) (idempotency_key m) →
  mailbox_config_backpressure (config mb) = BackpressureError →
  max_capacity mb <= Mb.size mb → is_Some (data_tx mb) →
  now' <= now + time_to_live store (tenant_id mb) (namespace mb) →
  is_in_memory mb' = true →
  tenant_id mb' = tenant_id mb → namespace mb' = namespace mb →
  idempotency_store mb' = idempotency_store (enqueue now pos mb m).1 →
  (enqueue now pos mb m).2 = Err (Full (Mb.size mb) (max_capacity mb) (retry_after_ms mb))
  ∧ enqueue now' pos' mb' m = (mb', Ok ()).
Proof.
  intros Hk Hm Hs Hr Hbp Hfull [q Hq] Hnow Hm' Htn Hns Hst.
  assert (Henq : enqueue now pos mb m =
    (set_idempotency_store mb
       (Some (check_and_record now store (tenant_id mb) (namespace mb) (idempotency_key m)).1),
     Err (Full (Mb.size mb) (max_capacity mb) (retry_after_ms mb)))).
  { unfold enqueue. rewrite (proj1 Hk), Hm. cbn [negb andb]. rewrite (dedup_keyed _ _ _ _ Hk Hs).
    destruct (check_new _ _ _ _ _ Hr) as [Hfs _].
    destruct (check_and_record _ _ _ _ _) as [s1 r1]. simpl in Hfs. subst r1. cbn. rewrite Hq.
    unfold enqueue_fast, fast_send. cbn. apply Z.leb_le in Hfull. unfold Mb.size in Hfull.
    by rewrite Hfull, Hbp. }
  rewrite Henq in Hst |- *. cbn in Hst. split; [done|].
  eapply enqueue_remembered; [done | exact Hst | | done].
  rewrite Htn, Hns. by apply (check_new _ _ _ _ _ Hr).
Qed.

(** C20. At most once: when a keyed message is accepted below the capacity for the first time, it is appended once, and
    every retry of it within the lifetime of its key reports success and leaves the mailbox as it is, whatever the
    mailbox did in between: other messages, further retries, dequeues, acknowledgements, rounds of the processor, and
    the keys that other mailboxes look up and complete in the same store.  The store must not have been asked to
    record more other keys than it keeps beside one (for the in-memory store one less than its capacity), and
    nobody else may complete the key.  The store answers that the key is complete. *)
Theorem accepted_message_enqueued_once `{!Retention I} (now now' : Z) (pos pos' : nat) mb (m : ProtoMessage) (store : I)
    (es : list (Z * MbEvent)) :
  mb_wf mb → channel mb = None → keyed m → is_Some (data_tx mb) →
  idempotency_store mb = Some store → well_kept store →
  (check_and_record now store (tenant_id mb) (namespace mb) (idempotency_key m)).2 = Ok FirstSeen →
  Mb.size mb < max_capacity mb →
  Forall (λ e, within (idempotency_key m) (now + lifetime store (tenant_id mb) (namespace mb)) e.1 e.2) es →
  (length (List.filter (λ e, takes_room (idempotency_key m) e.2) es) <= spare_keys store)%nat →
  now' <= now + lifetime store (tenant_id mb) (namespace mb) →
  let '(mb1, r1) := enqueue now pos mb m in
  let mb2 := run_shared es mb1 in
  r1 = Ok () ∧ pending mb1 = pending mb ++ [m]
  ∧ enqueue now' pos' mb2 m = (mb2, Ok ())
  ∧ ∃ store2, idempotency_store mb2 = Some store2
    ∧ check_and_record now' store2 (tenant_id mb) (namespace mb) (idempotency_key m) = (store2, Ok (Duplicate None)).
Proof.
  intros Hwf Hch Hk [q Hq] Hs Hkept Hfirst Hlt Hes Hroom Hnow. pose proof Hwf as [Hm Hp Ha Hsz Hb Hpol].
  destruct (exec_wf now (OpEnqueue pos m) mb Hch Hwf) as [Hwf1 Hch1]. cbn [exec] in Hwf1, Hch1.
  pose proof (retained_first now store _ _ _ Hkept Hfirst) as Hret.
  unfold pending in Hsz. rewrite Hq in Hsz. unfold Mb.size in Hlt.
  destruct (check_and_record now store _ _ _) as [s1 r1] eqn:Hc. cbn in Hfirst, Hret. subst r1.
  assert (∃ mb1, enqueue now pos mb m = (mb1, Ok ()) ∧ pending mb1 = pending mb ++ [m] ∧
    tenant_id mb1 = tenant_id mb ∧ namespace mb1 = namespace mb ∧
    idempotency_store mb1 = Some (complete_record now s1 (tenant_id mb) (namespace mb) (idempotency_key m) None).1)
    as (mb1 & Heq & Hpend & Ht1 & Hn1 & Hs1).
  { unfold enqueue. rewrite (proj1 Hk), Hm. cbn [negb andb]. rewrite (dedup_keyed now mb m store Hk Hs), Hc.
    cbn [data_tx set_idempotency_store]. rewrite Hq. unfold enqueue_fast, fast_send. cbn.
    destruct (Z.leb_spec (max_capacity mb) (data_queue_size mb)); [lia|]. rewrite Ha. cbn [negb].
    destruct (Z.leb_spec (Z.max (max_capacity mb) 1) (Z.of_nat (length q))); [lia|]. cbn.
    eexists. split; [done|]. split; [unfold pending; by rewrite Hq|done]. }
  rewrite Heq in *. cbn [fst] in Hwf1, Hch1. cbv zeta. do 2 (split; [done|]).
  eapply (enqueue_kept _ _ (Some None) _ 0); [done|done| |exact Hnow].
  apply run_remembering; [|done|done]. split; [done..|]. eexists. split; [exact Hs1|].
  eapply retained_complete, retained_less; [exact Hret|exact Hroom].
Qed.

(** [DropOldest] on a priority mailbox drops a message of the highest priority: at the
    capacity, the message removed to make room is a greatest one of the heap, although the policy
    is documented to drop the oldest. *)
Theorem drop_oldest_drops_highest_priority (now : Z) (pos : nat) mb (m x : ProtoMessage)
    (h : list ProtoMessage) :
  plain m → is_in_memory mb = true → data_tx mb = None →
  internal_queue mb = Some (Priority (x :: h)) →
  mailbox_config_ordering (config mb) = OrderingPriority →
  mailbox_config_backpressure (config mb) = BackpressureDropOldest →
  max_capacity mb <= Mb.size mb →
  ∃ dropped rest, x :: h ≡ₚ dropped :: rest
    ∧ Forall (λ y, priority y <= priority dropped) rest
    ∧ enqueue now pos mb m = ((enqueue now pos mb m).1, Ok ())
    ∧ internal_queue (enqueue now pos mb m).1 = Some (Priority (m :: rest)).
Proof.
  intros Hpl Hm Htx Hq Hord Hbp Hfull. rewrite enqueue_plain by done. rewrite Htx, Hq.
  unfold enqueue_slow, drop_oldest. apply Z.leb_le in Hfull. unfold Mb.size in Hfull.
  rewrite Hfull, Hbp. cbn. rewrite Hord. cbn.
  destruct (heap_pop (x :: h)) as [[d rest]|] eqn:E; [|by apply heap_pop_none in E].
  apply heap_pop_some in E as [Hp Hmax]. by exists d, rest.
Qed.

(** [DropOldest] does not bound the mailbox: the background processor has moved the messages
    out of the queue that the policy pops, so a full FIFO mailbox to which [n] more messages are
    offered, each followed by a round of the processor, holds all of them; the counter stays at
    the capacity and [n] drops are reported that did not happen. *)
Theorem drop_oldest_does_not_bound (now : Z) (pos : nat) mb (ms : list ProtoMessage) :
  is_in_memory mb = true → receiver_alive mb = true → data_tx mb = None →
  internal_queue mb = Some (Queue []) →
  mailbox_config_ordering (config mb) = OrderingFifo →
  mailbox_config_backpressure (config mb) = BackpressureDropOldest →
  Mb.size mb = max_capacity mb → 0 < max_capacity mb <= u64_max →
  0 <= total_dropped mb <= u64_max →
  Forall plain ms →
  let mb' := foldl (λ mb m, process (enqueue now pos mb m).1) mb ms in
  pending mb' = pending mb ++ ms ∧ Mb.size mb' = max_capacity mb'
  ∧ max_capacity mb' = max_capacity mb
  ∧ total_dropped mb' = wrap 64 (total_dropped mb + Z.of_nat (length ms)).
Proof.
  intros Hm Ha Htx Hq Hord Hbp Hs Hmax Hd Hall. revert mb Hm Ha Htx Hq Hord Hbp Hs Hmax Hd.
  induction Hall as [|m ms Hpl Hall IH]; intros mb Hm Ha Htx Hq Hord Hbp Hs Hmax Hd.
  { cbn [foldl length]. rewrite app_nil_r, wrap_small by (unfold u64_max in *; lia).
    split_and!; lia || done. }
  cbn [foldl]. set (mb1 := process (enqueue now pos mb m).1).
  pose proof (drop_oldest_round now pos mb m Hpl Hm Ha Htx Hq Hord Hbp Hs Hmax) as H1.
  fold mb1 in H1.
  destruct H1 as (Hm1 & Ha1 & Htx1 & Hq1 & Hc1 & Hs1 & Hx1 & Hp1 & Hd1).
  assert (Hd1' : 0 <= total_dropped mb1 <= u64_max).
  { rewrite Hd1. pose proof (wrap_bound 64 (total_dropped mb + 1)). unfold u64_add, u64_max. lia. }
  unfold Mb.size in Hs. destruct (IH mb1) as (E1 & E2 & E3 & E4);
    [done | done | done | done | by rewrite Hc1 | by rewrite Hc1 | unfold Mb.size; congruence
    | by rewrite Hx1 | done |].
  split_and!; [| done | congruence |].
  - by rewrite E1, Hp1, <-(assoc (++)).
  - rewrite E4, Hd1. cbn [length]. unfold u64_add, wrap. rewrite Zplus_mod_idemp_l. f_equal. lia.
Qed.

(** The fast path counts a message after sending it: when the receiver takes a message between
    the [try_send] and the [fetch_add], the counter of an empty mailbox is 2^64 - 1 and a
    concurrent send is rejected as [Full], although nothing is queued. *)
Theorem fast_path_counter_underflow (now : Z) (pos : nat) mb (m m' : ProtoMessage) :
  data_tx mb = Some [] → Mb.size mb = 0 → 0 < max_capacity mb <= u64_max →
  receiver_alive mb = true → ctrl_channel mb = [] → is_in_memory mb = true →
  mailbox_config_backpressure (config mb) = BackpressureError → plain m' →
  let '(mb1, out) := fast_send mb [] m in
  let '(mb2, got) := dequeue mb1 in
  out = Sent ∧ got = Some m ∧ pending mb2 = []
  ∧ Mb.size mb2 = u64_max
  ∧ enqueue now pos mb2 m' = (mb2, Err (Full u64_max (max_capacity mb) (retry_after_ms mb)))
  ∧ Mb.size (fast_count mb2) = 0.
Proof.
  intros Htx Hs Hmax Ha Hc Hm Hbp Hpl. unfold Mb.size in Hs. unfold fast_send. rewrite Hs, Ha.
  destruct (Z.leb_spec (max_capacity mb) 0); [lia|]. cbn [negb length].
  destruct (Z.leb_spec (Z.max (max_capacity mb) 1) (Z.of_nat 0)); [lia|].
  unfold dequeue, ctrl_try_recv, data_try_recv. cbn. rewrite Hc. cbn.
  rewrite Hs. change (u64_sub 0 1) with u64_max.
  split_and!; try done. rewrite enqueue_plain by done. cbn.
  unfold enqueue_fast, fast_send. cbn. destruct (Z.leb_spec (max_capacity mb) u64_max); [|lia].
  rewrite Hbp. done.
Qed.

(** [Overwrite] has no effect on the fast path: two messages with the same key and the
    overwrite policy are both delivered, in order, although the policy is documented to remove the
    queued one. *)
Theorem overwrite_ignored_on_fast_path (now : Z) (pos : nat) mb (m : ProtoMessage) :
  mb_wf mb → is_Some (data_tx mb) → is_ctrl_message (message_type m) = false →
  idempotency_key m ≠ ""%string → conflict_resolution m = 1 → Mb.size mb < max_capacity mb →
  let '(mb', r) := enqueue now pos mb m in
  r = Ok () ∧ pending mb' = pending mb ++ [m].
Proof.
  intros Hwf [q Hq] Hc Hk Hcr Hlt. pose proof Hwf as [Hm Hp Ha Hs Hb Hpol].
  unfold pending in Hs. rewrite Hq in Hs, Hp. destruct (internal_queue mb) eqn:Ei; [done|].
  unfold enqueue. rewrite Hc, Hm. cbn [negb andb]. unfold dedup, overwrite, Mb.size in *.
  rewrite (bool_decide_eq_false_2 _ Hk), Hcr, Ei. cbn. rewrite Hq. unfold enqueue_fast, fast_send.
  destruct (Z.leb_spec (max_capacity mb) (data_queue_size mb)); [lia|]. rewrite Ha. cbn [negb].
  destruct (Z.leb_spec (Z.max (max_capacity mb) 1) (Z.of_nat (length q))); [lia|].
  cbn. split; [done|]. unfold pending. by rewrite Hq.
Qed.

End properties.

(** ** Witnesses

    A heap that pops the first of its greatest messages, and a channel that is a queue. *)

Fixpoint pop_max (h : list ProtoMessage) : option (ProtoMessage * list ProtoMessage) :=
  match h with
  | [] => None
  | x :: h =>
      match pop_max h with
      | None => Some (x, [])
      | Some (m, rest) => if priority m <=? priority x then Some (x, h) else Some (m, x :: rest)
      end
  end.
#[export] Instance list_heap : BinaryHeap := pop_max.

Lemma pop_max_spec h :
  match pop_max h with
  | None => h = []
  | Some (m, h') => h ≡ₚ m :: h' ∧ Forall (λ x, priority x <= priority m) h'
  end.
Proof.
  induction h as [|x h IH]; simpl; [done|]. destruct (pop_max h) as [[m rest]|].
  - destruct IH as [Hp Hmax]. destruct (Z.leb_spec (priority m) (priority x)).
    + split; [done|]. rewrite Hp. constructor; [done|].
      eapply Forall_impl; [exact Hmax|]. simpl. lia.
    + split; [by rewrite Hp, Permutation_swap|]. constructor; [lia | done].
  - by subst.
Qed.

#[export] Instance list_heap_laws : BinaryHeapLaws.
Proof.
  split; unfold heap_pop, list_heap; intros h.
  - pose proof (pop_max_spec h) as H. destruct (pop_max h) as [[m h']|]; [|done].
    destruct H as [Hp _]. split; [done|]. intros ->. by apply Permutation_nil_cons in Hp.
  - intros m h' E. pose proof (pop_max_spec h) as H. by rewrite E in H.
Qed.

#[export] Instance queue_channel : Channel (list ProtoMessage) := {|
  ch_send c m := (c ++ [m], Ok (msg_id m));
  ch_try_receive c n := (drop n c, Ok (take n c));
  ch_ack c _ := (c, Ok ());
  ch_nack c _ := (c, Ok ());
  ch_close c := (c, Ok ());
  ch_name _ := ""%string
|}.

Definition no_env : string → option Z := λ _, None.
Definition text (id key : string) (prio policy : Z) : ProtoMessage :=
  mkMsg id "" "cast" prio key policy ∅ [].
Definition TestMailbox : Type := Mailbox InMemoryIdempotencyStore (list ProtoMessage).
Definition new_mailbox (capacity backpressure ordering : Z) : result MailboxError TestMailbox :=
  Mb.new no_env (mkMailboxConfig capacity 0 0 backpressure ordering 0) "a" "t" "n"
    (Some (store_new 10 1000)) None (λ _, Err "none"%string).
Definition mailbox_or (r : result MailboxError TestMailbox) (ops : list (Z * MbOp)) : TestMailbox :=
  match r with
  | Ok mb => Mb.run ops mb
  | Err _ => mkMailbox mailbox_config_default None "" 0 None None [] [] false 0 0 0 0 0 "" "" None
               0 0 false 0
  end.
(** FIFO with capacity 2 and one message; priority with capacity 2, full; FIFO with [DropOldest],
    full, after the processor. *)
Definition fifo1 : TestMailbox :=
  mailbox_or (new_mailbox 2 1 1) [(0, OpEnqueue 0 (text "m1" "" 0 0))].
Definition prio2 : TestMailbox :=
  mailbox_or (new_mailbox 2 2 2)
    [(0, OpEnqueue 0 (text "low" "" 1 0)); (0, OpEnqueue 0 (text "high" "" 9 0))].
Definition dropping : TestMailbox :=
  mailbox_or (new_mailbox 1 2 1) [(0, OpEnqueue 0 (text "m1" "" 0 0)); (0, OpProcess)].

Example parse_i64_examples :
  parse_i64 "-12" = Some (-12) ∧ parse_i64 "+7" = Some 7 ∧ parse_i64 "" = None
  ∧ parse_i64 "1x" = None ∧ parse_i64 "9223372036854775808" = None.
Proof. by vm_compute. Qed.

Lemma fifo1_wf : mb_wf fifo1.
Proof. split; vm_compute; try done. Qed.

Lemma mailbox_size_invariant_witness :
  ∃ mb, new_mailbox 2 1 1 = Ok mb
    ∧ let mb' := Mb.run (replicate 3 (0, OpEnqueue 0 (text "m" "" 0 0))) mb in
      Mb.size mb' = Z.of_nat (length (pending mb')) ∧ Mb.size mb' <= max_capacity mb'.
Proof.
  eexists. split; [reflexivity|].
  apply (mailbox_size_invariant no_env (mkMailboxConfig 2 0 0 1 1 0) "a" "t" "n"
    (Some (store_new 10 1000)) (λ _, Err "none"%string)); vm_compute; try done.
Defined.

Lemma mailbox_refines_bounded_fifo_witness :
  (enqueue 0 0 fifo1 (text "m2" "" 0 0)).2 = Ok ()
  ∧ pending (enqueue 0 0 fifo1 (text "m2" "" 0 0)).1 = [text "m1" "" 0 0; text "m2" "" 0 0].
Proof.
  destruct (mailbox_refines_bounded_fifo 0 0 fifo1 (text "m2" "" 0 0)) as [[H1 [H2 _]] _];
    [exact fifo1_wf | split; reflexivity | reflexivity | reflexivity |].
  split; [exact H1 | exact H2].
Defined.

Lemma ctrl_messages_first_witness :
  (dequeue (enqueue 0 0 fifo1 (mkMsg "c" "" "__EXIT__" 0 "" 0 ∅ [])).1).2
    = Some (mkMsg "c" "" "__EXIT__" 0 "" 0 ∅ []).
Proof.
  exact (proj1 (proj2 (proj2 (proj2 (proj2
    (ctrl_messages_first 0 0 fifo1 (mkMsg "c" "" "__EXIT__" 0 "" 0 ∅ []) eq_refl eq_refl)))))).
Defined.

Lemma priority_drain_sorted_witness : ∃ msgs, local_channel (process prio2) = msgs
  ∧ StronglySorted (λ x y, priority y <= priority x) msgs.
Proof.
  destruct (priority_drain_sorted prio2 [text "high" "" 9 0; text "low" "" 1 0]
    eq_refl eq_refl eq_refl) as (msgs & H1 & _ & H2 & _).
  exists msgs. split; [exact H1 | exact H2].
Defined.

(** A full mailbox: the keyed message is rejected, then lost on retry after the mailbox is
    emptied. *)
Definition full1 : TestMailbox :=
  mailbox_or (new_mailbox 1 1 1) [(0, OpEnqueue 0 (text "m1" "" 0 0))].

Lemma rejected_message_is_lost_on_retry_witness :
  (enqueue 0 0 full1 (text "k" "key" 0 0)).2 = Err (Full 1 1 100)
  ∧ pending (enqueue 5 0 (dequeue (enqueue 0 0 full1 (text "k" "key" 0 0)).1).1
               (text "k" "key" 0 0)).1 = [].
Proof.
  destruct (rejected_message_is_lost_on_retry 0 5 0 0 full1
    (dequeue (enqueue 0 0 full1 (text "k" "key" 0 0)).1).1 (text "k" "key" 0 0)
    (store_new 10 1000)) as [H1 H2]; try reflexivity.
  - split; [reflexivity | split; discriminate].
  - intros [e He]. vm_compute in He. discriminate.
  - eexists. reflexivity.
  - vm_compute. discriminate.
  - split; [exact H1 | rewrite H2; reflexivity].
Defined.

(** A second key, a dequeue, a retry and a key of another mailbox come before the last retry. *)
Definition meanwhile : list (Z * MbEvent) :=
  [(1, Own (OpEnqueue 0 (text "other" "key2" 0 0))); (2, Own OpDequeue); (3, Own (OpEnqueue 0 (text "k" "key" 0 0)));
   (4, Shared "t" "n" "foreign")].
Lemma accepted_message_enqueued_once_witness :
  let mb2 := run_shared meanwhile (enqueue 0 0 fifo1 (text "k" "key" 0 0)).1 in
  pending mb2 = [text "k" "key" 0 0] ∧ enqueue 5 0 mb2 (text "k" "key" 0 0) = (mb2, Ok ()).
Proof.
  split; [vm_compute; reflexivity|].
  refine (proj1 (proj2 (proj2 (accepted_message_enqueued_once 0 5 0 0 fifo1 (text "k" "key" 0 0)
    (store_new 10 1000) meanwhile fifo1_wf _ _ _ _ _ _ _ _ _ _)))).
  - reflexivity.
  - split; [reflexivity | split; discriminate].
  - eexists. reflexivity.
  - reflexivity.
  - cbn. apply map_Forall_empty.
  - reflexivity.
  - vm_compute. reflexivity.
  - repeat constructor; vm_compute; done.
  - vm_compute. lia.
  - vm_compute. discriminate.
Defined.

Lemma drop_oldest_drops_highest_priority_witness : ∃ rest,
  internal_queue (enqueue 0 0 prio2 (text "new" "" 0 0)).1 = Some (Priority (text "new" "" 0 0 :: rest))
  ∧ [text "high" "" 9 0; text "low" "" 1 0] ≡ₚ text "high" "" 9 0 :: rest.
Proof.
  destruct (drop_oldest_drops_highest_priority 0 0 prio2 (text "new" "" 0 0) (text "high" "" 9 0)
    [text "low" "" 1 0]) as (d & rest & Hp & Hmax & _ & Hq); try reflexivity.
  - split; reflexivity.
  - exists rest. split; [exact Hq|]. vm_compute in Hq. injection Hq as <-. reflexivity.
Defined.

Lemma drop_oldest_does_not_bound_witness :
  pending (foldl (λ mb m, process (enqueue 0 0 mb m).1) dropping
             [text "m2" "" 0 0; text "m3" "" 0 0])
    = [text "m1" "" 0 0; text "m2" "" 0 0; text "m3" "" 0 0].
Proof.
  refine (proj1 (drop_oldest_does_not_bound 0 0 dropping [text "m2" "" 0 0; text "m3" "" 0 0]
    _ _ _ _ _ _ _ _ _ _)); try reflexivity.
  - vm_compute. split; [reflexivity | discriminate].
  - vm_compute. split; discriminate.
  - repeat constructor.
Defined.

Definition empty1 : TestMailbox := mailbox_or (new_mailbox 1 1 1) [].
Definition empty2 : TestMailbox := mailbox_or (new_mailbox 2 1 1) [].
Lemma one2_wf : mb_wf (enqueue 0 0 empty2 (text "x" "key" 0 1)).1.
Proof. split; vm_compute; done. Qed.

Lemma fast_path_counter_underflow_witness :
  Mb.size (dequeue (fast_send empty1 [] (text "m" "" 0 0)).1).1 = u64_max.
Proof.
  refine (proj1 (proj2 (proj2 (proj2 (fast_path_counter_underflow 0 0 empty1 (text "m" "" 0 0)
    (text "m2" "" 0 0) _ _ _ _ _ _ _ _))))); try reflexivity.
  - vm_compute. split; [reflexivity | discriminate].
  - split; reflexivity.
Defined.

Lemma overwrite_ignored_on_fast_path_witness :
  pending (enqueue 0 0 (enqueue 0 0 empty2 (text "x" "key" 0 1)).1 (text "y" "key" 0 1)).1
    = [text "x" "key" 0 1; text "y" "key" 0 1].
Proof.
  exact (proj2 (overwrite_ignored_on_fast_path 0 0 (enqueue 0 0 empty2 (text "x" "key" 0 1)).1
    (text "y" "key" 0 1) one2_wf (ex_intro _ _ eq_refl) eq_refl ltac:(discriminate) eq_refl eq_refl)).
Defined.
