(* ===== verification/Locks.v ===== *)
(** Locks: the lock manager trait of crates/locks/src/manager.rs and its in-memory implementation,
    crates/locks/src/memory.rs.

    A [SystemTime] is a number of nanoseconds; an operation takes the time [now] that it reads and
    the fresh [Ulid] it draws as the new version.  [acquire_lock], [release_lock] and [get_lock]
    hold the mutex of the table to their end and are one step.  [renew_lock] validates under the
    mutex, releases it, waits for the permit of the lock's semaphore, and updates under the mutex
    again: three steps, between which other operations may run. *)
From S2P Require Import Prelude.

(** ** Data *)

(** The key of a lock: tenant, namespace, lock key. *)
Abbreviation LockKey := (string * string * string)%type.

Record LockEntry := mkEntry {
  holder_id : string;
  version : string;
  expires_at : Z;
  lease_duration_secs : Z;
  last_heartbeat : Z;
  locked : bool;
  entry_metadata : gmap string string;
  (** the identity of the semaphore with one permit *)
  semaphore : nat
}.

Record Lock := mkLock {
  l_lock_key : string;
  l_holder_id : string;
  l_version : string;
  l_expires_at : Z;
  l_lease_duration_secs : Z;
  l_last_heartbeat : Z;
  l_metadata : gmap string string;
  l_locked : bool
}.

Record AcquireLockOptions := mkAcquire {
  a_lock_key : string; a_holder_id : string; a_lease_duration_secs : Z;
  a_metadata : gmap string string
}.
Record RenewLockOptions := mkRenew {
  r_lock_key : string; r_holder_id : string; r_version : string; r_lease_duration_secs : Z;
  r_metadata : gmap string string
}.
Record ReleaseLockOptions := mkRelease {
  u_lock_key : string; u_holder_id : string; u_version : string; u_delete_lock : bool
}.

Inductive LockError :=
| LockNotFound (key : string)
| LockAlreadyHeld (holder : string)
| LockNotHeld (msg : string)
| LockExpired (key : string)
| VersionMismatch (expected actual : string)
| InvalidKey (msg : string)
| InvalidHolderId (holder : string)
| BackendError (msg : string)
| SerializationError (msg : string)
| DeserializationError (msg : string)
| ConfigError (msg : string)
| IOError (msg : string).

(** The table, the semaphores whose permit is taken, and the next fresh semaphore. *)
Record MemoryLockManager := mkManager {
  locks : gmap LockKey LockEntry;
  taken : gset nat;
  next_semaphore : nat
}.

Module Lk.

Definition new : MemoryLockManager := mkManager ∅ ∅ 0.
Definition set_locks (st : MemoryLockManager) (l : gmap LockKey LockEntry) : MemoryLockManager :=
  mkManager l (taken st) (next_semaphore st).

Definition lock_to_proto (lock_key : string) (e : LockEntry) : Lock :=
  mkLock lock_key (holder_id e) (version e) (expires_at e) (lease_duration_secs e)
    (last_heartbeat e) (entry_metadata e) (locked e).

Definition lease_end (now secs : Z) : Z := now + secs * 1000000000.

Definition expired (now : Z) (e : LockEntry) : bool := (expires_at e <=? now) || negb (locked e).

Definition acquire_lock (now : Z) (ulid : string) (st : MemoryLockManager)
    (tenant namespace : string) (o : AcquireLockOptions)
    : MemoryLockManager * result LockError Lock :=
  let key := (tenant, namespace, a_lock_key o) in
  match locks st !! key with
  | Some e =>
      if negb (expired now e) && negb (bool_decide (holder_id e = a_holder_id o))
      then (st, Err (LockAlreadyHeld (holder_id e)))
      else if negb (expired now e) && bool_decide (holder_id e = a_holder_id o)
      then (st, Ok (lock_to_proto (a_lock_key o) e))
      else
        let e' := mkEntry (a_holder_id o) ulid (lease_end now (a_lease_duration_secs o))
                    (a_lease_duration_secs o) now true (a_metadata o) (semaphore e) in
        (set_locks st (<[key := e']> (locks st)), Ok (lock_to_proto (a_lock_key o) e'))
  | None =>
      let e' := mkEntry (a_holder_id o) ulid (lease_end now (a_lease_duration_secs o))
                  (a_lease_duration_secs o) now true (a_metadata o) (next_semaphore st) in
      (mkManager (<[key := e']> (locks st)) (taken st) (S (next_semaphore st)),
       Ok (lock_to_proto (a_lock_key o) e'))
  end.

(** The validation of [renew_lock]: the semaphore and the holder that it clones. *)
Definition renew_check (now : Z) (st : MemoryLockManager) (tenant namespace : string)
    (o : RenewLockOptions) : result LockError (nat * string) :=
  match locks st !! (tenant, namespace, r_lock_key o) with
  | None => Err (LockNotFound (r_lock_key o))
  | Some e =>
      if negb (bool_decide (holder_id e = r_holder_id o)) then Err (InvalidHolderId (holder_id e))
      else if expired now e then Err (LockExpired (r_lock_key o))
      else Ok (semaphore e, holder_id e)
  end.

(** [semaphore.acquire().await]: [None] while the permit is taken. *)
Definition renew_permit (st : MemoryLockManager) (sem : nat) : option MemoryLockManager :=
  if bool_decide (sem ∈ taken st) then None
  else Some (mkManager (locks st) ({[sem]} ∪ taken st) (next_semaphore st)).

(** The update of [renew_lock], and the drop of the permit. *)
Definition renew_update (now : Z) (ulid : string) (st : MemoryLockManager)
    (tenant namespace : string) (o : RenewLockOptions) (sem : nat) (holder : string)
    : MemoryLockManager * result LockError Lock :=
  let e' := mkEntry holder ulid (lease_end now (r_lease_duration_secs o))
              (r_lease_duration_secs o) now true (r_metadata o) sem in
  (mkManager (<[(tenant, namespace, r_lock_key o) := e']> (locks st)) (taken st ∖ {[sem]})
     (next_semaphore st), Ok (lock_to_proto (r_lock_key o) e')).

(** A renewal that nothing interleaves with; [None] when it has to wait for the permit. *)
Definition renew_lock (now : Z) (ulid : string) (st : MemoryLockManager)
    (tenant namespace : string) (o : RenewLockOptions)
    : option (MemoryLockManager * result LockError Lock) :=
  match renew_check now st tenant namespace o with
  | Err e => Some (st, Err e)
  | Ok (sem, holder) =>
      st ← renew_permit st sem; Some (renew_update now ulid st tenant namespace o sem holder)
  end.

Definition release_lock (st : MemoryLockManager) (tenant namespace : string)
    (o : ReleaseLockOptions) : MemoryLockManager * result LockError () :=
  let key := (tenant, namespace, u_lock_key o) in
  match locks st !! key with
  | None => (st, Err (LockNotFound (u_lock_key o)))
  | Some e =>
      if negb (bool_decide (holder_id e = u_holder_id o))
      then (st, Err (InvalidHolderId (holder_id e)))
      else if negb (bool_decide (version e = u_version o))
      then (st, Err (VersionMismatch (version e) (u_version o)))
      else if u_delete_lock o then (set_locks st (delete key (locks st)), Ok ())
      else
        let e' := mkEntry (holder_id e) (version e) (expires_at e) (lease_duration_secs e)
                    (last_heartbeat e) false (entry_metadata e) (semaphore e) in
        (set_locks st (<[key := e']> (locks st)), Ok ())
  end.

Definition get_lock (st : MemoryLockManager) (tenant namespace lock_key : string)
    : result LockError (option Lock) :=
  Ok (lock_to_proto lock_key <$> locks st !! (tenant, namespace, lock_key)).

(** ** Runs of the operations *)

Inductive LockOp :=
| Acquire (o : AcquireLockOptions) | Renew (o : RenewLockOptions)
| Release (o : ReleaseLockOptions) | GetLock (lock_key : string).
Definition op_holder (op : LockOp) : option string :=
  match op with
  | Acquire o => Some (a_holder_id o) | Renew o => Some (r_holder_id o)
  | Release o => Some (u_holder_id o) | GetLock _ => None
  end.
Definition op_lock_key (op : LockOp) : string :=
  match op with
  | Acquire o => a_lock_key o | Renew o => r_lock_key o | Release o => u_lock_key o
  | GetLock k => k
  end.

(** An event of a run: an operation of a tenant and namespace, at a time, with a fresh version. *)
Record LockEvent := mkEvent {
  ev_now : Z; ev_ulid : string; ev_tenant : string; ev_namespace : string; ev_op : LockOp
}.
Definition exec (ev : LockEvent) (st : MemoryLockManager) : MemoryLockManager :=
  match ev_op ev with
  | Acquire o => (acquire_lock (ev_now ev) (ev_ulid ev) st (ev_tenant ev) (ev_namespace ev) o).1
  | Renew o =>
      from_option fst st
        (renew_lock (ev_now ev) (ev_ulid ev) st (ev_tenant ev) (ev_namespace ev) o)
  | Release o => (release_lock st (ev_tenant ev) (ev_namespace ev) o).1
  | GetLock _ => st
  end.
Definition run (evs : list LockEvent) (st : MemoryLockManager) : MemoryLockManager :=
  foldl (λ st ev, exec ev st) st evs.

(** [h] holds the lock [k] with entry [e] at time [now]. *)
Definition holds (st : MemoryLockManager) (now : Z) (k : LockKey) (h : string) (e : LockEntry)
    : Prop :=
  locks st !! k = Some e ∧ holder_id e = h ∧ expired now e = false.

(** ** Lemmas *)

Lemma expired_false now e : expired now e = false ↔ now < expires_at e ∧ locked e = true.
Proof.
  unfold expired. rewrite orb_false_iff, Z.leb_gt, negb_false_iff. done.
Qed.

(** An operation touches only the entry of its own key. *)
Lemma exec_frame ev st k :
  k ≠ (ev_tenant ev, ev_namespace ev, op_lock_key (ev_op ev)) →
  locks (exec ev st) !! k = locks st !! k.
Proof.
  intros Hk. unfold exec. destruct (ev_op ev) as [o|o|o|key]; simpl in *; [| | |done].
  - unfold acquire_lock. destruct (locks st !! _); simpl.
    + destruct (_ && _); [done|]. destruct (_ && _); [done|]. by apply lookup_insert_ne.
    + by apply lookup_insert_ne.
  - unfold renew_lock. destruct (renew_check _ _ _ _ _) as [[sem h]|]; [|done].
    unfold renew_permit. case_bool_decide; [done|]. simpl. by apply lookup_insert_ne.
  - unfold release_lock. destruct (locks st !! _); [|done].
    destruct (negb _); [done|]. destruct (negb _); [done|].
    destruct (u_delete_lock o); simpl; [by apply lookup_delete_ne | by apply lookup_insert_ne].
Qed.

(** An operation of another holder during the lease changes nothing. *)
Lemma exec_other ev st now k h e :
  holds st now k h e → ev_now ev = now → op_holder (ev_op ev) ≠ Some h →
  locks (exec ev st) !! k = Some e.
Proof.
  intros (He & Hh & Hx) Hnow Hop. subst now.
  destruct (decide (k = (ev_tenant ev, ev_namespace ev, op_lock_key (ev_op ev)))) as [Hk|Hk];
    [|by rewrite exec_frame].
  unfold exec. destruct (ev_op ev) as [o|o|o|key]; simpl in *; [| | |done].
  - unfold acquire_lock. cbv zeta. rewrite <-Hk. rewrite He, Hx. cbn [negb andb].
    rewrite bool_decide_eq_false_2 by congruence. done.
  - unfold renew_lock, renew_check. rewrite <-Hk, He.
    rewrite bool_decide_eq_false_2 by congruence. done.
  - unfold release_lock. cbv zeta. rewrite <-Hk, He.
    rewrite bool_decide_eq_false_2 by congruence. done.
Qed.

End Lk.

Import Lk.

(** ** Properties *)

(** C15. Mutual exclusion: while a lease is valid, no run of operations of other holders (acquire,
    uninterrupted renew, release with any version, of any tenant) changes the lock: its entry
    stays as it is, and every attempt of another holder to acquire it is refused with the name of
    the holder. *)
Theorem lease_is_exclusive (evs : list LockEvent) (st : MemoryLockManager) (k : LockKey)
    (h : string) (e : LockEntry) (now : Z) :
  holds st now k h e →
  Forall (λ ev, ev_now ev < expires_at e ∧ op_holder (ev_op ev) ≠ Some h) evs →
  locks (Lk.run evs st) !! k = Some e
  ∧ ∀ now' ulid o, now' < expires_at e → a_holder_id o ≠ h →
      k = (k.1.1, k.1.2, a_lock_key o) →
      acquire_lock now' ulid (Lk.run evs st) k.1.1 k.1.2 o
        = (Lk.run evs st, Err (LockAlreadyHeld h)).
Proof.
  intros Hh Hevs. assert (Hl : locks (Lk.run evs st) !! k = Some e).
  { revert st Hh. induction Hevs as [|ev evs [Hev Hop] _ IH]; intros st Hh; [apply Hh|].
    simpl. apply IH. destruct Hh as (He & Hhol & Hx). apply expired_false in Hx as [? Hlk].
    split; [|split; [done | by apply expired_false]].
    eapply exec_other; [|done|done]. split; [done|]. split; [done | by apply expired_false]. }
  split; [done|]. intros now' ulid o Hn Ho Hk. unfold acquire_lock. cbv zeta. rewrite <-Hk, Hl.
  destruct Hh as (_ & <- & Hx). apply expired_false in Hx as [_ Hlk].
  rewrite (proj2 (expired_false now' e)) by done. cbn [negb andb].
  rewrite bool_decide_eq_false_2 by congruence. done.
Qed.

(** Acquire on every branch: it fails exactly when another holder's lease is valid; the
    holder of a valid lease gets the existing lock, whose lease it does not extend; otherwise the
    lock is granted with a new version and a lease from now, and the lock table then shows it;
    locks with another key are not touched. *)
Theorem acquire_lock_spec (now : Z) (ulid tenant namespace : string) (st : MemoryLockManager)
    (o : AcquireLockOptions) :
  let k := (tenant, namespace, a_lock_key o) in
  let st' := (acquire_lock now ulid st tenant namespace o).1 in
  let r := (acquire_lock now ulid st tenant namespace o).2 in
  (∀ h e, holds st now k h e →
     st' = st ∧ r = if bool_decide (h = a_holder_id o)
                    then Ok (lock_to_proto (a_lock_key o) e) else Err (LockAlreadyHeld h))
  ∧ ((∀ e, locks st !! k = Some e → expired now e = true) →
     ∃ e, holder_id e = a_holder_id o ∧ version e = ulid ∧ locked e = true
       ∧ expires_at e = now + a_lease_duration_secs o * 1000000000
       ∧ r = Ok (lock_to_proto (a_lock_key o) e) ∧ locks st' = <[k := e]> (locks st)
       ∧ get_lock st' tenant namespace (a_lock_key o) = Ok (Some (lock_to_proto (a_lock_key o) e))).
Proof.
  cbv zeta. unfold acquire_lock, get_lock. split.
  - intros h e (He & Hh & Hx). rewrite He, Hx, Hh. cbn [negb andb].
    by destruct (bool_decide (h = a_holder_id o)).
  - intros Hx. destruct (locks st !! _) as [e|].
    + rewrite (Hx e eq_refl). cbn [negb andb].
      exists (mkEntry (a_holder_id o) ulid (lease_end now (a_lease_duration_secs o))
        (a_lease_duration_secs o) now true (a_metadata o) (semaphore e)).
      cbn. by rewrite lookup_insert_eq.
    + exists (mkEntry (a_holder_id o) ulid (lease_end now (a_lease_duration_secs o))
        (a_lease_duration_secs o) now true (a_metadata o) (next_semaphore st)).
      cbn. by rewrite lookup_insert_eq.
Qed.

(** Release on every branch: only the holder with the current version releases; a release
    removes the entry or keeps it unlocked, and in both cases any holder can acquire the lock
    next; every other attempt fails with the documented error and changes nothing. *)
Theorem release_lock_spec (st : MemoryLockManager) (tenant namespace : string)
    (o : ReleaseLockOptions) (now : Z) (ulid : string) (o' : AcquireLockOptions) :
  a_lock_key o' = u_lock_key o →
  let k := (tenant, namespace, u_lock_key o) in
  let '(st', r) := release_lock st tenant namespace o in
  match locks st !! k with
  | None => st' = st ∧ r = Err (LockNotFound (u_lock_key o))
  | Some e =>
      if bool_decide (holder_id e ≠ u_holder_id o) then st' = st ∧ r = Err (InvalidHolderId (holder_id e))
      else if bool_decide (version e ≠ u_version o)
      then st' = st ∧ r = Err (VersionMismatch (version e) (u_version o))
      else r = Ok () ∧ (if u_delete_lock o then locks st' !! k = None
                        else ∃ e', locks st' !! k = Some e' ∧ locked e' = false)
           ∧ is_ok (acquire_lock now ulid st' tenant namespace o').2 = true
  end.
Proof.
  intros Hkey. cbv zeta. unfold release_lock, acquire_lock. rewrite Hkey.
  destruct (locks st !! (tenant, namespace, u_lock_key o)) as [e|]; [|done].
  rewrite !bool_decide_not. destruct (negb (bool_decide (holder_id e = u_holder_id o))); [done|].
  destruct (negb (bool_decide (version e = u_version o))); [done|].
  destruct (u_delete_lock o); cbn.
  - by rewrite lookup_delete_eq.
  - rewrite lookup_insert_eq. unfold expired. cbn. rewrite orb_true_r. cbn. split_and!; eauto.
Qed.

(** An uninterrupted renewal on every branch: it fails when there is no lock, when another
    holder has it or when its lease has expired, and then changes nothing; otherwise the lease is
    extended from now under a new version.  The version that the caller gives is not validated:
    the renewal succeeds for a stale one too, although the trait documents that it is refused with
    [VersionMismatch]. *)
Theorem renew_lock_spec (now : Z) (ulid tenant namespace : string) (st : MemoryLockManager)
    (o : RenewLockOptions) :
  let k := (tenant, namespace, r_lock_key o) in
  match locks st !! k with
  | None => renew_lock now ulid st tenant namespace o = Some (st, Err (LockNotFound (r_lock_key o)))
  | Some e =>
      if bool_decide (holder_id e ≠ r_holder_id o)
      then renew_lock now ulid st tenant namespace o = Some (st, Err (InvalidHolderId (holder_id e)))
      else if expired now e
      then renew_lock now ulid st tenant namespace o = Some (st, Err (LockExpired (r_lock_key o)))
      else if bool_decide (semaphore e ∈ taken st)
      then renew_lock now ulid st tenant namespace o = None
      else ∃ st' e', renew_lock now ulid st tenant namespace o
             = Some (st', Ok (lock_to_proto (r_lock_key o) e'))
           ∧ locks st' = <[k := e']> (locks st) ∧ taken st' = taken st
           ∧ holder_id e' = r_holder_id o ∧ version e' = ulid ∧ locked e' = true
           ∧ expires_at e' = now + r_lease_duration_secs o * 1000000000
  end.
Proof.
  cbv zeta. unfold renew_lock, renew_check.
  destruct (locks st !! _) as [e|]; [|done]. rewrite bool_decide_not.
  destruct (bool_decide (holder_id e = r_holder_id o)) eqn:Eh; cbn [negb]; [|done].
  destruct (expired now e); [done|]. unfold renew_permit.
  destruct (bool_decide (semaphore e ∈ taken st)) eqn:Es; [done|].
  apply bool_decide_eq_true in Eh. apply bool_decide_eq_false in Es.
  eexists _, (mkEntry (holder_id e) ulid (lease_end now (r_lease_duration_secs o))
    (r_lease_duration_secs o) now true (r_metadata o) (semaphore e)).
  split; [done|]. cbn. split_and!; try done. set_solver.
Qed.

(** A renewal can steal the lock from its new holder: when the lease expires between the
    validation of a renewal and its update and another holder acquires the lock in between, that
    acquire succeeds, the renewal succeeds too, and the lock then belongs to the old holder while
    the new holder's lease is still valid. *)
Theorem renew_breaks_mutual_exclusion (st : MemoryLockManager) (tenant namespace h1 : string)
    (e : LockEntry) (o1 : RenewLockOptions) (o2 : AcquireLockOptions)
    (t1 t2 t3 : Z) (u2 u3 : string) :
  holds st t1 (tenant, namespace, r_lock_key o1) h1 e →
  r_holder_id o1 = h1 → a_lock_key o2 = r_lock_key o1 → a_holder_id o2 ≠ h1 →
  semaphore e ∉ taken st →
  expires_at e <= t2 → t2 <= t3 → t3 < lease_end t2 (a_lease_duration_secs o2) →
  0 < r_lease_duration_secs o1 →
  renew_check t1 st tenant namespace o1 = Ok (semaphore e, h1)
  ∧ ∃ lock2 st3 lock1,
      let st2 := (acquire_lock t2 u2 st tenant namespace o2).1 in
      (acquire_lock t2 u2 st tenant namespace o2).2 = Ok lock2
      ∧ l_holder_id lock2 = a_holder_id o2 ∧ t3 < l_expires_at lock2
      ∧ renew_permit st2 (semaphore e) = Some st3
      ∧ (renew_update t3 u3 st3 tenant namespace o1 (semaphore e) h1).2 = Ok lock1
      ∧ ∃ e', holds (renew_update t3 u3 st3 tenant namespace o1 (semaphore e) h1).1 t3
               (tenant, namespace, r_lock_key o1) h1 e'.
Proof.
  intros (He & Hh & Hx) Hr Hk Hne Hsem H2 H23 H3 Hsecs. split.
  { unfold renew_check. rewrite He, Hh, Hr, Hx. by rewrite bool_decide_eq_true_2. }
  unfold acquire_lock. rewrite Hk, He.
  assert (Hexp : expired t2 e = true).
  { unfold expired. apply Z.leb_le in H2. by rewrite H2. }
  rewrite Hexp. cbn [negb andb]. unfold renew_permit. cbn [taken set_locks fst snd].
  rewrite bool_decide_eq_false_2 by done.
  do 3 eexists. split; [done|]. cbn. split_and!; [done | done | done | done |].
  eexists. split; [apply lookup_insert_eq|]. split; [done|].
  apply expired_false. cbn. unfold lease_end. split; [lia | done].
Qed.

(** ** Witnesses *)

Definition acquire_a : AcquireLockOptions := mkAcquire "job" "a" 10 ∅.
Definition acquire_b : AcquireLockOptions := mkAcquire "job" "b" 10 ∅.
Definition held_by_a : MemoryLockManager := (acquire_lock 0 "v1" Lk.new "t" "n" acquire_a).1.
Definition entry_a : LockEntry := mkEntry "a" "v1" 10000000000 10 0 true ∅ 0.

Lemma held_by_a_holds : holds held_by_a 5 ("t", "n", "job")%string "a" entry_a.
Proof. split_and!; reflexivity. Qed.

Lemma lease_is_exclusive_witness :
  locks (Lk.run [mkEvent 6 "v2" "t" "n" (Acquire acquire_b);
                 mkEvent 7 "v3" "t" "n" (Release (mkRelease "job" "b" "v1" true))] held_by_a)
    !! ("t", "n", "job")%string = Some entry_a.
Proof.
  refine (proj1 (lease_is_exclusive _ _ _ "a" entry_a 5 held_by_a_holds _)).
  repeat constructor; discriminate.
Defined.

Lemma release_lock_spec_witness :
  is_ok (acquire_lock 1 "v2" (release_lock held_by_a "t" "n" (mkRelease "job" "a" "v1" false)).1
           "t" "n" acquire_b).2 = true.
Proof.
  exact (proj2 (proj2 (release_lock_spec held_by_a "t" "n" (mkRelease "job" "a" "v1" false) 1 "v2"
    acquire_b eq_refl))).
Defined.

Lemma renew_breaks_mutual_exclusion_witness :
  ∃ lock2, (acquire_lock 10000000000 "v2" held_by_a "t" "n" acquire_b).2 = Ok lock2
    ∧ l_holder_id lock2 = "b"%string ∧ 10000000001 < l_expires_at lock2.
Proof.
  destruct (renew_breaks_mutual_exclusion held_by_a "t" "n" "a" entry_a
    (mkRenew "job" "a" "v1" 10 ∅) acquire_b 5 10000000000 10000000001 "v2" "v3" held_by_a_holds)
    as [_ (lock2 & _ & _ & H1 & H2 & H3 & _)]; try reflexivity.
  - discriminate.
  - apply not_elem_of_empty.
  - discriminate.
  - exists lock2. split; [exact H1 | split; [exact H2 | exact H3]].
Defined.
