(* ===== verification/Swim.v ===== *)
(** Swim: the membership protocol of crates/services/src/node_registry/swim.rs.

    An [Instant] and a [Duration] are numbers of nanoseconds; an operation takes the time [now] at
    which it runs.  An operation is the composition of its critical sections (on the members and on
    the queue of updates), as one task executes them.  The iteration order of the member table is
    the order of [map_to_list].  The natural logarithm of the C library is the argument [ln]. *)
From S2P Require Import Prelude.

(** ** Members *)

Inductive NodeState := Alive | Suspect | Dead | Left.
#[export] Instance NodeState_eq_dec : EqDecision NodeState.
Proof. solve_decision. Defined.

Definition is_active (s : NodeState) : bool :=
  match s with Alive | Suspect => true | _ => false end.
Definition state_priority (s : NodeState) : Z :=
  match s with Alive => 0 | Suspect => 1 | Dead => 2 | Left => 3 end.

Record SwimMember := mkMember {
  node_id : string;
  address : string;
  state : NodeState;
  incarnation : Z;
  state_changed_at : Z;
  failed_probes : Z;
  last_probe_success : option Z;
  metadata : gmap string string
}.

Definition SwimMember_new (now : Z) (id addr : string) : SwimMember :=
  mkMember id addr Alive 0 now 0 (Some now) ∅.
Definition with_metadata (m : SwimMember) (md : gmap string string) : SwimMember :=
  mkMember (node_id m) (address m) (state m) (incarnation m) (state_changed_at m)
    (failed_probes m) (last_probe_success m) md.
Definition should_reap (now reap_timeout : Z) (m : SwimMember) : bool :=
  (match state m with Dead | Left => true | _ => false end)
  && (reap_timeout <? now - state_changed_at m).

Definition set_state (m : SwimMember) (s : NodeState) (changed_at : Z) : SwimMember :=
  mkMember (node_id m) (address m) s (incarnation m) changed_at (failed_probes m)
    (last_probe_success m) (metadata m).
Definition set_incarnation (m : SwimMember) (i : Z) : SwimMember :=
  mkMember (node_id m) (address m) (state m) i (state_changed_at m) (failed_probes m)
    (last_probe_success m) (metadata m).
Definition set_address (m : SwimMember) (a : string) : SwimMember :=
  mkMember (node_id m) a (state m) (incarnation m) (state_changed_at m) (failed_probes m)
    (last_probe_success m) (metadata m).

Definition update_state (now : Z) (m : SwimMember) (new_state : NodeState) (new_incarnation : Z)
    : SwimMember * bool :=
  if incarnation m <? new_incarnation then
    let m := set_incarnation m new_incarnation in
    (if bool_decide (state m ≠ new_state) then set_state m new_state now else m, true)
  else if (new_incarnation =? incarnation m) && (state_priority (state m) <? state_priority new_state)
  then (set_state m new_state now, true)
  else (m, false).

Definition refute (now : Z) (m : SwimMember) : SwimMember :=
  mkMember (node_id m) (address m) Alive (u64_add (incarnation m) 1) now 0
    (last_probe_success m) (metadata m).
Definition record_probe_success (now : Z) (m : SwimMember) : SwimMember :=
  let m := mkMember (node_id m) (address m) (state m) (incarnation m) (state_changed_at m) 0
             (Some now) (metadata m) in
  if bool_decide (state m = Suspect) then set_state m Alive now else m.
Definition record_probe_failure (m : SwimMember) : SwimMember :=
  mkMember (node_id m) (address m) (state m) (incarnation m) (state_changed_at m)
    (u32_sat_add (failed_probes m) 1) (last_probe_success m) (metadata m).

(** ** Exponential backoff with decorrelated jitter *)

Record ExponentialBackoff := mkBackoff {
  base : Z; cap : Z; current : Z; attempt : Z; max_attempts : Z
}.
Definition millis (ns : Z) : Z := ns / 1000000.
Definition from_millis (ms : Z) : Z := ms * 1000000.
Definition with_params (base cap max_attempts : Z) : ExponentialBackoff :=
  mkBackoff base cap base 0 max_attempts.
Definition ExponentialBackoff_new : ExponentialBackoff :=
  with_params (from_millis 100) (from_millis 30000) 10.
Definition is_exhausted (b : ExponentialBackoff) : bool :=
  (0 <? max_attempts b) && (max_attempts b <=? attempt b).
(** [draw lo hi] is the random number of [gen_range(lo..=hi)]. *)
Definition next_backoff (draw : Z → Z → Z) (b : ExponentialBackoff)
    : ExponentialBackoff * option Z :=
  if (0 <? max_attempts b) && (max_attempts b <=? attempt b) then (b, None)
  else
    let min_sleep := as_u64 (millis (base b)) in
    let max_sleep := u64_sat_mul (as_u64 (millis (current b))) 3 in
    let jittered := if min_sleep <? max_sleep then draw min_sleep max_sleep else min_sleep in
    let c := Z.min (from_millis jittered) (cap b) in
    (mkBackoff (base b) (cap b) c (u32_add (attempt b) 1) (max_attempts b), Some c).
Definition backoff_reset (b : ExponentialBackoff) : ExponentialBackoff :=
  mkBackoff (base b) (cap b) (base b) 0 (max_attempts b).

(** ** Membership updates and configuration *)

Record MembershipUpdate := mkUpdate {
  up_node_id : string;
  up_state : NodeState;
  up_incarnation : Z;
  up_address : option string;
  created_at : Z;
  broadcast_count : Z
}.
Definition MembershipUpdate_new (now : Z) (id : string) (s : NodeState) (i : Z) : MembershipUpdate :=
  mkUpdate id s i None now 0.
Definition with_address (u : MembershipUpdate) (a : string) : MembershipUpdate :=
  mkUpdate (up_node_id u) (up_state u) (up_incarnation u) (Some a) (created_at u) (broadcast_count u).
Definition should_drop (max_broadcasts : Z) (u : MembershipUpdate) : bool :=
  max_broadcasts <=? broadcast_count u.

Record SwimConfig := mkSwimConfig {
  protocol_period : Z;
  suspicion_mult : Z;
  suspicion_min : Z;
  suspicion_max : Z;
  dead_node_reap_timeout : Z;
  max_piggyback_updates : nat;
  broadcast_limit : Z;
  indirect_ping_nodes : nat
}.
Definition SwimConfig_default : SwimConfig :=
  mkSwimConfig (from_millis 1000) 4 (from_millis 3000) (from_millis 30000) (from_millis 300000)
    10 5 3.

Definition log_n (ln : f64 → f64) (cluster_size : Z) : f64 :=
  f64_max (ln (f64_of_Z (cluster_size + 1))) (f64_of_Z 1).
Definition suspicion_timeout (ln : f64 → f64) (c : SwimConfig) (cluster_size : Z) : Z :=
  let timeout_ms := f64_mul (f64_mul (f64_of_Z (suspicion_mult c)) (log_n ln cluster_size))
                      (f64_of_Z (millis (protocol_period c))) in
  Z.min (Z.max (from_millis (f64_as_u64 timeout_ms)) (suspicion_min c)) (suspicion_max c).
Definition effective_broadcast_limit (ln : f64 → f64) (c : SwimConfig) (cluster_size : Z) : Z :=
  f64_ceil_as_unsigned u32_max (f64_mul (f64_of_Z (broadcast_limit c)) (log_n ln cluster_size)).

(** ** The protocol *)

(** The names of the atomic counters. *)
Inductive Stat :=
| DirectPings | DirectPingSuccess | DirectPingFailed | IndirectPings | IndirectPingSuccess
| IndirectPingFailed | Suspicions | Deaths | Joins | Leaves | Reaps | Refutations
| UpdatesBroadcast | UpdatesReceived | AntiEntropySyncs | RoundsCompleted.
#[export] Instance Stat_eq_dec : EqDecision Stat.
Proof. solve_decision. Defined.
Definition SwimStats : Type := Stat → Z.
Definition fetch_add (s : SwimStats) (k : Stat) (n : Z) : SwimStats :=
  λ k', if decide (k' = k) then u64_add (s k) n else s k'.

Record SwimProtocol := mkSwim {
  local_node_id : string;
  local_address : string;
  local_incarnation : Z;
  members : gmap string SwimMember;
  updates_queue : list MembershipUpdate;
  config : SwimConfig;
  probe_sequence : Z;
  running : bool;
  stats : SwimStats
}.

Module Sw.

Definition new (id addr : string) (c : SwimConfig) : SwimProtocol :=
  mkSwim id addr 0 ∅ [] c 0 false (λ _, 0).
Definition set_members (p : SwimProtocol) (m : gmap string SwimMember) : SwimProtocol :=
  mkSwim (local_node_id p) (local_address p) (local_incarnation p) m (updates_queue p) (config p)
    (probe_sequence p) (running p) (stats p).
Definition set_queue (p : SwimProtocol) (q : list MembershipUpdate) : SwimProtocol :=
  mkSwim (local_node_id p) (local_address p) (local_incarnation p) (members p) q (config p)
    (probe_sequence p) (running p) (stats p).
Definition count (p : SwimProtocol) (k : Stat) (n : Z) : SwimProtocol :=
  mkSwim (local_node_id p) (local_address p) (local_incarnation p) (members p) (updates_queue p)
    (config p) (probe_sequence p) (running p) (fetch_add (stats p) k n).

Definition increment_incarnation (p : SwimProtocol) : SwimProtocol * Z :=
  let new_inc := u64_add (local_incarnation p) 1 in
  (count (mkSwim (local_node_id p) (local_address p) new_inc (members p) (updates_queue p)
            (config p) (probe_sequence p) (running p) (stats p)) Refutations 1, new_inc).

(** The first update of the same node is replaced when the new one is not older, otherwise the
    update is appended. *)
Fixpoint replace_update (q : list MembershipUpdate) (u : MembershipUpdate)
    : list MembershipUpdate :=
  match q with
  | [] => [u]
  | x :: q =>
      if bool_decide (up_node_id x = up_node_id u)
      then (if up_incarnation x <=? up_incarnation u then u else x) :: q
      else x :: replace_update q u
  end.
(** [while queue.len() > max_size { queue.remove(0); }] *)
Fixpoint limit_queue (max_size : nat) (q : list MembershipUpdate) : list MembershipUpdate :=
  match q with
  | x :: q' => if (max_size <? length q)%nat then limit_queue max_size q' else q
  | [] => []
  end.
Definition queue_update (p : SwimProtocol) (u : MembershipUpdate) : SwimProtocol :=
  set_queue p (limit_queue (max_piggyback_updates (config p) * 2)
                 (replace_update (updates_queue p) u)).

Definition upsert_member (now : Z) (p : SwimProtocol) (m : SwimMember) : SwimProtocol :=
  let update := with_address (MembershipUpdate_new now (node_id m) (state m) (incarnation m))
                  (address m) in
  match members p !! node_id m with
  | Some existing =>
      if incarnation existing <? incarnation m
      then queue_update (set_members p (<[node_id m := m]> (members p))) update
      else p
  | None =>
      let p := count p Joins 1 in
      queue_update (set_members p (<[node_id m := m]> (members p))) update
  end.

Definition get_member (p : SwimProtocol) (id : string) : option SwimMember := members p !! id.
Definition member_list (p : SwimProtocol) : list SwimMember := (map_to_list (members p)).*2.
Definition alive_members (p : SwimProtocol) : list SwimMember :=
  List.filter (λ m, bool_decide (state m = Alive)) (member_list p).
Definition active_members (p : SwimProtocol) : list SwimMember :=
  List.filter (λ m, is_active (state m)) (member_list p).
Definition cluster_size (p : SwimProtocol) : Z := Z.of_nat (length (active_members p)) + 1.
Definition member_counts (p : SwimProtocol) (s : NodeState) : Z :=
  Z.of_nat (length (List.filter (λ m, bool_decide (state m = s)) (member_list p))).

Definition suspect_member (now : Z) (p : SwimProtocol) (id : string) : SwimProtocol :=
  match members p !! id with
  | Some m =>
      if bool_decide (state m = Alive) then
        let p := set_members p (<[id := set_state m Suspect now]> (members p)) in
        queue_update (count p Suspicions 1) (MembershipUpdate_new now id Suspect (incarnation m))
      else p
  | None => p
  end.

Definition declare_dead (now : Z) (p : SwimProtocol) (id : string) : SwimProtocol :=
  match members p !! id with
  | Some m =>
      if bool_decide (state m ≠ Dead) && bool_decide (state m ≠ Left) then
        let p := set_members p (<[id := set_state m Dead now]> (members p)) in
        queue_update (count p Deaths 1) (MembershipUpdate_new now id Dead (incarnation m))
      else p
  | None => p
  end.

Definition remove_member_silently (p : SwimProtocol) (id : string) : SwimProtocol :=
  set_members p (delete id (members p)).

Definition process_alive (now : Z) (p : SwimProtocol) (id : string) (inc : Z) (addr : string)
    : SwimProtocol :=
  let p :=
    match members p !! id with
    | Some m =>
        let '(m', updated) := update_state now m Alive inc in
        let m' := if updated then record_probe_success now (set_address m' addr) else m' in
        set_members p (<[id := m']> (members p))
    | None =>
        let m := set_incarnation (SwimMember_new now id addr) inc in
        count (set_members p (<[id := m]> (members p))) Joins 1
    end in
  count p UpdatesReceived 1.

Definition process_suspect (now : Z) (p : SwimProtocol) (id : string) (inc : Z) : SwimProtocol :=
  if bool_decide (id = local_node_id p) then
    let '(p, new_incarnation) := increment_incarnation p in
    queue_update p (with_address
      (MembershipUpdate_new now (local_node_id p) Alive new_incarnation) (local_address p))
  else
    let p :=
      match members p !! id with
      | Some m => set_members p (<[id := (update_state now m Suspect inc).1]> (members p))
      | None => p
      end in
    count p UpdatesReceived 1.

(** Thin nodes are not probed; [key] and [thin] are the constants of the parent module. *)
Definition SWIM_NODE_TYPE_KEY : string := "node_type".
Definition SWIM_NODE_TYPE_THIN : string := "thin".
Definition is_thin (m : SwimMember) : bool :=
  bool_decide (metadata m !! SWIM_NODE_TYPE_KEY = Some SWIM_NODE_TYPE_THIN).

Definition select_probe_target (p : SwimProtocol) : SwimProtocol * option SwimMember :=
  let active := List.filter (λ m, is_active (state m) && bool_decide (node_id m ≠ local_node_id p)
                                  && negb (is_thin m)) (member_list p) in
  match active with
  | [] => (p, None)
  | _ =>
      let idx := Z.to_nat (probe_sequence p mod Z.of_nat (length active)) in
      (mkSwim (local_node_id p) (local_address p) (local_incarnation p) (members p)
         (updates_queue p) (config p) (u64_add (probe_sequence p) 1) (running p) (stats p),
       active !! idx)
  end.

(** [shuffled] is the random permutation of the candidates. *)
Definition select_indirect_targets (shuffle : list SwimMember → list SwimMember)
    (p : SwimProtocol) (exclude : string) : list SwimMember :=
  take (indirect_ping_nodes (config p))
    (shuffle (List.filter (λ m, bool_decide (state m = Alive)
       && bool_decide (node_id m ≠ local_node_id p) && bool_decide (node_id m ≠ exclude)
       && negb (is_thin m)) (member_list p))).

Definition check_suspect_timeouts (ln : f64 → f64) (now : Z) (p : SwimProtocol) : SwimProtocol :=
  let timeout := suspicion_timeout ln (config p) (cluster_size p) in
  let to_declare_dead :=
    node_id <$> List.filter (λ m, bool_decide (state m = Suspect)
                                  && (timeout <? now - state_changed_at m)) (member_list p) in
  foldl (declare_dead now) p to_declare_dead.

Definition reap_dead_nodes (now : Z) (p : SwimProtocol) : SwimProtocol :=
  let kept := filter (λ kv : string * SwimMember,
                should_reap now (dead_node_reap_timeout (config p)) kv.2 = false) (members p) in
  let reaped := Z.of_nat (size (members p)) - Z.of_nat (size kept) in
  let p := set_members p kept in
  if 0 <? reaped then count p Reaps reaped else p.

Definition get_piggyback_updates (ln : f64 → f64) (p : SwimProtocol)
    : SwimProtocol * list MembershipUpdate :=
  let limit := effective_broadcast_limit ln (config p) (cluster_size p) in
  let updates := take (max_piggyback_updates (config p))
                   (List.filter (λ u, negb (should_drop limit u)) (updates_queue p)) in
  let sent u := existsb (λ x, bool_decide (up_node_id x = up_node_id u)) updates in
  let bump u := if sent u then mkUpdate (up_node_id u) (up_state u) (up_incarnation u)
                  (up_address u) (created_at u) (u32_add (broadcast_count u) 1) else u in
  let n := Z.of_nat (length (List.filter sent (updates_queue p))) in
  let queue := bump <$> updates_queue p in
  (set_queue (count p UpdatesBroadcast n) (List.filter (λ u, negb (should_drop limit u)) queue),
   updates).

Definition apply_update (now : Z) (p : SwimProtocol) (u : MembershipUpdate) : SwimProtocol :=
  match up_state u with
  | Alive =>
      match up_address u with
      | Some addr => process_alive now p (up_node_id u) (up_incarnation u) addr
      | None => p
      end
  | Suspect => process_suspect now p (up_node_id u) (up_incarnation u)
  | Dead => declare_dead now p (up_node_id u)
  | Left =>
      match members p !! up_node_id u with
      | Some m =>
          count (set_members p (<[up_node_id u := (update_state now m Left (up_incarnation u)).1]>
                                  (members p))) Leaves 1
      | None => p
      end
  end.
Definition apply_updates (now : Z) (p : SwimProtocol) (us : list MembershipUpdate) : SwimProtocol :=
  foldl (apply_update now) p us.

Definition get_full_state (p : SwimProtocol) : list SwimMember := member_list p.

Definition merge_member (now : Z) (p : SwimProtocol) (remote : SwimMember) : SwimProtocol :=
  if bool_decide (node_id remote = local_node_id p) then p
  else
    match members p !! node_id remote with
    | Some local =>
        if incarnation local <? incarnation remote
        then set_members p (<[node_id remote := remote]> (members p))
        else if incarnation remote =? incarnation local then
          if state_priority (state local) <? state_priority (state remote)
          then set_members p (<[node_id remote := set_state local (state remote) now]> (members p))
          else p
        else p
    | None =>
        if is_active (state remote)
        then set_members p (<[node_id remote := remote]> (members p)) else p
    end.
Definition merge_full_state (now : Z) (p : SwimProtocol) (remote : list SwimMember) : SwimProtocol :=
  count (foldl (merge_member now) p remote) AntiEntropySyncs 1.

Definition start (p : SwimProtocol) (b : bool) : SwimProtocol :=
  mkSwim (local_node_id p) (local_address p) (local_incarnation p) (members p) (updates_queue p)
    (config p) (probe_sequence p) b (stats p).
Definition record_direct_ping (p : SwimProtocol) (success : bool) : SwimProtocol :=
  count (count p DirectPings 1) (if success then DirectPingSuccess else DirectPingFailed) 1.
Definition record_indirect_ping (p : SwimProtocol) (success : bool) : SwimProtocol :=
  count (count p IndirectPings 1) (if success then IndirectPingSuccess else IndirectPingFailed) 1.

Record SwimHealthStatus := mkHealth {
  is_running : bool; h_local_incarnation : Z; total_members : Z; alive_count : Z;
  suspect_count : Z; dead_count : Z
}.
Definition health_status (p : SwimProtocol) : SwimHealthStatus :=
  let a := member_counts p Alive in
  let s := member_counts p Suspect in
  let d := member_counts p Dead in
  mkHealth (running p) (local_incarnation p) (a + s + d) a s d.

(** ** Runs *)

Inductive SwimOp :=
| Upsert (m : SwimMember) | SuspectMember (id : string) | DeclareDead (id : string)
| RemoveSilently (id : string) | ApplyUpdates (us : list MembershipUpdate)
| MergeFullState (remote : list SwimMember) | CheckTimeouts | Reap | Piggyback.

Definition exec (ln : f64 → f64) (now : Z) (op : SwimOp) (p : SwimProtocol) : SwimProtocol :=
  match op with
  | Upsert m => upsert_member now p m
  | SuspectMember id => suspect_member now p id
  | DeclareDead id => declare_dead now p id
  | RemoveSilently id => remove_member_silently p id
  | ApplyUpdates us => apply_updates now p us
  | MergeFullState remote => merge_full_state now p remote
  | CheckTimeouts => check_suspect_timeouts ln now p
  | Reap => reap_dead_nodes now p
  | Piggyback => (get_piggyback_updates ln p).1
  end.

(** What other members compare: the incarnation, then the severity of the state. *)
Definition view (m : SwimMember) : Z * Z := (incarnation m, state_priority (state m)).

(** The members are stored under their identifiers; the queue is bounded and holds at most one
    update per node. *)
Record wf (p : SwimProtocol) : Prop := {
  wf_keys : map_Forall (λ id m, node_id m = id) (members p);
  wf_queue : NoDup (up_node_id <$> updates_queue p);
  wf_bound : (length (updates_queue p) <= max_piggyback_updates (config p) * 2)%nat
}.

(** No member that is still there has lost incarnations. *)
Definition incarnations_grow (p p' : SwimProtocol) : Prop :=
  ∀ id m m', members p !! id = Some m → members p' !! id = Some m' →
    incarnation m <= incarnation m'.

(** ** Lemmas: the state of a member *)

Lemma state_priority_inj s s' : state_priority s = state_priority s' → s = s'.
Proof. by destruct s, s'. Qed.

Lemma view_inj m m' : view m = view m' → incarnation m = incarnation m' ∧ state m = state m'.
Proof. intros [= ? ?]. split; [done | by apply state_priority_inj]. Qed.

Lemma update_state_view now m s i :
  view (update_state now m s i).1 = ord_max (view m) (i, state_priority s).
Proof.
  unfold update_state, view, ord_max, cmp, prod_Ord, cmp, Z_Ord. simpl.
  destruct (Z.ltb_spec (incarnation m) i) as [Hlt|Hge].
  - rewrite (proj2 (Z.compare_lt_iff _ _) Hlt). simpl.
    case_bool_decide as Hs; simpl; [done|]. by rewrite Hs.
  - destruct (Z.eqb_spec i (incarnation m)) as [->|Hne]; simpl.
    + rewrite Z.compare_refl.
      destruct (Z.ltb_spec (state_priority (state m)) (state_priority s)) as [Hp|Hp]; simpl.
      * by rewrite (proj2 (Z.compare_lt_iff _ _) Hp).
      * destruct (Z.compare_spec (state_priority (state m)) (state_priority s)); try done; [|lia].
        congruence.
    + rewrite (proj2 (Z.compare_gt_iff (incarnation m) i)) by lia. done.
Qed.

Lemma ord_max_fst (x y : Z * Z) : x.1 <= (ord_max x y).1 ∧ y.1 <= (ord_max x y).1.
Proof.
  unfold ord_max, cmp, prod_Ord, cmp, Z_Ord. destruct (Z.compare_spec x.1 y.1);
    [destruct (Z.compare_spec x.2 y.2) | |]; lia.
Qed.

Lemma update_state_incarnation now m s i :
  incarnation m <= incarnation (update_state now m s i).1
  ∧ node_id (update_state now m s i).1 = node_id m.
Proof.
  split.
  - pose proof (ord_max_fst (view m) (i, state_priority s)) as [H _].
    rewrite <-(update_state_view now) in H. done.
  - unfold update_state. by repeat case_match.
Qed.

(** ** Lemmas: the queue of updates *)

Lemma replace_update_ids q u :
  up_node_id <$> replace_update q u =
    (up_node_id <$> q) ++ (if decide (up_node_id u ∈ up_node_id <$> q) then [] else [up_node_id u]).
Proof.
  induction q as [|x q IH]; [done|]. cbn [replace_update]. case_bool_decide as Hx.
  - rewrite decide_True by (rewrite fmap_cons, Hx; by left). rewrite app_nil_r.
    destruct (_ <=? _); rewrite !fmap_cons; congruence.
  - rewrite !fmap_cons, IH. cbn [app]. f_equal. f_equal.
    destruct (decide (up_node_id u ∈ up_node_id <$> q)) as [Hin|Hin].
    + by rewrite decide_True by (by right).
    + rewrite decide_False; [done|]. intros [?|?]%elem_of_cons; congruence.
Qed.

Lemma limit_queue_spec n q : ∃ k, limit_queue n q = drop k q ∧ (length (limit_queue n q) <= n)%nat.
Proof.
  induction q as [|x q IH]; [exists 0%nat; simpl; split; [done | lia]|]. cbn [limit_queue].
  destruct (Nat.ltb_spec n (length (x :: q))).
  - destruct IH as (k & -> & ?). by exists (S k).
  - by exists 0%nat.
Qed.

Lemma queue_update_wf p u : wf p → wf (queue_update p u).
Proof.
  intros [Hk Hq Hb]. unfold queue_update.
  destruct (limit_queue_spec (max_piggyback_updates (config p) * 2) (replace_update (updates_queue p) u))
    as (k & Hl & Hlen).
  split; simpl; [done | | done]. rewrite Hl, fmap_drop, replace_update_ids.
  eapply sublist_NoDup; [|apply sublist_drop].
  case_decide; [by rewrite app_nil_r|]. apply NoDup_app. split; [done|].
  split; [|apply NoDup_singleton]. intros x Hx ->%list_elem_of_singleton. done.
Qed.

Lemma set_members_wf p m :
  wf p → map_Forall (λ id m, node_id m = id) m → wf (set_members p m).
Proof. intros [Hk Hq Hb] Hm. by split. Qed.

Lemma insert_member_wf p id m : wf p → node_id m = id → wf (set_members p (<[id := m]> (members p))).
Proof. intros Hwf Hid. apply set_members_wf; [done|]. apply map_Forall_insert_2; [done|apply Hwf]. Qed.

Lemma count_wf p k n : wf p → wf (count p k n).
Proof. intros []. by split. Qed.

Lemma wf_key p id m : wf p → members p !! id = Some m → node_id m = id.
Proof. intros Hwf. apply (wf_keys _ Hwf). Qed.

(** ** Lemmas: every operation preserves the invariant and lets incarnations grow *)

Definition grows (p p' : SwimProtocol) : Prop :=
  ∀ id m, members p !! id = Some m →
    ∃ m', members p' !! id = Some m' ∧ incarnation m <= incarnation m'.

#[export] Instance grows_preorder : PreOrder grows.
Proof.
  split.
  - intros p id m Hm. by exists m.
  - intros p1 p2 p3 H12 H23 id m Hm. destruct (H12 id m Hm) as (m2 & H2 & ?).
    destruct (H23 id m2 H2) as (m3 & H3 & ?). exists m3. split; [done | lia].
Qed.

Lemma grows_same p p' : members p' = members p → grows p p'.
Proof. intros Heq id m Hm. exists m. by rewrite Heq. Qed.

Lemma grows_insert p p' id m :
  members p' = <[id := m]> (members p) →
  (∀ m0, members p !! id = Some m0 → incarnation m0 <= incarnation m) → grows p p'.
Proof.
  intros Heq Hle i m0 Hm0. rewrite Heq, lookup_insert. case_decide as Hi.
  - subst i. exists m. split; [done | by apply Hle].
  - by exists m0.
Qed.

Lemma upsert_ok now p m : wf p → wf (upsert_member now p m) ∧ grows p (upsert_member now p m).
Proof.
  intros Hwf. unfold upsert_member. destruct (members p !! node_id m) as [e|] eqn:E.
  - destruct (Z.ltb_spec (incarnation e) (incarnation m)); [|done]. split.
    + by apply queue_update_wf, insert_member_wf.
    + eapply grows_insert; [done|]. intros m0 Hm0. simplify_eq. lia.
  - split.
    + apply queue_update_wf, (insert_member_wf (count p Joins 1)); [by apply count_wf | done].
    + eapply grows_insert; [done|]. congruence.
Qed.

Lemma suspect_ok now p id : wf p → wf (suspect_member now p id) ∧ grows p (suspect_member now p id).
Proof.
  intros Hwf. unfold suspect_member. destruct (members p !! id) as [m|] eqn:E; [|done].
  case_bool_decide; [|done]. split.
  - apply queue_update_wf, count_wf, insert_member_wf; [done|]. exact (wf_key _ _ _ Hwf E).
  - eapply grows_insert; [done|]. intros m0 Hm0. simplify_eq. simpl. lia.
Qed.

Lemma declare_dead_ok now p id : wf p → wf (declare_dead now p id) ∧ grows p (declare_dead now p id).
Proof.
  intros Hwf. unfold declare_dead. destruct (members p !! id) as [m|] eqn:E; [|done].
  destruct (_ && _); [|done]. split.
  - apply queue_update_wf, count_wf, insert_member_wf; [done|]. exact (wf_key _ _ _ Hwf E).
  - eapply grows_insert; [done|]. intros m0 Hm0. simplify_eq. simpl. lia.
Qed.

Lemma process_alive_ok now p id i a :
  wf p → wf (process_alive now p id i a) ∧ grows p (process_alive now p id i a).
Proof.
  intros Hwf. unfold process_alive. destruct (members p !! id) as [m|] eqn:E.
  - pose proof (update_state_incarnation now m Alive i) as [Hi Hn].
    destruct (update_state now m Alive i) as [m' b]. simpl in Hi, Hn.
    assert (Hm' : ∀ m2, m2 = (if b then record_probe_success now (set_address m' a) else m') →
      incarnation m <= incarnation m2 ∧ node_id m2 = node_id m).
    { intros m2 ->. destruct b; [|done]. unfold record_probe_success. by case_bool_decide. }
    destruct (Hm' _ eq_refl) as [Hi2 Hn2]. split.
    + apply count_wf, insert_member_wf; [done|]. rewrite Hn2. exact (wf_key _ _ _ Hwf E).
    + eapply grows_insert; [done|]. intros m0 Hm0. by simplify_eq.
  - split.
    + by apply count_wf, count_wf, insert_member_wf.
    + eapply grows_insert; [done|]. congruence.
Qed.

Lemma process_suspect_ok now p id i :
  wf p → wf (process_suspect now p id i) ∧ grows p (process_suspect now p id i).
Proof.
  intros Hwf. unfold process_suspect. case_bool_decide.
  - split; [|by apply grows_same]. apply queue_update_wf, count_wf. destruct Hwf. by split.
  - destruct (members p !! id) as [m|] eqn:E.
    + pose proof (update_state_incarnation now m Suspect i) as [Hi Hn]. split.
      * apply count_wf, insert_member_wf; [done|]. rewrite Hn. exact (wf_key _ _ _ Hwf E).
      * eapply grows_insert; [done|]. intros m0 Hm0. by simplify_eq.
    + split; [by apply count_wf | by apply grows_same].
Qed.

Lemma apply_update_ok now p u : wf p → wf (apply_update now p u) ∧ grows p (apply_update now p u).
Proof.
  intros Hwf. unfold apply_update. destruct (up_state u).
  - destruct (up_address u); [by apply process_alive_ok | done].
  - by apply process_suspect_ok.
  - by apply declare_dead_ok.
  - destruct (members p !! up_node_id u) as [m|] eqn:E; [|done].
    pose proof (update_state_incarnation now m Left (up_incarnation u)) as [Hi Hn]. split.
    + apply count_wf, insert_member_wf; [done|]. rewrite Hn. exact (wf_key _ _ _ Hwf E).
    + eapply grows_insert; [done|]. intros m0 Hm0. by simplify_eq.
Qed.

Lemma merge_member_ok now p m : wf p → wf (merge_member now p m) ∧ grows p (merge_member now p m).
Proof.
  intros Hwf. unfold merge_member. case_bool_decide; [done|].
  destruct (members p !! node_id m) as [l|] eqn:E.
  - destruct (Z.ltb_spec (incarnation l) (incarnation m)).
    + split; [by apply insert_member_wf|].
      eapply grows_insert; [done|]. intros m0 Hm0. simplify_eq. lia.
    + destruct (incarnation m =? incarnation l); [|done]. destruct (_ <? _); [|done]. split.
      * apply insert_member_wf; [done|]. exact (wf_key _ _ _ Hwf E).
      * eapply grows_insert; [done|]. intros m0 Hm0. simplify_eq. simpl. lia.
  - destruct (is_active _); [|done]. split; [by apply insert_member_wf|].
    eapply grows_insert; [done|]. congruence.
Qed.

Lemma foldl_ok {A} (f : SwimProtocol → A → SwimProtocol) l p :
  (∀ p x, wf p → wf (f p x) ∧ grows p (f p x)) → wf p →
  wf (foldl f p l) ∧ grows p (foldl f p l).
Proof.
  intros Hf. revert p. induction l as [|x l IH]; intros p Hwf; simpl; [done|].
  destruct (Hf p x Hwf) as [Hw Hg]. destruct (IH _ Hw) as [? ?]. split; [done | by etrans].
Qed.

Lemma filter_queue_wf p f :
  wf p → NoDup (up_node_id <$> f) → (length f <= length (updates_queue p))%nat → wf (set_queue p f).
Proof. intros [Hk Hq Hb] Hnd Hlen. split; simpl; [done | done | lia]. Qed.

Lemma piggyback_wf ln p : wf p → wf (get_piggyback_updates ln p).1.
Proof.
  intros Hwf. unfold get_piggyback_updates. cbn [fst].
  match goal with |- context [fmap ?b (updates_queue p)] => set (bump := b) end.
  assert (Hb : up_node_id <$> (bump <$> updates_queue p) = up_node_id <$> updates_queue p).
  { rewrite <-list_fmap_compose. apply list_fmap_ext. intros i u _. unfold bump. simpl. by case_match. }
  apply filter_queue_wf.
  - by apply count_wf.
  - eapply (sublist_NoDup _ (up_node_id <$> (bump <$> updates_queue p))).
    + rewrite Hb. apply (wf_queue _ Hwf).
    + apply fmap_sublist. generalize (bump <$> updates_queue p). clear.
      intros l. induction l as [|u l IH]; simpl; [constructor|].
      destruct (negb _); [by constructor | by constructor].
  - etrans; [apply List.filter_length_le|]. by rewrite length_fmap.
Qed.

Lemma swim_exec_wf ln now op p : wf p → wf (exec ln now op p).
Proof.
  intros Hwf. destruct op as [m|id|id|id|us|ms| | |]; cbn [exec].
  - by apply upsert_ok.
  - by apply suspect_ok.
  - by apply declare_dead_ok.
  - apply set_members_wf; [done|]. apply map_Forall_delete, (wf_keys _ Hwf).
  - apply foldl_ok; [|done]. intros. by apply apply_update_ok.
  - apply count_wf, foldl_ok; [|done]. intros. by apply merge_member_ok.
  - apply foldl_ok; [|done]. intros. by apply declare_dead_ok.
  - unfold reap_dead_nodes. case_match; [apply count_wf|]; apply set_members_wf; try done;
      intros id m [Hm _]%map_lookup_filter_Some; by apply (wf_key _ _ _ Hwf).
  - by apply piggyback_wf.
Qed.

Lemma grows_incarnations p p' : grows p p' → incarnations_grow p p'.
Proof. intros Hg id m m' Hm Hm'. destruct (Hg id m Hm) as (m2 & ? & ?). by simplify_eq. Qed.

Lemma exec_incarnations ln now op p : wf p → incarnations_grow p (exec ln now op p).
Proof.
  intros Hwf. destruct op as [m|id|id|id|us|ms| | |]; cbn [exec].
  - by apply grows_incarnations, upsert_ok.
  - by apply grows_incarnations, suspect_ok.
  - by apply grows_incarnations, declare_dead_ok.
  - intros i m m' Hm Hm'. unfold remove_member_silently in Hm'. simpl in Hm'.
    apply lookup_delete_Some in Hm' as [_ Hm']. by simplify_eq.
  - apply grows_incarnations, foldl_ok; [|done]. intros. by apply apply_update_ok.
  - apply grows_incarnations. etrans; [|by apply grows_same]. apply foldl_ok; [|done].
    intros. by apply merge_member_ok.
  - apply grows_incarnations, foldl_ok; [|done]. intros. by apply declare_dead_ok.
  - intros i m m' Hm Hm'. unfold reap_dead_nodes in Hm'.
    assert (members p !! i = Some m') as Heq.
    { case_match; simpl in Hm'; by apply map_lookup_filter_Some in Hm' as [? _]. }
    by simplify_eq.
  - apply grows_incarnations. by apply grows_same.
Qed.

(** ** Lemmas: anti-entropy *)

Lemma merge_member_lookup_ne now p r id :
  id ≠ node_id r → members (merge_member now p r) !! id = members p !! id.
Proof.
  intros Hne. unfold merge_member. case_bool_decide; [done|].
  repeat case_match; try done; by apply lookup_insert_ne.
Qed.

Lemma merge_member_view now p r l :
  node_id r ≠ local_node_id p → members p !! node_id r = Some l →
  view <$> members (merge_member now p r) !! node_id r = Some (ord_max (view l) (view r)).
Proof.
  intros Hne Hl. unfold merge_member. rewrite bool_decide_eq_false_2 by done. rewrite Hl.
  unfold ord_max, view, cmp, prod_Ord, cmp, Z_Ord. simpl.
  destruct (Z.ltb_spec (incarnation l) (incarnation r)).
  - rewrite (proj2 (Z.compare_lt_iff _ _)) by done. simpl. by rewrite lookup_insert_eq.
  - destruct (Z.eqb_spec (incarnation r) (incarnation l)) as [Heq|Hneq].
    + rewrite Heq, Z.compare_refl.
      destruct (Z.ltb_spec (state_priority (state l)) (state_priority (state r))) as [Hp|Hp].
      * rewrite (proj2 (Z.compare_lt_iff _ _) Hp). simpl. by rewrite lookup_insert_eq.
      * rewrite Hl. simpl. unfold view.
        destruct (Z.compare_spec (state_priority (state l)) (state_priority (state r))) as [Hp2| |];
          try done; try lia. congruence.
    + rewrite (proj2 (Z.compare_gt_iff (incarnation l) (incarnation r))) by lia.
      by rewrite Hl.
Qed.

Lemma merge_foldl_frame now p rs :
  local_node_id (foldl (merge_member now) p rs) = local_node_id p
  ∧ ∀ id, id ∉ node_id <$> rs → members (foldl (merge_member now) p rs) !! id = members p !! id.
Proof.
  revert p. induction rs as [|r rs IH]; intros p; simpl; [done|].
  assert (Hl : local_node_id (merge_member now p r) = local_node_id p).
  { unfold merge_member. by repeat case_match. }
  destruct (IH (merge_member now p r)) as [-> Hf]. split; [done|].
  intros id [Hne Hin]%not_elem_of_cons. by rewrite Hf, merge_member_lookup_ne.
Qed.

(** The fold meets each remote member once. *)
Lemma merge_foldl_lookup now p rs r :
  NoDup (node_id <$> rs) → r ∈ rs → 
  members (foldl (merge_member now) p rs) !! node_id r
    = members (merge_member now p r) !! node_id r.
Proof.
  revert p. induction rs as [|x rs IH]; intros p Hnd Hin; [by apply not_elem_of_nil in Hin|].
  apply NoDup_cons in Hnd as [Hx Hnd]. simpl.
  assert (Hl : local_node_id (merge_member now p x) = local_node_id p).
  { unfold merge_member. by repeat case_match. }
  apply elem_of_cons in Hin as [->|Hin].
  - by rewrite (proj2 (merge_foldl_frame now _ rs)).
  - rewrite IH by done. assert (Hne : node_id r ≠ node_id x).
    { intros Heq. apply Hx. rewrite <-Heq. apply list_elem_of_fmap. by exists r. }
    unfold merge_member at 1 3. rewrite Hl, merge_member_lookup_ne by done.
    repeat case_match; simpl; rewrite ?lookup_insert_eq; try done; by rewrite merge_member_lookup_ne.
Qed.

Lemma member_list_spec p : wf p →
  NoDup (node_id <$> member_list p)
  ∧ ∀ r, r ∈ member_list p ↔ members p !! node_id r = Some r.
Proof.
  intros Hwf. unfold member_list.
  assert (Hk : node_id <$> (map_to_list (members p)).*2 = (map_to_list (members p)).*1).
  { rewrite <-list_fmap_compose. apply list_fmap_ext. intros i [id m] Hi. simpl.
    apply (wf_keys _ Hwf). apply elem_of_map_to_list. by eapply list_elem_of_lookup_2. }
  rewrite Hk. split; [apply NoDup_fst_map_to_list|]. intros r. rewrite list_elem_of_fmap. split.
  - intros ([id m] & -> & Hin). simpl. apply elem_of_map_to_list in Hin.
    by rewrite (wf_keys _ Hwf _ _ Hin).
  - intros Hr. exists (node_id r, r). split; [done|]. by apply elem_of_map_to_list.
Qed.

End Sw.

Import Sw.

(** ** Properties *)

(** A member that receives state updates, each at its own time. *)
Definition receive (m : SwimMember) (us : list (Z * NodeState * Z)) : SwimMember :=
  foldl (λ m '(now, s, i), (update_state now m s i).1) m us.

Lemma receive_view m us :
  view (receive m us) = foldl ord_max (view m) ((λ '(_, s, i), (i, state_priority s)) <$> us).
Proof.
  unfold receive. revert m. induction us as [|[[now s] i] us IH]; intros m; [done|].
  cbn [foldl fmap list_fmap]. by rewrite IH, update_state_view.
Qed.

(** C14. Updates converge: the incarnation and the state of a member after any number of state
    updates are the greatest, in the order of incarnation first and severity second, of its own
    and those received; so two members that start equal and receive the same updates agree, in
    whatever order, at whatever times and however often the updates arrive. *)
Theorem member_updates_converge (m m' : SwimMember) (us vs : list (Z * NodeState * Z)) :
  view m = view m' →
  (∀ s i, (∃ now, (now, s, i) ∈ us) ↔ (∃ now, (now, s, i) ∈ vs)) →
  incarnation (receive m us) = incarnation (receive m' vs)
  ∧ state (receive m us) = state (receive m' vs)
  ∧ (∀ now s i, (now, s, i) ∈ us → ord_gtb (i, state_priority s) (view (receive m us)) = false)
  ∧ (view (receive m us) = view m
     ∨ ∃ now s i, (now, s, i) ∈ us ∧ view (receive m us) = (i, state_priority s)).
Proof.
  intros Hv Hset.
  assert (Heq : view (receive m us) = view (receive m' vs)).
  { rewrite !receive_view, Hv. apply foldl_ord_max_set. intros y. rewrite !list_elem_of_fmap.
    split; intros ([[now s] i] & -> & Hin).
    - destruct (proj1 (Hset s i)) as [now' Hin']; [by exists now|]. by exists (now', s, i).
    - destruct (proj2 (Hset s i)) as [now' Hin']; [by exists now|]. by exists (now', s, i). }
  apply view_inj in Heq as [? ?]. split; [done|]. split; [done|]. rewrite receive_view.
  destruct (foldl_ord_max_spec (view m) ((λ '(_, s, i), (i, state_priority s)) <$> us))
    as (Hin & _ & Hmax). split.
  - intros now s i Hi. apply Hmax, list_elem_of_fmap. by exists (now, s, i).
  - destruct Hin as [Hin|Hin]; [by left | right].
    apply list_elem_of_fmap in Hin as ([[now s] i] & -> & ?). by exists now, s, i.
Qed.

(** Anti-entropy: merging the full state of a peer leaves every member that both know, other
    than the local node, with the join of the two views, adds the active members that only the peer
    knows and no others, and changes nothing else; two nodes that merge each other's state agree on
    the incarnation and the state of every member that both knew (and that is neither of them). *)
Theorem anti_entropy_joins (now now' : Z) (p q : SwimProtocol) :
  wf p → wf q →
  let p' := merge_full_state now p (get_full_state q) in
  let q' := merge_full_state now' q (get_full_state p) in
  (∀ id mp mq, members p !! id = Some mp → members q !! id = Some mq → id ≠ local_node_id p →
     view <$> members p' !! id = Some (ord_max (view mp) (view mq)))
  ∧ (∀ id mq, members p !! id = None → members q !! id = Some mq → id ≠ local_node_id p →
     members p' !! id = if is_active (state mq) then Some mq else None)
  ∧ (∀ id, members q !! id = None ∨ id = local_node_id p → members p' !! id = members p !! id)
  ∧ (∀ id mp mq, members p !! id = Some mp → members q !! id = Some mq →
       id ≠ local_node_id p → id ≠ local_node_id q →
       view <$> members p' !! id = view <$> members q' !! id).
Proof.
  intros Hp Hq. cbv zeta.
  assert (Hmem : ∀ now p q, wf q → ∀ id mq, members q !! id = Some mq →
    members (merge_full_state now p (get_full_state q)) !! id = members (merge_member now p mq) !! id).
  { clear. intros now p q Hq id mq Hmq. destruct (member_list_spec q Hq) as [Hnd Hl].
    unfold merge_full_state, get_full_state. simpl. pose proof (wf_key _ _ _ Hq Hmq) as Hid.
    rewrite <-Hid. apply merge_foldl_lookup; [done|]. apply Hl. by rewrite Hid. }
  assert (Hboth : ∀ now p q id mp mq, wf q → members p !! id = Some mp → members q !! id = Some mq →
    id ≠ local_node_id p →
    view <$> members (merge_full_state now p (get_full_state q)) !! id
      = Some (ord_max (view mp) (view mq))).
  { intros n p0 q0 id mp mq Hq0 Hmp Hmq Hne. rewrite (Hmem n p0 q0 Hq0 id mq Hmq).
    pose proof (wf_key _ _ _ Hq0 Hmq) as <-. by apply merge_member_view. }
  split_and!.
  - intros. by eapply Hboth.
  - intros id mq Hnone Hmq Hne. rewrite (Hmem now p q Hq id mq Hmq).
    pose proof (wf_key _ _ _ Hq Hmq) as <-. unfold merge_member.
    rewrite bool_decide_eq_false_2 by done. rewrite Hnone.
    destruct (is_active _); simpl; [by rewrite lookup_insert_eq | done].
  - intros id Hid. destruct (members q !! id) as [mq|] eqn:Emq.
    + destruct Hid as [?| ->]; [done|]. rewrite (Hmem now p q Hq _ mq Emq). unfold merge_member.
      by rewrite (bool_decide_eq_true_2 _ (wf_key _ _ _ Hq Emq)).
    + destruct (member_list_spec q Hq) as [_ Hl]. unfold merge_full_state, get_full_state. simpl.
      apply (merge_foldl_frame now p). intros (r & -> & Hin)%list_elem_of_fmap.
      apply Hl in Hin. congruence.
  - intros id mp mq Hmp Hmq Hnp Hnq. rewrite (Hboth now p q id mp mq) by done.
    rewrite (Hboth now' q p id mq mp) by done. by rewrite ord_max_comm.
Qed.

Definition run (ln : f64 → f64) (ops : list (Z * SwimOp)) (p : SwimProtocol) : SwimProtocol :=
  foldl (λ p '(now, op), exec ln now op p) p ops.

Lemma swim_run_wf ln ops p : wf p → wf (run ln ops p).
Proof.
  revert p. induction ops as [|[now op] ops IH]; intros p Hp; [done|].
  by apply IH, swim_exec_wf.
Qed.

Lemma swim_new_wf id addr c : wf (new id addr c).
Proof. split; simpl; [apply map_Forall_empty | constructor | lia]. Qed.

(** In every reachable state members are stored under their own identifiers, the queue of
    updates holds at most one update per node and at most twice the piggyback limit, and no operation
    lowers the incarnation of a member that it keeps. *)
Theorem swim_invariant (ln : f64 → f64) (id addr : string) (c : SwimConfig)
    (ops : list (Z * SwimOp)) (now : Z) (op : SwimOp) :
  let p := run ln ops (new id addr c) in
  map_Forall (λ id m, node_id m = id) (members p)
  ∧ NoDup (up_node_id <$> updates_queue p)
  ∧ (length (updates_queue p) <= max_piggyback_updates (config p) * 2)%nat
  ∧ (∀ id m m', members p !! id = Some m → members (exec ln now op p) !! id = Some m' →
       incarnation m <= incarnation m').
Proof.
  intros p. assert (Hwf : wf p) by apply swim_run_wf, swim_new_wf.
  split_and!; try apply Hwf. intros i m m'. by apply exec_incarnations.
Qed.

(** ** Suspicion timeouts *)

Lemma declare_dead_lookup now p id i :
  members (declare_dead now p id) !! i =
    if decide (i = id) then
      (λ m, if bool_decide (state m = Dead ∨ state m = Left) then m else set_state m Dead now)
        <$> members p !! i
    else members p !! i.
Proof.
  unfold declare_dead. destruct (decide (i = id)) as [->|Hne].
  - destruct (members p !! id) as [m|] eqn:E; [|by rewrite E]. simpl.
    destruct (state m) eqn:Es; simpl; rewrite ?lookup_insert_eq, ?E; try done;
      by rewrite Es.
  - destruct (members p !! id) as [m|]; [|done].
    destruct (_ && _); [|done]. simpl. by rewrite lookup_insert_ne.
Qed.

Lemma declare_dead_foldl now p ids i :
  members (foldl (declare_dead now) p ids) !! i =
    if decide (i ∈ ids) then
      (λ m, if bool_decide (state m = Dead ∨ state m = Left) then m else set_state m Dead now)
        <$> members p !! i
    else members p !! i.
Proof.
  revert p. induction ids as [|id ids IH]; intros p; simpl; [done|].
  rewrite IH, declare_dead_lookup.
  destruct (decide (i = id)) as [->|Hne].
  - rewrite (decide_True (P := id ∈ id :: ids)) by set_solver.
    destruct (decide (id ∈ ids)); [|done].
    destruct (members p !! id) as [m|]; [|done]. simpl. f_equal.
    destruct (state m) eqn:Es; simpl; by rewrite ?Es.
  - destruct (decide (i ∈ ids)).
    + by rewrite decide_True by set_solver.
    + by rewrite decide_False by set_solver.
Qed.

(** A sweep of the failure detector declares dead exactly the suspects whose suspicion is older
    than the timeout and leaves every other member as it is; the timeout lies between the
    configured bounds whatever the size of the cluster. *)
Theorem suspects_time_out (ln : f64 → f64) (now : Z) (p : SwimProtocol) :
  wf p →
  let timeout := suspicion_timeout ln (config p) (cluster_size p) in
  (∀ id, members (check_suspect_timeouts ln now p) !! id =
     (λ m, if bool_decide (state m = Suspect ∧ timeout < now - state_changed_at m)
           then set_state m Dead now else m) <$> members p !! id)
  ∧ timeout <= suspicion_max (config p)
  ∧ (suspicion_min (config p) <= suspicion_max (config p) → suspicion_min (config p) <= timeout).
Proof.
  intros Hwf timeout. split; [|unfold timeout, suspicion_timeout; lia].
  intros id. unfold check_suspect_timeouts. fold timeout. rewrite declare_dead_foldl.
  destruct (member_list_spec p Hwf) as [_ Hl].
  assert (Hin : id ∈ node_id <$> List.filter (λ m, bool_decide (state m = Suspect)
                    && (timeout <? now - state_changed_at m)) (member_list p) ↔
    ∃ m, members p !! id = Some m ∧ state m = Suspect ∧ timeout < now - state_changed_at m).
  { rewrite list_elem_of_fmap. split.
    - intros (m & -> & (Hm & [Hs%bool_decide_eq_true Ht%Z.ltb_lt]%andb_prop)%elem_of_filterb).
      exists m. by apply Hl in Hm.
    - intros (m & Hm & Hs & Ht). pose proof (wf_key _ _ _ Hwf Hm) as Hid. exists m.
      split; [done|]. apply elem_of_filterb. split; [apply Hl; by rewrite Hid|].
      apply andb_true_intro. split; [by apply bool_decide_eq_true|by apply Z.ltb_lt]. }
  case_decide as Hd.
  - apply Hin in Hd as (m & Hm & Hs & Ht). rewrite Hm. simpl. f_equal.
    rewrite bool_decide_eq_false_2 by (rewrite Hs; naive_solver).
    by rewrite bool_decide_eq_true_2.
  - destruct (members p !! id) as [m|] eqn:Hm; [|done]. simpl. f_equal.
    rewrite bool_decide_eq_false_2; [done|]. intros [? ?]. apply Hd, Hin. eauto.
Qed.

(** ** Deaths and refutations *)

(** A death is applied without looking at its incarnation: a member that is alive at a higher
    incarnation, to which the rule of [update_state] gives precedence over the update, is declared
    dead at that higher incarnation; and a node does not refute its own death, as it refutes a
    suspicion. *)
Theorem stale_death_kills_refuted_member (now : Z) (p : SwimProtocol) (m : SwimMember)
    (u : MembershipUpdate) :
  members p !! up_node_id u = Some m → state m = Alive →
  up_state u = Dead → up_incarnation u < incarnation m →
  update_state now m Dead (up_incarnation u) = (m, false)
  ∧ members (apply_updates now p [u]) !! up_node_id u = Some (set_state m Dead now)
  ∧ (∀ q, members q !! up_node_id u = None → apply_updates now q [u] = q)
  ∧ (∀ q, up_node_id u = local_node_id q →
       local_incarnation (apply_updates now q [u]) = local_incarnation q
       ∧ ∀ v, v ∈ updates_queue (apply_updates now q [u]) →
           v ∈ updates_queue q ∨ up_state v = Dead).
Proof.
  intros Hm Ha Hu Hi. split_and!.
  - unfold update_state. rewrite (proj2 (Z.ltb_ge _ _)) by lia.
    by rewrite (proj2 (Z.eqb_neq _ _)) by lia.
  - unfold apply_updates. cbn [foldl]. unfold apply_update. rewrite Hu, declare_dead_lookup.
    rewrite decide_True, Hm by done. simpl. rewrite Ha. done.
  - intros q Hq. unfold apply_updates. cbn [foldl]. unfold apply_update. rewrite Hu.
    unfold declare_dead. by rewrite Hq.
  - intros q Hq. unfold apply_updates. cbn [foldl]. unfold apply_update. rewrite Hu.
    unfold declare_dead. destruct (members q !! _) as [x|]; [|split; [done|by left]].
    destruct (_ && _); [|split; [done|by left]]. split; [done|]. intros v.
    unfold queue_update. destruct (limit_queue_spec (max_piggyback_updates (config q) * 2)
      (replace_update (updates_queue q) (MembershipUpdate_new now (up_node_id u) Dead (incarnation x))))
      as (k & Hk & _). simpl. rewrite Hk. intros Hv.
    assert (Hv' : v ∈ replace_update (updates_queue q)
              (MembershipUpdate_new now (up_node_id u) Dead (incarnation x))).
    { rewrite <-(take_drop k), elem_of_app. by right. }
    clear Hk Hv. revert Hv'. generalize (updates_queue q). intros l. induction l as [|y l IH]; simpl.
    + intros ->%list_elem_of_singleton. by right.
    + case_bool_decide; [destruct (_ <=? _)|]; rewrite !elem_of_cons; intuition (subst; auto).
Qed.

Lemma replace_update_in q u :
  (∀ x, x ∈ q → up_node_id x = up_node_id u → up_incarnation x <= up_incarnation u) →
  u ∈ replace_update q u.
Proof.
  induction q as [|x q IH]; intros Hle; simpl; [by left|].
  case_bool_decide as Hx.
  - rewrite (proj2 (Z.leb_le _ _)); [by left|]. apply Hle; [by left | done].
  - right. apply IH. intros y Hy. apply Hle. by right.
Qed.

Lemma replace_update_last q u :
  up_node_id u ∉ up_node_id <$> q → replace_update q u = q ++ [u].
Proof.
  induction q as [|x q IH]; [done|]. rewrite fmap_cons, not_elem_of_cons. intros [Hne Hin]. simpl.
  rewrite bool_decide_eq_false_2 by done. by rewrite IH.
Qed.

Lemma limit_queue_id n q : (length q <= n)%nat → limit_queue n q = q.
Proof. destruct q; [done|]. intros Hl. cbn [limit_queue]. by rewrite (proj2 (Nat.ltb_ge _ _)). Qed.

Lemma limit_queue_snoc n q u : (0 < n)%nat → u ∈ limit_queue n (q ++ [u]).
Proof.
  intros Hn. induction q as [|x q IH]; simpl.
  - rewrite (proj2 (Nat.ltb_ge _ _)) by lia. by left.
  - destruct (_ <? _)%nat; [done|]. right. apply elem_of_app. right. by left.
Qed.

(** An update that no queued update outdates is queued. *)
Lemma queue_update_in p u :
  wf p → (0 < max_piggyback_updates (config p))%nat →
  (∀ x, x ∈ updates_queue p → up_node_id x = up_node_id u → up_incarnation x <= up_incarnation u) →
  u ∈ updates_queue (queue_update p u).
Proof.
  intros [_ _ Hb] Hpos Hle. unfold queue_update. simpl.
  destruct (decide (up_node_id u ∈ up_node_id <$> updates_queue p)) as [Hin|Hout].
  - rewrite limit_queue_id; [by apply replace_update_in|].
    rewrite <-(length_fmap up_node_id), replace_update_ids, decide_True, app_nil_r, length_fmap by done.
    done.
  - rewrite replace_update_last by done. apply limit_queue_snoc. lia.
Qed.

(** A suspected node increments its own incarnation and queues an [Alive] update with it, but
    the incarnation of the suspicion plays no part: a peer that suspects the node is convinced by the
    update exactly when its incarnation of the node is at most the node's own before the increment,
    so a node that restarts at incarnation 0 stays suspected however clearly it answers. *)
Theorem refutation_reaches_stale_peers_only (now now' i : Z) (p q : SwimProtocol) (m : SwimMember) :
  wf p → (0 < max_piggyback_updates (config p))%nat → 0 <= local_incarnation p < u64_max →
  (∀ x, x ∈ updates_queue p → up_node_id x = local_node_id p →
        up_incarnation x <= local_incarnation p) →
  members q !! local_node_id p = Some m → state m = Suspect →
  ∃ u, u ∈ updates_queue (process_suspect now p (local_node_id p) i)
    ∧ up_node_id u = local_node_id p ∧ up_state u = Alive
    ∧ up_incarnation u = local_incarnation p + 1
    ∧ (members (apply_updates now' q [u]) !! local_node_id p =
        if incarnation m <=? local_incarnation p
        then Some (mkMember (node_id m) (local_address p) Alive (local_incarnation p + 1) now' 0
                     (Some now') (metadata m))
        else Some m).
Proof.
  intros Hwf Hpos Hinc Hq Hm Hs.
  assert (Hadd : u64_add (local_incarnation p) 1 = local_incarnation p + 1).
  { apply u64_add_small. lia. }
  exists (with_address (MembershipUpdate_new now (local_node_id p) Alive (local_incarnation p + 1))
            (local_address p)).
  split_and!; try done.
  - unfold process_suspect. rewrite bool_decide_eq_true_2 by done. unfold increment_incarnation.
    rewrite Hadd. apply queue_update_in; simpl; [| done |].
    + apply count_wf. destruct Hwf. by split.
    + intros x Hx Hid. specialize (Hq x Hx Hid). lia.
  - unfold apply_updates. cbn [foldl]. unfold apply_update. simpl. unfold process_alive. rewrite Hm.
    unfold update_state. destruct (Z.leb_spec (incarnation m) (local_incarnation p)).
    + rewrite (proj2 (Z.ltb_lt _ _)) by lia. simpl. rewrite Hs. simpl.
      by rewrite lookup_insert_eq.
    + rewrite (proj2 (Z.ltb_ge _ _)) by lia. rewrite Hs. simpl. rewrite andb_false_r.
      simpl. by rewrite lookup_insert_eq.
Qed.

(** ** Dissemination *)

(** Each message carries at most the configured number of updates, all below the broadcast
    limit; exactly those sent are counted as broadcast once more, the updates that reached the limit
    leave the queue, and the members and all other updates stay as they are. *)
Theorem piggyback_is_bounded (ln : f64 → f64) (p : SwimProtocol) :
  wf p →
  let limit := effective_broadcast_limit ln (config p) (cluster_size p) in
  let '(p', sent) := get_piggyback_updates ln p in
  (length sent <= max_piggyback_updates (config p))%nat
  ∧ (∀ u, u ∈ sent → u ∈ updates_queue p ∧ broadcast_count u < limit)
  ∧ ((length sent < max_piggyback_updates (config p))%nat →
       ∀ u, u ∈ updates_queue p → broadcast_count u < limit → u ∈ sent)
  ∧ (∀ u, u ∈ updates_queue p' ↔ broadcast_count u < limit ∧
       ((u ∈ updates_queue p ∧ u ∉ sent) ∨
        ∃ x, x ∈ sent ∧ u = mkUpdate (up_node_id x) (up_state x) (up_incarnation x) (up_address x)
                              (created_at x) (u32_add (broadcast_count x) 1)))
  ∧ members p' = members p.
Proof.
  intros Hwf limit. unfold get_piggyback_updates. fold limit.
  set (ready := List.filter _ (updates_queue p)). set (sent := take _ ready).
  assert (Hready : ∀ u, u ∈ ready ↔ u ∈ updates_queue p ∧ broadcast_count u < limit).
  { intros u. unfold ready. rewrite elem_of_filterb. unfold should_drop.
    rewrite negb_true_iff, Z.leb_gt. done. }
  assert (Hsent : ∀ u, u ∈ sent → u ∈ ready).
  { intros u Hu. rewrite <-(take_drop (max_piggyback_updates (config p)) ready), elem_of_app.
    by left. }
  assert (Hdec : ∀ u, u ∈ updates_queue p →
    existsb (λ x, bool_decide (up_node_id x = up_node_id u)) sent = true ↔ u ∈ sent).
  { intros u Hu. rewrite existsb_exists. split.
    - intros (x & Hx%list_elem_of_In & Heq%bool_decide_eq_true).
      assert (x = u) as ->; [|done]. destruct (Hready x) as [Hr _].
      destruct (Hr (Hsent x Hx)) as [Hxq _].
      apply list_elem_of_lookup in Hu as [a Ha], Hxq as [b Hb].
      assert (a = b) as ->; [|congruence].
      eapply NoDup_lookup; [apply (wf_queue _ Hwf)| |]; rewrite list_lookup_fmap.
      + by rewrite Ha.
      + rewrite Hb. simpl. by rewrite Heq.
    - intros Hx. exists u. split; [by apply list_elem_of_In | by apply bool_decide_eq_true]. }
  cbn [fst snd]. split_and!.
  - unfold sent. rewrite length_take. lia.
  - intros u Hu. by apply Hready, Hsent.
  - intros Hlt u Hu Hb. unfold sent in *. rewrite length_take in Hlt.
    rewrite take_ge by lia. by apply Hready.
  - intros u. simpl. rewrite elem_of_filterb. unfold should_drop at 1.
    rewrite negb_true_iff, Z.leb_gt, list_elem_of_fmap, Logic.and_comm. apply and_iff_compat_l. split.
    + intros (x & -> & Hx). pose proof (Hdec x Hx) as Hd. destruct (existsb _ sent).
      * right. exists x. split; [by apply Hd | done].
      * left. split; [done|]. intros H. by apply Hd in H.
    + intros [[Hu Hn]|(x & Hx & ->)].
      * exists u. pose proof (Hdec u Hu) as Hd. destruct (existsb _ sent); [|done].
        by destruct Hn; apply Hd.
      * exists x. assert (Hxq : x ∈ updates_queue p) by (by apply Hready, Hsent).
        split; [|done]. by rewrite (proj2 (Hdec x Hxq) Hx).
  - done.
Qed.

(** ** Backoff *)

Definition backoffs (draws : list (Z → Z → Z)) (b : ExponentialBackoff)
    : ExponentialBackoff * list (option Z) :=
  foldl (λ '(b, ds) draw, let '(b, d) := next_backoff draw b in (b, ds ++ [d])) (b, []) draws.

Definition in_range (draw : Z → Z → Z) : Prop := ∀ lo hi, lo <= hi → lo <= draw lo hi <= hi.

Lemma next_backoff_spec draw b :
  in_range draw → 0 <= base b <= u64_max → 0 <= attempt b < u32_max →
  let '(b', d) := next_backoff draw b in
  base b' = base b ∧ cap b' = cap b ∧ max_attempts b' = max_attempts b
  ∧ if (0 <? max_attempts b) && (max_attempts b <=? attempt b) then b' = b ∧ d = None
    else attempt b' = attempt b + 1 ∧ d = Some (current b')
       ∧ Z.min (from_millis (millis (base b))) (cap b) <= current b' <= cap b.
Proof.
  intros Hd Hb Ha. unfold next_backoff. destruct (_ && _) eqn:E; [done|].
  cbn [base cap current attempt max_attempts]. split_and!; try done; try lia.
  - apply u32_add_small. lia.
  - assert (Hm : as_u64 (millis (base b)) = millis (base b)).
    { apply wrap_small. unfold millis, u64_max in *.
      pose proof (Z.div_pos (base b) 1000000 ltac:(lia) ltac:(lia)).
      pose proof (Z.div_le_upper_bound (base b) 1000000 (base b)). lia. }
    rewrite Hm. unfold from_millis. destruct (Z.ltb_spec (millis (base b))
      (u64_sat_mul (as_u64 (millis (current b))) 3)); [|lia].
    pose proof (Hd (millis (base b)) (u64_sat_mul (as_u64 (millis (current b))) 3)). lia.
Qed.

(** The backoff yields exactly [max_attempts] delays (any number when that is 0) and then none;
    each delay lies between the base, cut to milliseconds, or the cap if that is less, and the cap,
    whatever the random numbers. *)
Theorem backoff_delays_bounded (b c n : Z) (draws : list (Z → Z → Z)) (k : nat) (d : option Z) :
  0 <= b <= u64_max → 0 <= n → Forall in_range draws → Z.of_nat (length draws) <= u32_max →
  (backoffs draws (with_params b c n)).2 !! k = Some d →
  if (n =? 0) || (Z.of_nat k <? n)
  then ∃ t, d = Some t ∧ Z.min (from_millis (millis b)) c <= t <= c
  else d = None.
Proof.
  intros Hb Hn Hr Hlen Hk.
  assert (Hinv : let '(s, ds) := backoffs draws (with_params b c n) in
    base s = b ∧ cap s = c ∧ max_attempts s = n ∧ length ds = length draws
    ∧ attempt s = (if n =? 0 then Z.of_nat (length draws) else Z.min n (Z.of_nat (length draws)))
    ∧ ∀ k d, ds !! k = Some d → if (n =? 0) || (Z.of_nat k <? n)
        then ∃ t, d = Some t ∧ Z.min (from_millis (millis b)) c <= t <= c else d = None).
  2:{ destruct (backoffs _ _) as [s ds]. by apply Hinv. }
  clear Hk k d. induction draws as [|draw draws IH] using rev_ind.
  { simpl. split_and!; try done. destruct (Z.eqb_spec n 0); simpl; lia. }
  apply Forall_app in Hr as [Hr Hd%Forall_inv]. rewrite length_app in Hlen. simpl in Hlen.
  unfold backoffs in *. rewrite foldl_app. specialize (IH Hr ltac:(lia)).
  destruct (foldl _ (with_params b c n, []) draws) as [s ds].
  destruct IH as (Hbs & Hc & Hm & Hl & Ha & Hds). cbn [foldl].
  assert (Hat : 0 <= attempt s < u32_max) by (rewrite Ha; case_match; lia).
  pose proof (next_backoff_spec draw s Hd ltac:(lia) Hat) as Hnext.
  destruct (next_backoff draw s) as [s' d']. destruct Hnext as (-> & -> & -> & Hcase).
  rewrite !length_app, Hl. split_and!; try done.
  - rewrite Hm, Ha in Hcase. simpl. destruct (Z.eqb_spec n 0) as [->|Hn0].
    + simpl in Hcase. lia.
    + destruct (Z.ltb_spec 0 n); [|lia]. simpl in Hcase.
      destruct (Z.leb_spec n (Z.min n (Z.of_nat (length draws)))); [|lia].
      destruct Hcase as [-> _]. rewrite Ha. lia.
  - intros k d Hk. apply lookup_app_Some in Hk as [Hk|[Hge Hk]]; [by apply Hds|].
    apply list_lookup_singleton_Some in Hk as [Hk0 <-]. assert (k = length draws) as -> by lia.
    rewrite Hm, Ha, Hbs, Hc in Hcase. destruct (Z.eqb_spec n 0) as [->|Hn0].
    + simpl in *. destruct Hcase as (_ & -> & ?). eauto.
    + simpl. destruct (Z.ltb_spec 0 n); [|lia]. simpl in Hcase.
      destruct (Z.leb_spec n (Z.min n (Z.of_nat (length draws)))),
        (Z.ltb_spec (Z.of_nat (length draws)) n); try lia.
      * by destruct Hcase.
      * destruct Hcase as (_ & -> & ?). eauto.
Qed.

(** ** Witnesses *)

Definition m1 : SwimMember := SwimMember_new 0 "n1" "n1:9000".
Definition p1 : SwimProtocol :=
  Sw.upsert_member 0 (Sw.new "local" "local:9000" SwimConfig_default) m1.
Definition p2 : SwimProtocol := Sw.suspect_member 5 p1 "n1".

Lemma p1_wf : Sw.wf p1.
Proof. by apply upsert_ok, swim_new_wf. Qed.
Lemma p2_wf : Sw.wf p2.
Proof. apply suspect_ok, p1_wf. Qed.

Lemma member_updates_converge_witness :
  state (receive m1 [(1, Suspect, 0); (2, Alive, 1)]) = state (receive m1 [(1, Alive, 1); (2, Suspect, 0)]).
Proof.
  refine (proj1 (proj2 (member_updates_converge m1 m1 _ _ eq_refl _))).
  intros s i. split; intros [now H]; revert H; rewrite !elem_of_cons, elem_of_nil;
    intros [[= -> -> ->]|[[= -> -> ->]|[]]]; eexists; rewrite !elem_of_cons; eauto.
Defined.

Lemma anti_entropy_joins_witness :
  view <$> members (Sw.merge_full_state 7 p1 (Sw.get_full_state p2)) !! "n1" = Some (0, 1).
Proof.
  rewrite (proj1 (anti_entropy_joins 7 7 p1 p2 p1_wf p2_wf) "n1" m1 (set_state m1 Suspect 5));
    [reflexivity | vm_compute; reflexivity | vm_compute; reflexivity | done].
Defined.

Lemma suspects_time_out_witness :
  state <$> members (Sw.check_suspect_timeouts (λ x, x) (from_millis 60000) p2) !! "n1" = Some Dead.
Proof.
  rewrite (proj1 (suspects_time_out (λ x, x) (from_millis 60000) p2 p2_wf) "n1").
  vm_compute. reflexivity.
Defined.

Lemma stale_death_kills_refuted_member_witness :
  let m := set_incarnation m1 5 in
  let p := Sw.upsert_member 0 p1 m in
  state <$> members (Sw.apply_updates 9 p [MembershipUpdate_new 8 "n1" Dead 2]) !! "n1" = Some Dead.
Proof.
  intros m p.
  pose proof (proj1 (proj2 (stale_death_kills_refuted_member 9 p m
    (MembershipUpdate_new 8 "n1" Dead 2)
    ltac:(vm_compute; reflexivity) eq_refl eq_refl ltac:(simpl; lia)))) as H.
  cbn [up_node_id MembershipUpdate_new] in H. rewrite H. reflexivity.
Defined.

Lemma refutation_reaches_stale_peers_only_witness :
  let p := Sw.new "n1" "n1:9000" SwimConfig_default in
  ∃ u, u ∈ updates_queue (Sw.process_suspect 9 p "n1" 0)
    ∧ state <$> members (Sw.apply_updates 9 p2 [u]) !! "n1" = Some Alive.
Proof.
  intros p.
  destruct (refutation_reaches_stale_peers_only 9 9 0 p p2 (set_state m1 Suspect 5))
    as (u & Hin & _ & _ & _ & Hq); simpl;
    [apply swim_new_wf | lia | unfold u64_max; lia | set_solver | vm_compute; reflexivity | done |].
  exists u. split; [exact Hin|]. exact (f_equal (fmap state) Hq).
Defined.

Lemma piggyback_is_bounded_witness :
  (length (Sw.get_piggyback_updates (λ x, x) p1).2 <= 10)%nat.
Proof.
  pose proof (piggyback_is_bounded (λ x, x) p1 p1_wf) as H. cbv zeta in H.
  destruct (Sw.get_piggyback_updates (λ x, x) p1) as [p' sent]. apply H.
Defined.

Lemma backoff_delays_bounded_witness :
  ∀ d, (backoffs [λ lo _, lo; λ _ hi, hi] (with_params 1000000 5000000 1)).2 !! 1%nat = Some d → d = None.
Proof.
  intros d H.
  refine (backoff_delays_bounded 1000000 5000000 1 [λ lo _, lo; λ _ hi, hi] 1%nat d _ _ _ _ H).
  - unfold u64_max. lia.
  - lia.
  - repeat constructor; lia.
  - unfold u32_max. simpl. lia.
Defined.
