(* ===== verification/Scheduler.v ===== *)
(** Scheduler: the placement of actors on nodes, crates/scheduler: the capacities of nodes
    (src/capacity_tracker.rs), the choice of a node (src/node_selector.rs), the SQLite store of requests
    (src/state_store/sql.rs), the service that accepts requests (src/service.rs) and the background
    scheduler that treats them (src/background.rs), which holds a lease of [Locks].

    Protobuf and base64 are parameters: the bytes of a requirement and of a request.  The registrations of
    the nodes are an argument, as is the clock.  A hash map is listed in the order of [map_to_list]. *)
From S2P Require Import Prelude Context Locks.

#[local] Arguments String.append : simpl nomatch.

(** ** Resources and capacities *)

(** The type of the GPUs is never read. *)
Record ResourceSpec := mkResources { cpu_cores : f64; memory_bytes : Z; disk_bytes : Z; gpu_count : Z }.
Record NodeCapacity := mkCapacity {
  total : option ResourceSpec;
  allocated : option ResourceSpec;
  available : option ResourceSpec;
  labels : gmap string string
}.
(** Of the placement, what the selector reads. *)
Record NodePlacement := mkPlacement {
  required_labels : gmap string string;
  avoid_node_ids : list string;
  resource_requirements : option ResourceSpec
}.
Definition ActorResourceRequirements : Type := option NodePlacement.

Definition f64_zero : f64 := S754_zero false.
Definition f64_sub (x y : f64) : f64 := SFsub 53 1024 x y.

(** The metrics of the heartbeats of a node, and the labels of its registration. *)
Record NodeRegistration := mkRegistration {
  object_id : string;
  metrics : gmap string f64;
  node_labels : option (gmap string string)
}.
Definition megabytes (x : f64) : Z := f64_as_u64 (f64_mul (f64_mul x (f64_of_Z 1024)) (f64_of_Z 1024)).
Definition resources_of (prefix : string) (m : gmap string f64) (dflt : ResourceSpec) : ResourceSpec :=
  mkResources
    (default (cpu_cores dflt) (m !! (prefix +:+ "_cpu_cores")))
    (from_option megabytes (memory_bytes dflt) (m !! (prefix +:+ "_memory_mb")))
    (from_option megabytes (disk_bytes dflt) (m !! (prefix +:+ "_disk_mb")))
    (from_option f64_as_u32 (gpu_count dflt) (m !! (prefix +:+ "_gpu_count"))).
Definition no_resources : ResourceSpec := mkResources f64_zero 0 0 0.
Definition extract_capacity_from_registration (r : NodeRegistration) : NodeCapacity :=
  let t := resources_of "total" (metrics r) no_resources in
  let a := resources_of "allocated" (metrics r) no_resources in
  let left := mkResources (f64_sub (cpu_cores t) (cpu_cores a)) (sat_sub (memory_bytes t) (memory_bytes a))
                (sat_sub (disk_bytes t) (disk_bytes a)) (sat_sub (gpu_count t) (gpu_count a)) in
  mkCapacity (Some t) (Some a) (Some (resources_of "available" (metrics r) left)) (default ∅ (node_labels r)).
Definition matches_labels (required ls : gmap string string) : bool :=
  forallb (λ '(k, v), bool_decide (ls !! k = Some v)) (map_to_list required).
(** The comparison of the filter: a NaN is not below anything. *)
Definition below (x y : ResourceSpec) : bool :=
  f64_ltb (cpu_cores x) (cpu_cores y) || (memory_bytes x <? memory_bytes y) || (disk_bytes x <? disk_bytes y)
  || (gpu_count x <? gpu_count y).
Definition get_node_capacity (lookup : string → option NodeRegistration) (node : string) : option NodeCapacity :=
  extract_capacity_from_registration <$> lookup node.
(** [nodes] is what the registry of objects discovers, at most a thousand. *)
Definition list_node_capacities (nodes : list NodeRegistration) (ls : option (gmap string string))
    (min : option ResourceSpec) : gmap string NodeCapacity :=
  foldl (λ m r,
    let c := extract_capacity_from_registration r in
    if match ls with Some ls => negb (matches_labels ls (labels c)) | None => false end then m
    else if match min, available c with
            | Some min, Some a => below a min
            | Some _, None => true
            | None, _ => false
            end then m
    else <[object_id r := c]> m) ∅ nodes.

(** ** The choice of a node *)

Inductive NodeSelectionError :=
| NoMatchingNode (m : string)
| InvalidRequirements (m : string).
Definition NodeSelectionError_to_string (e : NodeSelectionError) : string :=
  match e with
  | NoMatchingNode m => "No matching node found: " +:+ m
  | InvalidRequirements m => "Invalid resource requirements: " +:+ m
  end.

Definition has_sufficient_resources (required : ResourceSpec) (c : NodeCapacity) : bool :=
  match available c with
  | Some a =>
      f64_leb (cpu_cores required) (cpu_cores a) && (memory_bytes required <=? memory_bytes a)
      && (disk_bytes required <=? disk_bytes a) && (gpu_count required <=? gpu_count a)
  | None => false
  end.
Definition apply_node_placement (cs : list (string * NodeCapacity)) (p : NodePlacement)
    : list (string * NodeCapacity) :=
  List.filter (λ '(n, _), negb (existsb (String.eqb n) (avoid_node_ids p))) cs.

Definition ratio (used all : f64) : f64 := if f64_ltb f64_zero all then f64_div used all else f64_zero.
(** Two fifths, and a fifth. *)
Definition weight_two : f64 := S754_finite false 7205759403792794 (-54).
Definition weight_one : f64 := S754_finite false 7205759403792794 (-55).
Definition calculate_score (p : option NodePlacement) (c : NodeCapacity) : f64 :=
  match p ≫= resource_requirements, total c, allocated c with
  | Some r, Some t, Some a =>
      let cpu := ratio (f64_add (cpu_cores a) (cpu_cores r)) (cpu_cores t) in
      let memory :=
        if 0 <? memory_bytes t
        then f64_div (f64_of_Z (u64_add (memory_bytes a) (memory_bytes r))) (f64_of_Z (memory_bytes t))
        else f64_zero in
      let balance := f64_sub (f64_of_Z 1) (SFabs (f64_sub cpu memory)) in
      f64_add (f64_add (f64_mul cpu weight_two) (f64_mul memory weight_two)) (f64_mul balance weight_one)
  | _, _, _ => f64_zero
  end.

(** [sort_by] with the higher score first, stable; scores that do not compare count as equal. *)
Fixpoint insert_by_score (x : string * f64) (l : list (string * f64)) : list (string * f64) :=
  match l with
  | [] => [x]
  | y :: l' => if f64_ltb y.2 x.2 then x :: l else y :: insert_by_score x l'
  end.
Definition sort_by_score (l : list (string * f64)) : list (string * f64) :=
  foldl (λ l x, insert_by_score x l) [] l.

(** The nodes that are left to score. *)
Definition candidates (p : option NodePlacement) (nodes : gmap string NodeCapacity) : list (string * NodeCapacity) :=
  let cs := List.filter (λ '(_, c), matches_labels (from_option required_labels ∅ p) (labels c)) (map_to_list nodes) in
  match p ≫= resource_requirements with
  | Some r => List.filter (λ '(_, c), has_sufficient_resources r c) cs
  | None => cs
  end.
Definition select_node (requirements : ActorResourceRequirements) (nodes : gmap string NodeCapacity)
    : result NodeSelectionError (string * f64) :=
  if match requirements ≫= resource_requirements with
     | Some r => f64_ltb (cpu_cores r) f64_zero
     | None => false
     end
  then Err (InvalidRequirements "Resource values must be non-negative")
  else match candidates requirements nodes with
  | [] => Err (NoMatchingNode "No nodes match resource requirements and labels")
  | cs =>
      match (match requirements with Some p => apply_node_placement cs p | None => cs end) with
      | [] => Err (NoMatchingNode "No nodes match placement constraints")
      | cs =>
          match sort_by_score ((λ '(n, c), (n, calculate_score requirements c)) <$> cs) with
          | x :: _ => Ok x
          | [] => Err (NoMatchingNode "")
          end
      end
  end.

(** ** The store of requests *)

Inductive SchedulingStatus := StatusUnspecified | StatusPending | StatusScheduled | StatusFailed.
(** Seconds and nanoseconds. *)
Definition Timestamp : Type := (Z * Z)%type.
Record SchedulingRequest := mkRequest {
  request_id : string;
  requirements : option ActorResourceRequirements;
  rq_namespace : string;
  rq_tenant_id : string;
  status : SchedulingStatus;
  selected_node_id : string;
  actor_id : string;
  error_message : string;
  created_at : option Timestamp;
  scheduled_at : option Timestamp;
  completed_at : option Timestamp
}.
(** The requirements are encoded in a form [B], and messages in a form [P]. *)
Record Row (B : Type) := mkRow {
  row_status : string;
  row_requirements : B;
  row_namespace : string;
  row_tenant_id : string;
  row_node : string;
  row_actor : string;
  row_error : string;
  row_created_at : Z;
  row_scheduled_at : option Z;
  row_completed_at : option Z;
  row_updated_at : Z
}.
Arguments mkRow {B}.
Arguments row_status {B}. Arguments row_requirements {B}. Arguments row_namespace {B}.
Arguments row_tenant_id {B}. Arguments row_node {B}. Arguments row_actor {B}. Arguments row_error {B}.
Arguments row_created_at {B}. Arguments row_scheduled_at {B}. Arguments row_completed_at {B}.
Arguments row_updated_at {B}.
(** By the primary key, the identifier of the request. *)
Abbreviation Table B := (gmap string (Row B)).
Inductive StoreError :=
| ScopeMismatch (m : string)
| RequirementsRequired
| UniqueViolation (id : string)
| DecodeFailed.

Definition status_str (s : SchedulingStatus) : string :=
  match s with
  | StatusPending => "PENDING" | StatusScheduled => "SCHEDULED" | StatusFailed => "FAILED"
  | StatusUnspecified => "UNSPECIFIED"
  end.
Definition parse_status (s : string) : SchedulingStatus :=
  if String.eqb s "PENDING" then StatusPending
  else if String.eqb s "SCHEDULED" then StatusScheduled
  else if String.eqb s "FAILED" then StatusFailed
  else StatusUnspecified.
Definition check_scope (ctx : RequestContext) (r : SchedulingRequest) : result StoreError () :=
  if negb (String.eqb (rq_tenant_id r) (tenant_id ctx)) || negb (String.eqb (rq_namespace r) (namespace ctx)) then
    Err (ScopeMismatch ("Request tenant_id/namespace (" +:+ rq_tenant_id r +:+ "/" +:+ rq_namespace r
      +:+ ") does not match context (" +:+ tenant_id ctx +:+ "/" +:+ namespace ctx +:+ ")"))
  else Ok ().
(** [WHERE tenant_id = ? AND namespace = ?] *)
Definition in_scope {B} (ctx : RequestContext) (x : Row B) : bool :=
  String.eqb (row_tenant_id x) (tenant_id ctx) && String.eqb (row_namespace x) (namespace ctx).
(** [COALESCE(?, CASE WHEN c AND old IS NULL THEN now ELSE old END)] *)
Definition coalesce_time (new : option Z) (c : bool) (old : option Z) (now : Z) : option Z :=
  match new, old with
  | Some t, _ => Some t
  | None, Some t => Some t
  | None, None => if c then Some now else None
  end.
(** [ORDER BY created_at ASC] *)
Fixpoint insert_by_created {B} (x : string * Row B) (l : list (string * Row B)) : list (string * Row B) :=
  match l with
  | [] => [x]
  | y :: l' => if row_created_at x.2 <? row_created_at y.2 then x :: l else y :: insert_by_created x l'
  end.

Section store.
Context {B : Type} (encode_requirements : ActorResourceRequirements → B).
Context (decode_requirements : B → option ActorResourceRequirements).

Definition encoded (r : SchedulingRequest) : result StoreError B :=
  match requirements r with Some q => Ok (encode_requirements q) | None => Err RequirementsRequired end.
(** [now] is the clock in seconds. *)
Definition store_request (ctx : RequestContext) (r : SchedulingRequest) (now : Z) (t : Table B)
    : result StoreError (Table B) :=
  _ ← check_scope ctx r;
  q ← encoded r;
  let created := from_option fst now (created_at r) in
  match t !! request_id r with
  | Some _ => Err (UniqueViolation (request_id r))
  | None =>
      Ok (<[request_id r := mkRow (status_str (status r)) q (rq_namespace r) (rq_tenant_id r) (selected_node_id r)
             (actor_id r) (error_message r) created None None created]> t)
  end.
Definition row_to_scheduling_request (id : string) (x : Row B) : result StoreError SchedulingRequest :=
  match decode_requirements (row_requirements x) with
  | None => Err DecodeFailed
  | Some q =>
      let time := fmap (M := option) (λ s : Z, (s, 0)) in
      Ok (mkRequest id (Some q) (row_namespace x) (row_tenant_id x) (parse_status (row_status x)) (row_node x)
            (row_actor x) (row_error x) (Some (row_created_at x, 0)) (time (row_scheduled_at x))
            (time (row_completed_at x)))
  end.
Definition get_request (ctx : RequestContext) (id : string) (t : Table B)
    : result StoreError (option SchedulingRequest) :=
  match t !! id with
  | Some x => if in_scope ctx x then Some <$> row_to_scheduling_request id x else Ok None
  | None => Ok None
  end.
(** An update that finds no row changes nothing and succeeds. *)
Definition update_request (ctx : RequestContext) (r : SchedulingRequest) (now : Z) (t : Table B)
    : result StoreError (Table B) :=
  _ ← check_scope ctx r;
  q ← encoded r;
  let s := status_str (status r) in
  Ok match t !! request_id r with
     | Some x =>
         if in_scope ctx x then
           <[request_id r := mkRow s q (rq_namespace r) (rq_tenant_id r) (selected_node_id r) (actor_id r)
               (error_message r) (row_created_at x)
               (coalesce_time (fst <$> scheduled_at r) (String.eqb s "SCHEDULED") (row_scheduled_at x) now)
               (coalesce_time (fst <$> completed_at r) (String.eqb s "SCHEDULED" || String.eqb s "FAILED")
                  (row_completed_at x) now)
               now]> t
         else t
     | None => t
     end.
Definition query_pending_requests (ctx : RequestContext) (t : Table B)
    : result StoreError (list SchedulingRequest) :=
  mapM (λ '(id, x), row_to_scheduling_request id x)
    (foldl (λ l x, insert_by_created x l) []
       (List.filter (λ '(_, x), String.eqb (row_status x) "PENDING" && in_scope ctx x) (map_to_list t))).
End store.

(** ** The service and the worker *)

Inductive Status :=
| InvalidArgument (m : string)
| Unauthenticated (m : string)
| NotFound (m : string)
| Internal (m : string).
Definition StoreError_to_string (db : string → string) (e : StoreError) : string :=
  match e with
  | ScopeMismatch m => m
  | RequirementsRequired => "requirements field is required"
  | UniqueViolation id => db id
  | DecodeFailed => db ""
  end.
Inductive BackgroundSchedulerError :=
| AlreadyStarted (node : string)
| LeaseError (e : LockError + string)
| ChannelError (m : string)
| StateStoreError (e : option StoreError)
| SelectionError (m : string).

(** The store, and what the schedulers of the nodes, which subscribe to the channel of requests, have not
    yet read. *)
Record System (B P : Type) := mkSystem { table : Table B; inboxes : gmap string (list P) }.
Arguments mkSystem {B P}. Arguments table {B P}. Arguments inboxes {B P}.
Definition system_new {B P} : System B P := mkSystem ∅ ∅.

Section scheduling.
Context {B P : Type} (encode_requirements : ActorResourceRequirements → B).
Context (decode_requirements : B → option ActorResourceRequirements).
Context (encode_request : SchedulingRequest → P) (decode_request : P → option SchedulingRequest).
#[local] Abbreviation System := (System B P).
Context (database_text : string → string).

(** Tenant and namespace of the headers, [x-tenant-id] and [x-namespace]. *)
Definition scope_of (md : Metadata) : result Status (string * string) :=
  match non_empty (im_get "x-tenant-id" md) with
  | Some t => Ok (t, default "" (non_empty (im_get "x-namespace" md)))
  | None => Err (Unauthenticated
      "Missing x-tenant-id metadata set by auth middleware. JWT authentication required.")
  end.
(** A publication reaches those that have subscribed. *)
Definition publish (payload : P) (s : System) : System :=
  mkSystem (table s) ((λ l, l ++ [payload]) <$> inboxes s).
Definition schedule_actor (ulid : string) (md : Metadata) (id : string)
    (q : option ActorResourceRequirements) (now : Timestamp) (s : System) : System * result Status string :=
  match q with
  | None => (s, Err (InvalidArgument "requirements is required"))
  | Some q =>
      match scope_of md with
      | Err e => (s, Err e)
      | Ok (tenant, ns) =>
          let id := if String.eqb id "" then ulid else id in
          let r := mkRequest id (Some q) ns tenant StatusPending "" "" "" (Some now) None None in
          match store_request encode_requirements (new_without_auth tenant ns) r now.1 (table s) with
          | Err e => (s, Err (Internal ("Failed to store request: " +:+ StoreError_to_string database_text e)))
          | Ok t => (publish (encode_request r) (mkSystem t (inboxes s)), Ok id)
          end
      end
  end.
Definition get_scheduling_status (md : Metadata) (id : string) (s : System) : result Status SchedulingRequest :=
  match scope_of md with
  | Err e => Err e
  | Ok (tenant, ns) =>
      match get_request decode_requirements (new_without_auth tenant ns) id (table s) with
      | Err e => Err (Internal ("Failed to get request: " +:+ StoreError_to_string database_text e))
      | Ok None => Err (NotFound ("Scheduling request " +:+ id +:+ " not found"))
      | Ok (Some r) => Ok r
      end
  end.

Definition system_context : RequestContext := with_admin true (new_without_auth "" "").
Definition with_outcome (r : SchedulingRequest) (st : SchedulingStatus) (node err : string)
    (scheduled completed : option Timestamp) : SchedulingRequest :=
  mkRequest (request_id r) (requirements r) (rq_namespace r) (rq_tenant_id r) st node (actor_id r) err
    (created_at r) scheduled completed.
Definition process_request (nodes : list NodeRegistration) (payload : P) (now : Timestamp) (t : Table B)
    : result BackgroundSchedulerError (Table B) :=
  match decode_request payload with
  | None => Err (StateStoreError None)
  | Some r =>
      match requirements r with
      | None => Err (SelectionError "Missing requirements")
      | Some q =>
          let r' := match select_node q (list_node_capacities nodes None None) with
                    | Ok (node, _) => with_outcome r StatusScheduled node (error_message r) (Some now) (Some now)
                    | Err e => with_outcome r StatusFailed (selected_node_id r) (NodeSelectionError_to_string e)
                                 (scheduled_at r) (Some now)
                    end in
          match update_request encode_requirements system_context r' now.1 t with
          | Ok t => Ok t
          | Err e => Err (StateStoreError (Some e))
          end
      end
  end.

(** What happens in a cluster: a request, the subscription of the scheduler of a node, the treatment of
    the message that it reads next, whose error is logged, and a message that it misses. *)
Inductive Event :=
| Schedule (ulid : string) (md : Metadata) (id : string) (q : option ActorResourceRequirements) (now : Timestamp)
| Subscribe (node : string)
| Process (node : string) (nodes : list NodeRegistration) (now : Timestamp)
| Miss (node : string).
Definition next_message (node : string) (s : System) : option (P * System) :=
  match inboxes s !! node with
  | Some (m :: l) => Some (m, mkSystem (table s) (<[node := l]> (inboxes s)))
  | _ => None
  end.
Definition exec (e : Event) (s : System) : System :=
  match e with
  | Schedule ulid md id q now => (schedule_actor ulid md id q now s).1
  | Subscribe node =>
      mkSystem (table s) (<[node := default [] (inboxes s !! node)]> (inboxes s))
  | Process node nodes now =>
      match next_message node s with
      | Some (m, s) =>
          match process_request nodes m now (table s) with
          | Ok t => mkSystem t (inboxes s)
          | Err _ => s
          end
      | None => s
      end
  | Miss node => from_option snd s (next_message node s)
  end.
End scheduling.

(** ** The lease *)

(** A scheduler holds its lease, if it has one. *)
Record Leader := mkLeader { node_id : string; lease_duration : Z; current_lease : option Lock }.
Definition lease_key (node : string) : string := "scheduler:background:lease:" +:+ node.
#[local] Arguments lease_key : simpl never.
Definition claim_node_start (node : string) (running : gset string) : result BackgroundSchedulerError (gset string) :=
  if bool_decide (node ∈ running) then Err (AlreadyStarted node) else Ok ({[node]} ∪ running).
Definition release_node_start (node : string) (running : gset string) : gset string := running ∖ {[node]}.
Definition set_lease (l : option Lock) (b : Leader) : Leader := mkLeader (node_id b) (lease_duration b) l.
Definition acquire_lease (now : Z) (ulid : string) (b : Leader) (st : MemoryLockManager)
    : MemoryLockManager * result BackgroundSchedulerError Lock :=
  match Lk.acquire_lock now ulid st "" "" (mkAcquire (lease_key (node_id b)) (node_id b) (lease_duration b) ∅) with
  | (st, Ok l) => (st, Ok l)
  | (st, Err e) => (st, Err (LeaseError (inl e)))
  end.
(** [lock_is_live], whose clock is in seconds. *)
Definition lock_is_live (now : Z) (l : Lock) : bool :=
  l_locked l && (now / 1000000000 <? l_expires_at l / 1000000000).
Definition adopt_current_lease_if_same_holder (now : Z) (b : Leader) (st : MemoryLockManager) : Leader * bool :=
  match Lk.get_lock st "" "" (lease_key (node_id b)) with
  | Ok (Some l) =>
      if String.eqb (l_holder_id l) (node_id b) && lock_is_live now l then (set_lease (Some l) b, true) else (b, false)
  | _ => (b, false)
  end.
(** [None] when the renewal waits for another one of the lock. *)
Definition renew_lease (now : Z) (ulid : string) (b : Leader) (st : MemoryLockManager)
    : option (Leader * MemoryLockManager * result BackgroundSchedulerError ()) :=
  match current_lease b with
  | None => Some (b, st, Err (LeaseError (inr "No lease to renew")))
  | Some l =>
      '(st, r) ← Lk.renew_lock now ulid st "" ""
        (mkRenew (lease_key (node_id b)) (node_id b) (l_version l) (lease_duration b) ∅);
      Some match r with
           | Ok l => (set_lease (Some l) b, st, Ok ())
           | Err (VersionMismatch _ _) =>
               let '(b, adopted) := adopt_current_lease_if_same_holder now b st in
               (b, st, if adopted then Ok ()
                         else Err (LeaseError (inr "Version mismatch and no recoverable current lease found")))
           | Err e => (b, st, Err (LeaseError (inl e)))
           end
  end.
Definition release_lease (b : Leader) (st : MemoryLockManager)
    : Leader * MemoryLockManager * result BackgroundSchedulerError () :=
  match current_lease b with
  | None => (b, st, Ok ())
  | Some l =>
      match Lk.release_lock st "" "" (mkRelease (lease_key (node_id b)) (node_id b) (l_version l) false) with
      | (st, Ok _) => (set_lease None b, st, Ok ())
      | (st, Err e) => (b, st, Err (LeaseError (inl e)))
      end
  end.
(** The start of a scheduler, up to the tasks that it starts. *)
Definition start (now : Z) (ulid : string) (b : Leader) (running : gset string) (st : MemoryLockManager)
    : gset string * MemoryLockManager * result BackgroundSchedulerError Leader :=
  match claim_node_start (node_id b) running with
  | Err e => (running, st, Err e)
  | Ok running =>
      match acquire_lease now ulid b st with
      | (st, Ok l) => (running, st, Ok (set_lease (Some l) b))
      | (st, Err e) => (release_node_start (node_id b) running, st, Err e)
      end
  end.

(** One renewal for each instant of a list, until one succeeds. *)
Fixpoint renew_attempts (times : list (Z * string)) (b : Leader) (st : MemoryLockManager)
    : option (Leader * MemoryLockManager * bool) :=
  match times with
  | [] => Some (b, st, false)
  | (now, ulid) :: times =>
      match renew_lease now ulid b st with
      | Some (b, st, Ok _) => Some (b, st, true)
      | Some (b, st, Err _) => renew_attempts times b st
      | None => None
      end
  end.
Fixpoint acquire_attempts (times : list (Z * string)) (b : Leader) (st : MemoryLockManager)
    : Leader * MemoryLockManager * bool :=
  match times with
  | [] => (b, st, false)
  | (now, ulid) :: times =>
      match acquire_lease now ulid b st with
      | (st, Ok l) => (set_lease (Some l) b, st, true)
      | (st, Err _) => acquire_attempts times b st
      end
  end.
Definition LEASE_RETRY_MAX : nat := 3.
(** A tick of the heartbeat: whether it goes on. *)
Definition heartbeat (clock : nat → Z * string) (b : Leader) (st : MemoryLockManager)
    : option (Leader * MemoryLockManager * bool) :=
  '(b, st, renewed) ← renew_attempts (clock <$> seq 0 LEASE_RETRY_MAX) b st;
  Some (if (renewed : bool) then (b, st, true)
        else acquire_attempts (clock <$> seq LEASE_RETRY_MAX LEASE_RETRY_MAX) b st).

(** ** Lemmas: scores *)

(** Doubles but NaN in their order: by class, exponent and mantissa. *)
Definition rank (x : f64) : Z * Z * Z :=
  match x with
  | S754_infinity true => (-2, 0, 0)
  | S754_finite true m e => (-1, -e, - Z.pos m)
  | S754_zero _ | S754_nan => (0, 0, 0)
  | S754_finite false m e => (1, e, Z.pos m)
  | S754_infinity false => (2, 0, 0)
  end.
Definition rank_lt (a b : Z * Z * Z) : Prop :=
  let '(a1, a2, a3) := a in let '(b1, b2, b3) := b in
  a1 < b1 ∨ a1 = b1 ∧ (a2 < b2 ∨ a2 = b2 ∧ a3 < b3).
Lemma f64_ltb_rank x y : f64_is_nan x = false → f64_is_nan y = false → f64_ltb x y = true ↔ rank_lt (rank x) (rank y).
Proof.
  destruct x as [sx|[]| |[] mx ex], y as [sy|[]| |[] my ey]; intros Hx Hy; try done; cbn;
    unfold f64_ltb, SFltb, SFcompare; try (split; [done|lia]); try (split; [lia|done]);
    destruct (Z.compare_spec ex ey); try (split; [done|lia]); try (split; [lia|done]); cbn;
    try (split; [lia|done]); change (Pos.compare_cont Eq mx my) with (Pos.compare mx my);
    destruct (Pos.compare_spec mx my); cbn; split; try done; lia.
Qed.
Lemma insert_by_score_perm x l : insert_by_score x l ≡ₚ x :: l.
Proof.
  induction l as [|y l IH]; cbn; [done|]. destruct (f64_ltb y.2 x.2); [done|]. rewrite IH. apply Permutation_swap.
Qed.
Lemma sort_by_score_perm l : sort_by_score l ≡ₚ l.
Proof.
  unfold sort_by_score. rewrite <-(app_nil_r l) at 2. generalize (@nil (string * f64)) as acc.
  induction l as [|x l IH]; intros acc; cbn; [done|]. rewrite IH, insert_by_score_perm. solve_Permutation.
Qed.
(** No element has a higher score than the first one. *)
Definition led (l : list (string * f64)) : Prop :=
  match l with x :: l' => ∀ y, y ∈ l' → f64_ltb x.2 y.2 = false | [] => True end.
Lemma insert_by_score_led x l : (∀ y, y ∈ x :: l → f64_is_nan y.2 = false) → led l → led (insert_by_score x l).
Proof.
  intros Hnan Hl. destruct l as [|y l]; cbn; [by intros ? ?%elem_of_nil|].
  assert (f64_is_nan x.2 = false ∧ f64_is_nan y.2 = false) as [Hx Hy] by (split; apply Hnan; set_solver).
  destruct (f64_ltb y.2 x.2) eqn:E; cbn.
  - apply f64_ltb_rank in E; [|done..]. intros z Hz.
    assert (f64_is_nan z.2 = false) as Hzn by (apply Hnan; set_solver).
    apply not_true_is_false. rewrite f64_ltb_rank by done. intros Hxz.
    apply elem_of_cons in Hz as [->|Hz]; [|specialize (Hl z Hz); apply not_true_iff_false in Hl;
      rewrite f64_ltb_rank in Hl by done; apply Hl];
      destruct (rank x.2) as [[? ?] ?], (rank y.2) as [[? ?] ?]; try destruct (rank z.2) as [[? ?] ?];
      unfold rank_lt in *; lia.
  - intros z. rewrite insert_by_score_perm. intros [->|Hz]%elem_of_cons; [done|by apply Hl].
Qed.
Lemma sort_by_score_led l : (∀ y, y ∈ l → f64_is_nan y.2 = false) → led (sort_by_score l).
Proof.
  unfold sort_by_score. assert (led (@nil (string * f64))) as H0 by done. revert H0.
  assert (∀ y, y ∈ @nil (string * f64) → f64_is_nan y.2 = false) as Hn0 by (intros ? []%elem_of_nil).
  revert Hn0. generalize (@nil (string * f64)) as acc.
  induction l as [|x l IH]; intros acc Hacc Hled Hl; cbn; [done|]. apply IH.
  - intros y. rewrite insert_by_score_perm. set_solver.
  - apply insert_by_score_led; [|done]. set_solver.
  - set_solver.
Qed.

(** A node that the request can be placed on. *)
Definition eligible (p : ActorResourceRequirements) (n : string) (c : NodeCapacity) : Prop :=
  matches_labels (from_option required_labels ∅ p) (labels c) = true ∧
  (∀ q r, p = Some q → resource_requirements q = Some r → has_sufficient_resources r c = true) ∧
  (∀ q, p = Some q → n ∉ avoid_node_ids q).
Definition placed_on (p : ActorResourceRequirements) (nodes : gmap string NodeCapacity) : list (string * NodeCapacity) :=
  match p with Some q => apply_node_placement (candidates p nodes) q | None => candidates p nodes end.
Lemma existsb_eqb (n : string) l : existsb (String.eqb n) l = true ↔ n ∈ l.
Proof.
  rewrite existsb_exists. split.
  - intros (m & Hm & ->%String.eqb_eq). by apply list_elem_of_In.
  - intros Hn. exists n. by rewrite <-list_elem_of_In, String.eqb_refl.
Qed.
Lemma elem_of_candidates p nodes n c : (n, c) ∈ candidates p nodes ↔
  nodes !! n = Some c ∧ matches_labels (from_option required_labels ∅ p) (labels c) = true ∧
  (∀ q r, p = Some q → resource_requirements q = Some r → has_sufficient_resources r c = true).
Proof.
  unfold candidates. rewrite <-elem_of_map_to_list.
  assert (∀ f : string * NodeCapacity → bool, (n, c) ∈ List.filter f (map_to_list nodes) ↔
    (n, c) ∈ map_to_list nodes ∧ f (n, c) = true) as Hf.
  { intros f. rewrite !list_elem_of_In. apply filter_In. }
  destruct p as [q|]; cbn; [destruct (resource_requirements q) as [r|] eqn:Hr; cbn|].
  - rewrite list_elem_of_In, filter_In, <-list_elem_of_In, Hf. naive_solver.
  - rewrite Hf. naive_solver.
  - rewrite Hf. naive_solver.
Qed.
Lemma elem_of_placed_on p nodes n c : (n, c) ∈ placed_on p nodes ↔ nodes !! n = Some c ∧ eligible p n c.
Proof.
  unfold eligible. destruct p as [q|]; cbn [placed_on]; [|rewrite elem_of_candidates; naive_solver].
  unfold apply_node_placement. rewrite list_elem_of_In, filter_In, <-list_elem_of_In, elem_of_candidates, negb_true_iff.
  rewrite <-not_true_iff_false, existsb_eqb. naive_solver.
Qed.
Lemma select_node_cases p nodes :
  (∃ q r, p = Some q ∧ resource_requirements q = Some r ∧ f64_ltb (cpu_cores r) f64_zero = true ∧
     select_node p nodes = Err (InvalidRequirements "Resource values must be non-negative")) ∨
  (placed_on p nodes = [] ∧ ∃ m, select_node p nodes = Err (NoMatchingNode m)) ∨
  ∃ x l, sort_by_score ((λ '(n, c), (n, calculate_score p c)) <$> placed_on p nodes) = x :: l ∧
     select_node p nodes = Ok x.
Proof.
  unfold select_node. destruct (match p ≫= resource_requirements with Some r => _ | None => false end) eqn:E.
  { left. destruct p as [q|]; cbn in E; [|done]. destruct (resource_requirements q) as [r|] eqn:Hr; [|done].
    by exists q, r. }
  right. destruct (candidates p nodes) as [|c0 cs0] eqn:Hc.
  { left. split; [|by eexists]. unfold placed_on. rewrite Hc. by destruct p. }
  rewrite <-Hc. change (match p with Some q => _ | None => _ end) with (placed_on p nodes).
  destruct (placed_on p nodes) as [|c1 cs1] eqn:Hp; [left; split; [done|by eexists]|].
  right. destruct (sort_by_score _) as [|x l] eqn:Hs; [|by exists x, l].
  pose proof (sort_by_score_perm ((λ '(n, c), (n, calculate_score p c)) <$> c1 :: cs1)) as Hperm.
  rewrite Hs in Hperm. by apply Permutation_nil in Hperm; destruct c1.
Qed.

(** C34. A node is chosen exactly when some node has the required labels, enough available resources and is not
    to be avoided, unless the request itself is refused for a negative number of cores; the chosen node is
    one of these, with its score, and no other one has a higher score as long as the scores are numbers. *)
Theorem selected_node_is_best p nodes :
  match select_node p nodes with
  | Ok (n, score) =>
      ∃ c, nodes !! n = Some c ∧ eligible p n c ∧ score = calculate_score p c ∧
        ((∀ m d, nodes !! m = Some d → f64_is_nan (calculate_score p d) = false) →
         ∀ m d, nodes !! m = Some d → eligible p m d → f64_ltb score (calculate_score p d) = false)
  | Err (InvalidRequirements _) =>
      ∃ q r, p = Some q ∧ resource_requirements q = Some r ∧ f64_ltb (cpu_cores r) f64_zero = true
  | Err (NoMatchingNode _) => ∀ m d, nodes !! m = Some d → ¬ eligible p m d
  end.
Proof.
  destruct (select_node_cases p nodes) as [(q & r & -> & Hr & Hn & ->)|[[Hp [m ->]]|([n s] & l & Hs & ->)]].
  - by exists q, r.
  - intros n c Hc He. assert ((n, c) ∈ placed_on p nodes) as Hin by by apply elem_of_placed_on.
    rewrite Hp in Hin. by apply elem_of_nil in Hin.
  - set (f := λ '(n, c), (n, calculate_score p c) : string * f64) in *.
    assert ((n, s) ∈ f <$> placed_on p nodes) as Hin.
    { rewrite <-(sort_by_score_perm (f <$> placed_on p nodes)), Hs. left. }
    apply list_elem_of_fmap in Hin as ([n' c] & [= -> ->] & [Hc He]%elem_of_placed_on).
    exists c. split_and!; try done. intros Hnan m d Hm Hd.
    assert (led (sort_by_score (f <$> placed_on p nodes))) as Hled.
    { apply sort_by_score_led. intros y ([m' d'] & -> & [Hd' _]%elem_of_placed_on)%list_elem_of_fmap. by eapply Hnan. }
    assert ((m, calculate_score p d) ∈ sort_by_score (f <$> placed_on p nodes)) as Hm'.
    { rewrite sort_by_score_perm. apply list_elem_of_fmap. exists (m, d). split; [done|]. by apply elem_of_placed_on. }
    rewrite Hs in Hled, Hm'. cbn in Hled. apply elem_of_cons in Hm' as [[= -> He']|Hm']; [|by apply Hled in Hm'].
    rewrite He'. apply not_true_is_false. rewrite f64_ltb_rank; [|by eapply Hnan..].
    destruct (rank (calculate_score p c)) as [[? ?] ?]. cbn. lia.
Qed.

(** ** Lemmas: the store *)
Lemma parse_status_str s : parse_status (status_str s) = s.
Proof. by destruct s. Qed.
Lemma check_scope_spec ctx r : check_scope ctx r = Ok () ↔ rq_tenant_id r = tenant_id ctx ∧ rq_namespace r = namespace ctx.
Proof.
  unfold check_scope. destruct (String.eqb_spec (rq_tenant_id r) (tenant_id ctx)),
    (String.eqb_spec (rq_namespace r) (namespace ctx)); cbn; naive_solver.
Qed.
Lemma row_in_scope_spec {B} ctx (x : Row B) :
  in_scope ctx x = true ↔ row_tenant_id x = tenant_id ctx ∧ row_namespace x = namespace ctx.
Proof. unfold in_scope. by rewrite andb_true_iff, !String.eqb_eq. Qed.

Section store_lemmas.
Context {B : Type} (enc : ActorResourceRequirements → B) (dec : B → option ActorResourceRequirements).

Lemma update_request_inv ctx r now t t' : update_request enc ctx r now t = Ok t' →
  rq_tenant_id r = tenant_id ctx ∧ rq_namespace r = namespace ctx ∧
  (t' = t ∨ ∃ x x', t !! request_id r = Some x ∧ in_scope ctx x = true ∧ in_scope ctx x' = true ∧
     t' = <[request_id r := x']> t).
Proof.
  unfold update_request. destruct (check_scope ctx r) as [[]|] eqn:Hc; [|done]. apply check_scope_spec in Hc as [Ht Hn].
  destruct (encoded enc r) as [q|]; [|done]. cbn. intros [= <-]. split_and!; try done.
  destruct (t !! request_id r) as [x|] eqn:Hx; [|by left]. destruct (in_scope ctx x) eqn:Hs; [|by left].
  right. eexists x, _. split; [done|]. split; [done|]. split; [|reflexivity]. by apply row_in_scope_spec.
Qed.
Lemma store_request_inv ctx r now t t' : store_request enc ctx r now t = Ok t' →
  rq_tenant_id r = tenant_id ctx ∧ rq_namespace r = namespace ctx ∧ t !! request_id r = None ∧
  ∃ q, requirements r = Some q ∧
    t' = <[request_id r := mkRow (status_str (status r)) (enc q) (rq_namespace r) (rq_tenant_id r) (selected_node_id r)
             (actor_id r) (error_message r) (from_option fst now (created_at r)) None None
             (from_option fst now (created_at r))]> t.
Proof.
  unfold store_request. destruct (check_scope ctx r) as [[]|] eqn:Hc; [|done]. apply check_scope_spec in Hc as [Ht Hn].
  unfold encoded. destruct (requirements r) as [q|]; [|done]. cbn. destruct (t !! request_id r); [done|].
  intros [= <-]. eauto 10.
Qed.
End store_lemmas.

(** A stored request is read back in its scope, with times in whole seconds and none of a treatment, and in
    no other scope; its identifier is then taken in every scope; and a request of another scope, stored or
    updated, changes nothing of it. *)
Theorem stored_request_reads_back {B} (enc : ActorResourceRequirements → B) dec ctx r now t t' :
  (∀ q, dec (enc q) = Some q) → store_request enc ctx r now t = Ok t' →
  let here ctx' := String.eqb (tenant_id ctx) (tenant_id ctx') && String.eqb (namespace ctx) (namespace ctx') in
  (∀ ctx', get_request dec ctx' (request_id r) t' =
     Ok (if here ctx' then
           Some (mkRequest (request_id r) (requirements r) (rq_namespace r) (rq_tenant_id r) (status r)
                   (selected_node_id r) (actor_id r) (error_message r)
                   (Some (from_option fst now (created_at r), 0)) None None)
         else None)) ∧
  (∀ ctx' r' now', request_id r' = request_id r → ¬ ∃ t2, store_request enc ctx' r' now' t' = Ok t2) ∧
  (∀ ctx' r' now' t2, here ctx' = false → update_request enc ctx' r' now' t' = Ok t2 →
     t2 !! request_id r = t' !! request_id r).
Proof.
  intros Hdec (Ht & Hn & Hnone & q & Hq & ->)%store_request_inv here. split_and!.
  - intros ctx'. unfold get_request. rewrite lookup_insert_eq. unfold in_scope. cbn. rewrite Ht, Hn.
    change (String.eqb (tenant_id ctx) _ && _) with (here ctx'). destruct (here ctx'); [|done].
    unfold row_to_scheduling_request. cbn. by rewrite Hdec, parse_status_str, Hq.
  - intros ctx' r' now' Hid (t2 & (_ & _ & Hx & _)%store_request_inv). by rewrite Hid, lookup_insert_eq in Hx.
  - intros ctx' r' now' t2 Hh (_ & _ & [->|(x & x' & Hx & Hs & _ & ->)])%update_request_inv; [done|].
    destruct (decide (request_id r' = request_id r)) as [He|He]; [|by rewrite lookup_insert_ne].
    rewrite He, lookup_insert_eq in Hx. simplify_eq. apply row_in_scope_spec in Hs as [Hs1 Hs2]. cbn in Hs1, Hs2.
    unfold here in Hh. rewrite <-Hs1, <-Hs2, Ht, Hn, !String.eqb_refl in Hh. done.
Qed.

(** ** Lemmas: the cluster *)
Section cluster.
Context {B P : Type} (enc : ActorResourceRequirements → B) (dec : B → option ActorResourceRequirements).
Context (enc_rq : SchedulingRequest → P) (dec_rq : P → option SchedulingRequest) (db : string → string).
Hypothesis dec_enc : ∀ r, dec_rq (enc_rq r) = Some r.

(** Requests are pending and of a tenant, in the store and on the way. *)
Record waiting (s : System B P) : Prop := mkWaiting {
  rows_wait : ∀ id x, table s !! id = Some x → row_status x = "PENDING" ∧ row_node x = "" ∧ row_tenant_id x ≠ "";
  sent_wait : ∀ node l m, inboxes s !! node = Some l → m ∈ l → ∃ r, m = enc_rq r ∧ rq_tenant_id r ≠ ""
}.
Lemma waiting_new : waiting system_new.
Proof. split; intros *; cbn; by rewrite lookup_empty. Qed.
Lemma scope_of_tenant md t n : scope_of md = Ok (t, n) → t ≠ "".
Proof.
  unfold scope_of, non_empty. destruct (im_get "x-tenant-id" md) as [s|]; cbn; [|done].
  destruct (String.eqb_spec s ""); cbn; [done|]. by intros [= <- _].
Qed.
Lemma waiting_schedule ulid md id q now s :
  waiting s → waiting (schedule_actor enc enc_rq db ulid md id q now s).1.
Proof.
  intros [Hr Hs]. unfold schedule_actor. destruct q as [q|]; [|done].
  destruct (scope_of md) as [[t n]|] eqn:Hsc; [|done]. apply scope_of_tenant in Hsc.
  destruct (store_request _ _ _ _ _) as [tb|] eqn:Hst; [|done].
  apply store_request_inv in Hst as (_ & _ & _ & q' & _ & ->). cbn. split; cbn.
  - intros id' x [[_ <-]|[_ Hx]]%lookup_insert_Some; [done|by eapply Hr].
  - intros node l m. rewrite lookup_fmap. destruct (inboxes s !! node) as [l0|] eqn:Hl; [|done]. cbn.
    intros [= <-] [Hm| ->%list_elem_of_singleton]%elem_of_app; [by eapply Hs|]. by eexists.
Qed.
Lemma waiting_next node s m s' : waiting s → next_message node s = Some (m, s') →
  waiting s' ∧ table s' = table s ∧ ∃ r, m = enc_rq r ∧ rq_tenant_id r ≠ "".
Proof.
  intros [Hr Hs]. unfold next_message. destruct (inboxes s !! node) as [[|m0 l]|] eqn:Hl; [done| |done].
  intros [= <- <-]. split_and!; [|done|eapply Hs; [exact Hl|by left]]. split; cbn; [done|].
  intros node' l' m' [[<- <-]|[_ Hl']]%lookup_insert_Some Hm'; [|by eapply Hs]. eapply Hs; [exact Hl|by right].
Qed.
Lemma process_refused nodes m now t r : m = enc_rq r → rq_tenant_id r ≠ "" →
  ∃ e, process_request enc dec_rq nodes m now t = Err e.
Proof.
  intros -> Ht. unfold process_request. rewrite dec_enc. destruct (requirements r) as [q|]; [|by eexists].
  destruct (update_request _ _ _ _ _) as [t'|e] eqn:Hu; [|by eexists].
  apply update_request_inv in Hu as (Hu & _). by destruct (select_node _ _) as [[]|].
Qed.
Lemma waiting_exec e s : waiting s → waiting (exec enc enc_rq dec_rq db e s).
Proof.
  intros Hw. destruct e as [ulid md id q now|node|node nodes now|node]; cbn.
  - by apply waiting_schedule.
  - destruct Hw as [Hr Hs]. split; cbn; [done|]. intros node' l m [[<- <-]|[_ Hl]]%lookup_insert_Some Hm.
    + destruct (inboxes s !! node) as [l|] eqn:Hl; cbn in Hm; [by eapply Hs|by apply elem_of_nil in Hm].
    + by eapply Hs.
  - destruct (next_message node s) as [[m s']|] eqn:Hm; [|done].
    apply waiting_next in Hm as (Hw' & _ & r & Hr & Ht); [|done].
    destruct (process_refused nodes m now (table s') r Hr Ht) as [e ->]. done.
  - destruct (next_message node s) as [[m s']|] eqn:Hm; cbn; [|done]. by apply waiting_next in Hm as (? & _).
Qed.
Lemma waiting_run es s : waiting s → waiting (foldl (λ s e, exec enc enc_rq dec_rq db e s) s es).
Proof. revert s. induction es as [|e es IH]; intros s Hw; [done|]. by apply IH, waiting_exec. Qed.
End cluster.

(** C31. No request is ever placed.  Whatever requests, schedulers, capacities and losses of messages there are,
    the scheduler refuses every request that it reads, since it updates the store in the scope of the system
    and the service admits no request without a tenant; and every status that is asked for is pending. *)
Theorem requests_stay_pending {B P} (enc : ActorResourceRequirements → B) dec
    (enc_rq : SchedulingRequest → P) dec_rq db es :
  (∀ r, dec_rq (enc_rq r) = Some r) →
  let s := foldl (λ s e, exec enc enc_rq dec_rq db e s) system_new es in
  (∀ node m s' nodes now, next_message node s = Some (m, s') →
     ∃ e, process_request enc dec_rq nodes m now (table s') = Err e) ∧
  ∀ md id r, get_scheduling_status dec db md id s = Ok r → status r = StatusPending ∧ selected_node_id r = "".
Proof.
  intros Hdec s. assert (waiting enc_rq s) as Hw by (apply waiting_run; [done|apply waiting_new]). split.
  - intros node m s' nodes now (_ & _ & r & Hm & Ht)%(waiting_next enc_rq); [|done]. by eapply process_refused.
  - intros md id r. unfold get_scheduling_status. destruct (scope_of md) as [[t n]|]; [|done].
    unfold get_request. destruct (table s !! id) as [x|] eqn:Hx; [|done].
    destruct (in_scope _ x); [|done]. unfold row_to_scheduling_request.
    destruct (dec (row_requirements x)); [|done]. cbn. intros [= <-]. cbn.
    destruct (rows_wait _ _ Hw _ _ Hx) as (Hst & Hn & _). by rewrite Hst.
Qed.

(** ** Lemmas: the lease *)

(** The locks that the schedulers of some nodes reach, with any lease lengths, times and orders. *)
Inductive led_by_schedulers : MemoryLockManager → Prop :=
| leases_new : led_by_schedulers Lk.new
| leases_acquire now u b st : led_by_schedulers st → led_by_schedulers (acquire_lease now u b st).1
| leases_renew now u b st b' st' r : led_by_schedulers st → renew_lease now u b st = Some (b', st', r) →
    led_by_schedulers st'
| leases_release b st : led_by_schedulers st → led_by_schedulers (release_lease b st).1.2.
Definition lock_of (node : string) : LockKey := ("", "", lease_key node).
(** Nobody else holds the lease of a node. *)
Definition own_leases (st : MemoryLockManager) : Prop :=
  ∀ node e, locks st !! lock_of node = Some e → holder_id e = node.
Lemma lock_of_inj m n : lock_of m = lock_of n → m = n.
Proof. unfold lock_of, lease_key. by intros [= H]. Qed.
Lemma own_insert (st : MemoryLockManager) node e m :
  own_leases st → m = <[lock_of node := e]> (locks st) → holder_id e = node →
  ∀ n f, m !! lock_of n = Some f → holder_id f = n.
Proof. intros Hs -> He n f [[<-%lock_of_inj <-]|[_ Hf]]%lookup_insert_Some; [done|by apply Hs]. Qed.
Ltac own_inserted := unfold own_leases; cbn; eapply own_insert; [eassumption|reflexivity|done].
Lemma acquire_lease_own now u b st : own_leases st → own_leases (acquire_lease now u b st).1.
Proof.
  intros Hs. unfold acquire_lease, Lk.acquire_lock. cbn.
  change ("", "", lease_key (node_id b)) with (lock_of (node_id b)).
  destruct (locks st !! lock_of (node_id b)) as [e|] eqn:He.
  - destruct (negb (Lk.expired now e) && negb (bool_decide (holder_id e = node_id b))); [done|].
    destruct (negb (Lk.expired now e) && bool_decide (holder_id e = node_id b)); [done|]. by own_inserted.
  - by own_inserted.
Qed.
Lemma own_led st : led_by_schedulers st → own_leases st.
Proof.
  induction 1 as [|now u b st _ IH|now u b st b' st' r _ IH Hr|b st _ IH].
  - intros node e. unfold Lk.new. cbn. by rewrite lookup_empty.
  - by apply acquire_lease_own.
  - revert Hr. unfold renew_lease. destruct (current_lease b) as [l|]; [|by intros [= _ <- _]].
    unfold Lk.renew_lock, Lk.renew_check. cbn. change ("", "", lease_key (node_id b)) with (lock_of (node_id b)).
    destruct (locks st !! lock_of (node_id b)) as [e|] eqn:He; [|by intros [= _ <- _]].
    case_bool_decide as Hh; cbn; [|by intros [= _ <- _]]. destruct (Lk.expired now e); [by intros [= _ <- _]|].
    unfold Lk.renew_permit. case_bool_decide; cbn; [done|]. intros [= _ <- _]. by own_inserted.
  - unfold release_lease. destruct (current_lease b) as [l|]; [|done]. unfold Lk.release_lock. cbn.
    change ("", "", lease_key (node_id b)) with (lock_of (node_id b)).
    destruct (locks st !! lock_of (node_id b)) as [e|] eqn:He; [|done].
    case_bool_decide as Hh; cbn; [|done]. case_bool_decide; cbn; [|done]. by own_inserted.
Qed.
Lemma acquire_lease_holds now u b st : own_leases st → 0 < lease_duration b →
  let '(st', r) := acquire_lease now u b st in
  is_ok r = true ∧ (∃ e, Lk.holds st' now (lock_of (node_id b)) (node_id b) e) ∧
  ∀ node e, node ≠ node_id b → Lk.holds st now (lock_of node) node e → Lk.holds st' now (lock_of node) node e.
Proof.
  intros Hs Hd. unfold acquire_lease, Lk.acquire_lock. cbn.
  change ("", "", lease_key (node_id b)) with (lock_of (node_id b)).
  assert (∀ e st', locks st' = <[lock_of (node_id b) := e]> (locks st) → holder_id e = node_id b →
    Lk.expired now e = false → (∃ e, Lk.holds st' now (lock_of (node_id b)) (node_id b) e) ∧
    ∀ node e, node ≠ node_id b → Lk.holds st now (lock_of node) node e → Lk.holds st' now (lock_of node) node e) as Hnew.
  { intros e st' Hl Hh Hx. unfold Lk.holds. rewrite Hl. split.
    - exists e. by rewrite lookup_insert_eq.
    - intros node e' Hne ?. rewrite lookup_insert_ne; [done|]. by intros ?%lock_of_inj. }
  assert (∀ sem, Lk.expired now (mkEntry (node_id b) u (Lk.lease_end now (lease_duration b)) (lease_duration b) now
    true ∅ sem) = false) as Hlive.
  { intros sem. apply Lk.expired_false. cbn. unfold Lk.lease_end. split; [lia|done]. }
  destruct (locks st !! lock_of (node_id b)) as [e|] eqn:He.
  - rewrite bool_decide_eq_true_2 by by apply Hs. rewrite andb_false_r. cbn.
    destruct (Lk.expired now e) eqn:Hx; cbn.
    + split; [done|]. by eapply Hnew.
    + split; [done|]. split; [|done]. exists e. split_and!; [done|by apply Hs|done].
  - cbn. split; [done|]. by eapply Hnew.
Qed.

(** ** Lemmas: the heartbeat *)

Lemma led_permits st : led_by_schedulers st → taken st = ∅.
Proof.
  induction 1 as [|now u b st _ IH|now u b st b' st' r _ IH Hr|b st _ IH]; [done|..].
  - unfold acquire_lease, Lk.acquire_lock. cbn.
    destruct (locks st !! _) as [e|]; [|done]. do 2 (destruct (_ && _); [done|]). done.
  - revert Hr. unfold renew_lease. destruct (current_lease b) as [l|]; [|by intros [= _ <- _]].
    unfold Lk.renew_lock. destruct (Lk.renew_check _ _ _ _ _) as [[sem h]|e].
    + cbn. unfold Lk.renew_permit. rewrite IH. cbn. intros [= _ <- _]. cbn. set_solver.
    + destruct e; try by intros [= _ <- _]. cbn [mbind option_bind].
      destruct (adopt_current_lease_if_same_holder now b st). by intros [= _ <- _].
  - unfold release_lease. destruct (current_lease b) as [l|]; [|done]. unfold Lk.release_lock. cbn.
    destruct (locks st !! _) as [e|]; [|done]. do 2 (case_bool_decide; cbn; [|done]). done.
Qed.
(** A renewal waits for nobody, keeps the identity of the scheduler, and when it succeeds the lease is held. *)
Lemma renew_lease_spec now u b st : led_by_schedulers st → 0 < lease_duration b →
  ∃ b' st' r, renew_lease now u b st = Some (b', st', r) ∧ node_id b' = node_id b ∧
    lease_duration b' = lease_duration b ∧
    (is_ok r = true → ∃ e, Lk.holds st' now (lock_of (node_id b)) (node_id b) e).
Proof.
  intros Hs Hd. pose proof (led_permits _ Hs) as Ht. unfold renew_lease.
  destruct (current_lease b) as [l|]; [|by eexists _, _, _]. unfold Lk.renew_lock, Lk.renew_check. cbn.
  change ("", "", lease_key (node_id b)) with (lock_of (node_id b)).
  destruct (locks st !! lock_of (node_id b)) as [e|] eqn:He; [|by eexists _, _, _].
  case_bool_decide as Hh; cbn; [|by eexists _, _, _].
  destruct (Lk.expired now e); [by eexists _, _, _|]. unfold Lk.renew_permit. rewrite Ht. cbn.
  eexists _, _, _. split_and!; [done..|]. intros _. eexists. split_and!; [apply lookup_insert_eq|done|].
  apply Lk.expired_false. cbn. unfold Lk.lease_end. split; [lia|done].
Qed.
Lemma renew_attempts_spec times b st : led_by_schedulers st → 0 < lease_duration b →
  ∃ b' st' ok, renew_attempts times b st = Some (b', st', ok) ∧ led_by_schedulers st' ∧
    node_id b' = node_id b ∧ lease_duration b' = lease_duration b ∧
    (ok = true → ∃ t e, t ∈ times.*1 ∧ Lk.holds st' t (lock_of (node_id b)) (node_id b) e).
Proof.
  revert b st. induction times as [|[now u] times IH]; intros b st Hs Hd; [by eexists _, _, _|]. cbn.
  destruct (renew_lease_spec now u b st Hs Hd) as (b1 & st1 & r & Hr & Hn & Hd1 & Hh). rewrite Hr.
  assert (led_by_schedulers st1) as Hs1 by by eapply leases_renew. destruct r as [x|x].
  - eexists _, _, _. split_and!; [done..|]. intros _. destruct (Hh eq_refl) as [e He].
    exists now, e. split; [by left|done].
  - destruct (IH b1 st1 Hs1) as (b2 & st2 & ok & -> & Hs2 & Hn2 & Hd2 & Ho); [lia|].
    rewrite Hn in *. eexists _, _, _. split_and!; [done..|congruence|]. intros H.
    destruct (Ho H) as (t & e & ? & ?). exists t, e. split; [by right|done].
Qed.

(** The leases of the schedulers exclude nobody.  In every state that schedulers reach, any two nodes acquire
    their leases and both hold them at the same time, since the key of a lease contains the node. *)
Theorem every_node_leads st now u1 u2 b1 b2 : led_by_schedulers st → node_id b1 ≠ node_id b2 →
  0 < lease_duration b1 → 0 < lease_duration b2 →
  let '(st1, r1) := acquire_lease now u1 b1 st in
  let '(st2, r2) := acquire_lease now u2 b2 st1 in
  is_ok r1 = true ∧ is_ok r2 = true ∧
  (∃ e, Lk.holds st2 now (lock_of (node_id b1)) (node_id b1) e) ∧
  ∃ e, Lk.holds st2 now (lock_of (node_id b2)) (node_id b2) e.
Proof.
  intros Hs Hne H1 H2. apply own_led in Hs. pose proof (acquire_lease_own now u1 b1 st Hs) as Hs1.
  pose proof (acquire_lease_holds now u1 b1 st Hs H1) as A1.
  destruct (acquire_lease now u1 b1 st) as [st1 r1]. cbn in Hs1.
  pose proof (acquire_lease_holds now u2 b2 st1 Hs1 H2) as A2.
  destruct (acquire_lease now u2 b2 st1) as [st2 r2].
  destruct A1 as (Hr1 & [e1 He1] & _), A2 as (Hr2 & He2 & Hkeep). split_and!; try done. exists e1. by apply Hkeep.
Qed.

(** The heartbeat of a scheduler never ends by itself.  In every state that schedulers reach, a tick returns, goes
    on, and leaves the scheduler with a lease that is valid at the instant of one of its attempts. *)
Theorem heartbeat_goes_on clock b st : led_by_schedulers st → 0 < lease_duration b →
  ∃ b' st', heartbeat clock b st = Some (b', st', true) ∧ led_by_schedulers st' ∧ node_id b' = node_id b ∧
    ∃ i e, (i < 2 * LEASE_RETRY_MAX)%nat ∧ Lk.holds st' (clock i).1 (lock_of (node_id b)) (node_id b) e.
Proof.
  intros Hs Hd. unfold heartbeat.
  destruct (renew_attempts_spec (clock <$> seq 0 LEASE_RETRY_MAX) b st Hs Hd) as (b1 & st1 & ok & -> & Hs1 & Hn & Hd1 & Ho).
  cbn [mbind option_bind]. destruct ok.
  - eexists _, _. split_and!; [done..|]. destruct (Ho eq_refl) as (t & e & Ht & He).
    rewrite <-list_fmap_compose in Ht. apply list_elem_of_fmap in Ht as (i & -> & Hi%elem_of_seq).
    exists i, e. split; [unfold LEASE_RETRY_MAX in *; lia|done].
  - unfold LEASE_RETRY_MAX. cbn [seq fmap list_fmap acquire_attempts]. destruct (clock 3%nat) as [now u] eqn:Hc.
    pose proof (acquire_lease_holds now u b1 st1 (own_led _ Hs1) ltac:(lia)) as A.
    pose proof (leases_acquire now u b1 st1 Hs1) as Hs2.
    destruct (acquire_lease now u b1 st1) as [st2 [l|e]]; [|by destruct A]. destruct A as (_ & [e He] & _).
    rewrite Hn in He. eexists _, _. split_and!; [done..|]. exists 3%nat, e. rewrite Hc. split; [lia|done].
Qed.

(** A request of the scope of the system, which the service never admits, is treated: it is placed on the node
    that is chosen for it, or fails with the reason, and is completed at that time. *)
Theorem request_in_system_scope_is_treated {B P} (enc : ActorResourceRequirements → B)
    (dec_rq : P → option SchedulingRequest) nodes m now t r q x :
  dec_rq m = Some r → rq_tenant_id r = "" → rq_namespace r = "" → requirements r = Some q →
  t !! request_id r = Some x → in_scope system_context x = true →
  ∃ x', process_request enc dec_rq nodes m now t = Ok (<[request_id r := x']> t) ∧
    row_completed_at x' = Some now.1 ∧ row_updated_at x' = now.1 ∧ row_created_at x' = row_created_at x ∧
    match select_node q (list_node_capacities nodes None None) with
    | Ok (node, _) => row_status x' = "SCHEDULED" ∧ row_node x' = node ∧ row_scheduled_at x' = Some now.1
    | Err e => row_status x' = "FAILED" ∧ row_node x' = selected_node_id r ∧
               row_error x' = NodeSelectionError_to_string e
    end.
Proof.
  intros Hd Ht Hn Hq Hx Hs. unfold process_request. rewrite Hd, Hq.
  assert (∀ r', rq_tenant_id r' = "" → rq_namespace r' = "" → check_scope system_context r' = Ok ()) as Hc.
  { intros r' Ht' Hn'. by apply check_scope_spec. }
  destruct (select_node _ _) as [[node s]|e]; unfold update_request; rewrite Hc by done; unfold encoded; cbn;
    rewrite Hq; cbn; rewrite Hx, Hs; eexists; (split; [done|]); cbn; by split_and!.
Qed.

(** ** Concrete runs *)
Module Sample.
Definition cores (n : Z) : ResourceSpec := mkResources (f64_of_Z n) 1024 0 0.
Definition capacity (all used : Z) : NodeCapacity :=
  mkCapacity (Some (mkResources (f64_of_Z all) 8192 0 0)) (Some (mkResources (f64_of_Z used) 2048 0 0))
    (Some (mkResources (f64_of_Z (all - used)) 6144 0 0)) ∅.
Definition nodes : gmap string NodeCapacity :=
  <["full" := capacity 4 4]> (<["busy" := capacity 4 2]> {["idle" := capacity 4 0]}).
Definition one_core : ActorResourceRequirements := Some (mkPlacement ∅ [] (Some (cores 1))).
Definition not_on_busy : ActorResourceRequirements := Some (mkPlacement ∅ ["busy"] (Some (cores 1))).
(** The busier node is preferred. *)
Example packed : fst <$> select_node one_core nodes = Ok "busy".
Proof. vm_compute. reflexivity. Qed.
Example packed_elsewhere : fst <$> select_node not_on_busy nodes = Ok "idle".
Proof. vm_compute. reflexivity. Qed.

Definition headers : Metadata := [("x-tenant-id", "acme"); ("x-namespace", "shop")].
Definition registered : list NodeRegistration :=
  [mkRegistration "n1" {["total_cpu_cores" := f64_of_Z 8]} None].
Definition any_node : ActorResourceRequirements := None.
Definition events : list (@Event) :=
  [Subscribe "n1"; Schedule "r1" headers "" (Some any_node) (100, 0); Process "n1" registered (101, 0)].
Definition after (es : list Event) : System ActorResourceRequirements SchedulingRequest :=
  foldl (λ s e, exec id id Some id e s) system_new es.
Definition system_request : SchedulingRequest :=
  mkRequest "r1" (Some any_node) "" "" StatusPending "" "" "" None None None.
Definition pending_row : Row ActorResourceRequirements := mkRow "PENDING" any_node "" "" "" "" "" 7 None None 7.
Definition leader (n : string) : Leader := mkLeader n 30 None.
End Sample.

(** The node could take the actor, and the request stays pending. *)
Example pending_forever :
  fst <$> select_node Sample.any_node (list_node_capacities Sample.registered None None) = Ok "n1" ∧
  (status <$> get_scheduling_status Some id Sample.headers "r1" (Sample.after Sample.events)) = Ok StatusPending.
Proof. split; vm_compute; reflexivity. Qed.
(** Another tenant learns that an identifier is taken. *)
Example identifiers_are_shared :
  (schedule_actor id id id "r2" [("x-tenant-id", "other")] "r1" (Some Sample.any_node) (102, 0)
     (Sample.after Sample.events)).2 = Err (Internal "Failed to store request: r1").
Proof. vm_compute. reflexivity. Qed.

Lemma stored_request_reads_back_witness :
  ∃ t', store_request id (new_without_auth "acme" "shop")
      (mkRequest "r1" (Some Sample.any_node) "shop" "acme" StatusPending "" "" "" (Some (7, 5)) None None) 9 ∅ = Ok t' ∧
  get_request Some (new_without_auth "acme" "other") "r1" t' = Ok None.
Proof.
  eexists. split; [vm_compute; reflexivity|].
  refine (eq_trans (proj1 (stored_request_reads_back id Some (new_without_auth "acme" "shop")
    (mkRequest "r1" (Some Sample.any_node) "shop" "acme" StatusPending "" "" "" (Some (7, 5)) None None) 9 ∅ _ _ _)
    (new_without_auth "acme" "other")) _); [done|vm_compute; reflexivity|vm_compute; reflexivity].
Defined.
Lemma requests_stay_pending_witness :
  (∀ r : SchedulingRequest, Some (id r) = Some r) ∧
  ∀ r, get_scheduling_status Some id Sample.headers "r1" (Sample.after Sample.events) = Ok r → status r = StatusPending.
Proof.
  split; [done|]. intros r Hr.
  exact (proj1 (proj2 (requests_stay_pending id Some id Some id Sample.events (λ _, eq_refl)) _ _ _ Hr)).
Defined.
Lemma every_node_leads_witness :
  led_by_schedulers Lk.new ∧
  is_ok (acquire_lease 5 "v2" (Sample.leader "n2") (acquire_lease 5 "v1" (Sample.leader "n1") Lk.new).1).2 = true.
Proof.
  split; [apply leases_new|].
  exact (proj1 (proj2 (every_node_leads Lk.new 5 "v1" "v2" (Sample.leader "n1") (Sample.leader "n2") leases_new
    ltac:(done) eq_refl eq_refl))).
Defined.
Lemma heartbeat_goes_on_witness :
  led_by_schedulers Lk.new ∧
  ∃ b st, heartbeat (λ i, (Z.of_nat i, "v")) (Sample.leader "n1") Lk.new = Some (b, st, true) ∧ node_id b = "n1".
Proof.
  split; [apply leases_new|].
  destruct (heartbeat_goes_on (λ i, (Z.of_nat i, "v")) (Sample.leader "n1") Lk.new leases_new eq_refl)
    as (b & st & H & _ & Hn & _). by exists b, st.
Defined.
Lemma request_in_system_scope_is_treated_witness :
  ∃ t, process_request (P := SchedulingRequest) id Some Sample.registered Sample.system_request (9, 0)
      {["r1" := Sample.pending_row]} = Ok t ∧ (row_status <$> t !! "r1") = Some "SCHEDULED".
Proof.
  destruct (request_in_system_scope_is_treated id Some Sample.registered Sample.system_request (9, 0)
    {["r1" := Sample.pending_row]} Sample.system_request Sample.any_node Sample.pending_row
    eq_refl eq_refl eq_refl eq_refl (lookup_singleton_eq _ _) eq_refl) as (x' & Hp & _ & _ & _ & Hx).
  eexists. split; [exact Hp|]. change (request_id Sample.system_request) with "r1".
  rewrite lookup_insert_eq. cbn. f_equal. apply Hx.
Defined.
