(* ===== verification/TaskRouter.v ===== *)
(** TaskRouter: the routing of tasks to the actors of a shard group, crates/scheduler/src/task_router.rs.

    The channel of a group is an argument: whether it can be opened, what a publication answers and whether
    a send succeeds; what is sent is an output.  The hash and the random draw are arguments. *)
From S2P Require Import Prelude.

Inductive RoutingStrategy := RoundRobin | LeastLoaded | Random | Hash | Broadcast.
Inductive TaskRouterError :=
| GroupNotFound (group : string)
| NoActorsInGroup (group : string)
| ChannelError (m : string)
| InvalidStrategy.

(** The identifier of its configuration, which a group that is registered needs to have, and its actors. *)
Record ShardGroup := mkGroup { group_id : string; shard_actor_ids : list string }.
(** The load of an actor is the depth of its queue. *)
Record TaskRouter := mkRouter {
  groups : gmap string ShardGroup;
  actor_loads : gmap string Z;
  round_robin_counters : gmap string Z
}.
Definition router_new : TaskRouter := mkRouter ∅ ∅ ∅.
Definition register_group (g : ShardGroup) (r : TaskRouter) : TaskRouter :=
  mkRouter (<[group_id g := g]> (groups r)) (actor_loads r) (round_robin_counters r).
Definition unregister_group (id : string) (r : TaskRouter) : TaskRouter :=
  mkRouter (delete id (groups r)) (actor_loads r) (delete id (round_robin_counters r)).
Definition is_id (x y : string) : bool := String.eqb x y.
Definition add_actor_to_group (id a : string) (r : TaskRouter) : TaskRouter * result TaskRouterError () :=
  match groups r !! id with
  | Some g =>
      let ids := if existsb (is_id a) (shard_actor_ids g) then shard_actor_ids g else shard_actor_ids g ++ [a] in
      (mkRouter (<[id := mkGroup (group_id g) ids]> (groups r)) (actor_loads r) (round_robin_counters r), Ok ())
  | None => (r, Err (GroupNotFound id))
  end.
Definition remove_actor_from_group (id a : string) (r : TaskRouter) : TaskRouter * result TaskRouterError () :=
  match groups r !! id with
  | Some g =>
      (mkRouter (<[id := mkGroup (group_id g) (List.filter (λ b, negb (is_id b a)) (shard_actor_ids g))]> (groups r))
         (delete a (actor_loads r)) (round_robin_counters r), Ok ())
  | None => (r, Err (GroupNotFound id))
  end.
Definition update_actor_load (a : string) (depth : Z) (r : TaskRouter) : TaskRouter :=
  mkRouter (groups r) (<[a := depth]> (actor_loads r)) (round_robin_counters r).
Definition get_group (id : string) (r : TaskRouter) : result TaskRouterError ShardGroup :=
  match groups r !! id with Some g => Ok g | None => Err (GroupNotFound id) end.
Definition list_groups (r : TaskRouter) : list string := (map_to_list (groups r)).*1.

(** The index is below the length, as the list is not empty. *)
Definition select_round_robin (id : string) (ids : list string) (r : TaskRouter) : TaskRouter * string :=
  let counter := default 0 (round_robin_counters r !! id) in
  let idx := Z.to_nat (counter mod Z.of_nat (length ids)) in
  (mkRouter (groups r) (actor_loads r) (<[id := u64_add counter 1]> (round_robin_counters r)), nth idx ids "").
Definition load_of (r : TaskRouter) (a : string) : Z := default 0 (actor_loads r !! a).
Definition select_least_loaded (ids : list string) (r : TaskRouter) : result TaskRouterError string :=
  match ids with
  | [] => Err (NoActorsInGroup "unknown")
  | a :: _ => Ok (foldl (λ best b, if load_of r b <? load_of r best then b else best) a ids)
  end.

(** What the channel of the group does. *)
Record ChannelOutcome := mkOutcome {
  opened : result string ();
  published : result string Z;
  sent_ok : result string ()
}.
Definition to_router {A} (x : result string A) : result TaskRouterError A :=
  match x with Ok a => Ok a | Err m => Err (ChannelError m) end.
(** A task that is sent, with the actor that was selected, whose load is then set to zero. *)
Definition send_to (ch : ChannelOutcome) (id payload a : string) (r : TaskRouter)
    : TaskRouter * result TaskRouterError Z * list (string * string) * option string :=
  match to_router (sent_ok ch) with
  | Err e => (r, Err e, [], Some a)
  | Ok _ => (update_actor_load a 0 r, Ok 1, [(id, payload)], Some a)
  end.
(** The answer, what goes to which channel, and the actor that was selected. *)
Definition route_task (ch : ChannelOutcome) (hash random : nat) (id payload : string) (s : RoutingStrategy)
    (r : TaskRouter) : TaskRouter * result TaskRouterError Z * list (string * string) * option string :=
  match groups r !! id with
  | None => (r, Err (GroupNotFound id), [], None)
  | Some g =>
      let ids := shard_actor_ids g in
      match ids with
      | [] => (r, Err (NoActorsInGroup id), [], None)
      | _ :: _ =>
          match to_router (opened ch) with
          | Err e => (r, Err e, [], None)
          | Ok _ =>
              match s with
              | Broadcast =>
                  match to_router (published ch) with
                  | Ok n => (r, Ok n, [(id, payload)], None)
                  | Err e => (r, Err e, [], None)
                  end
              | RoundRobin => let '(r, a) := select_round_robin id ids r in send_to ch id payload a r
              | LeastLoaded =>
                  match select_least_loaded ids r with
                  | Ok a => send_to ch id payload a r
                  | Err e => (r, Err e, [], None)
                  end
              | Random => send_to ch id payload (nth (random mod length ids) ids "") r
              | Hash => send_to ch id payload (nth (hash mod length ids) ids "") r
              end
          end
      end
  end.
Definition after (x : TaskRouter * result TaskRouterError Z * list (string * string) * option string) : TaskRouter :=
  x.1.1.1.
Definition selected (x : TaskRouter * result TaskRouterError Z * list (string * string) * option string)
    : option string := x.2.
(** The actors that are selected for tasks in a row. *)
Fixpoint route_all (ch : ChannelOutcome) (hash random : nat) (id : string) (s : RoutingStrategy)
    (payloads : list string) (r : TaskRouter) : TaskRouter * list (option string) :=
  match payloads with
  | [] => (r, [])
  | p :: payloads =>
      let x := route_task ch hash random id p s r in
      let '(r, l) := route_all ch hash random id s payloads (after x) in (r, selected x :: l)
  end.

(** What was put on channels. *)
Definition sends (x : TaskRouter * result TaskRouterError Z * list (string * string) * option string)
    : list (string * string) := x.1.2.
(** A channel that works. *)
Definition working : ChannelOutcome := mkOutcome (Ok ()) (Ok 0) (Ok ()).

(** ** Lemmas: round robin *)
Section with_group.
Context (id : string) (g : ShardGroup) (hash random : nat).
Implicit Types r : TaskRouter.

Lemma route_task_round_robin (c : Z) (p : string) r :
  groups r !! id = Some g → (shard_actor_ids g) ≠ [] → default 0 (round_robin_counters r !! id) = c →
  let x := route_task working hash random id p RoundRobin r in
  selected x = Some (nth (Z.to_nat (c mod Z.of_nat (length (shard_actor_ids g)))) (shard_actor_ids g) "") ∧
  groups (after x) = groups r ∧
  round_robin_counters (after x) !! id = Some (u64_add c 1).
Proof.
  intros Hg Hne Hc. unfold route_task. rewrite Hg. destruct (shard_actor_ids g) as [|a l] eqn:Hids; [done|].
  cbn -[Z.modulo Z.of_nat length nth u64_add]. rewrite Hc. split_and!; [done|done|].
  by rewrite lookup_insert_eq.
Qed.
Lemma route_all_round_robin (payloads : list string) (c : Z) r :
  groups r !! id = Some g → (shard_actor_ids g) ≠ [] → default 0 (round_robin_counters r !! id) = c →
  0 ≤ c → c + Z.of_nat (length payloads) < 2 ^ 64 →
  (route_all working hash random id RoundRobin payloads r).2 =
  (λ i, Some (nth (Z.to_nat ((c + Z.of_nat i) mod Z.of_nat (length (shard_actor_ids g)))) (shard_actor_ids g) "")) <$> seq 0 (length payloads).
Proof.
  revert c r. induction payloads as [|p payloads IH]; intros c r Hg Hne Hc Hpos Hmax; [done|].
  destruct (route_task_round_robin c p r Hg Hne Hc) as (Hsel & Hgs & Hcs).
  cbn [route_all]. rewrite length_cons in Hmax.
  destruct (route_task working hash random id p RoundRobin r) as [[[r' res] out] sel] eqn:Hx.
  cbn [after selected fst snd] in *.
  specialize (IH (c + 1) r'). rewrite Hgs, Hcs in IH. cbn [default] in IH.
  rewrite u64_add_small in IH by (unfold u64_max; lia).
  destruct (route_all working hash random id RoundRobin payloads r') as [r'' l]. cbn [snd] in *.
  rewrite IH by (try done; lia).
  cbn [length seq fmap list_fmap]. f_equal; [by rewrite Hsel, Z.add_0_r|].
  rewrite <-fmap_S_seq, <-list_fmap_compose. apply list_fmap_ext. intros _ i _.
  cbn -[Z.of_nat Z.modulo length]. by replace (c + Z.of_nat (S i)) with (c + 1 + Z.of_nat i) by lia.
Qed.
End with_group.

(** A full turn from an index lists what follows it, then what precedes it. *)
Lemma full_turn (ids : list string) (k : nat) :
  (k < length ids)%nat →
  (λ i, Some (nth ((k + i) mod length ids) ids "")) <$> seq 0 (length ids) = Some <$> drop k ids ++ take k ids.
Proof.
  intros Hk. apply list_eq. intros i. rewrite !list_lookup_fmap.
  destruct (decide (i < length ids)%nat) as [Hi|Hi].
  - rewrite lookup_seq_lt by done. cbn [fmap option_fmap option_map Nat.add].
    assert (∀ j, (j < length ids)%nat → Some (Some (nth j ids "")) = Some <$> ids !! j) as Hn.
    { intros j Hj. destruct (lookup_lt_is_Some_2 ids j Hj) as [x Hx]. rewrite Hx. cbn.
      by rewrite (nth_lookup_Some _ _ _ _ Hx). }
    rewrite Hn by (apply Nat.mod_upper_bound; lia). f_equal.
    destruct (decide (i < length ids - k)%nat).
    + rewrite lookup_app_l by (rewrite length_drop; lia). rewrite lookup_drop.
      by rewrite Nat.mod_small by lia.
    + rewrite lookup_app_r by (rewrite length_drop; lia). rewrite length_drop, lookup_take_lt by lia.
      replace (k + i)%nat with (i - (length ids - k) + 1 * length ids)%nat by lia.
      by rewrite Nat.Div0.mod_add, Nat.mod_small by lia.
  - rewrite lookup_seq_ge by lia. rewrite lookup_ge_None_2; [done|].
    rewrite length_app, length_drop, length_take. lia.
Qed.

(** ** Lemmas: the least loaded *)
(** The first actor of a group whose load is least. *)
Definition first_least (r : TaskRouter) (a : string) (ids : list string) : Prop :=
  ∃ l1 l2, ids = l1 ++ a :: l2 ∧ (∀ b, b ∈ l1 → load_of r a < load_of r b) ∧
  (∀ b, b ∈ l2 → load_of r a ≤ load_of r b).

Definition pick_less (r : TaskRouter) (best b : string) : string :=
  if load_of r b <? load_of r best then b else best.
Lemma pick_less_keeps (r : TaskRouter) (a : string) (l : list string) :
  (∀ b, b ∈ l → load_of r a ≤ load_of r b) → foldl (pick_less r) a l = a.
Proof.
  induction l as [|b l IH]; intros H; [done|]. cbn. unfold pick_less at 2.
  destruct (Z.ltb_spec (load_of r b) (load_of r a)) as [Hlt|_].
  - specialize (H b ltac:(left)). lia.
  - apply IH. intros c Hc. apply H. by right.
Qed.
Lemma pick_less_reaches (r : TaskRouter) (a x : string) (l1 l2 : list string) :
  load_of r a < load_of r x → (∀ b, b ∈ l1 → load_of r a < load_of r b) →
  (∀ b, b ∈ l2 → load_of r a ≤ load_of r b) → foldl (pick_less r) x (l1 ++ a :: l2) = a.
Proof.
  revert x. induction l1 as [|b l1 IH]; intros x Hx H1 H2; cbn; unfold pick_less at 2.
  - destruct (Z.ltb_spec (load_of r a) (load_of r x)); [by apply pick_less_keeps|lia].
  - assert (load_of r a < load_of r b) by (apply H1; left).
    apply IH; [by case_match|intros c Hc; apply H1; by right|done].
Qed.
Lemma selects_first_least (r : TaskRouter) (a : string) (ids : list string) :
  first_least r a ids → select_least_loaded ids r = Ok a.
Proof.
  intros (l1 & l2 & -> & H1 & H2). destruct l1 as [|x l1]; cbn [app select_least_loaded]; f_equal;
    change (λ best b : string, _) with (pick_less r).
  - apply pick_less_keeps. intros b [->|Hb]%elem_of_cons; [lia|by apply H2].
  - assert (load_of r a < load_of r x) by (apply H1; left).
    apply (pick_less_reaches r a x (x :: l1) l2); [done| |done]. done.
Qed.
Lemma first_least_exists (r : TaskRouter) (ids : list string) :
  ids ≠ [] → ∃ a, first_least r a ids.
Proof.
  induction ids as [|x ids IH]; [done|]. intros _. destruct ids as [|y ids].
  - exists x, [], []. split_and!; [done|..]; intros b Hb; by apply elem_of_nil in Hb.
  - destruct IH as (a & l1 & l2 & Heq & H1 & H2); [done|].
    destruct (decide (load_of r a < load_of r x)) as [Hlt|Hge].
    + exists a, (x :: l1), l2. split_and!; [by rewrite Heq| |done].
      intros b [->|Hb]%elem_of_cons; [done|by apply H1].
    + exists x, [], (y :: ids). split_and!; [done| |]; intros b Hb; [by apply elem_of_nil in Hb|].
      rewrite Heq in Hb. apply elem_of_app in Hb as [Hb|[->|Hb]%elem_of_cons].
      * specialize (H1 b Hb). lia.
      * lia.
      * specialize (H2 b Hb). lia.
Qed.
(** Setting the load of the first of the least loaded to zero keeps it so. *)
Lemma first_least_reset (r : TaskRouter) (a : string) (ids : list string) :
  (∀ b, 0 ≤ load_of r b) → first_least r a ids → first_least (update_actor_load a 0 r) a ids.
Proof.
  intros Hpos (l1 & l2 & -> & H1 & H2).
  assert (∀ b, load_of (update_actor_load a 0 r) b = if decide (a = b) then 0 else load_of r b) as Hl.
  { intros b. unfold load_of. cbn. case_decide as Hd; [by rewrite Hd, lookup_insert_eq|by rewrite lookup_insert_ne]. }
  exists l1, l2. split_and!; [done|..]; intros b Hb; rewrite !Hl, decide_True by done; case_decide as Hd.
  - subst. specialize (H1 b Hb). lia.
  - specialize (H1 b Hb). specialize (Hpos a). lia.
  - lia.
  - apply Hpos.
Qed.
Lemma route_all_least_loaded (id : string) (g : ShardGroup) (h n : nat) (payloads : list string)
    (a : string) (r : TaskRouter) :
  groups r !! id = Some g → (∀ b, 0 ≤ load_of r b) → first_least r a (shard_actor_ids g) →
  (route_all working h n id LeastLoaded payloads r).2 = replicate (length payloads) (Some a).
Proof.
  revert r. induction payloads as [|p payloads IH]; intros r Hg Hpos Ha; [done|].
  cbn [route_all length replicate]. 
  assert (route_task working h n id p LeastLoaded r = (update_actor_load a 0 r, Ok 1, [(id, p)], Some a)) as ->.
  { unfold route_task. rewrite Hg, (selects_first_least r a) by done.
    by destruct Ha as (l1 & l2 & -> & _), l1. }
  cbn [after selected fst snd].
  specialize (IH (update_actor_load a 0 r)).
  destruct (route_all working h n id LeastLoaded payloads (update_actor_load a 0 r)) as [r' l].
  cbn [snd] in *. f_equal. apply IH; [done| |by apply first_least_reset].
  intros b. unfold load_of. cbn. destruct (decide (a = b)) as [->|Hne].
  - by rewrite lookup_insert_eq.
  - rewrite lookup_insert_ne by done. apply Hpos.
Qed.

(** Round robin is fair: from a counter [c] below the width of the counter, as many tasks as the group has
    actors select each place of the group once, in its order, starting at [c] modulo the number of actors. *)
Theorem round_robin_is_fair (id : string) (g : ShardGroup) (h n : nat) (payloads : list string) (c : nat)
    (r : TaskRouter) :
  groups r !! id = Some g → shard_actor_ids g ≠ [] → length payloads = length (shard_actor_ids g) →
  default 0 (round_robin_counters r !! id) = Z.of_nat c →
  Z.of_nat c + Z.of_nat (length payloads) < 2 ^ 64 →
  let k := (c mod length (shard_actor_ids g))%nat in
  (route_all working h n id RoundRobin payloads r).2 =
  Some <$> drop k (shard_actor_ids g) ++ take k (shard_actor_ids g).
Proof.
  intros Hg Hne Hlen Hc Hmax k.
  assert (length (shard_actor_ids g) ≠ 0)%nat by (by destruct (shard_actor_ids g)).
  rewrite (route_all_round_robin id g h n payloads (Z.of_nat c)) by (try done; lia).
  rewrite <-full_turn by (apply Nat.mod_upper_bound; lia). rewrite Hlen.
  apply list_fmap_ext. intros _ i _. f_equal. f_equal.
  rewrite <-Nat2Z.inj_add, <-Nat2Z.inj_mod, Nat2Z.id. unfold k.
  by rewrite Nat.Div0.add_mod_idemp_l.
Qed.

(** The least loaded strategy takes an actor of the group whose load is least, and from then on only that
    one: a task that is sent sets the load of its actor to zero. *)
Theorem least_loaded_sticks (id : string) (g : ShardGroup) (h n : nat) (payloads : list string) (r : TaskRouter) :
  groups r !! id = Some g → shard_actor_ids g ≠ [] → (∀ b, 0 ≤ load_of r b) →
  ∃ a, a ∈ shard_actor_ids g ∧ (∀ b, b ∈ shard_actor_ids g → load_of r a ≤ load_of r b) ∧
  (route_all working h n id LeastLoaded payloads r).2 = replicate (length payloads) (Some a).
Proof.
  intros Hg Hne Hpos. destruct (first_least_exists r (shard_actor_ids g) Hne) as [a Ha].
  exists a. split_and!; [..|by eapply route_all_least_loaded]; destruct Ha as (l1 & l2 & -> & H1 & H2).
  - set_solver.
  - intros b [Hb|[->|Hb]%elem_of_cons]%elem_of_app; [specialize (H1 b Hb); lia|lia|by apply H2].
Qed.

(** Nobody is told which actor was selected: every strategy but the broadcast puts the same on the same
    channel and answers the same, whatever the loads, the counters, the hash and the random draw. *)
Theorem selection_is_not_sent (ch : ChannelOutcome) (h1 h2 n1 n2 : nat) (id payload : string)
    (s1 s2 : RoutingStrategy) (r1 r2 : TaskRouter) :
  s1 ≠ Broadcast → s2 ≠ Broadcast → groups r1 = groups r2 →
  let x1 := route_task ch h1 n1 id payload s1 r1 in
  let x2 := route_task ch h2 n2 id payload s2 r2 in
  sends x1 = sends x2 ∧ x1.1.1.2 = x2.1.1.2.
Proof.
  intros H1 H2 Hg. cbn zeta. unfold route_task. rewrite Hg.
  destruct (groups r2 !! id) as [[gid [|a l]]|]; [done| |done]. cbn [shard_actor_ids].
  destruct (to_router (opened ch)); [|done].
  unfold send_to, select_least_loaded, select_round_robin.
  by destruct s1, s2; try done; destruct (to_router (sent_ok ch)).
Qed.

Module Sample.
Definition workers : ShardGroup := mkGroup "g" ["a"; "b"; "c"].
Definition router : TaskRouter := update_actor_load "a" 5 (register_group workers router_new).
Example three_and_one :
  (route_all working 0 0 "g" RoundRobin ["1"; "2"; "3"; "4"] router).2 = [Some "a"; Some "b"; Some "c"; Some "a"].
Proof. vm_compute. reflexivity. Qed.
Example unknown_group : (route_task working 0 0 "h" "1" Hash router).1.1.2 = Err (GroupNotFound "h").
Proof. vm_compute. reflexivity. Qed.
End Sample.

Theorem round_robin_is_fair_witness :
  (route_all working 0 0 "g" RoundRobin ["1"; "2"; "3"] Sample.router).2 = Some <$> ["a"; "b"; "c"] ++ [].
Proof.
  refine (round_robin_is_fair "g" Sample.workers 0 0 ["1"; "2"; "3"] 0 Sample.router _ _ _ _ _);
    [vm_compute; reflexivity|discriminate|reflexivity|vm_compute; reflexivity|vm_compute; reflexivity].
Defined.
Lemma sample_loads (b : string) : 0 ≤ load_of Sample.router b.
Proof.
  unfold load_of. cbn. destruct (decide ("a" = b)) as [<-|Hne]; [done|].
  by rewrite lookup_insert_ne.
Qed.
Theorem least_loaded_sticks_witness :
  ∃ a, a ∈ ["a"; "b"; "c"] ∧ (∀ b, b ∈ ["a"; "b"; "c"] → load_of Sample.router a ≤ load_of Sample.router b) ∧
  (route_all working 0 0 "g" LeastLoaded ["1"; "2"] Sample.router).2 = replicate 2 (Some a).
Proof.
  refine (least_loaded_sticks "g" Sample.workers 0 0 ["1"; "2"] Sample.router _ _ sample_loads);
    [vm_compute; reflexivity|discriminate].
Defined.
Theorem selection_is_not_sent_witness :
  sends (route_task working 0 0 "g" "p" RoundRobin Sample.router) =
  sends (route_task working 7 2 "g" "p" Hash Sample.router).
Proof.
  refine (proj1 (selection_is_not_sent working 0 7 0 2 "g" "p" RoundRobin Hash Sample.router Sample.router _ _ _));
    [discriminate|discriminate|reflexivity].
Defined.
