(* ===== verification/Identity.v ===== *)
(** Identity: the identity of an actor and the reason of its termination.

    [ActorId] is crates/service-traits/src/actor_id.rs; [ExitReason] is
    crates/actor/src/exit_reason.rs with the string form of crates/actor/src/actor_monitor.rs.
    A Rust string is the sequence of its bytes; the separators and the character classes are ASCII,
    so searching bytes and searching characters find the same. *)
From S2P Require Import Prelude Text.
From Stdlib Require Import Ascii.
#[local] Arguments String.append : simpl nomatch.

(** ** Actor identities *)

Inductive ActorIdError :=
| InvalidName (name : string)
| InvalidActorType (actor_type : string)
| MissingField (field : string)
| InvalidFormat (msg : string).

Record ActorId := mkActorId {
  canonical : string;
  name : string;
  actor_type : string;
  namespace : string;
  node_id : string
}.
Record ProtoActorId := mkProtoActorId {
  p_name : string; p_actor_type : string; p_namespace : string; p_node_id : string
}.

Definition NAME_MAX_LEN : nat := 128.
Definition ACTOR_TYPE_MAX_LEN : nat := 128.
Definition NAME_PATTERN : string := "^[a-zA-Z0-9][a-zA-Z0-9_-]*$".
Definition ACTOR_TYPE_PATTERN : string := "^[a-zA-Z][a-zA-Z0-9_-]*$".
Definition ActorIdError_to_string (e : ActorIdError) : string :=
  match e with
  | InvalidName name => "Invalid actor name '" +:+ name +:+ "': must match " +:+ NAME_PATTERN +:+ " (max 128 chars)"
  | InvalidActorType ty =>
      "Invalid actor_type '" +:+ ty +:+ "': must match " +:+ ACTOR_TYPE_PATTERN +:+ " (max 128 chars)"
  | MissingField field => "Missing required field: " +:+ field
  | InvalidFormat msg => "Invalid canonical format: " +:+ msg
  end.
Definition TEMP_SENDER_PREFIX : string := "ask".
Definition TEMP_SENDER_ACTOR_TYPE : string := "temporary_sender".

Definition is_id_char (c : ascii) : bool :=
  is_ascii_alphanumeric c || bool_decide (c = "-"%char) || bool_decide (c = "_"%char).

Definition validate_required (field value : string) : result ActorIdError () :=
  if String.eqb value "" then Err (MissingField field) else Ok ().
Definition validate_name (name : string) : result ActorIdError () :=
  if (NAME_MAX_LEN <? String.length name)%nat then Err (InvalidName name)
  else match name with
       | EmptyString => Err (InvalidName name)
       | String first chars =>
           if negb (is_ascii_alphanumeric first) then Err (InvalidName name)
           else if str_all is_id_char chars then Ok () else Err (InvalidName name)
       end.
Definition validate_actor_type (ty : string) : result ActorIdError () :=
  _ ← validate_required "actor_type" ty;
  if (ACTOR_TYPE_MAX_LEN <? String.length ty)%nat then Err (InvalidActorType ty)
  else match ty with
       | EmptyString => Err (InvalidActorType ty)
       | String first chars =>
           if negb (is_ascii_alphabetic first) then Err (InvalidActorType ty)
           else if negb (str_all is_id_char chars) then Err (InvalidActorType ty)
           else Ok ()
       end.

Definition format_canonical (name ty ns node : string) : string :=
  name +:+ "//" +:+ ty +:+ "::" +:+ ns +:+ "@" +:+ node.

Definition ActorId_new (name ty ns node : string) : result ActorIdError ActorId :=
  _ ← validate_name name;
  _ ← validate_actor_type ty;
  _ ← validate_required "namespace" ns;
  _ ← validate_required "node_id" node;
  Ok (mkActorId (format_canonical name ty ns node) name ty ns node).

Definition ok_or {A E} (e : E) (o : option A) : result E A :=
  match o with Some a => Ok a | None => Err e end.

Definition from_canonical (s : string) : result ActorIdError ActorId :=
  '(before_node, node) ← ok_or (InvalidFormat ("missing @ in '" +:+ s +:+ "'")) (rsplit_once "@" s);
  '(name, after_name) ←
    ok_or (InvalidFormat ("missing // in '" +:+ s +:+ "'")) (split_once "//" before_node);
  '(ty, ns) ← ok_or (InvalidFormat ("missing :: in '" +:+ s +:+ "'")) (split_once "::" after_name);
  ActorId_new name ty ns node.

Definition from_proto (p : ProtoActorId) : result ActorIdError ActorId :=
  ActorId_new (p_name p) (p_actor_type p) (p_namespace p) (p_node_id p).
Definition to_proto (a : ActorId) : ProtoActorId :=
  mkProtoActorId (name a) (actor_type a) (namespace a) (node_id a).
Definition with_node_id (a : ActorId) (node : string) : result ActorIdError ActorId :=
  ActorId_new (name a) (actor_type a) (namespace a) node.
Definition is_on_node (a : ActorId) (node : string) : bool := String.eqb (node_id a) node.
Definition temporary_sender (correlation_id ns node : string) : result ActorIdError ActorId :=
  ActorId_new (TEMP_SENDER_PREFIX +:+ "_" +:+ correlation_id) TEMP_SENDER_ACTOR_TYPE ns node.
Definition is_temporary_sender (a : ActorId) : bool :=
  String.eqb (actor_type a) TEMP_SENDER_ACTOR_TYPE
  && String.prefix (TEMP_SENDER_PREFIX +:+ "_") (name a).
(** [PartialEq]: identities are compared by their canonical form. *)
Definition ActorId_eqb (a b : ActorId) : bool := String.eqb (canonical a) (canonical b).

(** ** Actor types of WASM applications *)

(** The characters of the application name are code points. *)
Definition slug_char (c : Z) : ascii :=
  if (97 <=? c) && (c <=? 122) || (48 <=? c) && (c <=? 57) || (c =? 45) || (c =? 95)
  then ascii_of_nat (Z.to_nat c)
  else if (65 <=? c) && (c <=? 90) then ascii_of_nat (Z.to_nat (c + 32))
  else "_"%char.
Fixpoint of_chars (l : list ascii) : string :=
  match l with [] => EmptyString | c :: l => String c (of_chars l) end.
Fixpoint contains_uu (s : string) : bool :=
  match s with
  | String a ((String b _) as t) =>
      bool_decide (a = "_"%char) && bool_decide (b = "_"%char) || contains_uu t
  | _ => false
  end.
(** [slug.replace("__", "_")] *)
Fixpoint replace_uu (s : string) : string :=
  match s with
  | String a ((String b r) as t) =>
      if bool_decide (a = "_"%char) && bool_decide (b = "_"%char)
      then String "_" (replace_uu r) else String a (replace_uu t)
  | _ => s
  end.
(** [while slug.contains("__") { ... }]; every round shortens the slug. *)
Fixpoint collapse (fuel : nat) (s : string) : string :=
  match fuel with
  | O => s
  | S fuel => if contains_uu s then collapse fuel (replace_uu s) else s
  end.
Fixpoint trim_start (c : ascii) (s : string) : string :=
  match s with
  | String d s' => if bool_decide (d = c) then trim_start c s' else s
  | EmptyString => s
  end.
Fixpoint trim_end (c : ascii) (s : string) : string :=
  match s with
  | String d s' =>
      match trim_end c s' with
      | EmptyString => if bool_decide (d = c) then EmptyString else String d EmptyString
      | t => String d t
      end
  | EmptyString => s
  end.
Definition str_take (n : nat) (s : string) : string := String.substring 0 n s.
Definition ends_with (suf s : string) : bool :=
  (String.length suf <=? String.length s)%nat
  && String.eqb (str_drop (String.length s - String.length suf) s) suf.
Fixpoint trim_end_matches (fuel : nat) (suf s : string) : string :=
  match fuel with
  | O => s
  | S fuel =>
      if ends_with suf s
      then trim_end_matches fuel suf (str_take (String.length s - String.length suf) s) else s
  end.

Definition wasm_application_slug_base (app_name : list Z) : string :=
  let slug := of_chars (slug_char <$> app_name) in
  let slug := collapse (String.length slug) slug in
  let slug := trim_end "_" (trim_start "_" slug) in
  let slug := if String.eqb slug "" then "wasm" else slug in
  match slug with
  | String first _ => if negb (is_ascii_lowercase first) then "app_" +:+ slug else slug
  | EmptyString => slug
  end.
(** [while !slug.is_empty() && validate_actor_type(&slug).is_err() { slug.pop(); }] *)
Fixpoint pop_until_valid (fuel : nat) (s : string) : string :=
  match fuel with
  | O => s
  | S fuel =>
      if negb (String.eqb s "") && negb (is_ok (validate_actor_type s))
      then pop_until_valid fuel (str_take (String.length s - 1) s) else s
  end.
Definition clamp_valid_actor_type_slug (slug fallback : string) : string :=
  let slug :=
    if (ACTOR_TYPE_MAX_LEN <? String.length slug)%nat
    then pop_until_valid ACTOR_TYPE_MAX_LEN (str_take ACTOR_TYPE_MAX_LEN slug) else slug in
  if is_ok (validate_actor_type slug) then slug else fallback.
Definition wasm_worker_actor_type_from_application_name (app_name : list Z) : string :=
  let slug := wasm_application_slug_base app_name in
  let slug := if ends_with "_wasm" slug then slug else slug +:+ "_wasm" in
  clamp_valid_actor_type_slug slug "wasm_app".
Definition wasm_root_supervisor_actor_type_from_application_name (app_name : list Z) : string :=
  let slug := wasm_application_slug_base app_name in
  let slug := if ends_with "_wasm" slug
              then trim_end_matches (String.length slug) "_wasm" slug else slug in
  let slug := if ends_with "_supervisor" slug then slug else slug +:+ "_supervisor" in
  clamp_valid_actor_type_slug slug "wasm_supervisor".

(** ** Exit reasons *)

Inductive ExitReason :=
| Normal
| Shutdown
| Killed
| Error (msg : string)
| Linked (actor_id : ActorId) (reason : ExitReason).
Inductive ProtoExitReason :=
| ExitReasonUnspecified | ExitReasonNormal | ExitReasonShutdown | ExitReasonKilled
| ExitReasonError | ExitReasonLinked.
(** The reason of the linked actor is an open protobuf enum: any [i32]. *)
Record ExitReasonDetails := mkDetails {
  error_message : string; linked_actor_id : string; linked_reason : Z
}.
Definition proto_as_i32 (p : ProtoExitReason) : Z :=
  match p with
  | ExitReasonUnspecified => 0 | ExitReasonNormal => 1 | ExitReasonShutdown => 2
  | ExitReasonKilled => 3 | ExitReasonError => 4 | ExitReasonLinked => 5
  end.
Definition proto_try_from (z : Z) : option ProtoExitReason :=
  match z with
  | 0 => Some ExitReasonUnspecified | 1 => Some ExitReasonNormal | 2 => Some ExitReasonShutdown
  | 3 => Some ExitReasonKilled | 4 => Some ExitReasonError | 5 => Some ExitReasonLinked
  | _ => None
  end.

(** [expect]: the identity is valid ([unknown_is_valid]). *)
Definition unknown_linked_actor_id : ActorId :=
  match ActorId_new "unknown" "system" "default" "unknown" with
  | Ok a => a
  | Err _ => mkActorId "" "" "" "" ""
  end.

Definition reason_to_proto (r : ExitReason) : ProtoExitReason :=
  match r with
  | Normal => ExitReasonNormal | Shutdown => ExitReasonShutdown | Killed => ExitReasonKilled
  | Error _ => ExitReasonError | Linked _ _ => ExitReasonLinked
  end.
Definition reason_to_proto_details (r : ExitReason) : option ExitReasonDetails :=
  match r with
  | Error msg => Some (mkDetails msg "" 0)
  | Linked a r => Some (mkDetails "" (canonical a) (proto_as_i32 (reason_to_proto r)))
  | _ => None
  end.
(** The recursive call of the [ExitReasonLinked] case passes no details, so it ends there. *)
Definition reason_from_proto_none (p : ProtoExitReason) : ExitReason :=
  match p with
  | ExitReasonNormal => Normal | ExitReasonShutdown => Shutdown | ExitReasonKilled => Killed
  | ExitReasonError => Error "unknown error"
  | ExitReasonLinked => Linked unknown_linked_actor_id Normal
  | ExitReasonUnspecified => Normal
  end.
Definition reason_from_proto (p : ProtoExitReason) (details : option ExitReasonDetails) : ExitReason :=
  match p, details with
  | ExitReasonError, Some d =>
      Error (if String.eqb (error_message d) "" then "unknown error" else error_message d)
  | ExitReasonLinked, Some d =>
      let actor_id :=
        if String.eqb (linked_actor_id d) "" then unknown_linked_actor_id
        else match from_canonical (linked_actor_id d) with
             | Ok a => a | Err _ => unknown_linked_actor_id end in
      let reason :=
        if linked_reason d =? 0 then Normal
        else match proto_try_from (linked_reason d) with
             | Some p => reason_from_proto_none p | None => Normal end in
      Linked actor_id reason
  | p, _ => reason_from_proto_none p
  end.

Definition is_normal (r : ExitReason) : bool := match r with Normal => true | _ => false end.
Definition is_error (r : ExitReason) : bool :=
  match r with Error _ | Linked _ _ => true | _ => false end.
Fixpoint reason_error_message (r : ExitReason) : option string :=
  match r with Error msg => Some msg | Linked _ r => reason_error_message r | _ => None end.

(** [FromStr]; the rest of a linked reason is parsed recursively, with the length as fuel. *)
Fixpoint parse_fuel (fuel : nat) (s : string) : ExitReason :=
  match fuel with
  | O => Error s
  | S fuel =>
      if String.eqb s "normal" then Normal
      else if String.eqb s "shutdown" then Shutdown
      else if String.eqb s "killed" then Killed
      else if String.prefix "linked:" s then
        match splitn 3 ":" s with
        | _ :: p1 :: p2 :: _ =>
            Linked (match from_canonical p1 with Ok a => a | Err _ => unknown_linked_actor_id end)
              (parse_fuel fuel p2)
        | _ => Error s
        end
      else Error s
  end.
Definition from_str (s : string) : ExitReason := parse_fuel (S (String.length s)) s.

(** [exit_reason_to_string] of actor_monitor.rs; [inner] names the reason of the linked actor. *)
Definition inner_reason_to_string (r : ExitReason) : string :=
  match r with
  | Normal => "normal" | Shutdown => "shutdown" | Killed => "killed" | Error msg => msg
  | Linked _ _ => "linked"
  end.
Definition exit_reason_to_string (r : ExitReason) : string :=
  match r with
  | Normal => "normal" | Shutdown => "shutdown" | Killed => "killed" | Error msg => msg
  | Linked a r => "linked:" +:+ canonical a +:+ ":" +:+ inner_reason_to_string r
  end.

(** ** Lemmas: identities *)

Lemma id_char_not_sep c d :
  is_id_char c = true → d ∈ ["/"; ":"; "@"]%char → negb (bool_decide (c = d)) = true.
Proof.
  intros Hc Hd. apply negb_true_iff, bool_decide_eq_false. intros ->.
  repeat (apply elem_of_cons in Hd as [->|Hd]; [by vm_compute in Hc|]). by apply elem_of_nil in Hd.
Qed.

Lemma alphanumeric_id_char c : is_ascii_alphanumeric c = true → is_id_char c = true.
Proof. unfold is_id_char. by intros ->. Qed.

Lemma alphabetic_alphanumeric c : is_ascii_alphabetic c = true → is_ascii_alphanumeric c = true.
Proof. unfold is_ascii_alphanumeric. by intros ->. Qed.

Lemma validate_name_chars n : validate_name n = Ok () → str_all is_id_char n = true.
Proof.
  unfold validate_name. destruct (_ <? _)%nat; [done|]. destruct n as [|c n]; [done|].
  destruct (is_ascii_alphanumeric c) eqn:Hc; [|done]. simpl.
  destruct (str_all is_id_char n); [|done]. by rewrite alphanumeric_id_char.
Qed.

Lemma validate_actor_type_chars t : validate_actor_type t = Ok () → str_all is_id_char t = true.
Proof.
  unfold validate_actor_type, validate_required. destruct (String.eqb t ""); [done|]. simpl.
  destruct (_ <? _)%nat; [done|]. destruct t as [|c t]; [done|].
  destruct (is_ascii_alphabetic c) eqn:Hc; [|done]. simpl.
  destruct (str_all is_id_char t); [|done].
  by rewrite alphanumeric_id_char by (by apply alphabetic_alphanumeric).
Qed.

Lemma ActorId_new_Ok n t ns node a :
  ActorId_new n t ns node = Ok a ↔
  a = mkActorId (format_canonical n t ns node) n t ns node
  ∧ validate_name n = Ok () ∧ validate_actor_type t = Ok () ∧ ns ≠ "" ∧ node ≠ "".
Proof.
  unfold ActorId_new. destruct (validate_name n) as [[]|]; simpl; [|naive_solver].
  destruct (validate_actor_type t) as [[]|]; simpl; [|naive_solver].
  unfold validate_required. destruct (String.eqb_spec ns ""); simpl; [naive_solver|].
  destruct (String.eqb_spec node ""); simpl; [naive_solver|]. naive_solver.
Qed.

(** An identity as the constructors build it. *)
Definition valid (a : ActorId) : Prop :=
  ActorId_new (name a) (actor_type a) (namespace a) (node_id a) = Ok a.

Lemma ActorId_new_valid n t ns node a : ActorId_new n t ns node = Ok a → valid a.
Proof. intros H. pose proof H as (-> & ?)%ActorId_new_Ok. exact H. Qed.

Lemma no_sep d s : d ∈ ["/"; ":"; "@"]%char →
  str_all is_id_char s = true → str_all (λ c, negb (bool_decide (c = d))) s = true.
Proof. intros Hd. apply str_all_impl. intros c Hc. by apply id_char_not_sep. Qed.

(** What [from_canonical] reads is decided by the last [@]. *)
Lemma from_canonical_split n t ns node :
  str_all is_id_char n = true → str_all is_id_char t = true →
  str_all (λ c, negb (bool_decide (c = "@"%char))) node = true →
  from_canonical (format_canonical n t ns node) = ActorId_new n t ns node.
Proof.
  intros Hn Ht Hnode. unfold from_canonical, format_canonical.
  replace (n +:+ "//" +:+ t +:+ "::" +:+ ns +:+ "@" +:+ node)
    with ((n +:+ "//" +:+ t +:+ "::" +:+ ns) +:+ String "@" node)
    by (rewrite !str_app_assoc; reflexivity).
  rewrite rsplit_once_app by done. cbn [ok_or mbind result_bind].
  rewrite (split_once_app "/" "/") by (apply no_sep; [by repeat constructor | done]).
  cbn [ok_or mbind result_bind]. by rewrite (split_once_app ":" ":") by (apply no_sep; [by repeat constructor | done]).
Qed.

(** Moving the part of the node before its last [@] to the namespace changes no character. *)
Lemma rsplit_app c s pre n1 n2 :
  rsplit_once c s = Some (n1, n2) → rsplit_once c (pre +:+ s) = Some (pre +:+ n1, n2).
Proof. intros H. induction pre as [|d pre IH]; simpl; [done|]. by rewrite IH. Qed.

Lemma canonical_reads_back a :
  valid a → str_all (λ c, negb (bool_decide (c = "@"%char))) (node_id a) = true →
  from_canonical (canonical a) = Ok a.
Proof.
  intros Ha Hnode. pose proof Ha as (Heq & Hn & Ht & _)%ActorId_new_Ok.
  rewrite Heq at 1. simpl. rewrite from_canonical_split; [exact Ha | | |done].
  - by apply validate_name_chars.
  - by apply validate_actor_type_chars.
Qed.

Lemma from_canonical_form s b : from_canonical s = Ok b → canonical b = s.
Proof.
  unfold from_canonical.
  destruct (rsplit_once "@" s) as [[bn node]|] eqn:E1; [|done]. simpl.
  destruct (split_once "//" bn) as [[n an]|] eqn:E2; [|done]. simpl.
  destruct (split_once "::" an) as [[t ns]|] eqn:E3; [|done]. simpl.
  intros (-> & _)%ActorId_new_Ok. simpl.
  apply rsplit_once_spec in E1 as [-> _]. apply split_once_spec in E2 as ->; [|done].
  apply split_once_spec in E3 as ->; [|done]. unfold format_canonical. by rewrite !str_app_assoc.
Qed.

(** ** Properties of identities *)

(** C39. Round trip of identities: the canonical form of a valid identity whose node has no [@]
    reads back as the same identity, and every identity that is read has the canonical form it was
    read from; the protobuf form always reads back. *)
Theorem canonical_roundtrip (a : ActorId) :
  valid a →
  from_proto (to_proto a) = Ok a
  ∧ (str_all (λ c, negb (bool_decide (c = "@"%char))) (node_id a) = true →
      from_canonical (canonical a) = Ok a)
  ∧ (∀ s b, from_canonical s = Ok b → canonical b = s).
Proof.
  intros Ha. split; [exact Ha|]. split.
  - intros Hnode. by apply canonical_reads_back.
  - apply from_canonical_form.
Qed.

(** Equality of identities: two valid identities whose nodes have no [@] are equal (as
    [PartialEq] compares them) exactly when all their fields are; but an identity whose node does
    contain an [@] equals an identity of another namespace on another node. *)
Theorem identity_equality (a b : ActorId) :
  valid a → valid b →
  (str_all (λ c, negb (bool_decide (c = "@"%char))) (node_id a) = true →
   str_all (λ c, negb (bool_decide (c = "@"%char))) (node_id b) = true →
   ActorId_eqb a b = true ↔ a = b)
  ∧ (∀ n1 n2, rsplit_once "@" (node_id a) = Some (n1, n2) → n2 ≠ "" →
      ∃ b, valid b ∧ ActorId_eqb a b = true
        ∧ namespace b = namespace a +:+ "@" +:+ n1 ∧ node_id b = n2).
Proof.
  intros Ha Hb. split.
  - intros Na Nb. unfold ActorId_eqb. rewrite String.eqb_eq. split; [|by intros ->]. intros Heq.
    pose proof (canonical_reads_back a Ha Na) as H1.
    rewrite Heq, (canonical_reads_back b Hb Nb) in H1. congruence.
  - intros n1 n2 Hs Hn2. pose proof Ha as (Heq & Hn & Ht & Hns & _)%ActorId_new_Ok.
    exists (mkActorId (canonical a) (name a) (actor_type a) (namespace a +:+ "@" +:+ n1) n2).
    apply rsplit_once_spec in Hs as [Hs _]. split_and!; simpl; [|by apply String.eqb_eq|done|done].
    apply ActorId_new_Ok. simpl. split_and!; [|done|done| |done].
    + f_equal. rewrite Heq. simpl. unfold format_canonical. rewrite Hs, !str_app_assoc. done.
    + destruct (namespace a); done.
Qed.

(** ** Properties of exit reasons *)

Lemma unknown_is_valid : valid unknown_linked_actor_id.
Proof. vm_compute. reflexivity. Qed.

(** The fuel of [from_str] is enough: more of it changes nothing. *)
Lemma split_once_shorter pat s a b :
  pat ≠ "" → split_once pat s = Some (a, b) → (String.length b < String.length s)%nat.
Proof.
  intros Hp. revert a b. induction s as [|c s IH]; intros a b; cbn [split_once].
  - by destruct pat.
  - destruct (String.prefix pat (String c s)).
    + intros [= <- <-]. destruct pat as [|p pat]; [done|]. simpl.
      clear. revert s. induction pat as [|p pat IH]; intros s; simpl; [lia|].
      destruct s as [|c s]; simpl; [lia|]. specialize (IH s). lia.
    + destruct (split_once pat s) as [[x y]|]; [|done]. simpl. intros [= <- <-].
      specialize (IH x y eq_refl). simpl. lia.
Qed.

Lemma splitn_third c s p0 p1 p2 l :
  splitn 3 c s = p0 :: p1 :: p2 :: l → (String.length p2 < String.length s)%nat.
Proof.
  cbn [splitn]. destruct (split_once _ s) as [[a b]|] eqn:E1; [|done].
  destruct (split_once _ b) as [[a' b']|] eqn:E2; [|done]. intros [= <- <- <- <-].
  apply split_once_shorter in E1; [|done]. apply split_once_shorter in E2; [|done]. lia.
Qed.

Lemma parse_fuel_enough f s :
  (String.length s < f)%nat → parse_fuel f s = from_str s.
Proof.
  unfold from_str. intros Hf. assert (H : ∀ n f g s, (String.length s < n)%nat →
    (String.length s < f)%nat → (String.length s < g)%nat → parse_fuel f s = parse_fuel g s).
  { clear. intros n. induction n as [|n IH]; intros f g s Hn Hf Hg; [lia|].
    destruct f as [|f], g as [|g]; try lia. cbn [parse_fuel].
    destruct (String.eqb s "normal"); [done|]. destruct (String.eqb s "shutdown"); [done|].
    destruct (String.eqb s "killed"); [done|]. destruct (String.prefix _ s); [|done].
    destruct (splitn 3 ":" s) as [|p0 [|p1 [|p2 l]]] eqn:E; try done. f_equal.
    apply splitn_third in E. apply IH; lia. }
  eapply H; [apply Nat.lt_succ_diag_r|done|lia].
Qed.

Lemma from_canonical_no_at s :
  str_all (λ c, negb (bool_decide (c = "@"%char))) s = true →
  ∃ e, from_canonical s = Err e.
Proof.
  intros Hs. unfold from_canonical. rewrite (proj2 (rsplit_once_None "@" s) Hs). by eexists.
Qed.

(** The colons of the identity are taken for the separators. *)
Lemma from_str_linked (a : ActorId) (r : ExitReason) :
  valid a →
  from_str (exit_reason_to_string (Linked a r))
    = Linked unknown_linked_actor_id
        (Error (":" +:+ namespace a +:+ "@" +:+ node_id a +:+ ":" +:+ inner_reason_to_string r)).
Proof.
  intros Ha. cbn [exit_reason_to_string]. generalize (inner_reason_to_string r). intros inner.
    pose proof Ha as (-> & Hn%validate_name_chars & Ht%validate_actor_type_chars & _)%ActorId_new_Ok.
    cbn [name actor_type namespace node_id canonical] in *.
    set (nm := name a) in *. set (ty := actor_type a) in *. set (ns := namespace a).
    set (nd := node_id a). unfold format_canonical.
    set (rest := ":" +:+ ns +:+ "@" +:+ nd +:+ ":" +:+ inner).
    replace ("linked:" +:+ (nm +:+ "//" +:+ ty +:+ "::" +:+ ns +:+ "@" +:+ nd) +:+ ":" +:+ inner)
      with ("linked" +:+ ":" +:+ (nm +:+ "//" +:+ ty) +:+ ":" +:+ rest)
      by (unfold rest; rewrite !str_app_assoc; reflexivity).
    assert (Hsep : ∀ d, d ∈ [":"; "@"]%char →
      str_all (λ c, negb (bool_decide (c = d))) (nm +:+ "//" +:+ ty) = true).
    { intros d Hd. rewrite !str_all_app.
      assert (d ∈ ["/"; ":"; "@"]%char) by (by apply list_elem_of_further).
      rewrite (no_sep d nm), (no_sep d ty), andb_true_r by done. simpl.
      repeat (apply elem_of_cons in Hd as [->|Hd]; [reflexivity|]). by apply elem_of_nil in Hd. }
    assert (Hsplit : splitn 3 ":" ("linked" +:+ ":" +:+ (nm +:+ "//" +:+ ty) +:+ ":" +:+ rest)
      = ["linked"; nm +:+ "//" +:+ ty; rest]).
    { cbn [splitn]. rewrite (split_once_app ":" "") by done.
      by rewrite (split_once_app ":" "") by (apply Hsep; by repeat constructor). }
    set (s := "linked" +:+ _) in *.
    assert (Heq : String.eqb s "normal" = false ∧ String.eqb s "shutdown" = false
      ∧ String.eqb s "killed" = false ∧ String.prefix "linked:" s = true).
    { unfold s. split_and!; try reflexivity. exact (prefix_app "linked:" _). }
    destruct Heq as (E1 & E2 & E3 & E4).
    unfold from_str. cbn [parse_fuel]. rewrite E1, E2, E3, E4, Hsplit.
    destruct (from_canonical_no_at (nm +:+ "//" +:+ ty)) as [e ->];
      [apply Hsep; by repeat constructor|]. f_equal.
Qed.

(** The string form of an exit reason: the plain reasons read back, and so does an error whose
    message is none of the reserved words and has no [linked:] prefix; but the linked reason of no
    valid actor ever does: the colons of the identity are taken for the separators, so it reads as
    the unknown actor with an error, whatever the reason was, a normal exit included. *)
Theorem linked_reason_never_reads_back (a : ActorId) (r : ExitReason) :
  valid a →
  from_str (exit_reason_to_string Normal) = Normal
  ∧ from_str (exit_reason_to_string Shutdown) = Shutdown
  ∧ from_str (exit_reason_to_string Killed) = Killed
  ∧ (∀ msg, msg ∉ ["normal"; "shutdown"; "killed"] → String.prefix "linked:" msg = false →
       from_str (exit_reason_to_string (Error msg)) = Error msg)
  ∧ from_str (exit_reason_to_string (Linked a r))
      = Linked unknown_linked_actor_id
          (Error (":" +:+ namespace a +:+ "@" +:+ node_id a +:+ ":" +:+ inner_reason_to_string r)).
Proof.
  intros Ha. do 3 (split; [reflexivity|]). split.
  - intros msg Hmsg Hp. unfold from_str. cbn [exit_reason_to_string parse_fuel].
    rewrite !not_elem_of_cons in Hmsg. destruct Hmsg as (H1 & H2 & H3 & _).
    rewrite (proj2 (String.eqb_neq _ _) H1), (proj2 (String.eqb_neq _ _) H2),
      (proj2 (String.eqb_neq _ _) H3), Hp. done.
  - by apply from_str_linked.
Qed.

(** The protobuf form of an exit reason reads back, with three exceptions: an error without a
    message becomes the unknown error, the error of a linked actor loses its message, and a reason
    linked twice loses everything below the first link, so that an error there reads back as a
    normal exit. *)
Theorem exit_reason_proto_roundtrip (r : ExitReason) :
  (∀ a r', r = Linked a r' → from_canonical (canonical a) = Ok a) →
  reason_from_proto (reason_to_proto r) (reason_to_proto_details r) =
    match r with
    | Error "" => Error "unknown error"
    | Linked a (Error _) => Linked a (Error "unknown error")
    | Linked a (Linked _ _) => Linked a (Linked unknown_linked_actor_id Normal)
    | _ => r
    end.
Proof.
  intros Ha. destruct r as [| | |msg|a r]; try reflexivity.
  - by destruct msg.
  - specialize (Ha a r eq_refl). simpl. rewrite Ha.
    destruct (String.eqb_spec (canonical a) "") as [He|_]; [by rewrite He in Ha|].
    by destruct r.
Qed.

(** The type of an application's worker and of its root supervisor differ by their suffix, unless
    the name of the application is so long that both are cut. *)
Lemma wasm_types_examples :
  wasm_worker_actor_type_from_application_name (repeat 97 100) = of_chars (repeat "a"%char 100) +:+ "_wasm"
  ∧ wasm_root_supervisor_actor_type_from_application_name (repeat 97 100)
      = of_chars (repeat "a"%char 100) +:+ "_supervisor"
  ∧ wasm_worker_actor_type_from_application_name (repeat 97 128)
      = wasm_root_supervisor_actor_type_from_application_name (repeat 97 128).
Proof. vm_compute. auto. Qed.

Lemma wasm_types_valid app :
  is_ok (validate_actor_type (wasm_worker_actor_type_from_application_name app)) = true
  ∧ is_ok (validate_actor_type (wasm_root_supervisor_actor_type_from_application_name app)) = true.
Proof.
  assert (H : ∀ s f, is_ok (validate_actor_type f) = true →
    is_ok (validate_actor_type (clamp_valid_actor_type_slug s f)) = true).
  { intros s f Hf. unfold clamp_valid_actor_type_slug. cbv zeta.
    match goal with |- context [if is_ok (validate_actor_type ?t) then _ else _] =>
      destruct (is_ok (validate_actor_type t)) eqn:E end; [exact E | exact Hf]. }
  split; by apply H.
Qed.

(** ** Witnesses *)

Definition worker1 : ActorId := mkActorId "w1//worker::ns@node1" "w1" "worker" "ns" "node1".
Definition worker2 : ActorId := mkActorId "w1//worker::ns@a@b" "w1" "worker" "ns" "a@b".

Lemma canonical_roundtrip_witness : from_canonical "w1//worker::ns@node1" = Ok worker1.
Proof. apply (canonical_roundtrip worker1); vm_compute; reflexivity. Defined.

Lemma identity_equality_witness :
  ∃ b, ActorId_eqb worker2 b = true ∧ namespace b = "ns@a" ∧ node_id b = "b".
Proof.
  destruct (identity_equality worker2 worker1 ltac:(vm_compute; reflexivity)
    ltac:(vm_compute; reflexivity)) as [_ H].
  destruct (H "a" "b" ltac:(vm_compute; reflexivity) ltac:(discriminate))
    as (b & _ & ? & ? & ?). by exists b.
Defined.

Lemma linked_reason_never_reads_back_witness :
  from_str "linked:w1//worker::ns@node1:normal"
    = Linked unknown_linked_actor_id (Error ":ns@node1:normal").
Proof.
  apply (linked_reason_never_reads_back worker1 Normal). vm_compute. reflexivity.
Defined.

Lemma exit_reason_proto_roundtrip_witness :
  reason_from_proto ExitReasonLinked
    (reason_to_proto_details (Linked worker1 (Linked worker1 (Error "boom"))))
    = Linked worker1 (Linked unknown_linked_actor_id Normal).
Proof.
  apply (exit_reason_proto_roundtrip (Linked worker1 (Linked worker1 (Error "boom")))).
  intros a r' [= <- <-]. vm_compute. reflexivity.
Defined.
