(* ===== verification/Facets.v ===== *)
(** Facets: the capabilities that are attached to actors, crates/facet/src/mod.rs and facet_manager.rs, and the
    treatment of a message by an actor with facets, [process_message] of crates/actor/src/mod.rs.

    A kind of facet is a class; the container, the manager and the treatment of messages are written against it,
    and the facets of mod.rs are its instances.  A facet is shared behind a lock: an operation that only tries
    to read it skips the facets that somebody else writes ([locked]).  A sequence of bytes is a string. *)
From stdpp Require Import pretty.
From S2P Require Import Prelude Json Identity.

#[local] Arguments String.append : simpl nomatch.

Abbreviation Headers := (gmap string string).
Abbreviation Bytes := string.

(** ** Facets *)

Inductive FacetError :=
| NotFound (m : string)
| ConfigurationError (m : string)
| AlreadyAttached (m : string)
| InvalidConfig (m : string)
| AttachmentFailed (m : string)
| DetachmentFailed (m : string)
| InterceptionFailed (m : string).
Definition FacetError_to_string (e : FacetError) : string :=
  match e with
  | NotFound m => "Facet not found: " +:+ m
  | ConfigurationError m => "Configuration error: " +:+ m
  | AlreadyAttached m => "Facet already attached: " +:+ m
  | InvalidConfig m => "Invalid configuration: " +:+ m
  | AttachmentFailed m => "Attachment failed: " +:+ m
  | DetachmentFailed m => "Detachment failed: " +:+ m
  | InterceptionFailed m => "Interception failed: " +:+ m
  end.
Inductive InterceptResult :=
| Continue
| ReplaceArgs (args : Bytes)
| ReplaceResult (result : Bytes)
| ShortCircuit (result : Bytes).
Inductive BeforeInterceptOutcome :=
| CallActor (args : Bytes)
| Answered (result : Bytes).
Inductive ExitReason :=
| Normal
| Shutdown
| Killed
| Error (m : string)
| Linked (actor : string) (reason : ExitReason).

(** The methods of a facet return it with what they answer; an interceptor is told the time. *)
Class Facet (F : Type) := {
  facet_type : F → string;
  get_config : F → Value;
  get_priority : F → Z;
  on_attach : string → Value → F → F * result FacetError ();
  on_detach : string → F → F * result FacetError ();
  before_method : Z → string → Bytes → Headers → F → F * result FacetError InterceptResult;
  after_method : Z → string → Bytes → Bytes → Headers → F → F * result FacetError InterceptResult;
  on_exit : string → string → ExitReason → F → F * result FacetError ();
  on_down : string → string → ExitReason → F → F * result FacetError ();
  on_init_complete : string → F → F * result FacetError ();
  on_terminate_start : string → ExitReason → F → F * result FacetError ()
}.
(** The type of a facet is its identifier: no method changes it. *)
Class FacetLaws (F : Type) `{Facet F} := {
  attach_type a v f : facet_type (on_attach a v f).1 = facet_type f;
  before_type now m args h f : facet_type (before_method now m args h f).1 = facet_type f;
  after_type now m args r h f : facet_type (after_method now m args r h f).1 = facet_type f;
  exit_type a b r f : facet_type (on_exit a b r f).1 = facet_type f;
  down_type a b r f : facet_type (on_down a b r f).1 = facet_type f;
  init_type a f : facet_type (on_init_complete a f).1 = facet_type f;
  terminate_type a r f : facet_type (on_terminate_start a r f).1 = facet_type f
}.
(** The methods that a facet has by default. *)
Definition does_nothing {F} (f : F) : F * result FacetError () := (f, Ok ()).
Definition continues {F} (f : F) : F * result FacetError InterceptResult := (f, Ok Continue).

(** ** Containers *)

(** A facet behind its lock. *)
Record Slot (F : Type) := mkSlot { slot_id : nat; slot_facet : F }.
Arguments mkSlot {F}. Arguments slot_id {F}. Arguments slot_facet {F}.
(** The instant of the attachment is never read. *)
Record FacetMetadata := mkMetadata { m_facet_type : string; m_priority : Z; m_config : Value }.
Record FacetContainer (F : Type) := mkContainer {
  facets : list (Slot F);
  metadata : gmap string FacetMetadata;
  next_slot : nat
}.
Arguments mkContainer {F}. Arguments facets {F}. Arguments metadata {F}. Arguments next_slot {F}.

(** [sort_by_key]: stable, the lowest key first. *)
Fixpoint insert_by {A} (k : A → Z) (x : A) (l : list A) : list A :=
  match l with
  | [] => [x]
  | y :: l' => if k x <? k y then x :: l else y :: insert_by k x l'
  end.
Definition sort_by_key {A} (k : A → Z) (l : list A) : list A := foldl (λ l x, insert_by k x l) [] l.

Section container.
Context {F : Type} `{Facet F}.
#[local] Abbreviation Slot := (Slot F).
#[local] Abbreviation FacetContainer := (FacetContainer F).

Definition container_new : FacetContainer := mkContainer [] ∅ 0.
(** [try_read] *)
Definition is_locked (locked : gset nat) (s : Slot) : bool := bool_decide (slot_id s ∈ locked).
Definition inject (k : string) (v : option string) (fs : Fields) : Fields :=
  match v with Some v => obj_insert k (Str v) fs | None => fs end.
Definition with_context (tenant namespace : option string) (config : Value) : Value :=
  match config with
  | Object fs => Object (inject "_namespace" namespace (inject "_tenant_id" tenant fs))
  | v => v
  end.
(** [position], with the length when there is none. *)
Fixpoint position (p : Slot → bool) (l : list Slot) : nat :=
  match l with
  | [] => 0
  | s :: l => if p s then 0 else S (position p l)
  end.
(** The facets before which one of priority [p] goes. *)
Definition less_urgent (locked : gset nat) (md : gmap string FacetMetadata) (p : Z) (s : Slot) : bool :=
  if is_locked locked s then false
  else match md !! facet_type (slot_facet s) with Some m => m_priority m <? p | None => false end.
(** The key of the sort: a facet that cannot be read counts as one of priority 0. *)
Definition sort_key (locked : gset nat) (md : gmap string FacetMetadata) (s : Slot) : Z :=
  if is_locked locked s then 0 else from_option m_priority 0 (md !! facet_type (slot_facet s)).
Definition attach_with_tenant_context (locked : gset nat) (f : F) (actor : string) (tenant namespace : option string)
    (c : FacetContainer) : FacetContainer * result FacetError string :=
  let ty := facet_type f in
  match metadata c !! ty with
  | Some _ => (c, Err (AlreadyAttached ty))
  | None =>
      let config := with_context tenant namespace (get_config f) in
      let p := get_priority f in
      match on_attach actor config f with
      | (_, Err e) => (c, Err e)
      | (f, Ok _) =>
          let md := <[ty := mkMetadata ty p config]> (metadata c) in
          let pos := position (less_urgent locked md p) (facets c) in
          let l := take pos (facets c) ++ mkSlot (next_slot c) f :: drop pos (facets c) in
          (mkContainer (sort_by_key (λ s, - sort_key locked md s) l) md (S (next_slot c)), Ok ty)
      end
  end.
Definition attach (locked : gset nat) (f : F) (actor : string) (c : FacetContainer)
    : FacetContainer * result FacetError string :=
  attach_with_tenant_context locked f actor None None c.
Definition has_type (locked : gset nat) (ty : string) (s : Slot) : bool :=
  negb (is_locked locked s) && String.eqb (facet_type (slot_facet s)) ty.
(** The facet that is detached is told last. *)
Definition detach (locked : gset nat) (ty actor : string) (c : FacetContainer)
    : FacetContainer * result FacetError () :=
  match metadata c !! ty with
  | None => (c, Err (NotFound ty))
  | Some _ =>
      let md := delete ty (metadata c) in
      let pos := position (has_type locked ty) (facets c) in
      match facets c !! pos with
      | Some s =>
          (mkContainer (take pos (facets c) ++ drop (S pos) (facets c)) md (next_slot c),
           (on_detach actor (slot_facet s)).2)
      | None => (mkContainer (facets c) md (next_slot c), Ok ())
      end
  end.
Definition by_priority (md : gmap string FacetMetadata) : list (string * Z) :=
  sort_by_key snd ((λ '(ty, m), (ty, m_priority m)) <$> map_to_list md).
Fixpoint detach_each (locked : gset nat) (actor : string) (tys : list string) (c : FacetContainer)
    : FacetContainer * list FacetError :=
  match tys with
  | [] => (c, [])
  | ty :: tys =>
      let '(c, r) := detach locked ty actor c in
      let '(c, es) := detach_each locked actor tys c in
      (c, match r with Ok _ => es | Err e => e :: es end)
  end.
Definition detach_all (locked : gset nat) (actor : string) (c : FacetContainer) : FacetContainer * list FacetError :=
  detach_each locked actor (by_priority (metadata c)).*1 c.

(** An interceptor waits for the lock of each facet. *)
Definition set_facets (l : list Slot) (c : FacetContainer) : FacetContainer := mkContainer l (metadata c) (next_slot c).
Fixpoint before_each (now : Z) (method : string) (args : Bytes) (h : Headers) (l : list Slot)
    : list Slot * result FacetError BeforeInterceptOutcome :=
  match l with
  | [] => ([], Ok (CallActor args))
  | s :: l =>
      let '(f, r) := before_method now method args h (slot_facet s) in
      let s := mkSlot (slot_id s) f in
      match r with
      | Err e => (s :: l, Err e)
      | Ok (ShortCircuit result) => (s :: l, Ok (Answered result))
      | Ok r =>
          let args := match r with ReplaceArgs args => args | _ => args end in
          let '(l, o) := before_each now method args h l in (s :: l, o)
      end
  end.
Definition intercept_before (now : Z) (method : string) (args : Bytes) (h : Headers) (c : FacetContainer)
    : FacetContainer * result FacetError BeforeInterceptOutcome :=
  let '(l, o) := before_each now method args h (facets c) in (set_facets l c, o).
(** The list is reversed. *)
Fixpoint after_each (now : Z) (method : string) (args result : Bytes) (h : Headers) (l : list Slot)
    : list Slot * Prelude.result FacetError Bytes :=
  match l with
  | [] => ([], Ok result)
  | s :: l =>
      let '(f, r) := after_method now method args result h (slot_facet s) in
      let s := mkSlot (slot_id s) f in
      match r with
      | Err e => (s :: l, Err e)
      | Ok r =>
          let result := match r with ReplaceResult result => result | _ => result end in
          let '(l, o) := after_each now method args result h l in (s :: l, o)
      end
  end.
Definition intercept_after (now : Z) (method : string) (args result : Bytes) (h : Headers) (c : FacetContainer)
    : FacetContainer * Prelude.result FacetError Bytes :=
  let '(l, o) := after_each now method args result h (reverse (facets c)) in (set_facets (reverse l) c, o).

Definition get_facet_count (c : FacetContainer) : nat := length (facets c).
Definition list_facets (c : FacetContainer) : list string := (map_to_list (metadata c)).*1.
Definition get_facet (locked : gset nat) (ty : string) (c : FacetContainer) : option Slot :=
  facets c !! position (has_type locked ty) (facets c).

(** A hook is called on every facet, whichever fail. *)
Fixpoint hook_each (hook : F → F * result FacetError ()) (l : list Slot) : list Slot * list FacetError :=
  match l with
  | [] => ([], [])
  | s :: l =>
      let '(f, r) := hook (slot_facet s) in
      let '(l, es) := hook_each hook l in
      (mkSlot (slot_id s) f :: l, match r with Ok _ => es | Err e => e :: es end)
  end.
Definition call_hook (hook : F → F * result FacetError ()) (c : FacetContainer) : FacetContainer * list FacetError :=
  let '(l, es) := hook_each hook (facets c) in (set_facets l c, es).
Definition call_on_exit (actor from : string) (r : ExitReason) : FacetContainer → FacetContainer * list FacetError :=
  call_hook (on_exit actor from r).
Definition call_on_down (actor monitored : string) (r : ExitReason)
    : FacetContainer → FacetContainer * list FacetError :=
  call_hook (on_down actor monitored r).
Definition call_on_init_complete (actor : string) : FacetContainer → FacetContainer * list FacetError :=
  call_hook (on_init_complete actor).
Definition call_on_terminate_start (actor : string) (r : ExitReason)
    : FacetContainer → FacetContainer * list FacetError :=
  call_hook (on_terminate_start actor r).

(** The manager: the containers of the actors, which share them with it. *)
Definition FacetManager : Type := gmap string FacetContainer.
Definition store_facets (actor : string) (c : FacetContainer) (m : FacetManager) : FacetManager := <[actor := c]> m.
Definition get_facets (actor : string) (m : FacetManager) : option FacetContainer := m !! actor.
Definition remove_facets (actor : string) (m : FacetManager) : FacetManager := delete actor m.
Definition manager_on_down (actor monitored : string) (r : ExitReason) (m : FacetManager)
    : FacetManager * result string (list FacetError) :=
  match m !! actor with
  | None => (m, Err ("Facets not found for actor: " +:+ actor))
  | Some c => let '(c, es) := call_on_down actor monitored r c in (<[actor := c]> m, Ok es)
  end.

(** The registry of factories. *)
Definition FacetFactory : Type := Value → result FacetError F.
Definition FacetRegistry : Type := gmap string FacetFactory.
Definition register (ty : string) (factory : FacetFactory) (r : FacetRegistry) : FacetRegistry := <[ty := factory]> r.
Definition create_facet (ty : string) (config : Value) (r : FacetRegistry) : result FacetError F :=
  match r !! ty with Some factory => factory config | None => Err (NotFound ty) end.
Definition list_types (r : FacetRegistry) : list string := (map_to_list r).*1.
End container.

(** ** The cache *)

(** Keys from the oldest; entries with the instant at which they were inserted, in nanoseconds. *)
Record LruCache := mkCache { order : list string; entries : gmap string (Bytes * Z); capacity : Z }.
Definition cache_new (cap : Z) : LruCache := mkCache [] ∅ cap.
Definition other_key (k k' : string) : bool := negb (String.eqb k' k).
Definition cache_remove (k : string) (c : LruCache) : LruCache :=
  mkCache (List.filter (other_key k) (order c)) (delete k (entries c)) (capacity c).
Definition expired (now ttl : Z) (e : Bytes * Z) : bool := ttl <=? Z.max 0 (now - e.2).
Definition cache_get (k : string) (ttl now : Z) (c : LruCache) : LruCache * option Bytes :=
  match entries c !! k with
  | None => (c, None)
  | Some e =>
      if expired now ttl e then (cache_remove k c, None)
      else (mkCache (List.filter (other_key k) (order c) ++ [k]) (entries c) (capacity c), Some e.1)
  end.
Definition cache_insert (k : string) (v : Bytes) (now : Z) (c : LruCache) : LruCache :=
  let '(o, m) :=
    match entries c !! k with
    | Some _ => (List.filter (other_key k) (order c), entries c)
    | None =>
        if capacity c <=? Z.of_nat (size (entries c)) then
          match order c with
          | old :: o => (o, delete old (entries c))
          | [] => ([], entries c)
          end
        else (order c, entries c)
    end in
  mkCache (o ++ [k]) (<[k := (v, now)]> m) (capacity c).
Definition cache_clear (c : LruCache) : LruCache := mkCache [] ∅ (capacity c).

(** ** The facets of the library *)

Record LoggingFacet := mkLogging { log_config : Value; log_priority : Z; level : string }.
Definition LOGGING_FACET_DEFAULT_PRIORITY : Z := 900.
Definition logging_new (config : Value) (p : Z) : LoggingFacet :=
  mkLogging config p (default "INFO" (get "level" config ≫= value_as_str)).
Record CachingFacet := mkCaching { cache_config : Value; cache_priority : Z; cache : LruCache; ttl : Z }.
Definition CACHING_FACET_DEFAULT_PRIORITY : Z := 40.
Definition CACHING_FACET_DEFAULT_CAPACITY : Z := 1000.
Definition caching_new (config : Value) (p : Z) : CachingFacet :=
  mkCaching config p
    (cache_new (default CACHING_FACET_DEFAULT_CAPACITY (get "max_entries" config ≫= value_as_u64)))
    (default 300 (get "ttl_seconds" config ≫= value_as_u64) * 1000000000).
Definition set_cache (f : CachingFacet) (c : LruCache) : CachingFacet :=
  mkCaching (cache_config f) (cache_priority f) c (ttl f).
(** The metrics of the methods are never written. *)
Record MetricsFacet := mkMetrics { metrics_config : Value; metrics_priority : Z }.
Definition METRICS_FACET_DEFAULT_PRIORITY : Z := 800.
Definition metrics_new (config : Value) (p : Z) : MetricsFacet := mkMetrics config p.

(** [hex::encode] *)
Definition hex_digit (n : N) : Ascii.ascii := Ascii.ascii_of_N (if (n <? 10)%N then 48 + n else 87 + n).
Fixpoint hex_encode (s : Bytes) : string :=
  match s with
  | "" => ""
  | String a s => String (hex_digit (Ascii.N_of_ascii a / 16)) (String (hex_digit (Ascii.N_of_ascii a mod 16)) (hex_encode s))
  end.
Definition cache_key (method : string) (args : Bytes) : string := method +:+ ":" +:+ hex_encode args.

#[export] Instance logging_facet : Facet LoggingFacet := {
  facet_type _ := "logging";
  get_config := log_config;
  get_priority := log_priority;
  on_attach _ _ := does_nothing;
  on_detach _ := does_nothing;
  before_method _ _ _ _ := continues;
  after_method _ _ _ _ _ := continues;
  on_exit _ _ _ := does_nothing;
  on_down _ _ _ := does_nothing;
  on_init_complete _ := does_nothing;
  on_terminate_start _ _ := does_nothing
}.
#[export] Instance caching_facet : Facet CachingFacet := {
  facet_type _ := "caching";
  get_config := cache_config;
  get_priority := cache_priority;
  on_attach _ _ := does_nothing;
  on_detach _ f := (set_cache f (cache_clear (cache f)), Ok ());
  before_method now method args _ f :=
    let '(c, v) := cache_get (cache_key method args) (ttl f) now (cache f) in
    (set_cache f c, Ok match v with Some v => ShortCircuit v | None => Continue end);
  after_method now method args result _ f :=
    (set_cache f (cache_insert (cache_key method args) result now (cache f)), Ok Continue);
  on_exit _ _ _ := does_nothing;
  on_down _ _ _ := does_nothing;
  on_init_complete _ := does_nothing;
  on_terminate_start _ _ := does_nothing
}.
#[export] Instance metrics_facet : Facet MetricsFacet := {
  facet_type _ := "metrics";
  get_config := metrics_config;
  get_priority := metrics_priority;
  on_attach _ _ := does_nothing;
  on_detach _ := does_nothing;
  before_method _ _ _ _ := continues;
  after_method _ _ _ _ _ := continues;
  on_exit _ _ _ := does_nothing;
  on_down _ _ _ := does_nothing;
  on_init_complete _ := does_nothing;
  on_terminate_start _ _ := does_nothing
}.
#[export] Instance logging_laws : FacetLaws LoggingFacet.
Proof. by split. Qed.
#[export] Instance caching_laws : FacetLaws CachingFacet.
Proof. split; by intros; cbn; try destruct (cache_get _ _ _ _). Qed.
#[export] Instance metrics_laws : FacetLaws MetricsFacet.
Proof. by split. Qed.

(** ** The treatment of a message *)

(** Of a message, what is read of it. *)
Record Message := mkMessage {
  sender_id : string;
  receiver_id : string;
  message_type : string;
  payload : Bytes;
  headers : Headers;
  correlation_id : string
}.
Definition set_payload (p : Bytes) (m : Message) : Message :=
  mkMessage (sender_id m) (receiver_id m) (message_type m) p (headers m) (correlation_id m).
Inductive ActorError :=
| BehaviorError (m : string)
| ActorFacetError (m : string).
Definition MAX_RECURSION_DEPTH : Z := 100.
Definition infinite_recursion (depth : Z) : ActorError :=
  BehaviorError ("Infinite recursion detected in process_message (depth: " +:+ pretty depth +:+ ")").
(** The counter of a thread, when a message comes in. *)
Definition enter (depth : Z) : Z * result ActorError () :=
  if MAX_RECURSION_DEPTH <? depth then (0, Err (infinite_recursion depth))
  else (u64_add depth 1, Ok ()).
(** The counter of a thread, when a handler has returned on it. *)
Definition leave (depth : Z) : Z := if 0 <? depth then u64_sub depth 1 else depth.

Definition set_depth (t : nat) (d : Z) (depths : nat → Z) : nat → Z := λ t', if Nat.eqb t t' then d else depths t'.

Section messages.
Context {F : Type} `{Facet F} {St : Type}.
(** The behaviour of the actor. *)
Context (handle_message : Message → St → St * result string ()).

Record Actor := mkActor { actor_id : string; container : FacetContainer F; behavior : St }.
(** The answer of a facet, to a message that waits for one; the actor needs an identifier that can be parsed. *)
Definition facet_reply (actor : string) (m : Message) (payload : Bytes) : result ActorError (list Message) :=
  if negb (String.eqb (correlation_id m) "") && negb (String.eqb (sender_id m) "") then
    match from_canonical actor with
    | Ok _ => Ok [mkMessage actor (sender_id m) (message_type m +:+ "_reply") payload ∅ (correlation_id m)]
    | Err e =>
        Err (BehaviorError ("invalid actor id '" +:+ actor +:+ "' while sending facet reply: " +:+
                            ActorIdError_to_string e))
    end
  else Ok [].
(** [process_message] once it has entered; the boolean tells whether a handler has returned. *)
Definition treat (now : Z) (m : Message) (a : Actor) : Actor * bool * list Message * result ActorError () :=
  let '(c, o) := intercept_before now (message_type m) (payload m) (headers m) (container a) in
  match o with
  | Err e => (mkActor (actor_id a) c (behavior a), false, [], Err (ActorFacetError (FacetError_to_string e)))
  | Ok (Answered result) =>
      let a := mkActor (actor_id a) c (behavior a) in
      match facet_reply (actor_id a) m result with
      | Ok replies => (a, false, replies, Ok ())
      | Err e => (a, false, [], Err e)
      end
  | Ok (CallActor args) =>
      let m := set_payload args m in
      let '(s, r) := handle_message m (behavior a) in
      match r with
      | Ok _ =>
          let c := (intercept_after now (message_type m) (payload m) "" (headers m) c).1 in
          (mkActor (actor_id a) c s, true, [], Ok ())
      | Err e => (mkActor (actor_id a) c s, true, [], Err (BehaviorError e))
      end
  end.
(** A message starts on one thread, and its handler may return on another. *)
Definition process_message (t1 t2 : nat) (now : Z) (m : Message) (depths : nat → Z) (a : Actor)
    : (nat → Z) * Actor * list Message * result ActorError () :=
  let '(d, r) := enter (depths t1) in
  let depths := set_depth t1 d depths in
  match r with
  | Err e => (depths, a, [], Err e)
  | Ok _ =>
      let '(a, called, replies, r) := treat now m a in
      ((if (called : bool) then set_depth t2 (leave (depths t2)) depths else depths), a, replies, r)
  end.
(** Messages one after the other on one thread: what each answers. *)
Fixpoint process_all (now : Z) (ms : list Message) (depth : Z) (a : Actor)
    : Z * Actor * list (list Message * result ActorError ()) :=
  match ms with
  | [] => (depth, a, [])
  | m :: ms =>
      let '(depths, a, replies, r) := process_message 0 0 now m (λ _, depth) a in
      let '(depth, a, l) := process_all now ms (depths 0%nat) a in (depth, a, (replies, r) :: l)
  end.
End messages.

(** ** Lemmas: sorting *)

Section sorting.
Context {A : Type} (k : A → Z).
Definition ascending (x y : A) : Prop := k x ≤ k y.
Lemma insert_by_perm x l : insert_by k x l ≡ₚ x :: l.
Proof. induction l as [|y l IH]; cbn; [done|]. case_match; [done|]. rewrite IH. apply Permutation_swap. Qed.
Lemma sort_by_key_perm l : sort_by_key k l ≡ₚ l.
Proof.
  unfold sort_by_key. rewrite <-(app_nil_r l) at 2. generalize (@nil A) as acc.
  induction l as [|x l IH]; intros acc; cbn; [done|]. rewrite IH, insert_by_perm. solve_Permutation.
Qed.
Lemma insert_by_sorted x l : StronglySorted ascending l → StronglySorted ascending (insert_by k x l).
Proof.
  induction 1 as [|y l Hl IH Hy]; cbn; [by repeat constructor|]. destruct (Z.ltb_spec (k x) (k y)).
  - constructor; [by constructor|]. constructor; [unfold ascending; lia|].
    eapply Forall_impl; [exact Hy|]. unfold ascending. intros z ?. lia.
  - constructor; [done|]. rewrite insert_by_perm. by constructor.
Qed.
Lemma sort_by_key_sorted l : StronglySorted ascending (sort_by_key k l).
Proof.
  unfold sort_by_key. assert (StronglySorted ascending []) as Hn by constructor. revert Hn.
  generalize (@nil A) as acc. induction l as [|x l IH]; intros acc Hacc; cbn; [done|]. by apply IH, insert_by_sorted.
Qed.
End sorting.

(** ** Lemmas: containers *)

Section container_lemmas.
Context {F : Type} `{FacetLaws F}.
Implicit Types (c : FacetContainer F) (l : list (Slot F)) (s : Slot F).

Definition slot_type s : string := facet_type (slot_facet s).
Definition types c : list string := slot_type <$> facets c.
Definition priority_in (md : gmap string FacetMetadata) (ty : string) : Z := from_option m_priority 0 (md !! ty).
(** Types are unique and are those that the metadata describes; the facets are in the order of their priorities. *)
Definition container_ok c : Prop :=
  NoDup (types c) ∧ (∀ ty, ty ∈ types c ↔ is_Some (metadata c !! ty)) ∧
  StronglySorted (λ a b, priority_in (metadata c) b ≤ priority_in (metadata c) a) (types c).

Lemma unlocked s : is_locked ∅ s = false.
Proof. unfold is_locked. by rewrite bool_decide_eq_false_2 by set_solver. Qed.
Lemma sort_key_unlocked md s : sort_key ∅ md s = priority_in md (slot_type s).
Proof. unfold sort_key. by rewrite unlocked. Qed.
Lemma position_split (p : Slot F → bool) l s : s ∈ l → p s = true →
  ∃ l1 s' l2, l = l1 ++ s' :: l2 ∧ p s' = true ∧ position p l = length l1.
Proof.
  intros Hs Hp. induction l as [|x l IH]; [by apply elem_of_nil in Hs|]. cbn. destruct (p x) eqn:Hx.
  - by exists [], x, l.
  - apply elem_of_cons in Hs as [->|Hs]; [congruence|]. destruct (IH Hs) as (l1 & s' & l2 & -> & ? & ->).
    by exists (x :: l1), s', l2.
Qed.
Lemma StronglySorted_fmap {A B} (f : A → B) (R : B → B → Prop) (l : list A) :
  StronglySorted (λ x y, R (f x) (f y)) l → StronglySorted R (f <$> l).
Proof. induction 1 as [|x l _ IH Hx]; cbn; constructor; [done|]. by apply Forall_fmap. Qed.
Lemma StronglySorted_mono {A} (R R' : A → A → Prop) (l : list A) :
  (∀ x y, x ∈ l → y ∈ l → R x y → R' x y) → StronglySorted R l → StronglySorted R' l.
Proof.
  intros Hm Hs. induction Hs as [|x l Hs IH Hx]; [constructor|]. constructor.
  - apply IH. intros y z Hy Hz. apply Hm; by right.
  - apply Forall_forall. intros y Hy. rewrite Forall_forall in Hx. apply Hm; [by left|by right|by apply Hx].
Qed.
Lemma StronglySorted_remove {A} (R : A → A → Prop) (l1 : list A) (x : A) (l2 : list A) :
  StronglySorted R (l1 ++ x :: l2) → StronglySorted R (l1 ++ l2).
Proof.
  induction l1 as [|y l1 IH]; cbn; intros Hs; inversion Hs as [|? ? Hs' Hf]; subst; [done|].
  constructor; [by apply IH|]. rewrite Forall_app, Forall_cons in Hf. rewrite Forall_app. tauto.
Qed.

Lemma attach_ok f actor tenant ns c : container_ok c →
  container_ok (attach_with_tenant_context ∅ f actor tenant ns c).1.
Proof.
  intros (Hnd & Hmd & Hs). unfold attach_with_tenant_context.
  destruct (metadata c !! facet_type f) as [m|] eqn:Hm; [done|].
  pose proof (attach_type actor (with_context tenant ns (get_config f)) f) as Ht.
  destruct (on_attach actor _ f) as [f' [?|e]]; [|done]. cbn [fst] in *.
  set (md := <[_ := _]> _). set (l := _ ++ _ :: _).
  assert (types (mkContainer (sort_by_key (λ s, - sort_key ∅ md s) l) md (S (next_slot c))) ≡ₚ facet_type f :: types c)
    as Hp.
  { unfold types. cbn [facets]. rewrite sort_by_key_perm. subst l.
    rewrite <-Permutation_middle, take_drop, fmap_cons. unfold slot_type at 1. cbn [slot_facet]. by rewrite Ht. }
  split_and!.
  - rewrite Hp. constructor; [|done]. rewrite Hmd, Hm. by intros [].
  - intros ty. rewrite Hp, elem_of_cons, Hmd. cbn [metadata]. subst md. rewrite lookup_insert_is_Some.
    split; [intros [->|?]; [by left|]|intros [<-|[_ ?]]; [by left|by right]].
    destruct (decide (facet_type f = ty)); [by left|by right].
  - apply StronglySorted_fmap. cbn [facets metadata].
    eapply StronglySorted_mono; [|apply sort_by_key_sorted]. intros s1 s2 _ _. unfold ascending.
    rewrite !sort_key_unlocked. lia.
Qed.
Lemma detach_ok ty actor c m : container_ok c → metadata c !! ty = Some m →
  ∃ l1 s l2, facets c = l1 ++ s :: l2 ∧ slot_type s = ty ∧ (ty ∉ (slot_type <$> l1 ++ l2)) ∧
    detach ∅ ty actor c = (mkContainer (l1 ++ l2) (delete ty (metadata c)) (next_slot c),
                           (on_detach actor (slot_facet s)).2) ∧
    container_ok (mkContainer (l1 ++ l2) (delete ty (metadata c)) (next_slot c)).
Proof.
  intros (Hnd & Hmd & Hs) Hm. assert (ty ∈ types c) as (s0 & Hty & Hs0)%list_elem_of_fmap by (apply Hmd; by rewrite Hm).
  destruct (position_split (has_type ∅ ty) (facets c) s0) as (l1 & s & l2 & Hl & Hp & Hpos); [done| |].
  { unfold has_type. rewrite unlocked. cbn. by apply String.eqb_eq. }
  unfold has_type in Hp. rewrite unlocked in Hp. apply String.eqb_eq in Hp.
  unfold types in *. rewrite Hl, fmap_app, fmap_cons in Hnd, Hs.
  setoid_rewrite Hl in Hmd. setoid_rewrite fmap_app in Hmd. setoid_rewrite fmap_cons in Hmd.
  change (slot_type s = ty) in Hp. rewrite Hp in *.
  assert ((ty ∉ (slot_type <$> l1 ++ l2))) as Hni.
  { rewrite fmap_app. rewrite <-Permutation_middle in Hnd. by apply NoDup_cons in Hnd as []. }
  exists l1, s, l2. split_and!; [done..| |].
  - unfold detach. rewrite Hm, Hpos, Hl, list_lookup_middle, take_app_length, drop_app_ge by (try done; lia).
    replace (S (length l1) - length l1)%nat with 1%nat by lia. done.
  - unfold container_ok, types. cbn [facets metadata]. split_and!.
    + rewrite <-Permutation_middle in Hnd. rewrite fmap_app. by apply NoDup_cons in Hnd as [].
    + intros ty'. rewrite lookup_delete_is_Some, <-Hmd, fmap_app, !elem_of_app, elem_of_cons.
      rewrite fmap_app, elem_of_app in Hni. naive_solver.
    + apply StronglySorted_remove in Hs. rewrite <-fmap_app in Hs. revert Hs. apply StronglySorted_mono.
      intros a b Ha Hb. unfold priority_in. rewrite !lookup_delete_ne by congruence. done.
Qed.

(** Whatever leaves the types of the facets leaves the container well formed. *)
Lemma same_types_ok c l : slot_type <$> l = types c → container_ok c → container_ok (set_facets l c).
Proof.
  intros Hl. assert (types (set_facets l c) = types c) as Ht by done. unfold container_ok. by rewrite Ht.
Qed.
Lemma slot_types f s l l' : facet_type f = slot_type s → slot_type <$> l' = slot_type <$> l →
  slot_type <$> mkSlot (slot_id s) f :: l' = slot_type <$> s :: l.
Proof. intros Hf Hl. by rewrite !fmap_cons, Hl, <-Hf. Qed.
Lemma before_each_types now method args h l : slot_type <$> (before_each now method args h l).1 = slot_type <$> l.
Proof.
  revert args. induction l as [|s l IH]; intros args; cbn; [done|].
  pose proof (before_type now method args h (slot_facet s)) as Ht.
  destruct (before_method now method args h (slot_facet s)) as [f [r|e]]; cbn in Ht; [|by apply slot_types].
  destruct r as [|args'|r|r]; [specialize (IH args)|specialize (IH args')|specialize (IH args)|by apply slot_types];
    destruct (before_each _ _ _ _ l); by apply slot_types.
Qed.
Lemma after_each_types now method args res h l : slot_type <$> (after_each now method args res h l).1 = slot_type <$> l.
Proof.
  revert res. induction l as [|s l IH]; intros res; cbn; [done|].
  pose proof (after_type now method args res h (slot_facet s)) as Ht.
  destruct (after_method now method args res h (slot_facet s)) as [f [r|e]]; cbn in Ht; [|by apply slot_types].
  specialize (IH match r with ReplaceResult x => x | _ => res end).
  destruct (after_each now method args _ h l). by apply slot_types.
Qed.
Lemma hook_each_types hook l : (∀ f, facet_type (hook f).1 = facet_type f) →
  slot_type <$> (hook_each hook l).1 = slot_type <$> l.
Proof.
  intros Hh. induction l as [|s l IH]; cbn; [done|]. specialize (Hh (slot_facet s)).
  destruct (hook (slot_facet s)) as [f r], (hook_each hook l). by apply slot_types.
Qed.
Lemma before_ok now method args h c : container_ok c → container_ok (intercept_before now method args h c).1.
Proof.
  intros Hc. unfold intercept_before. pose proof (before_each_types now method args h (facets c)) as Ht.
  destruct (before_each _ _ _ _ _). by apply same_types_ok.
Qed.
Lemma after_ok now method args res h c : container_ok c → container_ok (intercept_after now method args res h c).1.
Proof.
  intros Hc. unfold intercept_after.
  pose proof (after_each_types now method args res h (reverse (facets c))) as Ht.
  destruct (after_each _ _ _ _ _ _) as [l o]. apply same_types_ok; [|done]. cbn in Ht.
  by rewrite fmap_reverse, Ht, fmap_reverse, reverse_involutive.
Qed.
Lemma hook_ok hook c : (∀ f, facet_type (hook f).1 = facet_type f) → container_ok c → container_ok (call_hook hook c).1.
Proof.
  intros Hh Hc. unfold call_hook. pose proof (hook_each_types hook (facets c) Hh) as Ht.
  destruct (hook_each _ _). by apply same_types_ok.
Qed.

(** What a facet answers when it is detached. *)
Definition detach_error (actor : string) l (ty : string) : option FacetError :=
  match List.filter (λ s, String.eqb (slot_type s) ty) l with
  | s :: _ => match (on_detach actor (slot_facet s)).2 with Ok _ => None | Err e => Some e end
  | [] => None
  end.
Lemma detach_error_here actor l1 s l2 : slot_type s ∉ (slot_type <$> (l1 ++ l2)) →
  detach_error actor (l1 ++ s :: l2) (slot_type s) =
  match (on_detach actor (slot_facet s)).2 with Ok _ => None | Err e => Some e end.
Proof.
  intros Hn. unfold detach_error.
  assert (List.filter (λ s', (slot_type s' =? slot_type s)%string) (l1 ++ s :: l2) = [s]) as ->; [|done].
  rewrite List.filter_app. cbn. rewrite String.eqb_refl.
  assert (∀ l, slot_type s ∉ (slot_type <$> l) → List.filter (λ s', (slot_type s' =? slot_type s)%string) l = []) as Hf.
  { induction l as [|x l IH]; cbn; [done|]. rewrite not_elem_of_cons. intros [Hne ?].
    rewrite (proj2 (String.eqb_neq _ _)) by done. by apply IH. }
  rewrite fmap_app, not_elem_of_app in Hn. by rewrite !Hf by apply Hn.
Qed.
Lemma detach_error_other actor l1 s l2 ty : slot_type s ≠ ty →
  detach_error actor (l1 ++ s :: l2) ty = detach_error actor (l1 ++ l2) ty.
Proof.
  intros Hne. unfold detach_error. rewrite !List.filter_app. cbn. by rewrite (proj2 (String.eqb_neq _ _)).
Qed.
Lemma omap_ext_in {A B} (f g : A → option B) (l : list A) : (∀ x, x ∈ l → f x = g x) → omap f l = omap g l.
Proof.
  induction l as [|x l IH]; intros Hfg; [done|]. cbn. rewrite <-Hfg by (by left). fold (omap f l) (omap g l).
  rewrite IH by (intros y Hy; apply Hfg; by right). done.
Qed.
Lemma detach_each_spec actor tys c : container_ok c → NoDup tys → (∀ ty, ty ∈ tys → ty ∈ types c) →
  let '(c', es) := detach_each ∅ actor tys c in
  container_ok c' ∧ (∀ ty, ty ∈ types c' ↔ ty ∈ types c ∧ ty ∉ tys) ∧ es = omap (detach_error actor (facets c)) tys.
Proof.
  revert c. induction tys as [|ty tys IH]; intros c Hc Hnd Hin; cbn [detach_each].
  { split_and!; [done| |done]. intros ty. split; [|by intros []]. by split; [|apply not_elem_of_nil]. }
  apply NoDup_cons in Hnd as [Hty Hnd].
  destruct (metadata c !! ty) as [m|] eqn:Hm; [|destruct Hc as (_ & Hmd & _); specialize (Hin ty ltac:(by left));
    apply Hmd in Hin; rewrite Hm in Hin; by destruct Hin].
  destruct (detach_ok ty actor c m Hc Hm) as (l1 & s & l2 & Hl & Hs & Hni & -> & Hc1).
  set (c1 := mkContainer (l1 ++ l2) _ _) in *.
  assert (∀ t, t ∈ types c ↔ t = ty ∨ t ∈ types c1) as Ht.
  { intros t. unfold types. rewrite Hl. subst c1. cbn [facets]. rewrite !fmap_app, fmap_cons, !elem_of_app, elem_of_cons.
    rewrite Hs. tauto. }
  specialize (IH c1 Hc1 Hnd). destruct (detach_each ∅ actor tys c1) as [c' es].
  destruct IH as (Hc' & Ht' & ->).
  { intros t Hit. specialize (Hin t ltac:(by right)). apply Ht in Hin as [->|?]; [done|done]. }
  split_and!; [done| |].
  - intros t. rewrite Ht', Ht, not_elem_of_cons. split; [intros [? ?]; split_and!; [by right| |done]|].
    + intros ->. by apply Hni.
    + by intros ([->|?] & ? & ?).
  - cbn [omap list_omap]. rewrite Hl. rewrite <-Hs at 1. rewrite detach_error_here by (by rewrite Hs).
    assert (omap (detach_error actor (facets c1)) tys = omap (detach_error actor (l1 ++ s :: l2)) tys) as ->.
    { apply omap_ext_in. intros t Hit. symmetry. apply detach_error_other. rewrite Hs. by intros ->. }
    by destruct (on_detach actor (slot_facet s)).2.
Qed.
Lemma by_priority_types c : container_ok c → (by_priority (metadata c)).*1 ≡ₚ types c ∧
  StronglySorted (λ a b, priority_in (metadata c) a ≤ priority_in (metadata c) b) (by_priority (metadata c)).*1.
Proof.
  intros (Hnd & Hmd & _). assert ((by_priority (metadata c)).*1 ≡ₚ (map_to_list (metadata c)).*1) as Hp.
  { unfold by_priority. rewrite sort_by_key_perm, <-list_fmap_compose.
    erewrite list_fmap_ext; [done|]. by intros _ [ty m] _. }
  split.
  - rewrite Hp. apply NoDup_Permutation; [apply NoDup_fst_map_to_list|done|]. intros ty. rewrite Hmd. split.
    + intros ([ty' m] & -> & ?%elem_of_map_to_list)%list_elem_of_fmap. by exists m.
    + intros [m Hm]. apply list_elem_of_fmap. exists (ty, m). by rewrite elem_of_map_to_list.
  - apply StronglySorted_fmap. eapply StronglySorted_mono; [|apply sort_by_key_sorted].
    assert (∀ x, x ∈ by_priority (metadata c) → priority_in (metadata c) x.1 = x.2) as Hx.
    { intros x. unfold by_priority. rewrite sort_by_key_perm. intros ([ty m] & -> & Hm%elem_of_map_to_list)%list_elem_of_fmap.
      unfold priority_in. cbn. by rewrite Hm. }
    intros x y Hx1 Hy. unfold ascending. by rewrite !Hx.
Qed.
End container_lemmas.

(** Runs of a container whose facets nobody else writes. *)
Inductive ContainerOp (F : Type) :=
| Attach (f : F) (actor : string) (tenant namespace : option string)
| Detach (ty actor : string)
| DetachAll (actor : string)
| Before (now : Z) (method : string) (args : Bytes) (h : Headers)
| After (now : Z) (method : string) (args res : Bytes) (h : Headers)
| Exited (actor from : string) (r : ExitReason)
| Down (actor monitored : string) (r : ExitReason)
| InitComplete (actor : string)
| TerminateStart (actor : string) (r : ExitReason).
Arguments Attach {F}. Arguments Detach {F}. Arguments DetachAll {F}. Arguments Before {F}. Arguments After {F}.
Arguments Exited {F}. Arguments Down {F}. Arguments InitComplete {F}. Arguments TerminateStart {F}.
Definition exec {F} `{Facet F} (c : FacetContainer F) (o : ContainerOp F) : FacetContainer F :=
  match o with
  | Attach f actor tenant ns => (attach_with_tenant_context ∅ f actor tenant ns c).1
  | Detach ty actor => (detach ∅ ty actor c).1
  | DetachAll actor => (detach_all ∅ actor c).1
  | Before now method args h => (intercept_before now method args h c).1
  | After now method args res h => (intercept_after now method args res h c).1
  | Exited actor from r => (call_on_exit actor from r c).1
  | Down actor monitored r => (call_on_down actor monitored r c).1
  | InitComplete actor => (call_on_init_complete actor c).1
  | TerminateStart actor r => (call_on_terminate_start actor r c).1
  end.
Lemma detach_all_ok {F} `{FacetLaws F} actor (c : FacetContainer F) : container_ok c →
  container_ok (detach_all ∅ actor c).1 ∧ (∀ ty, ty ∉ types (detach_all ∅ actor c).1) ∧
  (detach_all ∅ actor c).2 = omap (detach_error actor (facets c)) (by_priority (metadata c)).*1.
Proof.
  intros Hc. destruct (by_priority_types c Hc) as [Hp _]. unfold detach_all.
  pose proof (detach_each_spec actor (by_priority (metadata c)).*1 c Hc) as Hd.
  destruct (detach_each ∅ actor _ c) as [c' es]. destruct Hd as (Hc' & Ht & ->).
  - rewrite Hp. apply Hc.
  - intros ty. by rewrite Hp.
  - split_and!; [done| |done]. intros ty [Hin Hn]%Ht. apply Hn. by rewrite Hp.
Qed.
Lemma detach_ok_any {F} `{FacetLaws F} ty actor (c : FacetContainer F) : container_ok c →
  container_ok (detach ∅ ty actor c).1.
Proof.
  intros Hc. destruct (metadata c !! ty) as [m|] eqn:Hm.
  - by destruct (detach_ok ty actor c m Hc Hm) as (l1 & s & l2 & _ & _ & _ & -> & ?).
  - unfold detach. by rewrite Hm.
Qed.

Lemma new_ok {F} `{Facet F} : container_ok (F := F) container_new.
Proof.
  split_and!; [constructor| |constructor]. intros ty. cbn. rewrite lookup_empty. split; [by intros ?%elem_of_nil|].
  by intros [].
Qed.

(** C33. Over every run of a container whose facets nobody else writes, no two facets have the same type, the types
    are those that the metadata describes, and the facets are in the order of their priorities, the highest
    first. *)
Theorem facets_stay_ordered {F} `{FacetLaws F} (ops : list (ContainerOp F)) :
  container_ok (foldl exec container_new ops).
Proof.
  pose proof new_ok as Hc. revert Hc. generalize (container_new (F := F)) as c. induction ops as [|o ops IH]; intros c Hc; [done|]. apply IH.
  destruct o; cbn [exec].
  - by apply attach_ok.
  - by apply detach_ok_any.
  - by apply detach_all_ok.
  - by apply before_ok.
  - by apply after_ok.
  - apply hook_ok; [intros f; apply exit_type|done].
  - apply hook_ok; [intros f; apply down_type|done].
  - apply hook_ok; [intros f; apply init_type|done].
  - apply hook_ok; [intros f; apply terminate_type|done].
Qed.

(** When an actor ends, every facet is detached whichever fail: the container is empty, and its errors are the
    answers of the facets, each asked once, the lowest priority first. *)
Theorem detach_all_empties {F} `{FacetLaws F} (actor : string) (c : FacetContainer F) : container_ok c →
  let '(c', es) := detach_all ∅ actor c in
  facets c' = [] ∧ metadata c' = ∅ ∧
  ∃ tys, tys ≡ₚ types c ∧
    StronglySorted (λ a b, priority_in (metadata c) a ≤ priority_in (metadata c) b) tys ∧
    es = omap (detach_error actor (facets c)) tys.
Proof.
  intros Hc. destruct (detach_all_ok actor c Hc) as ((_ & Hmd & _) & Ht & He).
  destruct (by_priority_types c Hc) as [Hp Hs]. destruct (detach_all ∅ actor c) as [c' es]. cbn [fst snd] in *.
  split_and!.
  - destruct (facets c') as [|s l] eqn:Hf; [done|]. destruct (Ht (slot_type s)). unfold types. rewrite Hf. by left.
  - apply map_eq. intros ty. rewrite lookup_empty. apply eq_None_not_Some. rewrite <-Hmd. apply Ht.
  - by eexists.
Qed.

(** ** Lemmas: the cache *)

(** The entries of a cache from the least to the most recently used. *)
Abbreviation Recent := (list (string * (Bytes * Z))).
Definition keys_of (l : Recent) : list string := l.*1.
Definition without (k : string) (l : Recent) : Recent := List.filter (λ x, other_key k x.1) l.
Definition recent_find (k : string) (l : Recent) : option (Bytes * Z) :=
  snd <$> head (List.filter (λ x, negb (other_key k x.1)) l).
Definition recent_get (k : string) (ttl now : Z) (l : Recent) : Recent * option Bytes :=
  match recent_find k l with
  | None => (l, None)
  | Some e => if expired now ttl e then (without k l, None) else (without k l ++ [(k, e)], Some e.1)
  end.
Definition recent_insert (cap : Z) (k : string) (v : Bytes) (now : Z) (l : Recent) : Recent :=
  let l := match recent_find k l with
           | Some _ => without k l
           | None => if cap <=? Z.of_nat (length l) then tail l else l
           end in
  l ++ [(k, (v, now))].
Inductive CacheOp :=
| CacheGet (k : string) (ttl now : Z)
| CacheInsert (k : string) (v : Bytes) (now : Z)
| CacheRemove (k : string)
| CacheClear.
Definition cache_exec (c : LruCache) (o : CacheOp) : LruCache * option Bytes :=
  match o with
  | CacheGet k ttl now => cache_get k ttl now c
  | CacheInsert k v now => (cache_insert k v now c, None)
  | CacheRemove k => (cache_remove k c, None)
  | CacheClear => (cache_clear c, None)
  end.
Definition recent_exec (cap : Z) (l : Recent) (o : CacheOp) : Recent * option Bytes :=
  match o with
  | CacheGet k ttl now => recent_get k ttl now l
  | CacheInsert k v now => (recent_insert cap k v now l, None)
  | CacheRemove k => (without k l, None)
  | CacheClear => ([], None)
  end.
Fixpoint answers {C} (step : C → CacheOp → C * option Bytes) (c : C) (os : list CacheOp) : C * list (option Bytes) :=
  match os with
  | [] => (c, [])
  | o :: os => let '(c, a) := step c o in let '(c, l) := answers step c os in (c, a :: l)
  end.
(** A cache and the list that it stands for. *)
Definition caches (c : LruCache) (l : Recent) : Prop :=
  NoDup l.*1 ∧ order c = l.*1 ∧ entries c = list_to_map l.
Lemma other_key_spec k k' : other_key k k' = true ↔ k' ≠ k.
Proof. unfold other_key. by rewrite negb_true_iff, String.eqb_neq. Qed.
Lemma other_key_same k : other_key k k = false.
Proof. unfold other_key. by rewrite String.eqb_refl. Qed.
Lemma without_keys k (l : Recent) : (without k l).*1 = List.filter (other_key k) l.*1.
Proof.
  unfold without. induction l as [|[k' e] l IH]; [done|]. cbn [List.filter fmap list_fmap fst].
  destruct (other_key k k'); cbn [fmap list_fmap fst]; by rewrite IH.
Qed.
Lemma elem_of_without_key k k' (l : Recent) : k' ∈ (without k l).*1 ↔ k' ≠ k ∧ k' ∈ l.*1.
Proof. rewrite without_keys, !list_elem_of_In, filter_In, other_key_spec. tauto. Qed.
Lemma without_map k (l : Recent) : list_to_map (M := gmap string (Bytes * Z)) (without k l) = delete k (list_to_map l).
Proof.
  unfold without. induction l as [|[k' e] l IH]; [cbn; by rewrite delete_empty|]. cbn [List.filter fst].
  destruct (other_key k k') eqn:Hk; rewrite !list_to_map_cons.
  - apply other_key_spec in Hk. by rewrite IH, delete_insert_ne.
  - apply not_true_iff_false in Hk. rewrite other_key_spec in Hk. apply dec_stable in Hk as ->.
    by rewrite IH, delete_insert_eq.
Qed.
Lemma recent_find_map k (l : Recent) : recent_find k l = list_to_map (M := gmap string (Bytes * Z)) l !! k.
Proof.
  induction l as [|[k' e] l IH]; [done|]. unfold recent_find. cbn. destruct (other_key k k') eqn:Hk; cbn.
  - apply other_key_spec in Hk. by rewrite lookup_insert_ne.
  - apply not_true_iff_false in Hk. rewrite other_key_spec in Hk. apply dec_stable in Hk as ->.
    by rewrite lookup_insert_eq.
Qed.
Lemma caches_without k c l : caches c l → caches (cache_remove k c) (without k l).
Proof.
  intros (Hnd & Ho & He). unfold caches, cache_remove. cbn [order entries capacity]. rewrite without_keys, without_map, Ho, He.
  split_and!; [|done..]. by apply NoDup_ListNoDup, List.NoDup_filter, NoDup_ListNoDup.
Qed.
Lemma caches_last k e c l : caches c l → k ∉ l.*1 → caches (mkCache (order c ++ [k]) (<[k := e]> (entries c)) (capacity c)) (l ++ [(k, e)]).
Proof.
  intros (Hnd & Ho & He) Hk. unfold caches. cbn [order entries capacity]. rewrite fmap_app, Ho, He, list_to_map_snoc by done. cbn.
  split_and!; [|done..]. apply NoDup_app. split_and!; [done| |by apply NoDup_singleton].
  intros k' Hk' ->%list_elem_of_singleton. done.
Qed.
Lemma caches_moved k e c l : caches c l → entries c !! k = Some e →
  caches (mkCache (List.filter (other_key k) (order c) ++ [k]) (entries c) (capacity c)) (without k l ++ [(k, e)]).
Proof.
  intros Hc Hk. pose proof (caches_last k e _ _ (caches_without k c l Hc)) as Hl.
  rewrite elem_of_without_key in Hl. specialize (Hl ltac:(tauto)). cbn in Hl.
  by rewrite insert_delete_id in Hl.
Qed.
Lemma cache_insert_refines k v now c l : caches c l →
  caches (cache_insert k v now c) (recent_insert (capacity c) k v now l).
Proof.
  intros Hc. pose proof Hc as (Hnd & Ho & He). unfold cache_insert, recent_insert. rewrite recent_find_map, <-He.
  destruct (entries c !! k) as [e|] eqn:Hk.
  - pose proof (caches_last k (v, now) _ _ (caches_without k c l Hc)) as Hl. rewrite elem_of_without_key in Hl.
    specialize (Hl ltac:(tauto)). cbn in Hl. by rewrite insert_delete_eq in Hl.
  - rewrite He in Hk. apply not_elem_of_list_to_map_2 in Hk.
    rewrite He, map_size_list_to_map by done. destruct (capacity c <=? Z.of_nat (length l)) eqn:Hcap.
    + destruct l as [|[old e] l]; rewrite Ho; cbn [fmap list_fmap fst tail].
      * apply (caches_last k (v, now) (mkCache [] ∅ (capacity c)) []); [|by apply not_elem_of_nil].
        split_and!; [constructor|done|done].
      * cbn in Hnd, Hk. apply NoDup_cons in Hnd as [Hold Hnd]. apply not_elem_of_cons in Hk as [_ Hk].
        refine (caches_last k (v, now) (mkCache _ _ _) l _ Hk).
        split_and!; [done|done|]. 
        change (delete old (<[old := e]> (list_to_map l)) = (list_to_map l : gmap string (Bytes * Z))).
        rewrite delete_insert_eq, delete_id; [done|].
        by apply not_elem_of_list_to_map_1.
    + rewrite <-He. by apply caches_last.
Qed.
Lemma cache_get_refines k ttl now c l : caches c l →
  let '(c', a) := cache_get k ttl now c in let '(l', a') := recent_get k ttl now l in
  a = a' ∧ caches c' l' ∧ capacity c' = capacity c.
Proof.
  intros Hc. pose proof Hc as (_ & _ & He). unfold cache_get, recent_get. rewrite recent_find_map, <-He.
  destruct (entries c !! k) as [e|] eqn:Hk; [|done]. destruct (expired now ttl e).
  - split_and!; [done|by apply caches_without|done].
  - split_and!; [done|by apply caches_moved|done].
Qed.
Lemma cache_exec_refines o c l : caches c l →
  let '(c', a) := cache_exec c o in let '(l', a') := recent_exec (capacity c) l o in
  a = a' ∧ caches c' l' ∧ capacity c' = capacity c.
Proof.
  intros Hc. destruct o as [k ttl now|k v now|k|]; cbn [cache_exec recent_exec].
  - by apply cache_get_refines.
  - split_and!; [done|by apply cache_insert_refines|]. unfold cache_insert. by repeat case_match.
  - split_and!; [done|by apply caches_without|done].
  - split_and!; [done| |done]. by split_and!; [constructor|..].
Qed.
Lemma recent_size cap (os : list CacheOp) l : Z.of_nat (length l) ≤ Z.max 1 cap →
  Z.of_nat (length (answers (recent_exec cap) l os).1) ≤ Z.max 1 cap.
Proof.
  assert (∀ k l, (length (without k l) ≤ length l)%nat) as Hw by (intros; apply List.filter_length_le).
  assert (∀ k l e, recent_find k l = Some e → (length (without k l) < length l)%nat) as Hf.
  { intros k l' e. induction l' as [|[k' e'] l' IH]; [done|]. unfold recent_find. cbn.
    destruct (other_key k k') eqn:Hk; cbn; [|intros _; specialize (Hw k l'); unfold without in Hw; lia].
    intros He. specialize (IH He). unfold without in IH. lia. }
  revert l. induction os as [|o os IH]; intros l Hl; [done|]. cbn [answers].
  assert (Z.of_nat (length (recent_exec cap l o).1) ≤ Z.max 1 cap) as Hstep.
  { destruct o as [k ttl now|k v now|k|]; cbn.
    - unfold recent_get. destruct (recent_find k l) as [e|] eqn:Hk; [|done]. specialize (Hf _ _ _ Hk).
      destruct (expired now ttl e); cbn; rewrite ?length_app; cbn; lia.
    - unfold recent_insert. rewrite length_app. cbn. destruct (recent_find k l) as [e|] eqn:Hk.
      + specialize (Hf _ _ _ Hk). lia.
      + destruct (Z.leb_spec cap (Z.of_nat (length l))); [destruct l; cbn in *; lia|lia].
    - specialize (Hw k l). lia.
    - lia. }
  destruct (recent_exec cap l o) as [l1 a]. specialize (IH l1 Hstep). by destruct (answers (recent_exec cap) l1 os).
Qed.

(** The cache refines the list of its entries in the order of their last use: it answers as the list does, evicts
    the least recently used, and never holds more entries than its capacity, or than one when that is zero. *)
Theorem cache_refines_recency (cap : Z) (os : list CacheOp) :
  let '(c, a) := answers cache_exec (cache_new cap) os in
  let '(l, a') := answers (recent_exec cap) [] os in
  a = a' ∧ caches c l ∧ Z.of_nat (size (entries c)) ≤ Z.max 1 cap.
Proof.
  assert (∀ os c l, caches c l → capacity c = cap →
    (answers cache_exec c os).2 = (answers (recent_exec cap) l os).2 ∧
    caches (answers cache_exec c os).1 (answers (recent_exec cap) l os).1) as Hsim.
  { clear os. induction os as [|o os IH]; intros c l Hc Hcap; [done|]. cbn [answers].
    pose proof (cache_exec_refines o c l Hc) as Ho. rewrite Hcap in Ho.
    destruct (cache_exec c o) as [c1 a1], (recent_exec cap l o) as [l1 a2]. destruct Ho as (-> & Hc1 & Hcap1).
    destruct (IH c1 l1 Hc1 Hcap1) as [Ha Hc2].
    destruct (answers cache_exec c1 os), (answers (recent_exec cap) l1 os). cbn in *. by rewrite Ha. }
  destruct (Hsim os (cache_new cap) []) as [Ha Hc]; [split_and!; [constructor|done|done]|done|].
  pose proof (recent_size cap os [] ltac:(cbn; lia)) as Hs.
  destruct (answers cache_exec (cache_new cap) os) as [c a], (answers (recent_exec cap) [] os) as [l a'].
  cbn [fst snd] in *. destruct Hc as (Hnd & Ho & He). split_and!; [done|done|].
  by rewrite He, map_size_list_to_map.
Qed.

(** ** Lemmas: the keys of the cache *)

Lemma hex_digit_inj a b : (a < 16)%N → (b < 16)%N → hex_digit a = hex_digit b → a = b.
Proof.
  intros Ha Hb He. assert (Ascii.N_of_ascii (hex_digit a) = Ascii.N_of_ascii (hex_digit b)) as Hn by by rewrite He.
  unfold hex_digit in Hn. destruct (N.ltb_spec a 10), (N.ltb_spec b 10); rewrite !Ascii.N_ascii_embedding in Hn; lia.
Qed.
Definition colon : Ascii.ascii := Ascii.Ascii false true false true true true false false.
Lemma hex_digit_colon a : (a < 16)%N → hex_digit a ≠ colon.
Proof.
  intros Ha He. assert (Ascii.N_of_ascii (hex_digit a) = 58%N) as Hn by by rewrite He.
  unfold hex_digit in Hn. destruct (N.ltb_spec a 10); rewrite !Ascii.N_ascii_embedding in Hn; lia.
Qed.
Lemma byte_digits a : (Ascii.N_of_ascii a / 16 < 16)%N ∧ (Ascii.N_of_ascii a mod 16 < 16)%N.
Proof. pose proof (Ascii.N_ascii_bounded a). split; [apply N.Div0.div_lt_upper_bound|apply N.mod_lt]; lia. Qed.
Lemma hex_encode_inj s t : hex_encode s = hex_encode t → s = t.
Proof.
  revert t. induction s as [|a s IH]; intros [|b t]; cbn; try done. intros [= H1 H2 H3].
  destruct (byte_digits a), (byte_digits b). apply hex_digit_inj in H1, H2; [|done..]. f_equal; [|by apply IH].
  rewrite <-(Ascii.ascii_N_embedding a), <-(Ascii.ascii_N_embedding b). f_equal.
  rewrite (N.div_mod (Ascii.N_of_ascii a) 16), (N.div_mod (Ascii.N_of_ascii b) 16) by done. by rewrite H1, H2.
Qed.
(** No colon comes after the one that separates the method from the arguments. *)
Fixpoint colons (s : string) : nat :=
  match s with
  | "" => 0
  | String a s => (if Ascii.eqb a colon then 1 else 0) + colons s
  end.
Lemma hex_no_colons s : colons (hex_encode s) = 0%nat.
Proof.
  induction s as [|a s IH]; cbn; [done|]. destruct (byte_digits a) as [H1 H2].
  by rewrite (proj2 (Ascii.eqb_neq _ _) (hex_digit_colon _ H1)), (proj2 (Ascii.eqb_neq _ _) (hex_digit_colon _ H2)).
Qed.
Lemma colons_app s t : colons (s +:+ t) = (colons s + colons t)%nat.
Proof. induction s as [|a s IH]; cbn; [done|]. rewrite IH. lia. Qed.
Lemma split_at_colon m1 m2 x y : colons x = 0%nat → colons y = 0%nat → m1 +:+ ":" +:+ x = m2 +:+ ":" +:+ y →
  m1 = m2 ∧ x = y.
Proof.
  intros Hx Hy. revert m2. induction m1 as [|a m1 IH]; intros [|b m2]; cbn.
  - by intros [= ->].
  - intros [= <- He]. rewrite He, colons_app in Hx. cbn in Hx. unfold colon in Hx. cbn in Hx. lia.
  - intros [= -> He]. rewrite <-He, colons_app in Hy. cbn in Hy. unfold colon in Hy. cbn in Hy. lia.
  - intros [= -> He]. by destruct (IH m2 He) as [-> ->].
Qed.
Lemma cache_key_inj m1 a1 m2 a2 : cache_key m1 a1 = cache_key m2 a2 → m1 = m2 ∧ a1 = a2.
Proof.
  unfold cache_key. intros [-> He]%split_at_colon; [|apply hex_no_colons..]. by apply hex_encode_inj in He.
Qed.

(** ** Lemmas: messages *)

Lemma cache_insert_lookup k v now c : entries (cache_insert k v now c) !! k = Some (v, now).
Proof. unfold cache_insert. repeat case_match; cbn; apply lookup_insert_eq. Qed.

Section message_lemmas.
Context {F : Type} `{Facet F} {St : Type}.
Context (handle_message : Message → St → St * result string ()).
#[local] Abbreviation Actor := (@Actor F St).
Implicit Types (a : Actor) (m : Message).

Lemma treat_uncalled now m a a' rs r : treat handle_message now m a = (a', false, rs, r) →
  behavior a' = behavior a ∧ ∀ d, r ≠ Err (infinite_recursion d).
Proof.
  unfold treat. destruct (intercept_before _ _ _ _ _) as [c [[args|x]|e]].
  - destruct (handle_message _ _) as [s [?|?]]; done.
  - unfold facet_reply. destruct (_ && _); [|by intros [= <- _ <-]].
    destruct (from_canonical _); by intros [= <- _ <-].
  - by intros [= <- _ <-].
Qed.
Lemma enter_free d : 0 ≤ d ≤ 100 → enter d = (d + 1, Ok ()).
Proof.
  intros Hd. unfold enter, MAX_RECURSION_DEPTH. destruct (Z.ltb_spec 100 d); [lia|].
  by rewrite u64_add_small by (unfold u64_max; lia).
Qed.
(** A message whose handler returns on the thread on which it started leaves the counter as it was. *)
Lemma called_keeps_depth t now m depths a a' rs r : 0 ≤ depths t ≤ 100 →
  treat handle_message now m a = (a', true, rs, r) →
  ∃ depths', process_message handle_message t t now m depths a = (depths', a', rs, r) ∧ ∀ t', depths' t' = depths t'.
Proof.
  intros Hd Ht. unfold process_message. rewrite enter_free, Ht by done. eexists. split; [done|]. intros t'.
  unfold set_depth. rewrite Nat.eqb_refl. destruct (Nat.eqb_spec t t') as [<-|]; [|done].
  unfold leave. destruct (Z.ltb_spec 0 (depths t + 1)); [|lia].
  rewrite u64_sub_small by (unfold u64_max; lia). lia.
Qed.
Lemma uncalled_depths now ms (P : Actor → Prop) a d :
  (∀ a m, P a → m ∈ ms → ∃ a' rs r, treat handle_message now m a = (a', false, rs, r) ∧ P a') →
  P a → (d ≤ 101)%nat →
  ∀ i x, (process_all handle_message now ms (Z.of_nat d) a).2 !! i = Some x →
  x = ([], Err (infinite_recursion 101)) ↔ ((d + i) mod 102 = 101)%nat.
Proof.
  revert a d. induction ms as [|m ms IH]; intros a d HP Ha Hd i x; [done|]. cbn [process_all].
  assert (∀ a m, P a → m ∈ ms → ∃ a' rs r, treat handle_message now m a = (a', false, rs, r) ∧ P a') as HP'.
  { intros a0 m0 H0 Hin. apply HP; [done|by right]. }
  unfold process_message. destruct (decide (d = 101)%nat) as [->|Hne].
  - change (enter (Z.of_nat 101)) with (0, @Err ActorError () (infinite_recursion 101)). cbn -[Nat.modulo Nat.add].
    specialize (IH a 0%nat HP' Ha ltac:(lia)). change (Z.of_nat 0) with 0 in IH.
    destruct (process_all handle_message now ms 0 a) as [[d' a'] l]. cbn [fst snd] in *. destruct i as [|i]; cbn [lookup list_lookup].
    + intros [= <-]. split; [intros _; reflexivity|done].
    + intros Hi. rewrite (IH i x Hi). change (((0 + i) mod 102 = 101)%nat ↔ ((101 + S i) mod 102 = 101)%nat).
      replace (101 + S i)%nat with (i + 1 * 102)%nat by lia. by rewrite Nat.Div0.mod_add.
  - rewrite enter_free by lia. destruct (HP a m Ha ltac:(left)) as (a1 & rs & r & Ht & Ha1). rewrite Ht.
    cbn -[Nat.modulo Nat.add].
    specialize (IH a1 (S d) HP' Ha1 ltac:(lia)). replace (Z.of_nat d + 1) with (Z.of_nat (S d)) by lia.
    destruct (process_all handle_message now ms (Z.of_nat (S d)) a1) as [[d' a'] l]. cbn [fst snd] in *. destruct i as [|i]; cbn [lookup list_lookup].
    + intros [= <-]. rewrite Nat.add_0_r, Nat.mod_small by lia. split; [|lia].
      intros [= -> ->]. by destruct (treat_uncalled _ _ _ _ _ _ Ht) as [_ Hn], (Hn 101).
    + intros Hi. rewrite (IH i x Hi). by replace (S d + i)%nat with (d + S i)%nat by lia.
Qed.
End message_lemmas.

(** C32. Answers of facets use up a thread.  When the facets of an actor answer or refuse every message themselves, the
    counter of the thread is never taken back: of the messages on one thread each hundred and second, and no
    other, is refused as an infinite recursion of depth 101. *)
Theorem answered_messages_exhaust_depth {F} `{Facet F} {St} (handle_message : Message → St → St * result string ())
    (now : Z) (ms : list Message) (P : Actor (F := F) → Prop) (a : Actor) :
  (∀ a m, P a → m ∈ ms → ∃ a' rs r, treat handle_message now m a = (a', false, rs, r) ∧ P a') → P a →
  ∀ i x, (process_all handle_message now ms 0 a).2 !! i = Some x →
  x = ([], Err (infinite_recursion 101)) ↔ (i mod 102 = 101)%nat.
Proof. intros HP Ha i x Hi. exact (uncalled_depths handle_message now ms P a 0 HP Ha ltac:(lia) i x Hi). Qed.

(** A caching facet swallows repetitions.  Once a message has been handled, another of the same type and payload
    does not reach the actor while the entry lives: it is answered with an empty payload, since the result of a
    handler is not passed to the facets. *)
Theorem caching_swallows_repeats {St} (handle_message : Message → St → St * result string ()) (now now' : Z)
    (m m' : Message) (i : nat) (f : CachingFacet) (a a1 : Actor (F := CachingFacet) (St := St)) rs replies :
  facets (container a) = [mkSlot i f] → treat handle_message now m a = (a1, true, rs, Ok ()) →
  message_type m' = message_type m → payload m' = payload m → now ≤ now' < now + ttl f →
  facet_reply (actor_id a1) m' "" = Ok replies →
  ∃ c, treat handle_message now' m' a1 =
    (mkActor (actor_id a1) c (behavior a1), false, replies, Ok ()).
Proof.
  intros Hf Ht Hty Hp Hnow Hrep. unfold treat, intercept_before in Ht. rewrite Hf in Ht. cbn -[facet_reply] in Ht.
  destruct (cache_get _ _ _ _) as [c [v|]]; [cbn -[facet_reply] in Ht; by destruct (facet_reply _ _ _)|]. cbn in Ht.
  destruct (handle_message _ _) as [s [?|?]]; [|done]. cbn in Ht. injection Ht as <- _.
  unfold treat, intercept_before. cbn -[facet_reply]. rewrite Hty, Hp.
  unfold cache_get. rewrite cache_insert_lookup. unfold expired. cbn -[facet_reply].
  destruct (Z.leb_spec (ttl f) (Z.max 0 (now' - now))); [lia|].
  cbn -[facet_reply] in Hrep |- *. rewrite Hrep. by eexists.
Qed.

Lemma position_none {F} (p : Slot F → bool) l : (∀ s, s ∈ l → p s = false) → position p l = length l.
Proof.
  induction l as [|s l IH]; intros Hp; [done|]. cbn. rewrite Hp by left. f_equal. apply IH. intros x Hx. apply Hp. by right.
Qed.
(** A facet that somebody writes while it is detached is forgotten but stays: the answer is success, the
    facet is not told, and it goes on to intercept, beside a second one of its type if one is attached. *)
Theorem busy_facet_survives_detach {F} `{FacetLaws F} (locked : gset nat) (s : Slot F) (actor : string)
    (c : FacetContainer F) : container_ok c → s ∈ facets c → slot_id s ∈ locked →
  detach locked (slot_type s) actor c =
    (mkContainer (facets c) (delete (slot_type s) (metadata c)) (next_slot c), Ok ()).
Proof.
  intros (Hnd & Hmd & _) Hs Hl. unfold detach.
  destruct (metadata c !! slot_type s) as [m|] eqn:Hm.
  2: { assert (slot_type s ∈ types c) as Ht by by apply list_elem_of_fmap_2. apply Hmd in Ht. rewrite Hm in Ht. by destruct Ht. }
  rewrite position_none; [by rewrite lookup_ge_None_2|]. intros x Hx. unfold has_type, is_locked.
  destruct (decide (slot_type x = slot_type s)) as [He|Hne].
  - assert (x = s) as ->; [|by rewrite bool_decide_eq_true_2].
    apply list_elem_of_lookup in Hx as [i Hi], Hs as [j Hj].
    assert (i = j) as ->; [|congruence]. eapply (NoDup_lookup (types c)); [done|..]; unfold types; rewrite list_lookup_fmap.
    + rewrite Hi. cbn. reflexivity.
    + rewrite Hj. cbn. by rewrite He.
  - change (facet_type (slot_facet x)) with (slot_type x). by rewrite (proj2 (String.eqb_neq _ _) Hne), andb_false_r.
Qed.

(** ** Concrete runs *)

(** The facets of the library, in one type. *)
Inductive LibraryFacet := Logging (f : LoggingFacet) | Caching (f : CachingFacet) | Metrics (f : MetricsFacet).
Definition wrap {A B} (k : A → LibraryFacet) (x : A * B) : LibraryFacet * B := (k x.1, x.2).
Definition of_facet {B} (run : ∀ A, Facet A → A → A * B) (f : LibraryFacet) : LibraryFacet * B :=
  match f with
  | Logging f => wrap Logging (run _ _ f) | Caching f => wrap Caching (run _ _ f) | Metrics f => wrap Metrics (run _ _ f)
  end.
#[export] Instance library_facet : Facet LibraryFacet := {
  facet_type f := match f with Logging f => facet_type f | Caching f => facet_type f | Metrics f => facet_type f end;
  get_config f := match f with Logging f => get_config f | Caching f => get_config f | Metrics f => get_config f end;
  get_priority f := match f with Logging f => get_priority f | Caching f => get_priority f | Metrics f => get_priority f end;
  on_attach a v := of_facet (λ _ _, on_attach a v);
  on_detach a := of_facet (λ _ _, on_detach a);
  before_method now m args h := of_facet (λ _ _, before_method now m args h);
  after_method now m args r h := of_facet (λ _ _, after_method now m args r h);
  on_exit a b r := of_facet (λ _ _, on_exit a b r);
  on_down a b r := of_facet (λ _ _, on_down a b r);
  on_init_complete a := of_facet (λ _ _, on_init_complete a);
  on_terminate_start a r := of_facet (λ _ _, on_terminate_start a r)
}.
#[export] Instance library_laws : FacetLaws LibraryFacet.
Proof. split; intros; destruct f as [f|f|f]; cbn; by try destruct (cache_get _ _ _ _). Qed.

Module Sample.
Definition logging : LibraryFacet := Logging (logging_new (Object []) LOGGING_FACET_DEFAULT_PRIORITY).
Definition caching : CachingFacet := caching_new (Object []) CACHING_FACET_DEFAULT_PRIORITY.
Definition metrics : LibraryFacet := Metrics (metrics_new Null METRICS_FACET_DEFAULT_PRIORITY).
Definition attached (locked : gset nat) (fs : list LibraryFacet) (c : FacetContainer LibraryFacet) : FacetContainer LibraryFacet :=
  foldl (λ c f, (attach locked f "a" c).1) c fs.
Definition all : FacetContainer LibraryFacet := attached ∅ [Caching caching; logging; metrics] container_new.
Definition names (c : FacetContainer LibraryFacet) : list string := types c.
(** A counter, and an actor with a cache. *)
Definition count (m : Message) (n : Z) : Z * result string () := (n + 1, Ok ()).
Definition with_cache : FacetContainer CachingFacet := (attach ∅ caching "a" container_new).1.
Definition counter (n : Z) : Actor (F := CachingFacet) := mkActor "a//counter::n@node" with_cache n.
Definition increment : Message := mkMessage "b" "a" "increment" "1" ∅ "q".
End Sample.
Example in_order : Sample.names Sample.all = ["logging"; "metrics"; "caching"].
Proof. vm_compute. reflexivity. Qed.
(** The logging facet, which somebody writes, counts as one of priority 0. *)
Example busy_facet_sinks :
  Sample.names (Sample.attached {[0%nat]} [Caching Sample.caching] (Sample.attached ∅ [Sample.logging] container_new)) =
  ["caching"; "logging"].
Proof. vm_compute. reflexivity. Qed.
Example two_of_a_type :
  let c := (detach {[0%nat]} "caching" "a" (Sample.attached ∅ [Caching Sample.caching] container_new)).1 in
  (list_facets c, Sample.names (Sample.attached ∅ [Caching Sample.caching] c)) = ([], ["caching"; "caching"]).
Proof. vm_compute. reflexivity. Qed.
(** The counter is incremented once, the second message is answered with nothing. *)
Example incremented_once :
  let '(_, a, l) := process_all Sample.count 7 [Sample.increment; Sample.increment] 0 (Sample.counter 0) in
  (behavior a, fst <$> l) = (1, [[]; [mkMessage "a//counter::n@node" "b" "increment_reply" "" ∅ "q"]]).
Proof. vm_compute. reflexivity. Qed.
(** An answer needs an identifier of the actor that can be parsed, here one whose node is empty. *)
Example unparsable_actor_cannot_answer :
  facet_reply "a//counter::n@" Sample.increment "" =
    Err (BehaviorError "invalid actor id 'a//counter::n@' while sending facet reply: Missing required field: node_id").
Proof. vm_compute. reflexivity. Qed.
(** A hundred and one messages whose handlers have not returned make the thread refuse the next. *)
Example busy_thread : is_ok (enter (Nat.iter 101 (λ d, (enter d).1) 0)).2 = false.
Proof. vm_compute. reflexivity. Qed.

Lemma attached_ok fs c : container_ok c → container_ok (Sample.attached ∅ fs c).
Proof. revert c. induction fs as [|f fs IH]; intros c Hc; [done|]. by apply IH, attach_ok. Qed.
Lemma facets_stay_ordered_witness :
  container_ok (foldl exec container_new
    [Attach (Caching Sample.caching) "a" None None; Attach Sample.logging "a" None None; Detach "caching" "a"]).
Proof.
  exact (facets_stay_ordered
    [Attach (Caching Sample.caching) "a" None None; Attach Sample.logging "a" None None; Detach "caching" "a"]).
Defined.
Lemma detach_all_empties_witness :
  container_ok Sample.all ∧ facets (detach_all ∅ "a" Sample.all).1 = [].
Proof.
  assert (container_ok Sample.all) as Hc by apply attached_ok, new_ok. split; [exact Hc|].
  pose proof (detach_all_empties "a" Sample.all Hc) as H. destruct (detach_all ∅ "a" Sample.all). exact (proj1 H).
Defined.
Lemma busy_facet_survives_detach_witness :
  let c := Sample.attached ∅ [Sample.logging] container_new in
  list_facets (detach {[0%nat]} "logging" "a" c).1 = [] ∧ get_facet_count (detach {[0%nat]} "logging" "a" c).1 = 1%nat.
Proof.
  cbn zeta. set (c := Sample.attached ∅ [Sample.logging] container_new). change "logging" with (slot_type (mkSlot 0 Sample.logging)).
  assert (container_ok c) as Hc by apply attached_ok, new_ok.
  rewrite (busy_facet_survives_detach {[0%nat]} (mkSlot 0 Sample.logging) "a" c Hc); [|by left|by apply elem_of_singleton].
  split; vm_compute; reflexivity.
Defined.
Lemma caching_swallows_repeats_witness :
  ∃ a1 c, treat Sample.count 7 Sample.increment (Sample.counter 0) = (a1, true, [], Ok ()) ∧
    treat Sample.count 8 Sample.increment a1 = (mkActor (actor_id a1) c 1, false,
      [mkMessage "a//counter::n@node" "b" "increment_reply" "" ∅ "q"], Ok ()).
Proof.
  eexists. destruct (caching_swallows_repeats Sample.count 7 8 Sample.increment Sample.increment 0 Sample.caching
    (Sample.counter 0) _ [] _ eq_refl eq_refl eq_refl eq_refl ltac:(vm_compute; split; [discriminate|reflexivity]) eq_refl) as [c Hc].
  exists c. split; [reflexivity|exact Hc].
Defined.
(** A facet that answers everything. *)
Definition answered (a : Actor (F := CachingFacet) (St := Z)) : Prop :=
  ∃ f, facets (container a) = [mkSlot 0 f] ∧ ttl f = ttl Sample.caching ∧
    entries (cache f) !! cache_key "increment" "1" = Some ("", 7).
Lemma answered_stays a m : answered a → m ∈ repeat Sample.increment 102 →
  ∃ a' rs r, treat Sample.count 8 m a = (a', false, rs, r) ∧ answered a'.
Proof.
  intros (f & Hf & Ht & He) Hm. apply list_elem_of_In, repeat_spec in Hm as ->. unfold treat, intercept_before. rewrite Hf.
  cbn -[cache_get cache_key facet_reply]. unfold cache_get. rewrite He, Ht. cbn -[cache_key facet_reply].
  change (expired 8 (300 * 1000000000) ("", 7)) with false. cbn -[facet_reply].
  destruct (facet_reply (actor_id a) _ _);
    (eexists _, _, _; split; [done|]; eexists; cbn [container set_facets facets]; split; [done|]; by split).
Qed.
Lemma answered_messages_exhaust_depth_witness :
  ∃ a, answered a ∧ ∃ x, (process_all Sample.count 8 (repeat Sample.increment 102) 0 a).2 !! 101%nat = Some x ∧
    x = ([], Err (infinite_recursion 101)).
Proof.
  exists (treat Sample.count 7 Sample.increment (Sample.counter 0)).1.1.1.
  assert (answered (treat Sample.count 7 Sample.increment (Sample.counter 0)).1.1.1) as Ha.
  { eexists. split; [vm_compute; reflexivity|]. split; vm_compute; reflexivity. }
  split; [exact Ha|]. eexists. split; [vm_compute; reflexivity|].
  refine (proj2 (answered_messages_exhaust_depth Sample.count 8 (repeat Sample.increment 102) answered _
    answered_stays Ha 101 _ _) eq_refl).
  vm_compute. reflexivity.
Defined.
