(* ===== verification/Registry.v ===== *)
(** Registry: the inventory of the actors of a node, crates/actor/src/actor_registry.rs, and the table of
    pending questions, pending_asks.rs.

    A map that is keyed by identities is keyed by their canonical strings, by which identities are
    compared; where the identity itself is read from a key it is kept with the value.  A sender is shared
    by the keys that it is registered under: the tables hold references into [senders].  The order in
    which a hash map is listed is that of [map_to_list]. *)
From S2P Require Import Prelude Text Identity Context.

#[local] Arguments String.append : simpl nomatch.

(** ** Data *)

Inductive ActorRegistryError :=
| ActorNotFound (m : string)
| LookupFailed (m : string)
| RegistrationFailed (m : string)
| UnregistrationFailed (m : string)
| SendFailed (m : string)
| RegistryTimeout
| DependencyUnavailable (m : string)
| VisibilityDenied (m : string)
| LinkMonitorDenied (m : string)
| MailboxFull (depth capacity retry_after_ms : Z).

(** Tenant, namespace and canonical identity. *)
Abbreviation ScopedActorKey := (string * string * string)%type.
Definition scoped_actor_key (tenant ns : string) (a : ActorId) : ScopedActorKey := (tenant, ns, canonical a).
(** [key.actor_id == actor_id] *)
Definition key_is (a : ActorId) (k : ScopedActorKey) : bool := String.eqb k.2 (canonical a).

Inductive ActorState :=
| ActorStateUnspecified | ActorStateCreating | ActorStateActive | ActorStateInactive | ActorStateActivating
| ActorStateDeactivating | ActorStateStopping | ActorStateMigrating | ActorStateFailed | ActorStateTerminated.
Inductive BehaviorType :=
| GenServer | GenEvent | GenStateMachine | WorkflowBehavior | Custom (name : string).
Definition behavior_kind_key (b : BehaviorType) : string :=
  match b with
  | GenServer => "gen_server" | GenEvent => "gen_event" | GenStateMachine => "gen_state_machine"
  | WorkflowBehavior => "workflow" | Custom name => name
  end.

(** What the registry reads and sets of a sender; a handle is the number of a runtime. *)
Record Sender := mkSender {
  s_tenant : option string;
  s_namespace : option string;
  s_actor_type : option string;
  s_kind : option string;
  s_handle : option nat
}.
Record ActorRegistrationParams := mkParams {
  par_actor_id : ActorId;
  par_sender : nat;
  par_actor_type : string;
  par_config : option string;
  par_instance : option nat;
  par_behavior_kind : option BehaviorType
}.

Record ActorRegistry := mkRegistry {
  local_node_id : string;
  senders : gmap nat Sender;
  actors : gmap ScopedActorKey (ActorId * nat);
  registered_actor_entries : gmap ScopedActorKey ActorId;
  actor_configs : gmap string string;
  actor_type_index : gmap (string * string * string) (list ActorId);
  parent_to_children : gmap string (list ActorId);
  child_to_parent : gmap string ActorId
}.
Definition registry_new (node : string) : ActorRegistry := mkRegistry node ∅ ∅ ∅ ∅ ∅ ∅ ∅.
Definition set_senders (r : ActorRegistry) x : ActorRegistry :=
  mkRegistry (local_node_id r) x (actors r) (registered_actor_entries r) (actor_configs r)
    (actor_type_index r) (parent_to_children r) (child_to_parent r).
Definition set_actors (r : ActorRegistry) x : ActorRegistry :=
  mkRegistry (local_node_id r) (senders r) x (registered_actor_entries r) (actor_configs r)
    (actor_type_index r) (parent_to_children r) (child_to_parent r).
Definition set_entries (r : ActorRegistry) x : ActorRegistry :=
  mkRegistry (local_node_id r) (senders r) (actors r) x (actor_configs r)
    (actor_type_index r) (parent_to_children r) (child_to_parent r).
Definition set_configs (r : ActorRegistry) x : ActorRegistry :=
  mkRegistry (local_node_id r) (senders r) (actors r) (registered_actor_entries r) x
    (actor_type_index r) (parent_to_children r) (child_to_parent r).
Definition set_index (r : ActorRegistry) x : ActorRegistry :=
  mkRegistry (local_node_id r) (senders r) (actors r) (registered_actor_entries r) (actor_configs r)
    x (parent_to_children r) (child_to_parent r).
Definition set_tree (r : ActorRegistry) children parents : ActorRegistry :=
  mkRegistry (local_node_id r) (senders r) (actors r) (registered_actor_entries r) (actor_configs r)
    (actor_type_index r) children parents.

(** [retain(|id| id != actor_id)] *)
Definition without (a : ActorId) (l : list ActorId) : list ActorId := List.filter (λ b, negb (ActorId_eqb b a)) l.
Definition contains (a : ActorId) (l : list ActorId) : bool := existsb (ActorId_eqb a) l.
(** The lists of a map without an identity, and the map without the lists that are empty then. *)
Definition prune {K} `{Countable K} (a : ActorId) (m : gmap K (list ActorId)) : gmap K (list ActorId) :=
  omap (λ l, match without a l with [] => None | l => Some l end) m.
Definition push_new (a : ActorId) (l : list ActorId) : list ActorId := if contains a l then l else l ++ [a].

(** ** Inventory *)

(** The senders of an identity in all scopes. *)
Definition senders_of (r : ActorRegistry) (a : ActorId) : list nat :=
  (λ '(_, (_, s)), s) <$> List.filter (λ '(k, _), key_is a k) (map_to_list (actors r)).
(** None when there is more than one. *)
Definition lookup_actor (r : ActorRegistry) (a : ActorId) : option nat :=
  match senders_of r a with [s] => Some s | _ => None end.
Definition lookup_actor_in_scope (r : ActorRegistry) (tenant ns : string) (a : ActorId) : option nat :=
  snd <$> actors r !! scoped_actor_key tenant ns a.
Definition sender_of (r : ActorRegistry) (a : ActorId) : option Sender :=
  s ← lookup_actor r a; senders r !! s.
Definition get_actor_instance (r : ActorRegistry) (a : ActorId) : option nat := sender_of r a ≫= s_handle.
Definition get_actor_state (states : nat → ActorState) (r : ActorRegistry) (a : ActorId) : option ActorState :=
  states <$> get_actor_instance r a.
Definition is_actor_state_active (states : nat → ActorState) (r : ActorRegistry) (a : ActorId) : bool :=
  match get_actor_state states r a with Some ActorStateActive => true | _ => false end.
Definition get_behavior_kind (r : ActorRegistry) (a : ActorId) : option string := sender_of r a ≫= s_kind.
Definition is_actor_activated (r : ActorRegistry) (a : ActorId) : bool :=
  existsb (λ '(k, _), key_is a k) (map_to_list (actors r)).
Definition is_actor_registered (r : ActorRegistry) (a : ActorId) : bool :=
  existsb (λ '(k, _), key_is a k) (map_to_list (registered_actor_entries r)) || is_actor_activated r a.

Definition registered_entries (r : ActorRegistry) : list (string * string * ActorId) :=
  (λ '((t, n, _), a), (t, n, a)) <$> map_to_list (registered_actor_entries r).
Definition registered_actor_count (r : ActorRegistry) : nat := size (registered_actor_entries r).
Definition registered_tenant_ids (r : ActorRegistry) : gset string :=
  list_to_set ((λ '((t, _, _), _), t) <$> map_to_list (registered_actor_entries r)).
Definition registered_actor_ids (r : ActorRegistry) : gset string :=
  list_to_set ((λ '((_, _, c), _), c) <$> map_to_list (registered_actor_entries r)).
Definition live_actor_entries (r : ActorRegistry) : list (string * string * ActorId) :=
  (λ '((t, n, _), (a, _)), (t, n, a)) <$> map_to_list (actors r).
Definition live_actor_count (r : ActorRegistry) : nat := size (actors r).
Definition live_tenant_ids (r : ActorRegistry) : gset string :=
  list_to_set ((λ '((t, _, _), _), t) <$> map_to_list (actors r)).

(** [HashMap::insert] keeps the key that is there. *)
Definition index_add (ctx : RequestContext) (ty : string) (a : ActorId) (r : ActorRegistry) : ActorRegistry :=
  let k := (tenant_id ctx, namespace ctx, ty) in
  set_index r (<[k := push_new a (default [] (actor_type_index r !! k))]> (actor_type_index r)).
Definition set_cell (s : nat) (f : Sender → Sender) (r : ActorRegistry) : ActorRegistry :=
  set_senders r (alter f s (senders r)).
Definition set_actor_type (ty : string) (s : Sender) : Sender :=
  mkSender (s_tenant s) (s_namespace s) (Some ty) (s_kind s) (s_handle s).
Definition set_behavior_kind (k : string) (s : Sender) : Sender :=
  mkSender (s_tenant s) (s_namespace s) (s_actor_type s) (Some k) (s_handle s).
Definition set_local_state_handle (h : option nat) (s : Sender) : Sender :=
  mkSender (s_tenant s) (s_namespace s) (s_actor_type s) (s_kind s) h.
(** What registration sets of the sender: type, kind, and the handle, which a new sender takes from the
    old one of the actor where the caller has none. *)
Definition register_cells (k : ScopedActorKey) (p : ActorRegistrationParams) (r : ActorRegistry) : ActorRegistry :=
  let s := par_sender p in
  let r := set_cell s (set_actor_type (par_actor_type p)) r in
  let r := match par_behavior_kind p with
           | Some b => set_cell s (set_behavior_kind (behavior_kind_key b)) r
           | None => r
           end in
  let r := match par_instance p with Some h => set_cell s (set_local_state_handle (Some h)) r | None => r end in
  match par_instance p, (actors r !! k ≫= λ x : ActorId * nat, senders r !! x.2) ≫= s_handle with
  | None, Some h => set_cell s (set_local_state_handle (Some h)) r
  | _, _ => r
  end.
Definition register_actor (ctx : RequestContext) (p : ActorRegistrationParams) (r : ActorRegistry)
    : ActorRegistry :=
  let a := par_actor_id p in
  let k := scoped_actor_key (tenant_id ctx) (namespace ctx) a in
  let r := register_cells k p r in
  let existing := actors r !! k in
  let r := set_actors r (<[k := (from_option fst a existing, par_sender p)]> (actors r)) in
  let r := match existing with
           | None => set_entries r (<[k := default a (registered_actor_entries r !! k)]> (registered_actor_entries r))
           | Some _ => r
           end in
  let r := match par_config p with
           | Some c => set_configs r (<[canonical a := c]> (actor_configs r))
           | None => r
           end in
  index_add ctx (par_actor_type p) a r.
Definition register_virtual_actor_index (ctx : RequestContext) (a : ActorId) (ty : string) (r : ActorRegistry)
    : ActorRegistry :=
  let k := scoped_actor_key (tenant_id ctx) (namespace ctx) a in
  index_add ctx ty a
    (set_entries r (<[k := default a (registered_actor_entries r !! k)]> (registered_actor_entries r))).

(** The entries of a map whose key is not of the identity. *)
Definition others_of {V} (a : ActorId) (m : gmap ScopedActorKey V) : gmap ScopedActorKey V :=
  filter (λ '(k, _), key_is a k = false) m.
Definition unregister (a : ActorId) (r : ActorRegistry) : ActorRegistry :=
  set_entries (set_index (set_actors r (others_of a (actors r))) (prune a (actor_type_index r)))
    (others_of a (registered_actor_entries r)).
Definition remove_live_actor_runtime (a : ActorId) (r : ActorRegistry) : ActorRegistry :=
  set_actors r (others_of a (actors r)).
Definition unregister_with_cleanup (a : ActorId) (r : ActorRegistry) : ActorRegistry :=
  let r := unregister a r in
  let r := set_tree r (prune a (parent_to_children r)) (delete (canonical a) (child_to_parent r)) in
  set_configs r (delete (canonical a) (actor_configs r)).

Definition discover_actors_by_type (ctx : RequestContext) (ty : string) (r : ActorRegistry) : list ActorId :=
  default [] (actor_type_index r !! (tenant_id ctx, namespace ctx, ty)).

(** The operands that are on this node must be of the namespace of the context and, where it is
    authenticated, registered under its tenant. *)
Definition validate_one_local_operand_scope (ctx : RequestContext) (r : ActorRegistry) (a : ActorId)
    : result ActorRegistryError () :=
  if negb (String.eqb (Identity.namespace a) (namespace ctx)) then
    Err (LinkMonitorDenied ("actor " ++ canonical a ++ " namespace '" ++ Identity.namespace a
      ++ "' does not match request namespace '" ++ namespace ctx ++ "'"))
  else if negb (auth_enabled ctx) then Ok ()
  else
    let k := scoped_actor_key (tenant_id ctx) (namespace ctx) a in
    match actors r !! k, registered_actor_entries r !! k with
    | None, None =>
        Err (LinkMonitorDenied ("actor " ++ canonical a ++ " is not registered under tenant '"
          ++ tenant_id ctx ++ "' namespace '" ++ namespace ctx ++ "' on this node"))
    | _, _ => Ok ()
    end.
Fixpoint validate_operands (ctx : RequestContext) (r : ActorRegistry) (ids : list ActorId)
    : result ActorRegistryError () :=
  match ids with
  | [] => Ok ()
  | a :: ids =>
      if is_on_node a (local_node_id r) then
        _ ← validate_one_local_operand_scope ctx r a; validate_operands ctx r ids
      else validate_operands ctx r ids
  end.
Definition validate_link_monitor_operand_scope (ctx : RequestContext) (r : ActorRegistry) (ids : list ActorId)
    : result ActorRegistryError () :=
  if internal ctx || should_skip_namespace_filter ctx then Ok () else validate_operands ctx r ids.

(** ** Parents and children *)

Definition remove_child_of (parent : string) (child : ActorId) (cs : gmap string (list ActorId))
    : gmap string (list ActorId) :=
  match cs !! parent with
  | Some l => match without child l with [] => delete parent cs | l => <[parent := l]> cs end
  | None => cs
  end.
Definition register_parent_child (parent child : ActorId) (r : ActorRegistry) : ActorRegistry :=
  let cs := match child_to_parent r !! canonical child with
            | Some old => remove_child_of (canonical old) child (parent_to_children r)
            | None => parent_to_children r
            end in
  set_tree r (<[canonical parent := default [] (cs !! canonical parent) ++ [child]]> cs)
    (<[canonical child := parent]> (child_to_parent r)).
Definition unregister_parent_child (parent child : ActorId) (r : ActorRegistry) : ActorRegistry :=
  set_tree r (remove_child_of (canonical parent) child (parent_to_children r))
    (delete (canonical child) (child_to_parent r)).
Definition get_children (r : ActorRegistry) (a : ActorId) : list ActorId :=
  default [] (parent_to_children r !! canonical a).
Definition get_parent (r : ActorRegistry) (a : ActorId) : option ActorId := child_to_parent r !! canonical a.
Definition children_count (r : ActorRegistry) (a : ActorId) : nat := length (get_children r a).
(** The queue and the result of the search; [None] when it goes on. *)
Fixpoint subtree_loop (fuel : nat) (r : ActorRegistry) (queue found : list ActorId) : option (list ActorId) :=
  match queue with
  | [] => Some found
  | a :: queue =>
      match fuel with
      | O => None
      | S fuel => let cs := get_children r a in subtree_loop fuel r (queue ++ cs) (found ++ cs)
      end
  end.
Definition get_subtree (fuel : nat) (r : ActorRegistry) (root : ActorId) : option (list ActorId) :=
  subtree_loop fuel r [root] [].

(** ** Pending questions *)

(** A question that waits is the number of its channel. *)
Record PendingAskEntry := mkAsk { ask_tx : nat; ask_expires_at : Z }.
Record PendingAsks := mkAsks { ask_entries : gmap string PendingAskEntry; default_timeout : Z }.
Definition DEFAULT_ASK_TIMEOUT_SECS : Z := 30.
Definition asks_new (default_timeout : Z) : PendingAsks := mkAsks ∅ default_timeout.
Definition asks_from_env (timeout_ms : option Z) : PendingAsks :=
  asks_new (default (DEFAULT_ASK_TIMEOUT_SECS * 1000) timeout_ms).
(** An entry of the same identifier is replaced, and its channel closed. *)
Definition ask_register (id : string) (tx : nat) (now timeout : Z) (p : PendingAsks) : PendingAsks :=
  mkAsks (<[id := mkAsk tx (now + timeout)]> (ask_entries p)) (default_timeout p).
(** The channel that the reply is sent on. *)
Definition ask_resolve (id : string) (p : PendingAsks) : PendingAsks * option nat :=
  (mkAsks (delete id (ask_entries p)) (default_timeout p), ask_tx <$> ask_entries p !! id).
Definition ask_cancel (id : string) (p : PendingAsks) : PendingAsks :=
  mkAsks (delete id (ask_entries p)) (default_timeout p).
Definition sweep_expired (now : Z) (p : PendingAsks) : PendingAsks * nat :=
  let live := filter (λ '(_, e), now < ask_expires_at e) (ask_entries p) in
  (mkAsks live (default_timeout p), (size (ask_entries p) - size live)%nat).
Definition asks_len (p : PendingAsks) : nat := size (ask_entries p).

(** The events of the table, and the replies that an event sends: identifier and channel. *)
Inductive AskOp :=
| AskRegister (id : string) (tx : nat) (now timeout : Z)
| AskResolve (id : string)
| AskCancel (id : string)
| AskSweep (now : Z).
Definition ask_exec (o : AskOp) (p : PendingAsks) : PendingAsks * list (string * nat) :=
  match o with
  | AskRegister id tx now timeout => (ask_register id tx now timeout p, [])
  | AskResolve id =>
      let '(p, tx) := ask_resolve id p in (p, match tx with Some tx => [(id, tx)] | None => [] end)
  | AskCancel id => (ask_cancel id p, [])
  | AskSweep now => ((sweep_expired now p).1, [])
  end.
Fixpoint ask_run (ops : list AskOp) (p : PendingAsks) : PendingAsks * list (string * nat) :=
  match ops with
  | [] => (p, [])
  | o :: ops => let '(p, out) := ask_exec o p in let '(p, outs) := ask_run ops p in (p, out ++ outs)
  end.
(** The questions that are asked. *)
Definition asked (ops : list AskOp) : list (string * nat) :=
  omap (λ o, match o with AskRegister id tx _ _ => Some (id, tx) | _ => None end) ops.

(** ** Lists of identities *)

Definition ids (l : list ActorId) : list string := canonical <$> l.

Lemma ActorId_eqb_spec a b : ActorId_eqb a b = true ↔ canonical a = canonical b.
Proof. apply String.eqb_eq. Qed.
Lemma contains_spec a l : contains a l = true ↔ canonical a ∈ ids l.
Proof.
  unfold contains, ids. rewrite existsb_exists, list_elem_of_fmap. split.
  - intros (b & Hb%list_elem_of_In & He%ActorId_eqb_spec). by exists b.
  - intros (b & He & Hb). exists b. by rewrite <-list_elem_of_In, ActorId_eqb_spec.
Qed.
Lemma ids_without a l : ids (without a l) = List.filter (λ c, negb (String.eqb c (canonical a))) (ids l).
Proof.
  unfold ids, without. induction l as [|b l IH]; [done|]. cbn. unfold ActorId_eqb at 1.
  destruct (String.eqb (canonical b) (canonical a)); cbn; [exact IH|by f_equal].
Qed.
Lemma elem_of_without a b l : b ∈ without a l ↔ b ∈ l ∧ canonical b ≠ canonical a.
Proof.
  unfold without. rewrite list_elem_of_In, filter_In, <-list_elem_of_In.
  rewrite negb_true_iff. unfold ActorId_eqb. by rewrite String.eqb_neq.
Qed.
Lemma without_NoDup a l : NoDup (ids l) → NoDup (ids (without a l)).
Proof. rewrite ids_without, !NoDup_ListNoDup. apply List.NoDup_filter. Qed.
Lemma elem_of_ids_without a c l : c ∈ ids (without a l) ↔ c ∈ ids l ∧ c ≠ canonical a.
Proof.
  rewrite ids_without, !list_elem_of_In, filter_In, negb_true_iff. by rewrite String.eqb_neq.
Qed.
Lemma push_new_NoDup a l : NoDup (ids l) → NoDup (ids (push_new a l)).
Proof.
  intros Hl. unfold push_new. destruct (contains a l) eqn:Hc; [done|].
  unfold ids. rewrite fmap_app. apply NoDup_app. split_and!; [done| |apply NoDup_singleton].
  intros c Hin He. cbn [fmap list_fmap] in He. apply list_elem_of_singleton in He as ->.
  apply contains_spec in Hin. congruence.
Qed.
Lemma elem_of_push_new a c l : c ∈ ids (push_new a l) ↔ c = canonical a ∨ c ∈ ids l.
Proof.
  unfold push_new. destruct (contains a l) eqn:Hc.
  - apply contains_spec in Hc. split; [auto|]. by intros [->|].
  - unfold ids. rewrite fmap_app, elem_of_app. cbn [fmap list_fmap]. rewrite list_elem_of_singleton. tauto.
Qed.
Lemma lookup_prune {K} `{Countable K} a (m : gmap K (list ActorId)) k l :
  prune a m !! k = Some l ↔ ∃ l', m !! k = Some l' ∧ l = without a l' ∧ l ≠ [].
Proof.
  unfold prune. rewrite lookup_omap_Some. split.
  - intros (l' & Hw & Hk). exists l'. split; [done|]. by destruct (without a l') eqn:He; [|injection Hw as <-].
  - intros (l' & Hk & -> & Hn). exists l'. split; [|done]. by destruct (without a l') eqn:He.
Qed.
Lemma lookup_others {V} (a : ActorId) (m : gmap ScopedActorKey V) k v :
  others_of a m !! k = Some v ↔ m !! k = Some v ∧ k.2 ≠ canonical a.
Proof. unfold others_of. rewrite map_lookup_filter_Some. unfold key_is. by rewrite String.eqb_neq. Qed.

(** ** Consistency *)

(** Live actors are registered, registered ones are indexed by a type, and the two tables of the tree
    are inverse to each other. *)
Record tree_ok (cs : gmap string (list ActorId)) (ps : gmap string ActorId) : Prop := mkTreeOk {
  tree_lists p l : cs !! p = Some l → l ≠ [] ∧ NoDup (ids l);
  tree_up p l c : cs !! p = Some l → c ∈ ids l → ∃ q, ps !! c = Some q ∧ canonical q = p;
  tree_down c q : ps !! c = Some q → ∃ l, cs !! canonical q = Some l ∧ c ∈ ids l
}.
Record registry_ok (r : ActorRegistry) : Prop := mkOk {
  live_registered k x : actors r !! k = Some x → is_Some (registered_actor_entries r !! k);
  live_keys k a s : actors r !! k = Some (a, s) → canonical a = k.2;
  entry_keys k a : registered_actor_entries r !! k = Some a → canonical a = k.2;
  index_lists k l : actor_type_index r !! k = Some l → l ≠ [] ∧ NoDup (ids l);
  indexed t n c a : registered_actor_entries r !! (t, n, c) = Some a →
    ∃ ty l, actor_type_index r !! (t, n, ty) = Some l ∧ c ∈ ids l;
  ok_tree : tree_ok (parent_to_children r) (child_to_parent r)
}.

Inductive RegOp :=
| Register (ctx : RequestContext) (p : ActorRegistrationParams)
| RegisterIndex (ctx : RequestContext) (a : ActorId) (ty : string)
| Unregister (a : ActorId)
| UnregisterWithCleanup (a : ActorId)
| RemoveRuntime (a : ActorId)
| AddChild (parent child : ActorId)
| RemoveChild (parent child : ActorId).
Definition exec (o : RegOp) (r : ActorRegistry) : ActorRegistry :=
  match o with
  | Register ctx p => register_actor ctx p r
  | RegisterIndex ctx a ty => register_virtual_actor_index ctx a ty r
  | Unregister a => unregister a r
  | UnregisterWithCleanup a => unregister_with_cleanup a r
  | RemoveRuntime a => remove_live_actor_runtime a r
  | AddChild p c => register_parent_child p c r
  | RemoveChild p c => unregister_parent_child p c r
  end.
(** A child is removed from the parent that it has, if it has one. *)
Definition well_parented (o : RegOp) (r : ActorRegistry) : Prop :=
  match o with
  | RemoveChild p c => ∀ q, child_to_parent r !! canonical c = Some q → canonical q = canonical p
  | _ => True
  end.
Inductive reached : ActorRegistry → Prop :=
| reached_new node : reached (registry_new node)
| reached_exec o r : reached r → well_parented o r → reached (exec o r).

Lemma index_lists_add (m : gmap (string * string * string) (list ActorId)) k0 a : 
  (∀ k l, m !! k = Some l → l ≠ [] ∧ NoDup (ids l)) →
  ∀ k l, <[k0 := push_new a (default [] (m !! k0))]> m !! k = Some l → l ≠ [] ∧ NoDup (ids l).
Proof.
  intros Hm k l. rewrite lookup_insert_Some. intros [[<- <-]|[_ Hk]]; [|eauto]. split.
  - intros He. assert (canonical a ∈ ids (push_new a (default [] (m !! k0)))) as Hin by (apply elem_of_push_new; auto).
    rewrite He in Hin. by apply not_elem_of_nil in Hin.
  - apply push_new_NoDup. destruct (m !! k0) as [l'|] eqn:Hl; [by apply (Hm k0)|apply NoDup_nil_2].
Qed.
Lemma indexed_add (m : gmap (string * string * string) (list ActorId)) t0 n0 ty0 a t n c :
  (c = canonical a ∧ t = t0 ∧ n = n0 ∨ ∃ ty l, m !! (t, n, ty) = Some l ∧ c ∈ ids l) →
  ∃ ty l, <[(t0, n0, ty0) := push_new a (default [] (m !! (t0, n0, ty0)))]> m !! (t, n, ty) = Some l ∧ c ∈ ids l.
Proof.
  intros [(-> & -> & ->)|(ty & l & Hl & Hc)].
  - exists ty0. eexists. rewrite lookup_insert_eq. split; [done|]. apply elem_of_push_new. auto.
  - destruct (decide ((t0, n0, ty0) = (t, n, ty))) as [He|He].
    + injection He as -> -> ->. exists ty. eexists. rewrite lookup_insert_eq, Hl. split; [done|].
      apply elem_of_push_new. auto.
    + exists ty, l. by rewrite lookup_insert_ne.
Qed.
Lemma indexed_prune (m : gmap (string * string * string) (list ActorId)) a t n c : c ≠ canonical a →
  (∃ ty l, m !! (t, n, ty) = Some l ∧ c ∈ ids l) → ∃ ty l, prune a m !! (t, n, ty) = Some l ∧ c ∈ ids l.
Proof.
  intros Hc (ty & l & Hl & Hin). exists ty, (without a l).
  assert (c ∈ ids (without a l)) as Hw by by apply elem_of_ids_without.
  split; [|done]. apply lookup_prune. exists l. split_and!; [done..|]. intros He. rewrite He in Hw. by apply not_elem_of_nil in Hw.
Qed.
Lemma lists_prune {K} `{Countable K} (m : gmap K (list ActorId)) a :
  (∀ k l, m !! k = Some l → l ≠ [] ∧ NoDup (ids l)) →
  ∀ k l, prune a m !! k = Some l → l ≠ [] ∧ NoDup (ids l).
Proof. intros Hm k l (l' & Hk & -> & Hn)%lookup_prune. split; [done|]. apply without_NoDup. by eapply Hm. Qed.

Lemma lookup_remove_child p c cs q l : remove_child_of p c cs !! q = Some l ↔
  (q = p ∧ ∃ l', cs !! p = Some l' ∧ l = without c l' ∧ l ≠ []) ∨ (q ≠ p ∧ cs !! q = Some l).
Proof.
  unfold remove_child_of. destruct (cs !! p) as [l'|] eqn:Hp.
  - destruct (decide (q = p)) as [->|Hq].
    + destruct (without c l') as [|b w] eqn:Hw.
      * rewrite lookup_delete_eq. split; [done|]. intros [(_ & l0 & [= <-] & -> & Hn)|[? _]]; [by rewrite Hw in Hn|done].
      * rewrite lookup_insert_eq. split; [intros [= <-]; left; split; [done|]; exists l'; by rewrite Hw|].
        by intros [(_ & l0 & [= <-] & -> & Hn)|[? _]]; [rewrite Hw|].
    + assert ((match without c l' with [] => delete p cs | l0 => <[p := l0]> cs end) !! q = cs !! q) as ->.
      { destruct (without c l'); by rewrite ?lookup_delete_ne, ?lookup_insert_ne. }
      split; [by right|]. by intros [[? _]|[_ ?]].
  - split; [|by intros [(-> & l0 & ? & _)|[_ ?]]; [congruence|]].
    intros Hq. right. split; [congruence|done].
Qed.

(** An identity leaves the list of its parent. *)
Lemma tree_remove cs ps p c : tree_ok cs ps → (∀ q, ps !! canonical c = Some q → canonical q = p) →
  tree_ok (remove_child_of p c cs) (delete (canonical c) ps).
Proof.
  intros [Hl Hu Hd] Hp. split.
  - intros q l [(-> & l' & Hk & -> & Hn)|[_ Hk]]%lookup_remove_child; [|by eapply Hl].
    split; [done|]. apply without_NoDup. by eapply Hl.
  - intros q l d [(-> & l' & Hk & -> & Hn)|[Hq Hk]]%lookup_remove_child Hin.
    + apply elem_of_ids_without in Hin as [Hin Hne]. rewrite lookup_delete_ne by done. by eapply Hu.
    + destruct (Hu _ _ _ Hk Hin) as (q' & Hq' & Hc). exists q'. rewrite lookup_delete_ne; [done|].
      intros <-. apply Hq. rewrite <-Hc. by apply Hp.
  - intros d q [Hne Hk]%lookup_delete_Some. destruct (Hd _ _ Hk) as (l & Hlq & Hin).
    destruct (decide (canonical q = p)) as [He|He].
    + assert (d ∈ ids (without c l)) as Hw by by apply elem_of_ids_without.
      exists (without c l). split; [|done]. apply lookup_remove_child. left. subst p.
      split; [done|]. exists l. split_and!; [done..|]. intros Hz. rewrite Hz in Hw. by apply not_elem_of_nil in Hw.
    + exists l. split; [|done]. apply lookup_remove_child. by right.
Qed.
Lemma tree_add cs ps p c : tree_ok cs ps → ps !! canonical c = None →
  tree_ok (<[canonical p := default [] (cs !! canonical p) ++ [c]]> cs) (<[canonical c := p]> ps).
Proof.
  intros [Hl Hu Hd] Hc. split.
  - intros q l [[<- <-]|[_ Hk]]%lookup_insert_Some; [|by eapply Hl]. split; [by intros []%app_nil|].
    unfold ids. rewrite fmap_app. cbn [fmap list_fmap]. apply NoDup_app. split_and!; [| |apply NoDup_singleton].
    + destruct (cs !! canonical p) eqn:Hp; [by eapply Hl|apply NoDup_nil_2].
    + intros d Hin ->%list_elem_of_singleton. destruct (cs !! canonical p) eqn:Hp; [|by apply not_elem_of_nil in Hin].
      destruct (Hu _ _ _ Hp Hin) as (? & ? & _). congruence.
  - intros q l d [[<- <-]|[Hq Hk]]%lookup_insert_Some Hin.
    + unfold ids in Hin. rewrite fmap_app, elem_of_app in Hin. cbn [fmap list_fmap] in Hin.
      rewrite list_elem_of_singleton in Hin.
      destruct (decide (d = canonical c)) as [->|Hd']; [exists p; by rewrite lookup_insert_eq|].
      rewrite lookup_insert_ne by done. destruct Hin as [Hin| ->]; [|done].
      destruct (cs !! canonical p) eqn:Hp; [by eapply Hu|by apply not_elem_of_nil in Hin].
    + destruct (Hu _ _ _ Hk Hin) as (q' & Hq' & He). exists q'. rewrite lookup_insert_ne; [done|]. congruence.
  - intros d q [[<- <-]|[Hne Hk]]%lookup_insert_Some.
    + eexists. rewrite lookup_insert_eq. split; [done|]. unfold ids. rewrite fmap_app, elem_of_app. right.
      by apply list_elem_of_singleton.
    + destruct (Hd _ _ Hk) as (l & Hlq & Hin). destruct (decide (canonical p = canonical q)) as [He|He].
      * rewrite <-He. eexists. rewrite lookup_insert_eq. split; [done|]. rewrite He, Hlq. cbn.
        unfold ids. rewrite fmap_app, elem_of_app. by left.
      * exists l. by rewrite lookup_insert_ne.
Qed.
Lemma tree_prune cs ps a : tree_ok cs ps → tree_ok (prune a cs) (delete (canonical a) ps).
Proof.
  intros [Hl Hu Hd]. split.
  - by apply lists_prune.
  - intros q l d (l' & Hk & -> & Hn)%lookup_prune [Hin Hne]%elem_of_ids_without.
    rewrite lookup_delete_ne by done. by eapply Hu.
  - intros d q [Hne Hk]%lookup_delete_Some. destruct (Hd _ _ Hk) as (l & Hlq & Hin).
    assert (d ∈ ids (without a l)) as Hw by by apply elem_of_ids_without.
    exists (without a l). split; [|done]. apply lookup_prune. exists l. split_and!; [done..|].
    intros Hz. rewrite Hz in Hw. by apply not_elem_of_nil in Hw.
Qed.

Lemma cells_tables k p r :
  let t r := (actors r, registered_actor_entries r, actor_type_index r, parent_to_children r, child_to_parent r) in
  t (register_cells k p r) = t r.
Proof. cbv zeta. unfold register_cells. by repeat case_match. Qed.
(** What registration leaves of the tables. *)
Lemma register_tables ctx p r :
  let a := par_actor_id p in
  let k := scoped_actor_key (tenant_id ctx) (namespace ctx) a in
  let i := (tenant_id ctx, namespace ctx, par_actor_type p) in
  let r' := register_actor ctx p r in
  actors r' = <[k := (from_option fst a (actors r !! k), par_sender p)]> (actors r) ∧
  registered_actor_entries r' = match actors r !! k with
                                | Some _ => registered_actor_entries r
                                | None => <[k := default a (registered_actor_entries r !! k)]> (registered_actor_entries r)
                                end ∧
  actor_type_index r' = <[i := push_new a (default [] (actor_type_index r !! i))]> (actor_type_index r) ∧
  parent_to_children r' = parent_to_children r ∧ child_to_parent r' = child_to_parent r.
Proof.
  cbv zeta. unfold register_actor. set (k := scoped_actor_key _ _ _).
  pose proof (cells_tables k p r) as Hc. cbv zeta in Hc. revert Hc. generalize (register_cells k p r).
  intros c [= <- <- <- <- <-].
  unfold index_add, set_index. by destruct (actors c !! k), (par_config p).
Qed.

Lemma register_ok ctx p r : registry_ok r → registry_ok (register_actor ctx p r).
Proof.
  intros [Hlr Hlk Hek Hil Hix Ht]. destruct (register_tables ctx p r) as (Ha & He & Hi & Hc & Hp).
  set (a := par_actor_id p) in *. set (k0 := scoped_actor_key _ _ a) in *.
  split; rewrite ?Ha, ?He, ?Hi, ?Hc, ?Hp; [| | |by apply index_lists_add| |done].
  - intros k x [[<- <-]|[Hne Hk]]%lookup_insert_Some.
    + destruct (actors r !! k0) eqn:Hx; [by eapply Hlr|by rewrite lookup_insert_eq].
    + destruct (actors r !! k0) eqn:Hx; [by eapply Hlr|]. rewrite lookup_insert_ne by done. by eapply Hlr.
  - intros k b s [[<- Hb]|[Hne Hk]]%lookup_insert_Some; [|by eapply Hlk].
    injection Hb as <- _. destruct (actors r !! k0) as [[b s']|] eqn:Hx; [|done]. by apply Hlk in Hx.
  - intros k b. destruct (actors r !! k0) eqn:Hx; [by apply Hek|].
    intros [[<- <-]|[Hne Hk]]%lookup_insert_Some; [|by eapply Hek].
    destruct (registered_actor_entries r !! k0) as [b|] eqn:Hb; [by apply Hek in Hb|done].
  - intros t n c b Hb. apply indexed_add. destruct (actors r !! k0) eqn:Hx; [right; by eapply Hix|].
    apply lookup_insert_Some in Hb as [[Hk _]|[_ Hb]]; [left; by injection Hk as <- <- <-|right; by eapply Hix].
Qed.
Lemma register_index_ok ctx a ty r : registry_ok r → registry_ok (register_virtual_actor_index ctx a ty r).
Proof.
  intros [Hlr Hlk Hek Hil Hix Ht]. unfold register_virtual_actor_index, index_add, set_index, set_entries.
  set (k0 := scoped_actor_key _ _ a) in *. split; cbn; [| |..|done].
  - intros k x Hk%Hlr. by apply lookup_insert_is_Some'; right.
  - done.
  - intros k b [[<- <-]|[Hne Hk]]%lookup_insert_Some; [|by eapply Hek].
    destruct (registered_actor_entries r !! k0) as [b|] eqn:Hb; [by apply Hek in Hb|done].
  - by apply index_lists_add.
  - intros t n c b Hb. apply indexed_add.
    apply lookup_insert_Some in Hb as [[Hk _]|[_ Hb]]; [left; by injection Hk as <- <- <-|right; by eapply Hix].
Qed.
Lemma unregister_ok a r : registry_ok r → registry_ok (unregister a r).
Proof.
  intros [Hlr Hlk Hek Hil Hix Ht]. unfold unregister, set_entries, set_index, set_actors. split; cbn; [| | | | |done].
  - intros k x [Hk Hn]%lookup_others. destruct (Hlr _ _ Hk) as [b Hb]. exists b. by apply lookup_others.
  - intros k b s [Hk _]%lookup_others. by eapply Hlk.
  - intros k b [Hk _]%lookup_others. by eapply Hek.
  - by apply lists_prune.
  - intros t n c b [Hk Hn]%lookup_others. apply indexed_prune; [done|by eapply Hix].
Qed.
Lemma exec_ok o r : registry_ok r → well_parented o r → registry_ok (exec o r).
Proof.
  intros Hok Hw. destruct o as [ctx p|ctx a ty|a|a|a|p c|p c]; cbn [exec].
  - by apply register_ok.
  - by apply register_index_ok.
  - by apply unregister_ok.
  - destruct (unregister_ok a r Hok) as [Hlr Hlk Hek Hil Hix Ht]. split; [done..|]. by apply tree_prune.
  - destruct Hok as [Hlr Hlk Hek Hil Hix Ht]. split; cbn; [| |done..].
    + intros k x [Hk _]%lookup_others. by eapply Hlr.
    + intros k b s [Hk _]%lookup_others. by eapply Hlk.
  - destruct Hok as [Hlr Hlk Hek Hil Hix Ht]. split; [done..|]. unfold register_parent_child. cbn.
    destruct (child_to_parent r !! canonical c) as [q|] eqn:Hq.
    + rewrite <-(insert_delete_eq (child_to_parent r)). apply tree_add; [|apply lookup_delete_eq].
      apply tree_remove; [done|]. intros q' Hq'. congruence.
    + by apply tree_add.
  - destruct Hok as [Hlr Hlk Hek Hil Hix Ht]. split; [done..|]. by apply tree_remove.
Qed.

(** ** The subtree of an actor *)

Definition is_child (r : ActorRegistry) (p c : string) : Prop :=
  ∃ l, parent_to_children r !! p = Some l ∧ c ∈ ids l.

Lemma children_spec r a c : c ∈ ids (get_children r a) ↔ is_child r (canonical a) c.
Proof.
  unfold get_children, is_child. destruct (parent_to_children r !! canonical a) as [l|]; cbn; split.
  - eauto.
  - by intros (? & [= <-] & ?).
  - by intros ?%not_elem_of_nil.
  - by intros (? & ? & _).
Qed.
Lemma elem_of_ids c l : c ∈ ids l ↔ ∃ a, a ∈ l ∧ canonical a = c.
Proof. unfold ids. rewrite list_elem_of_fmap. naive_solver. Qed.
Lemma ids_app l l' : ids (l ++ l') = ids l ++ ids l'.
Proof. apply fmap_app. Qed.

Lemma subtree_fuel r n m queue found l : subtree_loop n r queue found = Some l → (n ≤ m)%nat →
  subtree_loop m r queue found = Some l.
Proof.
  revert m queue found. induction n as [|n IH]; intros m queue found Hl Hle; destruct queue as [|a queue];
    try done; destruct m; try done; try lia; cbn in *. apply IH; [done|lia].
Qed.

Section subtree.
Context (r : ActorRegistry) (root : ActorId).
Context (Hr : tree_ok (parent_to_children r) (child_to_parent r)).

Lemma one_parent p q c : is_child r p c → is_child r q c → p = q.
Proof.
  intros (l & Hl & Hin) (l' & Hl' & Hin').
  destruct (tree_up _ _ Hr _ _ _ Hl Hin) as (x & Hx & <-).
  destruct (tree_up _ _ Hr _ _ _ Hl' Hin') as (y & Hy & <-). congruence.
Qed.
Lemma children_NoDup a : NoDup (ids (get_children r a)).
Proof.
  unfold get_children. destruct (parent_to_children r !! canonical a) as [l|] eqn:Hl; [|apply NoDup_nil_2].
  by eapply (tree_lists _ _ Hr).
Qed.

(** The actors that were taken from the queue are [visited]; what was found are their children, and the
    queue is what was found and not yet visited. *)
Record visiting (visited queue found : list ActorId) : Prop := mkVisiting {
  vis_split : visited ++ queue = root :: found;
  vis_found c : c ∈ ids found ↔ ∃ a, a ∈ visited ∧ is_child r (canonical a) c;
  vis_below c : c ∈ ids found → tc (is_child r) (canonical root) c;
  vis_NoDup : NoDup (ids (root :: found))
}.

Lemma visiting_step visited a queue found : ¬ tc (is_child r) (canonical root) (canonical root) →
  visiting visited (a :: queue) found →
  visiting (visited ++ [a]) (queue ++ get_children r a) (found ++ get_children r a).
Proof.
  intros Hac [Hs Hf Hb Hn].
  assert (canonical a = canonical root ∨ canonical a ∈ ids found) as Ha.
  { assert (canonical a ∈ ids (root :: found)) as Ha; [|unfold ids in Ha; cbn in Ha; by apply elem_of_cons in Ha].
    rewrite <-Hs, ids_app. apply elem_of_app. right. left. }
  assert (∀ c, is_child r (canonical a) c → tc (is_child r) (canonical root) c) as Hac'.
  { intros c Hc. destruct Ha as [Ha|Ha]; [rewrite <-Ha; by apply tc_once|eapply tc_r; [by apply Hb|done]]. }
  split.
  - by rewrite app_comm_cons, <-Hs, <-!app_assoc.
  - intros c. rewrite ids_app, elem_of_app, Hf, children_spec. setoid_rewrite elem_of_app.
    setoid_rewrite list_elem_of_singleton. naive_solver.
  - intros c. rewrite ids_app, elem_of_app, children_spec. intros [?|?]; auto.
  - rewrite app_comm_cons, ids_app. apply NoDup_app. split_and!; [done| |apply children_NoDup].
    intros c Hin Hc%children_spec. unfold ids in Hin. cbn in Hin. apply elem_of_cons in Hin as [->|Hin].
    { by apply Hac, Hac'. }
    apply Hf in Hin as (b & Hb' & Hbc). pose proof (one_parent _ _ _ Hc Hbc) as He.
    rewrite <-Hs, ids_app in Hn. apply NoDup_app in Hn as (_ & Hn & _).
    apply (Hn (canonical a)); [rewrite He; apply elem_of_ids; eauto|]. left.
Qed.
Lemma visiting_size visited queue found : visiting visited queue found →
  (length found ≤ size (child_to_parent r))%nat.
Proof.
  intros [_ _ Hb Hn]. unfold ids in Hn. cbn in Hn. apply NoDup_cons in Hn as [_ Hn].
  rewrite <-size_dom, <-(length_fmap canonical), <-(size_list_to_set (C := gset string)) by done.
  apply subseteq_size. intros c Hc. apply elem_of_list_to_set, Hb in Hc. apply elem_of_dom.
  revert c Hc. apply tc_ind_r; [intros y|intros y z _]; intros (l & Hl & Hin);
    destruct (tree_up _ _ Hr _ _ _ Hl Hin) as (q & Hq & _); by eexists.
Qed.
Lemma visiting_ends fuel visited queue found : ¬ tc (is_child r) (canonical root) (canonical root) →
  visiting visited queue found → (S (size (child_to_parent r)) ≤ fuel + length visited)%nat →
  ∃ l visited', subtree_loop fuel r queue found = Some l ∧ visiting visited' [] l.
Proof.
  intros Hac. revert visited queue found. induction fuel as [|fuel IH]; intros visited queue found Hv Hle;
    destruct queue as [|a queue]; try (by exists found, visited); cbn [subtree_loop].
  - pose proof (visiting_size _ _ _ Hv). pose proof (f_equal length (vis_split _ _ _ Hv)) as He.
    rewrite length_app in He. cbn in He, Hle. lia.
  - apply (IH (visited ++ [a])); [by apply visiting_step|]. rewrite length_app. cbn. lia.
Qed.
Lemma cycle_runs_on fuel queue found : (∃ a, a ∈ queue ∧ tc (is_child r) (canonical a) (canonical a)) →
  subtree_loop fuel r queue found = None.
Proof.
  revert queue found. induction fuel as [|fuel IH]; intros queue found (a & Ha & Hc);
    (destruct queue as [|b queue]; [by apply not_elem_of_nil in Ha|]); [done|]. cbn [subtree_loop]. apply IH.
  apply elem_of_cons in Ha as [->|Ha]; [|exists a; split; [apply elem_of_app; auto|done]].
  assert (∃ d, is_child r (canonical b) d ∧ tc (is_child r) d d) as (d & Hd & Hdd).
  { inversion Hc as [x Hx|x y Hx Hy]; subst; [by exists (canonical b)|].
    exists y. split; [done|]. by eapply tc_r. }
  apply children_spec, elem_of_ids in Hd as (e & He & <-). exists e. split; [apply elem_of_app; auto|done].
Qed.
End subtree.

Lemma reached_ok r : reached r → registry_ok r.
Proof.
  induction 1 as [node|o r Hr IH Hw]; [|by apply exec_ok].
  split; cbn; [intros * Hk; by rewrite lookup_empty in Hk..|split; intros * Hk; by rewrite lookup_empty in Hk].
Qed.

(** ** Lookup without a scope *)

Lemma senders_of_spec r a :
  ∃ L, senders_of r a = (λ '(_, (_, s)), s) <$> L ∧ NoDup L ∧
    ∀ k x, (k, x) ∈ L ↔ actors r !! k = Some x ∧ k.2 = canonical a.
Proof.
  unfold senders_of. eexists. split_and!; [done| |].
  - rewrite NoDup_ListNoDup. apply List.NoDup_filter. rewrite <-NoDup_ListNoDup. apply NoDup_map_to_list.
  - intros k x. rewrite list_elem_of_In, filter_In, <-list_elem_of_In, elem_of_map_to_list.
    unfold key_is. by rewrite String.eqb_eq.
Qed.
Lemma in_scope_spec r t n a s :
  lookup_actor_in_scope r t n a = Some s ↔ ∃ b, actors r !! scoped_actor_key t n a = Some (b, s).
Proof.
  unfold lookup_actor_in_scope. rewrite fmap_Some. split; [intros ([b s'] & ? & ->); eauto|].
  intros (b & ?). by exists (b, s).
Qed.

(** ** The channels of the questions *)

Section asks.
(** The channels of the waiting questions differ, and none is asked on again. *)
Definition fresh_channels (p : PendingAsks) (ops : list AskOp) : Prop :=
  (∀ id e, ask_entries p !! id = Some e → ask_tx e ∉ (asked ops).*2) ∧
  (∀ i j e f, ask_entries p !! i = Some e → ask_entries p !! j = Some f → ask_tx e = ask_tx f → i = j).
Definition waiting (p : PendingAsks) (x : string * nat) : Prop :=
  ∃ e, ask_entries p !! x.1 = Some e ∧ ask_tx e = x.2.

Lemma fresh_sub (m : gmap string PendingAskEntry) t p ops :
  m ⊆ ask_entries p → fresh_channels p ops → fresh_channels (mkAsks m t) ops.
Proof.
  intros Hs [Hf Hi]. split.
  - intros id e He. apply (Hf id). by eapply lookup_weaken.
  - intros i j e f He Hj. apply Hi; by eapply lookup_weaken.
Qed.
Lemma waiting_sub (m : gmap string PendingAskEntry) t p x :
  m ⊆ ask_entries p → waiting (mkAsks m t) x → waiting p x.
Proof. intros Hs (e & He & Ht). exists e. split; [by eapply lookup_weaken|done]. Qed.

Lemma ask_run_channels ops p : NoDup (asked ops).*2 → fresh_channels p ops →
  NoDup (ask_run ops p).2.*2 ∧ ∀ x, x ∈ (ask_run ops p).2 → x ∈ asked ops ∨ waiting p x.
Proof.
  revert p. induction ops as [|o ops IH]; intros p Hn Hf.
  { split; [apply NoDup_nil_2|]. by intros x ?%not_elem_of_nil. }
  destruct o as [id tx now timeout|id|id|now]; cbn [ask_run ask_exec].
  - destruct (IH (ask_register id tx now timeout p)) as [IHn IHw].
    + by apply NoDup_cons in Hn as [_ Hn].
    + apply NoDup_cons in Hn as [Htx _]. destruct Hf as [Hf Hi]. split; cbn.
      * intros j e [[<- <-]|[Hj He]]%lookup_insert_Some; [done|]. apply Hf in He. intros Hin. apply He. by right.
      * assert (∀ j e, ask_entries p !! j = Some e → ask_tx e ≠ tx) as Hne.
        { intros j e He <-. apply Hf in He. apply He. left. }
        intros i j e f [[<- <-]|[Hi' He]]%lookup_insert_Some [[<- <-]|[Hj He']]%lookup_insert_Some; cbn; try done.
        -- intros ?. exfalso. by eapply Hne.
        -- intros ?. exfalso. by eapply Hne.
        -- by apply Hi.
    + destruct (ask_run ops _) as [q outs]. cbn in *. split; [done|]. intros x Hx.
      destruct (IHw x Hx) as [Ha|(e & He & Ht)]; [left; by right|].
      cbn in He. apply lookup_insert_Some in He as [[He <-]|[He Hp]]; [|right; by exists e].
      left. destruct x as [i u]. cbn in *. subst. left.
  - destruct (IH (ask_cancel id p)) as [IHn IHw]; [done|by eapply fresh_sub; [apply delete_subseteq|]|].
    unfold ask_resolve, ask_cancel in *. destruct (ask_run ops _) as [q outs]. cbn in *.
    assert (∀ x, x ∈ outs → x ∈ asked ops ∨ waiting p x) as Hw.
    { intros x Hx. destruct (IHw x Hx) as [?|?]; [by left|right]. by eapply waiting_sub; [apply delete_subseteq|]. }
    destruct (ask_entries p !! id) as [e|] eqn:He; cbn; [|done]. split.
    + apply NoDup_cons. split; [|done]. intros ((i & u) & Hu & Hin)%list_elem_of_fmap. cbn in *. subst u.
      destruct Hf as [Hf Hi]. destruct (IHw _ Hin) as [Ha|(f & Hf' & Hu)]; cbn in *.
      * apply (Hf _ _ He). apply list_elem_of_fmap. by exists (i, ask_tx e).
      * apply lookup_delete_Some in Hf' as [Hne Hf']. apply Hne. by eapply Hi.
    + intros x [->|Hx]%elem_of_cons; [right; by exists e|by apply Hw].
  - destruct (IH (ask_cancel id p)) as [IHn IHw]; [done|by eapply fresh_sub; [apply delete_subseteq|]|].
    destruct (ask_run ops _) as [q outs]. cbn in *. split; [done|]. intros x Hx.
    destruct (IHw x Hx) as [?|?]; [by left|right]. by eapply waiting_sub; [apply delete_subseteq|].
  - assert (ask_entries (sweep_expired now p).1 ⊆ ask_entries p) as Hsub by apply map_filter_subseteq.
    destruct (IH (sweep_expired now p).1) as [IHn IHw]; [done|by eapply fresh_sub|].
    destruct (ask_run ops _) as [q outs]. cbn in *. split; [done|]. intros x Hx.
    destruct (IHw x Hx) as [?|?]; [by left|right]. by eapply waiting_sub.
Qed.
End asks.

(** ** Properties *)

(** C21. The tables of the registry stay consistent over every sequence of registrations, removals and changes
    of the tree that take a child from the parent that it has: a live actor is registered under its own
    identity, a registered one is listed under a type of its scope, no list is empty or has an identity
    twice, and the table of children and the table of parents are inverse to each other. *)
Theorem registry_stays_consistent r : reached r → registry_ok r.
Proof. exact (reached_ok r). Qed.

(** In a consistent tree the search of the actors below an actor returns exactly when the actor is not
    below itself, and then it lists each of the actors below once: fuel for one more step than there are
    children is enough.  Below itself it never ends, whatever the fuel. *)
Theorem subtree_lists_descendants r root : reached r →
  (¬ tc (is_child r) (canonical root) (canonical root) →
   ∃ l, (∀ fuel, (S (size (child_to_parent r)) ≤ fuel)%nat → get_subtree fuel r root = Some l) ∧
     NoDup (ids l) ∧ ∀ c, c ∈ ids l ↔ tc (is_child r) (canonical root) c) ∧
  (tc (is_child r) (canonical root) (canonical root) → ∀ fuel, get_subtree fuel r root = None).
Proof.
  intros Hr. pose proof (ok_tree _ (reached_ok _ Hr)) as Ht. split.
  - intros Hac.
    assert (visiting r root [] [root] []) as Hv.
    { split; [done| | |apply NoDup_singleton].
      - intros c. split; [by intros ?%not_elem_of_nil|]. by intros (a & ?%not_elem_of_nil & _).
      - by intros c ?%not_elem_of_nil. }
    assert (∃ l visited, (∀ fuel, (S (size (child_to_parent r)) ≤ fuel)%nat → get_subtree fuel r root = Some l) ∧
      visiting r root visited [] l) as (l & visited & Hl & [Hs Hf Hb Hn]).
    { destruct (visiting_ends r root Ht (S (size (child_to_parent r))) _ _ _ Hac Hv) as (l & vis & Hl & Hvis);
        [cbn; lia|].
      exists l, vis. split; [|done]. intros fuel Hle. by eapply subtree_fuel. }
    rewrite app_nil_r in Hs. subst visited. exists l. split_and!; [done| |].
    + unfold ids in Hn. cbn in Hn. by apply NoDup_cons in Hn as [_ Hn].
    + intros c. split; [by apply Hb|]. revert c. apply tc_ind_r; [intros y Hy|intros y z _ Hyz Hy]; apply Hf.
      * exists root. split; [left|done].
      * apply elem_of_ids in Hy as (a & Ha & <-). exists a. split; [by right|done].
  - intros Hc fuel. apply cycle_runs_on. exists root. split; [left|done].
Qed.

(** An identity is found without its scope exactly when one scope has it: registered in two tenants it is
    found in each scope by itself and by no lookup without a scope, and its removal removes both. *)
Theorem lookup_needs_one_scope r a :
  (∀ s, lookup_actor r a = Some s ↔
    ∃ t n, lookup_actor_in_scope r t n a = Some s ∧
      ∀ t' n', is_Some (lookup_actor_in_scope r t' n' a) → t' = t ∧ n' = n) ∧
  ∀ t n, lookup_actor_in_scope (unregister a r) t n a = None.
Proof.
  destruct (senders_of_spec r a) as (L & HL & Hn & Hin). split.
  - intros s. unfold lookup_actor. rewrite HL. split.
    + destruct L as [|[[[t n] c] [b s']] [|? ?]]; try done. intros [= ->]. exists t, n.
      destruct (proj1 (Hin (t, n, c) (b, s))) as [Hk Hc]; [left|]. cbn in Hc. subst c. split.
      * apply in_scope_spec. by exists b.
      * intros t' n' [s' (b' & Hb)%in_scope_spec].
        assert ((scoped_actor_key t' n' a, (b', s')) ∈ [((t, n, canonical a), (b, s))]) as Hx by by apply Hin.
        apply list_elem_of_singleton in Hx. by injection Hx.
    + intros (t & n & (b & Hb)%in_scope_spec & Hu).
      assert (∀ x, x ∈ L → x = (scoped_actor_key t n a, (b, s))) as Hall.
      { intros [[[t' n'] c] [b' s']] [Hk Hc]%Hin. cbn in Hc. subst c.
        destruct (Hu t' n') as [-> ->]; [exists s'; apply in_scope_spec; by exists b'|].
        unfold scoped_actor_key in Hb. rewrite Hb in Hk. by injection Hk as -> ->. }
      assert ((scoped_actor_key t n a, (b, s)) ∈ L) as HinL by by apply Hin.
      destruct L as [|x [|y L]]; [by apply not_elem_of_nil in HinL| |].
      * by rewrite (Hall x) by left.
      * exfalso. apply NoDup_cons in Hn as [Hn _]. apply Hn. rewrite (Hall x), (Hall y); [left|right; left|left].
  - intros t n. unfold lookup_actor_in_scope. destruct (actors (unregister a r) !! _) as [x|] eqn:Hx; [|done].
    unfold unregister in Hx. cbn in Hx. by apply lookup_others in Hx as [_ Hx].
Qed.

(** C30. Every reply is sent on the channel of a question with its identifier, and no channel gets two: over
    every sequence of questions on channels of their own, replies, cancellations and sweeps. *)
Theorem replies_reach_their_question ops t : NoDup (asked ops).*2 →
  NoDup (ask_run ops (asks_new t)).2.*2 ∧
  ∀ x, x ∈ (ask_run ops (asks_new t)).2 → x ∈ asked ops.
Proof.
  intros Hn. destruct (ask_run_channels ops (asks_new t) Hn) as [Hd Hw].
  - split; cbn; [intros id e He|intros i j e f He]; by rewrite lookup_empty in He.
  - split; [done|]. intros x Hx. destruct (Hw x Hx) as [?|(e & He & _)]; [done|]. cbn in He. by rewrite lookup_empty in He.
Qed.

Module Sample.
Definition ann : ActorId := mkActorId "ann//w::ns@n1" "ann" "w" "ns" "n1".
Definition bob : ActorId := mkActorId "bob//w::ns@n1" "bob" "w" "ns" "n1".
Definition cid : ActorId := mkActorId "cid//w::ns@n1" "cid" "w" "ns" "n1".
Definition tree : ActorRegistry :=
  register_parent_child bob cid (register_parent_child ann bob (registry_new "n1")).
Definition ring : ActorRegistry := register_parent_child cid ann tree.
Definition acme : RequestContext := new_without_auth "acme" "ns".
Definition other : RequestContext := new_without_auth "other" "ns".
Definition shared : ActorRegistry :=
  register_actor other (mkParams ann 2 "w" None None None)
    (register_actor acme (mkParams ann 1 "w" None None None) (registry_new "n1")).

Lemma tree_reached : reached tree.
Proof.
  apply (reached_exec (AddChild bob cid)); [|done]. apply (reached_exec (AddChild ann bob)); [|done].
  apply reached_new.
Defined.
End Sample.
Import Sample.

Lemma registry_stays_consistent_witness : registry_ok tree.
Proof. exact (registry_stays_consistent tree tree_reached). Defined.

Example tree_subtree : get_subtree 3 tree ann = Some [bob; cid].
Proof. vm_compute. reflexivity. Qed.

Lemma ann_is_root : ¬ tc (is_child tree) (canonical ann) (canonical ann).
Proof.
  intros Hc. apply tc_ind_r with (P := λ c, ¬ c = canonical ann) in Hc; [done|..];
    [intros y|intros y z _]; intros (l & Hl & Hin); [|intros _];
    pose proof (ok_tree _ (reached_ok _ tree_reached)) as Ht;
    destruct (tree_up _ _ Ht _ _ _ Hl Hin) as (q & Hq & _); intros ->; by vm_compute in Hq.
Qed.
Lemma subtree_lists_descendants_witness :
  ∃ l, get_subtree 3 tree ann = Some l ∧ (∀ c, c ∈ ids l ↔ tc (is_child tree) (canonical ann) c).
Proof.
  destruct (subtree_lists_descendants tree ann tree_reached) as [H _].
  destruct (H ann_is_root) as (l & Hl & _ & Hd). exists l. split; [apply Hl; vm_compute; lia|exact Hd].
Defined.

Lemma replies_reach_their_question_witness :
  let ops := [AskRegister "q1" 1 0 30; AskRegister "q2" 2 5 30; AskSweep 31; AskResolve "q2"; AskResolve "q2";
              AskResolve "q1"] in
  (ask_run ops (asks_new 30)).2 = [("q2", 2%nat)] ∧ NoDup (ask_run ops (asks_new 30)).2.*2.
Proof.
  intros ops. split; [vm_compute; reflexivity|]. apply (replies_reach_their_question ops 30).
  vm_compute. repeat constructor; set_solver.
Defined.

(** The second tenant that registers an identity hides it from the lookups without a scope. *)
Example hidden_by_other_tenant :
  lookup_actor shared ann = None ∧ lookup_actor_in_scope shared "acme" "ns" ann = Some 1%nat
  ∧ lookup_actor_in_scope (unregister ann shared) "acme" "ns" ann = None.
Proof. vm_compute. done. Qed.
(** A cycle can be registered; the removal of a child from another parent leaves it with its parent but
    without the way back. *)
Example ring_runs_on : get_subtree 100 ring ann = None.
Proof. vm_compute. reflexivity. Qed.
Example wrong_parent : let r := unregister_parent_child cid bob tree in
  get_children r ann = [bob] ∧ get_parent r bob = None.
Proof. vm_compute. done. Qed.
(** A second registration under another type leaves the actor listed under the first. *)
Example two_types :
  let r := register_actor acme (mkParams ann 1 "x" None None None) shared in
  discover_actors_by_type acme "w" r = [ann] ∧ discover_actors_by_type acme "x" r = [ann].
Proof. vm_compute. done. Qed.
