(* ===== verification/Links.v ===== *)
(** Links: the table of links and monitors of a node, crates/actor/src/actor_monitor.rs, and the
    operations of crates/actor/src/actor_registry.rs and crates/services/src/actor_service on them, which
    call each other across nodes.

    A node is its registry, its table and what a caller sees of it; a cluster is a map of nodes by name.
    An operation that calls another node waits for the answer, and the call runs the handler of the other
    node, which may call back: the operations take fuel for the depth of calls and answer [None] without
    it.  What becomes of the calls from one node to another is an argument: no channel opens, the request or the
    response is lost, or the call is answered. *)
From stdpp Require Import pretty.
From S2P Require Import Prelude Text Identity Context Registry.

#[local] Arguments String.append : simpl nomatch.

(** ** The table of a node *)

Record MonitorLink := mkMonitorLink {
  monitor_ref : string;
  monitoring_actor_id : ActorId;
  monitoring_context : RequestContext
}.
(** The key of a monitored actor is kept with its monitors. *)
Record ActorMonitor := mkMonitor {
  monitors : gmap string (ActorId * list MonitorLink);
  links : gmap string (list ActorId)
}.
Definition monitor_new : ActorMonitor := mkMonitor ∅ ∅.

Definition add_monitor (target monitor : ActorId) (ref : string) (ctx : RequestContext) (m : ActorMonitor)
    : ActorMonitor :=
  let old := monitors m !! canonical target in
  mkMonitor
    (<[canonical target := (from_option fst target old, from_option snd [] old ++ [mkMonitorLink ref monitor ctx])]>
       (monitors m))
    (links m).
Definition other_ref (ref : string) (l : MonitorLink) : bool := negb (String.eqb (monitor_ref l) ref).
Definition remove_monitor (target : ActorId) (ref : string) (m : ActorMonitor) : ActorMonitor :=
  match monitors m !! canonical target with
  | Some (t, l) =>
      mkMonitor
        match List.filter (other_ref ref) l with
        | [] => delete (canonical target) (monitors m)
        | l => <[canonical target := (t, l)]> (monitors m)
        end (links m)
  | None => m
  end.
Definition get_monitors (m : ActorMonitor) (a : ActorId) : list MonitorLink :=
  from_option snd [] (monitors m !! canonical a).
Definition remove_monitors_for_actors (stale : list ActorId) (m : ActorMonitor) : ActorMonitor :=
  mkMonitor (filter (λ '(k, _), k ∉ ids stale) (monitors m)) (links m).
Definition not_by (a : ActorId) (l : MonitorLink) : bool := negb (ActorId_eqb (monitoring_actor_id l) a).
Definition cleanup_monitors_for_actor (a : ActorId) (m : ActorMonitor) : ActorMonitor :=
  mkMonitor
    (omap (λ '(t, l), match List.filter (not_by a) l with [] => None | l => Some (t, l) end)
       (delete (canonical a) (monitors m)))
    (links m).
(** Target, reference and monitoring actor. *)
Definition all_monitor_entries (m : ActorMonitor) : list (ActorId * string * ActorId) :=
  '(_, (t, l)) ← map_to_list (monitors m);
  (λ x, (t, monitor_ref x, monitoring_actor_id x)) <$> l.

Definition add_link (a b : ActorId) (m : ActorMonitor) : result string ActorMonitor :=
  if ActorId_eqb a b then Err "Cannot link actor to itself"
  else
    let ls := <[canonical a := push_new b (default [] (links m !! canonical a))]> (links m) in
    Ok (mkMonitor (monitors m) (<[canonical b := push_new a (default [] (ls !! canonical b))]> ls)).
Definition remove_link (a b : ActorId) (m : ActorMonitor) : ActorMonitor :=
  mkMonitor (monitors m) (remove_child_of (canonical b) a (remove_child_of (canonical a) b (links m))).
Definition get_links (m : ActorMonitor) (a : ActorId) : list ActorId := default [] (links m !! canonical a).
(** The lists of the others are kept when they are empty then. *)
Definition cleanup_links_for_actor (a : ActorId) (m : ActorMonitor) : ActorMonitor :=
  mkMonitor (monitors m) (delete (canonical a) (without a <$> links m)).

(** ** Nodes and calls *)

Record Node := mkNode {
  registry : ActorRegistry;
  table : ActorMonitor;
  listen_base_url : string;
  node_auth_enabled : bool;
  shutdown_requested : bool
}.
Definition set_registry (nd : Node) (r : ActorRegistry) : Node :=
  mkNode r (table nd) (listen_base_url nd) (node_auth_enabled nd) (shutdown_requested nd).
Definition set_table (nd : Node) (t : ActorMonitor) : Node :=
  mkNode (registry nd) t (listen_base_url nd) (node_auth_enabled nd) (shutdown_requested nd).
Abbreviation Cluster := (gmap string Node).

Definition ActorRegistryError_to_string (e : ActorRegistryError) : string :=
  match e with
  | ActorNotFound m => "Actor not found: " ++ m
  | LookupFailed m => "Lookup failed: " ++ m
  | RegistrationFailed m => "Registration failed: " ++ m
  | UnregistrationFailed m => "Unregistration failed: " ++ m
  | SendFailed m => "Send failed: " ++ m
  | RegistryTimeout => "Timed out waiting for reply"
  | DependencyUnavailable m => "Registry dependency unavailable: " ++ m
  | VisibilityDenied m => "Actor visibility denied: " ++ m
  | LinkMonitorDenied m => "link/monitor denied: " ++ m
  | MailboxFull d c r =>
      "Mailbox full (depth=" ++ pretty d ++ ", capacity=" ++ pretty c ++ ", retry_after_ms=" ++ pretty r ++ ")"
  end.
Inductive Code := InvalidArgument | PermissionDenied | Internal | Unavailable.
Definition Status : Type := Code * string.
(** How a handler reports an error of the registry. *)
Definition status_of (op : string) (e : ActorRegistryError) : Status :=
  match e with
  | VisibilityDenied m | LinkMonitorDenied m => (PermissionDenied, m)
  | other => (Internal, op +:+ " failed: " +:+ ActorRegistryError_to_string other)
  end.

(** An operation ends with the cluster that it leaves and its answer; [None] is one that still runs. *)
Definition Run (A : Type) : Type := option (Cluster * result ActorRegistryError A).
Definition and_then {A B} (m : Run A) (k : A → Cluster → Run B) : Run B :=
  match m with
  | Some (c, Ok x) => k x c
  | Some (c, Err e) => Some (c, Err e)
  | None => None
  end.
#[local] Notation "x '<~' m ';' k" := (and_then m (λ x, k)) (at level 20, m at level 100, k at level 200).

Definition update_table (n : string) (f : ActorMonitor → ActorMonitor) (c : Cluster) : Cluster :=
  alter (λ nd, set_table nd (f (table nd))) n c.
Definition local_link (n : string) (a b : ActorId) (c : Cluster) : Run () :=
  match c !! n with
  | Some nd =>
      match add_link a b (table nd) with
      | Ok t => Some (<[n := set_table nd t]> c, Ok ())
      | Err e => Some (c, Err (RegistrationFailed e))
      end
  | None => None
  end.
Definition local_unlink (n : string) (a b : ActorId) (c : Cluster) : Run () :=
  Some (update_table n (remove_link a b) c, Ok ()).
Definition links_at (n : string) (c : Cluster) (a : ActorId) : list ActorId :=
  match c !! n with Some nd => get_links (table nd) a | None => [] end.
Definition monitors_at (n : string) (c : Cluster) (a : ActorId) : list MonitorLink :=
  match c !! n with Some nd => get_monitors (table nd) a | None => [] end.
Definition validate_at (n : string) (ctx : RequestContext) (ops : list ActorId) (c : Cluster) : Run () :=
  match c !! n with
  | Some nd => Some (c, validate_link_monitor_operand_scope ctx (registry nd) ops)
  | None => None
  end.

(** What the network does with the calls of a node to another. *)
Inductive Connection := NoChannel | RequestLost | ResponseLost | Answered.

Section calls.
(** Texts of errors of the libraries, and the connections of the nodes. *)
Context (display_id_error : ActorIdError → string) (transport_error missing_tenant : string).
Context (connects : string → string → Connection).

Definition parse_canonical_actor_id (s : string) : result Status ActorId :=
  match from_canonical s with
  | Ok a => Ok a
  | Err e => Err (InvalidArgument, "Invalid canonical actor id '" +:+ s +:+ "': " +:+ display_id_error e)
  end.
(** What the handler of a call finds: the context, and the operands in their canonical form. *)
Definition admitted (op : string) (nd : Node) (ctx : RequestContext) (a b : string)
    : result Status (RequestContext * ActorId * ActorId) :=
  if shutdown_requested nd then Err (Unavailable, "Service is shutting down and not accepting new requests")
  else match received (node_auth_enabled nd) ctx with
       | Err _ => Err (InvalidArgument, "Invalid request context: " +:+ missing_tenant)
       | Ok ctx =>
           a ← parse_canonical_actor_id a;
           b ← match parse_canonical_actor_id b with
               | Err _ as e =>
                   if String.eqb op "monitor" || String.eqb op "demonitor"
                   then Err (InvalidArgument, "Invalid supervisor_id") else e
               | b => b
               end;
           Ok (ctx, a, b)
       end.
(** What the caller sees of a call that ran: the answer of the handler, or an error of the transport. *)
Definition call_failed {A} (op m : string) : result ActorRegistryError A :=
  Err (SendFailed (op +:+ "_actor failed: " +:+ m)).
Definition response {A} (op : string) (connection : Connection) (r : result ActorRegistryError A)
    : result ActorRegistryError A :=
  match connection, r with
  | ResponseLost, _ => call_failed op transport_error
  | _, Err e => call_failed op (status_of op e).2
  | _, Ok x => Ok x
  end.
(** A call of an operation on a pair, to the node of its first operand, and its handler. *)
Definition call {A} (op : string)
    (handler : string → RequestContext → ActorId → ActorId → Cluster → Run A)
    (n : string) (ctx : RequestContext) (a b : ActorId) (c : Cluster) : Run A :=
  match parse_canonical_actor_id (canonical a) with
  | Err (_, m) => Some (c, Err (SendFailed m))
  | Ok target =>
      match connects n (node_id target), c !! node_id target with
      | NoChannel, _ | _, None => Some (c, Err (SendFailed transport_error))
      | RequestLost, Some _ => Some (c, call_failed op transport_error)
      | connection, Some nd =>
          match admitted op nd ctx (canonical a) (canonical b) with
          | Err (_, m) =>
              Some (c, call_failed op (match connection with ResponseLost => transport_error | _ => m end))
          | Ok (ctx, a, b) =>
              match handler (node_id target) ctx a b c with
              | Some (c, r) => Some (c, response op connection r)
              | None => None
              end
          end
      end
  end.

Fixpoint link (fuel : nat) (n : string) (ctx : RequestContext) (a b : ActorId) (c : Cluster) : Run () :=
  match fuel with
  | O => None
  | S fuel =>
      let link_actor := call "link" (link fuel) n ctx in
      if ActorId_eqb a b then Some (c, Err (RegistrationFailed "Cannot link actor to itself"))
      else if is_on_node a n then
        if is_on_node b n then
          and_then (validate_at n ctx [a; b] c) (λ _, local_link n a b)
        else
          and_then (validate_at n ctx [a; b] c) (λ _ c,
          let already_linked := contains b (links_at n c a) in
          and_then (local_link n a b c) (λ _ c,
          if already_linked then Some (c, Ok ()) else link_actor b a c))
      else if is_on_node b n then
        let already_linked := contains a (links_at n c b) in
        and_then (if already_linked then Some (c, Ok ()) else link_actor a b c) (λ _ c,
        and_then (validate_at n ctx [a; b] c) (λ _, local_link n a b))
      else
        and_then (link_actor a b c) (λ _, link_actor b a)
  end.

Fixpoint unlink (fuel : nat) (n : string) (ctx : RequestContext) (a b : ActorId) (c : Cluster) : Run () :=
  match fuel with
  | O => None
  | S fuel =>
      let unlink_actor := call "unlink" (unlink fuel) n ctx in
      if is_on_node a n then
        if is_on_node b n then
          and_then (validate_at n ctx [a; b] c) (λ _, local_unlink n a b)
        else
          and_then (validate_at n ctx [a; b] c) (λ _ c,
          let was_linked := contains b (links_at n c a) in
          and_then (local_unlink n a b c) (λ _ c,
          if was_linked then unlink_actor b a c else Some (c, Ok ())))
      else if is_on_node b n then
        let was_linked := contains a (links_at n c b) in
        and_then (if was_linked then unlink_actor a b c else Some (c, Ok ())) (λ _ c,
        and_then (validate_at n ctx [a; b] c) (λ _, local_unlink n a b))
      else
        and_then (unlink_actor a b c) (λ _, unlink_actor b a)
  end.

(** [ref] is the reference that is drawn where the monitor is registered. *)
Fixpoint monitor (fuel : nat) (ref : string) (n : string) (ctx : RequestContext) (a supervisor : ActorId)
    (c : Cluster) : Run string :=
  match fuel with
  | O => None
  | S fuel =>
      if is_on_node a n then
        and_then (validate_at n ctx [a; supervisor] c) (λ _ c,
        match c !! n with
        | Some nd =>
            if negb (is_actor_activated (registry nd) a) then Some (c, Err (ActorNotFound (canonical a)))
            else Some (update_table n (add_monitor a supervisor ref ctx) c, Ok ref)
        | None => None
        end)
      else if String.eqb (from_option listen_base_url "" (c !! n)) "" then
        Some (c, Err (DependencyUnavailable
          "local listen URL unset; call set_local_listen_addr before cross-node monitor"))
      else call "monitor" (monitor fuel ref) n ctx a supervisor c
  end.

(** The handler of the call refuses a reference that is owned by another actor. *)
Definition demonitor_handler (demonitor : string → RequestContext → ActorId → ActorId → Cluster → Run ())
    (ref : string) (n : string) (ctx : RequestContext) (a supervisor : ActorId) (c : Cluster) : Run () :=
  match List.find (λ l, String.eqb (monitor_ref l) ref) (monitors_at n c a) with
  | Some l =>
      if ActorId_eqb (monitoring_actor_id l) supervisor then demonitor n ctx a supervisor c
      else Some (c, Err (LinkMonitorDenied "monitor_ref is not owned by supervisor_id"))
  | None => demonitor n ctx a supervisor c
  end.
Fixpoint demonitor (fuel : nat) (ref : string) (n : string) (ctx : RequestContext) (a supervisor : ActorId)
    (c : Cluster) : Run () :=
  match fuel with
  | O => None
  | S fuel =>
      if is_on_node a n then
        and_then (validate_at n ctx [a; supervisor] c) (λ _ c,
        Some (update_table n (remove_monitor a ref) c, Ok ()))
      else call "demonitor" (demonitor_handler (demonitor fuel ref) ref) n ctx a supervisor c
  end.
End calls.

(** ** Garbage collection of monitors *)

(** The monitored actors that are not on the node, grouped by their nodes. *)
Definition remote_targets (n : string) (m : ActorMonitor) : list ActorId :=
  List.filter (λ a, negb (is_on_node a n)) ((λ '(t, _, _), t) <$> all_monitor_entries m).
Definition by_node (node : string) (targets : list ActorId) : list ActorId :=
  List.filter (λ a, is_on_node a node) targets.
(** [ask] is the answer of a node: the states of its actors by their identities, none when it cannot be
    found or reached. *)
Definition run_gc_pass (ask : string → option (string → option ActorState)) (n : string) (m : ActorMonitor)
    : ActorMonitor :=
  let targets := remote_targets n m in
  foldl (λ m node,
    match ask node with
    | None => m
    | Some states =>
        match List.filter (λ a, match states (canonical a) with Some ActorStateActive => false | _ => true end)
                (by_node node targets) with
        | [] => m
        | stale => remove_monitors_for_actors stale m
        end
    end) m (remove_dups (node_id <$> targets)).

(** ** The operations of a cluster *)

(** What changes the tables: the operations of the registry at a node, with any fuel and any network, and
    the clean-up of an actor that ended. *)
Inductive ClusterOp :=
| OpLink (ctx : RequestContext) (a b : ActorId)
| OpUnlink (ctx : RequestContext) (a b : ActorId)
| OpMonitor (ref : string) (ctx : RequestContext) (a supervisor : ActorId)
| OpDemonitor (ref : string) (ctx : RequestContext) (a supervisor : ActorId)
| OpCleanup (a : ActorId)
| OpGc (ask : string → option (string → option ActorState)).
Section ops.
Context (display_id_error : ActorIdError → string) (transport_error missing_tenant : string).
Definition cluster_after {A} (c : Cluster) (r : Run A) : Cluster :=
  match r with Some (c, _) => c | None => c end.
Definition cluster_exec (connects : string → string → Connection) (fuel : nat) (n : string) (o : ClusterOp)
    (c : Cluster) : Cluster :=
  match o with
  | OpLink ctx a b => cluster_after c (link display_id_error transport_error missing_tenant connects fuel n ctx a b c)
  | OpUnlink ctx a b => cluster_after c (unlink display_id_error transport_error missing_tenant connects fuel n ctx a b c)
  | OpMonitor ref ctx a s =>
      cluster_after c (monitor display_id_error transport_error missing_tenant connects fuel ref n ctx a s c)
  | OpDemonitor ref ctx a s =>
      cluster_after c (demonitor display_id_error transport_error missing_tenant connects fuel ref n ctx a s c)
  | OpCleanup a => update_table n (λ t, cleanup_links_for_actor a (cleanup_monitors_for_actor a t)) c
  | OpGc ask => update_table n (run_gc_pass ask n) c
  end.
Inductive cluster_reached : Cluster → Prop :=
| cluster_start c : (∀ n nd, c !! n = Some nd → table nd = monitor_new) → cluster_reached c
| cluster_step c connects fuel n o : cluster_reached c → cluster_reached (cluster_exec connects fuel n o c).
End ops.

(** ** The table of links as a graph *)

Inductive TableOp :=
| AddLink (a b : ActorId)
| RemoveLink (a b : ActorId)
| CleanupLinks (a : ActorId).
Definition table_exec (m : ActorMonitor) (o : TableOp) : ActorMonitor :=
  match o with
  | AddLink a b => match add_link a b m with Ok m => m | Err _ => m end
  | RemoveLink a b => remove_link a b m
  | CleanupLinks a => cleanup_links_for_actor a m
  end.
(** The specification: a set of pairs, each with its reverse. *)
Definition graph_exec (g : gset (string * string)) (o : TableOp) : gset (string * string) :=
  match o with
  | AddLink a b =>
      if ActorId_eqb a b then g
      else {[(canonical a, canonical b); (canonical b, canonical a)]} ∪ g
  | RemoveLink a b => g ∖ {[(canonical a, canonical b); (canonical b, canonical a)]}
  | CleanupLinks a => filter (λ e, e.1 ≠ canonical a ∧ e.2 ≠ canonical a) g
  end.

Abbreviation LinkMap := (gmap string (list ActorId)).
Definition linked_in (ls : LinkMap) (x y : string) : Prop := ∃ l, ls !! x = Some l ∧ y ∈ ids l.
Definition linked (m : ActorMonitor) : string → string → Prop := linked_in (links m).
Definition lists_ok (ls : LinkMap) : Prop := map_Forall (λ _ l, NoDup (ids l)) ls.

Lemma get_links_spec m a y : y ∈ ids (get_links m a) ↔ linked m (canonical a) y.
Proof.
  unfold get_links, linked, linked_in. destruct (links m !! canonical a) as [l|]; cbn.
  - naive_solver.
  - split; [by intros ?%not_elem_of_nil|]. by intros (? & ? & _).
Qed.
Lemma contains_links m a b : contains b (get_links m a) = true ↔ linked m (canonical a) (canonical b).
Proof. by rewrite contains_spec, get_links_spec. Qed.

Lemma linked_push ls k a x y :
  linked_in (<[k := push_new a (default [] (ls !! k))]> ls) x y ↔ linked_in ls x y ∨ (x = k ∧ y = canonical a).
Proof.
  unfold linked_in. destruct (decide (x = k)) as [->|Hx].
  - rewrite lookup_insert_eq. split.
    + intros (l & [= <-] & [->|Hy]%elem_of_push_new); [by right|left].
      destruct (ls !! k) as [l|]; [by exists l|by apply not_elem_of_nil in Hy].
    + intros [(l & Hl & Hy)|[_ ->]]; eexists; (split; [done|]); apply elem_of_push_new; [right; by rewrite Hl|by left].
  - rewrite lookup_insert_ne by done. naive_solver.
Qed.
Lemma linked_remove_from ls k a x y :
  linked_in (remove_child_of k a ls) x y ↔ linked_in ls x y ∧ ¬ (x = k ∧ y = canonical a).
Proof.
  unfold linked_in. setoid_rewrite lookup_remove_child. split.
  - intros (l & [(-> & l' & Hl & -> & _)|[Hx Hl]] & Hy).
    + apply elem_of_ids_without in Hy as [Hy Hn]. split; [by exists l'|]. by intros [_ ?].
    + split; [by exists l|]. by intros [? _].
  - intros ((l & Hl & Hy) & Hn). destruct (decide (x = k)) as [->|Hx]; [|exists l; auto].
    assert (y ∈ ids (without a l)) as Hw by (apply elem_of_ids_without; naive_solver).
    exists (without a l). split; [left|done]. split; [done|]. exists l. split_and!; [done..|].
    intros Hz. rewrite Hz in Hw. by apply not_elem_of_nil in Hw.
Qed.
Lemma linked_add a b m m' x y : add_link a b m = Ok m' →
  linked m' x y ↔ linked m x y ∨ (x = canonical a ∧ y = canonical b) ∨ (x = canonical b ∧ y = canonical a).
Proof.
  unfold add_link, linked. destruct (ActorId_eqb a b); [done|]. intros [= <-]. cbn. rewrite !linked_push. tauto.
Qed.
Lemma linked_remove a b m x y :
  linked (remove_link a b m) x y ↔
    linked m x y ∧ ¬ (x = canonical a ∧ y = canonical b) ∧ ¬ (x = canonical b ∧ y = canonical a).
Proof. unfold linked, remove_link. cbn. rewrite !linked_remove_from. tauto. Qed.
Lemma linked_cleanup a m x y :
  linked (cleanup_links_for_actor a m) x y ↔ linked m x y ∧ x ≠ canonical a ∧ y ≠ canonical a.
Proof.
  unfold linked, linked_in, cleanup_links_for_actor. cbn. setoid_rewrite lookup_delete_Some.
  setoid_rewrite lookup_fmap_Some. split.
  - intros (l & (Hx & l' & <- & Hl) & Hy). apply elem_of_ids_without in Hy as [Hy Hn].
    split_and!; [by exists l'|congruence|done].
  - intros ((l & Hl & Hy) & Hx & Hn). exists (without a l).
    rewrite elem_of_ids_without. naive_solver.
Qed.

Lemma lists_push ls k a : lists_ok ls → lists_ok (<[k := push_new a (default [] (ls !! k))]> ls).
Proof.
  intros Hl. apply map_Forall_insert_2; [|done]. apply push_new_NoDup.
  destruct (ls !! k) eqn:Hk; [by eapply Hl|apply NoDup_nil_2].
Qed.
Lemma lists_remove ls k a : lists_ok ls → lists_ok (remove_child_of k a ls).
Proof.
  intros Hl x l [(-> & l' & Hk & -> & _)|[_ Hk]]%lookup_remove_child; [apply without_NoDup|]; by eapply Hl.
Qed.
Lemma table_exec_lists m o : lists_ok (links m) → lists_ok (links (table_exec m o)).
Proof.
  intros Hl. destruct o as [a b|a b|a]; cbn.
  - unfold add_link. destruct (ActorId_eqb a b); [done|]. cbn. by do 2 apply lists_push.
  - by do 2 apply lists_remove.
  - intros x l [_ (l' & <- & Hk)%lookup_fmap_Some]%lookup_delete_Some. apply without_NoDup. by eapply Hl.
Qed.
Lemma table_exec_graph m g o : (∀ x y, linked m x y ↔ (x, y) ∈ g) →
  ∀ x y, linked (table_exec m o) x y ↔ (x, y) ∈ graph_exec g o.
Proof.
  intros Hg x y. destruct o as [a b|a b|a]; cbn.
  - unfold add_link at 1. destruct (ActorId_eqb a b) eqn:He; [done|].
    rewrite (linked_add a b m) by (unfold add_link; by rewrite He). rewrite Hg. set_solver.
  - rewrite linked_remove, Hg. set_solver.
  - rewrite linked_cleanup, Hg, elem_of_filter. naive_solver.
Qed.

Lemma graph_exec_symmetric g o : (∀ x y, (x, y) ∈ g → (y, x) ∈ g ∧ x ≠ y) →
  ∀ x y, (x, y) ∈ graph_exec g o → (y, x) ∈ graph_exec g o ∧ x ≠ y.
Proof.
  intros Hg x y. destruct o as [a b|a b|a]; cbn.
  - destruct (ActorId_eqb a b) eqn:He; [by apply Hg|]. unfold ActorId_eqb in He. apply String.eqb_neq in He.
    rewrite !elem_of_union, !elem_of_singleton. intros [[[= -> ->]|[= -> ->]]|Hin]; [naive_solver..|].
    destruct (Hg _ _ Hin). tauto.
  - rewrite !elem_of_difference, !elem_of_union, !elem_of_singleton. intros [Hin Hn].
    destruct (Hg _ _ Hin). naive_solver.
  - rewrite !elem_of_filter. naive_solver.
Qed.

(** ** Calls *)

Definition linked_at (n : string) (c : Cluster) (x y : string) : Prop :=
  ∃ nd, c !! n = Some nd ∧ linked (table nd) x y.
Definition parsed (a : ActorId) : Prop := from_canonical (canonical a) = Ok a.
Lemma from_canonical_parsed s a : from_canonical s = Ok a → canonical a = s ∧ parsed a.
Proof. intros Ha. pose proof (from_canonical_form _ _ Ha) as <-. by split. Qed.

Lemma contains_links_at n c a b : contains b (links_at n c a) = true ↔ linked_at n c (canonical a) (canonical b).
Proof.
  unfold links_at, linked_at. destruct (c !! n) as [nd|] eqn:Hn.
  - rewrite contains_links. naive_solver.
  - split; [done|]. by intros (? & ? & _).
Qed.
Lemma local_link_spec n a b c nd : c !! n = Some nd → ActorId_eqb a b = false →
  ∃ t, add_link a b (table nd) = Ok t ∧ local_link n a b c = Some (<[n := set_table nd t]> c, Ok ()).
Proof.
  intros Hn He. unfold local_link. rewrite Hn. destruct (add_link a b (table nd)) as [t|e] eqn:Ha; [by exists t|].
  unfold add_link in Ha. by rewrite He in Ha.
Qed.
Lemma linked_at_local_link n a b c c' m x y : local_link n a b c = Some (c', Ok ()) →
  linked_at m c' x y ↔ linked_at m c x y ∨
    (m = n ∧ (x = canonical a ∧ y = canonical b ∨ x = canonical b ∧ y = canonical a)).
Proof.
  unfold local_link, linked_at. destruct (c !! n) as [nd|] eqn:Hn; [|done].
  destruct (add_link a b (table nd)) as [t|e] eqn:Ha; [|done]. intros [= <-].
  destruct (decide (m = n)) as [->|Hm].
  - rewrite lookup_insert_eq, Hn. split.
    + intros (? & [= <-] & Hl). cbn in Hl. rewrite (linked_add _ _ _ _ _ _ Ha) in Hl. naive_solver.
    + intros Hl. exists (set_table nd t). split; [done|]. cbn. rewrite (linked_add _ _ _ _ _ _ Ha). naive_solver.
  - rewrite lookup_insert_ne by done. naive_solver.
Qed.

Section call_lemmas.
Context (display_id_error : ActorIdError → string) (transport_error missing_tenant : string).
Context (connects : string → string → Connection).
#[local] Abbreviation call := (call display_id_error transport_error missing_tenant connects).
#[local] Abbreviation link := (link display_id_error transport_error missing_tenant connects).

(** A call fails before it changes anything, or is the run of the handler on the operands that were
    read from their canonical forms, at the node of the first. *)
Lemma call_cases {A} op (h : string → RequestContext → ActorId → ActorId → Cluster → Run A) n ctx a b c :
  (∃ e, call op h n ctx a b c = Some (c, Err e)) ∨
  ∃ ctx' a' b', canonical a' = canonical a ∧ canonical b' = canonical b ∧ parsed a' ∧ parsed b' ∧
    is_Some (c !! node_id a') ∧ ∃ connection,
    call op h n ctx a b c = match h (node_id a') ctx' a' b' c with
                            | Some (c', r) => Some (c', response transport_error op connection r)
                            | None => None
                            end.
Proof.
  unfold Links.call, admitted, parse_canonical_actor_id.
  destruct (from_canonical (canonical a)) as [a'|e] eqn:Ha; [|left; by eexists].
  destruct (from_canonical_parsed _ _ Ha) as [Ha' Hpa].
  destruct (c !! node_id a') as [nd|] eqn:Hnd; [|left; destruct (connects _ _); by eexists].
  destruct (from_canonical (canonical b)) as [b'|e] eqn:Hb.
  - destruct (from_canonical_parsed _ _ Hb) as [Hb' Hpb].
    destruct (connects n (node_id a')) as [| | |] eqn:Hc; [left; by eexists..| |];
      (destruct (shutdown_requested nd); [left; by eexists|]);
      (destruct (received (node_auth_enabled nd) ctx) as [ctx'|]; [|left; by eexists]); cbn;
      right; exists ctx', a', b'; (split_and!; [done..|by eexists|]).
    + by exists ResponseLost.
    + by exists Answered.
  - left. destruct (connects n (node_id a')); [by eexists..| |]; (destruct (shutdown_requested nd); [by eexists|]);
      (destruct (received (node_auth_enabled nd) ctx) as [ctx'|]; [|by eexists]); cbn;
      destruct (String.eqb op "monitor" || String.eqb op "demonitor"); by eexists.
Qed.
Lemma response_Ok {A} op cn (r : result ActorRegistryError A) x :
  response transport_error op cn r = Ok x → r = Ok x.
Proof. by destruct cn, r. Qed.

(** A property of the cluster that a run keeps. *)
Definition kept {A} (P : Cluster → Prop) (r : Run A) : Prop :=
  match r with Some (c, _) => P c | None => True end.
Lemma and_then_kept {A B} (P : Cluster → Prop) (m : Run A) (k : A → Cluster → Run B) :
  kept P m → (∀ x c, P c → kept P (k x c)) → kept P (and_then m k).
Proof. destruct m as [[c [x|e]]|]; cbn; auto. Qed.
Lemma call_kept {A} (P : Cluster → Prop) op (h : string → RequestContext → ActorId → ActorId → Cluster → Run A) n ctx a b c :
  P c → (∀ n ctx a' b', canonical a' = canonical a → canonical b' = canonical b → kept P (h n ctx a' b' c)) →
  kept P (call op h n ctx a b c).
Proof.
  intros Hc Hh. destruct (call_cases op h n ctx a b c)
    as [(e & ->)|(ctx' & a' & b' & Ha' & Hb' & _ & _ & _ & cn & ->)]; [done|].
  specialize (Hh (node_id a') ctx' a' b' Ha' Hb'). by destruct (h _ _ _ _ _) as [[c1 [|]]|].
Qed.
Lemma validate_at_kept (P : Cluster → Prop) n ctx ops c : P c → kept P (validate_at n ctx ops c).
Proof. intros Hc. unfold validate_at. by destruct (c !! n). Qed.

Lemma validate_at_cases n ctx ops c : is_Some (c !! n) →
  validate_at n ctx ops c = Some (c, Ok ()) ∨ ∃ e, validate_at n ctx ops c = Some (c, Err e).
Proof.
  intros [nd Hn]. unfold validate_at. rewrite Hn.
  destruct (validate_link_monitor_operand_scope _ _ _) as [[]|e]; [by left|right; by exists e].
Qed.
Lemma off_node (a b : ActorId) : node_id a ≠ node_id b → is_on_node b (node_id a) = false.
Proof. intros Hn. unfold is_on_node. apply String.eqb_neq. congruence. Qed.
Lemma on_own_node (a : ActorId) : is_on_node a (node_id a) = true.
Proof. apply String.eqb_refl. Qed.
Lemma local_link_total n a b c : is_Some (c !! n) → ActorId_eqb a b = false →
  ∃ c', local_link n a b c = Some (c', Ok ()) ∧ ∀ m, is_Some (c !! m) → is_Some (c' !! m).
Proof.
  intros [nd Hn] He. destruct (local_link_spec n a b c nd Hn He) as (t & _ & ->). eexists. split; [done|].
  intros m Hm. by apply lookup_insert_is_Some'; right.
Qed.

Lemma parsed_eq a b : parsed a → parsed b → canonical a = canonical b → a = b.
Proof. unfold parsed. intros Ha Hb He. rewrite He in Ha. congruence. Qed.
Lemma local_link_grows n a b c c' m : local_link n a b c = Some (c', Ok ()) → is_Some (c !! m) → is_Some (c' !! m).
Proof.
  unfold local_link. destruct (c !! n) as [nd|]; [|done]. destruct (add_link a b (table nd)); [|done].
  intros [= <-] Hm. by apply lookup_insert_is_Some'; right.
Qed.

(** The cases of an operation whose first operand is on its node: with the second one there too; and
    elsewhere, where the node calls unless it has the link. *)
Lemma link_here f n ctx a b c : is_on_node a n = true → is_on_node b n = true → is_Some (c !! n) →
  (∃ e, link (S f) n ctx a b c = Some (c, Err e)) ∨
  ∃ c', local_link n a b c = Some (c', Ok ()) ∧ link (S f) n ctx a b c = Some (c', Ok ()).
Proof.
  intros Ha Hb Hn. cbn [Links.link]. rewrite Ha, Hb. destruct (ActorId_eqb a b) eqn:He; [left; by eexists|].
  destruct (validate_at_cases n ctx [a; b] c Hn) as [Hv|[e Hv]]; rewrite Hv; cbn [and_then]; [right|left; by eexists].
  destruct (local_link_total _ a b c Hn He) as (c' & Hl & _). exists c'. by rewrite Hl.
Qed.
Lemma link_near f n ctx a b c : is_on_node a n = true → is_on_node b n = false → is_Some (c !! n) →
  (∃ e, link (S f) n ctx a b c = Some (c, Err e)) ∨
  ∃ c', local_link n a b c = Some (c', Ok ()) ∧
    ((linked_at n c (canonical a) (canonical b) ∧ link (S f) n ctx a b c = Some (c', Ok ())) ∨
     (¬ linked_at n c (canonical a) (canonical b) ∧ link (S f) n ctx a b c = call "link" (link f) n ctx b a c')).
Proof.
  intros Ha Hb Hn. cbn [Links.link]. rewrite Ha, Hb. destruct (ActorId_eqb a b) eqn:He; [left; by eexists|].
  destruct (validate_at_cases n ctx [a; b] c Hn) as [Hv|[e Hv]]; rewrite Hv; cbn [and_then]; [right|left; by eexists].
  destruct (local_link_total _ a b c Hn He) as (c' & Hl & _). exists c'. split; [done|]. rewrite Hl. cbn [and_then].
  rewrite <-contains_links_at. destruct (contains b (links_at n c a)); [by left|by right].
Qed.

(** The node of an operand links, calls the node of the other, which links and calls back; the node is
    linked then. *)
Lemma link_parsed_returns ctx a b c : parsed a → parsed b → is_Some (c !! node_id a) →
  link 3 (node_id a) ctx a b c ≠ None.
Proof.
  intros Hpa Hpb Hn. destruct (is_on_node b (node_id a)) eqn:Hb.
  { destruct (link_here 2 _ ctx a b c (on_own_node a) Hb Hn) as [(e & ->)|(c' & _ & ->)]; done. }
  assert (node_id b ≠ node_id a) as Hne by by apply String.eqb_neq.
  destruct (link_near 2 _ ctx a b c (on_own_node a) Hb Hn) as [(e & ->)|(c1 & Hl1 & [[_ ->]|[_ ->]])]; [done..|].
  destruct (call_cases "link" (link 2) (node_id a) ctx b a c1)
    as [(e & ->)|(ctx1 & b' & a' & Hb' & Ha' & Hpb' & Hpa' & Hn1 & cn & ->)]; [done|].
  apply parsed_eq in Hb' as ->; [|done..]. apply parsed_eq in Ha' as ->; [|done..].
  destruct (link_near 1 _ ctx1 b a c1 (on_own_node b) (off_node b a Hne) Hn1)
    as [(e & ->)|(c2 & Hl2 & [[_ ->]|[_ ->]])]; [done..|].
  destruct (call_cases "link" (link 1) (node_id b) ctx1 a b c2)
    as [(e & ->)|(ctx2 & a' & b' & Ha' & Hb' & Hpa2 & Hpb2 & Hn2 & cn2 & ->)]; [done|].
  apply parsed_eq in Hb' as ->; [|done..]. apply parsed_eq in Ha' as ->; [|done..].
  destruct (link_near 0 _ ctx2 a b c2 (on_own_node a) Hb Hn2) as [(e & ->)|(c3 & Hl3 & [[_ ->]|[Hc _]])]; [done..|].
  exfalso. apply Hc. apply (linked_at_local_link _ _ _ _ _ _ _ _ Hl2). left.
  apply (linked_at_local_link _ _ _ _ _ _ _ _ Hl1). right. auto.
Qed.
Lemma call_link_returns n ctx a b c : call "link" (link 3) n ctx a b c ≠ None.
Proof.
  destruct (call_cases "link" (link 3) n ctx a b c)
    as [(e & ->)|(ctx' & a' & b' & Ha' & Hb' & Hpa & Hpb & Hn & cn & ->)]; [done|].
  pose proof (link_parsed_returns ctx' a' b' c Hpa Hpb Hn) as Hr.
  by destruct (link 3 _ _ _ _ _) as [[c' [|]]|].
Qed.

(** What every link of the pair keeps, the operation keeps. *)
Lemma link_kept (P : Cluster → Prop) x y :
  (∀ n a b c c', canonical a = x ∧ canonical b = y ∨ canonical a = y ∧ canonical b = x →
     P c → local_link n a b c = Some (c', Ok ()) → P c') →
  ∀ f n ctx a b c, canonical a = x ∧ canonical b = y ∨ canonical a = y ∧ canonical b = x →
    P c → kept P (link f n ctx a b c).
Proof.
  intros HP. induction f as [|f IH]; [done|]. intros n ctx a b c Hab Hc.
  assert (∀ n a b c, canonical a = x ∧ canonical b = y ∨ canonical a = y ∧ canonical b = x → P c →
    kept P (call "link" (link f) n ctx a b c)) as Hcall.
  { intros n0 a0 b0 c0 Hab0 Hc0. apply call_kept; [done|]. intros n1 ctx1 a1 b1 Ha1 Hb1. apply IH; [|done].
    by rewrite Ha1, Hb1. }
  assert (∀ c, P c → kept P (local_link n a b c)) as Hlocal.
  { intros c0 Hc0. destruct (local_link n a b c0) as [[c1 [[]|e]]|] eqn:Hl; [by eapply HP| |done].
    unfold local_link in Hl. destruct (c0 !! n); [|done]. destruct (add_link _ _ _); [done|]. by injection Hl as <- _. }
  cbn [Links.link]. destruct (ActorId_eqb a b); [done|].
  destruct (is_on_node a n), (is_on_node b n).
  - apply and_then_kept; [by apply validate_at_kept|auto].
  - apply and_then_kept; [by apply validate_at_kept|]. intros _ c1 Hc1. apply and_then_kept; [auto|].
    intros _ c2 Hc2. destruct (contains _ _); [done|]. apply Hcall; tauto.
  - apply and_then_kept; [destruct (contains _ _); [done|by apply Hcall]|]. intros _ c1 Hc1.
    apply and_then_kept; [by apply validate_at_kept|auto].
  - apply and_then_kept; [by apply Hcall|]. intros _ c1 Hc1. apply Hcall; tauto.
Qed.
Lemma link_invariant (R : Cluster → Cluster → Prop) `{!PreOrder R} x y :
  (∀ n a b c c', canonical a = x ∧ canonical b = y ∨ canonical a = y ∧ canonical b = x →
     local_link n a b c = Some (c', Ok ()) → R c c') →
  ∀ f n ctx a b c c' r, canonical a = x ∧ canonical b = y ∨ canonical a = y ∧ canonical b = x →
    link f n ctx a b c = Some (c', r) → R c c'.
Proof.
  intros HR f n ctx a b c c' r Hab Hl. pose proof (link_kept (R c) x y) as Hk.
  specialize (Hk (λ n a b c1 c2 Hab Hc1 Hl, transitivity Hc1 (HR n a b c1 c2 Hab Hl)) f n ctx a b c Hab).
  rewrite Hl in Hk. by apply Hk.
Qed.
Lemma link_grows f n ctx a b c c' r m : link f n ctx a b c = Some (c', r) → is_Some (c !! m) → is_Some (c' !! m).
Proof.
  intros Hl. set (R := λ c c' : Cluster, ∀ m, is_Some (c !! m) → is_Some (c' !! m)).
  assert (PreOrder R) as HR by (split; [by intros ? ?|intros c1 c2 c3 H12 H23 k Hk; by apply H23, H12]).
  revert m. apply (link_invariant R (canonical a) (canonical b)) with f n ctx a b r; [|by left|done].
  intros k a' b' c1 c2 _ Hll m' Hm. by eapply local_link_grows.
Qed.
(** The other two cases: only the second operand is on the node, and neither is. *)
Lemma link_far f n ctx a b c : is_on_node a n = false → is_on_node b n = true → is_Some (c !! n) →
  (∀ c' r, call "link" (link f) n ctx a b c = Some (c', r) → is_Some (c' !! n)) →
  (∃ e, link (S f) n ctx a b c = Some (c, Err e)) ∨
  ∃ m, (linked_at n c (canonical b) (canonical a) ∧ m = Some (c, Ok ()) ∨
        ¬ linked_at n c (canonical b) (canonical a) ∧ m = call "link" (link f) n ctx a b c) ∧
    match m with
    | Some (c1, Ok _) =>
        (∃ e, link (S f) n ctx a b c = Some (c1, Err e)) ∨
        ∃ c', local_link n a b c1 = Some (c', Ok ()) ∧ link (S f) n ctx a b c = Some (c', Ok ())
    | r => link (S f) n ctx a b c = r
    end.
Proof.
  intros Ha Hb Hn Hg. cbn [Links.link]. rewrite Ha, Hb. destruct (ActorId_eqb a b) eqn:He; [left; by eexists|].
  right. exists (if contains a (links_at n c b) then Some (c, Ok ()) else call "link" (link f) n ctx a b c).
  split; [rewrite <-contains_links_at; destruct (contains a (links_at n c b)); auto|].
  destruct (if contains a (links_at n c b) then _ else _) as [[c1 [[]|e]]|] eqn:Hm; cbn [and_then]; try done.
  assert (is_Some (c1 !! n)) as Hn1.
  { destruct (contains a (links_at n c b)); [by injection Hm as <-|by eapply Hg]. }
  destruct (validate_at_cases n ctx [a; b] c1 Hn1) as [Hv|[e Hv]]; rewrite Hv; cbn [and_then];
    [right|left; by eexists].
  destruct (local_link_total _ a b c1 Hn1 He) as (c' & Hl & _). by exists c'.
Qed.
Lemma call_link_grows f n m ctx a b c c' r :
  call "link" (link f) n ctx a b c = Some (c', r) → is_Some (c !! m) → is_Some (c' !! m).
Proof.
  destruct (call_cases "link" (link f) n ctx a b c)
    as [(e & ->)|(ctx' & a' & b' & Ha' & Hb' & Hpa & Hpb & Hn & cn & ->)]; [by intros [= <- _]|].
  destruct (link f _ _ _ _ _) as [[c1 r1]|] eqn:Hl; [|done]. intros Hr. 
  assert (c1 = c') as -> by (destruct r1; by injection Hr).
  by eapply link_grows.
Qed.
Lemma link_4_returns n ctx a b c : is_Some (c !! n) → link 4 n ctx a b c ≠ None.
Proof.
  intros Hn. destruct (is_on_node a n) eqn:Ha, (is_on_node b n) eqn:Hb.
  - destruct (link_here 3 _ ctx a b c Ha Hb Hn) as [(e & ->)|(c' & _ & ->)]; done.
  - destruct (link_near 3 _ ctx a b c Ha Hb Hn) as [(e & ->)|(c1 & _ & [[_ ->]|[_ ->]])]; [done..|].
    apply call_link_returns.
  - destruct (link_far 3 _ ctx a b c Ha Hb Hn) as [(e & ->)|(m & Hm & Hr)]; [|done|].
    { intros c' r Hc. by eapply call_link_grows. }
    assert (m ≠ None) as Hs by (destruct Hm as [[_ ->]|[_ ->]]; [done|apply call_link_returns]).
    destruct m as [[c1 [[]|e]]|]; [|by rewrite Hr|done].
    destruct Hr as [(e & ->)|(c' & _ & ->)]; done.
  - remember 3%nat as k eqn:Hk. cbn [Links.link]. rewrite Ha, Hb, Hk. destruct (ActorId_eqb a b); [done|].
    pose proof (call_link_returns n ctx a b c) as Hc.
    destruct (call "link" (link 3) n ctx a b c) as [[c1 [[]|e]]|]; cbn [and_then]; [|done..].
    apply call_link_returns.
Qed.
Lemma call_fuel {A} op (h h' : string → RequestContext → ActorId → ActorId → Cluster → Run A) n ctx a b c r :
  (∀ n ctx a b c r, h n ctx a b c = Some r → h' n ctx a b c = Some r) →
  call op h n ctx a b c = Some r → call op h' n ctx a b c = Some r.
Proof.
  intros Hh. unfold Links.call. destruct (parse_canonical_actor_id _ _) as [t|[]]; [|done].
  destruct (connects n (node_id t)), (c !! node_id t) as [nd|]; try done;
    (destruct (admitted _ _ _ _ _ _ _) as [[[ctx' a'] b']|[]]; [|done]);
    (destruct (h _ _ _ _ _) as [[c' r']|] eqn:Hr; [|done]); by rewrite (Hh _ _ _ _ _ _ Hr).
Qed.
Lemma link_fuel f f' n ctx a b c r : link f n ctx a b c = Some r → (f ≤ f')%nat → link f' n ctx a b c = Some r.
Proof.
  revert f' n ctx a b c r. induction f as [|f IH]; [done|]. intros [|f'] n ctx a b c r Hl Hle; [lia|].
  assert (∀ n ctx a b c r, call "link" (link f) n ctx a b c = Some r → call "link" (link f') n ctx a b c = Some r) as Hcall.
  { intros n0 ctx0 a0 b0 c0 r0. apply call_fuel. intros n1 ctx1 a1 b1 c1 r1 H1. apply IH; [done|lia]. }
  assert (∀ {A} (m m' : Run A) (k k' : A → Cluster → Run ()) r, (∀ r, m = Some r → m' = Some r) →
    (∀ x c r, k x c = Some r → k' x c = Some r) → and_then m k = Some r → and_then m' k' = Some r) as Hthen.
  { intros A [[c1 [x|e]]|] m' k k' r0 Hm Hk; cbn; [|by rewrite (Hm _ eq_refl)|done].
    rewrite (Hm _ eq_refl). cbn. apply Hk. }
  revert Hl. cbn [Links.link]. destruct (ActorId_eqb a b); [done|].
  destruct (is_on_node a n), (is_on_node b n); [done| | |].
  - apply Hthen; [done|]. intros _ c1 r1. apply Hthen; [done|]. intros _ c2 r2.
    destruct (contains b _); [done|apply Hcall].
  - apply Hthen; [|done]. intros r1. destruct (contains a _); [done|apply Hcall].
  - apply Hthen; [apply Hcall|]. intros _ c1 r1. apply Hcall.
Qed.

(** A link is never lost on the way, and no other pair is linked. *)
Lemma link_keeps f n ctx a b c c' r m x y : link f n ctx a b c = Some (c', r) →
  linked_at m c x y → linked_at m c' x y.
Proof.
  intros Hl. set (R := λ c c' : Cluster, ∀ m x y, linked_at m c x y → linked_at m c' x y).
  assert (PreOrder R) as HR by (split; [by intros ? ?|intros c1 c2 c3 H12 H23 k u v Hk; by apply H23, H12]).
  revert m x y. apply (link_invariant R (canonical a) (canonical b)) with f n ctx a b r; [|by left|done].
  intros k a' b' c1 c2 _ Hll m x y Hm. apply (linked_at_local_link _ _ _ _ _ _ _ _ Hll). by left.
Qed.
Lemma link_only f n ctx a b c c' r m x y : link f n ctx a b c = Some (c', r) → linked_at m c' x y →
  linked_at m c x y ∨ x = canonical a ∧ y = canonical b ∨ x = canonical b ∧ y = canonical a.
Proof.
  intros Hl. set (R := λ c c' : Cluster, ∀ m x y, linked_at m c' x y →
    linked_at m c x y ∨ x = canonical a ∧ y = canonical b ∨ x = canonical b ∧ y = canonical a).
  assert (PreOrder R) as HR.
  { split; [by intros ? ?; left|]. intros c1 c2 c3 H12 H23 k u v Hk. destruct (H23 k u v Hk) as [H2|?]; [|tauto].
    by apply H12. }
  revert m x y. apply (link_invariant R (canonical a) (canonical b)) with f n ctx a b r; [|by left|done].
  intros k a' b' c1 c2 Hab Hll m x y Hm. apply (linked_at_local_link _ _ _ _ _ _ _ _ Hll) in Hm as [?|[_ Hxy]]; [by left|].
  right. destruct Hab as [[<- <-]|[<- <-]]; tauto.
Qed.
Lemma call_ok f n ctx a b c c' : call "link" (link f) n ctx a b c = Some (c', Ok ()) → parsed a → parsed b →
  is_Some (c !! node_id a) ∧ ∃ ctx', link f (node_id a) ctx' a b c = Some (c', Ok ()).
Proof.
  intros Hc Hpa Hpb. destruct (call_cases "link" (link f) n ctx a b c)
    as [(e & He)|(ctx' & a' & b' & Ha' & Hb' & Hpa' & Hpb' & Hn & cn & He)]; [congruence|].
  apply parsed_eq in Ha' as ->; [|done..]. apply parsed_eq in Hb' as ->; [|done..].
  split; [done|]. exists ctx'. rewrite Hc in He. destruct (link f _ _ _ _ _) as [[c1 r]|]; [|done].
  injection He as <- He. by rewrite (response_Ok _ _ _ _ (eq_sym He)).
Qed.
Lemma link_ok_here f ctx a b c c' : link f (node_id a) ctx a b c = Some (c', Ok ()) → is_Some (c !! node_id a) →
  linked_at (node_id a) c' (canonical a) (canonical b).
Proof.
  destruct f as [|f]; [done|]. intros Hl Hn.
  assert (∀ c1, local_link (node_id a) a b c = Some (c1, Ok ()) → linked_at (node_id a) c1 (canonical a) (canonical b)) as H1.
  { intros c1 Hl1. apply (linked_at_local_link _ _ _ _ _ _ _ _ Hl1). right. auto. }
  destruct (is_on_node b (node_id a)) eqn:Hb.
  - destruct (link_here f _ ctx a b c (on_own_node a) Hb Hn) as [(e & He)|(c1 & Hl1 & He)]; [congruence|].
    rewrite Hl in He. injection He as ->. by apply H1.
  - destruct (link_near f _ ctx a b c (on_own_node a) Hb Hn) as [(e & He)|(c1 & Hl1 & [[_ He]|[_ He]])]; [congruence| |].
    + rewrite Hl in He. injection He as ->. by apply H1.
    + rewrite Hl in He. symmetry in He. destruct (call_cases "link" (link f) (node_id a) ctx b a c1)
        as [(e & Hc)|(ctx' & b' & a' & _ & _ & _ & _ & _ & cn & Hc)]; [congruence|]. rewrite Hc in He.
      destruct (link f _ _ _ _ _) as [[c2 r]|] eqn:Hf; [|done]. injection He as -> _.
      eapply link_keeps; [done|]. by apply H1.
Qed.

Lemma link_ok_both f n ctx a b c c' : parsed a → parsed b → node_id a ≠ node_id b → is_Some (c !! n) →
  (linked_at (node_id a) c (canonical a) (canonical b) ↔ linked_at (node_id b) c (canonical b) (canonical a)) →
  link f n ctx a b c = Some (c', Ok ()) →
  linked_at (node_id a) c' (canonical a) (canonical b) ∧ linked_at (node_id b) c' (canonical b) (canonical a).
Proof.
  intros Hpa Hpb Hne Hn Hc Hl. pose proof (λ m x y, link_keeps _ _ _ _ _ _ _ _ m x y Hl) as Hk.
  destruct f as [|f]; [done|]. destruct (is_on_node a n) eqn:Ha.
  - pose proof Ha as <-%String.eqb_eq. split; [by eapply link_ok_here|].
    destruct (link_near f _ ctx a b c Ha (off_node a b Hne) Hn) as [(e & He)|(c1 & Hl1 & [[Hal _]|[_ He]])]; [congruence| |].
    + apply Hk. by apply Hc.
    + rewrite Hl in He. symmetry in He. apply call_ok in He as (Hn1 & ctx' & He); [|done..]. by eapply link_ok_here.
  - destruct (is_on_node b n) eqn:Hb.
    + pose proof Hb as <-%String.eqb_eq.
      destruct (link_far f _ ctx a b c Ha Hb Hn) as [(e & He)|(m & Hm & Hr)]; [|congruence|].
      { intros c1 r Hr. by eapply call_link_grows. }
      destruct m as [[c1 [[]|e]]|]; [|congruence..].
      destruct Hr as [(e & He)|(c2 & Hl2 & He)]; [congruence|]. rewrite Hl in He. injection He as <-. split.
      * destruct Hm as [[Hal _]|[_ Hm]]; [by apply Hk, Hc|]. symmetry in Hm. apply call_ok in Hm as (Hn1 & ctx' & Hm); [|done..].
        apply (linked_at_local_link _ _ _ _ _ _ _ _ Hl2). left. by eapply link_ok_here.
      * apply (linked_at_local_link _ _ _ _ _ _ _ _ Hl2). right. auto.
    + cbn [Links.link] in Hl. rewrite Ha, Hb in Hl. destruct (ActorId_eqb a b); [done|].
      destruct (call "link" (link f) n ctx a b c) as [[c1 [[]|]]|] eqn:H1; cbn [and_then] in Hl; [|done..].
      apply call_ok in H1 as (Hn1 & ctx1 & H1); [|done..]. apply call_ok in Hl as (Hn2 & ctx2 & H2); [|done..]. split.
      * eapply link_keeps; [exact H2|]. by eapply link_ok_here.
      * by eapply link_ok_here.
Qed.
End call_lemmas.

(** ** Monitors are kept where the monitored actor is *)

Definition monitors_here (c : Cluster) : Prop :=
  ∀ n nd k t l, c !! n = Some nd → monitors (table nd) !! k = Some (t, l) → is_on_node t n = true.
Lemma monitors_here_update n f c :
  (∀ m k t l, monitors (f m) !! k = Some (t, l) → (∃ l', monitors m !! k = Some (t, l')) ∨ is_on_node t n = true) →
  monitors_here c → monitors_here (update_table n f c).
Proof.
  intros Hf Hc m nd k t l Hm Hk. unfold update_table in Hm. apply lookup_alter_Some in Hm as [(-> & x & Hx & ->)|[_ Hm]].
  - cbn in Hk. destruct (Hf _ _ _ _ Hk) as [[l' Hl]|?]; [by eapply Hc|done].
  - by eapply Hc.
Qed.
Lemma gc_none ask n m : (∀ k t l, monitors m !! k = Some (t, l) → is_on_node t n = true) → run_gc_pass ask n m = m.
Proof.
  intros Hm. unfold run_gc_pass. replace (remote_targets n m) with (@nil ActorId); [done|].
  symmetry. unfold remote_targets. 
  assert (∀ a, a ∈ ((λ '(t, _, _), t) <$> all_monitor_entries m) → is_on_node a n = true) as Ha.
  { intros a ([[t ref] x] & -> & Hin)%list_elem_of_fmap. unfold all_monitor_entries in Hin.
    apply list_elem_of_bind in Hin as ([k [t' l]] & Hx & Hin). apply list_elem_of_fmap in Hx as (y & [= -> _ _] & _).
    apply elem_of_map_to_list in Hin. by eapply Hm. }
  induction (_ <$> _) as [|a l IH]; [done|]. cbn. rewrite (Ha a) by left. apply IH. intros b Hb. apply Ha. by right.
Qed.

Section monitors_here.
Context (display_id_error : ActorIdError → string) (transport_error missing_tenant : string).
Context (connects : string → string → Connection).

Lemma link_monitors_here f n ctx a b c : monitors_here c →
  kept monitors_here (link display_id_error transport_error missing_tenant connects f n ctx a b c).
Proof.
  apply (link_kept _ _ _ _ _ (canonical a) (canonical b)); [|by left].
  intros k0 a0 b0 c0 c' _ Hc. unfold local_link. destruct (c0 !! k0) as [nd|] eqn:Hn; [|done].
  destruct (add_link a0 b0 (table nd)) as [t|] eqn:Ht; [|done]. intros [= <-] m nd' k u l.
  rewrite lookup_insert_Some. intros [[<- <-]|[_ Hm]] Hk; [|by eapply Hc]. eapply (Hc k0 nd k); [done|].
  unfold add_link in Ht. destruct (ActorId_eqb a0 b0); [done|]. injection Ht as <-. exact Hk.
Qed.
Lemma unlink_monitors_here f n ctx a b c : monitors_here c →
  kept monitors_here (unlink display_id_error transport_error missing_tenant connects f n ctx a b c).
Proof.
  revert n ctx a b c. induction f as [|f IH]; [done|]. intros n ctx a b c Hc.
  assert (∀ c, monitors_here c → kept monitors_here (local_unlink n a b c)) as Hlocal.
  { intros c0 Hc0. apply monitors_here_update; [|done]. intros m k t l Hk. left. by exists l. }
  assert (∀ n a b c, monitors_here c → kept monitors_here
    (call display_id_error transport_error missing_tenant connects "unlink"
      (unlink display_id_error transport_error missing_tenant connects f) n ctx a b c)) as Hcall.
  { intros n0 a0 b0 c0 Hc0. apply call_kept; [done|]. intros *. by intros; apply IH. }
  cbn [unlink]. destruct (is_on_node a n), (is_on_node b n).
  - apply and_then_kept; [by apply validate_at_kept|auto].
  - apply and_then_kept; [by apply validate_at_kept|]. intros _ c1 Hc1. apply and_then_kept; [auto|].
    intros _ c2 Hc2. destruct (contains _ _); [by apply Hcall|done].
  - apply and_then_kept; [destruct (contains _ _); [by apply Hcall|done]|]. intros _ c1 Hc1.
    apply and_then_kept; [by apply validate_at_kept|auto].
  - apply and_then_kept; [by apply Hcall|]. intros _ c1 Hc1. by apply Hcall.
Qed.
Lemma monitor_monitors_here f ref n ctx a s c : monitors_here c →
  kept monitors_here (monitor display_id_error transport_error missing_tenant connects f ref n ctx a s c).
Proof.
  revert n ctx a s c. induction f as [|f IH]; [done|]. intros n ctx a s c Hc. cbn [monitor].
  destruct (is_on_node a n) eqn:Ha.
  - apply and_then_kept; [by apply validate_at_kept|]. intros _ c1 Hc1. destruct (c1 !! n); [|done].
    destruct (negb _); [done|]. apply monitors_here_update; [|done]. intros m k t l. cbn.
    intros [[<- [= <- <-]]|[_ Hk]]%lookup_insert_Some; [|left; by exists l].
    destruct (monitors m !! canonical a) as [[t l]|]; [left; by exists l|by right].
  - destruct (String.eqb _ _); [done|]. apply call_kept; [done|]. intros *. by intros; apply IH.
Qed.
Lemma demonitor_monitors_here f ref n ctx a s c : monitors_here c →
  kept monitors_here (demonitor display_id_error transport_error missing_tenant connects f ref n ctx a s c).
Proof.
  revert n ctx a s c. induction f as [|f IH]; [done|]. intros n ctx a s c Hc. cbn [demonitor].
  destruct (is_on_node a n) eqn:Ha.
  - apply and_then_kept; [by apply validate_at_kept|]. intros _ c1 Hc1. apply monitors_here_update; [|done].
    intros m k t l. unfold remove_monitor. destruct (monitors m !! canonical a) as [[t' l']|] eqn:Hm; [|left; by exists l].
    cbn. destruct (List.filter _ l').
    + intros [_ Hk]%lookup_delete_Some. left. by exists l.
    + intros [[<- [= <- <-]]|[_ Hk]]%lookup_insert_Some; left; by eexists.
  - apply call_kept; [done|]. intros n1 ctx1 a1 s1 _ _. unfold demonitor_handler.
    destruct (List.find _ _); [destruct (ActorId_eqb _ _)|]; try by apply IH. done.
Qed.
End monitors_here.

Lemma cluster_monitors_here d te mt c : cluster_reached d te mt c → monitors_here c.
Proof.
  induction 1 as [c Hc|c connects fuel n o Hr IH].
  - intros n nd k t l Hn Hk. rewrite (Hc _ _ Hn) in Hk. cbn in Hk. by rewrite lookup_empty in Hk.
  - assert (∀ {A} (r : Run A), kept monitors_here r → monitors_here (cluster_after c r)) as Ha.
    { intros A [[c1 r1]|]; [|done]. done. }
    destruct o as [ctx a b|ctx a b|ref ctx a s|ref ctx a s|a|ask]; cbn [cluster_exec].
    + by apply Ha, link_monitors_here.
    + by apply Ha, unlink_monitors_here.
    + by apply Ha, monitor_monitors_here.
    + by apply Ha, demonitor_monitors_here.
    + apply monitors_here_update; [|done]. intros m k t l. cbn.
      intros ([t' l'] & Hf & [_ Hk]%lookup_delete_Some)%lookup_omap_Some. left.
      destruct (List.filter _ l'); [done|]. injection Hf as <- _. by exists l'.
    + intros m nd k t l Hm Hk. unfold update_table in Hm.
      apply lookup_alter_Some in Hm as [(-> & x & Hx & ->)|[_ Hm]]; [|by eapply IH].
      cbn in Hk. rewrite gc_none in Hk; [by eapply IH|]. intros. by eapply IH.
Qed.

(** A link that is on the node already is written over with itself. *)
Lemma push_new_same a l : canonical a ∈ ids l → push_new a l = l.
Proof. intros Ha. unfold push_new. rewrite (proj2 (contains_spec a l) Ha). done. Qed.
Lemma add_link_same a b m : canonical a ≠ canonical b → linked m (canonical a) (canonical b) →
  linked m (canonical b) (canonical a) → add_link a b m = Ok m.
Proof.
  intros Hab (la & Hla & Hb) (lb & Hlb & Ha). unfold add_link, ActorId_eqb.
  rewrite (proj2 (String.eqb_neq _ _) Hab), Hla. cbn.
  rewrite (push_new_same b la), (insert_id (links m) (canonical a)) by done.
  rewrite Hlb. cbn. rewrite push_new_same, insert_id by done. by destruct m.
Qed.
Lemma local_link_again n a b c c' : local_link n a b c = Some (c', Ok ()) → local_link n a b c' = Some (c', Ok ()).
Proof.
  intros Hl. pose proof (λ x y, proj2 (linked_at_local_link n a b c c' n x y Hl)) as Hlk.
  unfold local_link in Hl. destruct (c !! n) as [nd|] eqn:Hn; [|done]. destruct (add_link a b (table nd)) as [t|] eqn:Ht; [|done].
  injection Hl as <-. unfold local_link. rewrite lookup_insert_eq. cbn.
  destruct (Hlk (canonical a) (canonical b)) as (nd1 & H1 & Hab); [auto|].
  destruct (Hlk (canonical b) (canonical a)) as (nd2 & H2 & Hba); [auto|].
  rewrite lookup_insert_eq in H1, H2. injection H1 as <-. injection H2 as <-. cbn in Hab, Hba.
  rewrite add_link_same; [|unfold add_link in Ht|done..].
  - by rewrite insert_insert_eq.
  - destruct (ActorId_eqb a b) eqn:He; [done|]. by apply String.eqb_neq in He.
Qed.

(** ** Properties *)

(** C22. The table of links of a node refines a set of unordered pairs: over every sequence of links, removals
    and clean-ups two actors are linked exactly when the pair is in the set, links go both ways and not
    from an actor to itself, and no list has an actor twice. *)
Theorem link_table_is_graph ops :
  let m := foldl table_exec monitor_new ops in
  (∀ x y, linked m x y ↔ (x, y) ∈ foldl graph_exec ∅ ops) ∧
  (∀ x y, linked m x y → linked m y x ∧ x ≠ y) ∧ lists_ok (links m).
Proof.
  assert (∀ m g, (∀ x y, linked m x y ↔ (x, y) ∈ g) → (∀ x y, (x, y) ∈ g → (y, x) ∈ g ∧ x ≠ y) → lists_ok (links m) →
    let m' := foldl table_exec m ops in
    (∀ x y, linked m' x y ↔ (x, y) ∈ foldl graph_exec g ops) ∧
    (∀ x y, linked m' x y → linked m' y x ∧ x ≠ y) ∧ lists_ok (links m')) as Hall.
  { induction ops as [|o ops IH]; intros m g Hg Hs Hl; cbn [foldl].
    - split; [done|]. split; [|done]. intros x y. rewrite !Hg. apply Hs.
    - apply IH; [by apply table_exec_graph|by apply graph_exec_symmetric|by apply table_exec_lists]. }
  apply Hall; [|done|apply map_Forall_empty]. intros x y. split; [|done]. intros (l & Hl & _). cbn in Hl. by rewrite lookup_empty in Hl.
Qed.

(** C28. Linking always answers: the calls that the nodes make back and forth are nested no deeper than four,
    whatever nodes refuse and whatever calls are lost.  A link is never lost on the way and no other pair
    is linked; and when the answer is positive, two actors of different nodes are linked at both, provided
    that the nodes agreed on the link before. *)
Theorem link_reaches_both_nodes d te mt connects n ctx a b c : is_Some (c !! n) →
  ∃ c' r, (∀ fuel, (4 ≤ fuel)%nat → link d te mt connects fuel n ctx a b c = Some (c', r)) ∧
    (∀ m x y, linked_at m c x y → linked_at m c' x y) ∧
    (∀ m x y, linked_at m c' x y →
       linked_at m c x y ∨ x = canonical a ∧ y = canonical b ∨ x = canonical b ∧ y = canonical a) ∧
    (r = Ok () → parsed a → parsed b → node_id a ≠ node_id b →
     (linked_at (node_id a) c (canonical a) (canonical b) ↔ linked_at (node_id b) c (canonical b) (canonical a)) →
     linked_at (node_id a) c' (canonical a) (canonical b) ∧ linked_at (node_id b) c' (canonical b) (canonical a)).
Proof.
  intros Hn. destruct (link d te mt connects 4 n ctx a b c) as [[c' r]|] eqn:Hl.
  - exists c', r. split_and!.
    + intros fuel Hle. by eapply link_fuel.
    + intros m x y. by eapply link_keeps.
    + intros m x y. by eapply link_only.
    + intros -> Hpa Hpb Hne Hc. by eapply link_ok_both.
  - by apply link_4_returns in Hl.
Qed.

(** When the other node cannot be reached, linking fails but leaves the link on the node of the first
    actor; from then on linking again answers success without a call, whatever can be reached, and the
    other node never learns of the link. *)
Theorem failed_call_leaves_half_link d te mt connects ctx a b c :
  parsed b → node_id b ≠ node_id a → connects (node_id a) (node_id b) = NoChannel →
  canonical a ≠ canonical b →
  validate_at (node_id a) ctx [a; b] c = Some (c, Ok ()) →
  ¬ linked_at (node_id a) c (canonical a) (canonical b) →
  ∃ c', (∀ fuel, link d te mt connects (S fuel) (node_id a) ctx a b c = Some (c', Err (SendFailed te))) ∧
    linked_at (node_id a) c' (canonical a) (canonical b) ∧
    (∀ m, m ≠ node_id a → c' !! m = c !! m) ∧
    ∀ connects' fuel, link d te mt connects' (S fuel) (node_id a) ctx a b c' = Some (c', Ok ()).
Proof.
  intros Hpb Hne Hcon Hab Hv Hnl. assert (is_Some (c !! node_id a)) as [nd Hn].
  { unfold validate_at in Hv. by destruct (c !! node_id a). }
  assert (ActorId_eqb a b = false) as He by by apply String.eqb_neq.
  destruct (local_link_spec _ a b c nd Hn He) as (t & Ht & Hl). set (c' := <[_ := _]> c) in Hl.
  assert (is_on_node b (node_id a) = false) as Hb by by apply String.eqb_neq.
  assert (linked_at (node_id a) c' (canonical a) (canonical b)) as Hin.
  { apply (linked_at_local_link _ _ _ _ _ _ _ _ Hl). right. auto. }
  exists c'. split_and!; [|done| |].
  - intros fuel. cbn [link]. rewrite on_own_node, Hb, He, Hv. cbn [and_then].
    assert (contains b (links_at (node_id a) c a) = false) as ->.
    { apply not_true_iff_false. by rewrite contains_links_at. }
    rewrite Hl. cbn [and_then]. unfold call, parse_canonical_actor_id. unfold parsed in Hpb. rewrite Hpb.
    by rewrite Hcon.
  - intros m Hm. by apply lookup_insert_ne.
  - intros connects' fuel. cbn [link]. rewrite on_own_node, Hb, He.
    assert (validate_at (node_id a) ctx [a; b] c' = Some (c', Ok ())) as ->.
    { unfold validate_at in *. rewrite Hn in Hv. unfold c'. rewrite lookup_insert_eq. cbn. injection Hv as ->. done. }
    cbn [and_then]. rewrite (proj2 (contains_links_at _ _ _ _)) by done.
    by rewrite (local_link_again _ _ _ _ _ Hl).
Qed.

(** In every state that the operations of a cluster reach, whatever fails, the monitors of a node are of
    actors on that node; so the garbage collection, which asks other nodes for the states of the actors
    that are monitored here and live there, never finds one and never removes anything. *)
Theorem gc_collects_nothing d te mt c n nd : cluster_reached d te mt c → c !! n = Some nd →
  (∀ t ref a, (t, ref, a) ∈ all_monitor_entries (table nd) → is_on_node t n = true) ∧
  ∀ ask, run_gc_pass ask n (table nd) = table nd.
Proof.
  intros Hr Hn. pose proof (cluster_monitors_here _ _ _ _ Hr) as Hm. split.
  - intros t ref a Hin. unfold all_monitor_entries in Hin.
    apply list_elem_of_bind in Hin as ([k [t' l]] & Hx & Hin). apply list_elem_of_fmap in Hx as (y & [= -> _ _] & _).
    apply elem_of_map_to_list in Hin. by eapply Hm.
  - intros ask. apply gc_none. intros k t l Hk. by eapply Hm.
Qed.

(** ** Witnesses *)

Module Sample.
Definition ann : ActorId := mkActorId "ann//w::ns@n1" "ann" "w" "ns" "n1".
Definition dan : ActorId := mkActorId "dan//w::ns@n2" "dan" "w" "ns" "n2".
Definition eve : ActorId := mkActorId "eve//w::other@n2" "eve" "w" "other" "n2".
Definition ctx : RequestContext := new_without_auth "acme" "ns".
Definition with_actor (a : ActorId) (s : nat) (r : ActorRegistry) : ActorRegistry :=
  register_actor ctx (mkParams a s "w" None None None)
    (set_senders r (<[s := mkSender (Some "acme") (Some (Identity.namespace a)) None None None]> (senders r))).
Definition node (r : ActorRegistry) : Node := mkNode r monitor_new "http://node" false false.
Definition pair : Cluster :=
  <["n1" := node (with_actor ann 1 (registry_new "n1"))]>
    {["n2" := node (with_actor eve 2 (with_actor dan 1 (registry_new "n2")))]}.
Definition no_display (e : ActorIdError) : string := "".
Definition up (m n : string) : Connection := Answered.
Definition down (m n : string) : Connection := NoChannel.
Definition lossy (m n : string) : Connection := ResponseLost.
Definition link := link no_display "unreachable" "no tenant".
Definition unlink := unlink no_display "unreachable" "no tenant".
Definition monitor := monitor no_display "unreachable" "no tenant".
Definition after {A} (r : Run A) : Cluster := cluster_after pair r.
(** The answer, and the links of an actor at the two nodes. *)
Definition seen {A} (r : Run A) (a b : ActorId) : option (result ActorRegistryError A) * (list string * list string) :=
  (snd <$> r, (ids (links_at "n1" (after r) a), ids (links_at "n2" (after r) b))).
End Sample.
Import Sample.

Lemma link_reaches_both_nodes_witness :
  ∃ c', Sample.link up 4 "n1" ctx ann dan pair = Some (c', Ok ()) ∧
    linked_at "n1" c' (canonical ann) (canonical dan) ∧ linked_at "n2" c' (canonical dan) (canonical ann).
Proof.
  destruct (link_reaches_both_nodes no_display "unreachable" "no tenant" up "n1" ctx ann dan pair) as (c' & r & Hl & _ & _ & Hb);
    [by eexists|].
  specialize (Hl 4%nat ltac:(lia)). exists c'.
  assert (r = Ok ()) as -> by (vm_compute in Hl; congruence).
  split; [exact Hl|]. apply Hb; [done|vm_compute; reflexivity..|done|].
  split; intros (nd & Hnd & l & Hk & _); vm_compute in Hnd; injection Hnd as <-; vm_compute in Hk; discriminate.
Defined.

Lemma failed_call_leaves_half_link_witness :
  ∃ c', Sample.link down 2 "n1" ctx ann dan pair = Some (c', Err (SendFailed "unreachable")) ∧
    c' !! "n2" = pair !! "n2" ∧ Sample.link up 2 "n1" ctx ann dan c' = Some (c', Ok ()).
Proof.
  destruct (failed_call_leaves_half_link no_display "unreachable" "no tenant" down ctx ann dan pair)
    as (c' & Hl & _ & Hn & Ha); [vm_compute; reflexivity|done|done|done|vm_compute; reflexivity| |].
  - intros (nd & Hnd & l & Hk & _); vm_compute in Hnd; injection Hnd as <-; vm_compute in Hk; discriminate.
  - exists c'. split_and!; [exact (Hl 1%nat)|exact (Hn "n2" ltac:(done))|exact (Ha up 1%nat)].
Defined.

Lemma gc_collects_nothing_witness :
  let c := cluster_exec no_display "unreachable" "no tenant" up 2 "n1" (OpMonitor "m1" ctx dan ann) pair in
  (∃ nd, c !! "n2" = Some nd ∧ get_monitors (table nd) dan = [mkMonitorLink "m1" ann ctx] ∧
    ∀ ask, run_gc_pass ask "n2" (table nd) = table nd).
Proof.
  intros c. destruct (c !! "n2") as [nd|] eqn:Hn; [|vm_compute in Hn; discriminate]. exists nd. split; [done|]. split.
  - vm_compute in Hn. injection Hn as <-. vm_compute. reflexivity.
  - apply (gc_collects_nothing no_display "unreachable" "no tenant" c "n2" nd); [|exact Hn].
    apply cluster_step. apply cluster_start. intros n nd'. unfold pair.
    intros [[_ <-]|[_ [_ <-]%lookup_singleton_Some]]%lookup_insert_Some; done.
Defined.

(** A call that the other node denies, for an actor of another namespace, leaves the half of the link that
    sends the exits; a failed removal leaves the other half and then answers success too. *)
Example denied_half_link :
  seen (Sample.link up 4 "n1" ctx ann eve pair) ann eve =
  (Some (Err (SendFailed "link_actor failed: actor eve//w::other@n2 namespace 'other' does not match request namespace 'ns'")),
   (["eve//w::other@n2"], [])).
Proof. vm_compute. reflexivity. Qed.
(** When only the response is lost both halves are there, although linking answers that it failed. *)
Example lost_response_links_both :
  seen (Sample.link lossy 4 "n1" ctx ann dan pair) ann dan =
  (Some (Err (SendFailed "link_actor failed: unreachable")), (["dan//w::ns@n2"], ["ann//w::ns@n1"])).
Proof. vm_compute. reflexivity. Qed.
Example failed_unlink :
  let c := after (Sample.link up 4 "n1" ctx ann dan pair) in
  let c' := cluster_after c (Sample.unlink down 4 "n1" ctx ann dan c) in
  (snd <$> Sample.unlink up 4 "n1" ctx ann dan c') = Some (Ok ()) ∧
  links_at "n1" c' ann = [] ∧ links_at "n2" c' dan = [ann].
Proof. vm_compute. done. Qed.
