(* ===== verification/Exits.v ===== *)
(** Exits: what happens when an actor ends.  The messages about ends (crates/actor/src/actor_monitor.rs,
    crates/mailbox/src/message_helpers.rs), the termination of crates/actor/src/actor_registry.rs, the
    watcher of crates/actor/src/actor_factory_impl.rs that starts it, and how the message loop of
    crates/actor/src/mod.rs treats the exit of a linked actor.

    A termination is three accesses to the table of the node with sends between them; they are separate
    functions, and [handle_actor_termination] is their composition.  The JSON text of a string in a payload
    is a parameter. *)
From S2P Require Import Prelude Text Identity Context Registry Links.

#[local] Arguments String.append : simpl nomatch.

(** ** Messages *)

Record Message := mkMessage {
  sender_id : string;
  receiver_id : string;
  message_type : string;
  payload : string;
  headers : gmap string string;
  correlation_id : string
}.
Definition CTRL_MSG_PREFIX : string := "__".
Definition is_ctrl_message (ty : string) : bool := String.prefix CTRL_MSG_PREFIX ty.

(** A field of a JSON object. *)
Definition quote : string := String (Ascii.ascii_of_nat 34) "".
Definition json_field (k v : string) : string := quote +:+ k +:+ quote +:+ ":" +:+ v.
Section payloads.
Context (json_string : string → string).
Definition create_down_message (terminated : ActorId) (ref reason : string) : Message :=
  mkMessage (canonical terminated) "" "__DOWN__"
    ("{" +:+ json_field "down_from" (json_string (canonical terminated)) +:+ ","
     +:+ json_field "monitor_ref" (json_string ref) +:+ "," +:+ json_field "down_reason" (json_string reason) +:+ "}")
    (<["type" := "__DOWN__"]> (<["down_from" := canonical terminated]>
      (<["monitor_ref" := ref]> {["down_reason" := reason]}))) "".
Definition create_exit_message (from reason : string) : Message :=
  mkMessage from "" "__EXIT__"
    ("{" +:+ json_field "exit_from" (json_string from) +:+ "," +:+ json_field "exit_reason" (json_string reason) +:+ "}")
    (<["type" := "__EXIT__"]> (<["exit_from" := from]> {["exit_reason" := reason]})) "".
End payloads.
Definition create_ping_message (correlation from target : string) : Message :=
  mkMessage from target "__PING__" "" {["type" := "__PING__"]} correlation.
Definition create_pong_message (ping : Message) : Message :=
  mkMessage (receiver_id ping) (sender_id ping) "__PONG__" "" {["type" := "__PONG__"]} (correlation_id ping).

Definition is_exit (m : Message) : bool :=
  String.eqb (payload m) "__EXIT__" || String.eqb (message_type m) "__EXIT__"
  || match headers m !! "type" with Some s => String.eqb s "__EXIT__" | None => false end.
(** The sender and the reason. *)
Definition try_parse_exit (m : Message) : option (string * string) :=
  if negb (is_exit m) then None
  else Some (if String.eqb (sender_id m) "" then "unknown" else sender_id m,
             default "Normal" (headers m !! "exit_reason")).

(** [str::strip_prefix] *)
Definition strip_prefix (p s : string) : option string :=
  if String.prefix p s then Some (str_drop (String.length p) s) else None.
(** The reason of a linked actor is read from a header, with the same headers: [None] when the recursion
    goes on. *)
Fixpoint parse_exit_reason_from_str (fuel : nat) (reason : string) (md : gmap string string) : option ExitReason :=
  match fuel with
  | O => None
  | S fuel =>
      if String.eqb reason "Normal" then Some Normal
      else if String.eqb reason "Shutdown" then Some Shutdown
      else if String.eqb reason "Killed" then Some Killed
      else match strip_prefix "Error:" reason with
           | Some msg => Some (Error msg)
           | None =>
               match strip_prefix "Linked:" reason with
               | Some id =>
                   r ← parse_exit_reason_from_str fuel (default "Normal" (md !! "exit_linked_error")) md;
                   Some (Linked (match from_canonical id with Ok a => a | Err _ => unknown_linked_actor_id end) r)
               | None => Some Normal
               end
           end
  end.

(** ** The message loop *)

Inductive ExitAction := Propagate | HandleExit.
(** What the loop does on a message that it treats as an exit: it goes on, or ends with the reason that it
    stored for the watcher; [told] is what the behaviour is asked to handle, [terminated] the reason of its
    last call. *)
Inductive LoopOutcome :=
| Continue (told : option ExitReason)
| Break (told : option ExitReason) (terminated : ExitReason) (stored : option ExitReason).
Definition exit_source (from : string) : ActorId :=
  match from_canonical from with Ok a => a | Err _ => unknown_linked_actor_id end.
Definition on_exit (fuel : nat) (trap_exit : bool) (handle_exit : ActorId → ExitReason → result () ExitAction)
    (m : Message) : option LoopOutcome :=
  match try_parse_exit m with
  | None => Some (Continue None)
  | Some (from, reason_str) =>
      r ← parse_exit_reason_from_str fuel reason_str (headers m);
      Some (
        if trap_exit then
          match handle_exit (exit_source from) r with
          | Ok Propagate => Break (Some r) r (Some r)
          | Ok HandleExit => Continue (Some r)
          | Err _ => Break (Some r) r None
          end
        else
          let linked := Linked (exit_source from) r in Break None linked (Some linked))
  end.

(** ** The watcher *)

(** How the task of an actor ended. *)
Inductive JoinResult :=
| JoinOk
| JoinPanic (msg : option string)
| JoinCancelled
| JoinOther.
Inductive Lifecycle :=
| Terminated (reason : string)
| Failed (error stack_trace : string).
Definition panic_text (msg : option string) : string :=
  match msg with Some s => "panic: " +:+ s | None => "panic: unknown" end.
Definition watch_reason (res : JoinResult) (stored : option ExitReason) : string * Lifecycle :=
  match res with
  | JoinOk =>
      let reason := match stored with Some r => exit_reason_to_string r | None => "normal" end in
      (reason, Terminated reason)
  | JoinPanic msg => let m := panic_text msg in (m, Failed m ("Error: " +:+ m))
  | JoinCancelled => ("killed", Terminated "killed")
  | JoinOther => ("unknown error", Failed "unknown error" "")
  end.
Definition watch_exit_reason (reason : string) (stored : option ExitReason) : ExitReason :=
  match stored with
  | Some r => r
  | None =>
      if String.prefix "linked:" reason then from_str reason
      else if String.eqb reason "normal" then Normal
      else if String.eqb reason "shutdown" then Shutdown
      else if String.eqb reason "killed" then Killed
      else Error reason
  end.

(** ** Termination *)

(** What a termination sends: the messages, with their context and receiver, and the notifications of the
    facets of monitoring actors. *)
Inductive FacetExitReason := FacetNormal | FacetShutdown | FacetKilled | FacetErr (msg : string).
Definition facet_exit_reason (r : ExitReason) : FacetExitReason :=
  match r with
  | Normal => FacetNormal | Shutdown => FacetShutdown | Killed => FacetKilled | Error m => FacetErr m
  | Linked a r => FacetErr ("Linked: " +:+ canonical a +:+ " -> " +:+ inner_reason_to_string r)
  end.
Inductive Effect :=
| Send (ctx : RequestContext) (to : ActorId) (m : Message)
| FacetDown (monitoring monitored : ActorId) (r : FacetExitReason).

Section termination.
Context (json_string : string → string).
(** The scope of an actor without a sender that the manager of virtual actors knows. *)
Context (virtual_scope : ActorId → option (string * string)).

Definition get_actor_metadata (r : ActorRegistry) (a : ActorId) : option (string * string) :=
  match (s ← sender_of r a; t ← s_tenant s; n ← s_namespace s; Some (t, n)) with
  | Some x => Some x
  | None => virtual_scope a
  end.
Definition send_down_to_monitors (nd : Node) (a : ActorId) (reason : ExitReason) : list Effect :=
  l ← get_monitors (table nd) a;
  [Send (monitoring_context l) (monitoring_actor_id l)
     (create_down_message json_string a (monitor_ref l) (exit_reason_to_string reason));
   FacetDown (monitoring_actor_id l) a (facet_exit_reason reason)].
Definition propagate_exit_to_links (nd : Node) (a : ActorId) (reason : ExitReason) : list Effect :=
  (λ b,
    let tenant := match get_actor_metadata (registry nd) a with Some (t, _) => t | None => "system" end in
    Send (new_without_auth tenant (Identity.namespace b)) b
      (create_exit_message json_string (canonical a) (exit_reason_to_string reason)))
  <$> get_links (table nd) a.
Definition cleanup_terminated_actor_links_monitors (a : ActorId) (nd : Node) : Node :=
  set_table nd (cleanup_links_for_actor a (cleanup_monitors_for_actor a (table nd))).
Definition handle_actor_termination (a : ActorId) (reason : ExitReason) (nd : Node) : Node * list Effect :=
  let downs := send_down_to_monitors nd a reason in
  let exits := if is_error reason then propagate_exit_to_links nd a reason else [] in
  (cleanup_terminated_actor_links_monitors a nd, downs ++ exits).
(** The watcher of an actor; one that is stopped explicitly is left to the operation that stops it. *)
Definition watch_actor_termination (stopping : bool) (res : JoinResult) (stored : option ExitReason) (a : ActorId)
    (nd : Node) : Node * list Effect * option Lifecycle :=
  if stopping then (nd, [], None)
  else
    let '(reason, event) := watch_reason res stored in
    let '(nd, effects) := handle_actor_termination a (watch_exit_reason reason stored) nd in
    (set_registry nd (unregister_with_cleanup a (registry nd)), effects, Some event).
End termination.

(** ** Cascades *)

(** The exits that are under way in a cluster, and the actors that run.  The exit of an actor is treated at
    the node that it runs on; a send that fails ([reaches]) is logged and the exit is lost. *)
Record World := mkWorld { w_cluster : Cluster; w_alive : gset string; w_inbox : list (ActorId * Message) }.
Section cascade.
Context (json_string : string → string) (virtual_scope : ActorId → option (string * string)).
Context (home : string → string) (reaches : string → string → bool).
Context (traps : string → bool) (handle_exit : string → ActorId → ExitReason → result () ExitAction).

Definition exits_of (from : string) (effects : list Effect) : list (ActorId * Message) :=
  omap (λ e, match e with
             | Send _ to m => if is_exit m && reaches from (canonical to) then Some (to, m) else None
             | FacetDown _ _ _ => None
             end) effects.
Definition end_actor (a : ActorId) (res : JoinResult) (stored : option ExitReason) (w : World) : World :=
  let alive := w_alive w ∖ {[canonical a]} in
  match w_cluster w !! home (canonical a) with
  | Some nd =>
      let '(nd, effects, _) := watch_actor_termination json_string virtual_scope false res stored a nd in
      mkWorld (<[home (canonical a) := nd]> (w_cluster w)) alive (w_inbox w ++ exits_of (canonical a) effects)
  | None => mkWorld (w_cluster w) alive (w_inbox w)
  end.
Definition receive (to : ActorId) (m : Message) : option LoopOutcome :=
  on_exit 2 (traps (canonical to)) (handle_exit (canonical to)) m.
(** Some exit that is under way is delivered: to an actor that has ended, to one that goes on, and to one
    whose loop ends. *)
Inductive cascade_step (w : World) : World → Prop :=
| deliver_dead l1 to m l2 : w_inbox w = l1 ++ (to, m) :: l2 → canonical to ∉ w_alive w →
    cascade_step w (mkWorld (w_cluster w) (w_alive w) (l1 ++ l2))
| deliver_continue l1 to m l2 told : w_inbox w = l1 ++ (to, m) :: l2 → canonical to ∈ w_alive w →
    receive to m = Some (Continue told) →
    cascade_step w (mkWorld (w_cluster w) (w_alive w) (l1 ++ l2))
| deliver_break l1 to m l2 told last stored : w_inbox w = l1 ++ (to, m) :: l2 → canonical to ∈ w_alive w →
    receive to m = Some (Break told last stored) →
    cascade_step w (end_actor to JoinOk stored (mkWorld (w_cluster w) (w_alive w) (l1 ++ l2))).

(** An actor panics. *)
Definition crash (root : ActorId) (msg : option string) (c : Cluster) (alive : gset string) : World :=
  end_actor root (JoinPanic msg) None (mkWorld c alive []).

(** Who ends: the actor that crashed, and along the links every actor that does not trap exits. *)
Definition edge (c : Cluster) (x y : string) : Prop := linked_at (home x) c x y ∧ reaches x y = true.
Inductive doomed (c : Cluster) (alive : gset string) (root : string) : string → Prop :=
| doomed_root : doomed c alive root root
| doomed_link x y : doomed c alive root x → edge c x y → y ∈ alive → traps y = false → doomed c alive root y.
End cascade.

(** ** Lemmas: reasons *)

Lemma strip_prefix_spec p s r : strip_prefix p s = Some r → s = p +:+ r.
Proof. unfold strip_prefix. destruct (String.prefix p s) eqn:Hp; [|done]. intros [= <-]. by apply prefix_spec. Qed.
Lemma parse_linked fuel reason id md : strip_prefix "Linked:" reason = Some id →
  parse_exit_reason_from_str (S fuel) reason md =
  (r ← parse_exit_reason_from_str fuel (default "Normal" (md !! "exit_linked_error")) md;
   Some (Linked (match from_canonical id with Ok a => a | Err _ => unknown_linked_actor_id end) r)).
Proof. intros ->%strip_prefix_spec. cbn. by destruct id. Qed.
Lemma parse_plain fuel reason md : strip_prefix "Linked:" reason = None →
  parse_exit_reason_from_str (S fuel) reason md ≠ None.
Proof.
  intros Hs. cbn [parse_exit_reason_from_str]. rewrite Hs. repeat case_match; done.
Qed.
Lemma parse_loops reason id md id' : strip_prefix "Linked:" reason = Some id →
  strip_prefix "Linked:" (default "Normal" (md !! "exit_linked_error")) = Some id' →
  ∀ fuel, parse_exit_reason_from_str fuel reason md = None.
Proof.
  intros Hr Hd fuel. revert reason id Hr. induction fuel as [|fuel IH]; [done|]. intros reason id Hr.
  rewrite (parse_linked _ _ _ _ Hr), (IH _ _ Hd). done.
Qed.

Lemma panic_plain msg :
  is_error (watch_exit_reason (panic_text msg) None) = true ∧
  exit_reason_to_string (watch_exit_reason (panic_text msg) None) = panic_text msg ∧
  ∀ md, parse_exit_reason_from_str 1 (panic_text msg) md = Some Normal.
Proof. destruct msg; done. Qed.
Lemma linked_plain a r md :
  parse_exit_reason_from_str 1 (exit_reason_to_string (Linked a r)) md = Some Normal.
Proof. done. Qed.

(** ** Lemmas: what a termination sends *)

Definition exits (effects : list Effect) : list (ActorId * Message) :=
  omap (λ e, match e with Send _ to m => if is_exit m then Some (to, m) else None | FacetDown _ _ _ => None end) effects.
Definition downs (effects : list Effect) : list (ActorId * Message) :=
  omap (λ e, match e with
             | Send _ to m => if String.eqb (message_type m) "__DOWN__" then Some (to, m) else None
             | FacetDown _ _ _ => None
             end) effects.

Section sent.
Context (json_string : string → string) (virtual_scope : ActorId → option (string * string)).

Lemma is_exit_down a ref reason : is_exit (create_down_message json_string a ref reason) = false.
Proof.
  unfold is_exit, create_down_message. cbn [payload message_type headers]. rewrite lookup_insert_eq. done.
Qed.
Lemma is_exit_exit from reason : is_exit (create_exit_message json_string from reason) = true.
Proof. unfold is_exit. apply orb_true_iff. left. apply orb_true_iff. by right. Qed.
Lemma exit_reason_header from reason :
  headers (create_exit_message json_string from reason) !! "exit_reason" = Some reason.
Proof. cbn. by rewrite !lookup_insert_ne, lookup_singleton_eq by done. Qed.
Lemma exit_linked_header from reason :
  headers (create_exit_message json_string from reason) !! "exit_linked_error" = None.
Proof. cbn. by rewrite !lookup_insert_ne, lookup_singleton_ne by done. Qed.

Lemma exits_of_downs nd a r : exits (send_down_to_monitors json_string nd a r) = [].
Proof.
  unfold send_down_to_monitors. induction (get_monitors (table nd) a) as [|l ls IH]; [done|].
  cbn [mbind list_bind]. unfold exits in *. rewrite omap_app. cbn [omap list_omap]. rewrite is_exit_down. exact IH.
Qed.
Lemma exits_of_links nd a r : exits (propagate_exit_to_links json_string virtual_scope nd a r) =
  (λ b, (b, create_exit_message json_string (canonical a) (exit_reason_to_string r))) <$> get_links (table nd) a.
Proof.
  unfold propagate_exit_to_links. induction (get_links (table nd) a) as [|b bs IH]; [done|].
  cbn [fmap list_fmap exits omap list_omap]. rewrite is_exit_exit. f_equal. exact IH.
Qed.
Lemma exits_of_termination nd a r :
  exits (handle_actor_termination json_string virtual_scope a r nd).2 =
  if is_error r
  then (λ b, (b, create_exit_message json_string (canonical a) (exit_reason_to_string r))) <$> get_links (table nd) a
  else [].
Proof.
  unfold handle_actor_termination. cbn [snd]. unfold exits. rewrite omap_app. fold (exits (send_down_to_monitors json_string nd a r)).
  rewrite exits_of_downs. destruct (is_error r); [apply exits_of_links|done].
Qed.
Lemma downs_of_links nd a r : downs (propagate_exit_to_links json_string virtual_scope nd a r) = [].
Proof.
  unfold propagate_exit_to_links. induction (get_links (table nd) a) as [|b bs IH]; [done|]. exact IH.
Qed.
Lemma downs_of_downs nd a r : downs (send_down_to_monitors json_string nd a r) =
  (λ l, (monitoring_actor_id l, create_down_message json_string a (monitor_ref l) (exit_reason_to_string r)))
  <$> get_monitors (table nd) a.
Proof.
  unfold send_down_to_monitors. induction (get_monitors (table nd) a) as [|l ls IH]; [done|].
  cbn [mbind list_bind]. unfold downs in *. rewrite omap_app. cbn [omap list_omap fmap list_fmap app]. by rewrite IH.
Qed.
End sent.

Lemma get_monitors_cleanup a b m : canonical b ≠ canonical a →
  get_monitors (cleanup_monitors_for_actor a m) b = List.filter (not_by a) (get_monitors m b).
Proof.
  intros Hb. unfold get_monitors, cleanup_monitors_for_actor. cbn. rewrite lookup_omap, lookup_delete_ne by done.
  destruct (monitors m !! canonical b) as [[t l]|]; [|done]. cbn. by destruct (List.filter (not_by a) l).
Qed.
Lemma get_monitors_cleanup_self a b m : canonical b = canonical a → get_monitors (cleanup_monitors_for_actor a m) b = [].
Proof.
  intros Hb. unfold get_monitors, cleanup_monitors_for_actor. cbn. by rewrite lookup_omap, Hb, lookup_delete_eq.
Qed.

(** ** Lemmas: what a linked actor is told *)

(** The reasons with which crashes travel: that of a panic, and those of the actors that end with it. *)
Definition crash_reason (r : ExitReason) : Prop :=
  (∃ msg, r = watch_exit_reason (panic_text msg) None) ∨ ∃ a r', r = Linked a r'.

Section told.
Context (json_string : string → string) (virtual_scope : ActorId → option (string * string)).

Lemma crash_is_error r : crash_reason r → is_error r = true.
Proof. intros [(msg & ->)|(a & r' & ->)]; [apply panic_plain|done]. Qed.
Lemma on_exit_crash trap h from r : crash_reason r →
  ∃ source, on_exit 2 trap h (create_exit_message json_string from (exit_reason_to_string r)) = Some (
    if trap then
      match h source Normal with
      | Ok Propagate => Break (Some Normal) Normal (Some Normal)
      | Ok HandleExit => Continue (Some Normal)
      | Err _ => Break (Some Normal) Normal None
      end
    else Break None (Linked source Normal) (Some (Linked source Normal))).
Proof.
  intros Hr. unfold on_exit, try_parse_exit. rewrite is_exit_exit. cbn [negb].
  rewrite exit_reason_header. cbn [default]. eexists.
  assert (∀ md, parse_exit_reason_from_str 2 (exit_reason_to_string r) md = Some Normal) as ->.
  { intros md. destruct Hr as [([msg|] & ->)|(a & r' & ->)]; done. }
  cbn. done.
Qed.
Lemma watch_ok stored a nd :
  exits (watch_actor_termination json_string virtual_scope false JoinOk stored a nd).1.2 =
  exits (handle_actor_termination json_string virtual_scope a (default Normal stored) nd).2.
Proof. unfold watch_actor_termination. destruct stored; done. Qed.
Lemma watch_no_error stored a nd : is_error (default Normal stored) = false →
  exits (watch_actor_termination json_string virtual_scope false JoinOk stored a nd).1.2 = [].
Proof. intros Hs. by rewrite watch_ok, exits_of_termination, Hs. Qed.
End told.

(** ** Lemmas: cascades *)

Section cascade_lemmas.
Context (json_string : string → string) (virtual_scope : ActorId → option (string * string)).
Context (home : string → string) (reaches : string → string → bool).
Context (traps : string → bool) (handle_exit : string → ActorId → ExitReason → result () ExitAction).
#[local] Abbreviation end_actor := (end_actor json_string virtual_scope home reaches).
#[local] Abbreviation step := (cascade_step json_string virtual_scope home reaches traps handle_exit).

Lemma elem_of_exits_of from effects to m :
  (to, m) ∈ exits_of reaches from effects ↔ (to, m) ∈ exits effects ∧ reaches from (canonical to) = true.
Proof.
  induction effects as [|e effects IH]; [split; [by intros ?%not_elem_of_nil|by intros [?%not_elem_of_nil _]]|].
  unfold exits_of, exits in *. destruct e as [ctx to' m'|? ? ?]; [|exact IH]. cbn [omap list_omap].
  destruct (is_exit m') eqn:He; cbn [andb]; [|exact IH].
  destruct (reaches from (canonical to')) eqn:Hr; rewrite ?elem_of_cons, IH; split.
  - intros [[= -> ->]|[? ?]]; auto.
  - intros [[[= -> ->]|?] ?]; auto.
  - intros [? ?]; auto.
  - intros [[[= -> ->]|?] ?]; [congruence|auto].
Qed.

(** The end of an actor with a reason [r]. *)
Lemma end_actor_spec a res stored w : let r := watch_exit_reason (watch_reason res stored).1 stored in
  let w' := end_actor a res stored w in
  w_alive w' = w_alive w ∖ {[canonical a]} ∧
  (∀ n x y, linked_at n (w_cluster w') x y ↔
     linked_at n (w_cluster w) x y ∧ (n = home (canonical a) → x ≠ canonical a ∧ y ≠ canonical a)) ∧
  ∃ sent, w_inbox w' = w_inbox w ++ sent ∧
    (∀ to m, (to, m) ∈ sent → is_error r = true ∧ edge home reaches (w_cluster w) (canonical a) (canonical to) ∧
       m = create_exit_message json_string (canonical a) (exit_reason_to_string r)) ∧
    (∀ y, is_error r = true → edge home reaches (w_cluster w) (canonical a) y → ∃ to m, canonical to = y ∧ (to, m) ∈ sent).
Proof.
  cbv zeta. set (r := watch_exit_reason _ _). unfold Exits.end_actor.
  destruct (w_cluster w !! home (canonical a)) as [nd|] eqn:Hn.
  - unfold watch_actor_termination. destruct (watch_reason res stored) as [reason event] eqn:Hw.
    change (watch_exit_reason reason stored) with r in *.
    pose proof (exits_of_termination json_string virtual_scope nd a r) as He.
    destruct (handle_actor_termination json_string virtual_scope a r nd) as [nd' effects] eqn:Ht. cbn [snd] in He.
    injection Ht as <- _. cbn [w_alive w_cluster w_inbox]. split; [done|]. split.
    + intros n x y. unfold linked_at. destruct (decide (n = home (canonical a))) as [->|Hne].
      * rewrite lookup_insert_eq, Hn. split.
        -- intros (? & [= <-] & Hl%(linked_cleanup a)). naive_solver.
        -- intros ((? & [= <-] & Hl) & Hxy). eexists. split; [done|]. apply (linked_cleanup a). naive_solver.
      * rewrite lookup_insert_ne by done. naive_solver.
    + eexists. split; [done|]. split.
      * intros to m [Hin Hr]%elem_of_exits_of. rewrite He in Hin. destruct (is_error r); [|by apply not_elem_of_nil in Hin].
        apply list_elem_of_fmap in Hin as (b & [= -> ->] & Hb). split_and!; [done| |done]. split; [|done].
        exists nd. split; [done|]. apply get_links_spec. apply elem_of_ids. by exists b.
      * intros y Hr [(nd' & Hn' & Hl) Hre]. rewrite Hn in Hn'. injection Hn' as <-.
        apply get_links_spec, elem_of_ids in Hl as (b & Hb & <-). exists b. eexists. split; [done|].
        apply elem_of_exits_of. split; [|done]. rewrite He, Hr. apply list_elem_of_fmap. by exists b.
  - cbn. split; [done|]. split.
    + intros n x y. split; [|naive_solver]. intros Hl. split; [done|]. intros ->. destruct Hl as (nd & Hnd & _). congruence.
    + exists []. rewrite app_nil_r. split; [done|]. split; [by intros ? ? ?%not_elem_of_nil|].
      intros y _ [(nd & Hnd & _) _]. congruence.
Qed.

Section run.
Context (c0 : Cluster) (alive0 : gset string) (root : string).
#[local] Abbreviation doomed := (doomed home reaches traps c0 alive0 root).
#[local] Abbreviation edge := (edge home reaches).

(** What holds while the exits of a crash are under way. *)
Record cascade_inv (w : World) : Prop := mkInv {
  inv_alive : w_alive w ⊆ alive0;
  inv_root : root ∉ w_alive w;
  inv_dead x : x ∈ alive0 → x ∉ w_alive w → x = root ∨ traps x = false → doomed x;
  inv_inbox to m : (to, m) ∈ w_inbox w →
    ∃ x r, doomed x ∧ edge c0 x (canonical to) ∧ crash_reason r ∧
      m = create_exit_message json_string x (exit_reason_to_string r);
  inv_sent x y : doomed x → x ∉ w_alive w → edge c0 x y → y ∈ alive0 → traps y = false →
    y ∉ w_alive w ∨ ∃ to m, canonical to = y ∧ (to, m) ∈ w_inbox w;
  inv_links n x y : linked_at n (w_cluster w) x y → linked_at n c0 x y;
  inv_kept x y : x ∈ w_alive w → y ∈ w_alive w → linked_at (home x) c0 x y → linked_at (home x) (w_cluster w) x y;
  inv_handles y : y ∈ alive0 → y ≠ root → traps y = true →
    (∀ source, handle_exit y source Normal = Ok HandleExit) → y ∈ w_alive w
}.

Lemma doomed_traps x : doomed x → x = root ∨ traps x = false.
Proof. intros [|]; auto. Qed.

(** An actor ends, by the crash or by an exit that reached it. *)
Lemma end_actor_inv a res stored w : canonical a ∈ alive0 →
  let r := watch_exit_reason (watch_reason res stored).1 stored in
  (canonical a = root ∨ traps (canonical a) = false → doomed (canonical a) ∧ crash_reason r) →
  (¬ (canonical a = root ∨ traps (canonical a) = false) → is_error r = false ∧
     ¬ ∀ source, handle_exit (canonical a) source Normal = Ok HandleExit) →
  (canonical a ≠ root → root ∉ w_alive w) →
  w_alive w ⊆ alive0 →
  (∀ x, x ∈ alive0 → x ∉ w_alive w → x = root ∨ traps x = false → doomed x) →
  (∀ to m, (to, m) ∈ w_inbox w →
    ∃ x r, doomed x ∧ edge c0 x (canonical to) ∧ crash_reason r ∧
      m = create_exit_message json_string x (exit_reason_to_string r)) →
  (∀ x y, doomed x → x ∉ w_alive w → edge c0 x y → y ∈ alive0 → traps y = false → y ≠ canonical a →
    y ∉ w_alive w ∨ ∃ to m, canonical to = y ∧ (to, m) ∈ w_inbox w) →
  (∀ n x y, linked_at n (w_cluster w) x y → linked_at n c0 x y) →
  (∀ x y, (x ∈ w_alive w ∨ x = canonical a) → y ∈ w_alive w → linked_at (home x) c0 x y → linked_at (home x) (w_cluster w) x y) →
  (∀ y, y ∈ alive0 → y ≠ root → traps y = true → (∀ source, handle_exit y source Normal = Ok HandleExit) →
    y ∈ w_alive w) →
  cascade_inv (end_actor a res stored w).
Proof.
  intros Ha0 r Hdoom Hsilent Hroot Hsub Hdead Hinbox Hsent Hlinks Hkept Hhandles.
  destruct (end_actor_spec a res stored w) as (Hal & Hl & sent & Hi & Hs1 & Hs2). fold r in Hs1, Hs2.
  split; rewrite ?Hal, ?Hi.
  - set_solver.
  - destruct (decide (canonical a = root)) as [<-|Hne]; [set_solver|]. specialize (Hroot Hne). set_solver.
  - intros x Hx Hnx Hxt. destruct (decide (x = canonical a)) as [->|Hne]; [by apply Hdoom|]. apply Hdead; set_solver.
  - intros to m [Hm|Hm]%elem_of_app; [by apply Hinbox|].
    destruct (Hs1 _ _ Hm) as (Hr & [He1 He2] & ->). exists (canonical a), r.
    destruct (decide (canonical a = root ∨ traps (canonical a) = false)) as [Hd|Hd].
    + destruct (Hdoom Hd). split_and!; try done. split; [by apply Hlinks|done].
    + destruct (Hsilent Hd) as [Hf _]. congruence.
  - intros x y Hx Hnx He Hy Hyt. destruct (decide (y = canonical a)) as [->|Hya]; [left; set_solver|].
    destruct (decide (y ∈ w_alive w)) as [Hyal|Hyal]; [|left; set_solver].
    destruct (decide (x = canonical a)) as [->|Hxa].
    + right. destruct (Hdoom (doomed_traps _ Hx)) as [_ Hr%crash_is_error].
      destruct (Hs2 y Hr) as (to & m & Hto & Hm).
      { destruct He as [He1 He2]. split; [|done]. apply Hkept; auto. }
      exists to, m. split; [done|]. apply elem_of_app. by right.
    + destruct (Hsent x y) as [?|(to & m & Hto & Hm)]; try done; [set_solver|].
      right. exists to, m. split; [done|]. apply elem_of_app. by left.
  - intros n x y [H _]%Hl. by apply Hlinks.
  - intros x y Hx Hy He. apply Hl. split; [|set_solver]. apply Hkept; [set_solver|set_solver|done].
  - intros y Hy Hyr Hyt Hh. apply elem_of_difference. split; [by apply Hhandles|].
    intros ->%elem_of_singleton. apply Hsilent; [|done]. intros [?|?]; congruence.
Qed.

Lemma elem_of_middle {A} (x y : A) l1 l2 : x ∈ l1 ++ y :: l2 → x = y ∨ x ∈ l1 ++ l2.
Proof. rewrite !elem_of_app, elem_of_cons. tauto. Qed.
Lemma middle_elem_of {A} (x y : A) l1 l2 : x ∈ l1 ++ l2 → x ∈ l1 ++ y :: l2.
Proof. rewrite !elem_of_app, elem_of_cons. tauto. Qed.

(** The outcome of an exit that is under way. *)
Lemma inv_receive w to m : cascade_inv w → (to, m) ∈ w_inbox w →
  ∃ source, receive traps handle_exit to m = Some (
    if traps (canonical to) then
      match handle_exit (canonical to) source Normal with
      | Ok Propagate => Break (Some Normal) Normal (Some Normal)
      | Ok HandleExit => Continue (Some Normal)
      | Err _ => Break (Some Normal) Normal None
      end
    else Break None (Linked source Normal) (Some (Linked source Normal))).
Proof.
  intros Hw Hin. destruct (inv_inbox w Hw _ _ Hin) as (x & r & _ & _ & Hr & ->). unfold receive.
  by apply on_exit_crash.
Qed.
Lemma drop_inv w l1 to m l2 : cascade_inv w → w_inbox w = l1 ++ (to, m) :: l2 →
  (canonical to ∈ w_alive w → traps (canonical to) = true) →
  cascade_inv (mkWorld (w_cluster w) (w_alive w) (l1 ++ l2)).
Proof.
  intros [Hal Hroot Hdead Hinbox Hsent Hlinks Hkept Hhandles] Hi Ht. split; try done.
  - intros to' m' Hm. apply Hinbox. rewrite Hi. by apply middle_elem_of.
  - intros x y Hx Hnx He Hy Hyt. destruct (Hsent x y) as [?|(to' & m' & Hto & Hm)]; try done; [by left|].
    rewrite Hi in Hm. apply elem_of_middle in Hm as [[= -> ->]|Hm]; [|right; by exists to', m'].
    left. intros Hy'. subst y. rewrite Ht in Hyt; done.
Qed.
Lemma step_inv w w' : cascade_inv w → step w w' → cascade_inv w'.
Proof.
  intros Hw Hs. destruct Hs as [l1 to m l2 Hi Hd|l1 to m l2 told Hi Hal Hr|l1 to m l2 told last stored Hi Hal Hr].
  - by eapply drop_inv.
  - eapply drop_inv; [done..|]. intros _. destruct (inv_receive w to m Hw) as (source & He).
    { rewrite Hi. apply elem_of_app. right. left. }
    destruct (traps (canonical to)); [done|]. congruence.
  - assert ((to, m) ∈ w_inbox w) as Hin by (rewrite Hi; apply elem_of_app; right; left).
    destruct (inv_receive w to m Hw Hin) as (source & He). rewrite Hr in He.
    destruct (inv_inbox w Hw _ _ Hin) as (x & r & Hx & Hedge & _ & _).
    pose proof (inv_root w Hw) as Hroot.
    assert (canonical to ≠ root) as Hne by congruence.
    destruct Hw as [Hal0 _ Hdead Hinbox Hsent Hlinks Hkept Hhandles].
    apply end_actor_inv; cbn [w_alive w_cluster w_inbox]; try done.
    + by apply Hal0.
    + intros [?|Hnt]; [done|]. rewrite Hnt in He. injection He as -> -> ->. split; [|right; by eexists _, _].
      eapply doomed_link; try done. by apply Hal0.
    + intros Hnt. destruct (traps (canonical to)) eqn:Ht; [|exfalso; apply Hnt; auto].
      destruct (handle_exit (canonical to) source Normal) as [[]|] eqn:Hh; simplify_eq; split; try done; intros Hall;
        specialize (Hall source); congruence.
    + intros to' m' Hm. apply Hinbox. rewrite Hi. by apply middle_elem_of.
    + intros x' y Hx' Hnx He' Hy Hyt Hyto. destruct (Hsent x' y) as [?|(to' & m' & Hto & Hm)]; try done; [by left|].
      rewrite Hi in Hm. apply elem_of_middle in Hm as [[= -> ->]|Hm]; [done|right; by exists to', m'].
    + intros x' y [Hx'| ->] Hy He'; by apply Hkept.
Qed.
Lemma quiet_inv w : cascade_inv w → (∀ w', ¬ step w w') →
  (∀ y, y ∈ alive0 → y = root ∨ traps y = false → y ∉ w_alive w ↔ doomed y).
Proof.
  intros Hw Hq. assert (w_inbox w = []) as Hi.
  { destruct (w_inbox w) as [|[to m] l] eqn:Hi; [done|]. exfalso.
    destruct (inv_receive w to m Hw) as (source & He); [rewrite Hi; left|].
    destruct (decide (canonical to ∈ w_alive w)) as [Hal|Hal].
    - destruct (receive traps handle_exit to m) as [[told|told last stored]|] eqn:Hr; [| |done].
      + by eapply Hq, (deliver_continue _ _ _ _ _ _ _ [] to m l told).
      + by eapply Hq, (deliver_break _ _ _ _ _ _ _ [] to m l told last stored).
    - by eapply Hq, (deliver_dead _ _ _ _ _ _ _ [] to m l). }
  intros y Hy Hyt. split; [intros Hny; by apply (inv_dead w Hw)|].
  induction 1 as [|x y Hx IH He Hya Hyf]; [apply (inv_root w Hw)|].
  destruct (inv_sent w Hw x y) as [?|(to & m & _ & Hm)]; try done.
  - destruct (decide (x = root)) as [->|Hne]; [apply (inv_root w Hw)|].
    apply IH; [|by apply doomed_traps]. by inversion Hx.
  - rewrite Hi in Hm. by apply not_elem_of_nil in Hm.
Qed.
End run.

Lemma step_ends w : Acc (λ w' w, step w w') w.
Proof.
  remember (size (w_alive w)) as k eqn:Hk. revert w Hk. induction (lt_wf k) as [k _ IHk]. intros w ->.
  remember (length (w_inbox w)) as n eqn:Hn. revert w IHk Hn. induction (lt_wf n) as [n _ IHn]. intros w IHk ->.
  assert (∀ c l1 x l2, w_inbox w = l1 ++ x :: l2 → Acc (λ w' w, step w w') (mkWorld c (w_alive w) (l1 ++ l2))) as Hdrop.
  { intros c l1 x l2 Hi. apply (IHn (length (l1 ++ l2))); [|exact IHk|done]. rewrite Hi, !length_app. cbn. lia. }
  constructor. intros w' [l1 to m l2 Hi Hd|l1 to m l2 told Hi Hal Hr|l1 to m l2 told last stored Hi Hal Hr]; [by eapply Hdrop..|].
  destruct (end_actor_spec to JoinOk stored (mkWorld (w_cluster w) (w_alive w) (l1 ++ l2))) as (Hal' & _).
  eapply IHk; [|done]. rewrite Hal'. cbn. apply subset_size. set_solver.
Qed.
End cascade_lemmas.

(** ** Properties *)

(** C26. A termination tells every monitor of the actor once, in the order of registration, with its reference;
    sends an exit to every linked actor when the reason is an error, and to none otherwise; and afterwards
    the node has no monitor and no link of the actor, in either direction, and every other one. *)
Theorem termination_notifies_and_forgets json vs a r nd :
  let '(nd', effects) := handle_actor_termination json vs a r nd in
  downs effects = (λ l, (monitoring_actor_id l, create_down_message json a (monitor_ref l) (exit_reason_to_string r)))
    <$> get_monitors (table nd) a ∧
  exits effects = (if is_error r
    then (λ b, (b, create_exit_message json (canonical a) (exit_reason_to_string r))) <$> get_links (table nd) a
    else []) ∧
  (∀ b, get_monitors (table nd') b =
    if String.eqb (canonical b) (canonical a) then [] else List.filter (not_by a) (get_monitors (table nd) b)) ∧
  ∀ x y, linked (table nd') x y ↔ linked (table nd) x y ∧ x ≠ canonical a ∧ y ≠ canonical a.
Proof.
  destruct (handle_actor_termination json vs a r nd) as [nd' effects] eqn:Ht.
  pose proof (exits_of_termination json vs nd a r) as He. rewrite Ht in He.
  unfold handle_actor_termination in Ht. injection Ht as <- <-. split_and!; [|exact He| |].
  - unfold downs. rewrite omap_app. fold (downs (send_down_to_monitors json nd a r)). rewrite downs_of_downs.
    destruct (is_error r); cbn [omap list_omap]; [|apply app_nil_r].
    fold (downs (propagate_exit_to_links json vs nd a r)). by rewrite downs_of_links, app_nil_r.
  - intros b. destruct (String.eqb_spec (canonical b) (canonical a)) as [Hb|Hb].
    + by apply get_monitors_cleanup_self.
    + by apply get_monitors_cleanup.
  - intros x y. apply (linked_cleanup a (cleanup_monitors_for_actor a (table nd))).
Qed.

(** A message that calls itself an exit is read, with no more than two rounds, unless its reason and its
    header for the reason of the linked actor both begin with [Linked:]; then the reading of the reason
    never ends. *)
Theorem crafted_exit_is_never_read m trap h : is_exit m = true →
  let linked s := is_Some (strip_prefix "Linked:" s) in
  let reason := default "Normal" (headers m !! "exit_reason") in
  let inner := default "Normal" (headers m !! "exit_linked_error") in
  (linked reason ∧ linked inner → ∀ fuel, on_exit fuel trap h m = None) ∧
  (¬ (linked reason ∧ linked inner) → ∀ fuel, (2 ≤ fuel)%nat → on_exit fuel trap h m ≠ None).
Proof.
  intros He linked reason inner. subst linked. cbn beta. unfold on_exit, try_parse_exit. rewrite He. cbn [negb]. fold reason. split.
  - intros [[id Hr] [id' Hi]] fuel. by rewrite (parse_loops reason id _ id').
  - intros Hn [|[|fuel]] Hle; [lia..|].
    assert (parse_exit_reason_from_str (S (S fuel)) reason (headers m) ≠ None) as Hp.
    { destruct (strip_prefix "Linked:" reason) as [id|] eqn:Hr; [|by apply parse_plain].
      rewrite (parse_linked _ _ _ _ Hr). fold inner.
      destruct (parse_exit_reason_from_str (S fuel) inner (headers m)) eqn:Hi; [done|].
      apply parse_plain in Hi; [done|]. apply eq_None_not_Some. intros Hi'. apply Hn. split; [by eexists|done]. }
    destruct (parse_exit_reason_from_str _ _ _); [|done]. cbn. destruct trap; [destruct (h _ _) as [[]|]|]; done.
Qed.

(** Of a crash that reaches it over a link, an actor that traps exits is always told that the other ended
    normally; and when it asks to propagate the exit, or fails to handle it, it ends without an exit to
    any actor that it is linked to. *)
Theorem propagation_ends_at_trapping_actor json vs h from r : crash_reason r →
  match on_exit 2 true h (create_exit_message json from (exit_reason_to_string r)) with
  | None => False
  | Some (Continue told) => told = Some Normal
  | Some (Break told _ stored) =>
      told = Some Normal ∧ ∀ b nd, exits (watch_actor_termination json vs false JoinOk stored b nd).1.2 = []
  end.
Proof.
  intros Hr. destruct (on_exit_crash json true h from r Hr) as (source & ->).
  destruct (h source Normal) as [[]|]; [split; [done|]|done|split; [done|]]; intros b nd; by apply watch_no_error.
Qed.

(** C12. The exits of a crash come to an end, in whatever order they are delivered; and then exactly those
    actors have ended, of the ones that do not trap exits, that can be reached from the crash over links
    between such actors.  An actor that traps exits and handles them still runs. *)
Theorem cascade_ends_the_doomed json vs home reaches traps h c alive root msg : canonical root ∈ alive →
  let step := cascade_step json vs home reaches traps h in
  let w0 := crash json vs home reaches root msg c alive in
  Acc (λ w' w, step w w') w0 ∧
  ∀ w, rtc step w0 w → (∀ w', ¬ step w w') →
    (∀ y, y ∈ alive → y = canonical root ∨ traps y = false →
       y ∉ w_alive w ↔ doomed home reaches traps c alive (canonical root) y) ∧
    (∀ y, y ∈ alive → y ≠ canonical root → traps y = true → (∀ source, h y source Normal = Ok HandleExit) →
       y ∈ w_alive w).
Proof.
  intros Hroot step w0. split; [apply step_ends|]. intros w Hsteps Hq.
  assert (cascade_inv json home reaches traps h c alive (canonical root) w) as Hw.
  { assert (cascade_inv json home reaches traps h c alive (canonical root) w0) as H0.
    - apply end_actor_inv; cbn [w_alive w_cluster w_inbox]; try done.
      + intros _. split; [apply doomed_root|]. left. by exists msg.
      + intros Hn. exfalso. apply Hn. by left.
      + by intros to m ?%not_elem_of_nil.
      + intros x y Hx Hnx. exfalso. apply Hnx. by inversion Hx.
    - clear Hq. induction Hsteps as [|w1 w2 w3 Hs _ IH]; [done|]. apply IH. by eapply step_inv. }
  split; [by apply (quiet_inv json vs home reaches traps h c alive (canonical root))|]. apply (inv_handles _ _ _ _ _ _ _ _ _ Hw).
Qed.

(** ** Witnesses *)

Module Sample.
Import Links.Sample.
Definition bob : ActorId := mkActorId "bob//w::ns@n1" "bob" "w" "ns" "n1".
Definition text (s : string) : string := s.
Definition no_scope (a : ActorId) : option (string * string) := None.
Definition one : Cluster :=
  {["n1" := set_table (node (with_actor bob 2 (with_actor ann 1 (registry_new "n1"))))
              (table_exec monitor_new (AddLink ann bob))]}.
Definition at_n1 (x : string) : string := "n1".
Definition reached (x y : string) : bool := true.
Definition no_traps (x : string) : bool := false.
Definition asks (x : string) (from : ActorId) (r : ExitReason) : result () ExitAction := Ok Propagate.
Definition running : gset string := {[canonical ann; canonical bob]}.
Definition crashed : World := crash text no_scope at_n1 reached ann (Some "boom") one running.
Definition last : World :=
  match w_inbox crashed with
  | (to, m) :: l =>
      end_actor text no_scope at_n1 reached to JoinOk (Some (Linked ann Normal)) (mkWorld (w_cluster crashed) (w_alive crashed) l)
  | [] => crashed
  end.
End Sample.
Import Sample Links.Sample.

Lemma cascade_ends_the_doomed_witness : canonical bob ∉ w_alive last.
Proof.
  destruct (cascade_ends_the_doomed text no_scope at_n1 reached no_traps asks one running ann (Some "boom")) as [_ H];
    [vm_compute; reflexivity|].
  destruct (H last) as [Hd _].
  - eapply rtc_l; [|apply rtc_refl].
    apply (deliver_break text no_scope at_n1 reached no_traps asks crashed [] bob
      (create_exit_message text (canonical ann) "panic: boom") [] None (Linked ann Normal) (Some (Linked ann Normal)));
      vm_compute; reflexivity.
  - intros w' Hs. assert (w_inbox last = []) as Hi by (vm_compute; reflexivity).
    destruct Hs as [l1 to m l2 Hl|l1 to m l2 told Hl|l1 to m l2 told r stored Hl]; rewrite Hi in Hl; by destruct l1.
  - apply Hd; [vm_compute; reflexivity|by right|].
    eapply doomed_link; [apply doomed_root| |vm_compute; reflexivity|reflexivity].
    split; [|reflexivity]. eexists. split; [vm_compute; reflexivity|]. exists [bob].
    split; [vm_compute; reflexivity|left].
Defined.

Lemma crafted_exit_is_never_read_witness :
  let m := mkMessage "x" "" "call" ""
    (<["type" := "__EXIT__"]> (<["exit_reason" := "Linked:x"]> {["exit_linked_error" := "Linked:x"]})) "" in
  ∀ fuel, on_exit fuel true (asks "ann") m = None.
Proof.
  intros m. apply (crafted_exit_is_never_read m true (asks "ann")); [vm_compute; reflexivity|].
  split; vm_compute; eexists; reflexivity.
Defined.

Lemma propagation_ends_at_trapping_actor_witness :
  ∃ stored, on_exit 2 true (asks "bob") (create_exit_message text (canonical ann) "panic: boom")
    = Some (Break (Some Normal) Normal stored) ∧
    ∀ b nd, exits (watch_actor_termination text no_scope false JoinOk stored b nd).1.2 = [].
Proof.
  pose proof (propagation_ends_at_trapping_actor text no_scope (asks "bob") (canonical ann) (Error "panic: boom")) as H.
  assert (crash_reason (Error "panic: boom")) as Hr by (left; by exists (Some "boom")).
  specialize (H Hr). exists (Some Normal).
  change (exit_reason_to_string (Error "panic: boom")) with "panic: boom" in H.
  assert (on_exit 2 true (asks "bob") (create_exit_message text (canonical ann) "panic: boom")
    = Some (Break (Some Normal) Normal (Some Normal))) as He by (vm_compute; reflexivity).
  rewrite He in H. split; [exact He|apply H].
Defined.

(** An actor that is killed takes no linked actor with it. *)
Example killed_alone :
  let nd := set_table (node (registry_new "n1")) (table_exec monitor_new (AddLink ann bob)) in
  exits (watch_actor_termination text no_scope false JoinCancelled None ann nd).1.2 = [].
Proof. vm_compute. reflexivity. Qed.
(** A monitor that is registered after the monitors were told, and before the clean-up, is never told. *)
Example late_monitor_is_lost :
  let nd := node (with_actor ann 1 (registry_new "n1")) in
  let told := downs (send_down_to_monitors text nd ann Normal) in
  let r := Sample.monitor up 1 "m1" "n1" ctx ann bob {["n1" := nd]} in
  let c := cluster_after ∅ r in
  (snd <$> r) = Some (Ok "m1") ∧ told = [] ∧
  match c !! "n1" with
  | Some nd => get_monitors (table (cleanup_terminated_actor_links_monitors ann nd)) ann = []
  | None => False
  end.
Proof. vm_compute. done. Qed.
(** The end of an actor leaves its links on other nodes: the crash of a peer there ends a later actor of the
    same identity, which nobody linked. *)
Example stale_link_ends_a_successor :
  let c := after (Sample.link up 4 "n1" ctx ann dan pair) in
  match c !! "n1", c !! "n2" with
  | Some n1, Some n2 =>
      let n1 := (handle_actor_termination text no_scope ann Shutdown n1).1 in
      get_links (table n1) ann = [] ∧
      (fst <$> exits (watch_actor_termination text no_scope false (JoinPanic None) None dan n2).1.2) = [ann]
  | _, _ => False
  end.
Proof. vm_compute. done. Qed.
(** A link that was denied sends the exit nevertheless, in the namespace of the other actor. *)
Example denied_link_sends_exits :
  let c := after (Sample.link up 4 "n1" ctx ann eve pair) in
  match c !! "n1" with
  | Some nd => omap (λ e, match e with Send x to _ => Some (tenant_id x, Context.namespace x, canonical to) | _ => None end)
                 (watch_actor_termination text no_scope false (JoinPanic None) None ann nd).1.2
               = [("acme", "other", "eve//w::other@n2")]
  | None => False
  end.
Proof. vm_compute. reflexivity. Qed.
