(* ===== verification/VirtualActors.v ===== *)
(** VirtualActors: the manager of virtual actors, crates/actor/src/virtual_actor_manager.rs, and the facet
    of a virtual actor, crates/journaling/src/virtual_actor_facet.rs, with the strategies and durations of
    crates/common/src (activation_strategy.rs, virtual_actor_config.rs).

    Maps keyed by identities are keyed by their canonical strings and keep the identity with the value.
    Times are milliseconds.  The text of a configuration value is JSON or else a string: what a JSON text
    holds is the parameter [json_text] (none when it is no JSON, [Some None] when it is no string). *)
From Stdlib Require Import Ascii.
From stdpp Require Import pretty sorting.
From S2P Require Import Prelude Text Identity Registry.

#[local] Arguments String.append : simpl nomatch.

(** ** Strategies and durations *)

Inductive ActivationStrategy := StrategyUnspecified | Lazy | Eager | Prewarm.
Definition lower (c : Ascii.ascii) : Ascii.ascii :=
  if in_range 65 90 c then Ascii.ascii_of_nat (Ascii.nat_of_ascii c + 32) else c.
Fixpoint to_lowercase (s : string) : string :=
  match s with EmptyString => EmptyString | String c s => String (lower c) (to_lowercase s) end.
Definition from_config_str (s : string) : ActivationStrategy :=
  let l := to_lowercase s in
  if String.eqb l "eager" then Eager else if String.eqb l "prewarm" then Prewarm else Lazy.
Definition to_config_str (s : ActivationStrategy) : string :=
  match s with StrategyUnspecified | Lazy => "lazy" | Eager => "eager" | Prewarm => "prewarm" end.

Definition DEFAULT_IDLE_TIMEOUT_SECONDS : Z := 300.
Definition DEFAULT_MAX_POOL_PER_ACTOR_TYPE : Z := 100.
(** Durations in seconds. *)
Definition format_duration (secs : Z) : string :=
  if (0 <? secs) && (secs mod 3600 =? 0) then pretty (secs / 3600) +:+ "h"
  else if (0 <? secs) && (secs mod 60 =? 0) then pretty (secs / 60) +:+ "m"
  else pretty secs +:+ "s".
(** [str::parse::<u64>]: digits, with an optional sign, within the width. *)
Fixpoint parse_digits (acc : Z) (s : string) : option Z :=
  match s with
  | EmptyString => Some acc
  | String c s =>
      if in_range 48 57 c then
        let acc := acc * 10 + (Z.of_nat (Ascii.nat_of_ascii c) - 48) in
        if u64_max <? acc then None else parse_digits acc s
      else None
  end.
Definition parse_u64 (s : string) : option Z :=
  match s with
  | EmptyString => None
  | String c rest =>
      if Ascii.eqb c "+"%char then match rest with EmptyString => None | _ => parse_digits 0 rest end
      else parse_digits 0 s
  end.
Fixpoint strip_last (s : string) : option (string * Ascii.ascii) :=
  match s with
  | EmptyString => None
  | String c EmptyString => Some (EmptyString, c)
  | String c s => '(r, l) ← strip_last s; Some (String c r, l)
  end.
Definition parse_duration (s : string) : option Z :=
  '(num, unit) ← strip_last s;
  (if Ascii.eqb unit "s"%char then parse_u64 num
   else if Ascii.eqb unit "m"%char then (λ n, wrap 64 (n * 60)) <$> parse_u64 num
   else if Ascii.eqb unit "h"%char then (λ n, wrap 64 (n * 3600)) <$> parse_u64 num
   else None).

(** ** The facet *)

Record VirtualActorFacet := mkFacet {
  idle_timeout : Z;
  activation_strategy : ActivationStrategy;
  last_activated : option Z;
  last_accessed : option Z;
  activation_count : Z;
  is_activating : bool
}.
(** The arguments are the texts of the configuration, where they are strings. *)
Definition facet_new (idle strategy : option string) : VirtualActorFacet :=
  mkFacet (default DEFAULT_IDLE_TIMEOUT_SECONDS (idle ≫= parse_duration))
    (from_option from_config_str Lazy strategy) None None 0 false.
Definition should_activate (f : VirtualActorFacet) : bool :=
  negb (is_activating f) && match last_activated f with None => true | Some _ => false end.
(** Nothing when the clock has gone back. *)
Definition should_deactivate (now : Z) (f : VirtualActorFacet) : bool :=
  match last_accessed f with
  | Some t => (t <=? now) && (idle_timeout f * 1000 <=? now - t)
  | None => false
  end.
Definition facet_mark_activated (now : Z) (f : VirtualActorFacet) : VirtualActorFacet :=
  mkFacet (idle_timeout f) (activation_strategy f) (Some now) (Some now) (u32_add (activation_count f) 1) false.
Definition mark_accessed (now : Z) (f : VirtualActorFacet) : VirtualActorFacet :=
  mkFacet (idle_timeout f) (activation_strategy f) (last_activated f) (Some now) (activation_count f) (is_activating f).
Definition mark_deactivated (f : VirtualActorFacet) : VirtualActorFacet :=
  mkFacet (idle_timeout f) (activation_strategy f) (last_activated f) (last_accessed f) (activation_count f) false.
Definition start_activation (f : VirtualActorFacet) : VirtualActorFacet * bool :=
  if is_activating f then (f, false)
  else (mkFacet (idle_timeout f) (activation_strategy f) (last_activated f) (last_accessed f) (activation_count f) true, true).
Definition facet_on_exit (f : VirtualActorFacet) : VirtualActorFacet :=
  mkFacet (idle_timeout f) (activation_strategy f) None None (activation_count f) false.

(** ** The manager *)

Record Facet := mkProtoFacet { facet_type : string; facet_cfg : gmap string string }.
Record ActorSpawnSpec := mkSpec {
  sp_identity : option (string * string);
  sp_role : string;
  sp_namespace : string;
  sp_tenant_id : string;
  sp_visibility : Z;
  sp_behavior_kind : string;
  sp_args : gmap string string;
  sp_facets : list Facet;
  sp_labels : gmap string string;
  sp_config : option string
}.
(** A facet is shared by those that hold it: it is the number of a facet. *)
Record VirtualActorMetadata := mkMeta {
  spec : ActorSpawnSpec;
  meta_facet : option nat;
  last_deactivated : option Z
}.
Record ActiveInstance := mkInstance { inst_actor_id : ActorId; last_access : Z }.
Record VirtualActorManager := mkManager {
  virtual_actors : gmap string (ActorId * VirtualActorMetadata);
  pending_activations : gmap string (list nat);
  virtual_actor_types : gmap string VirtualActorMetadata;
  named_virtual_actor_definitions : gmap (string * string) VirtualActorMetadata;
  name_to_actor_type : gmap (string * string) string;
  active_instances_by_type : gmap string (list ActiveInstance);
  max_pool_per_actor_type : Z;
  activation_in_flight : gmap string nat
}.
Definition manager_new : VirtualActorManager := mkManager ∅ ∅ ∅ ∅ ∅ ∅ DEFAULT_MAX_POOL_PER_ACTOR_TYPE ∅.
Definition set_virtual_actors (m : VirtualActorManager) x : VirtualActorManager :=
  mkManager x (pending_activations m) (virtual_actor_types m) (named_virtual_actor_definitions m)
    (name_to_actor_type m) (active_instances_by_type m) (max_pool_per_actor_type m) (activation_in_flight m).
Definition set_pending (m : VirtualActorManager) x : VirtualActorManager :=
  mkManager (virtual_actors m) x (virtual_actor_types m) (named_virtual_actor_definitions m)
    (name_to_actor_type m) (active_instances_by_type m) (max_pool_per_actor_type m) (activation_in_flight m).
Definition set_types (m : VirtualActorManager) x : VirtualActorManager :=
  mkManager (virtual_actors m) (pending_activations m) x (named_virtual_actor_definitions m)
    (name_to_actor_type m) (active_instances_by_type m) (max_pool_per_actor_type m) (activation_in_flight m).
Definition set_named (m : VirtualActorManager) defs names : VirtualActorManager :=
  mkManager (virtual_actors m) (pending_activations m) (virtual_actor_types m) defs names
    (active_instances_by_type m) (max_pool_per_actor_type m) (activation_in_flight m).
Definition set_active (m : VirtualActorManager) x : VirtualActorManager :=
  mkManager (virtual_actors m) (pending_activations m) (virtual_actor_types m) (named_virtual_actor_definitions m)
    (name_to_actor_type m) x (max_pool_per_actor_type m) (activation_in_flight m).
Definition set_in_flight (m : VirtualActorManager) x : VirtualActorManager :=
  mkManager (virtual_actors m) (pending_activations m) (virtual_actor_types m) (named_virtual_actor_definitions m)
    (name_to_actor_type m) (active_instances_by_type m) (max_pool_per_actor_type m) x.
Definition set_max_pool_per_actor_type (n : Z) (m : VirtualActorManager) : VirtualActorManager :=
  mkManager (virtual_actors m) (pending_activations m) (virtual_actor_types m) (named_virtual_actor_definitions m)
    (name_to_actor_type m) (active_instances_by_type m) n (activation_in_flight m).

Inductive VirtualActorError :=
| VirtualActorNotFound (m : string)
| ActivationFailed (m : string).

Definition meta_actor_type (x : VirtualActorMetadata) : string := from_option snd "" (sp_identity (spec x)).

(** The guard of an activation: its winner gets a new notification, [fresh]. *)
Definition try_acquire_activation (fresh : nat) (a : ActorId) (m : VirtualActorManager)
    : VirtualActorManager * (bool * nat) :=
  match activation_in_flight m !! canonical a with
  | None => (set_in_flight m (<[canonical a := fresh]> (activation_in_flight m)), (true, fresh))
  | Some n => (m, (false, n))
  end.
(** The notification whose waiters are woken. *)
Definition release_activation_guard (a : ActorId) (m : VirtualActorManager) : VirtualActorManager * option nat :=
  (set_in_flight m (delete (canonical a) (activation_in_flight m)), activation_in_flight m !! canonical a).

(** A field of the new spec, or that of the instance, or that of the type, the first that is not empty. *)
Definition unless_empty {A} (empty : A → bool) (x : option A) : option A :=
  x ≫= λ x, if empty x then None else Some x.
Definition merged {A} (empty : A → bool) (new : A) (existing type_level : option A) (dflt : A) : A :=
  if empty new then
    match unless_empty empty existing, unless_empty empty type_level with
    | Some x, _ => x
    | None, Some x => x
    | None, None => dflt
    end
  else new.
Definition no_string (s : string) : bool := String.eqb s "".
Definition no_list {A} (l : list A) : bool := match l with [] => true | _ => false end.
Definition no_map (m : gmap string string) : bool := bool_decide (m = ∅).
Definition register (a : ActorId) (facet : nat) (s : ActorSpawnSpec) (m : VirtualActorManager)
    : result VirtualActorError VirtualActorManager :=
  let ty := from_option snd "" (sp_identity s) in
  if String.eqb ty "" then Err (ActivationFailed "actor_type is required (from proto Actor.actor_type)")
  else
    let existing := (λ x, spec x.2) <$> virtual_actors m !! canonical a in
    let type_spec := spec <$> virtual_actor_types m !! ty in
    let s := mkSpec (sp_identity s) (sp_role s) (sp_namespace s) (sp_tenant_id s) (sp_visibility s)
               (merged no_string (sp_behavior_kind s) (sp_behavior_kind <$> existing) (sp_behavior_kind <$> type_spec) "")
               (merged no_map (sp_args s) (sp_args <$> existing) (sp_args <$> type_spec) ∅)
               (merged no_list (sp_facets s) (sp_facets <$> existing) (sp_facets <$> type_spec) [])
               (sp_labels s) (sp_config s) in
    Ok (set_virtual_actors m
          (<[canonical a := (from_option fst a (virtual_actors m !! canonical a), mkMeta s (Some facet) None)]>
             (virtual_actors m))).
Definition prime_instance_from_definition (a : ActorId) (d : VirtualActorMetadata) (m : VirtualActorManager)
    : VirtualActorManager :=
  let '(k, x) := default (a, mkMeta (spec d) None None) (virtual_actors m !! canonical a) in
  set_virtual_actors m
    (<[canonical a := (k, mkMeta (spec d) (meta_facet x) (last_deactivated x))]> (virtual_actors m)).
Definition is_virtual (a : ActorId) (m : VirtualActorManager) : bool :=
  bool_decide (is_Some (virtual_actors m !! canonical a))
  || bool_decide (is_Some (virtual_actor_types m !! actor_type a))
  || existsb (λ '((ns, _), t), String.eqb ns (namespace a) && String.eqb t (actor_type a))
       (map_to_list (name_to_actor_type m)).
Definition register_virtual_actor_definition (s : ActorSpawnSpec) (m : VirtualActorManager)
    : result VirtualActorError VirtualActorManager :=
  let ty := from_option snd "" (sp_identity s) in
  let name := from_option fst "" (sp_identity s) in
  if String.eqb ty "" then Err (ActivationFailed "actor_type is required (from proto Actor.actor_type)")
  else
    let x := mkMeta s None None in
    if negb (String.eqb name "") && negb (String.eqb name ty) then
      let key := (sp_namespace s, name) in
      Ok (set_named m (<[key := x]> (named_virtual_actor_definitions m)) (<[key := ty]> (name_to_actor_type m)))
    else Ok (set_types m (<[ty := x]> (virtual_actor_types m))).
(** The arguments and facets of the configuration are read by the caller. *)
Definition register_virtual_actor_type (ty : string) (config : option string) (ns : string) (facets : list Facet)
    (tenant : option string) (args : gmap string string) (m : VirtualActorManager)
    : result VirtualActorError VirtualActorManager :=
  register_virtual_actor_definition
    (mkSpec (Some ("", ty)) "" ns (default "" tenant) 0 "" args facets ∅ config) m.
Definition get_virtual_actor_type (ty : string) (m : VirtualActorManager) : option VirtualActorMetadata :=
  virtual_actor_types m !! ty.
Definition get_virtual_actor_definition (ns name : string) (m : VirtualActorManager) : option VirtualActorMetadata :=
  named_virtual_actor_definitions m !! (ns, name).
Definition resolve_actor_type_for_name (ns name : string) (m : VirtualActorManager) : string :=
  default name (name_to_actor_type m !! (ns, name)).
Definition is_virtual_actor_type (ty : string) (m : VirtualActorManager) : bool :=
  bool_decide (is_Some (virtual_actor_types m !! ty)).
Definition get_metadata (a : ActorId) (m : VirtualActorManager) : option VirtualActorMetadata :=
  snd <$> virtual_actors m !! canonical a.
Definition get_facet (a : ActorId) (m : VirtualActorManager) : result VirtualActorError nat :=
  match get_metadata a m with
  | None => Err (VirtualActorNotFound (canonical a))
  | Some x =>
      match meta_facet x with
      | Some f => Ok f
      | None => Err (ActivationFailed ("Virtual actor " +:+ canonical a +:+ " has no facet (type-level registration)"))
      end
  end.

(** A pending message is its number. *)
Definition queue_message (a : ActorId) (msg : nat) (m : VirtualActorManager) : VirtualActorManager :=
  set_pending m (<[canonical a := default [] (pending_activations m !! canonical a) ++ [msg]]> (pending_activations m)).
Definition take_pending_messages (a : ActorId) (m : VirtualActorManager) : VirtualActorManager * list nat :=
  (set_pending m (delete (canonical a) (pending_activations m)), default [] (pending_activations m !! canonical a)).

Definition type_of_instance (a : ActorId) (m : VirtualActorManager) : string :=
  match get_metadata a m with Some x => meta_actor_type x | None => actor_type a end.
Definition inst_is (a : ActorId) (i : ActiveInstance) : bool := ActorId_eqb (inst_actor_id i) a.
(** [iter_mut().find]: the first instance of the actor. *)
Fixpoint touch (a : ActorId) (now : Z) (l : list ActiveInstance) : list ActiveInstance :=
  match l with
  | [] => []
  | i :: l => if inst_is a i then mkInstance (inst_actor_id i) now :: l else i :: touch a now l
  end.
Definition mark_activated (a : ActorId) (now : Z) (m : VirtualActorManager) : result VirtualActorError VirtualActorManager :=
  if negb (is_virtual a m) then Err (VirtualActorNotFound ("Actor " +:+ canonical a +:+ " is not virtual"))
  else
    let ty := type_of_instance a m in
    let l := default [] (active_instances_by_type m !! ty) in
    let l := if existsb (inst_is a) l then touch a now l else l ++ [mkInstance a now] in
    Ok (set_active m (<[ty := l]> (active_instances_by_type m))).
Definition update_last_access (a : ActorId) (now : Z) (m : VirtualActorManager) : VirtualActorManager :=
  set_active m (alter (touch a now) (type_of_instance a m) (active_instances_by_type m)).
Definition remove_from_active_tracking (a : ActorId) (m : VirtualActorManager) : VirtualActorManager :=
  set_active m (alter (List.filter (λ i, negb (inst_is a i))) (type_of_instance a m) (active_instances_by_type m)).

(** What is removed with a namespace, in the order of the hash maps. *)
Record VirtualActorNamespaceCleanup := mkCleanup { cl_actor_ids : list ActorId; cl_actor_types : list string }.
Definition unregister_namespace (ns : string) (m : VirtualActorManager)
    : VirtualActorManager * VirtualActorNamespaceCleanup :=
  let here (x : VirtualActorMetadata) := bool_decide (sp_namespace (spec x) = ns) in
  let gone := List.filter (λ '(_, (_, x)), here x) (map_to_list (virtual_actors m)) in
  let types := List.filter (λ '(_, x), here x) (map_to_list (virtual_actor_types m)) in
  (mkManager
     (filter (λ '(_, (_, x)), here x = false) (virtual_actors m))
     (filter (λ '(k, _), k ∉ gone.*1) (pending_activations m))
     (filter (λ '(_, x), here x = false) (virtual_actor_types m))
     (filter (λ '(k, _), k.1 ≠ ns) (named_virtual_actor_definitions m))
     (filter (λ '(k, _), k.1 ≠ ns) (name_to_actor_type m))
     (filter (λ '(k, _), k ∉ types.*1) (active_instances_by_type m))
     (max_pool_per_actor_type m) (activation_in_flight m),
   mkCleanup ((λ '(_, (a, _)), a) <$> gone) types.*1).

(** ** Eviction *)

Section eviction.
Context (json_text : string → option (option string)).
(** Which actors the registry has as active. *)
Context (state_active : ActorId → bool).

(** The last facet of the type in the list counts. *)
Definition facet_strategy (fs : list Facet) : ActivationStrategy :=
  match last (List.filter (λ f, String.eqb (facet_type f) "virtual_actor") fs) with
  | None => Lazy
  | Some f =>
      match facet_cfg f !! "activation_strategy" with
      | None => Lazy
      | Some s => match json_text s with
                  | None => from_config_str s
                  | Some (Some s) => from_config_str s
                  | Some None => Lazy
                  end
      end
  end.
Definition evictable (m : VirtualActorManager) (i : ActiveInstance) : bool :=
  match get_metadata (inst_actor_id i) m with
  | Some x => match facet_strategy (sp_facets (spec x)) with Lazy | StrategyUnspecified => true | _ => false end
  | None => true
  end && state_active (inst_actor_id i).
(** [sort_by_key]: a stable sort by the last access. *)
Fixpoint insert_by_access (i : ActiveInstance) (l : list ActiveInstance) : list ActiveInstance :=
  match l with
  | [] => [i]
  | j :: l' => if last_access j <=? last_access i then j :: insert_by_access i l' else i :: l
  end.
Definition sort_by_access (l : list ActiveInstance) : list ActiveInstance := foldl (λ l i, insert_by_access i l) [] l.

(** The instances that are evicted under the guard, with the manager in which the guards are held: [None]
    where the subtraction or the slice of the code would panic.  [fresh] numbers the notifications. *)
Definition plan_eviction (fresh : nat) (ty : string) (now : Z) (m : VirtualActorManager)
    : option (VirtualActorManager * list ActorId) :=
  match active_instances_by_type m !! ty with
  | None => Some (m, [])
  | Some instances =>
      let active_only := List.filter (evictable m) instances in
      let n := Z.of_nat (length active_only) in
      if n <? max_pool_per_actor_type m then
        Some (set_active m (<[ty := active_only]> (active_instances_by_type m)), [])
      else if max_pool_per_actor_type m =? 0 then None
      else
        let to_evict := Z.to_nat (n - (max_pool_per_actor_type m - 1)) in
        let evicted := inst_actor_id <$> take to_evict (sort_by_access active_only) in
        let kept := List.filter (λ i, negb (contains (inst_actor_id i) evicted)) instances in
        let '(m, _, kept, guarded) :=
          foldl (λ '(m, fresh, kept, guarded) a,
              let '(m, (won, _)) := try_acquire_activation fresh a m in
              if won then (m, S fresh, kept, guarded ++ [a])
              else (m, fresh, kept ++ [mkInstance a now], guarded))
            (m, fresh, kept, []) evicted in
        Some (set_active m (<[ty := kept]> (active_instances_by_type m)), guarded)
  end.
(** An evicted actor is stopped ([stopped] says for which this succeeds) and its guard released. *)
Definition finish_eviction (stopped : ActorId → bool) (now : Z) (a : ActorId) (m : VirtualActorManager)
    : VirtualActorManager :=
  let m := if stopped a
           then set_virtual_actors m
                  (alter (λ '(k, x), (k, mkMeta (spec x) (meta_facet x) (Some now))) (canonical a) (virtual_actors m))
           else m in
  (release_activation_guard a m).1.
Definition evict_lru_if_needed (stopped : ActorId → bool) (fresh : nat) (ty : string) (now : Z)
    (m : VirtualActorManager) : option (VirtualActorManager * list ActorId) :=
  '(m, guarded) ← plan_eviction fresh ty now m;
  Some (foldl (λ m a, finish_eviction stopped now a m) m guarded, guarded).
End eviction.

(** ** Lemmas: durations *)

Lemma digit_step acc x s : 0 ≤ acc → acc * 10 + Z.of_N (x mod 10) ≤ u64_max →
  parse_digits acc (String (pretty_N_char (x mod 10)) s) = parse_digits (acc * 10 + Z.of_N (x mod 10)) s.
Proof.
  intros Ha Hm. pose proof (N.mod_lt x 10 ltac:(done)) as Hx. cbn [parse_digits].
  assert (in_range 48 57 (pretty_N_char (x mod 10)) = true ∧
    Z.of_nat (nat_of_ascii (pretty_N_char (x mod 10))) - 48 = Z.of_N (x mod 10)) as [-> ->].
  { revert Hx. generalize (x mod 10)%N as d. intros d Hd.
    assert (d = 0 ∨ d = 1 ∨ d = 2 ∨ d = 3 ∨ d = 4 ∨ d = 5 ∨ d = 6 ∨ d = 7 ∨ d = 8 ∨ d = 9)%N as Hc by lia.
    repeat (destruct Hc as [->|Hc]; [by vm_compute|]). subst. by vm_compute. }
  destruct (Z.ltb_spec u64_max (acc * 10 + Z.of_N (x mod 10))); [lia|done].
Qed.
Lemma parse_pretty_go x s : Z.of_N x ≤ u64_max → parse_digits 0 (pretty_N_go x s) = parse_digits (Z.of_N x) s.
Proof.
  revert s. induction (N.lt_wf_0 x) as [x _ IH]. intros s Hx. destruct (decide (x = 0)%N) as [->|Hn].
  { by rewrite pretty_N_go_0. }
  pose proof (N.div_mod x 10 ltac:(done)) as Hd. pose proof (N.mod_lt x 10 ltac:(done)) as Hm.
  rewrite pretty_N_go_step by (apply N.neq_0_lt_0, Hn). remember (x / 10)%N as q eqn:Hq.
  assert (q < x)%N as Hlt by (clear Hq; revert Hd Hm; generalize (x mod 10)%N; lia).
  rewrite IH by (try done; clear Hq; lia).
  rewrite digit_step; clear Hq; revert Hd Hm; generalize (x mod 10)%N; intros m Hd Hm; [f_equal|..]; lia.
Qed.
Lemma parse_pretty n : 0 ≤ n ≤ u64_max → parse_u64 (pretty n) = Some n.
Proof.
  intros Hn. assert (parse_digits 0 (pretty n) = Some n ∧ pretty n ≠ "") as [Hp Hne].
  { destruct n as [|p|p]; [by vm_compute| |lia].
    change (pretty (Z.pos p)) with (pretty_N_go (N.pos p) "").
    assert (parse_digits 0 (pretty_N_go (N.pos p) "") = Some (Z.pos p)) as Hp by (rewrite parse_pretty_go; [done|apply Hn]).
    split; [done|]. intros He. by rewrite He in Hp. }
  destruct (pretty n) as [|c s] eqn:Hs; [done|]. unfold parse_u64.
  destruct (Ascii.eqb_spec c "+"%char) as [->|_]; [done|exact Hp].
Qed.
Lemma strip_last_app s c : strip_last (s +:+ String c EmptyString) = Some (s, c).
Proof.
  induction s as [|d s IH]; [done|]. cbn [String.append strip_last].
  destruct (s +:+ String c EmptyString) as [|e t] eqn:He; [by destruct s|]. by rewrite IH.
Qed.

(** ** Lemmas: eviction *)

Lemma list_filter_nil {A} (f : A → bool) l : (∀ x, x ∈ l → f x = false) → List.filter f l = [].
Proof. induction l as [|x l IH]; [done|]. intros Hl. cbn. rewrite (Hl x) by left. apply IH. intros y Hy. apply Hl. by right. Qed.
Lemma list_filter_all {A} (f : A → bool) l : (∀ x, x ∈ l → f x = true) → List.filter f l = l.
Proof.
  induction l as [|x l IH]; [done|]. intros Hl. cbn. rewrite (Hl x) by left. f_equal. apply IH. intros y Hy. apply Hl. by right.
Qed.

Lemma insert_by_access_perm i l : insert_by_access i l ≡ₚ i :: l.
Proof.
  induction l as [|j l IH]; [done|]. cbn. destruct (last_access j <=? last_access i); [|done].
  rewrite IH. apply Permutation_swap.
Qed.
Lemma sort_by_access_perm l : sort_by_access l ≡ₚ l.
Proof.
  unfold sort_by_access. assert (∀ acc, foldl (λ l i, insert_by_access i l) acc l ≡ₚ acc ++ l) as H; [|by rewrite H].
  induction l as [|i l IH]; intros acc; cbn; [by rewrite app_nil_r|]. rewrite IH, insert_by_access_perm. by rewrite <-Permutation_middle.
Qed.
Definition by_access (i j : ActiveInstance) : Prop := last_access i ≤ last_access j.
Lemma insert_sorted i l : StronglySorted by_access l → StronglySorted by_access (insert_by_access i l).
Proof.
  induction 1 as [|j l Hl IH Hj]; cbn; [by repeat constructor|].
  destruct (Z.leb_spec (last_access j) (last_access i)) as [Hle|Hlt].
  - constructor; [done|]. rewrite insert_by_access_perm. by constructor.
  - constructor; [by constructor|]. constructor; [unfold by_access; lia|].
    eapply Forall_impl; [exact Hj|]. unfold by_access. cbn. intros; lia.
Qed.
Lemma sort_by_access_sorted l : StronglySorted by_access (sort_by_access l).
Proof.
  unfold sort_by_access. assert (∀ acc, StronglySorted by_access acc → StronglySorted by_access (foldl (λ l i, insert_by_access i l) acc l)) as H;
    [|apply H; constructor].
  induction l as [|i l IH]; [done|]. intros acc Ha. apply IH. by apply insert_sorted.
Qed.

Definition inst_ids (l : list ActiveInstance) : list string := ids (inst_actor_id <$> l).
Definition acquire_all (now : Z) (evicted : list ActorId) (x : VirtualActorManager * nat * list ActiveInstance * list ActorId) :=
  foldl (λ '(m, fresh, kept, guarded) a,
      let '(m, (won, _)) := try_acquire_activation fresh a m in
      if won then (m, S fresh, kept, guarded ++ [a])
      else (m, fresh, kept ++ [mkInstance a now], guarded)) x evicted.

(** The guards that are taken change nothing else; those that are held already put their actor back. *)
Lemma acquire_all_spec now evicted m fresh kept guarded :
  ∃ m' fresh' back won, acquire_all now evicted (m, fresh, kept, guarded) = (m', fresh', kept ++ back, guarded ++ won) ∧
    virtual_actors m' = virtual_actors m ∧ active_instances_by_type m' = active_instances_by_type m ∧
    max_pool_per_actor_type m' = max_pool_per_actor_type m ∧
    inst_actor_id <$> back ⊆ evicted ∧ won ⊆ evicted ∧
    (NoDup (ids evicted) → NoDup (inst_ids back)) ∧
    ((∀ a, a ∈ evicted → activation_in_flight m !! canonical a = None) → NoDup (ids evicted) → back = [] ∧ won = evicted).
Proof.
  revert m fresh kept guarded. induction evicted as [|a l IH]; intros m fresh kept guarded.
  - exists m, fresh, [], []. rewrite !app_nil_r. by split_and!.
  - cbn [acquire_all foldl]. unfold try_acquire_activation at 2. destruct (activation_in_flight m !! canonical a) as [n|] eqn:Hf.
    + destruct (IH m fresh (kept ++ [mkInstance a now]) guarded) as (m' & fresh' & back & won & He & Hv & Ha & Hp & Hb & Hw & Hn & _).
      exists m', fresh', (mkInstance a now :: back), won. unfold acquire_all in He. rewrite He. rewrite <-app_assoc.
      split_and!; try done; [set_solver|set_solver| |].
      * intros [Hna Hnl]%NoDup_cons. apply NoDup_cons. split; [|by apply Hn]. intros Hin. apply Hna.
        unfold inst_ids, ids in *. apply list_elem_of_fmap in Hin as (b & Heq & Hin). apply list_elem_of_fmap.
        exists b. split; [exact Heq|]. by apply Hb.
      * intros Hall. rewrite (Hall a) in Hf by left. done.
    + set (m1 := set_in_flight m _).
      destruct (IH m1 (S fresh) kept (guarded ++ [a])) as (m' & fresh' & back & won & He & Hv & Ha & Hp & Hb & Hw & Hn & Hall).
      exists m', fresh', back, (a :: won). unfold acquire_all in He. rewrite He. rewrite <-app_assoc.
      split_and!; try done; [set_solver|set_solver|by intros [_ ?]%NoDup_cons; apply Hn|].
      intros Hno [Hna Hnl]%NoDup_cons. destruct Hall as [-> ->]; [|done..].
      intros b Hb'. cbn. rewrite lookup_insert_ne; [apply Hno; by right|].
      intros He'. apply Hna. apply list_elem_of_fmap. exists b. split; [by symmetry|done].
Qed.

Lemma filter_filter_comm {A} (f g : A → bool) l : List.filter f (List.filter g l) = List.filter g (List.filter f l).
Proof. induction l as [|x l IH]; [done|]. cbn. destruct (f x) eqn:Hf, (g x) eqn:Hg; cbn; rewrite ?Hf, ?Hg, ?IH; done. Qed.
Lemma filter_perm {A} (f : A → bool) l l' : l ≡ₚ l' → List.filter f l ≡ₚ List.filter f l'.
Proof. induction 1 as [|x l l' _ IH|x y l|l1 l2 l3 _ IH1 _ IH2]; cbn; repeat case_match; eauto using Permutation. Qed.
Lemma filter_ids_NoDup (f : ActiveInstance → bool) l : NoDup (inst_ids l) → NoDup (inst_ids (List.filter f l)).
Proof.
  induction l as [|i l IH]; [done|]. intros [Hi Hl]%NoDup_cons. cbn. destruct (f i); [|by apply IH].
  apply NoDup_cons. split; [|by apply IH]. intros Hin. apply Hi. unfold ids in *.
  apply list_elem_of_fmap in Hin as (a & -> & Hin). apply list_elem_of_fmap in Hin as (j & -> & Hin).
  apply list_elem_of_In, filter_In in Hin as [Hin _]. apply list_elem_of_fmap. exists (inst_actor_id j). split; [done|].
  apply list_elem_of_fmap. exists j. by rewrite list_elem_of_In.
Qed.
Lemma filter_notin l k : NoDup (inst_ids l) →
  List.filter (λ i, negb (contains (inst_actor_id i) (inst_actor_id <$> take k l))) l = drop k l.
Proof.
  intros Hn. assert (∀ xs ys, l = xs ++ ys → List.filter (λ i, negb (contains (inst_actor_id i) (inst_actor_id <$> xs))) l = ys) as H.
  - intros xs ys ->. unfold inst_ids, ids in Hn. rewrite !fmap_app in Hn. apply NoDup_app in Hn as (_ & Hd & _).
    rewrite List.filter_app.
    assert (List.filter (λ i, negb (contains (inst_actor_id i) (inst_actor_id <$> xs))) xs = []) as ->.
    { apply list_filter_nil. intros i Hi. apply negb_false_iff, contains_spec. apply list_elem_of_fmap. exists (inst_actor_id i).
      split; [done|]. apply list_elem_of_fmap. by exists i. }
    cbn. apply list_filter_all. intros i Hi. apply negb_true_iff, not_true_iff_false. intros Hc%contains_spec.
    apply (Hd _ Hc). apply list_elem_of_fmap. exists (inst_actor_id i). split; [done|]. apply list_elem_of_fmap. by exists i.
  - apply H. by rewrite take_drop.
Qed.

(** ** The lists of active instances *)

Inductive ManagerOp :=
| OpRegister (a : ActorId) (facet : nat) (s : ActorSpawnSpec)
| OpPrime (a : ActorId) (d : VirtualActorMetadata)
| OpDefine (s : ActorSpawnSpec)
| OpQueue (a : ActorId) (msg : nat)
| OpTake (a : ActorId)
| OpMarkActivated (a : ActorId) (now : Z)
| OpUpdateAccess (a : ActorId) (now : Z)
| OpRemoveTracking (a : ActorId)
| OpUnregisterNamespace (ns : string)
| OpEvict (active stopped : ActorId → bool) (fresh : nat) (ty : string) (now : Z)
| OpAcquire (fresh : nat) (a : ActorId)
| OpRelease (a : ActorId)
| OpMaxPool (n : Z).
Definition or_same {E} (m : VirtualActorManager) (r : result E VirtualActorManager) : VirtualActorManager :=
  match r with Ok m => m | Err _ => m end.
Definition manager_exec (json_text : string → option (option string)) (m : VirtualActorManager) (o : ManagerOp)
    : VirtualActorManager :=
  match o with
  | OpRegister a f s => or_same m (register a f s m)
  | OpPrime a d => prime_instance_from_definition a d m
  | OpDefine s => or_same m (register_virtual_actor_definition s m)
  | OpQueue a msg => queue_message a msg m
  | OpTake a => (take_pending_messages a m).1
  | OpMarkActivated a now => or_same m (mark_activated a now m)
  | OpUpdateAccess a now => update_last_access a now m
  | OpRemoveTracking a => remove_from_active_tracking a m
  | OpUnregisterNamespace ns => (unregister_namespace ns m).1
  | OpEvict active stopped fresh ty now =>
      match evict_lru_if_needed json_text active stopped fresh ty now m with Some (m, _) => m | None => m end
  | OpAcquire fresh a => (try_acquire_activation fresh a m).1
  | OpRelease a => (release_activation_guard a m).1
  | OpMaxPool n => set_max_pool_per_actor_type n m
  end.
Definition tracked_once (x : gmap string (list ActiveInstance)) : Prop := map_Forall (λ _ l, NoDup (inst_ids l)) x.

Lemma touch_ids a now l : inst_ids (touch a now l) = inst_ids l.
Proof. unfold inst_ids, ids. induction l as [|i l IH]; [done|]. cbn. destruct (inst_is a i); cbn; [done|by rewrite IH]. Qed.
Lemma tracked_alter f ty x : (∀ l, NoDup (inst_ids l) → NoDup (inst_ids (f l))) → tracked_once x → tracked_once (alter f ty x).
Proof. intros Hf Hx k l [(-> & l' & Hl & ->)|[_ Hl]]%lookup_alter_Some; [apply Hf|]; by eapply Hx. Qed.
Lemma tracked_filter (P : string * list ActiveInstance → Prop) `{∀ x, Decision (P x)} x : tracked_once x → tracked_once (filter P x).
Proof. intros Hx k l [Hl _]%map_lookup_filter_Some. by eapply Hx. Qed.
Lemma finish_eviction_active stopped now l m :
  active_instances_by_type (foldl (λ m a, finish_eviction stopped now a m) m l) = active_instances_by_type m.
Proof.
  revert m. induction l as [|a l IH]; [done|]. intros m. cbn. rewrite IH. unfold finish_eviction. cbn. by destruct (stopped a).
Qed.
Lemma plan_tracked json active fresh ty now m m' g : plan_eviction json active fresh ty now m = Some (m', g) →
  tracked_once (active_instances_by_type m) → tracked_once (active_instances_by_type m').
Proof.
  unfold plan_eviction. destruct (active_instances_by_type m !! ty) as [l|] eqn:Hl; [|by intros [= <- _]].
  intros Hp Hm. pose proof (Hm _ _ Hl) as Hn. cbn in Hn. destruct (_ <? _).
  { injection Hp as <- _. apply map_Forall_insert_2; [by apply filter_ids_NoDup|done]. }
  destruct (_ =? 0); [done|]. cbv zeta in Hp.
  set (evicted := inst_actor_id <$> take _ _) in Hp. set (kept := List.filter _ l) in Hp.
  destruct (acquire_all_spec now evicted m fresh kept []) as (m1 & f1 & back & won & He & _ & Ha & _ & Hb & _ & Hnb & _).
  unfold acquire_all in He. rewrite He in Hp. injection Hp as <- _. cbn. rewrite Ha.
  apply map_Forall_insert_2; [|done]. unfold inst_ids, ids. rewrite !fmap_app. apply NoDup_app. split_and!.
  - by apply filter_ids_NoDup.
  - intros c Hc Hb'. apply list_elem_of_fmap in Hc as (a & -> & Hc). apply list_elem_of_fmap in Hc as (i & -> & Hi).
    apply list_elem_of_In, filter_In in Hi as [_ Hi]. apply negb_true_iff, not_true_iff_false in Hi. apply Hi, contains_spec.
    apply list_elem_of_fmap in Hb' as (b & Heq & Hb'). rewrite Heq. apply list_elem_of_fmap. exists b. split; [done|by apply Hb].
  - apply Hnb. unfold evicted. apply (sublist_NoDup _ (ids (inst_actor_id <$> sort_by_access (List.filter (evictable json active m) l)))).
    + rewrite (fmap_Permutation canonical _ (inst_actor_id <$> List.filter (evictable json active m) l)); [by apply filter_ids_NoDup|].
      apply fmap_Permutation, sort_by_access_perm.
    + unfold ids. rewrite !fmap_take. apply sublist_take.
Qed.
Lemma manager_exec_tracked json m o : tracked_once (active_instances_by_type m) →
  tracked_once (active_instances_by_type (manager_exec json m o)).
Proof.
  intros Hm. destruct o as [a f s|a d|s|a msg|a|a now|a now|a|ns|active stopped fresh ty now|fresh a|a|n]; cbn [manager_exec]; try done.
  - unfold register. by destruct (String.eqb _ _).
  - unfold prime_instance_from_definition. by destruct (default _ _).
  - unfold register_virtual_actor_definition. destruct (String.eqb _ _); [done|]. by destruct (_ && _).
  - unfold mark_activated. destruct (negb _); [done|]. cbn. apply map_Forall_insert_2; [|done].
    destruct (existsb _ _) eqn:He.
    + rewrite touch_ids. destruct (_ !! type_of_instance a m) as [l|] eqn:Hl; [by eapply Hm|apply NoDup_nil_2].
    + unfold inst_ids, ids. rewrite !fmap_app. apply NoDup_app. split_and!; [| |apply NoDup_singleton].
      * destruct (_ !! type_of_instance a m) as [l|] eqn:Hl; [by eapply Hm|apply NoDup_nil_2].
      * intros c Hc Hs. cbn [fmap list_fmap inst_actor_id] in Hs. apply list_elem_of_singleton in Hs as ->.
        apply list_elem_of_fmap in Hc as (b & Heq & Hb). apply list_elem_of_fmap in Hb as (i & -> & Hi).
        apply not_true_iff_false in He. apply He, existsb_exists. exists i. split; [by apply list_elem_of_In|].
        apply String.eqb_eq. by symmetry.
  - apply tracked_alter; [|done]. intros l. by rewrite touch_ids.
  - apply tracked_alter; [|done]. intros l. apply filter_ids_NoDup.
  - by apply tracked_filter.
  - unfold evict_lru_if_needed. destruct (plan_eviction _ _ _ _ _ _) as [[m' g]|] eqn:Hp; [|done]. cbn [mbind option_bind].
    rewrite finish_eviction_active. by eapply plan_tracked.
  - unfold try_acquire_activation. by destruct (_ !! _).
Qed.

(** ** Properties *)

(** Durations of whole seconds that fit the width are read back from the text that they are printed in. *)
Theorem duration_roundtrip secs : 0 ≤ secs ≤ u64_max → parse_duration (format_duration secs) = Some secs.
Proof.
  intros Hs. assert (∀ k, 0 < k → secs mod k = 0 → parse_u64 (pretty (secs / k)) = Some (secs / k) ∧ wrap 64 (secs / k * k) = secs) as Hk.
  { intros k Hk Hm. pose proof (Z.div_mod secs k ltac:(lia)) as Hd.
    assert (0 ≤ secs / k) by (apply Z.div_pos; lia). split; [apply parse_pretty; nia|].
    unfold wrap, u64_max in *. rewrite Z.mod_small; nia. }
  unfold format_duration, parse_duration.
  destruct (0 <? secs); cbn [andb]; [destruct (Z.eqb_spec (secs mod 3600) 0) as [Hh|_]; [|destruct (Z.eqb_spec (secs mod 60) 0) as [Hh|_]]|];
    rewrite strip_last_app; cbn.
  - destruct (Hk 3600 ltac:(lia) Hh) as [-> Hw]. cbn. by rewrite Hw.
  - destruct (Hk 60 ltac:(lia) Hh) as [-> Hw]. cbn. by rewrite Hw.
  - by apply parse_pretty.
  - by apply parse_pretty.
Qed.

(** Over every sequence of operations of the manager, whatever guards are held, no type lists an actor twice
    among its active instances. *)
Theorem instances_tracked_once json ops :
  tracked_once (active_instances_by_type (foldl (manager_exec json) manager_new ops)).
Proof.
  assert (∀ m, tracked_once (active_instances_by_type m) →
    tracked_once (active_instances_by_type (foldl (manager_exec json) m ops))) as H; [|apply H, map_Forall_empty].
  induction ops as [|o ops IH]; [done|]. intros m Hm. apply IH. by apply manager_exec_tracked.
Qed.

(** C35. Eviction leaves room for one more: with a limit of at least one, and no activation of the type under
    way, it never fails, fewer lazy active instances than the limit stay, those that are evicted are
    the least recently used of them, and every other lazy one stays. *)
Theorem eviction_makes_room json active fresh ty now m l :
  active_instances_by_type m !! ty = Some l → NoDup (inst_ids l) → 1 ≤ max_pool_per_actor_type m →
  (∀ i, i ∈ l → activation_in_flight m !! canonical (inst_actor_id i) = None) →
  let lazy := List.filter (evictable json active m) in
  ∃ m' g l', plan_eviction json active fresh ty now m = Some (m', g) ∧ active_instances_by_type m' !! ty = Some l' ∧
    Z.of_nat (length (lazy l')) < max_pool_per_actor_type m ∧
    (∀ i, i ∈ lazy l → i ∈ lazy l' ∨ inst_actor_id i ∈ g) ∧
    (∀ a, a ∈ g → ∃ i, i ∈ lazy l ∧ inst_actor_id i = a ∧ ∀ j, j ∈ lazy l' → last_access i ≤ last_access j).
Proof.
  intros Hl Hn Hmax Hfree lazy. set (srt := sort_by_access (lazy l)).
  assert (NoDup (inst_ids srt)) as Hns.
  { unfold inst_ids, ids. rewrite (fmap_Permutation canonical _ (inst_actor_id <$> lazy l)); [by apply filter_ids_NoDup|].
    apply fmap_Permutation, sort_by_access_perm. }
  unfold plan_eviction. rewrite Hl. fold lazy.
  destruct (Z.ltb_spec (Z.of_nat (length (lazy l))) (max_pool_per_actor_type m)) as [Hlt|Hge].
  { assert (lazy (lazy l) = lazy l) as Hll.
    { apply list_filter_all. intros i Hi. by apply list_elem_of_In, filter_In in Hi as [_ Hi]. }
    eexists _, [], (lazy l). split; [done|]. split; [apply lookup_insert_eq|]. rewrite Hll.
    split_and!; [done|by left|by intros a ?%not_elem_of_nil]. }
  destruct (Z.eqb_spec (max_pool_per_actor_type m) 0) as [?|_]; [lia|]. cbv zeta.
  set (k := Z.to_nat _). fold srt. set (evicted := inst_actor_id <$> take k srt). set (kept := List.filter _ l).
  assert (∀ i, i ∈ take k srt → i ∈ lazy l) as Htk.
  { intros i Hi. rewrite <-(sort_by_access_perm (lazy l)). fold srt. rewrite <-(take_drop k srt), elem_of_app. by left. }
  destruct (acquire_all_spec now evicted m fresh kept []) as (m1 & f1 & back & won & He & Hv & Ha & _ & _ & _ & _ & Hall).
  destruct Hall as [-> ->].
  { intros a (i & -> & Hi)%list_elem_of_fmap. apply Hfree. by apply Htk, list_elem_of_In, filter_In in Hi as [?%list_elem_of_In _]. }
  { unfold evicted, ids. rewrite !fmap_take. eapply sublist_NoDup; [exact Hns|apply sublist_take]. }
  unfold acquire_all in He. rewrite He, !app_nil_r.
  assert (lazy kept ≡ₚ drop k srt) as Hlk.
  { unfold lazy, kept. rewrite filter_filter_comm. fold lazy. etrans; [apply filter_perm; symmetry; apply sort_by_access_perm|].
    unfold evicted. by rewrite filter_notin. }
  eexists _, evicted, kept. split; [done|]. split; [apply lookup_insert_eq|]. split_and!.
  - rewrite Hlk, length_drop. unfold srt. rewrite sort_by_access_perm. unfold k. lia.
  - intros i Hi. rewrite Hlk. assert (i ∈ srt) as Hs by by (unfold srt; rewrite sort_by_access_perm).
    rewrite <-(take_drop k srt), elem_of_app in Hs. destruct Hs as [Hs|Hs]; [right|by left].
    apply list_elem_of_fmap. by exists i.
  - intros a (i & -> & Hi)%list_elem_of_fmap. exists i. split_and!; [by apply Htk|done|]. intros j. rewrite Hlk. intros Hj.
    pose proof (sort_by_access_sorted (lazy l)) as Hst. fold srt in Hst. rewrite <-(take_drop k srt) in Hst.
    by apply (StronglySorted_app_1_elem_of _ _ _ _ _ Hst).
Qed.

Lemma elem_of_gone {K V} `{Countable K} (f : K * V → bool) (x : gmap K V) k :
  k ∈ (List.filter f (map_to_list x)).*1 ↔ ∃ v, x !! k = Some v ∧ f (k, v) = true.
Proof.
  rewrite list_elem_of_fmap. setoid_rewrite list_elem_of_In. setoid_rewrite filter_In. setoid_rewrite <-list_elem_of_In. split.
  - intros ([k' v] & -> & Hin%elem_of_map_to_list & Hf). by exists v.
  - intros (v & Hv & Hf). exists (k, v). split; [done|]. split; [by apply elem_of_map_to_list|done].
Qed.
Lemma lookup_unless {K V} `{Countable K} (P : K → Prop) `{∀ k, Decision (P k)} (x : gmap K V) k :
  filter (λ '(k, _), ¬ P k) x !! k = if decide (P k) then None else x !! k.
Proof.
  apply option_eq. intros v. rewrite map_lookup_filter_Some. destruct (decide (P k)); [|tauto]. split; [by intros [_ ?]|done].
Qed.

(** With a namespace go its actors with their waiting messages, its types with their active instances and
    its named definitions, and nothing else: the actors, types, definitions and messages of the other
    namespaces stay. *)
Theorem namespace_is_removed ns m :
  let m' := (unregister_namespace ns m).1 in
  let elsewhere o := match o with
                     | Some x => if String.eqb (sp_namespace (spec x)) ns then None else Some x
                     | None => None
                     end in
  (∀ a, get_metadata a m' = elsewhere (get_metadata a m)) ∧
  (∀ ty, get_virtual_actor_type ty m' = elsewhere (get_virtual_actor_type ty m)) ∧
  (∀ n name, get_virtual_actor_definition n name m' =
     if String.eqb n ns then None else get_virtual_actor_definition n name m) ∧
  (∀ a, (take_pending_messages a m').2 =
     match get_metadata a m with
     | Some x => if String.eqb (sp_namespace (spec x)) ns then [] else (take_pending_messages a m).2
     | None => (take_pending_messages a m).2
     end) ∧
  (∀ ty, active_instances_by_type m' !! ty =
     match get_virtual_actor_type ty m with
     | Some x => if String.eqb (sp_namespace (spec x)) ns then None else active_instances_by_type m !! ty
     | None => active_instances_by_type m !! ty
     end).
Proof.
  assert (∀ s : string, bool_decide (s = ns) = String.eqb s ns) as Hb.
  { intros s. case_bool_decide as Hs; [subst; by rewrite String.eqb_refl|]. symmetry. by apply String.eqb_neq. }
  cbv zeta. unfold unregister_namespace, get_metadata, get_virtual_actor_type, get_virtual_actor_definition,
    take_pending_messages. cbn [fst snd virtual_actors virtual_actor_types named_virtual_actor_definitions pending_activations
    active_instances_by_type]. split_and!.
  - intros a. rewrite map_lookup_filter. destruct (virtual_actors m !! canonical a) as [[k x]|]; [|done]. cbn.
    rewrite <-Hb. by destruct (bool_decide _).
  - intros ty. rewrite map_lookup_filter. destruct (virtual_actor_types m !! ty) as [x|]; [|done]. cbn.
    rewrite <-Hb. by destruct (bool_decide _).
  - intros n name. rewrite (lookup_unless (λ k, k.1 = ns)). cbn. rewrite <-Hb. case_decide; by case_bool_decide.
  - intros a. rewrite (lookup_unless (λ k, k ∈ _)). destruct (decide _) as [Hin|Hin].
    + apply elem_of_gone in Hin as ([k x] & -> & Hx). cbn. rewrite Hb in Hx. by rewrite Hx.
    + destruct (virtual_actors m !! canonical a) as [[k x]|] eqn:Hk; [|done]. cbn.
      destruct (String.eqb (sp_namespace (spec x)) ns) eqn:He; [|done]. exfalso. apply Hin, elem_of_gone.
      exists (k, x). split; [done|]. by rewrite Hb.
  - intros ty. rewrite (lookup_unless (λ k, k ∈ _)). destruct (decide _) as [Hin|Hin].
    + apply elem_of_gone in Hin as (x & -> & Hx). rewrite Hb in Hx. by rewrite Hx.
    + destruct (virtual_actor_types m !! ty) as [x|] eqn:Hk; [|done].
      destruct (String.eqb (sp_namespace (spec x)) ns) eqn:He; [|done]. exfalso. apply Hin, elem_of_gone.
      exists x. split; [done|]. by rewrite Hb.
Qed.

(** ** Witnesses *)

Module Sample.
Definition ann : ActorId := mkActorId "ann//w::ns@n1" "ann" "w" "ns" "n1".
Definition bob : ActorId := mkActorId "bob//w::ns@n1" "bob" "w" "ns" "n1".
Definition def (ns tenant : string) : ActorSpawnSpec :=
  mkSpec (Some ("", "w")) "" ns tenant 0 "" {["n" := "1"]} [] ∅ None.
Definition no_json (s : string) : option (option string) := None.
Definition always (a : ActorId) : bool := true.
Definition ops : list ManagerOp :=
  [OpDefine (def "ns" "acme"); OpMaxPool 2; OpMarkActivated ann 10; OpMarkActivated bob 20].
Definition two : VirtualActorManager := foldl (manager_exec no_json) manager_new ops.
End Sample.
Import Sample.

Lemma duration_roundtrip_witness : parse_duration (format_duration 5400) = Some 5400.
Proof. apply (duration_roundtrip 5400). unfold u64_max. lia. Defined.

Lemma eviction_makes_room_witness :
  ∃ m' l', plan_eviction no_json always 0 "w" 30 two = Some (m', [ann]) ∧ active_instances_by_type m' !! "w" = Some l' ∧
    Z.of_nat (length (List.filter (evictable no_json always two) l')) < 2.
Proof.
  destruct (eviction_makes_room no_json always 0 "w" 30 two [mkInstance ann 10; mkInstance bob 20])
    as (m' & g & l' & Hp & Hl & Hn & _ & _).
  - vm_compute. reflexivity.
  - vm_compute. repeat constructor; set_solver.
  - vm_compute. discriminate.
  - intros i _. unfold two. vm_compute. reflexivity.
  - exists m', l'. assert (g = [ann]) as Hg by (vm_compute in Hp; injection Hp as _ Hg; by symmetry). rewrite Hg in Hp. split_and!; [exact Hp|exact Hl|exact Hn].
Defined.

(** A type belongs to the namespace that defined it last: the definition of another tenant replaces it, and
    when that one goes the actors of the first are no virtual actors any more. *)
Example types_are_shared :
  let m := foldl (manager_exec no_json) manager_new [OpDefine (def "ns" "acme"); OpDefine (def "other" "evil")] in
  (sp_tenant_id ∘ spec <$> get_virtual_actor_type "w" m) = Some "evil" ∧
  is_virtual ann m = true ∧ is_virtual ann (unregister_namespace "other" m).1 = false.
Proof. vm_compute. done. Qed.
(** A limit of nothing makes the subtraction of the eviction wrap: it panics. *)
Example no_pool_panics :
  evict_lru_if_needed no_json always always 0 "w" 30 (set_max_pool_per_actor_type 0 two) = None.
Proof. vm_compute. reflexivity. Qed.
(** An actor that is rebuilt keeps the arguments of its type. *)
Example rebuilt_with_arguments :
  let blank := mkSpec (Some ("ann", "w")) "" "ns" "acme" 0 "" ∅ [] ∅ None in
  match register ann 7 blank two with
  | Ok m => (sp_args ∘ spec <$> get_metadata ann m) = Some {["n" := "1"]} ∧ get_facet ann m = Ok 7%nat
  | Err _ => False
  end.
Proof. vm_compute. done. Qed.
