(* ===== verification/Activation.v ===== *)
(** Activation: how concurrent messages to one virtual actor of a node start it.  The routing of
    crates/actor/src/actor_registry.rs ([dispatch_local_message] and what it calls) and the activation of
    crates/actor/src/actor_factory_impl.rs, over the guard, the facet and the queue of [VirtualActors].

    Every message is a task; a step is what a task does between two suspensions of the code, and tasks
    interleave in any order.  The actor is virtual, its node is the local one, and the callers are of its
    tenant.  Facets, notifications and instances of the actor are numbered as they are made.  A task that
    found the guard taken subscribes to its notification without suspending: on a runtime with one thread
    nothing comes in between and [window] is false; with several threads it is a second step. *)
From S2P Require Import Prelude.

(** Who called the activation: the routing by a facet, that of the guard, or that of a sender. *)
Inductive Caller := ByFacet | ByGuard | BySender.
(** Where a task is; the comments name what it does next. *)
Inductive Pc :=
| Lookup                      (* look the actor up in the registry *)
| IsActive                    (* ask the manager whether it is active *)
| GetSender                   (* look it up again, or activate it *)
| GetFacet                    (* read the facet of the instance *)
| StartActivation (f : nat)   (* set the flag of the facet *)
| Queue (activate : bool)     (* queue the message *)
| Loop                        (* look the actor up again *)
| Acquire                     (* try to take the guard *)
| Notified (n : nat)          (* subscribe to the notification *)
| Waiting (n : nat)
| WinnerQueue                 (* queue the message, with the guard *)
| Activate (c : Caller)       (* check whether the actor is active *)
| Register (c : Caller)       (* create the behaviour, register the new facet *)
| StartActor (c : Caller)     (* start the instance, register it *)
| Flush (c : Caller) (inst : nat) (again : bool)   (* take the queued messages *)
| Deliver (c : Caller) (inst : nat) (again : bool) (ms : list nat)   (* send it the next of them *)
| Activated (c : Caller) (ok : bool)               (* the activation returned *)
| Done (ok : bool).

Record State := mkState {
  facet : option nat;
  flags : gmap nat bool;
  guard : option nat;
  pending : list nat;
  live : option nat;
  (** The instances that were started, and what was sent to which. *)
  started : list nat;
  sent : list (nat * nat);
  (** The queued messages that an instance refused: they are logged. *)
  dropped : list nat;
  next : nat;
  tasks : list (nat * Pc)
}.
Definition state_new (facet : option nat) : State :=
  mkState facet (from_option (λ f, {[f := false]}) ∅ facet) None [] None [] [] [] (from_option S 0%nat facet) [].
Definition set_tasks (s : State) ts : State :=
  mkState (facet s) (flags s) (guard s) (pending s) (live s) (started s) (sent s) (dropped s) (next s) ts.
(** A message reaches the mailbox of an instance. *)
Definition send_to (inst m : nat) (s : State) : State :=
  mkState (facet s) (flags s) (guard s) (pending s) (live s) (started s) (sent s ++ [(inst, m)]) (dropped s) (next s)
    (tasks s).
(** [sender.tell]: the instance takes the message, or refuses it and the caller gets its error. *)
Definition tell (ok : bool) (inst m : nat) (s : State) : Pc * State :=
  if ok then (Done true, send_to inst m s) else (Done false, s).
Definition queue_message (m : nat) (s : State) : State :=
  mkState (facet s) (flags s) (guard s) (pending s ++ [m]) (live s) (started s) (sent s) (dropped s) (next s) (tasks s).
Definition set_flag (f : nat) (b : bool) (s : State) : State :=
  mkState (facet s) (<[f := b]> (flags s)) (guard s) (pending s) (live s) (started s) (sent s) (dropped s) (next s)
    (tasks s).
Definition acquire (s : State) : State :=
  mkState (facet s) (flags s) (Some (next s)) (pending s) (live s) (started s) (sent s) (dropped s) (S (next s)) (tasks s).
(** [notify_waiters] reaches those that have subscribed. *)
Definition wake (n : nat) (t : nat * Pc) : nat * Pc :=
  match t with (m, Waiting n') => if Nat.eqb n n' then (m, Loop) else t | t => t end.
Definition release (s : State) : State :=
  mkState (facet s) (flags s) None (pending s) (live s) (started s) (sent s) (dropped s) (next s)
    match guard s with Some n => wake n <$> tasks s | None => tasks s end.
Definition bind_facet (s : State) : State :=
  mkState (Some (next s)) (<[next s := false]> (flags s)) (guard s) (pending s) (live s) (started s) (sent s)
    (dropped s) (S (next s)) (tasks s).
Definition start_instance (s : State) : State :=
  mkState (facet s) (flags s) (guard s) (pending s) (Some (next s)) (started s ++ [next s]) (sent s) (dropped s)
    (S (next s)) (tasks s).
Definition take_pending (s : State) : State :=
  mkState (facet s) (flags s) (guard s) [] (live s) (started s) (sent s) (dropped s) (next s) (tasks s).
(** One round of the loop that sends the messages taken from the queue: an error is logged. *)
Definition flush (ok : bool) (inst m : nat) (s : State) : State :=
  if ok then send_to inst m s
  else mkState (facet s) (flags s) (guard s) (pending s) (live s) (started s) (sent s) (dropped s ++ [m]) (next s)
         (tasks s).
(** The actor is stopped: its sender and instance go, and the flag of its facet is cleared. *)
Definition stop (s : State) : State :=
  mkState (facet s) (from_option (λ f, <[f := false]> (flags s)) (flags s) (facet s)) (guard s) (pending s) None
    (started s) (sent s) (dropped s) (next s) (tasks s).

Section routing.
Context (window : bool).

(** What a task with the message [m] does at its place: the place it reaches and the state.  Where the
    outcome of the creation or of the start of an actor, or of a [tell], is open, [ok] says it. *)
Definition advance (ok : bool) (m : nat) (pc : Pc) (s : State) : option (Pc * State) :=
  match pc with
  | Lookup =>
      match live s with
      | Some i => Some (tell ok i m s)
      | None => Some (IsActive, s)
      end
  | IsActive => Some (match live s with Some _ => GetSender | None => GetFacet end, s)
  | GetSender =>
      match live s with
      | Some i => Some (tell ok i m s)
      | None => Some (Activate BySender, s)
      end
  | GetFacet => Some (match facet s with Some f => StartActivation f | None => Loop end, s)
  | StartActivation f =>
      match flags s !! f with
      | Some true => Some (Queue false, s)
      | _ => Some (Queue true, set_flag f true s)
      end
  | Queue activate => Some (if activate then Activate ByFacet else Done true, queue_message m s)
  | Loop =>
      match live s with
      | Some i => Some (tell ok i m s)
      | None => Some (Acquire, s)
      end
  | Acquire =>
      match guard s with
      | None => Some (WinnerQueue, acquire s)
      | Some n => Some (if window then Notified n else Waiting n, s)
      end
  | Notified n => Some (Waiting n, s)
  | Waiting _ => None
  | WinnerQueue => Some (Activate ByGuard, queue_message m s)
  | Activate c =>
      match live s with
      | Some _ => Some (Activated c true, s)
      | None => Some (Register c, s)
      end
  | Register c => if ok then Some (StartActor c, bind_facet s) else Some (Activated c false, s)
  | StartActor c =>
      if ok then Some (Flush c (next s) true, start_instance s) else Some (Activated c false, s)
  | Flush c i again => Some (Deliver c i again (pending s), take_pending s)
  | Deliver c i again [] => Some (if again then Flush c i false else Activated c true, s)
  | Deliver c i again (m' :: ms) => Some (Deliver c i again ms, flush ok i m' s)
  | Activated ByFacet b => Some (Done b, s)
  | Activated ByGuard b => Some (Done b, release s)
  | Activated BySender true =>
      match live s with
      | Some i => Some (tell ok i m s)
      | None => Some (Done false, s)
      end
  | Activated BySender false => Some (Done false, s)
  | Done _ => None
  end.
(** The [k]-th task makes a step. *)
Definition run_task (k : nat) (ok : bool) (s : State) : option State :=
  '(m, pc) ← tasks s !! k;
  '(pc', s') ← advance ok m pc s;
  Some (set_tasks s' (<[k := (m, pc')]> (tasks s'))).
Definition task_step (s s' : State) : Prop := ∃ k ok, run_task k ok s = Some s'.

(** A message arrives, a task makes a step, or the actor is stopped. *)
Inductive event := Arrive (m : nat) | Step (k : nat) (ok : bool) | Stop.
Definition exec (e : event) (s : State) : option State :=
  match e with
  | Arrive m => Some (set_tasks s (tasks s ++ [(m, Lookup)]))
  | Step k ok => run_task k ok s
  | Stop => Some (stop s)
  end.
Fixpoint exec_all (es : list event) (s : State) : option State :=
  match es with [] => Some s | e :: es => exec e s ≫= exec_all es end.
Definition reached (s : State) : Prop := ∃ f es, exec_all es (state_new f) = Some s.
End routing.

(** ** Lemmas: tasks *)

(** The messages of the tasks at some places. *)
Definition pick (P : Pc → bool) (ts : list (nat * Pc)) : list nat :=
  omap (λ '(m, pc), if P pc then Some m else None) ts.
Definition one (P : Pc → bool) (m : nat) (pc : Pc) : list nat := if P pc then [m] else [].
Lemma pick_app P ts us : pick P (ts ++ us) = pick P ts ++ pick P us.
Proof. apply omap_app. Qed.
Lemma pick_cons P m pc ts : pick P ((m, pc) :: ts) = one P m pc ++ pick P ts.
Proof. unfold pick, one. cbn. by destruct (P pc). Qed.
Lemma pick_task P ts k m pc pc' : ts !! k = Some (m, pc) →
  ∃ rest, pick P ts ≡ₚ one P m pc ++ rest ∧ pick P (<[k := (m, pc')]> ts) ≡ₚ one P m pc' ++ rest.
Proof.
  intros Hk. exists (pick P (take k ts) ++ pick P (drop (S k) ts)).
  pose proof (lookup_lt_Some _ _ _ Hk) as Hlt. split.
  - rewrite <-(take_drop_middle ts k _ Hk) at 1. rewrite pick_app, pick_cons. apply Permutation_app_swap_app.
  - rewrite insert_take_drop by done. rewrite pick_app, pick_cons. apply Permutation_app_swap_app.
Qed.
Lemma pick_wake P n ts : (∀ i, P (Waiting i) = P Loop) → pick P (wake n <$> ts) = pick P ts.
Proof.
  intros HP. induction ts as [|[m pc] ts IH]; [done|]. cbn [fmap list_fmap].
  assert (∃ pc', wake n (m, pc) = (m, pc') ∧ P pc' = P pc) as (pc' & -> & Hp).
  { destruct pc; try by eexists; split. cbn. destruct (Nat.eqb n n0); eexists; (split; [done|]); [by rewrite HP|done]. }
  rewrite !pick_cons. unfold one. by rewrite Hp, IH.
Qed.
Lemma elem_of_pick P ts k m pc : ts !! k = Some (m, pc) → P pc = true → m ∈ pick P ts.
Proof.
  intros Hk Hp. apply list_elem_of_omap. exists (m, pc). split; [by eapply list_elem_of_lookup_2|]. by rewrite Hp.
Qed.

(** What a step leaves of the tasks: one of them moves, and with a release the waiting ones wake. *)
Lemma advance_tasks window ok m pc s pc' s1 : advance window ok m pc s = Some (pc', s1) →
  tasks s1 = tasks s ∨
  ∃ n b, pc = Activated ByGuard b ∧ pc' = Done b ∧ guard s = Some n ∧ guard s1 = None ∧ tasks s1 = wake n <$> tasks s.
Proof.
  destruct pc as [| | | |f|[]| | |w| | |c|c|c|c i []|c i [] [|m' ms]|[] []|]; cbn; intros Ha;
    unfold tell, flush in *; repeat (case_match; simplify_eq/=); simplify_eq/=; try (by left);
    unfold release; destruct (guard s) as [g|]; cbn; eauto 12.
Qed.
Lemma run_task_inv window k ok s s' : run_task window k ok s = Some s' →
  ∃ m pc pc' s1, tasks s !! k = Some (m, pc) ∧ advance window ok m pc s = Some (pc', s1) ∧
    s' = set_tasks s1 (<[k := (m, pc')]> (tasks s1)) ∧ tasks s1 !! k = Some (m, pc).
Proof.
  unfold run_task. destruct (tasks s !! k) as [[m pc]|] eqn:Hk; [|done]. cbn.
  destruct (advance window ok m pc s) as [[pc' s1]|] eqn:Ha; [|done]. cbn. intros [= <-].
  exists m, pc, pc', s1. split_and!; try done.
  destruct (advance_tasks _ _ _ _ _ _ _ Ha) as [->|(n & b & -> & -> & _ & _ & ->)]; [done|].
  by rewrite list_lookup_fmap, Hk.
Qed.
(** The tasks at some places before and after a step, where sleeping is no different from looping. *)
Lemma run_task_pick window k ok s s' : run_task window k ok s = Some s' →
  ∃ m pc pc' s1, advance window ok m pc s = Some (pc', s1) ∧ s' = set_tasks s1 (tasks s') ∧
    ∀ P, (∀ i, P (Waiting i) = P Loop) →
      ∃ rest, pick P (tasks s) ≡ₚ one P m pc ++ rest ∧ pick P (tasks s') ≡ₚ one P m pc' ++ rest.
Proof.
  intros (m & pc & pc' & s1 & Hk & Ha & -> & Hk1)%run_task_inv.
  exists m, pc, pc', s1. split_and!; try done. intros P HP.
  destruct (pick_task P _ _ m pc pc' Hk1) as (rest & H1 & H2). exists rest. split; [|done].
  destruct (advance_tasks _ _ _ _ _ _ _ Ha) as [Ht|(n & b & _ & _ & _ & _ & Ht)]; rewrite Ht in H1; [done|].
  by rewrite pick_wake in H1.
Qed.
(** An arrival is at no place that starts later. *)
Lemma pick_arrive P m (s : State) : P Lookup = false → pick P (tasks s ++ [(m, Lookup)]) = pick P (tasks s).
Proof. intros HP. rewrite pick_app, pick_cons. unfold one. rewrite HP. cbn. by rewrite app_nil_r. Qed.

(** ** Lemmas: runs *)
Lemma reached_ind window (P : State → Prop) :
  (∀ f, P (state_new f)) → (∀ e s s', P s → exec window e s = Some s' → P s') → ∀ s, reached window s → P s.
Proof.
  intros H0 Hs s (f & es & He). specialize (H0 f). revert H0 He. generalize (state_new f).
  induction es as [|e es IH]; intros s0 H0; cbn; [by intros [= <-]|].
  destruct (exec window e s0) as [s1|] eqn:E; [|done]. cbn. intros He. eapply IH, He. by eapply Hs.
Qed.
Lemma exec_all_app window es es' s : exec_all window (es ++ es') s = exec_all window es s ≫= exec_all window es'.
Proof.
  revert s. induction es as [|e es IH]; intros s; [done|]. cbn. destruct (exec window e s); [apply IH|done].
Qed.
Lemma reached_step window s s' : reached window s → task_step window s s' → reached window s'.
Proof.
  intros (f & es & He) (k & ok & Hk). exists f, (es ++ [Step k ok]). rewrite exec_all_app, He. cbn. by rewrite Hk.
Qed.

(** ** Lemmas: what is placed *)

(** The message is in the queue, or was sent to an instance. *)
Definition placed (pc : Pc) : bool :=
  match pc with
  | Activate c | Register c | StartActor c | Flush c _ _ | Deliver c _ _ _ | Activated c _ =>
      match c with BySender => false | _ => true end
  | Done ok => ok
  | _ => false
  end.
Definition failed (pc : Pc) : bool := match pc with Done ok => negb ok | _ => false end.
(** The messages that a task has taken from the queue and not yet sent. *)
Definition in_hand (pc : Pc) : list nat := match pc with Deliver _ _ _ ms => ms | _ => [] end.
Definition all_in_hand (ts : list (nat * Pc)) : list nat := ts ≫= λ t, in_hand t.2.
Lemma in_hand_task ts k m pc pc' : ts !! k = Some (m, pc) →
  ∃ rest, all_in_hand ts ≡ₚ in_hand pc ++ rest ∧ all_in_hand (<[k := (m, pc')]> ts) ≡ₚ in_hand pc' ++ rest.
Proof.
  intros Hk. exists (all_in_hand (take k ts) ++ all_in_hand (drop (S k) ts)).
  pose proof (lookup_lt_Some _ _ _ Hk) as Hlt. split.
  - rewrite <-(take_drop_middle ts k _ Hk) at 1. unfold all_in_hand. rewrite bind_app, bind_cons.
    apply Permutation_app_swap_app.
  - rewrite insert_take_drop by done. unfold all_in_hand. rewrite bind_app, bind_cons.
    apply Permutation_app_swap_app.
Qed.
Lemma in_hand_wake n ts : all_in_hand (wake n <$> ts) = all_in_hand ts.
Proof.
  unfold all_in_hand. induction ts as [|[m pc] ts IH]; [done|]. cbn [fmap list_fmap]. rewrite !bind_cons, IH.
  f_equal. destruct pc; try done. cbn. by destruct (Nat.eqb n n0).
Qed.
(** What the actor was sent, the queue, what was taken from it and what was refused. *)
Definition accepted (s : State) (hand : list nat) : list nat := (sent s).*2 ++ pending s ++ hand ++ dropped s.
Lemma advance_placed window ok m pc s pc' s1 : advance window ok m pc s = Some (pc', s1) →
  failed pc = false ∧
  accepted s1 (in_hand pc') ++ one placed m pc ≡ₚ
  accepted s (in_hand pc) ++ one placed m pc' ++ (if placed pc then one failed m pc' else []).
Proof.
  unfold accepted. destruct pc as [| | | |f|[]| | |w| | |[]|[]|[]|[] i []|[] i [] [|m' ms]|[] []|]; cbn; intros Ha;
    unfold tell, flush in *; repeat (case_match; simplify_eq/=); simplify_eq/=; unfold one; cbn;
    rewrite ?app_nil_r; split; try done; rewrite ?fmap_app; cbn; rewrite <-?app_assoc; cbn; try done;
    solve_Permutation.
Qed.
Lemma advance_drops window m pc s pc' s1 : advance window true m pc s = Some (pc', s1) → dropped s1 = dropped s.
Proof.
  destruct pc as [| | | |f|[]| | |w| | |[]|[]|[]|[] i []|[] i [] [|m' ms]|[] []|]; cbn; intros Ha;
    unfold tell, flush in *; repeat (case_match; simplify_eq/=); by simplify_eq/=.
Qed.
(** The places of the messages that were placed, and of some that failed. *)
Lemma kept_placed ts lost kept : pick failed ts ≡ₚ lost ++ kept →
  ∃ others, kept ++ pick placed ts ++ others ≡ₚ ts.*1.
Proof.
  cut (∃ others, pick failed ts ++ pick placed ts ++ others ≡ₚ ts.*1).
  { intros [others Ho] Hf. exists (lost ++ others). rewrite <-Ho, Hf. solve_Permutation. }
  induction ts as [|[m pc] ts [others IH]]; [by exists []|]. rewrite !pick_cons. unfold one. cbn [fmap list_fmap fst].
  destruct (failed pc) eqn:Hf, (placed pc) eqn:Hp.
  - by destruct pc as [| | | | | | | | | | | | | | | | |[]].
  - exists others. rewrite <-IH. done.
  - exists others. rewrite <-IH. solve_Permutation.
  - exists (m :: others). rewrite <-IH. solve_Permutation.
Qed.

Lemma reached_placed window s : reached window s →
  ∃ lost kept, pick failed (tasks s) ≡ₚ lost ++ kept ∧
    accepted s (all_in_hand (tasks s)) ≡ₚ kept ++ pick placed (tasks s).
Proof.
  revert s. apply reached_ind; [by intros []; exists [], []|].
  intros [m|k ok|] s s' (lost & kept & Hf & Hp); cbn.
  - intros [= <-]. exists lost, kept. unfold accepted, all_in_hand in *.
    cbn [tasks set_tasks sent pending dropped]. rewrite !pick_arrive, bind_app by done. cbn. by rewrite app_nil_r.
  - intros Hr. pose proof Hr as (m & pc & pc' & s1 & Hk & Ha & -> & Hk1)%run_task_inv.
    destruct (pick_task placed _ _ m pc pc' Hk1) as (rp & Hp0 & Hp1).
    destruct (pick_task failed _ _ m pc pc' Hk1) as (rf & Hf0 & Hf1).
    destruct (in_hand_task _ _ m pc pc' Hk1) as (rh & Hh0 & Hh1).
    assert (pick placed (tasks s1) = pick placed (tasks s) ∧ pick failed (tasks s1) = pick failed (tasks s) ∧
      all_in_hand (tasks s1) = all_in_hand (tasks s)) as (He1 & He2 & He3).
    { destruct (advance_tasks _ _ _ _ _ _ _ Ha) as [->|(n & b & _ & _ & _ & _ & ->)]; [done|].
      by rewrite !pick_wake, in_hand_wake. }
    rewrite He1 in Hp0. rewrite He2 in Hf0. rewrite He3 in Hh0.
    destruct (advance_placed _ _ _ _ _ _ _ Ha) as [Hnf Hpl].
    cbn [tasks set_tasks]. unfold one in Hf0 at 1. rewrite Hnf in Hf0. cbn in Hf0.
    exists ((if placed pc then [] else one failed m pc') ++ lost), ((if placed pc then one failed m pc' else []) ++ kept).
    rewrite Hf1, Hp1, <-Hf0, Hf. split; [destruct (placed pc); cbn; solve_Permutation|].
    assert (accepted (set_tasks s1 (<[k:=(m, pc')]> (tasks s1))) (all_in_hand (<[k:=(m, pc')]> (tasks s1))) ≡ₚ
      accepted s1 (in_hand pc') ++ rh) as -> by (unfold accepted; cbn; rewrite Hh1; solve_Permutation).
    assert (accepted s (in_hand pc) ++ rh ≡ₚ kept ++ pick placed (tasks s)) as Hp'
      by (rewrite <-Hp; unfold accepted; rewrite Hh0; solve_Permutation).
    apply (Permutation_app_inv_r (one placed m pc)). rewrite Hp0 in Hp'.
    trans ((accepted s1 (in_hand pc') ++ one placed m pc) ++ rh); [solve_Permutation|]. rewrite Hpl.
    trans ((accepted s (in_hand pc) ++ rh) ++ one placed m pc' ++ (if placed pc then one failed m pc' else []));
      [solve_Permutation|]. rewrite Hp'. solve_Permutation.
  - intros [= <-]. by exists lost, kept.
Qed.
(** An event in which no instance refuses a message and no actor fails to start. *)
Definition all_well (e : event) : bool := match e with Step _ ok => ok | _ => true end.

Lemma dropped_well window es s s' : Forall (λ e, all_well e = true) es →
  exec_all window es s = Some s' → dropped s' = dropped s.
Proof.
  intros Hes. revert s. induction Hes as [|e es Hw Hes IH]; intros s; cbn; [by intros [= <-]|].
  destruct (exec window e s) as [s1|] eqn:E; [|done]. cbn. intros ->%IH. destruct e as [m|k ok|]; cbn in *.
  - by injection E as <-.
  - subst ok. apply run_task_inv in E as (m & pc & pc' & s2 & _ & Ha & -> & _). cbn. by eapply advance_drops.
  - by injection E as <-.
Qed.

(** C17. Whatever the interleaving of messages, activations and stops, and whatever instances refuse, the messages
    that the actor was sent, those in its queue, those that an activation took from the queue and is still sending,
    and those that an instance refused when they came from the queue are together the messages whose task placed
    them and some of the tasks that then failed, each of them once: no message is sent or queued twice, and one that
    was answered with success is lost only in the log of refusals.  That log is empty when nothing was refused. *)
Theorem messages_are_placed_once window f es s : exec_all window es (state_new f) = Some s →
  ∃ lost kept others,
    pick failed (tasks s) ≡ₚ lost ++ kept ∧
    kept ++ pick placed (tasks s) ++ others ≡ₚ (tasks s).*1 ∧
    (sent s).*2 ++ pending s ++ all_in_hand (tasks s) ++ dropped s ≡ₚ kept ++ pick placed (tasks s) ∧
    (Forall (λ e, all_well e = true) es → dropped s = []).
Proof.
  intros He. destruct (reached_placed window s) as (lost & kept & Hf & Hp); [by exists f, es|].
  destruct (kept_placed _ _ _ Hf) as [others Ho]. exists lost, kept, others. split_and!; try done.
  intros Hes. by apply (dropped_well _ _ _ _ Hes He).
Qed.

(** ** Lemmas: the guard *)
Definition holder (pc : Pc) : bool :=
  match pc with
  | WinnerQueue | Activate ByGuard | Register ByGuard | StartActor ByGuard | Flush ByGuard _ _
  | Deliver ByGuard _ _ _ | Activated ByGuard _ => true
  | _ => false
  end.
Definition held (s : State) : nat := match guard s with Some _ => 1 | None => 0 end.
Lemma advance_holder window ok m pc s pc' s1 : advance window ok m pc s = Some (pc', s1) →
  (held s + length (one holder m pc') = held s1 + length (one holder m pc) ∨ holder pc = true ∧ guard s = None)%nat.
Proof.
  unfold held. destruct pc as [| | | |f|[]| | |w| | |[]|[]|[]|[] i []|[] i [] [|m' ms]|[] []|]; cbn; intros Ha;
    unfold tell, flush in *; repeat (case_match; simplify_eq/=); simplify_eq/=; eauto; left; cbn; congruence || lia.
Qed.
Lemma one_holder window s : reached window s → length (pick holder (tasks s)) = held s.
Proof.
  revert s. apply reached_ind; [done|]. intros [m|k ok|] s s' IH; cbn.
  - intros [= <-]. cbn [tasks set_tasks]. by rewrite pick_arrive.
  - intros (m & pc & pc' & s1 & Ha & -> & Hpick)%run_task_pick. destruct (Hpick holder) as (r & H0 & H1); [done|].
    cbn [tasks set_tasks]. change (held (set_tasks s1 (tasks s'))) with (held s1).
    rewrite H0 in IH. rewrite H1. rewrite length_app in *.
    destruct (advance_holder _ _ _ _ _ _ _ Ha) as [He|[Hh Hg]]; [lia|].
    unfold held in IH. rewrite Hg in IH. unfold one in IH. rewrite Hh in IH. cbn in IH. lia.
  - by intros [= <-].
Qed.

(** ** Lemmas: termination *)
Definition unfinished (pc : Pc) : bool := match pc with Done _ => false | _ => true end.
(** How many steps a task still has at most while the guard is not released; a message that it queues adds
    one, and so does one that it has taken from the queue. *)
Definition weight (pc : Pc) : nat :=
  match pc with
  | Lookup => 18 | IsActive => 17 | GetSender => 16 | GetFacet => 16 | StartActivation _ => 14
  | Queue _ => 13 | Loop => 15 | Acquire => 14 | Notified _ => 2 | Waiting _ => 1 | WinnerQueue => 13
  | Activate _ => 11 | Register _ => 10 | StartActor _ => 9 | Flush _ _ true => 8
  | Deliver _ _ true ms => 7 + length ms | Flush _ _ false => 6 | Deliver _ _ false ms => 5 + length ms
  | Activated _ _ => 4 | Done _ => 0
  end.
Definition weights (ts : list (nat * Pc)) : nat := sum_list ((λ t, weight t.2) <$> ts).
Lemma weights_insert ts k m pc pc' : ts !! k = Some (m, pc) →
  (weights (<[k := (m, pc')]> ts) + weight pc = weights ts + weight pc')%nat.
Proof.
  assert (∀ t us, weights (t :: us) = weight t.2 + weights us)%nat as Hc by done.
  revert k. induction ts as [|t ts IH]; intros [|k] Hk; [done..| |].
  - injection Hk as ->. cbn [insert list_insert]. rewrite !Hc. cbn. lia.
  - specialize (IH k Hk). change (<[S k := (m, pc')]> (t :: ts)) with (t :: <[k := (m, pc')]> ts). rewrite !Hc. lia.
Qed.
Lemma advance_weight window ok m pc s pc' s1 : advance window ok m pc s = Some (pc', s1) →
  unfinished pc = true ∧
  (unfinished pc' = true → weight pc' + length (pending s1) < weight pc + length (pending s))%nat.
Proof.
  destruct pc as [| | | |f|[]| | |w| | |[]|[]|[]|[] i []|[] i [] [|m' ms]|[] []|]; cbn; intros Ha;
    unfold tell, flush in *; repeat (case_match; simplify_eq/=); simplify_eq/=; (split; [done|]); intros ?;
    rewrite ?length_app; cbn; done || lia.
Qed.
(** A step finishes a task, or finishes none and comes nearer to that. *)
Lemma task_step_measure window s s' : task_step window s s' →
  (length (pick unfinished (tasks s')) < length (pick unfinished (tasks s)))%nat ∨
  length (pick unfinished (tasks s')) = length (pick unfinished (tasks s)) ∧
  (weights (tasks s') + length (pending s') < weights (tasks s) + length (pending s))%nat.
Proof.
  intros (k & ok & Hr). pose proof Hr as (m & pc & pc' & s1 & Hk & Ha & -> & Hk1)%run_task_inv.
  destruct (advance_weight _ _ _ _ _ _ _ Ha) as [Hu Hw]. cbn [tasks set_tasks].
  destruct (pick_task unfinished _ _ m pc pc' Hk1) as (rest & H1 & H2). unfold one in H1, H2. rewrite Hu in H1.
  destruct (advance_tasks _ _ _ _ _ _ _ Ha) as [Ht|(n & b & -> & -> & _ & _ & Ht)].
  - rewrite Ht in *. rewrite H1, H2, !length_app. pose proof (weights_insert _ _ m pc pc' Hk1).
    destruct (unfinished pc'); cbn; [specialize (Hw eq_refl); right|left]; lia.
  - left. rewrite Ht, pick_wake in H1 by done. rewrite H1, H2. cbn. lia.
Qed.
Lemma task_steps_terminate window s : Acc (λ s2 s1, task_step window s1 s2) s.
Proof.
  remember (length (pick unfinished (tasks s))) as n eqn:Hn. revert s Hn.
  induction (lt_wf n) as [n _ IHn]; intros s ->.
  remember (weights (tasks s) + length (pending s))%nat as w eqn:Hw. revert s Hw IHn.
  induction (lt_wf w) as [w _ IHw]; intros s -> IHn. constructor. intros s' Hs.
  destruct (task_step_measure _ _ _ Hs) as [Hlt|[He Hlt]]; [by eapply IHn|].
  eapply IHw; [exact Hlt|done|]. rewrite He. exact IHn.
Qed.

(** ** Lemmas: sleepers *)
(** Where a subscription cannot be late, whoever sleeps waits for the one that has the guard. *)
Definition awaits (s : State) (pc : Pc) : Prop :=
  match pc with Waiting n => guard s = Some n | Notified _ => False | _ => True end.
Definition awaited (s : State) : Prop := ∀ m pc, (m, pc) ∈ tasks s → awaits s pc.
Lemma wake_waits (n m n' : nat) (ts : list (nat * Pc)) :
  (m, Waiting n') ∈ wake n <$> ts → (m, Waiting n') ∈ ts ∧ n ≠ n'.
Proof.
  intros ([m' pc] & He & Hin)%list_elem_of_fmap. destruct pc; cbn in He; try discriminate.
  destruct (Nat.eqb_spec n n0); simplify_eq. done.
Qed.
Lemma advance_guard ok m pc s pc' s1 : advance false ok m pc s = Some (pc', s1) → awaits s pc →
  awaits s1 pc' ∧
  (tasks s1 = tasks s ∧ (guard s1 = guard s ∨ guard s = None) ∨
   ∃ n, guard s = Some n ∧ tasks s1 = wake n <$> tasks s).
Proof.
  destruct pc as [| | | |f|[]| | |w| | |[]|[]|[]|[] i []|[] i [] [|m' ms]|[] []|]; cbn; intros Ha Haw;
    unfold tell, flush in *; repeat (case_match; simplify_eq/=); simplify_eq/=; split; try done; try naive_solver;
    unfold release; match goal with s : State |- _ => destruct (guard s) end; cbn; eauto.
Qed.
Lemma awaits_wake s n m pc : awaited s → guard s = Some n → (m, pc) ∈ wake n <$> tasks s → ∀ s', awaits s' pc.
Proof.
  intros Hs Hg Hin s'. destruct pc; try done; cbn.
  - apply list_elem_of_fmap in Hin as ([m' pc] & He & Hin). destruct pc; cbn in He; try discriminate.
    + by apply (Hs _ _ Hin).
    + by destruct (Nat.eqb n n1).
  - apply wake_waits in Hin as [Hin Hn]. specialize (Hs _ _ Hin). cbn in Hs. congruence.
Qed.
Lemma reached_awaited s : reached false s → awaited s.
Proof.
  revert s. apply reached_ind; [by intros f m pc ?%elem_of_nil|]. intros [m|k ok|] s s' IH; cbn.
  - intros [= <-] m' pc. cbn. intros [Hin|[= -> ->]%list_elem_of_singleton]%elem_of_app; [|done]. by apply IH in Hin.
  - intros (m & pc & pc' & s1 & Hk & Ha & -> & Hk1)%run_task_inv m' pc2 Hin.
    destruct (advance_guard _ _ _ _ _ _ Ha) as [Hnew Hg]; [by eapply IH, list_elem_of_lookup_2|].
    change (awaits s1 pc2). cbn in Hin. apply list_elem_of_lookup in Hin as [j Hj]. destruct (decide (k = j)) as [<-|Hne].
    { rewrite list_lookup_insert_eq in Hj by by eapply lookup_lt_Some. by simplify_eq. }
    rewrite list_lookup_insert_ne in Hj by done. apply list_elem_of_lookup_2 in Hj.
    destruct Hg as [[Ht Hg]|(n & Hg & Ht)]; rewrite Ht in Hj; [|by eapply awaits_wake].
    specialize (IH _ _ Hj). destruct pc2; try done. cbn in *. destruct Hg; congruence.
  - intros [= <-] m' pc Hin. by apply IH in Hin.
Qed.
Lemma advance_progress window m pc s : unfinished pc = true → (∀ n, pc ≠ Waiting n) →
  is_Some (advance window true m pc s).
Proof.
  intros Hu Hw. destruct pc as [| | | |f|[]| | |w| | |[]|[]|[]|[] i []|[] i [] [|m' ms]|[] []|]; cbn in *; try done;
    repeat case_match; try done. by destruct (Hw n).
Qed.
Lemma stuck_task window s m pc : (∀ s', ¬ task_step window s s') → (m, pc) ∈ tasks s →
  (∃ b, pc = Done b) ∨ (∃ n, pc = Waiting n).
Proof.
  intros Hst [k Hk]%list_elem_of_lookup.
  destruct (unfinished pc) eqn:Hu; [|destruct pc; eauto; done].
  assert ((∃ n, pc = Waiting n) ∨ ∀ n, pc ≠ Waiting n) as [Hw|Hw] by (destruct pc; eauto; right; congruence); [by right|].
  exfalso. destruct (advance_progress window m pc s Hu Hw) as [[pc' s1] Ha].
  eapply (Hst (set_tasks s1 (<[k := (m, pc')]> (tasks s1)))). exists k, true. unfold run_task.
  rewrite Hk. cbn -[advance]. by rewrite Ha.
Qed.
Lemma stuck_guard window s : reached window s → (∀ s', ¬ task_step window s s') → guard s = None.
Proof.
  intros Hr Hst. pose proof (one_holder _ _ Hr) as Hh. unfold held in Hh. destruct (guard s) as [n|]; [|done].
  destruct (pick holder (tasks s)) as [|m l] eqn:Hp; [done|]. exfalso.
  assert (m ∈ pick holder (tasks s)) as ([m' pc] & Hin & He)%list_elem_of_omap by (rewrite Hp; left).
  destruct (stuck_task _ _ _ _ Hst Hin) as [[b ->]|[i ->]]; done.
Qed.

(** C16. The activations and messages of an actor come to an end in whatever order their steps are taken: no
    run of steps is infinite, and one that cannot go on has answered every message and let go of the guard.
    The one exception is a message that subscribed to the end of an activation only after it: it sleeps. *)
Theorem messages_come_to_rest window s : reached window s →
  Acc (λ s2 s1, task_step window s1 s2) s ∧
  ∀ s', rtc (task_step window) s s' → (∀ s'', ¬ task_step window s' s'') →
    guard s' = None ∧
    ∀ m pc, (m, pc) ∈ tasks s' → (∃ b, pc = Done b) ∨ window = true ∧ ∃ n, pc = Waiting n.
Proof.
  intros Hr. split; [apply task_steps_terminate|]. intros s' Hs Hst.
  assert (reached window s') as Hr'. { clear Hst. induction Hs; eauto using reached_step. }
  pose proof (stuck_guard _ _ Hr' Hst) as Hg. split; [done|]. intros m pc Hin.
  destruct (stuck_task _ _ _ _ Hst Hin) as [?|[n ->]]; [by left|right].
  destruct window; [by eauto|]. pose proof (reached_awaited _ Hr' _ _ Hin). cbn in *. congruence.
Qed.

(** ** Lemmas: a failed creation *)

(** Nothing is under way, and no activation has failed. *)
Definition ready (s : State) : Prop :=
  guard s = None ∧ pending s = [] ∧ (∀ m pc, (m, pc) ∈ tasks s → ∃ b, pc = Done b) ∧
  (live s = None → ∀ f, facet s = Some f → flags s !! f ≠ Some true).
Definition is_stop (e : event) : bool := match e with Stop => true | _ => false end.
(** The behaviour of the actor cannot be created. *)
Definition creation_fails (e : event) : bool := match e with Step _ ok => negb ok | _ => true end.
(** The places of a message that finds the flag of the facet set, and of the one that set it. *)
Definition ignored (f : nat) (pc : Pc) : Prop :=
  pc ∈ [Lookup; IsActive; GetFacet; StartActivation f; Queue false; Done true].
Definition activating (pc : Pc) : bool :=
  match pc with
  | Queue true | Activate ByFacet | Register ByFacet | Activated ByFacet false => true
  | _ => false
  end.
Definition flag_set (f : nat) (s : State) : nat := match flags s !! f with Some true => 1 | _ => 0 end.
(** The actor does not run; [n] messages had failed before; at most one activates, and then its facet is flagged. *)
Record failing (f n : nat) (out : list (nat * nat)) (s : State) : Prop := {
  fl_live : live s = None;
  fl_facet : facet s = Some f;
  fl_sent : sent s = out;
  fl_tasks : ∀ m pc, (m, pc) ∈ tasks s → ignored f pc ∨ activating pc = true ∨ ∃ b, pc = Done b;
  fl_count : (length (pick activating (tasks s)) + length (pick failed (tasks s)) = n + flag_set f s)%nat
}.
Lemma advance_failing window ok m pc s pc' s1 f :
  live s = None → facet s = Some f → ignored f pc ∨ activating pc = true ∨ (∃ b, pc = Done b) →
  ok = false ∨ activating pc = false →
  advance window ok m pc s = Some (pc', s1) →
  (ignored f pc' ∨ activating pc' = true ∨ ∃ b, pc' = Done b) ∧
  live s1 = None ∧ facet s1 = Some f ∧ sent s1 = sent s ∧ tasks s1 = tasks s ∧
  (length (one activating m pc') + length (one failed m pc') + flag_set f s =
   length (one activating m pc) + length (one failed m pc) + flag_set f s1)%nat.
Proof.
  intros Hl Hf Hpc Hok Ha. unfold flag_set. destruct Hpc as [Hi|[Hb|[b ->]]]; [|..|done].
  - unfold ignored in *. clear Hok.
    do 3 (apply elem_of_cons in Hi as [->|Hi]; [cbn in Ha; rewrite ?Hl, ?Hf in Ha; simplify_eq/=;
      (split; [left; set_solver|]); by split_and!|]).
    apply elem_of_cons in Hi as [->|Hi].
    { cbn in Ha. destruct (flags s !! f) as [[]|] eqn:Hfl; simplify_eq/=; rewrite ?lookup_insert_eq, ?Hfl;
        (split; [first [by right; left | left; set_solver]|]); by split_and!. }
    do 2 (apply elem_of_cons in Hi as [->|Hi]; [cbn in Ha; simplify_eq/=;
      (split; [left; set_solver|]); by split_and!|]).
    by apply elem_of_nil in Hi.
  - destruct Hok as [->|Hok]; [|congruence].
    destruct pc as [| | | | |[]| | | | | |[]|[]|[]|[] i []|[] i [] ms|[] []|]; cbn in Hb; try done; cbn in Ha;
      rewrite ?Hl in Ha; simplify_eq/=; (split; [eauto|]); by split_and!.
Qed.
Lemma exec_failing window e f n out s s' :
  is_stop e = false → creation_fails e = true ∨ pick activating (tasks s) = [] →
  failing f n out s → exec window e s = Some s' → failing f n out s'.
Proof.
  intros He Hc [Hl Hf Hs Ht Hn]. destruct e as [m|k ok|]; [| |done]; cbn.
  - intros [= <-]. split; try done; cbn [tasks set_tasks].
    + intros m' pc [Hin|[= -> ->]%list_elem_of_singleton]%elem_of_app; [by eapply Ht|]. left. unfold ignored. set_solver.
    + by rewrite !pick_arrive.
  - intros (m & pc & pc' & s1 & Hk & Ha & -> & _)%run_task_inv.
    assert (ok = false ∨ activating pc = false) as Hok.
    { destruct Hc as [Hc|Hc]; [left; by destruct ok|right]. destruct (activating pc) eqn:Hpc; [|done].
      pose proof (elem_of_pick activating _ _ _ _ Hk Hpc) as Hin. rewrite Hc in Hin. by apply elem_of_nil in Hin. }
    destruct (advance_failing _ _ _ _ _ _ _ _ Hl Hf (Ht _ _ (list_elem_of_lookup_2 _ _ _ Hk)) Hok Ha)
      as (Hpc' & Hl' & Hf' & Hs' & Ht' & Hc').
    split; cbn [live facet sent tasks set_tasks]; try congruence.
    + intros m' pc2. rewrite Ht'. intros [j Hj]%list_elem_of_lookup. destruct (decide (k = j)) as [<-|Hne].
      * rewrite list_lookup_insert_eq in Hj by by eapply lookup_lt_Some. by simplify_eq.
      * rewrite list_lookup_insert_ne in Hj by done. by eapply Ht, list_elem_of_lookup_2.
    + destruct (pick_task activating _ _ m pc pc' Hk) as (ra & Ha0 & Ha1).
      destruct (pick_task failed _ _ m pc pc' Hk) as (rf & Hf0 & Hf1).
      change (flag_set f (set_tasks _ _)) with (flag_set f s1).
      rewrite Ht', Ha1, Hf1, !length_app. rewrite Ha0, Hf0, !length_app in Hn. lia.
Qed.
Lemma exec_all_inv window (P : State → Prop) (Q : event → Prop) es s s' :
  (∀ e s s', Q e → P s → exec window e s = Some s' → P s') →
  Forall Q es → P s → exec_all window es s = Some s' → P s'.
Proof.
  intros Hstep Hes. revert s. induction Hes as [|e es He Hes IH]; intros s Hs; cbn; [by intros [= <-]|].
  destruct (exec window e s) as [s1|] eqn:E; [|done]. cbn. apply IH. by eapply Hstep.
Qed.
Lemma ready_failing s f : ready s → live s = None → facet s = Some f →
  failing f (length (pick failed (tasks s))) (sent s) s.
Proof.
  intros (_ & _ & Hd & Hfl) Hl Hf. split; try done; [by eauto|].
  unfold flag_set. specialize (Hfl Hl f Hf).
  replace (pick activating (tasks s)) with (@nil nat).
  - destruct (flags s !! f) as [[]|]; [done|cbn; lia..].
  - revert Hd. generalize (tasks s). induction l as [|[m pc] l IH]; intros Hd; [done|]. rewrite pick_cons.
    destruct (Hd m pc) as [b ->]; [left|]. cbn. apply IH. intros m' pc' Hin. apply (Hd m'). by right.
Qed.
(** Once the failure was answered nobody activates, and none of the messages from the [k]-th on fails. *)
Record wedged (f k : nat) (out : list (nat * nat)) (s : State) : Prop := {
  wd_live : live s = None;
  wd_facet : facet s = Some f;
  wd_flag : flags s !! f = Some true;
  wd_sent : sent s = out;
  wd_tasks : ∀ j m pc, tasks s !! j = Some (m, pc) → ignored f pc ∨ (j < k)%nat ∧ ∃ b, pc = Done b
}.
Lemma advance_ignored window ok m pc s pc' s1 f :
  live s = None → facet s = Some f → flags s !! f = Some true → ignored f pc →
  advance window ok m pc s = Some (pc', s1) →
  ignored f pc' ∧ live s1 = None ∧ facet s1 = Some f ∧ flags s1 !! f = Some true ∧ sent s1 = sent s ∧ tasks s1 = tasks s.
Proof.
  intros Hl Hf Hfl Hi Ha. unfold ignored in *.
  repeat (apply elem_of_cons in Hi as [->|Hi]; [cbn in Ha; rewrite ?Hl, ?Hf, ?Hfl in Ha; simplify_eq/=;
    try (split_and!; try done; set_solver)|]).
  by apply elem_of_nil in Hi.
Qed.
Lemma exec_wedged window e f k out s s' : is_stop e = false →
  wedged f k out s → exec window e s = Some s' → wedged f k out s'.
Proof.
  intros He [Hl Hf Hfl Hs Ht]. destruct e as [m|j ok|]; [| |done]; cbn.
  - intros [= <-]. split; try done; cbn [tasks set_tasks]. intros j m' pc [Hj|[_ Hj]]%lookup_app_Some; [by eapply Ht|].
    apply list_lookup_singleton_Some in Hj as [_ [= <- <-]]. left. unfold ignored. set_solver.
  - intros (m & pc & pc' & s1 & Hk & Ha & -> & _)%run_task_inv.
    destruct (Ht _ _ _ Hk) as [Hi|(_ & b & ->)]; [|done].
    destruct (advance_ignored _ _ _ _ _ _ _ _ Hl Hf Hfl Hi Ha) as (Hi' & Hl' & Hf' & Hfl' & Hs' & Ht').
    split; cbn [live facet flags sent tasks set_tasks]; try congruence.
    rewrite Ht'. intros i m' pc2 Hp. destruct (decide (j = i)) as [<-|Hne].
    + rewrite list_lookup_insert_eq in Hp by by eapply lookup_lt_Some. simplify_eq. by left.
    + rewrite list_lookup_insert_ne in Hp by done. by eapply Ht.
Qed.
Lemma failing_wedged f n out s : failing f n out s → (n < length (pick failed (tasks s)))%nat →
  wedged f (length (tasks s)) out s.
Proof.
  intros [Hl Hf Hs Ht Hc] Hn. unfold flag_set in Hc.
  destruct (flags s !! f) as [[]|] eqn:Hfl; try (exfalso; lia).
  assert (pick activating (tasks s) = []) as Ha by (apply nil_length_inv; lia).
  split; try done. intros j m pc Hj. pose proof (lookup_lt_Some _ _ _ Hj).
  destruct (Ht m pc) as [?|[Hb|?]]; [by eapply list_elem_of_lookup_2|by left| |by right].
  pose proof (elem_of_pick _ _ _ _ _ Hj Hb) as Hin. rewrite Ha in Hin. by apply elem_of_nil in Hin.
Qed.

(** C36. An actor whose behaviour could not be created is stranded.  A facet admits the activation of an actor
    that does not run and that nobody else is activating, and as long as the creation of the behaviour fails nothing
    is sent and no actor starts, whatever messages come and however they interleave; once one of them has been
    answered with that failure, and whether the behaviour could be created again or not, every later message
    is answered with success, still none is delivered and none starts the actor: the flag of the facet is cleared only
    where an actor is stopped, and this one does not run. *)
Theorem failed_creation_strands_actor window s f es1 s1 es2 s2 :
  ready s → live s = None → facet s = Some f →
  Forall (λ e, is_stop e = false ∧ creation_fails e = true) es1 → exec_all window es1 s = Some s1 →
  (length (pick failed (tasks s)) < length (pick failed (tasks s1)))%nat →
  Forall (λ e, is_stop e = false) es2 → exec_all window es2 s1 = Some s2 →
  sent s1 = sent s ∧ live s1 = None ∧
  sent s2 = sent s ∧ live s2 = None ∧ facet s2 = Some f ∧ flags s2 !! f = Some true ∧
  ∀ k m b, (length (tasks s1) <= k)%nat → tasks s2 !! k = Some (m, Done b) → b = true.
Proof.
  intros Hr Hl Hf Hes1 He1 Hfail Hes2 He2. pose proof (ready_failing _ _ Hr Hl Hf) as H0.
  assert (failing f (length (pick failed (tasks s))) (sent s) s1) as H1.
  { eapply exec_all_inv; [|exact Hes1|exact H0|exact He1]. cbn. intros e t t' [] ?. eapply exec_failing; eauto. }
  pose proof (failing_wedged _ _ _ _ H1 Hfail) as Hw. destruct H1 as [Hl1 _ Hs1 _ _].
  assert (wedged f (length (tasks s1)) (sent s) s2) as H2.
  { eapply exec_all_inv; [|exact Hes2|exact Hw|exact He2]. cbn. intros e t t'. apply exec_wedged. }
  destruct H2 as [Hl2 Hf2 Hfl2 Hs2 Ht2]. split_and!; try done. intros k m b Hk Hj.
  destruct (Ht2 _ _ _ Hj) as [Hi|[Hlt _]]; [|lia]. unfold ignored in Hi. set_solver.
Qed.

(** ** Lemmas: one message at a time *)
(** A task runs until it can go no further. *)
Fixpoint run_alone (window : bool) (fuel k : nat) (s : State) : State :=
  match fuel with
  | O => s
  | S fuel => match run_task window k true s with Some s' => run_alone window fuel k s' | None => s end
  end.
Definition deliver (window : bool) (s : State) (m : nat) : State :=
  run_alone window 16 (length (tasks s)) (set_tasks s (tasks s ++ [(m, Lookup)])).
Lemma wake_done n (ts : list (nat * Pc)) : (∀ m pc, (m, pc) ∈ ts → ∃ b, pc = Done b) → wake n <$> ts = ts.
Proof.
  intros Hd. rewrite <-(list_fmap_id ts) at 2. apply list_fmap_ext. intros i [m pc] Hin%list_elem_of_lookup_2.
  by destruct (Hd _ _ Hin) as [b ->].
Qed.
(** The same for a task that is alone. *)
Fixpoint solo (window : bool) (fuel m : nat) (pc : Pc) (s : State) : Pc * State :=
  match fuel with
  | O => (pc, s)
  | S fuel => match advance window true m pc s with Some (pc', s') => solo window fuel m pc' s' | None => (pc, s) end
  end.
Lemma advance_set_tasks window m pc s ts :
  (∀ n b, pc = Activated ByGuard b → wake n <$> ts = ts) →
  advance window true m pc (set_tasks s ts) = (λ r, (r.1, set_tasks r.2 ts)) <$> advance window true m pc s.
Proof.
  intros Hw. destruct pc as [| | | |f|[]| | |w| | |[]|[]|[]|[] i []|[] i [] [|m' ms]|[] []|]; cbn; try done;
    repeat (case_match; simplify_eq/=; try done); unfold release; cbn; destruct (guard s); cbn; by erewrite ?Hw.
Qed.
Lemma run_alone_solo window fuel m ts pc s : (∀ m pc, (m, pc) ∈ ts → ∃ b, pc = Done b) →
  run_alone window fuel (length ts) (set_tasks s (ts ++ [(m, pc)])) =
  set_tasks (solo window fuel m pc s).2 (ts ++ [(m, (solo window fuel m pc s).1)]).
Proof.
  intros Hd. revert pc s. induction fuel as [|fuel IH]; intros pc s; [done|]. cbn [run_alone solo].
  unfold run_task. cbn [tasks set_tasks]. rewrite lookup_app_r, Nat.sub_diag by lia. cbn -[advance].
  rewrite advance_set_tasks; [|by intros n b ->; rewrite fmap_app, wake_done].
  destruct (advance window true m pc s) as [[pc' s']|]; cbn; [|done].
  rewrite insert_app_r_alt, Nat.sub_diag by lia. exact (IH pc' s').
Qed.
Lemma deliver_ready window s m : ready s →
  ∃ i, ready (deliver window s m) ∧ live (deliver window s m) = Some i ∧ from_option (eq i) True (live s) ∧
    sent (deliver window s m) = sent s ++ [(i, m)] ∧ tasks (deliver window s m) = tasks s ++ [(m, Done true)].
Proof.
  intros (Hg & Hp & Hd & Hf). unfold deliver. rewrite run_alone_solo by done.
  assert (∃ i s', solo window 16 m Lookup s = (Done true, s') ∧ guard s' = None ∧ pending s' = [] ∧
    live s' = Some i ∧ from_option (eq i) True (live s) ∧ sent s' = sent s ++ [(i, m)])
    as (i & s' & -> & Hg' & Hp' & Hl' & Hi & Hse).
  { destruct s as [fa fl gu pe li st se ne ts]. cbn in Hg, Hp, Hf. subst gu pe.
    destruct li as [i|]; [|destruct fa as [f|]; [destruct (fl !! f) as [[]|] eqn:Hfl; [by destruct (Hf eq_refl f)|..]|]];
      cbn; rewrite ?Hfl; cbn; do 2 eexists; (split; [done|]); cbn; rewrite ?app_nil_r; by split_and!. }
  exists i. cbn. split; [|by split_and!]. split; [done|]. split; [done|]. split; [|cbn; congruence].
  intros m' pc [Hin|[= -> ->]%list_elem_of_singleton]%elem_of_app; eauto.
Qed.
Lemma deliver_all_ready window ms s i : ready s → live s = Some i →
  let s' := foldl (deliver window) s ms in
  ready s' ∧ live s' = Some i ∧ sent s' = sent s ++ ((λ m, (i, m)) <$> ms) ∧
  tasks s' = tasks s ++ ((λ m, (m, Done true)) <$> ms).
Proof.
  revert s. induction ms as [|m ms IH]; intros s Hr Hl; cbn; [by rewrite !app_nil_r|].
  destruct (deliver_ready window s m Hr) as (j & Hr' & Hl' & Hj & Hs & Ht). rewrite Hl in Hj. cbn in Hj. subst j.
  destruct (IH _ Hr' Hl') as (Hr2 & Hl2 & Hs2 & Ht2). cbn in *. by rewrite Hs2, Ht2, Hs, Ht, <-!app_assoc.
Qed.

(** Messages that come one after the other, each when the one before it has been answered, are all
    answered with success and reach one instance in their order; the first starts it when the actor does not
    run, and only a facet left by a failed activation stands in their way. *)
Theorem messages_in_turn_reach_one_instance window s m ms : ready s →
  ∃ i, let s' := foldl (deliver window) s (m :: ms) in
  ready s' ∧ live s' = Some i ∧ from_option (eq i) True (live s) ∧
  sent s' = sent s ++ ((λ m, (i, m)) <$> m :: ms) ∧
  tasks s' = tasks s ++ ((λ m, (m, Done true)) <$> m :: ms).
Proof.
  intros Hr. destruct (deliver_ready window s m Hr) as (i & Hr' & Hl' & Hj & Hs & Ht). exists i.
  destruct (deliver_all_ready window ms _ i Hr' Hl') as (Hr2 & Hl2 & Hss & Hts).
  cbn [foldl fmap list_fmap]. by rewrite Hss, Hts, Hs, Ht, <-!app_assoc.
Qed.

(** ** Concrete runs *)
Module Sample.
Definition steps (t n : nat) : list event := repeat (Step t true) n.
Definition arrivals : list event := [Arrive 1%nat; Arrive 2%nat].
Definition result (window : bool) (es : list event) (s : State) :=
  (λ s, (tasks s, sent s, pending s, started s, live s)) <$> exec_all window es s.

(** Two messages find a suspended actor.  The first sets the flag of its facet and registers a new facet,
    whose flag is clear, before it starts the instance; the second takes the new facet for that of an actor
    that nobody activates, and starts it again.  Two instances run, the first without an entry. *)
Definition twice : list event := arrivals ++ steps 0 7 ++ steps 1 7 ++ steps 0 8 ++ steps 1 6.
Example activated_twice :
  result false twice (state_new (Some 0%nat)) =
  Some ([(1%nat, Done true); (2%nat, Done true)], [(3%nat, 1%nat); (3%nat, 2%nat)], [], [3%nat; 4%nat], Some 4%nat).
Proof. reflexivity. Qed.
(** The first message has read the facet when the second activates the actor: it finds the flag of the old
    facet set and queues its message after the queue was flushed.  It is answered with success, and the
    message stays in the queue of an actor that runs. *)
Definition late : list event := arrivals ++ steps 0 3 ++ steps 1 14 ++ steps 0 2.
Example queued_for_a_running_actor :
  result false late (state_new (Some 0%nat)) =
  Some ([(1%nat, Done true); (2%nat, Done true)], [(2%nat, 2%nat)], [1%nat], [2%nat], Some 2%nat).
Proof. reflexivity. Qed.
(** The second message finds the guard taken and subscribes after it was released: it sleeps while the
    actor runs. *)
Definition sleepy : list event := arrivals ++ steps 0 6 ++ steps 1 5 ++ steps 0 9 ++ steps 1 1.
Example sleeps_beside_a_running_actor :
  result true sleepy (state_new None) =
  Some ([(1%nat, Done true); (2%nat, Waiting 0)], [(2%nat, 1%nat)], [], [2%nat], Some 2%nat).
Proof. reflexivity. Qed.
(** The instance refuses the message of the activation when it comes from the queue: the message is dropped and
    its sender gets a success. *)
Definition refused : list event := [Arrive 1%nat] ++ steps 0 9 ++ [Step 0 false] ++ steps 0 4.
Example refused_message_is_dropped :
  (λ s, (tasks s, sent s, pending s, dropped s)) <$> exec_all false refused (state_new (Some 0%nat)) =
  Some ([(1%nat, Done true)], [], [], [1%nat]).
Proof. reflexivity. Qed.
(** The behaviour cannot be created, and the message of the activation fails. *)
Definition broken : list event := [Arrive 1%nat] ++ repeat (Step 0 false) 8.
Definition after_broken : State :=
  mkState (Some 0%nat) {[0%nat := true]} None [1%nat] None [] [] [] 1 [(1%nat, Done false)].
Example broken_strands : exec_all false broken (state_new (Some 0%nat)) = Some after_broken.
Proof. reflexivity. Qed.
(** The behaviour is created and the start of the actor fails: the facet that was bound in between has a clear
    flag, and the next message starts the actor and is delivered after the first. *)
Definition failed_start : list event := [Arrive 1%nat] ++ steps 0 7 ++ [Step 0 false; Step 0 true; Arrive 2%nat] ++ steps 1 15.
Example failed_start_does_not_strand :
  result false failed_start (state_new (Some 0%nat)) =
  Some ([(1%nat, Done false); (2%nat, Done true)], [(3%nat, 1%nat); (3%nat, 2%nat)], [], [3%nat], Some 3%nat).
Proof. reflexivity. Qed.
End Sample.

Lemma messages_are_placed_once_witness :
  ∃ s, exec_all false Sample.refused (state_new (Some 0%nat)) = Some s ∧ dropped s = [1%nat] ∧
  ∃ lost kept others,
    pick failed (tasks s) ≡ₚ lost ++ kept ∧
    kept ++ pick placed (tasks s) ++ others ≡ₚ (tasks s).*1 ∧
    (sent s).*2 ++ pending s ++ all_in_hand (tasks s) ++ dropped s ≡ₚ kept ++ pick placed (tasks s) ∧
    (Forall (λ e, all_well e = true) Sample.refused → dropped s = []).
Proof.
  eexists. split; [vm_compute; reflexivity|]. split; [reflexivity|].
  by apply (messages_are_placed_once false (Some 0%nat) Sample.refused).
Defined.
Lemma messages_come_to_rest_witness :
  ∃ s, exec_all true Sample.sleepy (state_new None) = Some s ∧ Acc (λ s2 s1, task_step true s1 s2) s.
Proof.
  eexists. split; [vm_compute; reflexivity|].
  apply (messages_come_to_rest true). by exists None, Sample.sleepy.
Defined.
Lemma failed_creation_strands_actor_witness :
  ∃ s', exec_all false (Arrive 2%nat :: Sample.steps 1 5) Sample.after_broken = Some s' ∧
  sent s' = [] ∧ live s' = None ∧ tasks s' !! 1%nat = Some (2%nat, Done true).
Proof.
  eexists. split; [vm_compute; reflexivity|].
  refine (_ (failed_creation_strands_actor false (state_new (Some 0%nat)) 0 Sample.broken Sample.after_broken
    (Arrive 2%nat :: Sample.steps 1 5) _ _ eq_refl eq_refl _ eq_refl _ _ eq_refl)).
  - intros (_ & _ & Hs & Hl & _). exact (conj Hs (conj Hl eq_refl)).
  - split_and!; try done; [by intros m pc ?%elem_of_nil|]. by intros _ f [= <-].
  - by repeat constructor.
  - cbn. lia.
  - by repeat constructor.
Defined.
Lemma messages_in_turn_reach_one_instance_witness :
  ready (state_new (Some 0%nat)) ∧
  ∃ i, sent (foldl (deliver false) (state_new (Some 0%nat)) [7; 8; 9]%nat) = [(i, 7%nat); (i, 8%nat); (i, 9%nat)].
Proof.
  assert (ready (state_new (Some 0%nat))) as Hr.
  { split_and!; try done; [by intros m pc ?%elem_of_nil|]. by intros _ f [= <-]. }
  split; [exact Hr|]. destruct (messages_in_turn_reach_one_instance false _ 7 [8; 9]%nat Hr) as (i & _ & _ & _ & Hs & _).
  exists i. exact Hs.
Defined.
