(* ===== verification/Supervisor.v ===== *)
(** Supervisor: the supervision of actors, crates/actor/src/supervisor/ (restart.rs, tree.rs, mod.rs)
    and child_spec.rs.

    A handler is a computation in a monad of state and error, composed as the source composes it;
    what it does to other components (events, links, the actor registry, the stop of an actor) is
    recorded in a trace of effects.  The table of children is keyed by the canonical form of the
    identities, which is how they compare.  A task is a number; aborting it takes it out of the
    running ones.  The clock is the argument [clock], read in the order of the program; a start
    function may answer differently at every call, so it takes the same counter.
    The event channel is taken to have room. *)
From S2P Require Import Prelude Text Identity.

(** ** Data *)

Inductive SupervisionStrategy :=
| OneForOne (max_restarts within_seconds : Z)
| OneForAll (max_restarts within_seconds : Z)
| RestForOne (max_restarts within_seconds : Z)
| Adaptive (initial_strategy : SupervisionStrategy) (learning_rate : f64)
| Custom (name : string).

Inductive ProtoRestartPolicy :=
| RestartPolicyUnspecified | RestartPolicyPermanent | RestartPolicyTransient
| RestartPolicyTemporary | RestartPolicyExponentialBackoff.
Definition policy_try_from (z : Z) : option ProtoRestartPolicy :=
  match z with
  | 0 => Some RestartPolicyUnspecified | 1 => Some RestartPolicyPermanent
  | 2 => Some RestartPolicyTransient | 3 => Some RestartPolicyTemporary
  | 4 => Some RestartPolicyExponentialBackoff | _ => None
  end.

Inductive SupervisorError :=
| ActorCreationFailed (msg : string)
| ChildNotFound (id : string)
| MaxRestartsExceeded
| RestartFailed (msg : string)
| InvalidStrategy (msg : string)
| ConfigError (msg : string).
(** A handler that does not return [Ok]: it returns an error, or it panics. *)
Inductive Abrupt := Failed (e : SupervisorError) | Panicked.

Inductive SupervisorEventType :=
| ChildStarted | ChildStopped | ChildFailed | ChildRestarted | MaxRestarts | StrategyAdapted.
Record SupervisorEvent := mkEvent {
  event_type : SupervisorEventType; ev_actor_id : string; ev_restart_count : Z; ev_reason : string
}.
Record SupervisorStats := mkStats {
  total_restarts : Z; successful_restarts : Z; failed_restarts : Z; strategy_adaptations : Z;
  failure_patterns : gmap string Z
}.

(** The effects on other components. *)
Inductive Effect :=
| SendEvent (e : SupervisorEvent)
| StopActor (id : string)
| RegisterStarted (id : string)
| RegisterParentChild (parent child : string)
| UnregisterParentChild (parent child : string)
| Link (parent child : string)
| Unlink (parent child : string).

(** What the supervisor uses of actors and facets. *)
Class ActorOps (Actor Facet FacetProto Locator : Type) := {
  actor_registry : Locator → bool;
  facet_registry : Locator → option (list FacetProto → list Facet);
  attach_facet : Actor → Facet → Actor * result string ();
  set_context : Locator → Actor → Actor;
  actor_start : Actor → result string Actor
}.

Section supervisor.
Context {Actor Facet FacetProto Locator : Type} `{Ops : !ActorOps Actor Facet FacetProto Locator}.
Variable clock : nat → Z.

Inductive StartedChild := Worker (a : Actor) | SupervisorChild.
Record ChildSpec := mkSpec {
  spec_actor_id : ActorId;
  role : string;
  restart : Z;
  shutdown_timeout : option (Z * Z);
  spec_facets : list FacetProto;
  start_fn : nat → result string StartedChild
}.
Definition restart_policy (s : ChildSpec) : ProtoRestartPolicy :=
  default RestartPolicyPermanent (policy_try_from (restart s)).

Record SupervisedActor := mkChild {
  actor : Actor;
  handle : option nat;
  restart_count : Z;
  last_restart : option Z;
  restart_timestamps : list Z;
  spec : ChildSpec
}.

Record Supervisor := mkSup {
  sup_id : string;
  strategy : SupervisionStrategy;
  children : list (string * SupervisedActor);
  stats : SupervisorStats;
  links : bool;
  service_locator : option Locator;
  ticks : nat;
  running : gset nat;
  next_task : nat;
  trace : list Effect
}.

Definition M (A : Type) : Type := Supervisor → Supervisor * result Abrupt A.
#[local] Instance M_ret : MRet M := λ A a s, (s, Ok a).
#[local] Instance M_bind : MBind M := λ A B k m s,
  match m s with
  | (s, Ok a) => k a s
  | (s, Err e) => (s, Err e)
  end.
Definition throw {A} (e : SupervisorError) : M A := λ s, (s, Err (Failed e)).
Definition panic {A} : M A := λ s, (s, Err Panicked).
Definition gets {A} (f : Supervisor → A) : M A := λ s, (s, Ok (f s)).
Definition modify (f : Supervisor → Supervisor) : M () := λ s, (f s, Ok ()).
Definition skip : M () := mret ().

Definition set_children (f : list (string * SupervisedActor) → list (string * SupervisedActor))
    (s : Supervisor) : Supervisor :=
  mkSup (sup_id s) (strategy s) (f (children s)) (stats s) (links s) (service_locator s) (ticks s)
    (running s) (next_task s) (trace s).
Definition set_stats (f : SupervisorStats → SupervisorStats) (s : Supervisor) : Supervisor :=
  mkSup (sup_id s) (strategy s) (children s) (f (stats s)) (links s) (service_locator s) (ticks s)
    (running s) (next_task s) (trace s).
Definition set_strategy (st : SupervisionStrategy) (s : Supervisor) : Supervisor :=
  mkSup (sup_id s) st (children s) (stats s) (links s) (service_locator s) (ticks s)
    (running s) (next_task s) (trace s).
Definition set_tasks (r : gset nat) (n : nat) (s : Supervisor) : Supervisor :=
  mkSup (sup_id s) (strategy s) (children s) (stats s) (links s) (service_locator s) (ticks s)
    r n (trace s).

Definition tick : M nat := λ s,
  (mkSup (sup_id s) (strategy s) (children s) (stats s) (links s) (service_locator s)
     (S (ticks s)) (running s) (next_task s) (trace s), Ok (ticks s)).
Definition now : M Z := n ← tick; mret (clock n).
Definition emit (e : Effect) : M () := modify (λ s,
  mkSup (sup_id s) (strategy s) (children s) (stats s) (links s) (service_locator s) (ticks s)
    (running s) (next_task s) (trace s ++ [e])).
Definition send_event (ty : SupervisorEventType) (id : string) (count : Z) (reason : string) : M () :=
  emit (SendEvent (mkEvent ty id count reason)).
Definition abort (h : option nat) : M () :=
  match h with Some t => modify (λ s, set_tasks (running s ∖ {[t]}) (next_task s) s) | None => skip end.
Definition spawn : M nat := λ s,
  (set_tasks ({[next_task s]} ∪ running s) (S (next_task s)) s, Ok (next_task s)).

Definition add_total (st : SupervisorStats) : SupervisorStats :=
  mkStats (u64_add (total_restarts st) 1) (successful_restarts st) (failed_restarts st)
    (strategy_adaptations st) (failure_patterns st).
Definition add_successful (st : SupervisorStats) : SupervisorStats :=
  mkStats (total_restarts st) (u64_add (successful_restarts st) 1) (failed_restarts st)
    (strategy_adaptations st) (failure_patterns st).
Definition add_failed (st : SupervisorStats) : SupervisorStats :=
  mkStats (total_restarts st) (successful_restarts st) (u64_add (failed_restarts st) 1)
    (strategy_adaptations st) (failure_patterns st).
Definition add_adaptation (st : SupervisorStats) : SupervisorStats :=
  mkStats (total_restarts st) (successful_restarts st) (failed_restarts st)
    (u32_add (strategy_adaptations st) 1) (failure_patterns st).
Definition add_pattern (reason : string) (st : SupervisorStats) : SupervisorStats :=
  mkStats (total_restarts st) (successful_restarts st) (failed_restarts st)
    (strategy_adaptations st)
    (<[reason := u32_add (default 0 (failure_patterns st !! reason)) 1]> (failure_patterns st)).

Definition set_handle (h : option nat) (c : SupervisedActor) : SupervisedActor :=
  mkChild (actor c) h (restart_count c) (last_restart c) (restart_timestamps c) (spec c).
Definition set_timestamps (ts : list Z) (c : SupervisedActor) : SupervisedActor :=
  mkChild (actor c) (handle c) (restart_count c) (last_restart c) ts (spec c).
Definition restarted (a : Actor) (h : nat) (t : Z) (c : SupervisedActor) : SupervisedActor :=
  mkChild a (Some h) (u32_add (restart_count c) 1) (Some t) (restart_timestamps c) (spec c).
Definition new_child (a : Actor) (h : nat) (s : ChildSpec) : SupervisedActor :=
  mkChild a (Some h) 0 None [] s.

Definition update_child (id : string) (f : SupervisedActor → SupervisedActor) : M () :=
  modify (set_children (im_update id f)).
Definition get_child (id : string) : M (option SupervisedActor) := gets (λ s, im_get id (children s)).

(** [ActorId::from(string)] panics unless the string is canonical. *)
Definition actor_id_from (s : string) : M string :=
  match from_canonical s with Ok a => mret (canonical a) | Err _ => panic end.
Definition has_actor_registry (s : Supervisor) : bool :=
  match service_locator s with Some l => actor_registry l | None => false end.
Definition when_registry (m : M ()) : M () :=
  b ← gets has_actor_registry; if (b : bool) then m else skip.

(** The facets of the specification, created by the registry of facets and attached one by one; a
    facet that cannot be attached is skipped. *)
Definition facets_of (l : option Locator) (protos : list FacetProto) (a : Actor) : Actor :=
  match protos, l with
  | _ :: _, Some l =>
      match facet_registry l with
      | Some create => foldl (λ a f, (attach_facet a f).1) a (create protos)
      | None => a
      end
  | _, _ => a
  end.
Definition attach_facets (protos : list FacetProto) (a : Actor) : M Actor :=
  l ← gets service_locator; mret (facets_of l protos a).
Definition context_of (l : option Locator) (a : Actor) : Actor :=
  match l with Some l => set_context l a | None => a end.
Definition inject_context (a : Actor) : M Actor :=
  l ← gets service_locator; mret (context_of l a).
Definition call_start_fn (s : ChildSpec) : M (result string StartedChild) :=
  n ← tick; mret (start_fn s n).

(** ** Restarts: restart.rs *)

Definition fail_restart {A} (msg : string) : M A :=
  _ ← modify (set_stats add_failed); throw (RestartFailed msg).

Definition perform_restart (id : string) (child : SupervisedActor) : M () :=
  _ ← modify (set_stats add_total);
  _ ← update_child id (set_handle None);
  _ ← abort (handle child);
  started ← call_start_fn (spec child);
  match started with
  | Err e => fail_restart e
  | Ok SupervisorChild => fail_restart "Cannot restart actor as supervisor"
  | Ok (Worker a) =>
      a ← attach_facets (spec_facets (spec child)) a;
      a ← inject_context a;
      match actor_start a with
      | Err e => fail_restart e
      | Ok a =>
          h ← spawn;
          _ ← when_registry (emit (RegisterStarted id));
          t ← now;
          _ ← update_child id (restarted a h t);
          modify (set_stats add_successful)
      end
  end.

(** Whether a [Transient] child is restarted. *)
Definition transient_should_restart (exit_reason : option ExitReason) : bool :=
  match exit_reason with
  | Some (Normal | Shutdown) => false
  | Some (Error _ | Killed) => true
  | Some (Linked _ (Error _ | Killed)) => true
  | Some (Linked _ _) => false
  | None => true
  end.

Definition secs (n : Z) : Z := n * 1000000000.

Definition restart_one (id : string) (max_restarts within_seconds : Z)
    (exit_reason : option ExitReason) : M () :=
  child ← get_child id;
  match child with
  | None => skip
  | Some child =>
      t ← now;
      let kept := List.filter (λ r, t - r <? secs within_seconds) (restart_timestamps child) in
      _ ← update_child id (set_timestamps kept);
      if max_restarts <=? Z.of_nat (length kept)
      then _ ← send_event MaxRestarts id 0 ""; throw MaxRestartsExceeded
      else
        _ ← update_child id (set_timestamps (kept ++ [t]));
        let restarted_event : M () :=
          child ← get_child id;
          send_event ChildRestarted id (match child with Some c => restart_count c | None => 0 end) "" in
        match restart_policy (spec child) with
        | RestartPolicyPermanent | RestartPolicyUnspecified | RestartPolicyExponentialBackoff =>
            _ ← perform_restart id child; restarted_event
        | RestartPolicyTransient =>
            if transient_should_restart exit_reason
            then _ ← perform_restart id child; restarted_event else skip
        | RestartPolicyTemporary => skip
        end
  end.

(** The restarts of a batch, one after the other; the first error ends it. *)
Fixpoint restart_each (ids : list string) (max_restarts within_seconds : Z)
    (exit_reason : option ExitReason) : M () :=
  match ids with
  | [] => skip
  | id :: ids =>
      _ ← restart_one id max_restarts within_seconds exit_reason;
      restart_each ids max_restarts within_seconds exit_reason
  end.
Definition child_ids : M (list string) := gets (λ s, (children s).*1).
Definition restart_all (max_restarts within_seconds : Z) (exit_reason : option ExitReason) : M () :=
  ids ← child_ids; restart_each ids max_restarts within_seconds exit_reason.

Fixpoint skip_to (id : string) (ids : list string) : option (list string) :=
  match ids with
  | [] => None
  | x :: ids => if bool_decide (x = id) then Some (x :: ids) else skip_to id ids
  end.
Definition restart_rest_for_one (failed_id : string) (max_restarts within_seconds : Z)
    (exit_reason : option ExitReason) : M () :=
  ids ← child_ids;
  match skip_to failed_id ids with
  | None => id ← actor_id_from failed_id; throw (ChildNotFound id)
  | Some ids => restart_each ids max_restarts within_seconds exit_reason
  end.

Definition apply_adaptive_strategy (id : string) (initial_strategy : SupervisionStrategy)
    (learning_rate : f64) : M () :=
  st ← gets stats;
  let conservative := wrap 64 (successful_restarts st * 2) <? failed_restarts st in
  let '(should_adapt, new_strategy) :=
    match conservative, initial_strategy with
    | true, OneForOne m w => (true, OneForAll m w)
    | _, other => (false, other)
    end in
  _ ← (if (should_adapt : bool) then
         _ ← modify (set_strategy (Adaptive new_strategy learning_rate));
         _ ← modify (set_stats add_adaptation);
         send_event StrategyAdapted "" 0 ""
       else skip);
  match new_strategy with
  | OneForOne m w => restart_one id m w None
  | OneForAll m w => restart_all m w None
  | RestForOne m w => restart_rest_for_one id m w None
  | _ => match initial_strategy with OneForOne m w => restart_one id m w None | _ => skip end
  end.

Definition handle_failure (id : string) (reason : string) (exit_reason : option ExitReason) : M () :=
  let exit_reason := match exit_reason with Some r => Some r | None => Some (from_str reason) end in
  _ ← modify (set_stats (add_pattern reason));
  _ ← send_event ChildFailed id 0 reason;
  st ← gets strategy;
  match st with
  | OneForOne m w => restart_one id m w exit_reason
  | OneForAll m w => restart_all m w exit_reason
  | RestForOne m w => restart_rest_for_one id m w exit_reason
  | Adaptive initial lr => apply_adaptive_strategy id initial lr
  | Custom name =>
      throw (InvalidStrategy ("Custom supervision strategy '" +:+ name +:+
        "' is not registered; register a handler before using Custom strategy"))
  end.

(** ** Children: tree.rs *)

Definition register_parent_child (child : string) : M () :=
  when_registry (s ← gets sup_id; p ← actor_id_from s; emit (RegisterParentChild p child)).

Definition add_child (sp : ChildSpec) : M string :=
  let child_id := canonical (spec_actor_id sp) in
  started ← call_start_fn sp;
  match started with
  | Err e => throw (ActorCreationFailed e)
  | Ok SupervisorChild =>
      throw (ActorCreationFailed
        "add_child expects Worker child, use add_supervisor for Supervisor children")
  | Ok (Worker a) =>
      l ← gets service_locator;
      match l with
      | None => throw (ActorCreationFailed
          "ServiceLocator not set on Supervisor. Call with_service_locator() when creating Supervisor.")
      | Some l =>
          match actor_start (set_context l a) with
          | Err e => throw (ActorCreationFailed e)
          | Ok a =>
              h ← spawn;
              _ ← when_registry (emit (RegisterStarted child_id));
              _ ← modify (set_children (im_insert child_id (new_child a h sp)));
              _ ← register_parent_child child_id;
              linked ← gets links;
              _ ← (if (linked : bool)
                   then s ← gets sup_id; p ← actor_id_from s; emit (Link p child_id) else skip);
              _ ← send_event ChildStarted child_id 0 "";
              mret child_id
          end
      end
  end.

Definition start_child (sp : ChildSpec) : M string :=
  let child_id := canonical (spec_actor_id sp) in
  started ← call_start_fn sp;
  match started with
  | Err e => throw (ActorCreationFailed ("Failed to start child: " +:+ e))
  | Ok SupervisorChild =>
      throw (ActorCreationFailed "Supervisor children must be added via add_supervisor_child()")
  | Ok (Worker a) =>
      a ← attach_facets (spec_facets sp) a;
      match actor_start a with
      | Err e => throw (ActorCreationFailed e)
      | Ok a =>
          h ← spawn;
          _ ← modify (set_children (im_insert child_id (new_child a h sp)));
          _ ← register_parent_child child_id;
          _ ← send_event ChildStarted child_id 0 "";
          mret child_id
      end
  end.

Definition remove_child (id : string) : M () :=
  linked ← gets links;
  _ ← (if (linked : bool)
       then s ← gets sup_id; p ← actor_id_from s; emit (Unlink p id) else skip);
  _ ← when_registry (s ← gets sup_id; p ← actor_id_from s; emit (UnregisterParentChild p id));
  child ← get_child id;
  match child with
  | None => throw (ChildNotFound id)
  | Some child =>
      _ ← modify (set_children (im_remove id));
      _ ← abort (handle child);
      _ ← emit (StopActor id);
      send_event ChildStopped id 0 ""
  end.

Definition delete_child (child_id : string) : M () :=
  id ← actor_id_from child_id; remove_child id.

Definition restart_child (child_id : string) : M () :=
  id ← actor_id_from child_id;
  child ← get_child id;
  match child with
  | None => throw (ChildNotFound id)
  | Some child =>
      _ ← update_child id (set_handle None);
      _ ← abort (handle child);
      _ ← emit (StopActor id);
      started ← call_start_fn (spec child);
      match started with
      | Err e => throw (ActorCreationFailed e)
      | Ok SupervisorChild =>
          throw (ActorCreationFailed "restart_child: Expected worker, got supervisor")
      | Ok (Worker a) =>
          match actor_start a with
          | Err e => throw (ActorCreationFailed e)
          | Ok a => h ← spawn; t ← now; update_child id (restarted a h t)
          end
      end
  end.

Inductive ChildStatus := ChildStatusRunning | ChildStatusStopped.
Record ChildInfo := mkInfo {
  child_id : string; info_role : string; status : ChildStatus; info_restart_count : Z
}.
Definition which_children (s : Supervisor) : list ChildInfo :=
  (λ '(id, c), mkInfo id (role (spec c))
     (match handle c with Some _ => ChildStatusRunning | None => ChildStatusStopped end)
     (restart_count c)) <$> children s.

Definition new (label : string) (st : SupervisionStrategy) (l : Locator) : Supervisor :=
  mkSup label st [] (mkStats 0 0 0 0 ∅) false (Some l) 0 ∅ 0 [].
Definition with_link_provider (s : Supervisor) : Supervisor :=
  mkSup (sup_id s) (strategy s) (children s) (stats s) true (service_locator s) (ticks s)
    (running s) (next_task s) (trace s).

(** ** Runs *)

Inductive SupOp :=
| AddChild (sp : ChildSpec) | StartChild (sp : ChildSpec) | RemoveChild (id : string)
| DeleteChild (id : string) | RestartChild (id : string)
| HandleFailure (id reason : string) (exit_reason : option ExitReason).
Definition exec (op : SupOp) (s : Supervisor) : Supervisor :=
  match op with
  | AddChild sp => (add_child sp s).1
  | StartChild sp => (start_child sp s).1
  | RemoveChild id => (remove_child id s).1
  | DeleteChild id => (delete_child id s).1
  | RestartChild id => (restart_child id s).1
  | HandleFailure id reason er => (handle_failure id reason er s).1
  end.
Definition run (ops : list SupOp) (s : Supervisor) : Supervisor := foldl (λ s op, exec op s) s ops.

(** ** Lemmas: what a restart does *)

(** The actor that a restart starts, or the reason why it fails. *)
Definition start_outcome (l : option Locator) (n : nat) (sp : ChildSpec) : result string Actor :=
  match start_fn sp n with
  | Err e => Err e
  | Ok SupervisorChild => Err "Cannot restart actor as supervisor"
  | Ok (Worker a) =>
      actor_start (context_of l (facets_of l (spec_facets sp) a))
  end.
Definition handle_set (h : option nat) : gset nat :=
  match h with Some t => {[t]} | None => ∅ end.

(** What stays the same in a handler. *)
Definition same_config (s s' : Supervisor) : Prop :=
  sup_id s' = sup_id s ∧ links s' = links s ∧ service_locator s' = service_locator s
  ∧ (ticks s <= ticks s')%nat.

#[export] Instance same_config_preorder : PreOrder same_config.
Proof.
  split; [done|]. intros s1 s2 s3 (? & ? & ? & ?) (? & ? & ? & ?).
  split_and!; try congruence. lia.
Qed.

Ltac run_m :=
  cbv [mbind M_bind mret M_ret skip throw panic gets modify tick now emit send_event abort spawn
       update_child get_child set_children set_stats set_strategy set_tasks fail_restart
       when_registry has_actor_registry attach_facets inject_context call_start_fn handle_set];
  cbn [fst snd sup_id strategy children stats links service_locator ticks running next_task trace].


Lemma perform_restart_spec id c s :
  let s' := (perform_restart id c s).1 in
  let r := (perform_restart id c s).2 in
  same_config s s' ∧ strategy s' = strategy s
  ∧ match start_outcome (service_locator s) (ticks s) (spec c) with
    | Err e =>
        r = Err (Failed (RestartFailed e))
        ∧ children s' = im_update id (set_handle None) (children s)
        ∧ stats s' = add_failed (add_total (stats s))
        ∧ running s' = running s ∖ handle_set (handle c) ∧ next_task s' = next_task s
        ∧ trace s' = trace s ∧ ticks s' = S (ticks s)
    | Ok a =>
        r = Ok ()
        ∧ children s' = im_update id (restarted a (next_task s) (clock (S (ticks s))))
                          (im_update id (set_handle None) (children s))
        ∧ stats s' = add_successful (add_total (stats s))
        ∧ running s' = {[next_task s]} ∪ (running s ∖ handle_set (handle c))
        ∧ next_task s' = S (next_task s)
        ∧ trace s' = trace s ++ (if has_actor_registry s then [RegisterStarted id] else [])
        ∧ ticks s' = S (S (ticks s))
    end.
Proof.
  unfold perform_restart, start_outcome, call_start_fn, same_config.
  destruct s as [i st ch sts ln loc tk rn nx tr].
  destruct (handle c) as [h|]; run_m; destruct (start_fn (spec c) tk) as [[a|]|e]; run_m;
    rewrite ?difference_empty_L; try (split_and!; (done || lia)).
  all: match goal with |- context [actor_start ?x] => destruct (actor_start x) end; run_m;
    rewrite ?difference_empty_L; try (split_and!; (done || lia)).
  all: destruct loc as [l|]; run_m; try (destruct (actor_registry l); run_m);
    rewrite ?app_nil_r, ?difference_empty_L; split_and!; (done || lia).
Qed.

(** Whether the policy restarts a child that ended for the given reason. *)
Definition policy_restarts (p : ProtoRestartPolicy) (er : option ExitReason) : bool :=
  match p with
  | RestartPolicyTransient => transient_should_restart er
  | RestartPolicyTemporary => false
  | _ => true
  end.

Lemma restart_one_spec id m w er s :
  let s' := (restart_one id m w er s).1 in
  let r := (restart_one id m w er s).2 in
  match im_get id (children s) with
  | None => s' = s ∧ r = Ok ()
  | Some c =>
      let t := clock (ticks s) in
      let kept := List.filter (λ r, t - r <? secs w) (restart_timestamps c) in
      same_config s s' ∧ strategy s' = strategy s ∧ (ticks s < ticks s')%nat
      ∧ if m <=? Z.of_nat (length kept) then
          r = Err (Failed MaxRestartsExceeded)
          ∧ children s' = im_update id (set_timestamps kept) (children s)
          ∧ stats s' = stats s ∧ running s' = running s ∧ next_task s' = next_task s
          ∧ trace s' = trace s ++ [SendEvent (mkEvent MaxRestarts id 0 "")]
        else if policy_restarts (restart_policy (spec c)) er then
          match start_outcome (service_locator s) (S (ticks s)) (spec c) with
          | Err e =>
              r = Err (Failed (RestartFailed e))
              ∧ children s' = im_update id (λ c, set_handle None (set_timestamps (kept ++ [t]) c))
                                (children s)
              ∧ stats s' = add_failed (add_total (stats s))
              ∧ running s' = running s ∖ handle_set (handle c) ∧ next_task s' = next_task s
          | Ok a =>
              r = Ok ()
              ∧ children s' = im_update id
                  (λ c, restarted a (next_task s) (clock (S (S (ticks s))))
                          (set_timestamps (kept ++ [t]) c)) (children s)
              ∧ stats s' = add_successful (add_total (stats s))
              ∧ running s' = {[next_task s]} ∪ (running s ∖ handle_set (handle c))
              ∧ next_task s' = S (next_task s)
          end
        else
          r = Ok ()
          ∧ children s' = im_update id (set_timestamps (kept ++ [t])) (children s)
          ∧ stats s' = stats s ∧ running s' = running s ∧ next_task s' = next_task s
  end.
Proof.
  unfold restart_one, same_config.
  destruct (im_get id (children s)) as [c|] eqn:Hc; run_m; rewrite Hc; [|done].
  set (kept := List.filter _ _).
  destruct (m <=? Z.of_nat (length kept)); run_m; [split_and!; (done || lia)|].
  rewrite im_update_compose.
  set (s1 := mkSup _ _ _ _ _ _ _ _ _ _).
  pose proof (perform_restart_spec id c s1) as Hspec.
  destruct (restart_policy (spec c)); cbn [policy_restarts];
    try (destruct (transient_should_restart er)); run_m;
    try (split_and!; (done || (unfold s1; cbn; lia)));
    destruct (perform_restart id c s1) as [s2 r2]; cbn [fst snd] in Hspec;
    change (service_locator s1) with (service_locator s) in Hspec;
    change (ticks s1) with (S (ticks s)) in Hspec;
    destruct (start_outcome (service_locator s) (S (ticks s)) (spec c));
    destruct Hspec as ((Hc1 & Hc2 & Hc3 & Hc4) & Hst & -> & Hch & Hs & Hr & Hn & Ht & Htk);
    cbn [fst snd sup_id strategy children stats links service_locator ticks running next_task trace];
    cbn [fst snd sup_id strategy children stats links service_locator ticks running next_task trace];
    rewrite ?Hch, ?im_update_compose; split_and!; try (done || lia);
    unfold s1; cbn [children]; by rewrite im_update_compose.
Qed.

(** The intensity limits of a strategy: the limits of every restart that it orders. *)
Definition limits (st : SupervisionStrategy) : option (Z * Z) :=
  match st with
  | OneForOne m w | OneForAll m w | RestForOne m w
  | Adaptive (OneForOne m w) _ | Adaptive (OneForAll m w) _ | Adaptive (RestForOne m w) _ =>
      Some (m, w)
  | _ => None
  end.

Lemma restart_one_strategy id m w er s : strategy (restart_one id m w er s).1 = strategy s.
Proof.
  pose proof (restart_one_spec id m w er s) as H. cbv zeta in H.
  destruct (im_get id (children s)); [|by destruct H as [-> _]]. by destruct H as (_ & ? & _).
Qed.

(** A property that a restart preserves is preserved by a failure. *)
Section preserved.
Context (P : Supervisor → Prop).
Hypothesis P_restart : ∀ id m w er s, limits (strategy s) = Some (m, w) →
  P s → P (restart_one id m w er s).1.
Hypothesis P_pattern : ∀ r s, P s → P (set_stats (add_pattern r) s).
Hypothesis P_adapt : ∀ m w lr s, strategy s = Adaptive (OneForOne m w) lr → P s →
  P (set_stats add_adaptation (set_strategy (Adaptive (OneForAll m w) lr) s)).
Hypothesis P_emit : ∀ e s, P s → P (emit e s).1.

Lemma restart_each_preserves ids m w er s :
  limits (strategy s) = Some (m, w) → P s → P (restart_each ids m w er s).1.
Proof.
  revert s. induction ids as [|id ids IH]; intros s Hl Hs; [done|]. cbn [restart_each]. run_m.
  pose proof (P_restart id m w er s Hl Hs) as H1.
  pose proof (restart_one_strategy id m w er s) as H2.
  destruct (restart_one id m w er s) as [s1 [[]|e]]; cbn [fst] in *; [|done].
  apply IH; [congruence | done].
Qed.

Lemma rest_for_one_preserves id m w er s :
  limits (strategy s) = Some (m, w) → P s → P (restart_rest_for_one id m w er s).1.
Proof.
  intros Hl Hs. unfold restart_rest_for_one, child_ids. run_m.
  destruct (skip_to id _); [by apply restart_each_preserves|].
  unfold actor_id_from. by destruct (from_canonical id).
Qed.

Lemma adaptive_preserves id initial lr s :
  strategy s = Adaptive initial lr → P s → P (apply_adaptive_strategy id initial lr s).1.
Proof.
  intros Hst Hs. unfold apply_adaptive_strategy, restart_all, child_ids.
  cbv [mbind M_bind gets]. cbn [fst snd].
  destruct (_ <? _); destruct initial as [m w|m w|m w|i l|n]; cbn [fst snd];
    unfold mret, M_ret, skip; cbn [fst snd]; try done.
  - set (s1 := set_stats add_adaptation (set_strategy (Adaptive (OneForAll m w) lr) s)).
    change (P (restart_each (children s1).*1 m w None
      (emit (SendEvent (mkEvent StrategyAdapted "" 0 "")) s1).1).1).
    apply restart_each_preserves; [done|]. by apply P_emit, P_adapt.
  - apply restart_each_preserves; [by rewrite Hst | done].
  - apply rest_for_one_preserves; [by rewrite Hst | done].
  - apply P_restart; [by rewrite Hst | done].
  - apply restart_each_preserves; [by rewrite Hst | done].
  - apply rest_for_one_preserves; [by rewrite Hst | done].
Qed.

Lemma handle_failure_preserves id reason er s : P s → P (handle_failure id reason er s).1.
Proof.
  intros Hs. unfold handle_failure.
  set (er' := match er with Some r => Some r | None => Some (from_str reason) end).
  set (s1 := set_stats (add_pattern reason) s).
  set (s2 := (emit (SendEvent (mkEvent ChildFailed id 0 reason)) s1).1).
  assert (H2 : P s2) by (by apply P_emit, P_pattern).
  cbv [mbind M_bind gets modify]. cbn [fst snd]. fold s1.
  change (send_event ChildFailed id 0 reason s1) with (s2, (Ok () : result Abrupt ())).
  cbn [fst snd].
  destruct (strategy s2) as [m w|m w|m w|i l|n] eqn:Hst.
  - apply P_restart; [by rewrite Hst | done].
  - unfold restart_all, child_ids. cbv [mbind M_bind gets]. cbn [fst snd].
    apply restart_each_preserves; [by rewrite Hst | done].
  - apply rest_for_one_preserves; [by rewrite Hst | done].
  - by apply adaptive_preserves.
  - done.
Qed.
End preserved.

(** ** Lemmas: tasks and statistics *)

(** The running tasks are the handles of the children, each of one child. *)
Record tracked (s : Supervisor) : Prop := {
  tr_keys : NoDup (children s).*1;
  tr_running : ∀ t, t ∈ running s ↔
    ∃ id c, im_get id (children s) = Some c ∧ handle c = Some t;
  tr_inj : ∀ id1 id2 c1 c2 t, im_get id1 (children s) = Some c1 →
    im_get id2 (children s) = Some c2 → handle c1 = Some t → handle c2 = Some t → id1 = id2;
  tr_next : ∀ t, t ∈ running s → (t < next_task s)%nat
}.

Lemma tracked_eq s s' :
  children s' = children s → running s' = running s → next_task s' = next_task s →
  tracked s → tracked s'.
Proof. intros Hc Hr Hn [? ? ? ?]. split; rewrite ?Hc, ?Hr, ?Hn; done. Qed.

Lemma tracked_handle_lt s id c t :
  tracked s → im_get id (children s) = Some c → handle c = Some t → (t < next_task s)%nat.
Proof. intros Ht Hc Hh. apply (tr_next _ Ht), (tr_running _ Ht). eauto. Qed.

Lemma elem_of_handle_set t h : t ∈ handle_set h ↔ h = Some t.
Proof. destruct h; simpl; set_solver. Qed.

(** The task of a child is replaced by none or by the next one. *)
Lemma tracked_replace s s' id f c h' :
  tracked s → im_get id (children s) = Some c → handle (f c) = h' →
  (h' = None ∨ h' = Some (next_task s)) →
  children s' = im_update id f (children s) →
  running s' = handle_set h' ∪ (running s ∖ handle_set (handle c)) →
  (next_task s <= next_task s')%nat → (h' ≠ None → next_task s < next_task s')%nat →
  tracked s'.
Proof.
  intros Ht Hc Hf Hh Hch Hr Hle Hlt. split.
  - rewrite Hch. apply im_update_NoDup, (tr_keys _ Ht).
  - intros t. rewrite Hr, elem_of_union, elem_of_difference, !elem_of_handle_set, (tr_running _ Ht).
    rewrite Hch. split.
    + intros [->|[(i & ci & Hi & Hti) Hne]].
      * exists id, (f c). by rewrite im_get_update, decide_True, Hc.
      * exists i, ci. rewrite im_get_update, decide_False; [done|]. intros ->. congruence.
    + intros (i & ci & Hi & Hti). rewrite im_get_update in Hi. case_decide as Hid.
      * subst i. rewrite Hc in Hi. injection Hi as <-. left. congruence.
      * right. split; [by exists i, ci|]. intros Heq. by apply Hid, (tr_inj _ Ht i id ci c t).
  - intros i1 i2 c1 c2 t. rewrite Hch, !im_get_update. intros H1 H2 Ht1 Ht2.
    assert (Hnew : ∀ i ci, im_get i (children s) = Some ci → handle ci = Some t → h' = Some t → False).
    { intros i ci Hi Hti ->. destruct Hh as [|[= ->]]; [done|].
      pose proof (tracked_handle_lt _ _ _ _ Ht Hi Hti). lia. }
    destruct (decide (i1 = id)) as [E1|E1], (decide (i2 = id)) as [E2|E2].
    + congruence.
    + rewrite E1, Hc in H1. injection H1 as <-. destruct (Hnew i2 c2 H2 Ht2). congruence.
    + rewrite E2, Hc in H2. injection H2 as <-. destruct (Hnew i1 c1 H1 Ht1). congruence.
    + by eapply (tr_inj _ Ht).
  - intros t. rewrite Hr, elem_of_union, elem_of_difference, elem_of_handle_set.
    intros [->|[Hin _]].
    + destruct Hh as [|[= ->]]; [done|]. by apply Hlt.
    + apply (tr_next _ Ht) in Hin. lia.
Qed.

Lemma tracked_same_handles s s' id f :
  tracked s → (∀ c, handle (f c) = handle c) → children s' = im_update id f (children s) →
  running s' = running s → next_task s' = next_task s → tracked s'.
Proof.
  intros Ht Hf Hch Hr Hn.
  destruct (im_get id (children s)) as [c|] eqn:Hc.
  2:{ assert (Hid : im_update id f (children s) = children s).
      { apply im_get_None in Hc. revert Hc. clear. induction (children s) as [|[k v] l IH]; [done|].
        rewrite fmap_cons, not_elem_of_cons. intros [? ?]. cbn [im_update].
        rewrite bool_decide_eq_false_2 by done. by rewrite IH. }
      rewrite Hid in Hch. by eapply tracked_eq. }
  assert (Hg : ∀ i, (λ c, handle c) <$> im_get i (children s') = (λ c, handle c) <$> im_get i (children s)).
  { intros i. rewrite Hch, im_get_update. case_decide; [|done]. subst.
    destruct (im_get id (children s)); simpl; [by rewrite Hf | done]. }
  assert (Hg1 : ∀ i ci t, im_get i (children s') = Some ci → handle ci = Some t →
    ∃ ci', im_get i (children s) = Some ci' ∧ handle ci' = Some t).
  { intros i ci t Hi Hti. specialize (Hg i). rewrite Hi in Hg. simpl in Hg.
    destruct (im_get i (children s)) as [ci'|]; [|done]. injection Hg as Hg. exists ci'.
    split; [done|congruence]. }
  split.
  - rewrite Hch. apply im_update_NoDup, (tr_keys _ Ht).
  - intros t. rewrite Hr, (tr_running _ Ht). split.
    + intros (i & ci & Hi & Hti). specialize (Hg i). rewrite Hi in Hg. simpl in Hg.
      destruct (im_get i (children s')) as [ci'|] eqn:E; [|done]. injection Hg as Hg.
      exists i, ci'. split; [done|congruence].
    + intros (i & ci & Hi & Hti). destruct (Hg1 _ _ _ Hi Hti) as (ci' & ? & ?). by exists i, ci'.
  - intros i1 i2 c1 c2 t H1 H2 Ht1 Ht2.
    destruct (Hg1 _ _ _ H1 Ht1) as (? & ? & ?), (Hg1 _ _ _ H2 Ht2) as (? & ? & ?).
    by eapply (tr_inj _ Ht).
  - rewrite Hr, Hn. apply (tr_next _ Ht).
Qed.

Lemma tracked_insert s s' id c :
  tracked s → id ∉ (children s).*1 → handle c = Some (next_task s) →
  children s' = im_insert id c (children s) → running s' = {[next_task s]} ∪ running s →
  next_task s' = S (next_task s) → tracked s'.
Proof.
  intros Ht Hid Hh Hch Hr Hn. pose proof (proj2 (im_get_None id (children s)) Hid) as Hnone. split.
  - rewrite Hch. apply im_insert_NoDup, (tr_keys _ Ht).
  - intros t. rewrite Hr, elem_of_union, elem_of_singleton, (tr_running _ Ht), Hch. split.
    + intros [->|(i & ci & Hi & Hti)].
      * exists id, c. by rewrite im_get_insert, decide_True.
      * exists i, ci. rewrite im_get_insert, decide_False; [done|]. intros ->. congruence.
    + intros (i & ci & Hi & Hti). rewrite im_get_insert in Hi. case_decide; simplify_eq; eauto.
  - intros i1 i2 c1 c2 t. rewrite Hch, !im_get_insert. intros H1 H2 Ht1 Ht2.
    destruct (decide (i1 = id)) as [E1|E1], (decide (i2 = id)) as [E2|E2].
    + congruence.
    + pose proof (tracked_handle_lt _ _ _ _ Ht H2 Ht2). simplify_eq. lia.
    + pose proof (tracked_handle_lt _ _ _ _ Ht H1 Ht1). simplify_eq. lia.
    + by eapply (tr_inj _ Ht).
  - intros t. rewrite Hr, Hn, elem_of_union, elem_of_singleton.
    intros [->|Hin]; [lia|]. apply (tr_next _ Ht) in Hin. lia.
Qed.

Lemma tracked_remove s s' id c :
  tracked s → im_get id (children s) = Some c →
  children s' = im_remove id (children s) → running s' = running s ∖ handle_set (handle c) →
  next_task s' = next_task s → tracked s'.
Proof.
  intros Ht Hc Hch Hr Hn. pose proof (tr_keys _ Ht) as Hk. split.
  - rewrite Hch. by apply im_remove_NoDup.
  - intros t. rewrite Hr, elem_of_difference, elem_of_handle_set, (tr_running _ Ht), Hch. split.
    + intros [(i & ci & Hi & Hti) Hne]. exists i, ci. rewrite im_get_remove by done.
      rewrite decide_False; [done|]. intros ->. congruence.
    + intros (i & ci & Hi & Hti). rewrite im_get_remove in Hi by done. case_decide; [done|].
      split; [by exists i, ci|]. intros ?. by eapply H, (tr_inj _ Ht i id ci c t).
  - intros i1 i2 c1 c2 t. rewrite Hch, !im_get_remove by done. repeat case_decide; try done.
    apply (tr_inj _ Ht).
  - intros t. rewrite Hr, Hn, elem_of_difference. intros [Hin _]. by apply (tr_next _ Ht).
Qed.

(** Restart attempts are successes or failures. *)
Definition stats_add_up (st : SupervisorStats) : Prop :=
  total_restarts st = u64_add (successful_restarts st) (failed_restarts st).

Lemma stats_successful st : stats_add_up st → stats_add_up (add_successful (add_total st)).
Proof.
  unfold stats_add_up, add_successful, add_total, u64_add, wrap. simpl. intros ->.
  rewrite Zplus_mod_idemp_l, Zplus_mod_idemp_l. f_equal. lia.
Qed.
Lemma stats_failed st : stats_add_up st → stats_add_up (add_failed (add_total st)).
Proof.
  unfold stats_add_up, add_failed, add_total, u64_add, wrap. simpl. intros ->.
  rewrite Zplus_mod_idemp_l, Zplus_mod_idemp_r. f_equal. lia.
Qed.

(** Both invariants; the identifiers of added children are fresh. *)
Definition fresh_op (op : SupOp) (s : Supervisor) : Prop :=
  match op with
  | AddChild sp | StartChild sp => canonical (spec_actor_id sp) ∉ (children s).*1
  | _ => True
  end.
Definition good (s : Supervisor) : Prop := tracked s ∧ stats_add_up (stats s).

Lemma good_eq s s' :
  children s' = children s → running s' = running s → next_task s' = next_task s →
  stats s' = stats s → good s → good s'.
Proof. intros ? ? ? Hs [? ?]. split; [by eapply tracked_eq | by rewrite Hs]. Qed.

Lemma restart_one_good id m w er s : good s → good (restart_one id m w er s).1.
Proof.
  intros [Ht Hs]. pose proof (restart_one_spec id m w er s) as H. cbv zeta in H.
  destruct (im_get id (children s)) as [c|] eqn:Hc; [|by destruct H as [-> _]].
  set (s' := (restart_one id m w er s).1) in *. clearbody s'.
  destruct H as (_ & _ & _ & H). destruct (m <=? _).
  - destruct H as (_ & Hch & Hst & Hr & Hn & _). split; [|by rewrite Hst].
    eapply (tracked_same_handles s); [exact Ht | | exact Hch | exact Hr | exact Hn]; done.
  - destruct (policy_restarts _ _).
    + destruct (start_outcome _ _ _); destruct H as (_ & Hch & Hst & Hr & Hn).
      * split; [|rewrite Hst; by apply stats_successful].
        eapply (tracked_replace s _ id _ c (Some (next_task s)) Ht Hc);
          [ | |exact Hch|exact Hr| | ]; [done | by right | lia | lia].
      * split; [|rewrite Hst; by apply stats_failed].
        eapply (tracked_replace s _ id _ c None Ht Hc);
          [ | |exact Hch| | | ]; [done | by left | | lia | done].
        rewrite Hr. cbn [handle_set]. by rewrite union_empty_l_L.
    + destruct H as (_ & Hch & Hst & Hr & Hn). split; [|by rewrite Hst].
      eapply (tracked_same_handles s); [exact Ht | | exact Hch | exact Hr | exact Hn]; done.
Qed.

Lemma handle_failure_good id reason er s : good s → good (handle_failure id reason er s).1.
Proof.
  intros Hg. apply (handle_failure_preserves good); [| | | |exact Hg].
  - intros. by apply restart_one_good.
  - intros r s0 [Ht Hs]. split; [by apply (tracked_eq s0) | exact Hs].
  - intros m w lr s0 _ [Ht Hs]. split; [by apply (tracked_eq s0) | exact Hs].
  - intros e s0 H. by apply (good_eq s0).
Qed.

(** A quiet computation touches neither the children, the tasks nor the statistics. *)
Definition quiet {A} (m : M A) : Prop := ∀ s,
  children (m s).1 = children s ∧ running (m s).1 = running s
  ∧ next_task (m s).1 = next_task s ∧ stats (m s).1 = stats s.

Lemma quiet_bind {A B} (m : M A) (k : A → M B) :
  quiet m → (∀ a, quiet (k a)) → quiet (m ≫= k).
Proof.
  intros Hm Hk s. cbv [mbind M_bind]. destruct (Hm s) as (H1 & H2 & H3 & H4).
  destruct (m s) as [s1 [a|e]]; cbn [fst] in *; [|done].
  destruct (Hk a s1) as (K1 & K2 & K3 & K4). split_and!; congruence.
Qed.
Lemma quiet_good {A} (m : M A) s : quiet m → good s → good (m s).1.
Proof. intros Hm Hg. destruct (Hm s) as (? & ? & ? & ?). by apply (good_eq s). Qed.
Lemma good_bind {A B} (m : M A) (k : A → M B) s :
  good (m s).1 → (∀ a s', (m s) = (s', Ok a) → good s' → good (k a s').1) → good ((m ≫= k) s).1.
Proof.
  intros Hm Hk. cbv [mbind M_bind]. destruct (m s) as [s1 [a|e]]; [|done]. by apply Hk.
Qed.
Lemma quiet_parent (f : string → Effect) :
  quiet (s ← gets sup_id; p ← actor_id_from s; emit (f p)).
Proof.
  intros s. unfold actor_id_from. run_m. destruct (from_canonical (sup_id s)); run_m; done.
Qed.
Lemma quiet_when m : quiet m → quiet (when_registry m).
Proof. intros Hm s. unfold when_registry. run_m. destruct (_ : bool); [apply Hm | done]. Qed.
Lemma quiet_if (b : bool) m : quiet m → quiet (if b then m else skip).
Proof. by destruct b. Qed.
Lemma quiet_register id : quiet (register_parent_child id).
Proof. apply quiet_when, quiet_parent. Qed.

Lemma remove_child_good id s : good s → good (remove_child id s).1.
Proof.
  intros Hg. unfold remove_child.
  apply good_bind; [done|]. intros linked s0 [= <- <-] _.
  apply good_bind; [by apply quiet_good, Hg; apply quiet_if, (quiet_parent (λ p, Unlink p id))|].
  intros [] s1 _ Hg1.
  apply good_bind; [apply quiet_good, Hg1; apply quiet_when, (quiet_parent (λ p, UnregisterParentChild p id))|].
  clear s Hg Hg1. intros [] s _ Hg. run_m.
  destruct (im_get id (children s)) as [c|] eqn:Hc; run_m; [|by apply (good_eq s)].
  destruct (handle c) as [h|] eqn:Hh; run_m; (split; [|apply Hg]);
    (eapply (tracked_remove s); [apply Hg|exact Hc|done| |done]);
    rewrite Hh; cbn [handle_set running]; by rewrite ?difference_empty_L.
Qed.

Lemma good_inserted s s' id c :
  good s → id ∉ (children s).*1 → handle c = Some (next_task s) →
  children s' = im_insert id c (children s) → running s' = {[next_task s]} ∪ running s →
  next_task s' = S (next_task s) → stats s' = stats s → good s'.
Proof.
  intros [Ht Hs] ? ? ? ? ? Heq. split; [by eapply (tracked_insert s) | by rewrite Heq].
Qed.

Lemma add_child_good sp s :
  canonical (spec_actor_id sp) ∉ (children s).*1 → good s → good (add_child sp s).1.
Proof.
  intros Hid Hg. unfold add_child, register_parent_child, actor_id_from.
  destruct s as [i st ch sts ln loc tk rn nx tr].
  destruct (from_canonical i) as [p|e] eqn:Hi, loc as [l|], ln; run_m;
    (destruct (start_fn sp tk) as [[a|]|e2]; run_m; try (by eapply good_eq, Hg));
    destruct (actor_start (set_context l a)) as [a'|e3]; run_m; try (by eapply good_eq, Hg);
    destruct (actor_registry l) eqn:Hreg; repeat (run_m; rewrite ?Hi, ?Hreg);
    (eapply good_inserted; [exact Hg|exact Hid| |reflexivity..]; reflexivity).
Qed.

Lemma start_child_good sp s :
  canonical (spec_actor_id sp) ∉ (children s).*1 → good s → good (start_child sp s).1.
Proof.
  intros Hid Hg. unfold start_child, register_parent_child, actor_id_from.
  destruct s as [i st ch sts ln loc tk rn nx tr].
  destruct (from_canonical i) as [p|e] eqn:Hi, loc as [l|]; run_m;
    (destruct (start_fn sp tk) as [[a|]|e2]; run_m; try (by eapply good_eq, Hg));
    (match goal with |- context [actor_start ?x] => destruct (actor_start x) as [a'|e3] end);
    run_m; try (by eapply good_eq, Hg);
    try (destruct (actor_registry l) eqn:Hreg); repeat (run_m; rewrite ?Hi, ?Hreg);
    (eapply good_inserted; [exact Hg|exact Hid| |reflexivity..]; reflexivity).
Qed.

Lemma restart_child_good id s : good s → good (restart_child id s).1.
Proof.
  intros Hg. unfold restart_child, actor_id_from. run_m.
  destruct (from_canonical id) as [i|]; run_m; [|done].
  destruct (im_get (canonical i) (children s)) as [c|] eqn:Hc; run_m; rewrite ?Hc; run_m;
    [|by apply (good_eq s)].
  destruct (handle c) as [h|] eqn:Hh; run_m;
    (destruct (start_fn (spec c) (ticks s)) as [[a|]|e]; run_m;
     [destruct (actor_start a) as [a'|e]; run_m| |]);
    (split; [|apply Hg]).
  all: match goal with
       | |- tracked (mkSup _ _ (im_update _ ?f (im_update _ ?g _)) _ _ _ _ _ _ _) =>
           apply (tracked_replace s _ (canonical i) (λ v, f (g v)) c (Some (next_task s)))
       | |- tracked (mkSup _ _ (im_update _ ?f _) _ _ _ _ _ _ _) =>
           apply (tracked_replace s _ (canonical i) f c None)
       end; cbn [children running next_task]; try done; try apply Hg;
       rewrite ?im_update_compose, ?Hh; cbn [handle_set]; try done; try lia;
       try (by left); try (by right); rewrite ?difference_empty_L; set_solver.
Qed.

Lemma exec_good op s : fresh_op op s → good s → good (exec op s).
Proof.
  destruct op as [sp|sp|id|id|id|id r er]; cbn [exec fresh_op]; intros Hf Hg.
  - by apply add_child_good.
  - by apply start_child_good.
  - by apply remove_child_good.
  - unfold delete_child, actor_id_from. run_m. destruct (from_canonical id); run_m; [|done].
    by apply remove_child_good.
  - by apply restart_child_good.
  - by apply handle_failure_good.
Qed.

(** ** Properties *)

Fixpoint fresh_run (ops : list SupOp) (s : Supervisor) : Prop :=
  match ops with [] => True | op :: ops => fresh_op op s ∧ fresh_run ops (exec op s) end.

Lemma run_good ops s : fresh_run ops s → good s → good (run ops s).
Proof.
  revert s. induction ops as [|op ops IH]; intros s Hf Hg; [done|].
  destruct Hf as [Ho Hf]. apply (IH (exec op s)); [done | by apply exec_good].
Qed.

(** C6. No task is lost: in every run in which children are added under new identifiers, whatever
    fails in it, the running tasks are exactly those of the children, no two children share one, the
    identifiers are distinct, and the attempted restarts are those that succeeded and those that
    failed. *)
Theorem supervisor_tracks_tasks (label : string) (st : SupervisionStrategy) (l : Locator)
    (ops : list SupOp) :
  fresh_run ops (new label st l) →
  let s := run ops (new label st l) in
  NoDup (children s).*1
  ∧ (∀ t, t ∈ running s ↔ ∃ id c, im_get id (children s) = Some c ∧ handle c = Some t)
  ∧ (∀ id1 id2 c1 c2 t, im_get id1 (children s) = Some c1 → im_get id2 (children s) = Some c2 →
       handle c1 = Some t → handle c2 = Some t → id1 = id2)
  ∧ total_restarts (stats s) = u64_add (successful_restarts (stats s)) (failed_restarts (stats s)).
Proof.
  intros Hf s. assert (Hg : good s).
  { apply run_good; [done|]. split; [|done].
    split; simpl; [constructor | set_solver | done | set_solver]. }
  destruct Hg as [[? ? ? ?] ?]. done.
Qed.

(** A child added under an identifier that is there replaces the child, keeps its place in the
    order, and leaves the task of the replaced child running, though it belongs to no child. *)
Theorem duplicate_child_leaks_task (sp : ChildSpec) (s : Supervisor) (c : SupervisedActor)
    (l : Locator) (a a' : Actor) (t : nat) :
  tracked s → service_locator s = Some l →
  im_get (canonical (spec_actor_id sp)) (children s) = Some c → handle c = Some t →
  start_fn sp (ticks s) = Ok (Worker a) → actor_start (set_context l a) = Ok a' →
  let s' := (add_child sp s).1 in
  (children s').*1 = (children s).*1
  ∧ t ∈ running s'
  ∧ ∀ id c', im_get id (children s') = Some c' → handle c' ≠ Some t.
Proof.
  intros Ht Hl Hc Hh Hs Ha s'.
  assert (Hch : children s' = im_insert (canonical (spec_actor_id sp))
      (new_child a' (next_task s) sp) (children s) ∧ running s' = {[next_task s]} ∪ running s).
  { unfold s', add_child, register_parent_child, actor_id_from. clear s' Hc Ht.
    destruct s as [i st ch sts ln loc tk rn nx tr]. cbn in Hl, Hs. subst loc. run_m. rewrite Hs.
    run_m. rewrite Ha. destruct (actor_registry l) eqn:Hreg, (from_canonical i) eqn:Hi, ln;
      repeat (run_m; rewrite ?Hi, ?Hreg); done. }
  destruct Hch as [Hch Hr].
  assert (Hlt : (t < next_task s)%nat) by (by eapply tracked_handle_lt).
  split_and!.
  - rewrite Hch, im_insert_keys, decide_True, app_nil_r; [done|].
    apply im_get_In in Hc. apply list_elem_of_fmap. by exists (canonical (spec_actor_id sp), c).
  - rewrite Hr. apply elem_of_union. right. apply (tr_running _ Ht). eauto.
  - intros id c'. rewrite Hch, im_get_insert. case_decide as Hid.
    + intros [= <-]. simpl. intros [= ?]. lia.
    + intros Hc' Hh'. by apply Hid, (tr_inj _ Ht id _ c' c t).
Qed.

(** ** The intensity of restarts *)

Definition failures (fs : list (string * string * option ExitReason)) : list SupOp :=
  (λ '(id, reason, er), HandleFailure id reason er) <$> fs.

(** During a period that starts in [s0] and whose readings of the clock are those below [N]: the
    child [id] was restarted at most as often as it has timestamps of the period. *)
Definition intensity (s0 : Supervisor) (N : nat) (id : string) (m w n : Z) (s : Supervisor) : Prop :=
  (ticks s0 <= ticks s)%nat ∧ limits (strategy s) = Some (m, w)
  ∧ ((ticks s <= N)%nat →
      ∃ c old seg, im_get id (children s) = Some c ∧ restart_timestamps c = old ++ seg
        ∧ (∀ r, r ∈ seg → ∃ j, (ticks s0 <= j < N)%nat ∧ r = clock j)
        ∧ Z.of_nat (length seg) <= m ∧ n <= restart_count c <= n + Z.of_nat (length seg)).

Lemma restart_one_intensity s0 N id m w n i er s :
  (∀ j k, (ticks s0 <= j < N)%nat → (ticks s0 <= k < N)%nat → clock k - clock j < secs w) →
  0 <= n → n + m <= u32_max →
  intensity s0 N id m w n s → intensity s0 N id m w n (restart_one i m w er s).1.
Proof.
  intros Hclock Hn Hmax (Hle & Hlim & Hin). pose proof (restart_one_spec i m w er s) as H.
  cbv zeta in H. destruct (im_get i (children s)) as [ci|] eqn:Hi; [|by destruct H as [-> _]].
  set (s' := (restart_one i m w er s).1) in *. clearbody s'.
  destruct H as ((_ & _ & _ & Htk) & Hst & Hlt & H).
  split; [lia|]. split; [by rewrite Hst|]. intros HN.
  destruct Hin as (c & old & seg & Hc & Hts & Hseg & Hlen & Hcount); [lia|].
  set (t := clock (ticks s)) in *.
  destruct (decide (i = id)) as [->|Hne].
  2:{ exists c, old, seg. split_and!; try done; try lia.
      assert (Hu : ∀ f, im_get id (im_update i f (children s)) = Some c).
      { intros f. rewrite im_get_update, decide_False; done. }
      destruct (_ <=? _); [by destruct H as (_ & -> & _)|].
      destruct (policy_restarts _ _); [|by destruct H as (_ & -> & _)].
      destruct (start_outcome _ _ _); by destruct H as (_ & -> & _). }
  rewrite Hc in Hi. injection Hi as <-.
  set (f := λ r, t - r <? secs w) in *.
  assert (Hkept : List.filter f (restart_timestamps c) = List.filter f old ++ seg).
  { rewrite Hts, List.filter_app. f_equal. clear -Hseg Hclock Hle Hlt HN.
    induction seg as [|r seg IH]; [done|]. simpl.
    destruct (Hseg r) as (j & Hj & ->); [by left|].
    assert (f (clock j) = true) as ->.
    { apply Z.ltb_lt, Hclock; lia. }
    f_equal. apply IH. intros r Hr. apply Hseg. by right. }
  rewrite Hkept in H. rewrite length_app in H.
  assert (Hnew : ∀ r, r ∈ seg ++ [t] → ∃ j, (ticks s0 <= j < N)%nat ∧ r = clock j).
  { intros r Hr. apply elem_of_app in Hr as [Hr|Hr]; [by apply Hseg|].
    apply list_elem_of_singleton in Hr as ->.
    exists (ticks s). split; [lia|done]. }
  destruct (Z.leb_spec m (Z.of_nat (length (List.filter f old) + length seg))) as [Hm|Hm].
  { destruct H as (_ & Hch & _). exists (set_timestamps (List.filter f old ++ seg) c).
    exists (List.filter f old), seg. rewrite Hch, im_get_update, decide_True, Hc by done.
    split_and!; try done; simpl; lia. }
  rewrite <-app_assoc in H.
  destruct (policy_restarts _ _);
    [destruct (start_outcome _ _ _) as [a|e]|]; destruct H as (_ & Hch & _);
    eexists; exists (List.filter f old), (seg ++ [t]);
    rewrite Hch, im_get_update, decide_True, Hc by done; (split; [reflexivity|]);
    rewrite length_app; cbn [length restarted set_timestamps set_handle restart_timestamps
      restart_count]; split_and!; try done; try lia;
    (rewrite u32_add_small; lia).
Qed.

(** C5. The restart intensity is bounded: over any run of failures, of any children and for any
    reasons, whose readings of the clock all lie within less than the window of the strategy, each
    child is restarted at most [max_restarts] times, under every strategy. *)
Theorem restart_intensity_is_bounded (fs : list (string * string * option ExitReason))
    (s : Supervisor) (m w : Z) (id : string) (c : SupervisedActor) :
  let s' := run (failures fs) s in
  limits (strategy s) = Some (m, w) →
  (∀ j k, (ticks s <= j < ticks s')%nat → (ticks s <= k < ticks s')%nat →
     clock k - clock j < secs w) →
  im_get id (children s) = Some c → 0 <= m → 0 <= restart_count c → restart_count c + m <= u32_max →
  ∃ c', im_get id (children s') = Some c'
    ∧ restart_count c <= restart_count c' <= restart_count c + m.
Proof.
  intros s' Hlim Hclock Hc Hm H0 Hmax.
  assert (Hint : intensity s (ticks s') id m w (restart_count c) s').
  2:{ destruct Hint as (_ & _ & Hin). destruct Hin as (c' & old & seg & Hc' & _ & _ & Hlen & Hcount);
        [done|]. exists c'. split; [done | lia]. }
  set (N := ticks s') in *. clearbody N. subst s'.
  assert (Hgen : ∀ s1, intensity s N id m w (restart_count c) s1 →
    intensity s N id m w (restart_count c) (run (failures fs) s1)).
  { clear Hc Hlim. induction fs as [|[[i r] er] fs IH]; intros s1 Hs1; [done|].
    apply (IH (handle_failure i r er s1).1).
    apply (handle_failure_preserves (intensity s N id m w (restart_count c)));
      [| | | |exact Hs1].
    - intros i1 m1 w1 er1 s2 Hl Hs2. destruct (Hs2) as (_ & Hl2 & _).
      rewrite Hl in Hl2. injection Hl2 as -> ->. by apply restart_one_intensity.
    - intros r1 s2 Hs2. exact Hs2.
    - intros m1 w1 lr s2 Hst (Hle & Hl & Hin). split; [done|]. split; [|done].
      rewrite Hst in Hl. exact Hl.
    - intros e s2 Hs2. exact Hs2. }
  apply Hgen. split; [done|]. split; [done|]. intros _. exists c, (restart_timestamps c), [].
  rewrite app_nil_r. split_and!; try done; simpl; try lia.
  intros r Hr. by apply not_elem_of_nil in Hr.
Qed.

(** ** Strategies *)

(** A child that the policy restarts, whose restarts are below the limit and whose start succeeds. *)
Definition restartable (loc : option Locator) (m : Z) (er : option ExitReason) (c : SupervisedActor)
    : Prop :=
  policy_restarts (restart_policy (spec c)) er = true
  ∧ Z.of_nat (length (restart_timestamps c)) < m
  ∧ (∀ n, ∃ a, start_outcome loc n (spec c) = Ok a)
  ∧ 0 <= restart_count c < u32_max.

Lemma restart_one_restartable i m w er s c :
  im_get i (children s) = Some c → restartable (service_locator s) m er c →
  let s' := (restart_one i m w er s).1 in
  (restart_one i m w er s).2 = Ok ()
  ∧ service_locator s' = service_locator s ∧ (children s').*1 = (children s).*1
  ∧ next_task s' = S (next_task s)
  ∧ (∀ k, k ≠ i → im_get k (children s') = im_get k (children s))
  ∧ ∃ c', im_get i (children s') = Some c' ∧ restart_count c' = restart_count c + 1
      ∧ handle c' = Some (next_task s).
Proof.
  intros Hc (Hp & Hlen & Hstart & Hcount). pose proof (restart_one_spec i m w er s) as H.
  cbv zeta in H. rewrite Hc in H. cbv zeta.
  set (s' := (restart_one i m w er s).1) in *. clearbody s'.
  destruct H as ((_ & _ & Hloc & _) & _ & _ & H).
  set (f := λ r, clock (ticks s) - r <? secs w) in *.
  pose proof (List.filter_length_le f (restart_timestamps c)).
  rewrite (proj2 (Z.leb_gt _ _)) in H by lia. rewrite Hp in H.
  destruct (Hstart (S (ticks s))) as [a Ha]. rewrite Ha in H.
  destruct H as (Hr & Hch & _ & _ & Hn). split_and!; try done.
  - rewrite Hch. apply im_update_keys.
  - intros k Hk. by rewrite Hch, im_get_update, decide_False.
  - eexists. rewrite Hch, im_get_update, decide_True, Hc by done. split; [reflexivity|].
    split; [|done]. cbn [restart_count restarted set_timestamps]. rewrite u32_add_small; lia.
Qed.

Lemma restart_each_restartable ids m w er s :
  NoDup ids →
  (∀ i, i ∈ ids → ∃ c, im_get i (children s) = Some c ∧ restartable (service_locator s) m er c) →
  let s' := (restart_each ids m w er s).1 in
  (restart_each ids m w er s).2 = Ok ()
  ∧ (children s').*1 = (children s).*1 ∧ (next_task s <= next_task s')%nat
  ∧ (∀ k, k ∉ ids → im_get k (children s') = im_get k (children s))
  ∧ ∀ k c, k ∈ ids → im_get k (children s) = Some c →
      ∃ c' t, im_get k (children s') = Some c' ∧ restart_count c' = restart_count c + 1
        ∧ handle c' = Some t ∧ (next_task s <= t)%nat.
Proof.
  revert s. induction ids as [|i ids IH]; intros s Hnd Hall.
  { split_and!; try done. intros k c Hk. by apply not_elem_of_nil in Hk. }
  apply NoDup_cons in Hnd as [Hi Hnd]. cbn [restart_each]. cbv [mbind M_bind].
  destruct (Hall i) as (ci & Hci & Hres); [by left|].
  pose proof (restart_one_restartable i m w er s ci Hci Hres) as H. cbv zeta in H.
  destruct (restart_one i m w er s) as [s1 r1]. cbn [fst snd] in H.
  destruct H as (-> & Hloc & Hk1 & Hn1 & Hother & c1 & Hc1 & Hcount1 & Hh1).
  destruct (IH s1 Hnd) as (Hr & Hk & Hn & Hsame & Hnew).
  { intros k Hk. destruct (Hall k) as (ck & Hck & Hrk); [by right|]. exists ck.
    rewrite Hother by (intros ->; done). by rewrite Hloc. }
  split_and!; [done|congruence|lia| |].
  - intros k Hkn. rewrite not_elem_of_cons in Hkn. destruct Hkn. rewrite Hsame by done.
    by apply Hother.
  - intros k c Hkin Hkc. apply elem_of_cons in Hkin as [->|Hkin].
    + rewrite Hci in Hkc. injection Hkc as <-. exists c1, (next_task s).
      rewrite Hsame by done. split_and!; try done.
    + destruct (Hnew k c) as (c' & t & ? & ? & ? & ?); [done| |].
      { rewrite Hother; [done|]. intros ->. done. }
      exists c', t. split_and!; try done. lia.
Qed.

Lemma skip_to_spec id ids : id ∈ ids →
  ∃ pre post, ids = pre ++ id :: post ∧ (id ∉ pre) ∧ skip_to id ids = Some (id :: post).
Proof.
  induction ids as [|x ids IH]; [by intros ?%not_elem_of_nil|]. cbn [skip_to]. intros Hin.
  destruct (decide (x = id)) as [->|Hne].
  - exists [], ids. rewrite bool_decide_eq_true_2 by done. split_and!; [done | apply not_elem_of_nil | done].
  - apply elem_of_cons in Hin as [?|Hin]; [congruence|].
    destruct (IH Hin) as (pre & post & -> & Hpre & Hs). exists (x :: pre), post.
    rewrite bool_decide_eq_false_2 by done. split_and!; [done | | done].
    rewrite not_elem_of_cons. split; congruence.
Qed.

(** The children that a strategy restarts when [id] fails. *)
Definition affected (st : SupervisionStrategy) (id : string) (keys : list string) : list string :=
  match st with
  | OneForOne _ _ => [id]
  | OneForAll _ _ => keys
  | RestForOne _ _ => default [] (skip_to id keys)
  | _ => []
  end.

Lemma affected_sub st id keys : id ∈ keys → NoDup keys →
  NoDup (affected st id keys) ∧ ∀ i, i ∈ affected st id keys → i ∈ keys.
Proof.
  intros Hid Hnd. destruct st; simpl; try (split; [apply NoDup_nil_2|by intros i ?%not_elem_of_nil]).
  - split; [apply NoDup_singleton|]. by intros i ->%list_elem_of_singleton.
  - done.
  - destruct (skip_to_spec id keys Hid) as (pre & post & -> & _ & ->). simpl.
    apply NoDup_app in Hnd as (_ & _ & ?). split; [done|]. intros i Hi. apply elem_of_app. by right.
Qed.

(** C7. The strategies: when a child fails and every child that the strategy concerns can be
    restarted, the failure is handled without error, each of those children is restarted once, with
    a new task, every other child is left exactly as it is, and the order of the children stays; the
    strategy concerns the failed child (one for one), all of them (one for all), or the failed child
    and those added after it (rest for one). *)
Theorem strategy_restarts_exactly (id reason : string) (er : option ExitReason) (s : Supervisor)
    (m w : Z) :
  strategy s ∈ [OneForOne m w; OneForAll m w; RestForOne m w] →
  NoDup (children s).*1 → id ∈ (children s).*1 →
  let er' := match er with Some r => Some r | None => Some (from_str reason) end in
  let aff := affected (strategy s) id (children s).*1 in
  (∀ i, i ∈ aff → ∃ c, im_get i (children s) = Some c ∧ restartable (service_locator s) m er' c) →
  let s' := (handle_failure id reason er s).1 in
  (handle_failure id reason er s).2 = Ok ()
  ∧ (children s').*1 = (children s).*1
  ∧ (∀ i, i ∉ aff → im_get i (children s') = im_get i (children s))
  ∧ (∀ i c, i ∈ aff → im_get i (children s) = Some c →
      ∃ c' t, im_get i (children s') = Some c' ∧ restart_count c' = restart_count c + 1
        ∧ handle c' = Some t ∧ (next_task s <= t)%nat)
  ∧ (strategy s = RestForOne m w → ∃ pre, (children s).*1 = pre ++ aff ∧ id ∉ pre).
Proof.
  intros Hst Hnd Hid er' aff Hall.
  destruct (affected_sub (strategy s) id _ Hid Hnd) as [Hnda _]. fold aff in Hnda.
  set (s1 := (emit (SendEvent (mkEvent ChildFailed id 0 reason)) (set_stats (add_pattern reason) s)).1).
  assert (Hh : handle_failure id reason er s = restart_each aff m w er' s1).
  { unfold handle_failure. fold er'. cbv [mbind M_bind gets modify]. cbn [fst snd].
    change (send_event ChildFailed id 0 reason (set_stats (add_pattern reason) s))
      with (s1, (Ok () : result Abrupt ())). cbn [fst snd].
    change (strategy s1) with (strategy s). unfold aff, affected.
    rewrite !elem_of_cons in Hst. destruct Hst as [->|[->|[->|Hst]]].
    - cbn [restart_each]. cbv [mbind M_bind]. by destruct (restart_one id m w er' s1) as [? [[]|]].
    - done.
    - unfold restart_rest_for_one, child_ids. cbv [mbind M_bind gets]. cbn [fst snd].
      change (children s1) with (children s).
      by destruct (skip_to_spec id _ Hid) as (pre & post & _ & _ & ->).
    - by apply not_elem_of_nil in Hst. }
  cbv zeta. rewrite Hh.
  destruct (restart_each_restartable aff m w er' s1 Hnda Hall) as (? & ? & ? & ? & ?).
  split_and!; try done.
  intros Heq. unfold aff. rewrite Heq. simpl.
  destruct (skip_to_spec id _ Hid) as (pre & post & Hk & Hpre & ->). by exists pre.
Qed.

(** ** Exit reasons and errors *)

Lemma handle_failure_one_for_one id reason er s m w :
  strategy s = OneForOne m w →
  handle_failure id reason er s =
    restart_one id m w (match er with Some r => Some r | None => Some (from_str reason) end)
      (emit (SendEvent (mkEvent ChildFailed id 0 reason)) (set_stats (add_pattern reason) s)).1.
Proof.
  intros Hst. unfold handle_failure. cbv [mbind M_bind gets modify]. cbn [fst snd].
  set (s1 := (emit (SendEvent (mkEvent ChildFailed id 0 reason)) (set_stats (add_pattern reason) s)).1).
  change (send_event ChildFailed id 0 reason (set_stats (add_pattern reason) s))
    with (s1, (Ok () : result Abrupt ())). cbn [fst snd].
  change (strategy s1) with (strategy s). by rewrite Hst.
Qed.

(** A child that the policy does not restart. *)
Lemma restart_one_spared i m w er s c :
  im_get i (children s) = Some c → Z.of_nat (length (restart_timestamps c)) < m →
  policy_restarts (restart_policy (spec c)) er = false →
  (restart_one i m w er s).2 = Ok ()
  ∧ ∃ c', im_get i (children (restart_one i m w er s).1) = Some c'
      ∧ restart_count c' = restart_count c ∧ handle c' = handle c ∧ actor c' = actor c.
Proof.
  intros Hc Hlen Hp. pose proof (restart_one_spec i m w er s) as H.
  cbv zeta in H. rewrite Hc in H.
  set (s' := (restart_one i m w er s).1) in *. clearbody s'.
  set (f := λ r, clock (ticks s) - r <? secs w) in *.
  pose proof (List.filter_length_le f (restart_timestamps c)).
  destruct H as (_ & _ & _ & H).
  rewrite (proj2 (Z.leb_gt _ _)) in H by lia. rewrite Hp in H.
  destruct H as (Hr & Hch & _). split; [done|]. eexists.
  rewrite Hch, im_get_update, decide_True, Hc by done. by split_and!.
Qed.

(** The reason of a linked exit is misjudged twice.  A transient child that ended because a
    linked actor ended normally is not restarted when the supervisor is given the reason, but is
    restarted when it is given the string form of the same reason; and a child that ended because
    of an error two links away is not restarted, though the reason counts as an error. *)
Theorem linked_exit_is_misjudged (id : string) (s : Supervisor) (m w : Z) (c : SupervisedActor)
    (a b : ActorId) (msg : string) :
  strategy s = OneForOne m w → im_get id (children s) = Some c →
  restart_policy (spec c) = RestartPolicyTransient →
  Z.of_nat (length (restart_timestamps c)) < m →
  (∀ n, ∃ a, start_outcome (service_locator s) n (spec c) = Ok a) →
  0 <= restart_count c < u32_max → valid a →
  let count f := restart_count <$> im_get id (children (f s).1) in
  count (handle_failure id "" (Some (Linked a Normal))) = Some (restart_count c)
  ∧ count (handle_failure id (exit_reason_to_string (Linked a Normal)) None)
      = Some (restart_count c + 1)
  ∧ is_error (Linked a (Linked b (Error msg))) = true
  ∧ count (handle_failure id "" (Some (Linked a (Linked b (Error msg))))) = Some (restart_count c).
Proof.
  intros Hst Hc Hp Hlen Hstart Hcount Ha count. unfold count.
  rewrite !(handle_failure_one_for_one _ _ _ _ m w Hst).
  set (failed reason := (emit (SendEvent (mkEvent ChildFailed id 0 reason))
                           (set_stats (add_pattern reason) s)).1).
  split_and!; [| |done|].
  - edestruct (restart_one_spared id m w (Some (Linked a Normal))) as [_ (c' & -> & ? & _)];
      [exact Hc | done | by rewrite Hp |]. by f_equal/=.
  - edestruct (restart_one_restartable id m w
      (Some (from_str (exit_reason_to_string (Linked a Normal))))
      (failed (exit_reason_to_string (Linked a Normal)))) as (_ & _ & _ & _ & _ & c' & Hc' & Hr & _);
      [exact Hc | |unfold failed in Hc'; rewrite Hc'; simpl; by rewrite Hr].
    split_and!; [|done|exact Hstart|lia|lia]. rewrite Hp.
    by rewrite from_str_linked.
  - edestruct (restart_one_spared id m w (Some (Linked a (Linked b (Error msg)))))
      as [_ (c' & -> & ? & _)]; [exact Hc | done | by rewrite Hp |]. by f_equal/=.
Qed.

(** The adaptive strategy does not look at the reason of an exit: a transient child that ended
    normally is left alone under one for one, but is restarted under the adaptive strategy that
    starts from it. *)
Theorem adaptive_restarts_normal_exits (id : string) (s : Supervisor) (m w : Z) (lr : f64)
    (c : SupervisedActor) (r : ExitReason) :
  im_get id (children s) = Some c → restart_policy (spec c) = RestartPolicyTransient →
  r = Normal ∨ r = Shutdown →
  failed_restarts (stats s) <= wrap 64 (successful_restarts (stats s) * 2) →
  Z.of_nat (length (restart_timestamps c)) < m →
  (∀ n, ∃ a, start_outcome (service_locator s) n (spec c) = Ok a) →
  0 <= restart_count c < u32_max →
  let count st := restart_count <$>
    im_get id (children (handle_failure id "" (Some r) (set_strategy st s)).1) in
  count (OneForOne m w) = Some (restart_count c)
  ∧ count (Adaptive (OneForOne m w) lr) = Some (restart_count c + 1).
Proof.
  intros Hc Hp Hr Hstats Hlen Hstart Hcount count. unfold count. split.
  - rewrite (handle_failure_one_for_one _ _ _ _ m w) by done.
    edestruct (restart_one_spared id m w (Some r)) as [_ (c' & -> & ? & _)];
      [exact Hc | done | rewrite Hp; by destruct Hr as [-> | ->] |]. by f_equal/=.
  - unfold handle_failure. cbv [mbind M_bind gets modify]. cbn [fst snd].
    set (s1 := (emit (SendEvent (mkEvent ChildFailed id 0 ""))
                  (set_stats (add_pattern "") (set_strategy (Adaptive (OneForOne m w) lr) s))).1).
    match goal with |- context [send_event ChildFailed id 0 "" ?x] =>
      change (send_event ChildFailed id 0 "" x) with (s1, (Ok () : result Abrupt ())) end.
    cbn [fst snd]. change (strategy s1) with (Adaptive (OneForOne m w) lr). cbv iota.
    unfold apply_adaptive_strategy. cbv [mbind M_bind gets skip mret M_ret]. cbn [fst snd].
    change (failed_restarts (stats s1)) with (failed_restarts (stats s)).
    change (successful_restarts (stats s1)) with (successful_restarts (stats s)).
    rewrite (proj2 (Z.ltb_ge _ _)) by done. cbn [fst snd].
    edestruct (restart_one_restartable id m w None s1)
      as (_ & _ & _ & _ & _ & c' & Hc' & Hr' & _);
      [exact Hc | |rewrite Hc'; simpl; by rewrite Hr'].
    split_and!; [by rewrite Hp|done|exact Hstart|lia|lia].
Qed.

Lemma restart_each_app l1 l2 m w er s :
  restart_each (l1 ++ l2) m w er s =
    match restart_each l1 m w er s with
    | (s, Ok _) => restart_each l2 m w er s
    | (s, Err x) => (s, Err x)
    end.
Proof.
  revert s. induction l1 as [|x l1 IH]; intros s; [done|]. cbn [restart_each app].
  cbv [mbind M_bind]. destruct (restart_one x m w er s) as [s1 [[]|]]; [apply IH | done].
Qed.

Lemma restart_each_locator ids m w er s :
  service_locator (restart_each ids m w er s).1 = service_locator s.
Proof.
  revert s. induction ids as [|x ids IH]; intros s; [done|]. cbn [restart_each].
  cbv [mbind M_bind]. pose proof (restart_one_spec x m w er s) as H. cbv zeta in H.
  assert (Hl : service_locator (restart_one x m w er s).1 = service_locator s).
  { destruct (im_get x (children s)); [|by destruct H as [-> _]].
    by destruct H as ((_ & _ & ? & _) & _). }
  destruct (restart_one x m w er s) as [s2 [[]|]]; simpl in *; [by rewrite IH | done].
Qed.

(** A restart that fails ends the batch: under one for all, the children before the failing one
    are restarted, the failing one is left without a task, the ones after it are not touched, and
    the error is returned. *)
Theorem failed_restart_ends_batch (id i reason : string) (er : option ExitReason) (s : Supervisor)
    (m w : Z) (pre post : list string) (c : SupervisedActor) (e : string) :
  strategy s = OneForAll m w → NoDup (children s).*1 → (children s).*1 = pre ++ i :: post →
  let er' := match er with Some r => Some r | None => Some (from_str reason) end in
  (∀ k, k ∈ pre → ∃ c, im_get k (children s) = Some c ∧ restartable (service_locator s) m er' c) →
  im_get i (children s) = Some c → policy_restarts (restart_policy (spec c)) er' = true →
  Z.of_nat (length (restart_timestamps c)) < m →
  (∀ n, start_outcome (service_locator s) n (spec c) = Err e) →
  let s' := (handle_failure id reason er s).1 in
  (handle_failure id reason er s).2 = Err (Failed (RestartFailed e))
  ∧ (∀ k ck, k ∈ pre → im_get k (children s) = Some ck →
      restart_count <$> im_get k (children s') = Some (restart_count ck + 1))
  ∧ handle <$> im_get i (children s') = Some None
  ∧ (∀ k, k ∈ post → im_get k (children s') = im_get k (children s)).
Proof.
  intros Hst Hnd Hkeys er' Hpre Hc Hp Hlen Hfail.
  set (s1 := (emit (SendEvent (mkEvent ChildFailed id 0 reason)) (set_stats (add_pattern reason) s)).1).
  assert (Hh : handle_failure id reason er s = restart_each (pre ++ i :: post) m w er' s1).
  { unfold handle_failure. fold er'. cbv [mbind M_bind gets modify]. cbn [fst snd].
    change (send_event ChildFailed id 0 reason (set_stats (add_pattern reason) s))
      with (s1, (Ok () : result Abrupt ())). cbn [fst snd].
    change (strategy s1) with (strategy s). rewrite Hst. rewrite <-Hkeys. done. }
  cbv zeta. rewrite Hh, restart_each_app. rewrite Hkeys in Hnd.
  apply NoDup_app in Hnd as (Hnd1 & Hdis & [Hi Hnd2]%NoDup_cons).
  assert (Hipre : i ∉ pre) by (intros Hin; apply (Hdis i Hin); by left).
  destruct (restart_each_restartable pre m w er' s1 Hnd1 Hpre) as (Hr & _ & _ & Hsame & Hnew).
  pose proof (restart_each_locator pre m w er' s1) as Hloc.
  change (service_locator s1) with (service_locator s) in Hloc.
  destruct (restart_each pre m w er' s1) as [s2 r2]. cbn [fst snd] in *. subst r2.
  cbn [restart_each]. cbv [mbind M_bind].
  pose proof (restart_one_spec i m w er' s2) as H. cbv zeta in H.
  assert (Hc2 : im_get i (children s2) = Some c) by (by rewrite Hsame).
  rewrite Hc2 in H. destruct (restart_one i m w er' s2) as [s3 r3]. cbn [fst snd] in H.
  set (f := λ r, clock (ticks s2) - r <? secs w) in *.
  pose proof (List.filter_length_le f (restart_timestamps c)).
  destruct H as (_ & _ & _ & H). rewrite (proj2 (Z.leb_gt _ _)) in H by lia.
  rewrite Hp, Hloc, Hfail in H. destruct H as (-> & Hch & _). cbn [fst snd].
  assert (Hne : ∀ k, k ≠ i → im_get k (children s3) = im_get k (children s2)).
  { intros k Hk. by rewrite Hch, im_get_update, decide_False. }
  split_and!; [done| | |].
  - intros k ck Hk Hck. destruct (Hnew k ck Hk Hck) as (c' & t & Hc' & Hcc & _).
    rewrite Hne by congruence. rewrite Hc'. simpl. by rewrite Hcc.
  - by rewrite Hch, im_get_update, decide_True, Hc2.
  - intros k Hk. rewrite Hne by congruence. apply Hsame. intros Hin. apply (Hdis k Hin). by right.
Qed.

End supervisor.

(** ** Witnesses *)

#[local] Instance plain_ops : ActorOps nat () () () := {|
  actor_registry := λ _, false;
  facet_registry := λ _, None;
  attach_facet := λ a _, (a, Ok ());
  set_context := λ _ a, a;
  actor_start := λ a, Ok a
|}.
Definition plain_clock : nat → Z := Z.of_nat.
Definition plain_id (n : string) : ActorId := mkActorId (n +:+ "//t::ns@n1") n "t" "ns" "n1".
Definition plain_spec (n : string) (policy : Z) : @ChildSpec nat () :=
  mkSpec (plain_id n) "worker" policy None [] (λ _, Ok (Worker 7%nat)).
(** A child that can no longer be started. *)
Definition down_spec (n : string) : @ChildSpec nat () :=
  mkSpec (plain_id n) "worker" 1 None [] (λ _, Err "down").
Definition plain_sup (st : SupervisionStrategy) : @Supervisor nat () () :=
  run plain_clock [AddChild (plain_spec "a" 2); AddChild (plain_spec "b" 1)] (new "sup" st ()).
Definition down_sup : @Supervisor nat () () :=
  set_children (im_update "a//t::ns@n1" (λ c, mkChild (actor c) (handle c) 0 None [] (down_spec "a")))
    (plain_sup (OneForAll 3 60)).

Definition two_children (st : SupervisionStrategy) : list (@SupOp nat ()) :=
  [AddChild (plain_spec "a" 2); AddChild (plain_spec "b" 1);
   HandleFailure "b//t::ns@n1" "boom" None].

Lemma two_children_fresh st : fresh_run plain_clock (two_children st) (new "sup" st ()).
Proof. cbn [fresh_run two_children fresh_op]. split_and!; try done; by apply (bool_decide_unpack _); vm_compute. Qed.

Lemma supervisor_tracks_tasks_witness :
  let s := run plain_clock (two_children (OneForOne 3 60)) (new "sup" (OneForOne 3 60) ()) in
  total_restarts (stats s) = u64_add (successful_restarts (stats s)) (failed_restarts (stats s)).
Proof.
  apply (supervisor_tracks_tasks plain_clock "sup" (OneForOne 3 60) ()).
  apply two_children_fresh.
Defined.

Lemma plain_sup_tracked st : tracked (plain_sup st).
Proof.
  assert (H : good (plain_sup st)); [|apply H]. apply run_good.
  - cbn [fresh_run fresh_op]. split_and!; try done; by apply (bool_decide_unpack _); vm_compute.
  - split; [|done]. split; simpl; [constructor | set_solver | done | set_solver].
Qed.

Lemma duplicate_child_leaks_task_witness :
  0%nat ∈ running (add_child (plain_spec "a" 1) (plain_sup (OneForOne 3 60))).1.
Proof.
  refine (proj1 (proj2 (duplicate_child_leaks_task (plain_spec "a" 1)
    (plain_sup (OneForOne 3 60)) (mkChild 7%nat (Some 0%nat) 0 None [] (plain_spec "a" 2)) () 7%nat
    7%nat 0%nat (plain_sup_tracked _) _ _ _ _ _))); reflexivity.
Defined.

Lemma restart_intensity_is_bounded_witness :
  let fs := [("b//t::ns@n1", "x", None); ("b//t::ns@n1", "x", None); ("b//t::ns@n1", "x", None)] in
  ∃ c', im_get "b//t::ns@n1" (children (run plain_clock (failures fs) (plain_sup (OneForOne 2 60))))
    = Some c' ∧ 0 <= restart_count c' <= 2.
Proof.
  intros fs.
  destruct (restart_intensity_is_bounded plain_clock fs (plain_sup (OneForOne 2 60)) 2 60
    "b//t::ns@n1" (mkChild 7%nat (Some 1%nat) 0 None [] (plain_spec "b" 1))) as (c' & Hc' & Hn).
  - reflexivity.
  - intros j k. change (ticks (run plain_clock (failures fs) (plain_sup (OneForOne 2 60)))) with 9%nat.
    unfold plain_clock, secs. lia.
  - reflexivity.
  - lia.
  - simpl. lia.
  - unfold u32_max. simpl. lia.
  - exists c'. split; [exact Hc' | exact Hn].
Defined.

Lemma strategy_restarts_exactly_witness :
  (handle_failure plain_clock "a//t::ns@n1" "boom" None (plain_sup (RestForOne 3 60))).2 = Ok ().
Proof.
  refine (proj1 (strategy_restarts_exactly plain_clock "a//t::ns@n1" "boom" None
    (plain_sup (RestForOne 3 60)) 3 60 _ _ _ _)).
  - right. right. left.
  - apply (tr_keys _ (plain_sup_tracked _)).
  - left.
  - intros i Hi. change (i ∈ ["a//t::ns@n1"; "b//t::ns@n1"]) in Hi.
    rewrite !elem_of_cons, elem_of_nil in Hi.
    destruct Hi as [->|[->|[]]]; eexists; (split; [reflexivity|]);
      (split_and!; [reflexivity | simpl; lia | by eexists | simpl; lia | simpl; unfold u32_max; lia]).
Defined.

Lemma linked_exit_is_misjudged_witness :
  restart_count <$> im_get "a//t::ns@n1" (children (handle_failure plain_clock "a//t::ns@n1"
    (exit_reason_to_string (Linked worker1 Normal)) None (plain_sup (OneForOne 3 60))).1) = Some 1.
Proof.
  refine (proj1 (proj2 (linked_exit_is_misjudged plain_clock "a//t::ns@n1"
    (plain_sup (OneForOne 3 60)) 3 60 (mkChild 7%nat (Some 0%nat) 0 None [] (plain_spec "a" 2))
    worker1 worker1 "e" _ _ _ _ _ _ _))).
  - reflexivity.
  - reflexivity.
  - reflexivity.
  - simpl. lia.
  - by eexists.
  - simpl. unfold u32_max. lia.
  - vm_compute. reflexivity.
Defined.

Lemma adaptive_restarts_normal_exits_witness :
  restart_count <$> im_get "a//t::ns@n1" (children (handle_failure plain_clock "a//t::ns@n1" ""
    (Some Normal) (set_strategy (Adaptive (OneForOne 3 60) (f64_of_Z 1)) (plain_sup (OneForOne 3 60)))).1)
    = Some 1.
Proof.
  refine (proj2 (adaptive_restarts_normal_exits plain_clock "a//t::ns@n1"
    (plain_sup (OneForOne 3 60)) 3 60 (f64_of_Z 1)
    (mkChild 7%nat (Some 0%nat) 0 None [] (plain_spec "a" 2)) Normal _ _ _ _ _ _ _)).
  - reflexivity.
  - reflexivity.
  - by left.
  - vm_compute. discriminate.
  - simpl. lia.
  - by eexists.
  - simpl. unfold u32_max. lia.
Defined.

Lemma failed_restart_ends_batch_witness :
  (handle_failure plain_clock "b//t::ns@n1" "boom" None down_sup).2 = Err (Failed (RestartFailed "down")).
Proof.
  refine (proj1 (failed_restart_ends_batch plain_clock "b//t::ns@n1" "a//t::ns@n1" "boom" None
    down_sup 3 60 [] ["b//t::ns@n1"] (mkChild 7%nat (Some 0%nat) 0 None [] (down_spec "a")) "down"
    _ _ _ _ _ _ _ _)).
  - reflexivity.
  - apply (bool_decide_unpack _). vm_compute. exact I.
  - reflexivity.
  - intros k Hk. by apply not_elem_of_nil in Hk.
  - reflexivity.
  - reflexivity.
  - simpl. lia.
  - reflexivity.
Defined.
