(* ===== verification/KeyValue.v ===== *)
(** KeyValue: the key-value store of crates/keyvalue.

    The trait of src/lib.rs is a class ([KeyValueStore]); its contract ([KVLaws]) says that every
    operation of an ordinary request refines a map from keys to values with expiries, module [Spec].
    The SQL back ends of src/sql.rs are one definition per operation over a table, module [Sql]: the
    texts of the queries for SQLite and for PostgreSQL are the same but for the operator LIKE, which
    is the parameter [Dialect].  The tables of both satisfy the contract; what they list for a prefix
    is [like].  Module [Pg] instantiates them for PostgreSQL, and splits its compare-and-swap and its
    counter at their two statements.

    [now] is the clock in seconds.  A row is found by its primary key; a query that does not name the
    namespace takes the rows in the order of [map_to_list].  The events of a watcher are kept in the
    order in which they are sent; a sender waits while a watcher has [WATCH_CAPACITY] unread ones
    ([notify_waits]).  A back end that fails is not modelled. *)
From Stdlib Require Import Ascii.
From stdpp Require Import pretty.
From S2P Require Import Prelude Text Context.

#[local] Arguments String.append : simpl nomatch.

(** ** Data *)

Inductive KVError :=
| KeyNotFound (k : string)
| InvalidKey (m : string)
| InvalidValue (m : string)
| BackendError (m : string)
| SerializationError (m : string)
| DeserializationError (m : string)
| TTLError (m : string)
| WatchError (m : string)
| CASFailed
| ConfigError (m : string)
| IOError (m : string)
| StorageError (m : string)
| NotSupported (m : string).
Definition KVError_to_string (e : KVError) : string :=
  match e with
  | KeyNotFound k => "Key not found: " ++ k
  | InvalidKey m => "Invalid key format: " ++ m
  | InvalidValue m => "Invalid value format: " ++ m
  | BackendError m => "Backend error: " ++ m
  | SerializationError m => "Serialization error: " ++ m
  | DeserializationError m => "Deserialization error: " ++ m
  | TTLError m => "TTL error: " ++ m
  | WatchError m => "Watch error: " ++ m
  | CASFailed => "CAS operation failed: expected value didn't match"
  | ConfigError m => "Configuration error: " ++ m
  | IOError m => "IO error: " ++ m
  | StorageError m => "Storage error: " ++ m
  | NotSupported m => "Operation not supported: " ++ m
  end.

(** The errors of the interface of crates/common. *)
Inductive KeyValueStoreError :=
| CommonNotFound (k : string)
| CommonStorageError (m : string)
| CommonSerializationError (m : string)
| CasConflict.
Definition map_kv_error (e : KVError) : KeyValueStoreError :=
  match e with
  | KeyNotFound k => CommonNotFound k
  | CASFailed => CasConflict
  | SerializationError m => CommonSerializationError m
  | DeserializationError m => CommonSerializationError m
  | other => CommonStorageError (KVError_to_string other)
  end.

Abbreviation bytes := (list Z).
Abbreviation kv_result := (result KVError).

Inductive KVEventType := PutEvent | DeleteEvent | ExpireEvent.
Record KVEvent := mkEvent {
  ev_key : string;
  event_type : KVEventType;
  old_value : option bytes;
  new_value : option bytes
}.
Record KVStats := mkStats { total_keys : Z; total_size_bytes : Z; backend_type : string }.

(** ** Counters *)

Fixpoint be_bytes (n : nat) (z : Z) : bytes :=
  match n with O => [] | S n => be_bytes n (z / 256) ++ [z mod 256] end.
Definition be_combine (bs : bytes) : Z := foldl (λ a b, a * 256 + b) 0 bs.
Definition encode_i64 (value : Z) : bytes := be_bytes 8 (wrap 64 value).
Definition decode_i64 (bs : bytes) : kv_result Z :=
  if (length bs =? 8)%nat then Ok (as_i64 (be_combine bs))
  else Err (InvalidValue ("Expected 8 bytes for i64, got " ++ pretty (length bs))).

(** ** The trait *)

(** Every operation takes the context of the request, the time and the store. *)
Class KeyValueStore (S : Type) := {
  kv_get : RequestContext → string → Z → S → kv_result (option bytes);
  kv_put : RequestContext → string → bytes → Z → S → S * kv_result ();
  kv_delete : RequestContext → string → Z → S → S * kv_result ();
  kv_exists : RequestContext → string → Z → S → kv_result bool;
  kv_list : RequestContext → string → Z → S → kv_result (list string);
  kv_multi_get : RequestContext → list string → Z → S → kv_result (list (option bytes));
  kv_multi_put : RequestContext → list (string * bytes) → Z → S → S * kv_result ();
  kv_put_with_ttl : RequestContext → string → bytes → Z → Z → S → S * kv_result ();
  kv_refresh_ttl : RequestContext → string → Z → Z → S → S * kv_result ();
  kv_get_ttl : RequestContext → string → Z → S → kv_result (option Z);
  kv_cas : RequestContext → string → option bytes → bytes → Z → S → S * kv_result bool;
  kv_increment : RequestContext → string → Z → Z → S → S * kv_result Z;
  kv_decrement : RequestContext → string → Z → Z → S → S * kv_result Z;
  kv_clear_prefix : RequestContext → string → Z → S → S * kv_result Z;
  kv_count_prefix : RequestContext → string → Z → S → kv_result Z
}.

(** The operations as data, and their answers; a list of keys is answered as a set. *)
Inductive Op :=
| Get (k : string)
| Put (k : string) (v : bytes)
| Delete (k : string)
| Exists (k : string)
| ListKeys (prefix : string)
| MultiGet (ks : list string)
| MultiPut (kvs : list (string * bytes))
| PutWithTtl (k : string) (v : bytes) (ttl : Z)
| RefreshTtl (k : string) (ttl : Z)
| GetTtl (k : string)
| Cas (k : string) (expected : option bytes) (v : bytes)
| Increment (k : string) (delta : Z)
| Decrement (k : string) (delta : Z)
| ClearPrefix (prefix : string)
| CountPrefix (prefix : string).
Inductive Reply :=
| RUnit
| RValue (v : option bytes)
| RValues (vs : list (option bytes))
| RBool (b : bool)
| RInt (z : Z)
| RTtl (z : option Z)
| RKeys (ks : gset string).

Section run.
Context {S : Type} `{!KeyValueStore S}.
Implicit Types s : S.

Definition reply_with {A} (f : A → Reply) (r : S * kv_result A) : S * kv_result Reply :=
  (r.1, f <$> r.2).
Definition run_op (c : RequestContext) (op : Op) (now : Z) s : S * kv_result Reply :=
  match op with
  | Get k => (s, RValue <$> kv_get c k now s)
  | Put k v => reply_with (λ _, RUnit) (kv_put c k v now s)
  | Delete k => reply_with (λ _, RUnit) (kv_delete c k now s)
  | Exists k => (s, RBool <$> kv_exists c k now s)
  | ListKeys p => (s, (λ ks, RKeys (list_to_set ks)) <$> kv_list c p now s)
  | MultiGet ks => (s, RValues <$> kv_multi_get c ks now s)
  | MultiPut kvs => reply_with (λ _, RUnit) (kv_multi_put c kvs now s)
  | PutWithTtl k v ttl => reply_with (λ _, RUnit) (kv_put_with_ttl c k v ttl now s)
  | RefreshTtl k ttl => reply_with (λ _, RUnit) (kv_refresh_ttl c k ttl now s)
  | GetTtl k => (s, RTtl <$> kv_get_ttl c k now s)
  | Cas k e v => reply_with RBool (kv_cas c k e v now s)
  | Increment k d => reply_with RInt (kv_increment c k d now s)
  | Decrement k d => reply_with RInt (kv_decrement c k d now s)
  | ClearPrefix p => reply_with RInt (kv_clear_prefix c p now s)
  | CountPrefix p => (s, RInt <$> kv_count_prefix c p now s)
  end.
(** A run of requests, each with its context and time. *)
Fixpoint run (ops : list (RequestContext * Op * Z)) s : S * list (kv_result Reply) :=
  match ops with
  | [] => (s, [])
  | (c, op, now) :: ops =>
      let '(s, r) := run_op c op now s in let '(s, rs) := run ops s in (s, r :: rs)
  end.
End run.

(** ** The specification *)

Abbreviation Key := (string * string * string)%type.
Abbreviation Rows := (gmap (string * string * string) (list Z * option Z)).

Module Spec.

Definition key (c : RequestContext) (k : string) : Key := (tenant_id c, namespace c, k).
Definition expiry_from_ttl (now ttl : Z) : Z := as_i64 (now + as_i64 ttl).
Definition live_at (now : Z) (exp : option Z) : bool :=
  match exp with None => true | Some e => now <? e end.
(** The entry that a request sees under a key. *)
Definition find (c : RequestContext) (k : string) (now : Z) (m : Rows) : option (bytes * option Z) :=
  match m !! key c k with
  | Some (v, e) => if live_at now e then Some (v, e) else None
  | None => None
  end.
Definition value (c : RequestContext) (k : string) (now : Z) (m : Rows) : option bytes :=
  fst <$> find c k now m.
Definition set (c : RequestContext) (k : string) (v : bytes) (e : option Z) (m : Rows) : Rows :=
  <[key c k := (v, e)]> m.
(** The keys of the request's tenant and namespace that satisfy [f] and are live, or may be dead. *)
Definition keys_where (c : RequestContext) (f : string → bool) (dead : bool) (now : Z) (m : Rows)
    : gset string :=
  list_to_set (omap (λ '(t, n, k, (_, e)),
    if bool_decide ((t, n) = (tenant_id c, namespace c)) && f k && (dead || live_at now e)
    then Some k else None) (map_to_list m)).

Section spec.
(** Which keys a prefix stands for. *)
Context (matches : string → string → bool).

Definition number (c : RequestContext) (k : string) (now : Z) (m : Rows) : kv_result Z :=
  match value c k now m with Some bs => decode_i64 bs | None => Ok 0 end.
(** A counter keeps the expiry of the row, also of one that has expired. *)
Definition add (c : RequestContext) (k : string) (d now : Z) (m : Rows) : Rows * kv_result Reply :=
  match number c k now m with
  | Ok n =>
      let n := as_i64 (n + d) in
      (set c k (encode_i64 n) (m !! key c k ≫= snd) m, Ok (RInt n))
  | Err e => (m, Err e)
  end.

Definition exec (c : RequestContext) (op : Op) (now : Z) (m : Rows) : Rows * kv_result Reply :=
  match op with
  | Get k => (m, Ok (RValue (value c k now m)))
  | Put k v => (set c k v None m, Ok RUnit)
  | Delete k => (delete (key c k) m, Ok RUnit)
  | Exists k => (m, Ok (RBool (bool_decide (is_Some (find c k now m)))))
  | ListKeys p => (m, Ok (RKeys (keys_where c (matches p) false now m)))
  | MultiGet ks => (m, Ok (RValues ((λ k, value c k now m) <$> ks)))
  | MultiPut kvs => (foldl (λ m '(k, v), set c k v None m) m kvs, Ok RUnit)
  | PutWithTtl k v ttl => (set c k v (Some (expiry_from_ttl now ttl)) m, Ok RUnit)
  | RefreshTtl k ttl =>
      match value c k now m with
      | Some v => (set c k v (Some (expiry_from_ttl now ttl)) m, Ok RUnit)
      | None => (m, Err (KeyNotFound k))
      end
  | GetTtl k => (m, Ok (RTtl (find c k now m ≫= λ '(_, e), (λ e, as_u64 (e - now)) <$> e)))
  | Cas k e v =>
      if bool_decide (value c k now m = e) then (set c k v None m, Ok (RBool true))
      else (m, Ok (RBool false))
  | Increment k d => add c k d now m
  | Decrement k d => add c k (as_i64 (- d)) now m
  | ClearPrefix p =>
      let gone := keys_where c (matches p) true now m in
      (filter (λ '(i, _), ¬ (i.1 = (tenant_id c, namespace c) ∧ i.2 ∈ gone)) m,
       Ok (RInt (Z.of_nat (size gone))))
  | CountPrefix p => (m, Ok (RInt (Z.of_nat (size (keys_where c (matches p) false now m)))))
  end.

Fixpoint run (ops : list (RequestContext * Op * Z)) (m : Rows) : Rows * list (kv_result Reply) :=
  match ops with
  | [] => (m, [])
  | (c, op, now) :: ops =>
      let '(m, r) := exec c op now m in let '(m, rs) := run ops m in (m, r :: rs)
  end.
End spec.
End Spec.

Definition ascii_lower (c : ascii) : ascii :=
  if in_range 65 90 c then ascii_of_nat (nat_of_ascii c + 32) else c.
Fixpoint prefix_by (eqc : ascii → ascii → bool) (p s : string) : bool :=
  match p, s with
  | EmptyString, _ => true
  | String c p, String x s => eqc c x && prefix_by eqc p s
  | String _ _, EmptyString => false
  end.

(** The contract: [rows] is what the store holds and [matches] which keys it takes a prefix to stand
    for; a prefix of characters that stand for themselves ([plain_char]) stands for the keys that
    start with it up to a collation, which may identify the two cases of a letter.  A request that skips the filter
    of the namespace reads an entry of any namespace. *)
Class KVLaws (S : Type) `{!KeyValueStore S} := {
  rows : S → Rows;
  matches : string → string → bool;
  plain_char : ascii → bool;
  collate : ascii → ascii;
  matches_plain p k : str_all plain_char p = true →
    matches p k = prefix_by (λ a b, Ascii.eqb (collate a) (collate b)) p k;
  plain_alphanumeric c : is_ascii_alphanumeric c || Ascii.eqb c ":" = true → plain_char c = true;
  collate_case a b : collate a = collate b → ascii_lower a = ascii_lower b;
  run_op_refines c op now s : should_skip_namespace_filter c = false →
    let '(s', r) := run_op c op now s in (rows s', r) = Spec.exec matches c op now (rows s);
  kv_list_NoDup c p now s ks : should_skip_namespace_filter c = false →
    kv_list c p now s = Ok ks → NoDup ks;
  kv_get_skip c k now s : should_skip_namespace_filter c = true →
    ∃ o, kv_get c k now s = Ok o ∧
      match o with
      | Some v => ∃ ns, Spec.value (new_without_auth (tenant_id c) ns) k now (rows s) = Some v
      | None => ∀ ns, Spec.value (new_without_auth (tenant_id c) ns) k now (rows s) = None
      end
}.

(** ** The SQL back ends *)

Record Row := mkRow {
  r_value : bytes;
  expires_at : option Z;
  created_at : Z;
  updated_at : Z
}.
Record Watch := mkWatch { pattern : string; is_prefix : bool; events : list KVEvent }.
Record SqlKVStore := mkSqlKV { table : gmap Key Row; watches : list Watch }.

Definition WATCH_CAPACITY : nat := 100.
Definition watch_matches (w : Watch) (k : string) : bool :=
  if is_prefix w then String.prefix (pattern w) k else String.eqb k (pattern w).

(** What distinguishes the operator LIKE of the two databases, with no ESCAPE clause: whether letters
    match in either case, and whether a backslash quotes the next character. *)
Record Dialect := mkDialect { ignores_case : bool; backslash_escapes : bool; backend : string }.
Definition SQLite : Dialect := mkDialect true false "SQLite".
Definition PostgreSQL : Dialect := mkDialect false true "PostgreSQL".

Definition is_continuation (c : ascii) : bool := in_range 128 191 c.
Fixpoint skip_continuation (s : string) : string :=
  match s with String c t => if is_continuation c then skip_continuation t else s | _ => s end.
Definition same_char (d : Dialect) (a b : ascii) : bool :=
  if ignores_case d then Ascii.eqb (ascii_lower a) (ascii_lower b) else Ascii.eqb a b.
Fixpoint some_suffix (f : string → bool) (s : string) : bool :=
  f s || match s with String _ t => some_suffix f t | EmptyString => false end.
(** [s LIKE p] *)
Fixpoint like (d : Dialect) (p s : string) {struct p} : bool :=
  match p with
  | EmptyString => match s with EmptyString => true | _ => false end
  | String c p' =>
      if Ascii.eqb c "%" then some_suffix (like d p') s
      else if Ascii.eqb c "_" then
        match s with String _ t => like d p' (skip_continuation t) | EmptyString => false end
      else match p', s with
           | String c' p'', String x t =>
               if backslash_escapes d && Ascii.eqb c "\" then same_char d c' x && like d p'' t
               else same_char d c x && like d p' t
           | EmptyString, String x t => same_char d c x && like d p' t
           | _, EmptyString => false
           end
  end.

Module Sql.
Section sql.
Context (d : Dialect).
Implicit Types (c : RequestContext) (s : SqlKVStore).

Definition expiry_from_ttl (now ttl : Z) : Z := as_i64 (now + as_i64 ttl).
Definition key (c : RequestContext) (k : string) : Key := (tenant_id c, namespace c, k).
(** [expires_at IS NULL OR expires_at > now] *)
Definition live (now : Z) (r : Row) : bool :=
  match expires_at r with None => true | Some e => now <? e end.

Definition set_table s (t : gmap Key Row) : SqlKVStore := mkSqlKV t (watches s).
Definition set_watches s (ws : list Watch) : SqlKVStore := mkSqlKV (table s) ws.

(** The rows that a query with a WHERE clause [f] selects. *)
Definition select_where c (by_namespace : bool) (f : string → Row → bool) s : list (string * Row) :=
  omap (λ '(t, n, k, r),
    if bool_decide (t = tenant_id c) && (negb by_namespace || bool_decide (n = namespace c)) && f k r
    then Some (k, r) else None) (map_to_list (table s)).
Definition by_namespace c : bool := negb (should_skip_namespace_filter c).
(** [fetch_optional] *)
Definition select_row c (k : string) (now : Z) s : option Row :=
  if should_skip_namespace_filter c
  then snd <$> head (select_where c false (λ k' r, String.eqb k k' && live now r) s)
  else match table s !! key c k with
       | Some r => if live now r then Some r else None
       | None => None
       end.
(** [INSERT ... ON CONFLICT DO UPDATE SET], where [exp] gives the expiry that the update leaves; an
    insertion leaves the expiry [exp None]. *)
Definition upsert c (k : string) (v : bytes) (exp : option Row → option Z) (now : Z) s : SqlKVStore :=
  let old := table s !! key c k in
  set_table s (<[key c k := mkRow v (exp old) (from_option created_at now old) now]> (table s)).

Definition notify (e : KVEvent) (w : Watch) : Watch :=
  if watch_matches w (ev_key e) then mkWatch (pattern w) (is_prefix w) (events w ++ [e]) else w.
Definition notify_watchers (e : KVEvent) s : SqlKVStore :=
  set_watches s (notify e <$> watches s).
Definition notify_waits (k : string) s : bool :=
  existsb (λ w, watch_matches w k && (WATCH_CAPACITY <=? length (events w))%nat) (watches s).

Definition get c (k : string) (now : Z) s : kv_result (option bytes) :=
  Ok (r_value <$> select_row c k now s).
(** The read of the old value never fails on a table. *)
Definition old c k now s : option bytes :=
  match get c k now s with Ok v => v | Err _ => None end.

Definition put c (k : string) (v : bytes) (now : Z) s : SqlKVStore * kv_result () :=
  let o := old c k now s in
  let s := upsert c k v (λ _, None) now s in
  (notify_watchers (mkEvent k PutEvent o (Some v)) s, Ok tt).

Definition delete c (k : string) (now : Z) s : SqlKVStore * kv_result () :=
  let o := old c k now s in
  let s := set_table s (base.delete (key c k) (table s)) in
  (match o with
   | Some v => notify_watchers (mkEvent k DeleteEvent (Some v) None) s
   | None => s
   end, Ok tt).

Definition exists_key c (k : string) (now : Z) s : kv_result bool :=
  Ok (bool_decide (is_Some (select_row c k now s))).

Definition matches_prefix (prefix : string) (k : string) : bool := like d (prefix +:+ "%") k.
Definition list_keys c (prefix : string) (now : Z) s : kv_result (list string) :=
  Ok (select_where c (by_namespace c) (λ k r, matches_prefix prefix k && live now r) s).*1.

Fixpoint multi_get c (ks : list string) (now : Z) s : kv_result (list (option bytes)) :=
  match ks with
  | [] => Ok []
  | k :: ks => v ← get c k now s; vs ← multi_get c ks now s; Ok (v :: vs)
  end.

Definition multi_put c (kvs : list (string * bytes)) (now : Z) s : SqlKVStore * kv_result () :=
  let s := foldl (λ s '(k, v), upsert c k v (λ _, None) now s) s kvs in
  (foldl (λ s '(k, v), notify_watchers (mkEvent k PutEvent None (Some v)) s) s kvs, Ok tt).

Definition put_with_ttl c (k : string) (v : bytes) (ttl now : Z) s : SqlKVStore * kv_result () :=
  let e := expiry_from_ttl now ttl in
  let o := old c k now s in
  let s := upsert c k v (λ _, Some e) now s in
  (notify_watchers (mkEvent k PutEvent o (Some v)) s, Ok tt).

(** The UPDATE names the namespace of every request. *)
Definition refresh_ttl c (k : string) (ttl now : Z) s : SqlKVStore * kv_result () :=
  let e := expiry_from_ttl now ttl in
  match table s !! key c k with
  | Some r =>
      if live now r
      then (set_table s (<[key c k := mkRow (r_value r) (Some e) (created_at r) now]> (table s)), Ok tt)
      else (s, Err (KeyNotFound k))
  | None => (s, Err (KeyNotFound k))
  end.

Definition get_ttl c (k : string) (now : Z) s : kv_result (option Z) :=
  Ok (r ← select_row c k now s; e ← expires_at r; Some (as_u64 (e - now))).

(** The transaction of [cas]: the check, and the write when it succeeds. *)
Definition cas_matches c (k : string) (expected : option bytes) (now : Z) s : bool :=
  match old c k now s, expected with
  | None, None => true
  | Some cur, Some e => bool_decide (cur = e)
  | _, _ => false
  end.
Definition cas_write c (k : string) (v : bytes) (o : option bytes) (now : Z) s : SqlKVStore :=
  let s := upsert c k v (λ _, None) now s in
  notify_watchers (mkEvent k PutEvent o (Some v)) s.
Definition cas c (k : string) (expected : option bytes) (v : bytes) (now : Z) s
    : SqlKVStore * kv_result bool :=
  if cas_matches c k expected now s then (cas_write c k v (old c k now s) now s, Ok true)
  else (s, Ok false).

Definition current_number c (k : string) (now : Z) s : kv_result Z :=
  match old c k now s with Some v => decode_i64 v | None => Ok 0 end.
Definition increment c (k : string) (delta now : Z) s : SqlKVStore * kv_result Z :=
  match current_number c k now s with
  | Err e => (s, Err e)
  | Ok current =>
      let n := as_i64 (current + delta) in
      let s := upsert c k (encode_i64 n) (λ o, o ≫= expires_at) now s in
      (notify_watchers (mkEvent k PutEvent (Some (encode_i64 current)) (Some (encode_i64 n))) s, Ok n)
  end.
Definition decrement c (k : string) (delta now : Z) s : SqlKVStore * kv_result Z :=
  increment c k (as_i64 (- delta)) now s.

Definition watch (k : string) s : SqlKVStore := set_watches s (watches s ++ [mkWatch k false []]).
Definition watch_prefix (p : string) s : SqlKVStore := set_watches s (watches s ++ [mkWatch p true []]).

(** Expired rows are deleted and counted too, and no watcher is told. *)
Definition clear_prefix c (prefix : string) (now : Z) s : SqlKVStore * kv_result Z :=
  let gone (i : Key) := bool_decide (i.1 = (tenant_id c, namespace c)) && matches_prefix prefix i.2 in
  (set_table s (filter (λ '(i, _), gone i = false) (table s)),
   Ok (Z.of_nat (length (select_where c true (λ k _, matches_prefix prefix k) s)))).

Definition count_prefix c (prefix : string) (now : Z) s : kv_result Z :=
  Ok (Z.of_nat (length
        (select_where c (by_namespace c) (λ k r, matches_prefix prefix k && live now r) s))).

(** [LENGTH] of a text counts its characters. *)
Fixpoint char_count (s : string) : Z :=
  match s with
  | EmptyString => 0
  | String c s => (if is_continuation c then 0 else 1) + char_count s
  end.
Definition get_stats c (now : Z) s : kv_result KVStats :=
  let rs := select_where c (by_namespace c) (λ _, live now) s in
  Ok (mkStats (Z.of_nat (length rs))
        (foldr (λ '(k, r) n, char_count k + Z.of_nat (length (r_value r)) + n) 0 rs) (backend d)).

#[export] Instance store : KeyValueStore SqlKVStore := {|
  kv_get := get; kv_put := put; kv_delete := delete; kv_exists := exists_key; kv_list := list_keys;
  kv_multi_get := multi_get; kv_multi_put := multi_put; kv_put_with_ttl := put_with_ttl;
  kv_refresh_ttl := refresh_ttl; kv_get_ttl := get_ttl; kv_cas := cas; kv_increment := increment;
  kv_decrement := decrement; kv_clear_prefix := clear_prefix; kv_count_prefix := count_prefix
|}.
End sql.
End Sql.

(** The methods of PostgreSQL: the texts of the statements are those of SQLite.  The transactions of [cas] and [increment] read and write in two
    statements, between which those of other connections commit. *)
Module Pg.
Definition pg_get := Sql.get.
Definition pg_put := Sql.put.
Definition pg_delete := Sql.delete.
Definition pg_exists := Sql.exists_key.
Definition pg_list := Sql.list_keys PostgreSQL.
Definition pg_multi_get := Sql.multi_get.
Definition pg_multi_put := Sql.multi_put.
Definition pg_put_with_ttl := Sql.put_with_ttl.
Definition pg_refresh_ttl := Sql.refresh_ttl.
Definition pg_get_ttl := Sql.get_ttl.
Definition pg_cas := Sql.cas.
Definition pg_increment := Sql.increment.
Definition pg_decrement := Sql.decrement.
Definition pg_watch := Sql.watch.
Definition pg_watch_prefix := Sql.watch_prefix.
Definition pg_clear_prefix := Sql.clear_prefix PostgreSQL.
Definition pg_count_prefix := Sql.count_prefix PostgreSQL.
Definition pg_get_stats := Sql.get_stats PostgreSQL.
#[export] Instance pg_store : KeyValueStore SqlKVStore := {|
  kv_get := pg_get; kv_put := pg_put; kv_delete := pg_delete; kv_exists := pg_exists; kv_list := pg_list;
  kv_multi_get := pg_multi_get; kv_multi_put := pg_multi_put; kv_put_with_ttl := pg_put_with_ttl;
  kv_refresh_ttl := pg_refresh_ttl; kv_get_ttl := pg_get_ttl; kv_cas := pg_cas;
  kv_increment := pg_increment; kv_decrement := pg_decrement; kv_clear_prefix := pg_clear_prefix;
  kv_count_prefix := pg_count_prefix
|}.

(** [Some o]: the transaction goes on, having read [o]. *)
Definition cas_check c (k : string) (expected : option bytes) (now : Z) s : option (option bytes) :=
  if Sql.cas_matches c k expected now s then Some (Sql.old c k now s) else None.
Definition cas_commit := Sql.cas_write.
Definition increment_read := Sql.current_number.
Definition increment_write c (k : string) (current delta now : Z) s : SqlKVStore * Z :=
  let n := as_i64 (current + delta) in
  let s := Sql.upsert c k (encode_i64 n) (λ o, o ≫= expires_at) now s in
  (Sql.notify_watchers (mkEvent k PutEvent (Some (encode_i64 current)) (Some (encode_i64 n))) s, n).
End Pg.

(** ** Lemmas: counters *)

Lemma length_be_bytes n z : length (be_bytes n z) = n.
Proof. revert z. induction n as [|n IH]; intros z; [done|]. simpl. rewrite length_app, IH. simpl. lia. Qed.

Lemma be_combine_snoc bs b : be_combine (bs ++ [b]) = be_combine bs * 256 + b.
Proof. unfold be_combine. by rewrite foldl_app. Qed.

Lemma be_combine_bytes n z : be_combine (be_bytes n z) = z mod 256 ^ Z.of_nat n.
Proof.
  revert z. induction n as [|n IH]; intros z; [by rewrite Z.mod_1_r|].
  cbn [be_bytes]. rewrite be_combine_snoc, IH, Nat2Z.inj_succ, Z.pow_succ_r by lia.
  rewrite Z.rem_mul_r by lia. lia.
Qed.

Lemma as_i64_wrap z : as_i64 (wrap 64 z) = as_i64 z.
Proof. unfold as_i64, wrap. by rewrite Z.mod_mod. Qed.

Lemma as_i64_small z : - 2 ^ 63 <= z < 2 ^ 63 → as_i64 z = z.
Proof.
  intros Hz. unfold as_i64, wrap. destruct (Z.ltb_spec z 0).
  - replace (z mod 2 ^ 64) with (z + 2 ^ 64).
    + destruct (Z.ltb_spec (z + 2 ^ 64) (2 ^ 63)); lia.
    + rewrite <-(Z.mod_small (z + 2 ^ 64) (2 ^ 64)) by lia.
      rewrite <-Zplus_mod_idemp_r, Z_mod_same_full. by rewrite Z.add_0_r.
  - rewrite Z.mod_small by lia. destruct (Z.ltb_spec z (2 ^ 63)); lia.
Qed.

Lemma decode_encode_i64 z : decode_i64 (encode_i64 z) = Ok (as_i64 z).
Proof.
  unfold decode_i64, encode_i64. rewrite length_be_bytes, Nat.eqb_refl, be_combine_bytes. change (256 ^ Z.of_nat 8) with (2 ^ 64).
  unfold wrap. rewrite Z.mod_mod by lia. by rewrite <-(as_i64_wrap z).
Qed.

(** ** Lemmas: LIKE *)

Definition sql_plain_char (d : Dialect) (c : ascii) : bool :=
  negb (Ascii.eqb c "%") && negb (Ascii.eqb c "_")
  && negb (backslash_escapes d && Ascii.eqb c "\").
Definition sql_collate (d : Dialect) (c : ascii) : ascii :=
  if ignores_case d then ascii_lower c else c.

Lemma same_char_collate d a b : same_char d a b = Ascii.eqb (sql_collate d a) (sql_collate d b).
Proof. unfold same_char, sql_collate. by destruct (ignores_case d). Qed.

Lemma some_suffix_end f s : f "" = true → some_suffix f s = true.
Proof. intros Hf. induction s as [|c s IH]; simpl; [by rewrite Hf|]. by rewrite IH, orb_true_r. Qed.

(** A plain prefix followed by a percent sign. *)
Lemma like_plain d p s :
  str_all (sql_plain_char d) p = true →
  like d (p +:+ "%") s = prefix_by (λ a b, Ascii.eqb (sql_collate d a) (sql_collate d b)) p s.
Proof.
  revert s. induction p as [|c p IH]; intros s.
  - intros _. cbn. by apply some_suffix_end.
  - cbn [str_all]. intros [[[H1 H2]%andb_prop H3]%andb_prop Hp]%andb_prop.
    apply negb_true_iff in H1, H2, H3.
    change (String c p +:+ "%") with (String c (p +:+ "%")). cbn [like prefix_by]. rewrite H1, H2, H3.
    destruct s as [|x s]; [by destruct (p +:+ "%")|].
    rewrite <-same_char_collate, <-IH by done. by destruct (p +:+ "%").
Qed.

Lemma sql_collate_case d a b : sql_collate d a = sql_collate d b → ascii_lower a = ascii_lower b.
Proof. unfold sql_collate. destruct (ignores_case d); [done | by intros ->]. Qed.

Lemma sql_plain_alphanumeric d c :
  is_ascii_alphanumeric c || Ascii.eqb c ":" = true → sql_plain_char d c = true.
Proof.
  unfold sql_plain_char. destruct (backslash_escapes d); cbn [andb];
    destruct c as [[] [] [] [] [] [] [] []]; by vm_compute.
Qed.

(** ** Lemmas: tables *)

Definition entry_of (r : Row) : bytes * option Z := (r_value r, expires_at r).
Definition sql_rows (s : SqlKVStore) : Rows := entry_of <$> table s.

#[local] Arguments sql_rows : simpl never.
#[local] Arguments Sql.upsert : simpl never.
#[local] Arguments Sql.old : simpl never.
#[local] Arguments Sql.notify_watchers : simpl never.

Section table_lemmas.
Implicit Types (c : RequestContext) (s : SqlKVStore).

Lemma select_row_find c k now s : should_skip_namespace_filter c = false →
  entry_of <$> Sql.select_row c k now s = Spec.find c k now (sql_rows s).
Proof.
  intros Hc. unfold Sql.select_row, Spec.find, sql_rows. rewrite Hc, lookup_fmap.
  change (Spec.key c k) with (Sql.key c k). destruct (table s !! Sql.key c k) as [r|]; [|done].
  unfold Sql.live, Spec.live_at. cbn. destruct (expires_at r) as [e|] eqn:He; cbn.
  - destruct (now <? e); [|done]. cbn. unfold entry_of. by rewrite He.
  - unfold entry_of. by rewrite He.
Qed.

Lemma old_is_value c k now s : should_skip_namespace_filter c = false →
  Sql.old c k now s = Spec.value c k now (sql_rows s).
Proof.
  intros Hc. unfold Sql.old, Sql.get, Spec.value. rewrite <-select_row_find by done.
  by destruct (Sql.select_row c k now s).
Qed.

Lemma rows_upsert c k v f now s :
  sql_rows (Sql.upsert c k v f now s) = Spec.set c k v (f (table s !! Sql.key c k)) (sql_rows s).
Proof. unfold sql_rows, Sql.upsert, Spec.set. cbn. by rewrite fmap_insert. Qed.

Lemma rows_delete i s : sql_rows (Sql.set_table s (base.delete i (table s))) = base.delete i (sql_rows s).
Proof. unfold sql_rows. cbn. by rewrite fmap_delete. Qed.

Lemma rows_notify e s : sql_rows (Sql.notify_watchers e s) = sql_rows s.
Proof. done. Qed.

Lemma elem_of_select c b f s k r :
  (k, r) ∈ Sql.select_where c b f s ↔
  f k r = true ∧ ∃ n, table s !! (tenant_id c, n, k) = Some r ∧ (b = true → n = namespace c).
Proof.
  unfold Sql.select_where. rewrite list_elem_of_omap. split.
  - intros ([[[t n] k'] r'] & Hin%elem_of_map_to_list & H).
    destruct (bool_decide (t = tenant_id c) && _ && f k' r') eqn:E; [|done]. simplify_eq.
    bool_to_Prop. subst. split; [done|]. exists n. split; [done|]. intros ->.
    by match goal with H : (_ || _)%bool = true |- _ => apply orb_prop in H as [?|?%bool_decide_eq_true] end.
  - intros (Hf & n & Hr & Hb). exists ((tenant_id c, n, k), r). rewrite elem_of_map_to_list.
    split; [done|]. rewrite bool_decide_eq_true_2, Hf by done. cbn.
    destruct b; cbn; [|done]. by rewrite (bool_decide_eq_true_2 (n = _)) by auto.
Qed.

Lemma select_NoDup c f s : NoDup (Sql.select_where c true f s).*1.
Proof.
  unfold Sql.select_where. pose proof (NoDup_map_to_list (table s)) as Hnd.
  assert (∀ i r, (i, r) ∈ map_to_list (table s) → table s !! i = Some r) as Hin.
  { intros i r. by rewrite elem_of_map_to_list. }
  revert Hin Hnd. generalize (map_to_list (table s)) as l. induction l as [|[[[t n] k] r] l IH];
    intros Hin; [constructor|]. intros [Hx Hl]%NoDup_cons. cbn [omap list_omap].
  specialize (IH (λ i r' Hi, Hin i r' (list_elem_of_further _ _ _ Hi)) Hl).
  destruct (bool_decide (t = tenant_id c) && _ && f k r) eqn:E; [|exact IH].
  rewrite fmap_cons. apply NoDup_cons. split; [|exact IH]. cbn. intros Hk.
  apply list_elem_of_fmap in Hk as ([k' r'] & Hkk & Hk). cbn in Hkk. subst k'.
  apply list_elem_of_omap in Hk as ([[[t' n'] k'] r''] & Hin' & H).
  destruct (bool_decide (t' = tenant_id c) && _ && f k' r'') eqn:E'; [|done]. simplify_eq.
  bool_to_Prop. cbn in *. bool_to_Prop. subst. apply Hx.
  pose proof (Hin _ _ (list_elem_of_here _ _)) as H1.
  pose proof (Hin _ _ (list_elem_of_further _ _ _ Hin')) as H2. congruence.
Qed.

Lemma elem_of_keys_where c (f : string → bool) (dead : bool) (now : Z) (m : Rows) (k : string) :
  k ∈ Spec.keys_where c f dead now m ↔
  f k = true ∧ ∃ v e, m !! Spec.key c k = Some (v, e) ∧ (dead || Spec.live_at now e) = true.
Proof.
  unfold Spec.keys_where. rewrite elem_of_list_to_set, list_elem_of_omap. split.
  - intros ([[[t n] k'] [v e]] & Hin%elem_of_map_to_list & H).
    destruct (bool_decide _ && f k' && _) eqn:E; [|done]. simplify_eq. bool_to_Prop. simplify_eq.
    eauto.
  - intros (Hf & v & e & Hm & He). exists (tenant_id c, namespace c, k, (v, e)).
    rewrite elem_of_map_to_list. split; [done|]. by rewrite bool_decide_eq_true_2, Hf, He.
Qed.

Lemma select_keys c f now s :
  list_to_set (Sql.select_where c true (λ k r, f k && Sql.live now r) s).*1
  = Spec.keys_where c f false now (sql_rows s).
Proof.
  apply set_eq. intros k. rewrite elem_of_list_to_set, list_elem_of_fmap, elem_of_keys_where.
  unfold sql_rows. rewrite lookup_fmap. split.
  - intros ([k' r] & -> & (Hf & n & Hr & Hn)%elem_of_select). cbn. bool_to_Prop.
    split; [done|]. rewrite Hn in Hr by done. unfold Spec.key. rewrite Hr. cbn. eauto.
  - intros (Hf & v & e & Hm & He). destruct (table s !! _) as [r|] eqn:Hr; [|done].
    exists (k, r). split; [done|]. apply elem_of_select. split; [|by eauto].
    rewrite Hf. cbn in Hm. injection Hm as <- <-. exact He.
Qed.

Lemma select_keys_dead c f now s :
  list_to_set (Sql.select_where c true (λ k _, f k) s).*1
  = Spec.keys_where c f true now (sql_rows s).
Proof.
  apply set_eq. intros k. rewrite elem_of_list_to_set, list_elem_of_fmap, elem_of_keys_where.
  unfold sql_rows. rewrite lookup_fmap. split.
  - intros ([k' r] & -> & (Hf & n & Hr & Hn)%elem_of_select). cbn.
    split; [done|]. rewrite Hn in Hr by done. unfold Spec.key. rewrite Hr. cbn. eauto.
  - intros (Hf & v & e & Hm & He). destruct (table s !! _) as [r|] eqn:Hr; [|done].
    exists (k, r). split; [done|]. apply elem_of_select. eauto.
Qed.

Lemma size_select c f now s :
  Z.of_nat (length (Sql.select_where c true (λ k r, f k && Sql.live now r) s))
  = Z.of_nat (size (Spec.keys_where c f false now (sql_rows s))).
Proof.
  rewrite <-select_keys, size_list_to_set by apply select_NoDup. by rewrite length_fmap.
Qed.

Lemma size_select_dead c f now s :
  Z.of_nat (length (Sql.select_where c true (λ k _, f k) s))
  = Z.of_nat (size (Spec.keys_where c f true now (sql_rows s))).
Proof.
  rewrite <-select_keys_dead, size_list_to_set by apply select_NoDup. by rewrite length_fmap.
Qed.

Lemma rows_puts c kvs now s :
  sql_rows (foldl (λ s '(k, v), Sql.upsert c k v (λ _, None) now s) s kvs)
  = foldl (λ m '(k, v), Spec.set c k v None m) (sql_rows s) kvs.
Proof. revert s. induction kvs as [|[k v] kvs IH]; intros s; [done|]. simpl. by rewrite IH, rows_upsert. Qed.

Lemma rows_notify_all kvs s :
  sql_rows (foldl (λ s '(k, v), Sql.notify_watchers (mkEvent k PutEvent None (Some v)) s) s kvs) = sql_rows s.
Proof. revert s. induction kvs as [|[k v] kvs IH]; intros s; [done|]. simpl. by rewrite IH. Qed.

Lemma multi_get_values c ks now s : should_skip_namespace_filter c = false →
  Sql.multi_get c ks now s = Ok ((λ k, Spec.value c k now (sql_rows s)) <$> ks).
Proof.
  intros Hc. induction ks as [|k ks IH]; [done|]. cbn [Sql.multi_get]. rewrite IH, fmap_cons.
  by rewrite <-old_is_value.
Qed.

Lemma increment_adds c k delta now s : should_skip_namespace_filter c = false →
  let '(s', r) := Sql.increment c k delta now s in
  (sql_rows s', RInt <$> r) = Spec.add c k delta now (sql_rows s).
Proof.
  intros Hc. unfold Sql.increment, Spec.add, Sql.current_number, Spec.number.
  rewrite old_is_value by done. destruct (Spec.value c k now (sql_rows s)) as [bs|]; cbn.
  2: { rewrite rows_notify, rows_upsert. do 3 f_equal. unfold sql_rows. rewrite lookup_fmap.
       change (Spec.key c k) with (Sql.key c k). by destruct (table s !! _). }
  destruct (decode_i64 bs); cbn; [|done].
  rewrite rows_notify, rows_upsert. do 3 f_equal. unfold sql_rows. rewrite lookup_fmap.
  change (Spec.key c k) with (Sql.key c k). by destruct (table s !! _).
Qed.

Lemma rows_clear c f now s :
  sql_rows (Sql.set_table s (filter (λ '(i, _),
    bool_decide (i.1 = (tenant_id c, namespace c)) && f i.2 = false) (table s)))
  = filter (λ '(i, _), ¬ (i.1 = (tenant_id c, namespace c)
                          ∧ i.2 ∈ Spec.keys_where c f true now (sql_rows s))) (sql_rows s).
Proof.
  unfold sql_rows. cbn. apply map_eq. intros i. rewrite lookup_fmap, !map_lookup_filter, lookup_fmap.
  destruct (table s !! i) as [r|] eqn:Hr; [|done]. cbn.
  destruct (bool_decide (i.1 = _) && f i.2) eqn:E.
  - rewrite option_guard_False by congruence. cbn. bool_to_Prop.
    rewrite option_guard_False; [done|]. intros []. split; [done|]. apply elem_of_keys_where.
    split; [done|]. exists (r_value r), (expires_at r). split; [|done].
    destruct i as [i k]. cbn in *. unfold Spec.key. subst i. by rewrite lookup_fmap, Hr.
  - rewrite option_guard_True by done. cbn. rewrite option_guard_True; [done|].
    intros (Hi & (Hf & _)%elem_of_keys_where). rewrite bool_decide_eq_true_2, Hf in E; done.
Qed.
End table_lemmas.

#[local] Ltac kv_rows :=
  rewrite ?rows_notify_all, ?rows_puts, ?rows_notify, ?rows_upsert, ?old_is_value by done.

(** The tables of both databases satisfy the contract. *)
Lemma sql_run_op_refines d c op now s : should_skip_namespace_filter c = false →
  let '(s', r) := run_op (KeyValueStore0 := Sql.store d) c op now s in
  (sql_rows s', r) = Spec.exec (Sql.matches_prefix d) c op now (sql_rows s).
Proof.
  intros Hc. assert (Sql.by_namespace c = true) as Hns by (unfold Sql.by_namespace; by rewrite Hc).
  destruct op as [k|k v|k|k|p|ks|kvs|k v ttl|k ttl|k|k e v|k delta|k delta|p|p]; cbn.
  - by rewrite <-old_is_value.
  - unfold reply_with, Sql.put. cbn. by kv_rows.
  - unfold reply_with, Sql.delete. cbn. rewrite old_is_value by done.
    assert (∀ o, sql_rows match o with Some v => Sql.notify_watchers (mkEvent k DeleteEvent (Some v) None)
              (Sql.set_table s (base.delete (Sql.key c k) (table s))) | None => Sql.set_table s (base.delete (Sql.key c k) (table s)) end
              = base.delete (Spec.key c k) (sql_rows s)) as ->; [|done].
    intros []; rewrite ?rows_notify; apply rows_delete.
  - rewrite <-select_row_find by done. do 3 f_equal. apply bool_decide_ext.
    by rewrite fmap_is_Some.
  - unfold Sql.list_keys. rewrite Hns. cbn. by rewrite (select_keys c (Sql.matches_prefix d p) now).
  - by rewrite multi_get_values.
  - unfold reply_with, Sql.multi_put. cbn. by kv_rows.
  - unfold reply_with, Sql.put_with_ttl. cbn. by kv_rows.
  - unfold reply_with, Sql.refresh_ttl, Spec.value, Spec.find. unfold sql_rows at 2. rewrite lookup_fmap.
    change (Spec.key c k) with (Sql.key c k). destruct (table s !! Sql.key c k) as [r|]; [|done]. cbn.
    change (Spec.live_at now (expires_at r)) with (Sql.live now r).
    destruct (Sql.live now r); [|done]. cbn. unfold Spec.set, sql_rows. cbn. by rewrite fmap_insert.
  - rewrite <-select_row_find by done. unfold Sql.get_ttl. do 3 f_equal.
    by destruct (Sql.select_row c k now s).
  - unfold reply_with, Sql.cas, Sql.cas_matches, Sql.cas_write. rewrite old_is_value by done.
    destruct (Spec.value c k now (sql_rows s)) as [cur|], e as [e|]; cbn.
    + destruct (decide (cur = e)) as [->|Hne].
      * rewrite !bool_decide_eq_true_2 by done. cbn. by kv_rows.
      * rewrite !bool_decide_eq_false_2 by congruence. done.
    + done.
    + done.
    + by kv_rows.
  - pose proof (increment_adds c k delta now s Hc) as H. unfold reply_with. by destruct (Sql.increment _ _ _ _ _).
  - pose proof (increment_adds c k (as_i64 (- delta)) now s Hc) as H. unfold reply_with, Sql.decrement.
    by destruct (Sql.increment _ _ _ _ _).
  - unfold reply_with, Sql.clear_prefix. cbn [fst snd]. rewrite (rows_clear _ _ now). cbn.
    by rewrite (size_select_dead c (Sql.matches_prefix d p) now).
  - unfold Sql.count_prefix. rewrite Hns. cbn. by rewrite (size_select c (Sql.matches_prefix d p) now).
Qed.

Lemma sql_get_skip c k now s : should_skip_namespace_filter c = true →
  ∃ o, Sql.get c k now s = Ok o ∧
    match o with
    | Some v => ∃ ns, Spec.value (new_without_auth (tenant_id c) ns) k now (sql_rows s) = Some v
    | None => ∀ ns, Spec.value (new_without_auth (tenant_id c) ns) k now (sql_rows s) = None
    end.
Proof.
  intros Hc. eexists. split; [done|]. unfold Sql.select_row. rewrite Hc.
  set (f := λ k' r, String.eqb k k' && Sql.live now r).
  pose proof (λ k' r, elem_of_select c false f s k' r) as Hin. revert Hin.
  destruct (Sql.select_where c false f s) as [|[k' r] l]; cbn; intros Hin.
  - intros ns. unfold Spec.value, Spec.find, sql_rows. rewrite lookup_fmap.
    destruct (table s !! _) as [r|] eqn:Hr; [|done]. cbn.
    change (Spec.live_at now (expires_at r)) with (Sql.live now r). destruct (Sql.live now r) eqn:Hl; [|done].
    exfalso. apply (not_elem_of_nil (k, r)), Hin. unfold f. rewrite String.eqb_refl, Hl. split; [done|]. by exists ns.
  - destruct (proj1 (Hin k' r) (list_elem_of_here _ _)) as (Hf & ns & Hr & _). unfold f in Hf.
    apply andb_prop in Hf as [<-%String.eqb_eq Hl]. exists ns. unfold Spec.value, Spec.find, sql_rows.
    rewrite lookup_fmap. unfold Spec.key. cbn. rewrite Hr. cbn.
    change (Spec.live_at now (expires_at r)) with (Sql.live now r). by rewrite Hl.
Qed.

#[export] Program Instance sql_laws d : @KVLaws SqlKVStore (Sql.store d) := {|
  rows := sql_rows;
  matches := Sql.matches_prefix d;
  plain_char := sql_plain_char d;
  collate := sql_collate d
|}.
Next Obligation. intros. by apply like_plain. Qed.
Next Obligation. intros. by apply sql_plain_alphanumeric. Qed.
Next Obligation. intros. by apply (sql_collate_case d). Qed.
Next Obligation. intros. by apply sql_run_op_refines. Qed.
Next Obligation.
  intros d c p now s ks Hc. cbn. unfold Sql.list_keys, Sql.by_namespace. rewrite Hc. intros [= <-].
  apply select_NoDup.
Qed.
Next Obligation. intros. by apply sql_get_skip. Qed.

(** ** Lemmas: the contract, operation by operation *)

Section laws.
Context {S : Type} `{KVLaws S}.
Implicit Types (c : RequestContext) (s : S).

Lemma kv_get_spec c k now s : should_skip_namespace_filter c = false →
  kv_get c k now s = Ok (Spec.value c k now (rows s)).
Proof.
  intros Hc. pose proof (run_op_refines c (Get k) now s Hc) as H1. cbn in H1.
  by destruct (kv_get c k now s); simplify_eq/=.
Qed.

Lemma kv_put_spec c k v now s : should_skip_namespace_filter c = false →
  ∃ s', kv_put c k v now s = (s', Ok tt) ∧ rows s' = Spec.set c k v None (rows s).
Proof.
  intros Hc. pose proof (run_op_refines c (Put k v) now s Hc) as H1. cbn in H1.
  destruct (kv_put c k v now s) as [s' [[]|]]; simplify_eq/=. by exists s'.
Qed.

Lemma kv_delete_spec c k now s : should_skip_namespace_filter c = false →
  ∃ s', kv_delete c k now s = (s', Ok tt) ∧ rows s' = delete (Spec.key c k) (rows s).
Proof.
  intros Hc. pose proof (run_op_refines c (Delete k) now s Hc) as H1. cbn in H1.
  destruct (kv_delete c k now s) as [s' [[]|]]; simplify_eq/=. by exists s'.
Qed.

Lemma kv_list_spec c p now s : should_skip_namespace_filter c = false →
  ∃ ks, kv_list c p now s = Ok ks ∧ NoDup ks ∧
    list_to_set ks = Spec.keys_where c (matches p) false now (rows s).
Proof.
  intros Hc. pose proof (run_op_refines c (ListKeys p) now s Hc) as H1. cbn in H1.
  destruct (kv_list c p now s) as [ks|] eqn:E; simplify_eq/=. exists ks.
  split; [done|]. split; [by eapply kv_list_NoDup | done].
Qed.

Lemma kv_runs_refine ops s :
  Forall (λ '(c, _, _), should_skip_namespace_filter c = false) ops →
  let '(s', rs) := run ops s in (rows s', rs) = Spec.run matches ops (rows s).
Proof.
  intros Hops. revert s. induction Hops as [|[[c op] now] ops Hc _ IH]; intros s; [done|]. simpl.
  pose proof (run_op_refines c op now s Hc) as H1. destruct (run_op c op now s) as [s1 r].
  rewrite <-H1. specialize (IH s1). destruct (run ops s1) as [s2 rs]. by rewrite <-IH.
Qed.
End laws.

(** ** Properties *)

(** C18. Any run of requests of ordinary contexts on the tables of SQLite and of PostgreSQL gives the answers
    of the map from keys to values with expiries, and ends in its state; a listing for a prefix without
    special characters gives the keys that start with it, on SQLite in either case of the letters. *)
Theorem sql_store_refines_map (d : Dialect) (s : SqlKVStore) ops :
  Forall (λ '(c, _, _), should_skip_namespace_filter c = false) ops →
  (let '(s', rs) := run (KeyValueStore0 := Sql.store d) ops s in
   (sql_rows s', rs) = Spec.run (Sql.matches_prefix d) ops (sql_rows s)) ∧
  (∀ p k, str_all (sql_plain_char d) p = true →
    Sql.matches_prefix d p k
    = prefix_by (λ a b, Ascii.eqb (sql_collate d a) (sql_collate d b)) p k).
Proof.
  intros Hops. split.
  - exact (kv_runs_refine (KeyValueStore0 := Sql.store d) ops s Hops).
  - intros p k. apply like_plain.
Qed.

(** A compare-and-swap of PostgreSQL that runs alone grants a key to one of two requests that expect it
    to be free, but its check and its write are two statements: when both requests check before either
    writes, both are granted the key, and the value of the second write stays. *)
Theorem pg_cas_grants_twice c k v1 v2 now s :
  should_skip_namespace_filter c = false → Spec.value c k now (sql_rows s) = None →
  (let '(s1, r1) := Sql.cas c k None v1 now s in
   r1 = Ok true ∧ ∀ now' v, (Sql.cas c k None v now' s1).2 = Ok false) ∧
  ∃ o1 o2, Pg.cas_check c k None now s = Some o1 ∧ Pg.cas_check c k None now s = Some o2 ∧
    let s1 := Pg.cas_commit c k v1 o1 now s in
    let s2 := Pg.cas_commit c k v2 o2 now s1 in
    Spec.value c k now (sql_rows s1) = Some v1 ∧ Spec.value c k now (sql_rows s2) = Some v2.
Proof.
  intros Hc Hfree.
  assert (∀ v o s', Spec.find c k now (sql_rows (Sql.cas_write c k v o now s')) = Some (v, None)) as Hw.
  { intros v o s'. unfold Sql.cas_write. rewrite rows_notify, rows_upsert. unfold Spec.find, Spec.set.
    by rewrite lookup_insert_eq. }
  assert (Sql.cas_matches c k None now s = true) as Hm.
  { unfold Sql.cas_matches. by rewrite old_is_value, Hfree. }
  split.
  - unfold Sql.cas at 1. rewrite Hm. split; [done|]. intros now' v. unfold Sql.cas, Sql.cas_matches.
    rewrite old_is_value by done.
    assert (Spec.value c k now' (sql_rows (Sql.cas_write c k v1 (Sql.old c k now s) now s)) = Some v1) as ->;
      [|done].
    unfold Sql.cas_write. rewrite rows_notify, rows_upsert. unfold Spec.value, Spec.find, Spec.set.
    by rewrite lookup_insert_eq.
  - unfold Pg.cas_check. rewrite Hm. eexists _, _. split; [done|]. split; [done|]. cbn zeta.
    unfold Spec.value, Pg.cas_commit. by rewrite !Hw.
Qed.

(** A counter whose row has expired is lost: the increment answers its delta, but the row keeps the
    expiry that has passed, so the next read finds nothing and the next increment answers its own delta
    again. *)
Theorem expired_counter_is_lost c k v e d1 d2 now now' s :
  should_skip_namespace_filter c = false →
  sql_rows s !! Spec.key c k = Some (v, Some e) → e <= now <= now' →
  let '(s1, r1) := Sql.increment c k d1 now s in
  r1 = Ok (as_i64 d1) ∧ Sql.get c k now' s1 = Ok None ∧
  (Sql.increment c k d2 now' s1).2 = Ok (as_i64 d2).
Proof.
  intros Hc Hrow He.
  assert (∀ t m, e <= t → m !! Spec.key c k = Some (encode_i64 (as_i64 d1), Some e) ∨ m !! Spec.key c k = Some (v, Some e) →
          Spec.value c k t m = None) as Hdead.
  { intros t m Ht Hm. unfold Spec.value, Spec.find.
    by destruct Hm as [-> | ->]; cbn; rewrite (proj2 (Z.ltb_ge t e)). }
  pose proof (increment_adds c k d1 now s Hc) as H1. unfold Spec.add, Spec.number in H1.
  rewrite (Hdead now) in H1 by (lia || auto). rewrite Hrow in H1. cbn in H1.
  destruct (Sql.increment c k d1 now s) as [s1 [n|]]; simplify_eq/=. split; [done|].
  assert (Spec.value c k now' (sql_rows s1) = None) as Hnone.
  { apply Hdead; [lia|]. left. rewrite H. unfold Spec.set. by rewrite lookup_insert_eq. }
  split.
  - rewrite (kv_get_spec (KeyValueStore0 := Sql.store SQLite) c k now' s1 Hc : Sql.get c k now' s1 = _).
    cbn. by rewrite Hnone.
  - pose proof (increment_adds c k d2 now' s1 Hc) as H2. unfold Spec.add, Spec.number in H2.
    rewrite Hnone in H2. cbn in H2. by destruct (Sql.increment c k d2 now' s1) as [s2 [n|]]; simplify_eq/=.
Qed.

(** ** Watchers *)

(** The events that an operation sends, from the map before it. *)
Definition emitted_add (c : RequestContext) (k : string) (delta now : Z) (m : Rows) : list KVEvent :=
  match Spec.number c k now m with
  | Ok n => [mkEvent k PutEvent (Some (encode_i64 n)) (Some (encode_i64 (as_i64 (n + delta))))]
  | Err _ => []
  end.
Definition emitted (c : RequestContext) (op : Op) (now : Z) (m : Rows) : list KVEvent :=
  match op with
  | Put k v | PutWithTtl k v _ => [mkEvent k PutEvent (Spec.value c k now m) (Some v)]
  | Delete k => match Spec.value c k now m with
                | Some v => [mkEvent k DeleteEvent (Some v) None] | None => [] end
  | MultiPut kvs => (λ '(k, v), mkEvent k PutEvent None (Some v)) <$> kvs
  | Cas k e v =>
      if bool_decide (Spec.value c k now m = e) then [mkEvent k PutEvent e (Some v)] else []
  | Increment k delta => emitted_add c k delta now m
  | Decrement k delta => emitted_add c k (as_i64 (- delta)) now m
  | _ => []
  end.
Fixpoint emitted_run (mt : string → string → bool) (ops : list (RequestContext * Op * Z)) (m : Rows)
    : list KVEvent :=
  match ops with
  | [] => []
  | (c, op, now) :: ops => emitted c op now m ++ emitted_run mt ops (Spec.exec mt c op now m).1
  end.
(** What a watcher has after a list of events was sent. *)
Definition observe (es : list KVEvent) (w : Watch) : Watch :=
  mkWatch (pattern w) (is_prefix w) (events w ++ List.filter (λ e, watch_matches w (ev_key e)) es).

Lemma observe_nil (ws : list Watch) : observe [] <$> ws = ws.
Proof.
  rewrite <-(list_fmap_id ws) at 2. apply list_fmap_ext. intros _ [p b es] _. unfold observe. cbn.
  by rewrite app_nil_r.
Qed.

Lemma observe_one e (ws : list Watch) : observe [e] <$> ws = Sql.notify e <$> ws.
Proof.
  apply list_fmap_ext. intros _ [p b es] _. unfold observe, Sql.notify. cbn.
  change (watch_matches {| pattern := p; is_prefix := b; events := es |} (ev_key e))
    with (watch_matches (mkWatch p b []) (ev_key e)).
  destruct (watch_matches (mkWatch p b []) (ev_key e)); [done|]. by rewrite app_nil_r.
Qed.

Lemma observe_app es1 es2 (ws : list Watch) : observe es2 <$> (observe es1 <$> ws) = observe (es1 ++ es2) <$> ws.
Proof.
  rewrite <-list_fmap_compose. apply list_fmap_ext. intros _ [p b es] _. unfold observe, compose. cbn.
  by rewrite List.filter_app, app_assoc.
Qed.

Lemma watches_notify e s : watches (Sql.notify_watchers e s) = observe [e] <$> watches s.
Proof. by rewrite observe_one. Qed.

Lemma watches_puts c kvs now s :
  watches (foldl (λ s '(k, v), Sql.upsert c k v (λ _, None) now s) s kvs) = watches s.
Proof. revert s. induction kvs as [|[k v] kvs IH]; intros s; [done|]. simpl. by rewrite IH. Qed.

Lemma watches_notify_all kvs s :
  watches (foldl (λ s '(k, v), Sql.notify_watchers (mkEvent k PutEvent None (Some v)) s) s kvs)
  = observe ((λ '(k, v), mkEvent k PutEvent None (Some v)) <$> kvs) <$> watches s.
Proof.
  revert s. induction kvs as [|[k v] kvs IH]; intros s; [by rewrite observe_nil|].
  simpl. by rewrite IH, watches_notify, observe_app.
Qed.

Lemma watches_increment c k delta now s : should_skip_namespace_filter c = false →
  watches (Sql.increment c k delta now s).1
  = observe (emitted_add c k delta now (sql_rows s)) <$> watches s.
Proof.
  intros Hc. unfold Sql.increment, Sql.current_number, emitted_add, Spec.number.
  rewrite old_is_value by done.
  destruct (match Spec.value c k now (sql_rows s) with Some _ => _ | None => _ end) as [n|e]; cbn.
  - by rewrite watches_notify.
  - by rewrite observe_nil.
Qed.

Lemma watches_run_op d c op now s : should_skip_namespace_filter c = false →
  watches (run_op (KeyValueStore0 := Sql.store d) c op now s).1
  = observe (emitted c op now (sql_rows s)) <$> watches s.
Proof.
  intros Hc. destruct op as [k|k v|k|k|p|ks|kvs|k v ttl|k ttl|k|k e v|k delta|k delta|p|p];
    cbn [run_op reply_with emitted kv_get kv_put kv_delete kv_list kv_exists kv_multi_get kv_multi_put
         kv_put_with_ttl kv_refresh_ttl kv_get_ttl kv_cas kv_increment kv_decrement kv_clear_prefix
         kv_count_prefix Sql.store fst]; rewrite ?observe_nil; try done.
  - rewrite <-old_is_value by done. unfold Sql.put. cbn. by rewrite watches_notify.
  - rewrite <-old_is_value by done. unfold Sql.delete. cbn. destruct (Sql.old c k now s).
    + by rewrite watches_notify.
    + by rewrite observe_nil.
  - unfold Sql.multi_put. cbn. by rewrite watches_notify_all, watches_puts.
  - rewrite <-old_is_value by done. unfold Sql.put_with_ttl. cbn. by rewrite watches_notify.
  - unfold Sql.refresh_ttl. destruct (table s !! _) as [r|]; [|done]. by destruct (Sql.live now r).
  - unfold Sql.cas, Sql.cas_matches. rewrite old_is_value by done.
    destruct (Spec.value c k now (sql_rows s)) as [cur|], e as [e|]; cbn; rewrite ?observe_nil; try done.
    + destruct (decide (cur = e)) as [->|Hne].
      * rewrite !bool_decide_eq_true_2 by done. cbn. unfold Sql.cas_write. by rewrite watches_notify, ?old_is_value.
      * rewrite !bool_decide_eq_false_2 by congruence. by rewrite observe_nil.
    + unfold Sql.cas_write. by rewrite watches_notify, ?old_is_value.
  - by apply watches_increment.
  - by apply (watches_increment c k (as_i64 (- delta))).
Qed.

(** Over any run of requests of ordinary contexts each watcher receives, in order, exactly the events of
    its key or prefix that the run sends: one for every write, with the value that was there before, none
    for a clearing, a renewal or an expiry. *)
Theorem watchers_receive_writes (d : Dialect) (s : SqlKVStore) ops :
  Forall (λ '(c, _, _), should_skip_namespace_filter c = false) ops →
  watches (run (KeyValueStore0 := Sql.store d) ops s).1
  = observe (emitted_run (Sql.matches_prefix d) ops (sql_rows s)) <$> watches s.
Proof.
  intros Hops. revert s. induction Hops as [|[[c op] now] ops Hc _ IH]; intros s; [by rewrite observe_nil|].
  cbn [run emitted_run]. pose proof (watches_run_op d c op now s Hc) as Hw.
  pose proof (sql_run_op_refines d c op now s Hc) as Hr.
  destruct (run_op c op now s) as [s1 r]. cbn [fst] in Hw. rewrite <-Hr. specialize (IH s1).
  destruct (run ops s1) as [s2 rs]. cbn [fst] in IH |- *. by rewrite IH, Hw, observe_app.
Qed.

(** ** Witnesses *)

Definition kv_ctx : RequestContext := new_without_auth "acme" "prod".
Definition kv_empty : SqlKVStore := mkSqlKV ∅ [mkWatch "cfg:" true []].
Definition kv_ops : list (RequestContext * Op * Z) :=
  [(kv_ctx, Put "cfg:a" [1], 10); (kv_ctx, PutWithTtl "CFG:b" [2] 5, 11); (kv_ctx, ListKeys "cfg:", 12);
   (kv_ctx, Delete "cfg:a", 13); (kv_ctx, Get "CFG:b", 16)].

Lemma kv_ops_ordinary : Forall (λ '(c, _, _), should_skip_namespace_filter c = false) kv_ops.
Proof. repeat constructor. Qed.

Lemma sql_store_refines_map_witness :
  (let '(s', rs) := run (KeyValueStore0 := Sql.store SQLite) kv_ops kv_empty in
   (sql_rows s', rs) = Spec.run (Sql.matches_prefix SQLite) kv_ops (sql_rows kv_empty)) ∧
  (run (KeyValueStore0 := Sql.store SQLite) kv_ops kv_empty).2
  = [Ok RUnit; Ok RUnit; Ok (RKeys {["CFG:b"; "cfg:a"]}); Ok RUnit; Ok (RValue None)].
Proof.
  split; [exact (proj1 (sql_store_refines_map SQLite kv_empty kv_ops kv_ops_ordinary)) | by vm_compute].
Defined.

Lemma pg_cas_grants_twice_witness :
  ∃ o1 o2, Pg.cas_check kv_ctx "lock" None 10 kv_empty = Some o1
    ∧ Pg.cas_check kv_ctx "lock" None 10 kv_empty = Some o2 ∧
    let s1 := Pg.cas_commit kv_ctx "lock" [1] o1 10 kv_empty in
    let s2 := Pg.cas_commit kv_ctx "lock" [2] o2 10 s1 in
    Spec.value kv_ctx "lock" 10 (sql_rows s1) = Some [1]
    ∧ Spec.value kv_ctx "lock" 10 (sql_rows s2) = Some [2].
Proof.
  exact (proj2 (pg_cas_grants_twice kv_ctx "lock" [1] [2] 10 kv_empty eq_refl eq_refl)).
Defined.

Definition kv_counter : SqlKVStore :=
  mkSqlKV {[ ("acme", "prod", "n") := mkRow (encode_i64 41) (Some 20) 0 0 ]} [].

Lemma expired_counter_is_lost_witness :
  let '(s1, r1) := Sql.increment kv_ctx "n" 1 30 kv_counter in
  r1 = Ok 1 ∧ Sql.get kv_ctx "n" 31 s1 = Ok None ∧ (Sql.increment kv_ctx "n" 7 31 s1).2 = Ok 7.
Proof.
  apply (expired_counter_is_lost kv_ctx "n" (encode_i64 41) 20 1 7 30 31 kv_counter);
    [reflexivity | reflexivity | lia].
Defined.

Lemma watchers_receive_writes_witness :
  watches (run (KeyValueStore0 := Sql.store SQLite) kv_ops kv_empty).1
  = [mkWatch "cfg:" true [mkEvent "cfg:a" PutEvent None (Some [1]); mkEvent "cfg:a" DeleteEvent (Some [1]) None]].
Proof. rewrite (watchers_receive_writes SQLite kv_empty kv_ops kv_ops_ordinary). by vm_compute. Defined.

(** ** Prefixes and contexts *)

(** Clearing [user_] removes the keys that start with [userX] too: the underscore is a wildcard. *)
Example clear_prefix_removes_other_keys :
  (run (KeyValueStore0 := Sql.store SQLite)
    [(kv_ctx, Put "user-a" [1], 10); (kv_ctx, ClearPrefix "user_", 11); (kv_ctx, Get "user-a", 12)] kv_empty).2
  = [Ok RUnit; Ok (RInt 1); Ok (RValue None)].
Proof. by vm_compute. Qed.

(** The key that an administrator without a namespace reads is not the one that it deletes. *)
Example admin_reads_what_it_does_not_delete :
  let adm := mkCtx "acme" "" true false false "" in
  (run (KeyValueStore0 := Sql.store SQLite)
    [(kv_ctx, Put "k" [1], 10); (adm, Get "k", 11); (adm, Delete "k", 12); (adm, Get "k", 13);
     (adm, RefreshTtl "k" 60, 14)] kv_empty).2
  = [Ok RUnit; Ok (RValue (Some [1])); Ok RUnit; Ok (RValue (Some [1])); Err (KeyNotFound "k")].
Proof. by vm_compute. Qed.

(** A watcher with [WATCH_CAPACITY] unread events makes the next write to its keys wait. *)
Example unread_events_block_the_writer :
  let s := (run (KeyValueStore0 := Sql.store SQLite) (repeat (kv_ctx, Put "cfg:a" [1], 10) 100) kv_empty).1 in
  Sql.notify_waits "cfg:a" s = true ∧ Sql.notify_waits "other" s = false.
Proof. by vm_compute. Qed.
