(* ===== verification/Groups.v ===== *)
(** Groups: the registry of process groups (crates/actor/src/process_groups/mod.rs) over the interface of
    [KeyValue].

    A group, its memberships and its messages are entries of the key-value store under composed keys
    ([group_key], [membership_key], [message_key]).  An operation is a computation in a monad of the store
    and an error.  Module [Abs] is the specification: groups as maps from members to memberships; the
    registry refines it over every store with the laws of [KVLaws], for names that the store tells apart.

    Parameters: the protobuf encoding of a group and of a membership ([Codec], with the law that decoding
    reverses encoding), the Debug form of a string, the identifiers of messages.  [now] and [nanos] are
    the clock.  The fields [metadata] and [last_heartbeat], which stay empty, are left out. *)
From Stdlib Require Import Ascii.
From stdpp Require Import pretty.
From S2P Require Import Prelude Text Identity Context KeyValue.

#[local] Arguments String.append : simpl nomatch.

(** ** Data *)

Inductive ProcessGroupError :=
| GroupNotFound (g : string)
| GroupAlreadyExists (g : string)
| ActorNotInGroup (group_name : string) (actor_id : ActorId)
| PgStorageError (m : string)
| PgSerializationError (m : string)
| PermissionDenied (m : string).
Definition from_kv_error (e : KVError) : ProcessGroupError := PgStorageError (KVError_to_string e).

Record ProcessGroup := mkGroup {
  group_name : string;
  g_tenant_id : string;
  g_namespace : string;
  member_ids : list string;
  member_count : Z;
  g_created_at : option (Z * Z)
}.
Record GroupMembership := mkMembership {
  m_group_name : string;
  m_tenant_id : string;
  m_actor_id : string;
  m_node_id : string;
  join_count : Z;
  topics : list string;
  joined_at : option (Z * Z)
}.
Record BroadcastMessage := mkBroadcast {
  b_message_id : string;
  b_group_name : string;
  b_tenant_id : string;
  b_topic : option string;
  b_recipients : list string;
  b_payload : bytes;
  published_at : Z
}.

(** The protobuf encoding of the two messages. *)
Class Codec := {
  encode_group : ProcessGroup → bytes;
  decode_group : bytes → result string ProcessGroup;
  encode_membership : GroupMembership → bytes;
  decode_membership : bytes → result string GroupMembership
}.
Class CodecLaws `{!Codec} : Prop := {
  decode_encode_group g : decode_group (encode_group g) = Ok g;
  decode_encode_membership x : decode_membership (encode_membership x) = Ok x
}.

(** [i32::saturating_sub] *)
Definition i32_sat_sub (x y : Z) : Z := Z.max (- 2 ^ 31) (Z.min (2 ^ 31 - 1) (x - y)).

(** ** Keys *)

Definition group_key (tenant group : string) : string := "tenant:" ++ tenant ++ ":group:" ++ group.
Definition membership_prefix (tenant group : string) : string :=
  "tenant:" ++ tenant ++ ":group:" ++ group ++ ":member:".
Definition membership_key (tenant group : string) (a : ActorId) : string :=
  "tenant:" ++ tenant ++ ":group:" ++ group ++ ":member:" ++ canonical a.
Definition message_prefix (tenant group : string) : string :=
  "tenant:" ++ tenant ++ ":group:" ++ group ++ ":message:".
Definition message_key (tenant group message_id : string) : string :=
  "tenant:" ++ tenant ++ ":group:" ++ group ++ ":message:" ++ message_id.

Record ProcessGroupRegistry {S : Type} := mkRegistry { storage : S; node_id : string }.
Arguments ProcessGroupRegistry : clear implicits.
Arguments mkRegistry {S} storage node_id.

(** ** Operations *)

Definition M (S A : Type) : Type := S → S * result ProcessGroupError A.
#[local] Instance M_ret {S} : MRet (M S) := λ A a s, (s, Ok a).
#[local] Instance M_bind {S} : MBind (M S) := λ A B k m s,
  match m s with (s, Ok a) => k a s | (s, Err e) => (s, Err e) end.
Definition fail {S A} (e : ProcessGroupError) : M S A := λ s, (s, Err e).
(** [map_err(..)?] and [ok_or_else(..)?] on a pure result. *)
Definition lift {S A} (r : result ProcessGroupError A) : M S A := λ s, (s, r).
Definition require {S A} (e : ProcessGroupError) (o : option A) : M S A :=
  match o with Some a => mret a | None => fail e end.
Fixpoint for_each {S A} (f : A → M S ()) (l : list A) : M S () :=
  match l with [] => mret tt | a :: l => _ ← f a; for_each f l end.

Section registry.
Context {S : Type} `{!KeyValueStore S} `{!Codec} (debug_str : string → string).
Context (now nanos : Z).
Implicit Types (ctx : RequestContext).

Definition map_err {A} (r : kv_result A) : result ProcessGroupError A :=
  match r with Ok a => Ok a | Err e => Err (from_kv_error e) end.
Definition st_get ctx (k : string) : M S (option bytes) := λ s, (s, map_err (kv_get ctx k now s)).
Definition st_list ctx (p : string) : M S (list string) := λ s, (s, map_err (kv_list ctx p now s)).
Definition st_put ctx (k : string) (v : bytes) : M S () := λ s,
  let '(s, r) := kv_put ctx k v now s in (s, map_err r).
Definition st_delete ctx (k : string) : M S () := λ s,
  let '(s, r) := kv_delete ctx k now s in (s, map_err r).
(** [let _ = self.storage.delete(..).await] *)
Definition delete_quietly ctx (k : string) : M S () := λ s, ((kv_delete ctx k now s).1, Ok tt).

Definition timestamp : option (Z * Z) := Some (now, nanos).

Definition create_group ctx (name : string) : M S ProcessGroup :=
  let key := group_key (tenant_id ctx) name in
  existing ← st_get ctx key;
  match existing with
  | Some _ => fail (GroupAlreadyExists name)
  | None =>
      let group := mkGroup name (tenant_id ctx) (namespace ctx) [] 0 timestamp in
      _ ← st_put ctx key (encode_group group); mret group
  end.

(** Never an error: the group is not looked up. *)
Definition get_group_namespace ctx (name : string) : result ProcessGroupError string :=
  if should_skip_namespace_filter ctx then Ok "" else Ok (namespace ctx).

(** The memberships stored under some keys; entries that are gone or do not decode are skipped. *)
Fixpoint read_memberships ctx (keys : list string) : M S (list GroupMembership) :=
  match keys with
  | [] => mret []
  | k :: keys =>
      o ← st_get ctx k;
      ms ← read_memberships ctx keys;
      mret (match o with
            | Some bs => match decode_membership bs with Ok m => m :: ms | Err _ => ms end
            | None => ms end)
  end.
(** The actors of the memberships whose identifier reads back. *)
Definition actors (ms : list GroupMembership) : list ActorId :=
  omap (λ m, match from_canonical (m_actor_id m) with Ok a => Some a | Err _ => None end) ms.

Definition update_member_count_with_namespace (tenant name ns : string) : M S () :=
  let ctx := new_without_auth tenant ns in
  let key := group_key tenant name in
  o ← st_get ctx key;
  bs ← require (GroupNotFound name) o;
  group ← lift (match decode_group bs with Ok g => Ok g | Err e => Err (PgSerializationError e) end);
  keys ← st_list ctx (membership_prefix tenant name);
  ms ← read_memberships ctx keys;
  st_put ctx key (encode_group (mkGroup (group_name group) (g_tenant_id group) (g_namespace group)
    (m_actor_id <$> ms) (as_u32 (Z.of_nat (length keys))) (g_created_at group))).

(** The union through a [HashSet]. *)
Definition merge_topics (new old : list string) : list string :=
  match new with
  | [] => old
  | _ => elements (list_to_set (old ++ new) : gset string)
  end.
Definition set_join (m : GroupMembership) (n : Z) (ts : list string) : GroupMembership :=
  mkMembership (m_group_name m) (m_tenant_id m) (m_actor_id m) (m_node_id m) n ts (joined_at m).

Definition decode_or_fail (bs : bytes) : M S GroupMembership :=
  lift (match decode_membership bs with Ok m => Ok m | Err e => Err (PgSerializationError e) end).
Definition existing_or_new (node : string) ctx (name : string) (a : ActorId) (ts : list string)
    : M S GroupMembership :=
  existing ← st_get ctx (membership_key (tenant_id ctx) name a);
  match existing with
  | Some bs => decode_or_fail bs
  | None => mret (mkMembership name (tenant_id ctx) (canonical a) node 0 ts timestamp)
  end.

Definition join_group (node : string) ctx (name : string) (a : ActorId) (ts : list string) : M S () :=
  o ← st_get ctx (group_key (tenant_id ctx) name);
  _ ← require (GroupNotFound name) o;
  m ← existing_or_new node ctx name a ts;
  let m := set_join m (as_i32 (join_count m + 1)) (merge_topics ts (topics m)) in
  _ ← st_put ctx (membership_key (tenant_id ctx) name a) (encode_membership m);
  if join_count m =? 1
  then update_member_count_with_namespace (tenant_id ctx) name (namespace ctx) else mret tt.

Definition leave_group ctx (name : string) (a : ActorId) : M S () :=
  ns ← lift (get_group_namespace ctx name);
  let ctx := new_without_auth (tenant_id ctx) ns in
  let key := membership_key (tenant_id ctx) name a in
  o ← st_get ctx key;
  bs ← require (ActorNotInGroup name a) o;
  m ← decode_or_fail bs;
  let was_removed := join_count m =? 1 in
  let n := i32_sat_sub (join_count m) 1 in
  _ ← (if n =? 0 then st_delete ctx key else st_put ctx key (encode_membership (set_join m n (topics m))));
  if was_removed then update_member_count_with_namespace (tenant_id ctx) name ns else mret tt.

(** The memberships of a group that exists. *)
Definition memberships ctx (name : string) : M S (list GroupMembership) :=
  ns ← lift (get_group_namespace ctx name);
  let ctx := new_without_auth (tenant_id ctx) ns in
  o ← st_get ctx (group_key (tenant_id ctx) name);
  _ ← require (GroupNotFound name) o;
  keys ← st_list ctx (membership_prefix (tenant_id ctx) name);
  read_memberships ctx keys.

Definition get_members ctx (name : string) : M S (list ActorId) :=
  ms ← memberships ctx name; mret (actors ms).
Definition get_local_members (node : string) ctx (name : string) : M S (list ActorId) :=
  ms ← memberships ctx name;
  mret (actors (List.filter (λ m, String.eqb (m_node_id m) node) ms)).

Definition delete_group ctx (name : string) : M S () := λ s,
  match get_group_namespace ctx name with
  | Err (GroupNotFound _) => (s, Ok tt)
  | Err e => (s, Err e)
  | Ok ns =>
      let ctx := new_without_auth (tenant_id ctx) ns in
      let tenant := tenant_id ctx in
      (_ ← delete_quietly ctx (group_key tenant name);
       keys ← st_list ctx (membership_prefix tenant name);
       _ ← for_each (delete_quietly ctx) keys;
       message_keys ← st_list ctx (message_prefix tenant name);
       for_each (delete_quietly ctx) message_keys) s
  end.

Definition list_groups ctx : M S (list string) :=
  let prefix := ("tenant:" ++ tenant_id ctx ++ ":group:")%string in
  keys ← st_list ctx prefix;
  mret (omap (λ key,
    if String.prefix prefix key
    then let name := str_drop (String.length prefix) key in
         if bool_decide (is_Some (split_once ":member:" name)) then None else Some name
    else None) keys).

(** [format!] with the Debug forms of the topic, the recipients and the payload. *)
Definition debug_option (o : option string) : string :=
  match o with None => "None" | Some s => "Some(" ++ debug_str s ++ ")" end.
Fixpoint join_with (sep : string) (l : list string) : string :=
  match l with [] => "" | [s] => s | s :: l => s ++ sep ++ join_with sep l end.
Definition debug_list (l : list string) : string := "[" ++ join_with ", " l ++ "]".
Definition into_bytes (s : string) : bytes :=
  (λ c, Z.of_nat (nat_of_ascii c)) <$> String.list_ascii_of_string s.
Definition render (b : BroadcastMessage) : bytes :=
  into_bytes (b_message_id b ++ "|" ++ b_group_name b ++ "|" ++ b_tenant_id b ++ "|"
    ++ debug_option (b_topic b) ++ "|" ++ debug_list (debug_str <$> b_recipients b) ++ "|"
    ++ debug_list (pretty <$> b_payload b) ++ "|" ++ pretty (published_at b)).

Definition should_receive (topic : option string) (m : GroupMembership) : bool :=
  match topic with
  | Some t => match topics m with [] => true | ts => bool_decide (t ∈ ts) end
  | None => true
  end.
Definition publish_to_group (message_id : string) ctx (name : string) (topic : option string)
    (message : bytes) : M S (list ActorId) :=
  ns ← lift (get_group_namespace ctx name);
  let ctx := new_without_auth (tenant_id ctx) ns in
  ms ← memberships ctx name;
  let recipients := actors (List.filter (should_receive topic) ms) in
  let msg := mkBroadcast message_id name (tenant_id ctx) topic (canonical <$> recipients) message now in
  _ ← st_put ctx (message_key (tenant_id ctx) name message_id) (render msg);
  mret recipients.

End registry.

(** ** The specification *)

(** Operations as data, and their answers: a list is answered as the set of its elements with its length. *)
Inductive GroupOp :=
| Create (g : string)
| Join (g : string) (a : ActorId) (ts : list string)
| Leave (g : string) (a : ActorId)
| Members (g : string)
| LocalMembers (g : string)
| DeleteGroup (g : string)
| ListGroups
| Publish (message_id : string) (g : string) (topic : option string) (message : bytes).
Inductive GroupReply := Done | Names (ns : gset string) (length : nat).

Definition names_of (l : list string) : GroupReply := Names (list_to_set l) (length l).
Definition answer {S A} (f : A → GroupReply) (m : M S A) : M S GroupReply := a ← m; mret (f a).

Definition run_group_op {S} `{!KeyValueStore S} `{!Codec} (debug_str : string → string)
    (node : string) (ctx : RequestContext) (op : GroupOp) (now nanos : Z) : M S GroupReply :=
  match op with
  | Create g => answer (λ _, Done) (create_group now nanos ctx g)
  | Join g a ts => answer (λ _, Done) (join_group now nanos node ctx g a ts)
  | Leave g a => answer (λ _, Done) (leave_group now ctx g a)
  | Members g => answer (λ l, names_of (canonical <$> l)) (get_members now ctx g)
  | LocalMembers g => answer (λ l, names_of (canonical <$> l)) (get_local_members now node ctx g)
  | DeleteGroup g => answer (λ _, Done) (delete_group now ctx g)
  | ListGroups => answer names_of (list_groups now ctx)
  | Publish id g topic msg =>
      answer (λ l, names_of (canonical <$> l)) (publish_to_group debug_str now id ctx g topic msg)
  end.
Fixpoint run_groups {S} `{!KeyValueStore S} `{!Codec} (debug_str : string → string)
    (node : string) (ctx : RequestContext) (ops : list (GroupOp * Z * Z)) (s : S)
    : S * list (result ProcessGroupError GroupReply) :=
  match ops with
  | [] => (s, [])
  | (op, now, nanos) :: ops =>
      let '(s, r) := run_group_op debug_str node ctx op now nanos s in
      let '(s, rs) := run_groups debug_str node ctx ops s in (s, r :: rs)
  end.

Module Abs.

Record Group := mkAbs {
  created : option (Z * Z);
  members : gmap string GroupMembership;
  messages : gset string
}.
Abbreviation State := (gmap string Group).

Definition set_members (G : Group) (ms : gmap string GroupMembership) : Group :=
  mkAbs (created G) ms (messages G).
Definition with_message (G : Group) (id : string) : Group :=
  mkAbs (created G) (members G) ({[id]} ∪ messages G).
(** The members that satisfy [p]. *)
Definition select (p : GroupMembership → bool) (G : Group) : gset string :=
  dom (filter (λ '(_, m), p m = true) (members G)).
Definition names (ks : gset string) : GroupReply := Names ks (size ks).
(** The keys under the prefix of the groups that do not contain the word of a membership. *)
Definition listed (A : State) : gset string :=
  dom A ∪ list_to_set (G ← map_to_list A;
    (λ id, (G.1 ++ ":message:" ++ id)%string) <$> elements (messages G.2)).

Section exec.
Context (node tenant : string).

Definition join (now nanos : Z) (g : string) (a : ActorId) (ts : list string) (A : State)
    : State * result ProcessGroupError GroupReply :=
  match A !! g with
  | None => (A, Err (GroupNotFound g))
  | Some G =>
      let m := default (mkMembership g tenant (canonical a) node 0 ts (Some (now, nanos)))
                 (members G !! canonical a) in
      let m := set_join m (as_i32 (join_count m + 1)) (merge_topics ts (topics m)) in
      (<[g := set_members G (<[canonical a := m]> (members G))]> A, Ok Done)
  end.
Definition leave (g : string) (a : ActorId) (A : State) : State * result ProcessGroupError GroupReply :=
  match A !! g ≫= λ G, pair G <$> members G !! canonical a with
  | None => (A, Err (ActorNotInGroup g a))
  | Some (G, m) =>
      let n := i32_sat_sub (join_count m) 1 in
      let ms := if n =? 0 then delete (canonical a) (members G)
                else <[canonical a := set_join m n (topics m)]> (members G) in
      (<[g := set_members G ms]> A, Ok Done)
  end.
Definition query (p : GroupMembership → bool) (g : string) (A : State)
    : result ProcessGroupError GroupReply :=
  match A !! g with
  | None => Err (GroupNotFound g)
  | Some G => Ok (names (select p G))
  end.
Definition exec (op : GroupOp) (now nanos : Z) (A : State)
    : State * result ProcessGroupError GroupReply :=
  match op with
  | Create g =>
      match A !! g with
      | Some _ => (A, Err (GroupAlreadyExists g))
      | None => (<[g := mkAbs (Some (now, nanos)) ∅ ∅]> A, Ok Done)
      end
  | Join g a ts => join now nanos g a ts A
  | Leave g a => leave g a A
  | Members g => (A, query (λ _, true) g A)
  | LocalMembers g => (A, query (λ m, String.eqb (m_node_id m) node) g A)
  | DeleteGroup g => (delete g A, Ok Done)
  | ListGroups => (A, Ok (names (listed A)))
  | Publish id g topic _ =>
      (match A !! g with Some G => <[g := with_message G id]> A | None => A end,
       query (should_receive topic) g A)
  end.
Fixpoint run (ops : list (GroupOp * Z * Z)) (A : State)
    : State * list (result ProcessGroupError GroupReply) :=
  match ops with
  | [] => (A, [])
  | (op, now, nanos) :: ops =>
      let '(A, r) := exec op now nanos A in let '(A, rs) := run ops A in (A, r :: rs)
  end.
End exec.
End Abs.

(** ** Lemmas: keys *)

Inductive Kind := MemberKind | MessageKind.
Inductive GKey := KGroup (g : string) | KIn (k : Kind) (g a : string).
Definition word (k : Kind) : string :=
  match k with MemberKind => "member:" | MessageKind => "message:" end.
Definition name_of (κ : GKey) : string := match κ with KGroup g => g | KIn _ g _ => g end.
Definition base_key (tenant : string) : string := "tenant:" ++ tenant ++ ":group:".
Definition tail (κ : GKey) : string :=
  match κ with KGroup g => g | KIn k g a => g ++ String ":" (word k ++ a) end.
Definition key_str (tenant : string) (κ : GKey) : string := base_key tenant ++ tail κ.

#[local] Arguments st_get : simpl never.
#[local] Arguments st_put : simpl never.
#[local] Arguments st_list : simpl never.
#[local] Arguments group_key : simpl never.
#[local] Arguments membership_prefix : simpl never.
#[local] Arguments membership_key : simpl never.
#[local] Arguments message_prefix : simpl never.
#[local] Arguments message_key : simpl never.
#[local] Arguments base_key : simpl never.
#[local] Arguments key_str : simpl never.
#[local] Arguments Spec.key : simpl never.

(** The characters of the documented names of groups. *)
Definition name_char (c : ascii) : bool :=
  in_range 97 122 c || in_range 48 57 c || Ascii.eqb c "-" || Ascii.eqb c "_".
Definition colon_free (s : string) : bool := str_all (λ c, negb (bool_decide (c = ":"%char))) s.

#[export] Instance Kind_eq_dec : EqDecision Kind.
Proof. solve_decision. Defined.
#[export] Instance GKey_eq_dec : EqDecision GKey.
Proof. solve_decision. Defined.

Lemma base_key_app t s : base_key t +:+ s = "tenant:" +:+ t +:+ ":group:" +:+ s.
Proof. unfold base_key. by rewrite !str_app_assoc. Qed.

Lemma group_key_str t g : group_key t g = key_str t (KGroup g).
Proof. unfold key_str. by rewrite base_key_app. Qed.
Lemma membership_key_str t g a : membership_key t g a = key_str t (KIn MemberKind g (canonical a)).
Proof. unfold key_str. by rewrite base_key_app. Qed.
Lemma message_key_str t g id : message_key t g id = key_str t (KIn MessageKind g id).
Proof. unfold key_str. by rewrite base_key_app. Qed.
Lemma membership_prefix_str t g :
  membership_prefix t g = base_key t +:+ g +:+ String ":" (word MemberKind).
Proof. by rewrite base_key_app. Qed.
Lemma message_prefix_str t g :
  message_prefix t g = base_key t +:+ g +:+ String ":" (word MessageKind).
Proof. by rewrite base_key_app. Qed.

Lemma str_app_inj p a b : p +:+ a = p +:+ b → a = b.
Proof. induction p as [|c p IH]; simpl; [done|]. intros [= H]. by apply IH. Qed.

Lemma name_char_colon_free g : str_all name_char g = true → colon_free g = true.
Proof.
  apply str_all_impl. intros c. destruct (bool_decide (c = ":"%char)) eqn:E; [|done].
  by apply bool_decide_eq_true in E as ->.
Qed.

Lemma split_colon g r : colon_free g = true → split_once ":" (g +:+ String ":" r) = Some (g, r).
Proof. intros Hg. exact (split_once_app ":" "" g r Hg). Qed.

Lemma tail_inj κ κ' : colon_free (name_of κ) = true → colon_free (name_of κ') = true →
  tail κ = tail κ' → κ = κ'.
Proof.
  destruct κ as [g|k g a], κ' as [g'|k' g' a']; cbn [name_of tail]; intros Hg Hg' H.
  - by subst.
  - apply (f_equal (split_once ":")) in H. rewrite split_colon in H by done.
    by rewrite (split_once_None ":" "" g Hg) in H.
  - apply (f_equal (split_once ":")) in H. rewrite split_colon in H by done.
    by rewrite (split_once_None ":" "" g' Hg') in H.
  - apply (f_equal (split_once ":")) in H. rewrite !split_colon in H by done.
    injection H as -> H. destruct k, k'; try discriminate H; cbn in H; by simplify_eq.
Qed.

Lemma key_str_inj t κ κ' : colon_free (name_of κ) = true → colon_free (name_of κ') = true →
  key_str t κ = key_str t κ' → κ = κ'.
Proof. intros ?? H%str_app_inj. by apply tail_inj. Qed.

Lemma lower_name c : name_char c = true → ascii_lower c = c.
Proof. destruct c as [[] [] [] [] [] [] [] []]; by vm_compute. Qed.

Lemma name_not_colon c : name_char c = true → c ≠ ":"%char.
Proof. by intros Hc ->. Qed.

(** ** Lemmas: which keys a prefix lists *)

Section listing.
Context {S : Type} `{KVLaws S}.

(** Equality of characters under the collation of the store. *)
Definition same (a b : ascii) : bool := Ascii.eqb (collate a) (collate b).

Lemma same_refl a : same a a = true.
Proof. apply Ascii.eqb_refl. Qed.

Lemma same_lower a b : same a b = true → ascii_lower a = ascii_lower b.
Proof. intros Hab%Ascii.eqb_eq. by apply collate_case. Qed.

Lemma same_names a b : name_char a = true → name_char b = true → same a b = true → a = b.
Proof. intros Ha Hb Hab%same_lower. by rewrite !lower_name in Hab. Qed.

Lemma same_colon_l a : name_char a = true → same ":" a = false.
Proof.
  intros Ha. destruct (same ":" a) eqn:E; [|done]. apply same_lower in E.
  rewrite (lower_name a) in E by done. by subst a.
Qed.

Lemma same_colon_r a : name_char a = true → same a ":" = false.
Proof.
  intros Ha. destruct (same a ":") eqn:E; [|done]. apply same_lower in E.
  rewrite (lower_name a) in E by done. by subst a.
Qed.

Lemma prefix_by_app p q r : prefix_by same (p +:+ q) (p +:+ r) = prefix_by same q r.
Proof. induction p as [|c p IH]; simpl; [done|]. by rewrite same_refl. Qed.

Lemma prefix_by_self p r : prefix_by same p (p +:+ r) = true.
Proof. induction p as [|c p IH]; simpl; [done|]. by rewrite same_refl. Qed.

Lemma prefix_by_weaken p q k : prefix_by same (p +:+ q) k = true → prefix_by same p k = true.
Proof.
  revert k. induction p as [|c p IH]; intros k; [done|]. destruct k as [|x k]; [done|]. simpl.
  intros [-> Hk]%andb_prop. by apply IH.
Qed.

Lemma prefix_by_name g g' x y : str_all name_char g = true → str_all name_char g' = true →
  prefix_by same (g +:+ String ":" x) (g' +:+ String ":" y) = true →
  g = g' ∧ prefix_by same x y = true.
Proof.
  revert g'. induction g as [|c g IH]; intros [|c' g'] Hg Hg' Hp; simpl in *; bool_to_Prop.
  - done.
  - match goal with H : name_char c' = true |- _ => apply same_colon_l in H end. congruence.
  - match goal with H : name_char c = true |- _ => apply same_colon_r in H end. congruence.
  - destruct (IH g') as [-> ?]; [done..|]. split; [|done]. f_equal. by apply same_names.
Qed.

Lemma prefix_by_group g g' x : str_all name_char g = true → str_all name_char g' = true →
  prefix_by same (g +:+ String ":" x) g' = false.
Proof.
  revert g'. induction g as [|c g IH]; intros [|c' g'] Hg Hg'; simpl in *; bool_to_Prop; try done.
  - by rewrite same_colon_l.
  - rewrite IH by done. by rewrite andb_false_r.
Qed.

Lemma prefix_by_word k k' a : prefix_by same (word k) (word k' +:+ a) = true → k = k'.
Proof.
  destruct k, k'; [done | | | done]; simpl; intros Hp; bool_to_Prop;
    match goal with H : same _ _ = true |- _ => apply same_lower in H; discriminate H end.
Qed.

Lemma prefix_by_tail k g κ : str_all name_char g = true → str_all name_char (name_of κ) = true →
  prefix_by same (g +:+ String ":" (word k)) (tail κ) = true → ∃ a, κ = KIn k g a.
Proof.
  destruct κ as [g'|k' g' a]; cbn [name_of tail]; intros Hg Hg' Hp.
  - by rewrite prefix_by_group in Hp.
  - apply prefix_by_name in Hp as [-> Hp]; [|done..]. apply prefix_by_word in Hp as ->. by exists a.
Qed.
End listing.

Lemma list_of_set_map (f : string → string) `{!Inj (=) (=) f} (ks : list string) (D : gset string) :
  NoDup ks → list_to_set ks = (set_map f D : gset string) → ∃ l, ks = f <$> l ∧ l ≡ₚ elements D.
Proof.
  intros Hnd Hset.
  assert (∃ l, ks = f <$> l) as [l ->].
  { assert (∀ k, k ∈ ks → ∃ a, k = f a) as Hk.
    { intros k Hk. apply (elem_of_list_to_set (C := gset string)) in Hk. rewrite Hset in Hk.
      apply elem_of_map in Hk as (a & -> & _). by exists a. }
    clear Hnd Hset. induction ks as [|k ks IH]; [by exists []|].
    destruct (Hk k) as [a ->]; [by left|]. destruct IH as [l ->]; [intros k Hin; apply Hk; by right|].
    by exists (a :: l). }
  exists l. split; [done|]. apply NoDup_Permutation.
  - by eapply NoDup_fmap_1.
  - apply NoDup_elements.
  - intros a. rewrite elem_of_elements. split; intros Ha.
    + assert (f a ∈ (set_map f D : gset string)) as (b & Hb%(inj f) & ?)%elem_of_map; [|by subst].
      rewrite <-Hset. apply elem_of_list_to_set, list_elem_of_fmap. by exists a.
    + assert (f a ∈ (list_to_set (f <$> l) : gset string)) as Hf by (rewrite Hset; by apply elem_of_map_2).
      apply elem_of_list_to_set, list_elem_of_fmap in Hf as (b & Hb%(inj f) & ?). by subst.
Qed.

(** ** Representation *)

Section refinement.
Context {S : Type} `{KVLaws S} `{!Codec} `{!CodecLaws}.
Context (debug_str : string → string) (node tenant ns : string).
Context (Hplain : str_all plain_char tenant = true).
Implicit Types (m : Rows) (A : Abs.State) (G : Abs.Group) (s : S).

Abbreviation c0 := (new_without_auth tenant ns).
Abbreviation K κ := (Spec.key c0 (key_str tenant κ)).

(** Names of groups that the store tells apart. *)
Definition usable (g : string) : bool := str_all name_char g && str_all plain_char g.

Definition described (grp : ProcessGroup) (g : string) G : Prop :=
  group_name grp = g ∧ g_tenant_id grp = tenant ∧ g_namespace grp = ns ∧ g_created_at grp = Abs.created G.
Definition counted (grp : ProcessGroup) G : Prop :=
  member_ids grp ≡ₚ elements (dom (Abs.members G))
  ∧ member_count grp = as_u32 (Z.of_nat (size (Abs.members G))).
Definition shaped m : Prop :=
  ∀ k, matches (base_key tenant) k = true → is_Some (m !! Spec.key c0 k) →
    ∃ κ, usable (name_of κ) = true ∧ k = key_str tenant κ.

(** The entries of the store under the keys of the tenant's groups are those of [A]; the cached list of
    members of a group may be [stale]. *)
Record Rep (stale : string → bool) m A : Prop := {
  rep_usable g G : A !! g = Some G → usable g = true;
  rep_readable g G a x : A !! g = Some G → Abs.members G !! a = Some x →
    m_actor_id x = a ∧ ∃ i, from_canonical a = Ok i ∧ canonical i = a;
  rep_ids g G id : A !! g = Some G → id ∈ Abs.messages G → colon_free id = true;
  rep_group g : usable g = true →
    match A !! g with
    | None => m !! K (KGroup g) = None
    | Some G => ∃ grp, m !! K (KGroup g) = Some (encode_group grp, None) ∧ described grp g G
                ∧ (stale g = false → counted grp G)
    end;
  rep_member g a : usable g = true →
    m !! K (KIn MemberKind g a)
    = (λ x, (encode_membership x, None)) <$> (A !! g ≫= λ G, Abs.members G !! a);
  rep_message g id : usable g = true →
    if decide (id ∈ from_option Abs.messages ∅ (A !! g))
    then ∃ v, m !! K (KIn MessageKind g id) = Some (v, None)
    else m !! K (KIn MessageKind g id) = None;
  rep_shape : shaped m
}.
Abbreviation fresh := (λ _ : string, false).

Lemma usable_name g : usable g = true → str_all name_char g = true.
Proof. by intros [??]%andb_prop. Qed.
Lemma usable_plain g : usable g = true → str_all plain_char g = true.
Proof. by intros [??]%andb_prop. Qed.
Lemma usable_colon_free g : usable g = true → colon_free g = true.
Proof. intros Hg%usable_name. by apply name_char_colon_free. Qed.
#[local] Hint Resolve usable_name usable_plain usable_colon_free : core.

Lemma K_inj κ κ' : usable (name_of κ) = true → usable (name_of κ') = true → K κ = K κ' → κ = κ'.
Proof.
  intros ?? Hk. apply (f_equal snd) in Hk. apply (key_str_inj tenant); [auto..|exact Hk].
Qed.

Lemma K_ne κ κ' : usable (name_of κ) = true → usable (name_of κ') = true → κ ≠ κ' → K κ ≠ K κ'.
Proof. intros ?? Hne ?%K_inj; auto. Qed.

Lemma plain_word c (t : string) : is_ascii_alphanumeric c || Ascii.eqb c ":" = true →
  str_all plain_char t = true → str_all plain_char (String c t) = true.
Proof. intros Hc Ht. cbn. by rewrite (plain_alphanumeric c Hc), Ht. Qed.

Lemma plain_base t : str_all plain_char t = true → str_all plain_char (base_key tenant +:+ t) = true.
Proof.
  intros Hs. rewrite base_key_app. do 7 (apply plain_word; [done|]). rewrite str_all_app, Hplain.
  by do 7 (apply plain_word; [done|]).
Qed.

Lemma plain_prefix g k : usable g = true →
  str_all plain_char (base_key tenant +:+ g +:+ String ":" (word k)) = true.
Proof.
  intros Hg. apply plain_base. rewrite str_all_app, (usable_plain g) by done.
  destruct k; by repeat (apply plain_word; [done|]).
Qed.

Lemma plain_base_key : str_all plain_char (base_key tenant) = true.
Proof.
  pose proof (plain_base "" eq_refl) as Hb. rewrite str_all_app in Hb. by apply andb_prop in Hb as [? _].
Qed.

Lemma matches_base κ : matches (base_key tenant) (key_str tenant κ) = true.
Proof. rewrite matches_plain by apply plain_base_key. apply prefix_by_self. Qed.

(** The keys that a listing for the members or the messages of a group gives. *)
Lemma keys_listed k g (D : gset string) (now : Z) m : usable g = true → shaped m →
  (∀ a, if decide (a ∈ D) then ∃ v, m !! K (KIn k g a) = Some (v, None) else m !! K (KIn k g a) = None) →
  Spec.keys_where c0 (matches (base_key tenant +:+ g +:+ String ":" (word k))) false now m
  = set_map (λ a, key_str tenant (KIn k g a)) D.
Proof.
  intros Hg Hshape HD. apply set_eq. intros key. rewrite elem_of_keys_where, elem_of_map. split.
  - intros (Hm & v & e & Hrow & _). rewrite matches_plain in Hm by (by apply plain_prefix).
    destruct (Hshape key) as (κ & Hκ & ->).
    + rewrite matches_plain by apply plain_base_key. by eapply prefix_by_weaken.
    + eauto.
    + unfold key_str in Hm. fold same in Hm. rewrite prefix_by_app in Hm.
      destruct (prefix_by_tail k g κ) as [a ->]; [auto..|done|]. exists a. split; [done|].
      specialize (HD a). case_decide; [done|]. congruence.
  - intros (a & -> & Ha). specialize (HD a). rewrite decide_True in HD by done. destruct HD as [v Hv].
    split; [|by exists v, None].
    rewrite matches_plain by (by apply plain_prefix). unfold key_str. fold same. rewrite prefix_by_app.
    cbn [tail]. rewrite prefix_by_app. cbn. rewrite same_refl. apply prefix_by_self.
Qed.

(** *** How the representation changes with the store *)

Lemma shaped_insert κ v m : usable (name_of κ) = true → shaped m → shaped (<[K κ := v]> m).
Proof.
  intros Hκ Hm k Hk. destruct (decide (k = key_str tenant κ)) as [->|Hne]; [by exists κ|].
  rewrite lookup_insert_ne; [by apply Hm|]. intros Heq%(f_equal snd). by cbn in Heq.
Qed.

Lemma shaped_delete i m : shaped m → shaped (delete i m).
Proof. intros Hm k Hk [v [_ Hv]%lookup_delete_Some]. apply Hm; [done|]. by eexists. Qed.

#[local] Ltac at_other_key :=
  repeat match goal with
  | |- context [<[Spec.key c0 (key_str tenant ?κ) := ?v]> ?m !! Spec.key c0 (key_str tenant ?κ')] =>
      rewrite (lookup_insert_ne m (K κ) (K κ') v) by (apply K_ne; [auto|auto|congruence])
  end.
#[local] Ltac at_group g' g :=
  let E := fresh "E" in
  destruct (decide (g' = g)) as [E|E];
  [subst g'; rewrite ?lookup_insert_eq, ?lookup_delete_eq
  |rewrite ?(lookup_insert_ne _ g g' _ (not_eq_sym E)), ?(lookup_delete_ne _ g g' (not_eq_sym E))].
#[local] Hint Resolve shaped_insert shaped_delete rep_shape : core.

Lemma rep_create (now nanos : Z) g m A : Rep fresh m A → usable g = true → A !! g = None →
  Rep fresh (<[K (KGroup g) := (encode_group (mkGroup g tenant ns [] 0 (Some (now, nanos))), None)]> m)
    (<[g := Abs.mkAbs (Some (now, nanos)) ∅ ∅]> A).
Proof.
  intros HR Hg HA. constructor.
  - intros g' G. at_group g' g; [done|]. by apply (rep_usable _ _ _ HR).
  - intros g' G a x. at_group g' g; [by intros [= <-]|]. by apply (rep_readable _ _ _ HR).
  - intros g' G id. at_group g' g; [by intros [= <-]|]. by apply (rep_ids _ _ _ HR).
  - intros g' Hg'. at_group g' g.
    + eexists. split; [done|]. split; [done|]. intros _. split; [|done]. cbn. by rewrite dom_empty_L.
    + at_other_key. by apply (rep_group _ _ _ HR).
  - intros g' a Hg'. at_other_key. rewrite (rep_member _ _ _ HR) by done. at_group g' g; [|done].
    cbn. by rewrite HA, lookup_empty.
  - intros g' id Hg'. at_other_key. pose proof (rep_message _ _ _ HR g' id Hg') as Hm.
    at_group g' g; [|done]. rewrite HA in Hm. exact Hm.
  - eauto.
Qed.

(** The membership of one actor changes; the cached members are stale when the set of members changed. *)
Lemma rep_members (stale : string → bool) g a o G m m' A : Rep fresh m A → A !! g = Some G →
  let ms := partial_alter (λ _, o) a (Abs.members G) in
  (∀ x, o = Some x → m_actor_id x = a ∧ ∃ i, from_canonical a = Ok i ∧ canonical i = a) →
  m' = partial_alter (λ _, (λ x, (encode_membership x, None)) <$> o) (K (KIn MemberKind g a)) m →
  stale g = true ∨ dom ms = dom (Abs.members G) →
  Rep stale m' (<[g := Abs.set_members G ms]> A).
Proof.
  intros HR HA ms Ho -> Hst. pose proof (rep_usable _ _ _ HR g G HA) as Hg.
  assert (∀ κ, usable (name_of κ) = true → κ ≠ KIn MemberKind g a →
          partial_alter (λ _, (λ x, (encode_membership x, None)) <$> o) (K (KIn MemberKind g a)) m !! K κ = m !! K κ) as Hne.
  { intros κ Hκ Hk. apply lookup_partial_alter_ne, K_ne; auto. }
  constructor.
  - intros g' G'. at_group g' g; [done|]. by apply (rep_usable _ _ _ HR).
  - intros g' G' a' x. at_group g' g; [|by apply (rep_readable _ _ _ HR)].
    intros [= <-]. cbn. unfold ms. destruct (decide (a' = a)) as [->|Ha].
    + rewrite lookup_partial_alter_eq. apply Ho.
    + rewrite lookup_partial_alter_ne by done. by apply (rep_readable _ _ _ HR g G).
  - intros g' G' id. at_group g' g; [|by apply (rep_ids _ _ _ HR)].
    intros [= <-]. cbn. by apply (rep_ids _ _ _ HR g G).
  - intros g' Hg'. rewrite Hne by done. pose proof (rep_group _ _ _ HR g' Hg') as Hgrp.
    at_group g' g.
    + rewrite HA in Hgrp. destruct Hgrp as (grp & Hrow & Hd & Hc). exists grp. split; [done|].
      split; [exact Hd|]. intros Hs. destruct Hst as [Hst|Hst]; [congruence|].
      destruct (Hc eq_refl) as [_ Hsz]. unfold counted. cbn [Abs.members Abs.set_members].
      split; [rewrite Hst; apply (Hc eq_refl)|]. rewrite Hsz. by rewrite <-!size_dom, Hst.
    + destruct (A !! g') as [G'|]; [|done]. destruct Hgrp as (grp & ? & ? & ?). exists grp. auto.
  - intros g' a' Hg'. destruct (decide (KIn MemberKind g' a' = KIn MemberKind g a)) as [Hk|Hk].
    + injection Hk as -> ->. rewrite lookup_partial_alter_eq, lookup_insert_eq. cbn. unfold ms.
      by rewrite lookup_partial_alter_eq.
    + rewrite Hne by done. rewrite (rep_member _ _ _ HR) by done. at_group g' g; [|done].
      rewrite HA. cbn. unfold ms. by rewrite lookup_partial_alter_ne by congruence.
  - intros g' id Hg'. rewrite Hne by done. pose proof (rep_message _ _ _ HR g' id Hg') as Hm.
    at_group g' g; [|done]. by rewrite HA in Hm.
  - pose proof (rep_shape _ _ _ HR) as Hsh. destruct o as [x|].
    + exact (shaped_insert (KIn MemberKind g a) (encode_membership x, None) m Hg Hsh).
    + exact (shaped_delete (K (KIn MemberKind g a)) m Hsh).
Qed.

Lemma rep_recount g G grp m A : Rep (String.eqb g) m A → A !! g = Some G →
  described grp g G → counted grp G → Rep fresh (<[K (KGroup g) := (encode_group grp, None)]> m) A.
Proof.
  intros HR HA Hd Hc. pose proof (rep_usable _ _ _ HR g G HA) as Hg. constructor.
  - apply (rep_usable _ _ _ HR).
  - apply (rep_readable _ _ _ HR).
  - apply (rep_ids _ _ _ HR).
  - intros g' Hg'. destruct (decide (g' = g)) as [->|Hne].
    + rewrite HA. exists grp. by rewrite lookup_insert_eq.
    + at_other_key. pose proof (rep_group _ _ _ HR g' Hg') as Hgrp. destruct (A !! g') as [G'|]; [|done].
      destruct Hgrp as (grp' & ? & ? & Hcnt). exists grp'. split; [done|]. split; [done|]. intros _.
      apply Hcnt. apply String.eqb_neq. congruence.
  - intros g' a Hg'. at_other_key. by apply (rep_member _ _ _ HR).
  - intros g' id Hg'. at_other_key. by apply (rep_message _ _ _ HR).
  - pose proof (rep_shape _ _ _ HR). by apply shaped_insert.
Qed.

Lemma rep_published g id v G m A : Rep fresh m A → A !! g = Some G → colon_free id = true →
  Rep fresh (<[K (KIn MessageKind g id) := (v, None)]> m) (<[g := Abs.with_message G id]> A).
Proof.
  intros HR HA Hid. pose proof (rep_usable _ _ _ HR g G HA) as Hg. constructor.
  - intros g' G'. at_group g' g; [done|]. by apply (rep_usable _ _ _ HR).
  - intros g' G' a x. at_group g' g; [|by apply (rep_readable _ _ _ HR)].
    intros [= <-]. by apply (rep_readable _ _ _ HR g G).
  - intros g' G' id'. at_group g' g; [|by apply (rep_ids _ _ _ HR)].
    intros [= <-] [->%elem_of_singleton|Hin]%elem_of_union; [done|]. by apply (rep_ids _ _ _ HR g G).
  - intros g' Hg'. at_other_key. pose proof (rep_group _ _ _ HR g' Hg') as Hgrp. at_group g' g; [|done].
    by rewrite HA in Hgrp.
  - intros g' a Hg'. at_other_key. rewrite (rep_member _ _ _ HR) by done. at_group g' g; [|done].
    by rewrite HA.
  - intros g' id' Hg'. pose proof (rep_message _ _ _ HR g' id' Hg') as Hm.
    destruct (decide (KIn MessageKind g' id' = KIn MessageKind g id)) as [Hk|Hk].
    + injection Hk as -> ->. rewrite !lookup_insert_eq. cbn. rewrite decide_True by set_solver. by exists v.
    + at_other_key. at_group g' g; [|done]. rewrite HA in Hm. cbn in *.
      assert (id' ∈ {[id]} ∪ Abs.messages G ↔ id' ∈ Abs.messages G) as Hiff.
      { rewrite elem_of_union, elem_of_singleton. split; [intros [->|]; [congruence|done] | by right]. }
      by rewrite (decide_ext _ _ _ _ Hiff).
  - pose proof (rep_shape _ _ _ HR). by apply shaped_insert.
Qed.

(** Every entry of a group is gone. *)
Lemma rep_deleted g m m' A : Rep fresh m A → usable g = true →
  (∀ κ, usable (name_of κ) = true → m' !! K κ = if decide (name_of κ = g) then None else m !! K κ) →
  shaped m' → Rep fresh m' (delete g A).
Proof.
  intros HR Hg Hm' Hshape. constructor; [..|done].
  - intros g' G'. at_group g' g; [done|]. by apply (rep_usable _ _ _ HR).
  - intros g' G' a x. at_group g' g; [done|]. by apply (rep_readable _ _ _ HR).
  - intros g' G' id. at_group g' g; [done|]. by apply (rep_ids _ _ _ HR).
  - intros g' Hg'. rewrite Hm' by done. cbn [name_of]. at_group g' g; [done|].
    by apply (rep_group _ _ _ HR).
  - intros g' a Hg'. rewrite Hm' by done. cbn [name_of]. at_group g' g; [done|].
    by apply (rep_member _ _ _ HR).
  - intros g' id Hg'. rewrite Hm' by done. cbn [name_of]. at_group g' g.
    + case_decide as Hin; [by apply not_elem_of_empty in Hin | done].
    + by apply (rep_message _ _ _ HR).
Qed.

(** *** The accesses to the store *)

(** A request of the tenant and the namespace. *)
Definition here (c : RequestContext) : Prop :=
  should_skip_namespace_filter c = false ∧ tenant_id c = tenant ∧ namespace c = ns.

Lemma here_c0 : here c0.
Proof. done. Qed.
#[local] Hint Resolve here_c0 : core.

Lemma here_key c k : here c → Spec.key c k = Spec.key c0 k.
Proof. unfold Spec.key. by intros (_ & -> & ->). Qed.

Lemma st_get_spec now c κ s : here c →
  st_get now c (key_str tenant κ) s
  = (s, Ok (match rows s !! K κ with
            | Some (v, e) => if Spec.live_at now e then Some v else None | None => None end)).
Proof.
  intros Hc. unfold st_get. rewrite kv_get_spec by apply Hc. unfold Spec.value, Spec.find. cbn.
  rewrite here_key by done. destruct (rows s !! K κ) as [[v e]|]; [|done]. by destruct (Spec.live_at now e).
Qed.

Lemma st_get_Some now c κ v s : here c → rows s !! K κ = Some (v, None) →
  st_get now c (key_str tenant κ) s = (s, Ok (Some v)).
Proof. intros Hc Hv. by rewrite st_get_spec, Hv. Qed.

Lemma st_get_None now c κ s : here c → rows s !! K κ = None →
  st_get now c (key_str tenant κ) s = (s, Ok None).
Proof. intros Hc Hv. by rewrite st_get_spec, Hv. Qed.

Lemma st_put_spec now c κ v s : here c →
  ∃ s', st_put now c (key_str tenant κ) v s = (s', Ok tt) ∧ rows s' = <[K κ := (v, None)]> (rows s).
Proof.
  intros Hc. destruct (kv_put_spec c (key_str tenant κ) v now s) as (s' & Hs & Hr); [apply Hc|].
  exists s'. unfold st_put. rewrite Hs. split; [done|]. by rewrite Hr, <-(here_key c).
Qed.

Lemma kv_delete_here now c k s : here c →
  ∃ s', kv_delete c k now s = (s', Ok tt) ∧ rows s' = delete (Spec.key c0 k) (rows s).
Proof.
  intros Hc. destruct (kv_delete_spec c k now s) as (s' & Hs & Hr); [apply Hc|].
  exists s'. split; [done|]. by rewrite Hr, here_key.
Qed.

Lemma st_list_spec now c k g (D : gset string) s : here c → usable g = true → shaped (rows s) →
  (∀ a, if decide (a ∈ D) then ∃ v, rows s !! K (KIn k g a) = Some (v, None)
        else rows s !! K (KIn k g a) = None) →
  ∃ l, st_list now c (base_key tenant +:+ g +:+ String ":" (word k)) s
       = (s, Ok ((λ a, key_str tenant (KIn k g a)) <$> l)) ∧ l ≡ₚ elements D.
Proof.
  intros Hc Hg Hsh HD.
  destruct (kv_list_spec c (base_key tenant +:+ g +:+ String ":" (word k)) now s)
    as (ks & Hks & Hnd & Hset); [apply Hc|].
  assert (Inj (=) (=) (λ a, key_str tenant (KIn k g a))) as Hinj.
  { intros a b Hab%key_str_inj; [congruence|apply usable_colon_free..]; done. }
  assert (list_to_set ks = (set_map (λ a, key_str tenant (KIn k g a)) D : gset string)) as Heq.
  { rewrite Hset, <-(keys_listed k g D now (rows s)) by done.
    unfold Spec.keys_where. by destruct Hc as (_ & -> & ->). }
  destruct (list_of_set_map _ ks D Hnd Heq) as (l & -> & Hl). exists l. split; [|done].
  unfold st_list. by rewrite Hks.
Qed.

Lemma for_each_delete now c l κf s : here c →
  ∃ s', for_each (delete_quietly now c) ((λ a : string, key_str tenant (κf a)) <$> l) s = (s', Ok tt) ∧
    (∀ i, rows s' !! i = if decide (i ∈ (λ a, K (κf a)) <$> l) then None else rows s !! i).
Proof.
  intros Hc. revert s. induction l as [|a l IH]; intros s.
  - exists s. split; [done|]. intros i. rewrite decide_False; [done|]. apply not_elem_of_nil.
  - destruct (kv_delete_here now c (key_str tenant (κf a)) s Hc) as (s1 & Hs1 & Hr1).
    destruct (IH s1) as (s' & Hs' & Hr'). exists s'. split.
    + rewrite fmap_cons. cbn [for_each]. unfold mbind, M_bind, delete_quietly at 1. rewrite Hs1. exact Hs'.
    + intros i. rewrite Hr', Hr1, fmap_cons. destruct (decide (i ∈ (λ a, K (κf a)) <$> l)) as [Hi|Hi].
      * by rewrite decide_True by by right.
      * destruct (decide (i = K (κf a))) as [->|Hne].
        -- rewrite lookup_delete_eq, decide_True; [done|by left].
        -- rewrite lookup_delete_ne by done. rewrite decide_False; [done|]. by rewrite not_elem_of_cons.
Qed.

Lemma rep_member_set (stale : string → bool) g m A : Rep stale m A → usable g = true →
  ∀ a, if decide (a ∈ dom (from_option Abs.members ∅ (A !! g)))
       then ∃ v, m !! K (KIn MemberKind g a) = Some (v, None) else m !! K (KIn MemberKind g a) = None.
Proof.
  intros HR Hg a. rewrite (rep_member _ _ _ HR) by done. destruct (A !! g) as [G|]; cbn.
  - destruct (Abs.members G !! a) as [x|] eqn:Hx; case_decide as Hin; rewrite elem_of_dom, Hx in Hin; cbn.
    + by eexists.
    + by destruct Hin.
    + by destruct Hin.
    + done.
  - case_decide as Hin; [by rewrite dom_empty_L, elem_of_empty in Hin | done].
Qed.

Lemma read_memberships_spec now c g (ms : gmap string GroupMembership) l s : here c →
  (∀ a, a ∈ l → ∃ x, ms !! a = Some x ∧ rows s !! K (KIn MemberKind g a) = Some (encode_membership x, None)) →
  read_memberships now c ((λ a, key_str tenant (KIn MemberKind g a)) <$> l) s
  = (s, Ok (omap (λ a, ms !! a) l)).
Proof.
  intros Hc. induction l as [|a l IH]; intros Hl; [done|].
  destruct (Hl a) as (x & Hx & Hrow); [by left|].
  rewrite fmap_cons. cbn [read_memberships]. unfold mbind, M_bind.
  rewrite (st_get_Some _ _ _ _ _ Hc Hrow), IH by (intros b Hb; apply Hl; by right).
  rewrite decode_encode_membership. cbn. by rewrite Hx.
Qed.

(** The memberships of a group, in the order of the listing. *)
Lemma read_group now c (stale : string → bool) g G A s : here c → Rep stale (rows s) A → A !! g = Some G →
  ∃ l, st_list now c (membership_prefix tenant g) s
       = (s, Ok ((λ a, key_str tenant (KIn MemberKind g a)) <$> l))
    ∧ l ≡ₚ elements (dom (Abs.members G))
    ∧ read_memberships now c ((λ a, key_str tenant (KIn MemberKind g a)) <$> l) s
      = (s, Ok (omap (λ a, Abs.members G !! a) l)).
Proof.
  intros Hc HR HA. pose proof (rep_usable _ _ _ HR g G HA) as Hg.
  pose proof (rep_member_set _ g _ _ HR Hg) as HD. rewrite HA in HD. cbn in HD.
  destruct (st_list_spec now c MemberKind g _ s Hc Hg (rep_shape _ _ _ HR) HD) as (l & Hl & Hperm).
  exists l. rewrite membership_prefix_str. split; [done|]. split; [done|].
  apply read_memberships_spec; [done|]. intros a Ha. rewrite Hperm, elem_of_elements, elem_of_dom in Ha.
  destruct Ha as [x Hx]. exists x. split; [done|]. rewrite (rep_member _ _ _ HR), HA by done. cbn. by rewrite Hx.
Qed.

(** *** The lists of members *)

Definition readable (ms : gmap string GroupMembership) : Prop :=
  ∀ a x, ms !! a = Some x → m_actor_id x = a ∧ ∃ i, from_canonical a = Ok i ∧ canonical i = a.

Lemma ids_of_members (p : GroupMembership → bool) ms l : readable ms →
  m_actor_id <$> List.filter p (omap (λ a, ms !! a) l)
  = List.filter (λ a, from_option p false (ms !! a)) l.
Proof.
  intros Hr. induction l as [|a l IH]; [done|]. cbn. destruct (ms !! a) as [x|] eqn:Hx; cbn; [|exact IH].
  destruct (p x); cbn; [|exact IH]. rewrite <-IH. by destruct (Hr a x Hx) as [-> _].
Qed.

Lemma actors_canonical (p : GroupMembership → bool) ms l : readable ms →
  canonical <$> actors (List.filter p (omap (λ a, ms !! a) l))
  = List.filter (λ a, from_option p false (ms !! a)) l.
Proof.
  intros Hr. rewrite <-ids_of_members by done. induction l as [|a l IH]; [done|]. cbn.
  destruct (ms !! a) as [x|] eqn:Hx; cbn; [|exact IH]. destruct (p x); cbn; [|exact IH].
  destruct (Hr a x Hx) as (-> & i & Hi & Hci). rewrite Hi. cbn. rewrite Hci. f_equal. exact IH.
Qed.

Lemma names_of_set (l : list string) (X : gset string) : NoDup l → (∀ a, a ∈ l ↔ a ∈ X) →
  names_of l = Abs.names X.
Proof.
  intros Hnd Hl. unfold names_of, Abs.names.
  assert (list_to_set l = X) as <-; [|by rewrite size_list_to_set].
  apply set_eq. intros a. by rewrite elem_of_list_to_set.
Qed.

Lemma names_filtered (p : GroupMembership → bool) G l : readable (Abs.members G) →
  l ≡ₚ elements (dom (Abs.members G)) →
  names_of (canonical <$> actors (List.filter p (omap (λ a, Abs.members G !! a) l)))
  = Abs.names (Abs.select p G).
Proof.
  intros Hr Hl. rewrite actors_canonical by done. apply names_of_set.
  - apply NoDup_ListNoDup, List.NoDup_filter, NoDup_ListNoDup. rewrite Hl. apply NoDup_elements.
  - intros a. rewrite elem_of_filterb, Hl, elem_of_elements. unfold Abs.select.
    rewrite !elem_of_dom. unfold is_Some. setoid_rewrite map_lookup_filter_Some.
    destruct (Abs.members G !! a) as [x|]; cbn; naive_solver.
Qed.

Lemma filter_true {B} (l : list B) : List.filter (λ _, true) l = l.
Proof. induction l; simpl; [done | by f_equal]. Qed.

Lemma rep_readable_members (stale : string → bool) g G m A :
  Rep stale m A → A !! g = Some G → readable (Abs.members G).
Proof. intros HR HA a x. by apply (rep_readable _ _ _ HR g G). Qed.

(** *** The operations *)

Lemma update_spec now g G A s : Rep (String.eqb g) (rows s) A → A !! g = Some G →
  ∃ s', update_member_count_with_namespace now tenant g ns s = (s', Ok tt) ∧ Rep fresh (rows s') A.
Proof.
  intros HR HA. pose proof (rep_usable _ _ _ HR g G HA) as Hg.
  pose proof (rep_group _ _ _ HR g Hg) as Hgrp. rewrite HA in Hgrp.
  destruct Hgrp as (grp & Hrow & (Hn & Ht & Hs & Hcr) & _).
  destruct (read_group now c0 _ g G A s here_c0 HR HA) as (l & Hlist & Hl & Hread).
  set (grp' := mkGroup (group_name grp) (g_tenant_id grp) (g_namespace grp)
    (m_actor_id <$> omap (λ a, Abs.members G !! a) l)
    (as_u32 (Z.of_nat (length ((λ a, key_str tenant (KIn MemberKind g a)) <$> l)))) (g_created_at grp)).
  destruct (st_put_spec now c0 (KGroup g) (encode_group grp') s here_c0) as (s' & Hput & Hr').
  exists s'. split.
  - unfold update_member_count_with_namespace, mbind, M_bind. rewrite group_key_str.
    rewrite (st_get_Some _ _ _ _ _ here_c0 Hrow). cbn. unfold lift. rewrite decode_encode_group.
    by rewrite Hlist, Hread.
  - rewrite Hr'. apply (rep_recount g G); [done|done|done|]. split; cbn.
    + rewrite <-(filter_true (omap _ l)), ids_of_members by (by eapply rep_readable_members).
      rewrite <-Hl. assert (∀ a, a ∈ l → is_Some (Abs.members G !! a)) as Hin.
      { intros a. by rewrite Hl, elem_of_elements, elem_of_dom. }
      clear -Hin. induction l as [|a l IH]; [done|]. cbn. destruct (Hin a) as [x ->]; [by left|]. cbn.
      rewrite IH; [done|]. intros b Hb. apply Hin. by right.
    + rewrite length_fmap, Hl. by rewrite <-size_dom.
Qed.

Definition op_ok (op : GroupOp) : Prop :=
  match op with
  | Create g | Members g | LocalMembers g | DeleteGroup g => usable g = true
  | Join g a _ | Leave g a =>
      usable g = true ∧ ∃ i, from_canonical (canonical a) = Ok i ∧ canonical i = canonical a
  | ListGroups => True
  | Publish id g _ _ => usable g = true ∧ colon_free id = true
  end.

(** The operation and its specification agree on the answer and end in related states. *)
Definition agree (c : RequestContext) (op : GroupOp) : Prop := ∀ now nanos s A,
  here c → Rep fresh (rows s) A →
  ∃ s', run_group_op debug_str node c op now nanos s
        = (s', (Abs.exec node tenant op now nanos A).2)
    ∧ Rep fresh (rows s') (Abs.exec node tenant op now nanos A).1.

Lemma agree_create c g : usable g = true → agree c (Create g).
Proof.
  intros Hg now nanos s A Hc HR. pose proof (rep_group _ _ _ HR g Hg) as Hgrp. cbn.
  pose proof Hc as (_ & Ht & Hn).
  unfold answer, create_group, mbind, M_bind. rewrite Ht, Hn, group_key_str.
  destruct (A !! g) as [G|] eqn:HA; cbn.
  - destruct Hgrp as (grp & Hrow & _). rewrite (st_get_Some _ _ _ _ _ Hc Hrow). by exists s.
  - rewrite (st_get_None _ _ _ _ Hc Hgrp).
    destruct (st_put_spec now c (KGroup g) (encode_group (mkGroup g tenant ns [] 0 (timestamp now nanos))) s Hc)
      as (s' & -> & Hr'). exists s'. split; [done|]. rewrite Hr'. by apply rep_create.
Qed.

Lemma agree_query c (p : GroupMembership → bool) (now : Z) g A s : here c → Rep fresh (rows s) A → usable g = true →
  ∃ r, memberships now c g s = (s, r) ∧
    match A !! g with
    | None => r = Err (GroupNotFound g)
    | Some G => ∃ ms, r = Ok ms ∧
        names_of (canonical <$> actors (List.filter p ms)) = Abs.names (Abs.select p G)
    end.
Proof.
  intros (Hs & Ht & Hn) HR Hg. pose proof (rep_group _ _ _ HR g Hg) as Hgrp.
  unfold memberships, get_group_namespace, mbind, M_bind, lift. rewrite Hs, Hn, Ht. cbn [tenant_id new_without_auth make_context].
  rewrite group_key_str. destruct (A !! g) as [G|] eqn:HA.
  - destruct Hgrp as (grp & Hrow & _). rewrite (st_get_Some _ _ _ _ _ here_c0 Hrow). cbn.
    destruct (read_group now c0 _ g G A s here_c0 HR HA) as (l & -> & Hl & ->). eexists. split; [done|].
    eexists. split; [done|]. apply names_filtered; [|done]. by eapply rep_readable_members.
  - rewrite (st_get_None _ _ _ _ here_c0 Hgrp). cbn. by eexists.
Qed.

Lemma agree_members c g : usable g = true → agree c (Members g).
Proof.
  intros Hg now nanos s A Hc HR. exists s. split; [|done]. cbn. unfold answer, get_members, Abs.query, mbind, M_bind.
  destruct (agree_query c (λ _, true) now g A s Hc HR Hg) as (r & -> & Hr).
  destruct (A !! g) as [G|]; [|by subst r]. destruct Hr as (ms & -> & Hr). rewrite filter_true in Hr. cbn.
  by rewrite Hr.
Qed.

Lemma agree_local_members c g : usable g = true → agree c (LocalMembers g).
Proof.
  intros Hg now nanos s A Hc HR. exists s. split; [|done]. cbn.
  unfold answer, get_local_members, Abs.query, mbind, M_bind.
  destruct (agree_query c (λ x, String.eqb (m_node_id x) node) now g A s Hc HR Hg) as (r & -> & Hr).
  destruct (A !! g) as [G|]; [|by subst r]. destruct Hr as (ms & -> & Hr). cbn. by rewrite Hr.
Qed.

Lemma agree_publish c id g topic msg : usable g = true → colon_free id = true →
  agree c (Publish id g topic msg).
Proof.
  intros Hg Hid now nanos s A Hc HR. cbn.
  unfold answer, publish_to_group, get_group_namespace, Abs.query, mbind, M_bind, lift.
  destruct Hc as (Hs & Ht & Hn). rewrite Hs, Hn, Ht. cbn [tenant_id new_without_auth make_context].
  destruct (agree_query c0 (should_receive topic) now g A s here_c0 HR Hg) as (r & -> & Hr).
  destruct (A !! g) as [G|] eqn:HA; [|subst r; by exists s].
  destruct Hr as (ms & -> & Hr). rewrite message_key_str.
  match goal with |- context [st_put now c0 _ ?v s] =>
    destruct (st_put_spec now c0 (KIn MessageKind g id) v s here_c0) as (s' & -> & Hr') end.
  exists s'. cbn. rewrite Hr. split; [done|]. rewrite Hr'. by apply rep_published.
Qed.

Lemma existing_or_new_spec (now nanos : Z) c g a ts G A s : here c → Rep fresh (rows s) A → A !! g = Some G →
  let old := default (mkMembership g tenant (canonical a) node 0 ts (Some (now, nanos)))
               (Abs.members G !! canonical a) in
  existing_or_new now nanos node c g a ts s = (s, Ok old).
Proof.
  intros Hc HR HA. pose proof (rep_usable _ _ _ HR g G HA) as Hg.
  pose proof (rep_member _ _ _ HR g (canonical a) Hg) as Hmem. rewrite HA in Hmem. cbn in Hmem.
  unfold existing_or_new, mbind, M_bind. rewrite (proj1 (proj2 Hc)), membership_key_str.
  rewrite st_get_spec, Hmem by done. destruct (Abs.members G !! canonical a) as [y|]; [|done].
  cbn. unfold decode_or_fail, lift. by rewrite decode_encode_membership.
Qed.

(** Writing a membership, and recounting when the set of the members changes. *)
Lemma write_membership now c g a x (b : bool) G A s : here c → Rep fresh (rows s) A → A !! g = Some G →
  m_actor_id x = a → (∃ i, from_canonical a = Ok i ∧ canonical i = a) →
  (b = false → is_Some (Abs.members G !! a)) →
  ∃ s', (_ ← st_put now c (key_str tenant (KIn MemberKind g a)) (encode_membership x);
         if b then update_member_count_with_namespace now tenant g ns else mret tt) s = (s', Ok tt)
    ∧ Rep fresh (rows s') (<[g := Abs.set_members G (<[a := x]> (Abs.members G))]> A).
Proof.
  intros Hc HR HA Hx Ha Hb.
  destruct (st_put_spec now c (KIn MemberKind g a) (encode_membership x) s Hc) as (s1 & Hput & Hr1).
  assert (∀ stale : string → bool, stale g = true ∨ dom (<[a := x]> (Abs.members G)) = dom (Abs.members G) →
          Rep stale (rows s1) (<[g := Abs.set_members G (<[a := x]> (Abs.members G))]> A)) as HR1.
  { intros stale Hst. apply (rep_members stale g a (Some x) G (rows s)); try done.
    intros y [= <-]. by split. }
  unfold mbind, M_bind. rewrite Hput. destruct b.
  - apply (update_spec now g (Abs.set_members G (<[a := x]> (Abs.members G)))).
    + apply HR1. left. by rewrite String.eqb_refl.
    + apply lookup_insert_eq.
  - exists s1. split; [done|]. apply HR1. right. apply dom_insert_lookup_L. by apply Hb.
Qed.

Lemma agree_join c g a ts : op_ok (Join g a ts) → agree c (Join g a ts).
Proof.
  intros [Hg Ha] now nanos s A Hc HR. pose proof (rep_group _ _ _ HR g Hg) as Hgrp.
  cbn [run_group_op Abs.exec]. unfold answer, join_group, Abs.join.
  rewrite (proj1 (proj2 Hc)), (proj2 (proj2 Hc)), group_key_str, membership_key_str.
  destruct (A !! g) as [G|] eqn:HA.
  2: { unfold mbind, M_bind. rewrite (st_get_None _ _ _ _ Hc Hgrp). by exists s. }
  destruct Hgrp as (grp & Hrow & _). unfold mbind at 1 2 3 4, M_bind.
  rewrite (st_get_Some _ _ _ _ _ Hc Hrow). cbn [require]. unfold mret at 1, M_ret at 1.
  rewrite (existing_or_new_spec now nanos c g a ts G A s) by done.
  set (old := default _ _). set (x := set_join old _ _).
  destruct (write_membership now c g (canonical a) x (join_count x =? 1) G A s) as (s' & Hs' & HR'); try done.
  - unfold x, old. cbn [m_actor_id set_join]. destruct (Abs.members G !! canonical a) as [y|] eqn:Hy; [|done].
    by destruct (rep_readable _ _ _ HR g G _ _ HA Hy) as [? _].
  - unfold x, old. destruct (Abs.members G !! canonical a) as [y|] eqn:Hy; [by eexists|done].
  - exists s'. split; [|exact HR']. unfold mbind, M_bind in Hs' |- *. by rewrite Hs'.
Qed.

Lemma sat_sub_zero z : i32_sat_sub z 1 = 0 ↔ z = 1.
Proof. unfold i32_sat_sub. lia. Qed.

Lemma agree_leave c g a : op_ok (Leave g a) → agree c (Leave g a).
Proof.
  intros [Hg Ha] now nanos s A (Hs & Ht & Hn) HR.
  pose proof (rep_member _ _ _ HR g (canonical a) Hg) as Hmem.
  cbn [run_group_op Abs.exec]. unfold answer, leave_group, Abs.leave, get_group_namespace.
  rewrite Hs, Ht, Hn. cbn [tenant_id new_without_auth make_context]. rewrite membership_key_str.
  unfold mbind at 1 2 3 4 5, M_bind. unfold lift at 1.
  destruct (A !! g) as [G|] eqn:HA; cbn in Hmem |- *.
  2: { rewrite (st_get_None _ _ _ _ here_c0 Hmem). by exists s. }
  destruct (Abs.members G !! canonical a) as [x|] eqn:Hx; cbn in Hmem |- *.
  2: { rewrite (st_get_None _ _ _ _ here_c0 Hmem). by exists s. }
  rewrite (st_get_Some _ _ _ _ _ here_c0 Hmem). cbn [require]. unfold mret at 1, M_ret at 1.
  unfold decode_or_fail, lift. rewrite decode_encode_membership.
  destruct (Z.eqb_spec (i32_sat_sub (join_count x) 1) 0) as [H0n|H0n].
  - apply sat_sub_zero in H0n. rewrite H0n. cbn [Z.eqb Pos.eqb].
    destruct (kv_delete_here now c0 (key_str tenant (KIn MemberKind g (canonical a))) s here_c0) as (s1 & Hdel & Hr1).
    assert (Rep (String.eqb g) (rows s1) (<[g := Abs.set_members G (delete (canonical a) (Abs.members G))]> A)) as HR1.
    { apply (rep_members (String.eqb g) g (canonical a) None G (rows s)); try done.
      left. by rewrite String.eqb_refl. }
    unfold mbind, M_bind, st_delete. rewrite Hdel. cbn [map_err].
    destruct (update_spec now g _ _ s1 HR1 (lookup_insert_eq _ _ _)) as (s2 & Hup & HR2).
    exists s2. split; [|exact HR2]. by rewrite Hup.
  - assert ((join_count x =? 1) = false) as H1n.
    { apply Z.eqb_neq. intros Heq. by apply H0n, sat_sub_zero. }
    rewrite H1n.
    destruct (write_membership now c0 g (canonical a) (set_join x (i32_sat_sub (join_count x) 1) (topics x)) false
      G A s) as (s' & Hs' & HR'); try done.
    + by destruct (rep_readable _ _ _ HR g G _ _ HA Hx) as [? _].
    + exists s'. split; [|exact HR']. unfold mbind, M_bind in Hs' |- *. by rewrite Hs'.
Qed.

Lemma agree_delete c g : usable g = true → agree c (DeleteGroup g).
Proof.
  intros Hg now nanos s A (Hs & Ht & Hn) HR. cbn [run_group_op Abs.exec fst snd].
  destruct (kv_delete_here now c0 (key_str tenant (KGroup g)) s here_c0) as (s1 & Hdel & Hr1).
  assert (∀ k a, rows s1 !! K (KIn k g a) = rows s !! K (KIn k g a)) as Hk1.
  { intros k a. rewrite Hr1. apply lookup_delete_ne, K_ne; [done..|congruence]. }
  assert (shaped (rows s1)) as Hsh1 by (rewrite Hr1; apply shaped_delete, (rep_shape _ _ _ HR)).
  destruct (st_list_spec now c0 MemberKind g (dom (from_option Abs.members ∅ (A !! g))) s1)
    as (l & Hl & Hlp); [done..| |].
  { intros a. rewrite Hk1. by apply (rep_member_set fresh). }
  destruct (for_each_delete now c0 l (KIn MemberKind g) s1 here_c0) as (s2 & Hfe & Hr2).
  assert (∀ a, rows s2 !! K (KIn MessageKind g a) = rows s !! K (KIn MessageKind g a)) as Hk2.
  { intros a. rewrite Hr2, decide_False; [by rewrite Hk1|].
    intros (b & Hb%K_inj & _)%list_elem_of_fmap; done. }
  assert (shaped (rows s2)) as Hsh2.
  { intros k Hk. rewrite Hr2. case_decide; [by intros [? ?]|]. by apply Hsh1. }
  destruct (st_list_spec now c0 MessageKind g (from_option Abs.messages ∅ (A !! g)) s2)
    as (l' & Hl' & Hlp'); [done..| |].
  { intros a. rewrite Hk2. by apply (rep_message _ _ _ HR). }
  destruct (for_each_delete now c0 l' (KIn MessageKind g) s2 here_c0) as (s3 & Hfe' & Hr3).
  exists s3. split.
  - unfold answer, delete_group, get_group_namespace, mbind, M_bind. rewrite Hs, Ht, Hn.
    cbn [tenant_id new_without_auth make_context].
    unfold delete_quietly at 1. rewrite group_key_str, Hdel. cbn [fst].
    by rewrite membership_prefix_str, Hl, Hfe, message_prefix_str, Hl', Hfe'.
  - apply (rep_deleted g (rows s)); [done..| |].
    + intros κ Hκ. rewrite Hr3, Hr2, Hr1. destruct κ as [g'|k g' a]; cbn [name_of].
      * rewrite !decide_False by (intros (b & Hb%K_inj & _)%list_elem_of_fmap; done).
        destruct (decide (g' = g)) as [->|Hne]; [apply lookup_delete_eq|].
        apply lookup_delete_ne, K_ne; [done..|congruence].
      * rewrite (lookup_delete_ne _ (K (KGroup g))) by (apply K_ne; [done..|congruence]).
        destruct (decide (g' = g)) as [->|Hne].
        2: { rewrite !decide_False; [done|..];
               intros (b & Hb%K_inj & _)%list_elem_of_fmap; try done; congruence. }
        case_decide as Hin'; [done|]. case_decide as Hin; [done|]. destruct k.
        -- pose proof (rep_member_set fresh g _ _ HR Hg a) as Hm. case_decide as Ha; [|done].
           exfalso. apply Hin, list_elem_of_fmap. exists a. split; [done|]. by rewrite Hlp, elem_of_elements.
        -- pose proof (rep_message _ _ _ HR g a Hg) as Hm. case_decide as Ha; [|done].
           exfalso. apply Hin', list_elem_of_fmap. exists a. split; [done|].
           by rewrite Hlp', elem_of_elements.
    + intros k Hk. rewrite Hr3. case_decide; [by intros [? ?]|]. by apply Hsh2.
Qed.

(** *** The list of the groups *)

Lemma no_member_word g id : colon_free g = true → colon_free id = true →
  split_once ":member:" (tail (KIn MessageKind g id)) = None.
Proof.
  intros Hg Hid. destruct (split_once ":member:" _) as [[x y]|] eqn:E; [exfalso|done].
  apply split_once_spec in E; [|done]. cbn [tail] in E.
  assert (∀ w, colon_free w = false → ∃ u v, w = u +:+ String ":" v ∧ colon_free u = true) as Hfirst.
  { induction w as [|c w IH]; [done|]. cbn [colon_free str_all]. intros Hw.
    destruct (decide (c = ":"%char)) as [->|Hc]; [by exists "", w|].
    rewrite bool_decide_eq_false_2 in Hw by done. destruct (IH Hw) as (u & v & -> & Hu).
    exists (String c u), v. split; [done|]. cbn. by rewrite bool_decide_eq_false_2. }
  assert (∀ w r t, colon_free w = true → w +:+ String ":" r = x +:+ ":member:" +:+ t →
    (x = w ∧ r = "member:" +:+ t) ∨ ∃ x', x = w +:+ String ":" x' ∧ r = x' +:+ ":member:" +:+ t) as Hstep.
  { intros w r t Hw Heq. apply (f_equal (split_once ":")) in Heq. rewrite split_colon in Heq by done.
    destruct (colon_free x) eqn:Hx.
    - change (":member:" +:+ t) with (String ":" ("member:" +:+ t)) in Heq.
      rewrite (split_colon x ("member:" +:+ t) Hx) in Heq. injection Heq as -> ->. by left.
    - destruct (Hfirst x Hx) as (u & v & -> & Hu). right.
      rewrite str_app_assoc in Heq. change (String ":" v +:+ ":member:" +:+ t) with (String ":" (v +:+ ":member:" +:+ t)) in Heq.
      rewrite split_colon in Heq by done. injection Heq as -> ->. by exists v. }
  destruct (Hstep g _ y Hg E) as [[_ Hr]|(x' & _ & Hr)]; [discriminate Hr|].
  cbn [word] in Hr. change ("message:" +:+ id) with ("message" +:+ String ":" id) in Hr.
  apply (f_equal (split_once ":")) in Hr. rewrite split_colon in Hr by done.
  destruct (colon_free x') eqn:Hx'.
  - change (":member:" +:+ y) with (String ":" ("member:" +:+ y)) in Hr.
    rewrite (split_colon x' ("member:" +:+ y) Hx') in Hr. injection Hr as _ ->. discriminate Hid.
  - destruct (Hfirst x' Hx') as (u & v & -> & Hu). rewrite str_app_assoc in Hr.
    change (String ":" v +:+ ":member:" +:+ y) with (String ":" (v +:+ ":member:" +:+ y)) in Hr.
    rewrite split_colon in Hr by done. injection Hr as _ ->.
    unfold colon_free in Hid. rewrite str_all_app, andb_true_iff in Hid. by destruct Hid.
Qed.

Lemma omap_NoDup {B C} (f : B → option C) l :
  (∀ x y z, x ∈ l → y ∈ l → f x = Some z → f y = Some z → x = y) → NoDup l → NoDup (omap f l).
Proof.
  intros Hf. induction 1 as [|x l Hx Hl IH]; [constructor|]. cbn.
  assert (NoDup (omap f l)) as Hnd by (apply IH; intros y z w ??; apply Hf; by right).
  destruct (f x) as [z|] eqn:Hz; [|done]. apply NoDup_cons. split; [|done].
  intros (y & Hy & Hfy)%list_elem_of_omap. apply Hx. by rewrite (Hf x y z); [|left|right|..].
Qed.

Lemma elem_of_listed n A : n ∈ Abs.listed A ↔
  (∃ G, A !! n = Some G) ∨ ∃ g G id, A !! g = Some G ∧ id ∈ Abs.messages G ∧ n = g +:+ ":message:" +:+ id.
Proof.
  unfold Abs.listed. rewrite elem_of_union, elem_of_dom, elem_of_list_to_set, list_elem_of_bind. apply or_iff_compat_l. split.
  - intros ([g G] & Hn & Hg%elem_of_map_to_list). apply list_elem_of_fmap in Hn as (id & -> & Hid).
    exists g, G, id. split; [done|]. split; [by apply elem_of_elements|done].
  - intros (g & G & id & HA & Hid & ->). exists (g, G). split; [|by apply elem_of_map_to_list].
    apply list_elem_of_fmap. exists id. split; [done|]. by apply elem_of_elements.
Qed.

Definition listed_name (key : string) : option string :=
  if String.prefix (base_key tenant) key
  then let name := str_drop (String.length (base_key tenant)) key in
       if bool_decide (is_Some (split_once ":member:" name)) then None else Some name
  else None.

Lemma listed_name_key κ : usable (name_of κ) = true →
  (∀ g id, κ = KIn MessageKind g id → colon_free id = true) →
  listed_name (key_str tenant κ) = match κ with KIn MemberKind _ _ => None | _ => Some (tail κ) end.
Proof.
  intros Hκ Hid. unfold listed_name, key_str. rewrite prefix_app, str_drop_app.
  destruct κ as [g|[] g a]; cbn [name_of] in Hκ.
  - cbn [tail]. rewrite (split_once_None ":" "member:" g) by (by apply usable_colon_free).
    by rewrite bool_decide_eq_false_2 by (by intros []).
  - cbn [tail]. change (g +:+ String ":" (word MemberKind +:+ a)) with (g +:+ String ":" "member:" +:+ a).
    rewrite split_once_app by (by apply usable_colon_free). by rewrite bool_decide_eq_true_2 by by eexists.
  - rewrite no_member_word by eauto. by rewrite bool_decide_eq_false_2 by (by intros []).
Qed.

(** The keys that the tenant's groups occupy. *)
Definition present A (κ : GKey) : Prop :=
  match κ with
  | KGroup g => is_Some (A !! g)
  | KIn MemberKind g a => is_Some (A !! g ≫= λ G, Abs.members G !! a)
  | KIn MessageKind g id => id ∈ from_option Abs.messages ∅ (A !! g)
  end.

Lemma rep_present now (stale : string → bool) m A κ : Rep stale m A → usable (name_of κ) = true →
  present A κ ↔ ∃ v e, m !! K κ = Some (v, e) ∧ (false || Spec.live_at now e) = true.
Proof.
  intros HR Hκ. destruct κ as [g|[] g a]; cbn [name_of present] in *.
  - pose proof (rep_group _ _ _ HR g Hκ) as Hg. destruct (A !! g) as [G|].
    + destruct Hg as (grp & -> & _). split; [by eauto|by eexists].
    + rewrite Hg. split; [by intros []|by intros (?&?&?&?)].
  - rewrite (rep_member _ _ _ HR) by done. destruct (A !! g ≫= _) as [x|]; cbn.
    + split; [by eauto|by eexists].
    + split; [by intros []|by intros (?&?&?&?)].
  - pose proof (rep_message _ _ _ HR g a Hκ) as Hm. case_decide as Ha.
    + destruct Hm as [v ->]. split; [by eauto|done].
    + rewrite Hm. split; [done|by intros (?&?&?&?)].
Qed.

Lemma agree_list c : agree c ListGroups.
Proof.
  intros now nanos s A Hc HR. exists s. split; [|done]. cbn [run_group_op Abs.exec snd].
  destruct (kv_list_spec c (base_key tenant) now s) as (ks & Hks & Hnd & Hset); [apply Hc|].
  assert (∀ k, k ∈ ks ↔ ∃ κ, k = key_str tenant κ ∧ usable (name_of κ) = true ∧ present A κ) as Hin.
  { intros k. rewrite <-(elem_of_list_to_set (C := gset string)), Hset, elem_of_keys_where.
    rewrite here_key by done. split.
    - intros (Hm & v & e & Hrow & He). destruct (rep_shape _ _ _ HR k) as (κ & Hκ & ->); [done|by eexists|].
      exists κ. split; [done|]. split; [done|]. apply (rep_present now fresh (rows s) A κ HR Hκ). eauto.
    - intros (κ & -> & Hκ & Hp). split; [apply matches_base|]. by apply (rep_present now fresh (rows s) A κ HR Hκ). }
  assert (∀ κ, usable (name_of κ) = true → present A κ →
          listed_name (key_str tenant κ) = match κ with KIn MemberKind _ _ => None | _ => Some (tail κ) end) as Hname.
  { intros κ Hκ Hp. apply listed_name_key; [done|]. intros g id ->. cbn in Hp.
    destruct (A !! g) as [G|] eqn:HA; [|by apply not_elem_of_empty in Hp].
    by apply (rep_ids _ _ _ HR g G). }
  unfold answer, list_groups, mbind, M_bind, st_list. rewrite (proj1 (proj2 Hc)).
  change ("tenant:" +:+ tenant +:+ ":group:") with (base_key tenant). rewrite Hks. cbn [map_err].
  unfold mret, M_ret. fold listed_name. f_equal. f_equal. apply names_of_set.
  - apply omap_NoDup; [|done]. intros x y z (κ & -> & Hκ & Hp)%Hin (κ' & -> & Hκ' & Hp')%Hin.
    rewrite !Hname by done. intros H1x H2x. f_equal.
    apply tail_inj; [by apply usable_colon_free..|].
    destruct κ as [|[]], κ' as [|[]]; simplify_eq; congruence.
  - intros n. rewrite list_elem_of_omap, elem_of_listed. split.
    + intros (k & (κ & -> & Hκ & Hp)%Hin & Hn). rewrite Hname in Hn by done.
      destruct κ as [g|[] g id]; simplify_eq; cbn in Hp.
      * left. by destruct Hp as [G HG]; exists G.
      * right. destruct (A !! g) as [G|] eqn:HA; [|by apply not_elem_of_empty in Hp]. by exists g, G, id.
    + intros [[G HA]|(g & G & id & HA & Hid & ->)].
      * exists (key_str tenant (KGroup n)). pose proof (rep_usable _ _ _ HR n G HA).
        split; [apply Hin; exists (KGroup n); unfold present; by rewrite HA|]. rewrite Hname; [done|done|unfold present; by rewrite HA].
      * exists (key_str tenant (KIn MessageKind g id)). pose proof (rep_usable _ _ _ HR g G HA).
        split; [apply Hin; exists (KIn MessageKind g id); unfold present; by rewrite HA|].
        rewrite Hname; [done|done|unfold present; by rewrite HA].
Qed.

Lemma agree_all c op : op_ok op → agree c op.
Proof.
  destruct op; intros Hop.
  - by apply agree_create.
  - by apply agree_join.
  - by apply agree_leave.
  - by apply agree_members.
  - by apply agree_local_members.
  - by apply agree_delete.
  - by apply agree_list.
  - destruct Hop. by apply agree_publish.
Qed.

Lemma runs_agree c ops s A : here c → Forall (λ '(op, _, _), op_ok op) ops → Rep fresh (rows s) A →
  ∃ s', run_groups debug_str node c ops s = (s', (Abs.run node tenant ops A).2)
    ∧ Rep fresh (rows s') (Abs.run node tenant ops A).1.
Proof.
  intros Hc Hops. revert s A. induction Hops as [|[[op now] nanos] ops Hop _ IH]; intros s A HR.
  - by exists s.
  - cbn [run_groups Abs.run]. destruct (agree_all c op Hop now nanos s A Hc HR) as (s1 & -> & HR1).
    destruct (Abs.exec node tenant op now nanos A) as [A1 r]. cbn [fst snd] in HR1 |- *.
    destruct (IH s1 A1 HR1) as (s2 & -> & HR2).
    destruct (Abs.run node tenant ops A1) as [A2 rs]. by exists s2.
Qed.

Lemma rep_empty : Rep fresh ∅ ∅.
Proof.
  constructor.
  - intros g G HA. by rewrite lookup_empty in HA.
  - intros g G a x HA. by rewrite lookup_empty in HA.
  - intros g G id HA. by rewrite lookup_empty in HA.
  - intros g _. by rewrite !lookup_empty.
  - intros g a _. by rewrite !lookup_empty.
  - intros g id _. case_decide as Hin; [by apply not_elem_of_empty in Hin | done].
  - intros k _ [v Hv]. by rewrite lookup_empty in Hv.
Qed.
End refinement.

(** ** Lemmas: the specification *)

Section abs_lemmas.
Context (node tenant : string).
Abbreviation exec := (Abs.exec node tenant).
Abbreviation arun := (Abs.run node tenant).

Lemma arun_app ops1 ops2 A :
  arun (ops1 ++ ops2) A
  = let '(A1, r1) := arun ops1 A in let '(A2, r2) := arun ops2 A1 in (A2, r1 ++ r2).
Proof.
  revert A. induction ops1 as [|[[op now] nanos] ops1 IH]; intros A; cbn.
  - by destruct (arun ops2 A).
  - destruct (exec op now nanos A) as [A1 r]. rewrite IH. destruct (arun ops1 A1) as [A2 rs].
    by destruct (arun ops2 A2).
Qed.

(** The membership after [n] joins without topics. *)
Lemma arun_joins g a (n : nat) (now nanos : Z) A G : A !! g = Some G → Abs.members G !! canonical a = None →
  Z.of_nat n < 2 ^ 31 →
  let m := mkMembership g tenant (canonical a) node (Z.of_nat n) [] (Some (now, nanos)) in
  arun (repeat (Join g a [], now, nanos) n) A
  = (if (n =? 0)%nat then A else <[g := Abs.set_members G (<[canonical a := m]> (Abs.members G))]> A,
     repeat (Ok Done) n).
Proof.
  intros HA HG Hn. induction n as [|n IH]; [done|]. cbn zeta in IH |- *.
  rewrite <-Nat.add_1_r, !repeat_app, arun_app, IH by lia. cbn [repeat arun Abs.run Abs.exec].
  assert (as_i32 (Z.of_nat n + 1) = Z.of_nat (n + 1)) as Hi.
  { unfold as_i32. rewrite wrap_small by lia. destruct (Z.ltb_spec (Z.of_nat n + 1) (2 ^ 31)); lia. }
  unfold Abs.join. destruct n as [|n]; cbn [Nat.eqb Nat.add].
  - by rewrite HA, HG.
  - rewrite lookup_insert_eq. cbn [Abs.members Abs.set_members]. rewrite lookup_insert_eq. cbn [default from_option id join_count].
    rewrite Hi, insert_insert_eq. unfold set_join, Abs.set_members. cbn. by rewrite insert_insert_eq.
Qed.

Lemma arun_leaves g a (n k : nat) (now nanos : Z) A G ts t : (k ≤ n)%nat → Z.of_nat n < 2 ^ 31 →
  let m j := mkMembership g tenant (canonical a) node (Z.of_nat j) ts t in
  Abs.members G !! canonical a = None → (0 < n)%nat →
  arun (repeat (Leave g a, now, nanos) k)
    (<[g := Abs.set_members G (<[canonical a := m n]> (Abs.members G))]> A)
  = (<[g := Abs.set_members G (if (k =? n)%nat then Abs.members G else <[canonical a := m (n - k)%nat]> (Abs.members G))]> A,
     repeat (Ok Done) k).
Proof.
  intros Hk Hn m HG Hpos. induction k as [|k IH].
  - cbn. destruct n; [lia|]. cbn. done.
  - rewrite <-Nat.add_1_r, !repeat_app, arun_app, IH by lia. cbn [repeat arun Abs.run Abs.exec].
    destruct (Nat.eqb_spec k n); [lia|]. unfold Abs.leave. rewrite lookup_insert_eq.
    cbn [mbind option_bind Abs.members Abs.set_members]. rewrite lookup_insert_eq. cbn [fmap option_fmap option_map m join_count topics].
    assert (i32_sat_sub (Z.of_nat (n - k)) 1 = Z.of_nat (n - (k + 1))) as Hi by (unfold i32_sat_sub; lia).
    rewrite Hi, insert_insert_eq. destruct (Nat.eqb_spec (k + 1) n) as [He|He].
    + destruct (Z.eqb_spec (Z.of_nat (n - (k + 1))) 0); [|lia].
      unfold Abs.set_members. cbn. by rewrite delete_insert_id.
    + destruct (Z.eqb_spec (Z.of_nat (n - (k + 1))) 0); [lia|].
      unfold Abs.set_members, set_join. cbn. by rewrite insert_insert_eq.
Qed.
End abs_lemmas.

(** ** Properties *)

Lemma Forall_repeat_op {A} (P : A → Prop) (x : A) (n : nat) : P x → Forall P (repeat x n).
Proof. intros. induction n; by constructor. Qed.

Section properties.
Context {S : Type} `{KVLaws S} `{!Codec} `{!CodecLaws} (debug_str : string → string) (node : string).
Implicit Types (ctx : RequestContext) (s : S).


(** An actor that is not in a group and joins it [n] times stays a member until it has left [n] times. *)
Theorem member_until_last_leave ctx g a (n k : nat) (now nanos : Z) s A G :
  should_skip_namespace_filter ctx = false → str_all plain_char (tenant_id ctx) = true →
  Rep (tenant_id ctx) (namespace ctx) (λ _, false) (rows s) A → A !! g = Some G →
  canonical a ∉ dom (Abs.members G) → op_ok (Leave g a) → (k ≤ n)%nat → Z.of_nat n < 2 ^ 31 →
  last (run_groups debug_str node ctx
    (repeat (Join g a [], now, nanos) n ++ repeat (Leave g a, now, nanos) k ++ [(Members g, now, nanos)]) s).2
  = Some (Ok (Abs.names (if (k <? n)%nat then {[canonical a]} ∪ dom (Abs.members G)
                         else dom (Abs.members G)))).
Proof.
  intros Hc Hp HR HA Ha Hop Hk Hn.
  assert (Forall (λ '(op, _, _), op_ok op)
    (repeat (Join g a [], now, nanos) n ++ repeat (Leave g a, now, nanos) k ++ [(Members g, now, nanos)])) as Hops.
  { rewrite !Forall_app. split_and!; [apply Forall_repeat_op; done|apply Forall_repeat_op; done|].
    repeat constructor. apply Hop. }
  destruct (runs_agree debug_str node (tenant_id ctx) (namespace ctx) Hp ctx
    (repeat (Join g a [], now, nanos) n ++ repeat (Leave g a, now, nanos) k ++ [(Members g, now, nanos)])
    s A) as (s' & -> & _); [done..|].
  cbn [snd]. apply not_elem_of_dom in Ha.
  assert (∀ ms, Abs.select (λ _, true) (Abs.set_members G ms) = dom ms) as Hsel.
  { intros ms. unfold Abs.select. f_equal. apply map_eq. intros i. cbn. rewrite map_lookup_filter.
    by destruct (ms !! i). }
  rewrite arun_app, (arun_joins node _ _ _ _ _ _ _ G) by done.
  destruct n as [|n].
  - assert (k = 0%nat) as -> by lia. cbn. unfold Abs.query. rewrite HA.
    rewrite <-(Hsel (Abs.members G)). by destruct G.
  - cbn [Nat.eqb]. rewrite arun_app, arun_leaves by (done || lia). cbn [Abs.run Abs.exec]. unfold Abs.query.
    rewrite lookup_insert_eq. cbn [snd]. rewrite app_assoc, last_snoc. do 3 f_equal. rewrite Hsel.
    destruct (Nat.eqb_spec k (Datatypes.S n)), (Nat.ltb_spec k (Datatypes.S n)); try lia; [done|].
    by rewrite dom_insert_L.
Qed.

(** A member that receives the messages of every topic loses the others when it joins again with one
    topic: the union of its topics, which were none because none means all, is that one. *)
Theorem later_topics_narrow_subscription ctx g a t u id1 id2 (now nanos : Z) s A G :
  should_skip_namespace_filter ctx = false → str_all plain_char (tenant_id ctx) = true →
  Rep (tenant_id ctx) (namespace ctx) (λ _, false) (rows s) A → A !! g = Some G →
  canonical a ∉ dom (Abs.members G) → op_ok (Leave g a) → colon_free id1 && colon_free id2 = true → t ≠ u →
  ∃ r1 r2, (run_groups debug_str node ctx
    [(Join g a [], now, nanos); (Publish id1 g (Some u) [], now, nanos);
     (Join g a [t], now, nanos); (Publish id2 g (Some u) [], now, nanos)] s).2
    = [Ok Done; Ok (Abs.names r1); Ok Done; Ok (Abs.names r2)] ∧ canonical a ∈ r1 ∧ canonical a ∉ r2.
Proof.
  intros Hc Hp HR HA Ha [Hg Hread] [Hid1 Hid2]%andb_prop Htu.
  destruct (runs_agree debug_str node (tenant_id ctx) (namespace ctx) Hp ctx
    [(Join g a [], now, nanos); (Publish id1 g (Some u) [], now, nanos);
     (Join g a [t], now, nanos); (Publish id2 g (Some u) [], now, nanos)] s A) as (s' & -> & _);
    [done|by repeat constructor|done|].
  apply not_elem_of_dom in Ha. cbn [Abs.run Abs.exec fst snd]. unfold Abs.join, Abs.query. rewrite HA.
  rewrite Ha. cbn [default]. rewrite !lookup_insert_eq.
  cbn [Abs.members Abs.set_members Abs.with_message]. rewrite !lookup_insert_eq. cbn [default from_option id snd fst].
  eexists _, _. split; [reflexivity|]. unfold Abs.select. cbn [Abs.members Abs.set_members Abs.with_message]. split.
  - rewrite elem_of_dom. eexists. apply map_lookup_filter_Some_2; [apply lookup_insert_eq|done].
  - rewrite elem_of_dom. intros [m [Hm Hf]%map_lookup_filter_Some]. rewrite lookup_insert_eq in Hm.
    injection Hm as <-. cbn [should_receive topics set_join merge_topics] in Hf.
    destruct (elements _) as [|w ws] eqn:He.
    + apply elements_empty_inv in He. set_solver.
    + rewrite <-He in Hf. apply bool_decide_eq_true, elem_of_elements in Hf. set_solver.
Qed.
End properties.

(** ** Witnesses *)

(** An encoding: the number of the value as a countable type, in bytes, for the laws of [Codec]. *)
Section countable_codec.
Context {A : Type} `{Countable A}.

Definition pos_bytes (p : positive) : bytes := be_bytes (Pos.size_nat p) (Zpos p).
Definition to_bytes (x : A) : bytes := pos_bytes (encode x).
Definition of_bytes (bs : bytes) : result string A :=
  match decode (Z.to_pos (be_combine bs)) with Some x => Ok x | None => Err "malformed" end.

Lemma pos_size_bound p : Zpos p < 256 ^ Z.of_nat (Pos.size_nat p).
Proof.
  induction p as [p IH|p IH|]; cbn [Pos.size_nat]; rewrite ?Nat2Z.inj_succ, ?Z.pow_succ_r by lia; lia.
Qed.
Lemma of_to_bytes x : of_bytes (to_bytes x) = Ok x.
Proof.
  unfold of_bytes, to_bytes, pos_bytes. rewrite be_combine_bytes, Z.mod_small.
  - by rewrite Pos2Z.id, decode_encode.
  - pose proof (pos_size_bound (encode x)). lia.
Qed.
End countable_codec.

#[local] Instance ProcessGroup_eq_dec : EqDecision ProcessGroup.
Proof. solve_decision. Defined.
#[local] Instance GroupMembership_eq_dec : EqDecision GroupMembership.
Proof. solve_decision. Defined.
#[local] Program Instance ProcessGroup_countable : Countable ProcessGroup :=
  inj_countable' (λ g, (group_name g, g_tenant_id g, g_namespace g, member_ids g, member_count g, g_created_at g))
    (λ '(a, b, c, d, e, f), mkGroup a b c d e f) _.
Next Obligation. by intros []. Qed.
#[local] Program Instance GroupMembership_countable : Countable GroupMembership :=
  inj_countable' (λ m, (m_group_name m, m_tenant_id m, m_actor_id m, m_node_id m, join_count m, topics m, joined_at m))
    (λ '(a, b, c, d, e, f, g), mkMembership a b c d e f g) _.
Next Obligation. by intros []. Qed.

#[local] Instance codec : Codec := {|
  encode_group := to_bytes; decode_group := of_bytes;
  encode_membership := to_bytes; decode_membership := of_bytes |}.
#[local] Instance codec_laws : CodecLaws.
Proof. split; intros; apply of_to_bytes. Qed.

#[local] Instance sqlite : KeyValueStore SqlKVStore := Sql.store SQLite.
#[local] Instance sqlite_laws : KVLaws SqlKVStore := sql_laws SQLite.

Definition quoted (s : string) : string := s.
Definition ann : ActorId := mkActorId "ann//user::chat@n1" "ann" "user" "chat" "n1".
Definition empty_store : SqlKVStore := mkSqlKV ∅ [].

Definition replies (ops : list (GroupOp * Z * Z)) : list (result ProcessGroupError GroupReply) :=
  (run_groups quoted "n1" kv_ctx ops empty_store).2.
Definition created_room : SqlKVStore := (run_groups quoted "n1" kv_ctx [(Create "room", 1, 0)] empty_store).1.
Definition room : Abs.State := {[ "room" := Abs.mkAbs (Some (1, 0)) ∅ ∅ ]}.

Lemma acme_plain : str_all (plain_char (KVLaws := sqlite_laws)) "acme" = true.
Proof. by vm_compute. Qed.
Lemma empty_store_rep : Rep "acme" "prod" (λ _, false) (rows empty_store) ∅.
Proof. assert (rows empty_store = ∅) as -> by by vm_compute. apply rep_empty. Qed.
Lemma ann_op_ok : op_ok (Leave "room" ann).
Proof. split; [by vm_compute|]. by exists ann. Qed.
Lemma created_room_rep : Rep "acme" "prod" (λ _, false) (rows created_room) room.
Proof.
  destruct (runs_agree quoted "n1" "acme" "prod" acme_plain kv_ctx [(Create "room", 1, 0)] empty_store ∅)
    as (s' & Hr & HR); [done|by repeat constructor|apply empty_store_rep|].
  unfold created_room. by rewrite Hr.
Qed.
Lemma room_has_no_members : canonical ann ∉ dom (Abs.members (Abs.mkAbs (Some (1, 0)) ∅ ∅)).
Proof. cbn. set_solver. Qed.


Lemma member_until_last_leave_witness :
  last (run_groups quoted "n1" kv_ctx
    (repeat (Join "room" ann [], 2, 0) 3 ++ repeat (Leave "room" ann, 2, 0) 2 ++ [(Members "room", 2, 0)])
    created_room).2 = Some (Ok (Names {[canonical ann]} 1)).
Proof.
  rewrite (member_until_last_leave quoted "n1" kv_ctx "room" ann 3 2 2 0 created_room room
    (Abs.mkAbs (Some (1, 0)) ∅ ∅) eq_refl acme_plain created_room_rep eq_refl room_has_no_members ann_op_ok);
    [by vm_compute|lia|lia].
Defined.

Lemma later_topics_narrow_subscription_witness :
  ∃ r1 r2, (run_groups quoted "n1" kv_ctx
    [(Join "room" ann [], 2, 0); (Publish "m1" "room" (Some "news") [], 2, 0);
     (Join "room" ann ["chat"], 2, 0); (Publish "m2" "room" (Some "news") [], 2, 0)] created_room).2
    = [Ok Done; Ok (Abs.names r1); Ok Done; Ok (Abs.names r2)] ∧ canonical ann ∈ r1 ∧ canonical ann ∉ r2.
Proof.
  apply (later_topics_narrow_subscription quoted "n1" kv_ctx "room" ann "chat" "news" "m1" "m2" 2 0
    created_room room (Abs.mkAbs (Some (1, 0)) ∅ ∅) eq_refl acme_plain created_room_rep eq_refl
    room_has_no_members ann_op_ok eq_refl).
  discriminate.
Defined.

(** ** Names and contexts that the store does not tell apart *)

(** Deleting the group [user_events] removes the members of [user-events]: the underscore of its name is
    a wildcard of the pattern that lists its members. *)
Example delete_removes_members_of_another_group :
  replies [(Create "user-events", 1, 0); (Join "user-events" ann [], 2, 0); (Members "user-events", 3, 0);
           (DeleteGroup "user_events", 4, 0); (Members "user-events", 5, 0)]
  = [Ok Done; Ok Done; Ok (Names {[canonical ann]} 1); Ok Done; Ok (Names ∅ 0)].
Proof. by vm_compute. Qed.

(** The members of [user_events] include those of [user-events]. *)
Example members_of_another_group :
  replies [(Create "user-events", 1, 0); (Create "user_events", 2, 0); (Join "user-events" ann [], 3, 0);
           (Members "user_events", 4, 0)]
  = [Ok Done; Ok Done; Ok Done; Ok (Names {[canonical ann]} 1)].
Proof. by vm_compute. Qed.

(** A published message is listed as a group. *)
Example messages_listed_as_groups :
  replies [(Create "room", 1, 0); (Publish "m1" "room" None [7], 2, 0); (ListGroups, 3, 0)]
  = [Ok Done; Ok (Names ∅ 0); Ok (Names {["room"; "room:message:m1"]} 2)].
Proof. by vm_compute. Qed.

(** An administrator without a namespace finds the group, stores the membership in the empty namespace,
    and then does not find the group. *)
Definition admin_ctx : RequestContext := mkCtx "acme" "" true false false "".
Example admin_join_stores_and_fails :
  let '(s, r) := join_group 2 0 "n1" admin_ctx "room" ann [] created_room in
  r = Err (GroupNotFound "room")
  ∧ Spec.value (new_without_auth "acme" "") (membership_key "acme" "room" ann) 3 (rows s)
    = Some (encode_membership (mkMembership "room" "acme" (canonical ann) "n1" 1 [] (Some (2, 0)))).
Proof. by vm_compute. Qed.
