(* ===== verification/ElasticPool.v ===== *)
(** ElasticPool: the auto-scaling pool of workers of crates/elastic-pool/src/elastic_pool.rs and the
    registry of pools of pool_registry.rs.

    An operation of the pool takes and releases its locks several times, so it is cut into phases,
    one per critical section (module [Pool]); the bookkeeping of [update_metrics] is attached to the
    phase that it follows.  [Task] is the program counter of a running operation and [run_task] its
    next phase; a system is a pool with its running tasks, which interleave in any order.  A waiter of
    the queue is the index of the task that holds the receiving end of its channel.  Instants and
    durations are in nanoseconds; fresh identifiers (ULIDs) are arguments. *)
From Stdlib Require Import Ascii.
From stdpp Require Import pretty.
From S2P Require Import Prelude.

#[local] Arguments String.append : simpl nomatch.

(** ** Data *)

Inductive ElasticPoolError :=
| PoolNotFound (msg : string)
| CheckoutTimeout (waited : Z)
| PoolExhausted
| CircuitOpen
| PoolDraining
| InvalidConfig (msg : string)
| ActorError (msg : string).

Inductive ElasticPoolErrorProto :=
| ElasticPoolErrorUnspecified
| ElasticPoolErrorPoolNotFound
| ElasticPoolErrorCheckoutTimeout
| ElasticPoolErrorPoolExhausted
| ElasticPoolErrorCircuitOpen
| ElasticPoolErrorPoolDraining
| ElasticPoolErrorInvalidConfig
| ElasticPoolErrorActorError.

Definition error_to_proto (err : ElasticPoolError) : ElasticPoolErrorProto :=
  match err with
  | PoolNotFound _ => ElasticPoolErrorPoolNotFound
  | CheckoutTimeout _ => ElasticPoolErrorCheckoutTimeout
  | PoolExhausted => ElasticPoolErrorPoolExhausted
  | CircuitOpen => ElasticPoolErrorCircuitOpen
  | PoolDraining => ElasticPoolErrorPoolDraining
  | InvalidConfig _ => ElasticPoolErrorInvalidConfig
  | ActorError _ => ElasticPoolErrorActorError
  end.

Definition error_of_proto (proto : ElasticPoolErrorProto) : ElasticPoolError :=
  match proto with
  | ElasticPoolErrorUnspecified => ActorError "Unspecified error"
  | ElasticPoolErrorPoolNotFound => PoolNotFound "Pool not found"
  | ElasticPoolErrorCheckoutTimeout => CheckoutTimeout 0
  | ElasticPoolErrorPoolExhausted => PoolExhausted
  | ElasticPoolErrorCircuitOpen => CircuitOpen
  | ElasticPoolErrorPoolDraining => PoolDraining
  | ElasticPoolErrorInvalidConfig => InvalidConfig "Invalid config"
  | ElasticPoolErrorActorError => ActorError "Actor error"
  end.

Inductive WorkerState := Available | Busy.
#[export] Instance WorkerState_eq_dec : EqDecision WorkerState.
Proof. solve_decision. Defined.

Inductive ScalingState := Stable | ScalingUp | ScalingDown | Paused.
#[export] Instance ScalingState_eq_dec : EqDecision ScalingState.
Proof. solve_decision. Defined.
Definition ScalingState_i32 (s : ScalingState) : Z :=
  match s with Stable => 0 | ScalingUp => 1 | ScalingDown => 2 | Paused => 3 end.

Inductive Strategy := Incremental | Percentage | Exponential | CustomStrategy.
(** [Strategy::try_from] *)
Definition Strategy_try_from (x : Z) : option Strategy :=
  if x =? 0 then Some Incremental else if x =? 1 then Some Percentage
  else if x =? 2 then Some Exponential else if x =? 3 then Some CustomStrategy else None.

(** A protobuf [Duration] by its seconds. *)
Record ScalingPolicy := mkPolicy {
  strategy : Z;
  scale_factor : f64;
  cooldown : option Z;
  min_scale_step : Z;
  max_scale_step : Z
}.

Record PoolConfig := mkConfig {
  cfg_name : string;
  min_size : Z;
  max_size : Z;
  initial_size : Z;
  scaling_threshold : f64;
  scale_down_threshold : f64;
  scaling_policy : option ScalingPolicy
}.

(** The fields that the code writes; the others keep the zero of [initial_metrics]. *)
Record PoolMetrics := mkMetrics {
  m_name : string;
  m_scaling_state : Z;
  total_actors : Z;
  available_actors : Z;
  busy_actors : Z;
  waiting_requests : Z;
  total_checkouts : Z;
  total_checkins : Z;
  total_timeouts : Z;
  current_load : f64
}.

Record ActorHandle := mkHandle {
  actor_id : string;
  pool_name : string;
  checkout_time : option Z;
  checkout_id : string
}.

Record ElasticPool := mkPool {
  config : PoolConfig;
  workers : gmap string WorkerState;
  available_workers : list string;
  checkout_queue : list nat;
  metrics : PoolMetrics;
  scaling_state : ScalingState;
  last_scale_up : option Z;
  last_scale_down : option Z;
  draining : bool
}.

#[local] Abbreviation res := (result ElasticPoolError).

Definition nanos : Z := 1000000000.

Module Pool.

(** *** Field updates *)

Definition set_workers (p : ElasticPool) (w : gmap string WorkerState) (av : list string) :=
  mkPool (config p) w av (checkout_queue p) (metrics p) (scaling_state p) (last_scale_up p)
    (last_scale_down p) (draining p).
Definition set_queue (p : ElasticPool) (q : list nat) :=
  mkPool (config p) (workers p) (available_workers p) q (metrics p) (scaling_state p)
    (last_scale_up p) (last_scale_down p) (draining p).
Definition set_metrics (p : ElasticPool) (m : PoolMetrics) :=
  mkPool (config p) (workers p) (available_workers p) (checkout_queue p) m (scaling_state p)
    (last_scale_up p) (last_scale_down p) (draining p).
Definition set_scaling (p : ElasticPool) (s : ScalingState) (up down : option Z) :=
  mkPool (config p) (workers p) (available_workers p) (checkout_queue p) (metrics p) s up down
    (draining p).

(** *** Metrics *)

Definition initial_metrics (c : PoolConfig) : PoolMetrics :=
  mkMetrics (cfg_name c) (ScalingState_i32 Stable) 0 0 0 0 0 0 0 (f64_of_Z 0).

Definition len_u32 {A} (l : list A) : Z := as_u32 (Z.of_nat (length l)).
Definition busy_workers (p : ElasticPool) : list (string * WorkerState) :=
  List.filter (λ kv, bool_decide (kv.2 = Busy)) (map_to_list (workers p)).

Definition update_metrics (p : ElasticPool) : ElasticPool :=
  let total := len_u32 (map_to_list (workers p)) in
  let busy := len_u32 (busy_workers p) in
  let q_len := len_u32 (checkout_queue p) in
  let m := metrics p in
  set_metrics p (mkMetrics (m_name m) (ScalingState_i32 (scaling_state p)) total
    (len_u32 (available_workers p)) busy q_len (total_checkouts m) (total_checkins m)
    (total_timeouts m)
    (if 0 <? total
     then f64_div (f64_add (f64_of_Z busy) (f64_of_Z q_len)) (f64_of_Z total)
     else f64_of_Z 0)).

(** [ElasticPoolData::refresh_metrics] *)
Definition refresh_metrics (p : ElasticPool) : ElasticPool :=
  let total := len_u32 (map_to_list (workers p)) in
  let busy := len_u32 (busy_workers p) in
  let m := metrics p in
  set_metrics p (mkMetrics (m_name m) (ScalingState_i32 (scaling_state p)) total
    (len_u32 (available_workers p)) busy (waiting_requests m) (total_checkouts m)
    (total_checkins m) (total_timeouts m)
    (if 0 <? total
     then f64_mul (f64_div (f64_of_Z busy) (f64_of_Z total)) (f64_of_Z 100)
     else f64_of_Z 0)).

Definition count_checkout (p : ElasticPool) : ElasticPool :=
  let m := metrics p in
  set_metrics p (mkMetrics (m_name m) (m_scaling_state m) (total_actors m) (available_actors m)
    (busy_actors m) (waiting_requests m) (u64_add (total_checkouts m) 1) (total_checkins m)
    (total_timeouts m) (current_load m)).
Definition count_checkin (p : ElasticPool) : ElasticPool :=
  let m := metrics p in
  set_metrics p (mkMetrics (m_name m) (m_scaling_state m) (total_actors m) (available_actors m)
    (busy_actors m) (waiting_requests m) (total_checkouts m) (u64_add (total_checkins m) 1)
    (total_timeouts m) (current_load m)).
Definition count_timeout (p : ElasticPool) : ElasticPool :=
  let m := metrics p in
  set_metrics p (mkMetrics (m_name m) (m_scaling_state m) (total_actors m) (available_actors m)
    (busy_actors m) (waiting_requests m) (total_checkouts m) (total_checkins m)
    (u64_add (total_timeouts m) 1) (current_load m)).

Definition get_metrics (p : ElasticPool) : PoolMetrics :=
  let m := metrics p in
  mkMetrics (m_name m) (ScalingState_i32 (scaling_state p)) (total_actors m) (available_actors m)
    (busy_actors m) (waiting_requests m) (total_checkouts m) (total_checkins m)
    (total_timeouts m) (current_load m).

(** *** Workers *)

(** The loop of [spawn_workers] and [scale_up]: one worker per fresh identifier. *)
Definition add_workers (fresh : list string) (p : ElasticPool) : ElasticPool :=
  set_workers p (foldl (λ w id, <[id := Available]> w) (workers p) fresh)
    (available_workers p ++ fresh).
Definition spawn_workers (fresh : list string) (p : ElasticPool) : ElasticPool :=
  update_metrics (add_workers fresh p).

(** [available.retain(|id| id != worker_id)] and [workers.remove] for each of [to_remove]. *)
Definition remove_all (to_remove : list string) (p : ElasticPool) : ElasticPool :=
  set_workers p (foldl (λ w id, delete id w) (workers p) to_remove)
    (foldl (λ av id, List.filter (λ x, negb (bool_decide (x = id))) av)
       (available_workers p) to_remove).
Definition remove_workers (count : nat) (p : ElasticPool) : ElasticPool * nat :=
  let to_remove := take count (available_workers p) in
  (update_metrics (remove_all to_remove p), length to_remove).

Definition new (fresh : list string) (c : PoolConfig) : res ElasticPool :=
  if max_size c <? min_size c
  then Err (InvalidConfig "min_size cannot exceed max_size")
  else if (initial_size c <? min_size c) || (max_size c <? initial_size c)
  then Err (InvalidConfig "initial_size must be between min_size and max_size")
  else Ok (spawn_workers fresh (mkPool c ∅ [] [] (initial_metrics c) Stable None None false)).

(** *** Checkout *)

(** [available_workers.lock().await.pop_front()] *)
Definition pop_available (p : ElasticPool) : ElasticPool * option string :=
  match available_workers p with
  | w :: rest => (set_workers p (workers p) rest, Some w)
  | [] => (p, None)
  end.

Definition checkout_worker (wall_clock : Z) (ulid : string) (worker_id : string) (p : ElasticPool)
    : ElasticPool * res ActorHandle :=
  match workers p !! worker_id with
  | Some _ =>
      let p := set_workers p (<[worker_id := Busy]> (workers p)) (available_workers p) in
      (update_metrics (count_checkout p),
       Ok (mkHandle worker_id (cfg_name (config p)) (Some wall_clock) ulid))
  | None => (p, Err (ActorError ("Actor " ++ worker_id ++ " not found")))
  end.

(** [checkout_queue.push_back(waiter)] *)
Definition enqueue_waiter (waiter : nat) (p : ElasticPool) : ElasticPool :=
  update_metrics (set_queue p (checkout_queue p ++ [waiter])).

(** *** Checkin *)

Definition checkin_mark (worker_id : string) (p : ElasticPool) : res ElasticPool :=
  match workers p !! worker_id with
  | Some _ =>
      Ok (count_checkin (set_workers p (<[worker_id := Available]> (workers p))
                           (available_workers p)))
  | None => Err (ActorError ("Actor " ++ worker_id ++ " not found during checkin"))
  end.
(** [checkout_queue.lock().await.pop_front()] *)
Definition pop_waiter (p : ElasticPool) : ElasticPool * option nat :=
  match checkout_queue p with
  | w :: rest => (set_queue p rest, Some w)
  | [] => (p, None)
  end.
Definition push_available (worker_id : string) (p : ElasticPool) : ElasticPool :=
  update_metrics (set_workers p (workers p) (available_workers p ++ [worker_id])).

(** *** Scaling *)

(** The first [n] identifiers of a stream of fresh ones. *)
Definition fresh_ids (ulids : nat → string) (n : nat) : list string := ulids <$> seq 0 n.

Definition scale_to (ulids : nat → string) (size : Z) (p : ElasticPool) : ElasticPool :=
  let current_size := len_u32 (map_to_list (workers p)) in
  if current_size <? size
  then spawn_workers (fresh_ids ulids (Z.to_nat (size - current_size))) p
  else if size <? current_size
  then (remove_workers (Z.to_nat (current_size - size)) p).1
  else p.

(** The size that [scale_by] asks [scale_to] for. *)
Definition scale_by_target (delta : Z) (p : ElasticPool) : Z :=
  let current_size := as_i32 (Z.of_nat (length (map_to_list (workers p)))) in
  as_u32 (Z.min (Z.max (as_i32 (current_size + delta)) (as_i32 (min_size (config p))))
            (as_i32 (max_size (config p)))).
Definition scale_by (ulids : nat → string) (delta : Z) (p : ElasticPool) : ElasticPool :=
  scale_to ulids (scale_by_target delta p) p.

Definition pause_scaling (p : ElasticPool) : ElasticPool :=
  set_scaling p Paused (last_scale_up p) (last_scale_down p).
Definition resume_scaling (p : ElasticPool) : ElasticPool :=
  set_scaling p Stable (last_scale_up p) (last_scale_down p).

Definition delete_pool (p : ElasticPool) : ElasticPool :=
  (remove_workers (size (workers p)) (pause_scaling p)).1.

(** *** Draining *)

Definition set_draining (p : ElasticPool) : ElasticPool :=
  mkPool (config p) (workers p) (available_workers p) (checkout_queue p) (metrics p)
    (scaling_state p) (last_scale_up p) (last_scale_down p) true.
(** One round of the loop of [drain]: [None] goes around again. *)
Definition drain_poll (now deadline timeout : Z) (p : ElasticPool) : option (res Z) :=
  if bool_decide (length (busy_workers p) = 0%nat)
  then Some (Ok (len_u32 (map_to_list (workers p))))
  else if deadline <=? now then Some (Err (CheckoutTimeout timeout)) else None.
(** The loop of [drain]; [obs k] is the instant and the pool that its [k]th round sees. *)
Fixpoint drain_loop (fuel k : nat) (deadline timeout : Z) (obs : nat → Z * ElasticPool)
    : option (res Z) :=
  match fuel with
  | O => None
  | S fuel =>
      match drain_poll (obs k).1 deadline timeout (obs k).2 with
      | Some r => Some r
      | None => drain_loop fuel (S k) deadline timeout obs
      end
  end.

(** *** The auto-scaler *)

Definition cooldown_nanos (c : PoolConfig) : Z :=
  match scaling_policy c ≫= cooldown with
  | Some seconds => as_u64 seconds * nanos
  | None => 30 * nanos
  end.
Definition should_scale_up (now : Z) (p : ElasticPool) : bool :=
  match last_scale_up p with
  | Some last => cooldown_nanos (config p) <=? sat_sub now last
  | None => true
  end.
Definition should_scale_down (now : Z) (p : ElasticPool) : bool :=
  match last_scale_down p with
  | Some last => cooldown_nanos (config p) <=? sat_sub now last
  | None => true
  end.

Definition calculate_scale_amount (c : PoolConfig) (current_size : Z) : Z :=
  let policy := scaling_policy c in
  let strategy := default Incremental (policy ≫= λ p, Strategy_try_from (strategy p)) in
  let amount :=
    match strategy with
    | Incremental => 1
    | Percentage =>
        let factor := match policy with
                      | Some p => scale_factor p | None => f64_div (f64_of_Z 1) (f64_of_Z 2) end in
        f64_as_u32 (f64_max (f64_mul (f64_of_Z current_size) factor) (f64_of_Z 1))
    | Exponential => current_size
    | CustomStrategy => 1
    end in
  let min_step := match policy with Some p => min_scale_step p | None => 1 end in
  let max_step := match policy with Some p => max_scale_step p | None => 10 end in
  Z.min (Z.max amount min_step) max_step.

Definition scale_up (now : Z) (ulids : nat → string) (p : ElasticPool) : ElasticPool :=
  let to_add := calculate_scale_amount (config p) (len_u32 (map_to_list (workers p))) in
  let p := add_workers (fresh_ids ulids (Z.to_nat to_add)) p in
  refresh_metrics (set_scaling p (scaling_state p) (Some now) (last_scale_down p)).

(** [if let Some(worker_id) = available.pop_back() { workers.remove(&worker_id) }], repeated. *)
Fixpoint pop_back_workers (count : nat) (p : ElasticPool) : ElasticPool :=
  match count with
  | O => p
  | S count =>
      match last (available_workers p) with
      | Some w =>
          pop_back_workers count
            (set_workers p (delete w (workers p)) (removelast (available_workers p)))
      | None => pop_back_workers count p
      end
  end.
Definition scale_down (now : Z) (p : ElasticPool) : ElasticPool :=
  let to_remove := calculate_scale_amount (config p) (len_u32 (map_to_list (workers p))) in
  let p := pop_back_workers (Z.to_nat to_remove) p in
  refresh_metrics (set_scaling p (scaling_state p) (last_scale_up p) (Some now)).

(** One round of [auto_scaler_loop], after its sleep. *)
Definition auto_scaler_round (now : Z) (ulids : nat → string) (p : ElasticPool) : ElasticPool :=
  if bool_decide (scaling_state p = Paused) then p else
  let load := current_load (metrics p) in
  let total := total_actors (metrics p) in
  let p1 :=
    if f64_ltb (scaling_threshold (config p)) load && (total <? max_size (config p))
       && should_scale_up now p
    then scale_up now ulids p else p in
  if f64_ltb load (scale_down_threshold (config p)) && (min_size (config p) <? total)
     && should_scale_down now p1
  then scale_down now p1 else p1.

End Pool.

(** ** Running operations *)

Inductive Task :=
| CheckoutStart
| CheckoutTry
| CheckoutServe (w : string)
| CheckoutEnqueue
| CheckoutWaiting
| CheckoutDone (r : res ActorHandle)
| CheckinStart (w : string)
| CheckinDispatch (w : string)
| CheckinServe (w : string) (waiter : nat)
| CheckinRequeue (w : string)
| CheckinDone (r : res unit)
| ScaleTo (size : Z)
| Spawn (count : nat)
| Remove (count : nat)
| AutoScale
| Finished.

Record System := mkSystem { pool : ElasticPool; tasks : list Task; lost : list string }.

(** What a phase reads from its environment: the time and a stream of fresh identifiers. *)
Record Env := mkEnv { now : Z; ulids : nat → string }.

Module Run.

(** Task [i] continues with [t] and the pool [p]. *)
Definition next (i : nat) (t : Task) (p : ElasticPool) (s : System) : System :=
  mkSystem p (<[i := t]> (tasks s)) (lost s).

(** [response_tx.send(r)]: a waiter that has given up has dropped its receiver; the message is
    dropped with the handle in it, whose worker is then recorded in [lost]. *)
Definition send (i : nat) (r : res ActorHandle) (s : System) : System :=
  match tasks s !! i with
  | Some CheckoutWaiting => next i (CheckoutDone r) (pool s) s
  | _ => match r with
         | Ok h => mkSystem (pool s) (tasks s) (actor_id h :: lost s)
         | Err _ => s
         end
  end.

(** The next phase of task [i]; [None] when it is blocked or has returned. *)
Definition run_task (e : Env) (i : nat) (s : System) : option System :=
  let p := pool s in
  match tasks s !! i with
  | Some CheckoutStart =>
      Some (next i (if draining p then CheckoutDone (Err PoolDraining) else CheckoutTry) p s)
  | Some CheckoutTry =>
      let '(p, w) := Pool.pop_available p in
      Some (next i (match w with Some w => CheckoutServe w | None => CheckoutEnqueue end) p s)
  | Some (CheckoutServe w) =>
      let '(p, r) := Pool.checkout_worker (now e) (ulids e 0%nat) w p in
      Some (next i (CheckoutDone r) p s)
  | Some CheckoutEnqueue => Some (next i CheckoutWaiting (Pool.enqueue_waiter i p) s)
  | Some (CheckinStart w) =>
      Some (match Pool.checkin_mark w p with
            | Ok p => next i (CheckinDispatch w) p s
            | Err er => next i (CheckinDone (Err er)) p s
            end)
  | Some (CheckinDispatch w) =>
      let '(p, waiter) := Pool.pop_waiter p in
      Some (next i (match waiter with
                    | Some j => CheckinServe w j | None => CheckinRequeue w end) p s)
  | Some (CheckinServe w j) =>
      let '(p, r) := Pool.checkout_worker (now e) (ulids e 0%nat) w p in
      let s := send j r (next i (CheckinDone (Ok tt)) p s) in
      Some (match r with
            | Ok _ => mkSystem (Pool.update_metrics (pool s)) (tasks s) (lost s)
            | Err _ => mkSystem (Pool.push_available w (pool s)) (tasks s) (lost s)
            end)
  | Some (CheckinRequeue w) => Some (next i (CheckinDone (Ok tt)) (Pool.push_available w p) s)
  | Some (ScaleTo size) =>
      let current_size := Pool.len_u32 (map_to_list (workers p)) in
      Some (next i (if current_size <? size then Spawn (Z.to_nat (size - current_size))
                    else if size <? current_size then Remove (Z.to_nat (current_size - size))
                    else Finished) p s)
  | Some (Spawn count) =>
      Some (next i Finished (Pool.spawn_workers (Pool.fresh_ids (ulids e) count) p) s)
  | Some (Remove count) => Some (next i Finished (Pool.remove_workers count p).1 s)
  | Some AutoScale => Some (next i Finished (Pool.auto_scaler_round (now e) (ulids e) p) s)
  | Some CheckoutWaiting | Some (CheckoutDone _) | Some (CheckinDone _) | Some Finished
  | None => None
  end.

(** The time-out of a waiting checkout. *)
Definition expire (timeout : Z) (i : nat) (s : System) : option System :=
  match tasks s !! i with
  | Some CheckoutWaiting =>
      Some (next i (CheckoutDone (Err (CheckoutTimeout timeout))) (Pool.count_timeout (pool s)) s)
  | _ => None
  end.

(** The holder of the handle that task [i] returned gives it to a new call of [checkin]. *)
Definition checkin (i : nat) (s : System) : option System :=
  match tasks s !! i with
  | Some (CheckoutDone (Ok h)) =>
      Some (mkSystem (pool s) (<[i := Finished]> (tasks s) ++ [CheckinStart (actor_id h)]) (lost s))
  | _ => None
  end.

(** A call of an operation other than [checkin]. *)
Definition is_call (t : Task) : bool :=
  match t with CheckoutStart | ScaleTo _ | AutoScale => true | _ => false end.
Definition call (t : Task) (s : System) : System :=
  mkSystem (pool s) (tasks s ++ [t]) (lost s).

Definition fresh_env (e : Env) (s : System) : Prop :=
  Inj (=) (=) (ulids e) ∧ ∀ n, workers (pool s) !! ulids e n = None.

Inductive step : System → System → Prop :=
| step_run e i s s' : fresh_env e s → run_task e i s = Some s' → step s s'
| step_expire t i s s' : expire t i s = Some s' → step s s'
| step_checkin i s s' : checkin i s = Some s' → step s s'
| step_call t s : is_call t = true → step s (call t s)
| step_pause s : step s (mkSystem (Pool.pause_scaling (pool s)) (tasks s) (lost s))
| step_resume s : step s (mkSystem (Pool.resume_scaling (pool s)) (tasks s) (lost s))
| step_drain s : step s (mkSystem (Pool.set_draining (pool s)) (tasks s) (lost s))
| step_delete s : step s (mkSystem (Pool.delete_pool (pool s)) (tasks s) (lost s)).

Definition init (p : ElasticPool) : System := mkSystem p [] [].

(** The workers that a task has taken and not given back. *)
Definition owns (t : Task) : list string :=
  match t with
  | CheckoutServe w | CheckinStart w | CheckinDispatch w | CheckinServe w _ | CheckinRequeue w
  | CheckoutDone (Ok (mkHandle w _ _ _)) => [w]
  | _ => []
  end.
(** The workers that a task holds checked out. *)
Definition holds (t : Task) : list string :=
  match t with CheckinStart w | CheckoutDone (Ok (mkHandle w _ _ _)) => [w] | _ => [] end.
(** The workers that a task has taken but not, or no longer, holds checked out. *)
Definition idles (t : Task) : list string :=
  match t with
  | CheckoutServe w | CheckinDispatch w | CheckinServe w _ | CheckinRequeue w => [w] | _ => []
  end.
(** The waiter that a task is about to serve. *)
Definition serves (t : Task) : list nat :=
  match t with CheckinServe _ j => [j] | _ => [] end.

(** The identifiers of the pool's workers. *)
Definition keys (m : gmap string WorkerState) : list string := (map_to_list m).*1.

(** Every worker is available, taken by exactly one task, or lost. *)
Record good (p : ElasticPool) (ts : list Task) (lost : list string) : Prop := mkGood {
  good_perm : available_workers p ++ (ts ≫= owns) ++ lost ≡ₚ keys (workers p);
  good_available : ∀ w, w ∈ available_workers p ++ (ts ≫= idles) → workers p !! w = Some Available;
  good_busy : ∀ w, w ∈ (ts ≫= holds) ++ lost → workers p !! w = Some Busy
}.

(** Every waiting checkout is in the queue, or is being served. *)
Definition queued (s : System) : Prop := ∀ i, tasks s !! i = Some CheckoutWaiting →
  i ∈ checkout_queue (pool s) ++ (tasks s ≫= serves).

End Run.

(** ** Lemmas: the keys of the pool's map *)

Import Run.

Lemma elem_of_keys m w : w ∈ keys m ↔ is_Some (m !! w).
Proof.
  unfold keys. rewrite list_elem_of_fmap. split.
  - intros ([w' x] & -> & Hx%elem_of_map_to_list). eauto.
  - intros [x Hx]. exists (w, x). by rewrite elem_of_map_to_list.
Qed.

Lemma keys_NoDup m : NoDup (keys m).
Proof. apply NoDup_fst_map_to_list. Qed.

Lemma keys_fresh m w x : m !! w = None → keys (<[w := x]> m) ≡ₚ w :: keys m.
Proof. intros Hw. unfold keys. by rewrite (map_to_list_insert _ _ _ Hw). Qed.

Lemma keys_delete m w x : m !! w = Some x → keys m ≡ₚ w :: keys (delete w m).
Proof. intros Hw. unfold keys. by rewrite <-(map_to_list_delete _ _ _ Hw). Qed.

Lemma keys_present m w x y : m !! w = Some x → keys (<[w := y]> m) ≡ₚ keys m.
Proof.
  intros Hw. rewrite (keys_delete m w x Hw), <-(insert_delete_eq m), keys_fresh; [done|].
  apply lookup_delete_eq.
Qed.

Lemma foldl_insert_lookup (fresh : list string) (m : gmap string WorkerState) w :
  foldl (λ m id, <[id := Available]> m) m fresh !! w =
  if decide (w ∈ fresh) then Some Available else m !! w.
Proof.
  induction fresh as [|id fresh IH] using rev_ind; [done|]. rewrite foldl_snoc.
  destruct (decide (w = id)) as [->|Hw].
  - rewrite lookup_insert_eq, decide_True by set_solver. done.
  - rewrite lookup_insert_ne, IH by done. by do 2 case_decide; set_solver.
Qed.

Lemma foldl_insert_keys fresh m : NoDup fresh → (∀ id, id ∈ fresh → m !! id = None) →
  keys (foldl (λ m id, <[id := Available]> m) m fresh) ≡ₚ fresh ++ keys m.
Proof.
  revert m. induction fresh as [|id fresh IH]; intros m; [done|].
  intros [Hid Hnd]%NoDup_cons Hm. cbn [foldl]. rewrite IH; [|done|].
  - rewrite keys_fresh by (apply Hm; by left). symmetry. apply Permutation_middle.
  - intros id' Hid'. rewrite lookup_insert_ne by set_solver. apply Hm. by right.
Qed.

Lemma foldl_delete_lookup (ids : list string) (m : gmap string WorkerState) w :
  foldl (λ m id, delete id m) m ids !! w = if decide (w ∈ ids) then None else m !! w.
Proof.
  induction ids as [|id ids IH] using rev_ind; [done|]. rewrite foldl_snoc.
  destruct (decide (w = id)) as [->|Hw].
  - rewrite lookup_delete_eq, decide_True by set_solver. done.
  - rewrite lookup_delete_ne, IH by done. by do 2 case_decide; set_solver.
Qed.

Lemma foldl_delete_keys ids m : NoDup ids → (∀ id, id ∈ ids → is_Some (m !! id)) →
  keys m ≡ₚ ids ++ keys (foldl (λ m id, delete id m) m ids).
Proof.
  revert m. induction ids as [|id ids IH]; intros m; [done|].
  intros [Hid Hnd]%NoDup_cons Hm. cbn [foldl]. destruct (Hm id) as [x Hx]; [by left|].
  rewrite (keys_delete m id x Hx). simpl. f_equiv. apply IH; [done|].
  intros id' Hid'. rewrite lookup_delete_ne by set_solver. apply Hm. by right.
Qed.

Lemma fresh_ids_NoDup f n : Inj (=) (=) f → NoDup (Pool.fresh_ids f n).
Proof. intros Hf. apply NoDup_fmap_2; [done | apply NoDup_seq]. Qed.

Lemma fresh_ids_length f n : length (Pool.fresh_ids f n) = n.
Proof. unfold Pool.fresh_ids. by rewrite length_fmap, length_seq. Qed.

(** ** Lemmas: pools that grow and shrink *)

(** [p'] is [p] with some fresh workers more. *)
Definition grown (p p' : ElasticPool) : Prop := ∃ fresh,
  NoDup fresh ∧ (∀ id, id ∈ fresh → workers p !! id = None) ∧
  available_workers p' = available_workers p ++ fresh ∧
  workers p' = foldl (λ m id, <[id := Available]> m) (workers p) fresh ∧
  checkout_queue p' = checkout_queue p.

(** [p'] is [p] without some of the available workers. *)
Definition shrunk (p p' : ElasticPool) : Prop := ∃ removed,
  available_workers p ≡ₚ removed ++ available_workers p' ∧
  workers p' = foldl (λ m id, delete id m) (workers p) removed ∧
  checkout_queue p' = checkout_queue p.

Lemma shrunk_refl p : shrunk p p.
Proof. by exists []. Qed.

Lemma filter_not_in (id : string) av : id ∉ av →
  List.filter (λ x, negb (bool_decide (x = id))) av = av.
Proof.
  induction av as [|x av IH]; [done|]. rewrite not_elem_of_cons. intros [Hx Hav].
  cbn [List.filter]. rewrite bool_decide_eq_false_2 by done. cbn [negb]. by rewrite IH.
Qed.

Lemma retain_prefix (ids av : list string) : NoDup (ids ++ av) →
  foldl (λ av id, List.filter (λ x, negb (bool_decide (x = id))) av) (ids ++ av) ids = av.
Proof.
  induction ids as [|id ids IH]; [done|]. rewrite <-app_comm_cons.
  intros [Hid Hnd]%NoDup_cons. cbn [foldl List.filter].
  rewrite bool_decide_eq_true_2 by done. cbn [negb].
  rewrite (filter_not_in id) by done. by apply IH.
Qed.

Lemma remove_all_available n p : NoDup (available_workers p) →
  available_workers (Pool.remove_all (take n (available_workers p)) p) =
  drop n (available_workers p).
Proof.
  intros Hnd. cbn. pose proof (take_drop n (available_workers p)) as Htd.
  rewrite <-Htd in Hnd. rewrite <-Htd at 1. by apply retain_prefix.
Qed.

Lemma remove_workers_shrunk n p : NoDup (available_workers p) →
  shrunk p (Pool.remove_workers n p).1.
Proof.
  intros Hnd. exists (take n (available_workers p)). split_and!; [|done|done].
  change (available_workers (Pool.remove_workers n p).1)
    with (available_workers (Pool.remove_all (take n (available_workers p)) p)).
  by rewrite remove_all_available, take_drop.
Qed.

Lemma last_removelast {A} (l : list A) x : last l = Some x → l = removelast l ++ [x].
Proof.
  intros (l' & ->)%last_Some. by rewrite List.removelast_last.
Qed.

Lemma pop_back_shrunk n p : shrunk p (Pool.pop_back_workers n p).
Proof.
  revert p. induction n as [|n IH]; intros p; [apply shrunk_refl|]. cbn [Pool.pop_back_workers].
  destruct (last (available_workers p)) as [w|] eqn:Hlast; [|by apply IH].
  destruct (IH (Pool.set_workers p (delete w (workers p)) (removelast (available_workers p))))
    as (ids & Hp & Hw & Hq). exists (w :: ids). split_and!; [|done|done].
  transitivity (w :: removelast (available_workers p)).
  - rewrite (last_removelast _ _ Hlast) at 1. symmetry. apply Permutation_cons_append.
  - simpl. by f_equiv.
Qed.

Lemma add_workers_grown f n p : Inj (=) (=) f → (∀ k, workers p !! f k = None) →
  grown p (Pool.add_workers (Pool.fresh_ids f n) p).
Proof.
  intros Hf Hfresh. exists (Pool.fresh_ids f n). split_and!; try done.
  - by apply fresh_ids_NoDup.
  - intros id (k & -> & _)%list_elem_of_fmap. apply Hfresh.
Qed.

(** ** Lemmas: lists of tasks *)

(** The tasks other than the [i]th. *)
Definition others (i : nat) (ts : list Task) : list Task := take i ts ++ drop (S i) ts.

Lemma others_lookup i t ts : ts !! i = Some t → ts ≡ₚ t :: others i ts.
Proof. intros Hi. rewrite <-(take_drop_middle ts i t Hi) at 1. symmetry. apply Permutation_middle. Qed.

Lemma others_insert i t t' ts : ts !! i = Some t → <[i := t']> ts ≡ₚ t' :: others i ts.
Proof.
  intros Hi. rewrite insert_take_drop by (by eapply lookup_lt_Some).
  symmetry. apply Permutation_middle.
Qed.

#[export] Instance good_proper : Proper ((=) ==> (≡ₚ) ==> (≡ₚ) ==> iff) good.
Proof.
  intros p ? <- ts ts' Hts l l' Hl. split; intros [H1 H2 H3]; split; try done.
  - by rewrite <-Hts, <-Hl.
  - intros w. rewrite <-Hts. apply H2.
  - intros w. rewrite <-Hts, <-Hl. apply H3.
  - by rewrite Hts, Hl.
  - intros w. rewrite Hts. apply H2.
  - intros w. rewrite Hts, Hl. apply H3.
Qed.

Lemma holds_owns t w : w ∈ holds t → w ∈ owns t.
Proof. destruct t as [| | | | | [[]|] | | | | | | | | | |]; cbn; set_solver. Qed.

Lemma idles_owns t w : w ∈ idles t → w ∈ owns t.
Proof. destruct t as [| | | | | [[]|] | | | | | | | | | |]; cbn; set_solver. Qed.

Lemma bind_holds_owns ts w : w ∈ ts ≫= holds → w ∈ ts ≫= owns.
Proof. rewrite !list_elem_of_bind. naive_solver eauto using holds_owns. Qed.

Lemma bind_idles_owns ts w : w ∈ ts ≫= idles → w ∈ ts ≫= owns.
Proof. rewrite !list_elem_of_bind. naive_solver eauto using idles_owns. Qed.

(** ** The invariant is kept by the changes to the pool *)

Section good_facts.
Context (p : ElasticPool) (t : Task) (ts : list Task) (l : list string).
Context (Hg : good p (t :: ts) l).

Lemma good_NoDup : NoDup (available_workers p ++ owns t ++ (ts ≫= owns) ++ l).
Proof.
  pose proof (keys_NoDup (workers p)) as H. rewrite <-(good_perm _ _ _ Hg) in H.
  cbn in H. by rewrite (assoc_L (++) (owns t)).
Qed.

Lemma good_key w : w ∈ available_workers p ++ owns t ++ (ts ≫= owns) ++ l →
  is_Some (workers p !! w).
Proof.
  intros Hw. apply elem_of_keys. rewrite <-(good_perm _ _ _ Hg). cbn.
  by rewrite <-(assoc_L (++) (owns t)).
Qed.

Lemma good_available_NoDup : NoDup (available_workers p).
Proof. pose proof good_NoDup as H. by apply NoDup_app in H as [? _]. Qed.

(** What a task has taken nobody else has. *)
Lemma good_alone w : owns t = [w] →
  is_Some (workers p !! w) ∧ (w ∉ available_workers p) ∧ w ∉ (ts ≫= owns) ++ l.
Proof.
  intros Ho. pose proof good_NoDup as Hnd. pose proof (good_key w) as Hk. rewrite Ho in *.
  split_and!.
  - apply Hk. set_solver.
  - apply NoDup_app in Hnd as (_ & H & _). intros Hw. apply (H w Hw). set_solver.
  - apply NoDup_app in Hnd as (_ & _ & H). by apply NoDup_cons in H as [? _].
Qed.
End good_facts.

(** A change that keeps the workers and who has them. *)
Lemma good_ext p p' t t' ts l : good p (t :: ts) l →
  workers p' = workers p → available_workers p' = available_workers p →
  owns t' = owns t → (∀ w, w ∈ holds t' → w ∈ holds t) → (∀ w, w ∈ idles t' → w ∈ idles t) →
  good p' (t' :: ts) l.
Proof.
  intros [H1 H2 H3] Hw Ha Ho Hh Hi. split; rewrite ?Hw, ?Ha; cbn in *; rewrite ?Ho; [done| |].
  - intros w Hin. apply H2. set_solver.
  - intros w Hin. apply H3. set_solver.
Qed.

(** A task takes a worker that was available. *)
Lemma good_pop p t ts l w rest q : good p (t :: ts) l → owns t = [] → q = workers p →
  available_workers p = w :: rest → good (Pool.set_workers p q rest) (CheckoutServe w :: ts) l.
Proof.
  intros [H1 H2 H3] Ho -> Ha. split; cbn in *.
  - rewrite <-H1, Ha, Ho. solve_Permutation.
  - intros w' Hw'. apply H2. rewrite Ha. set_solver.
  - intros w' Hw'. apply H3. set_solver.
Qed.

(** The state of a worker changes while a task has it. *)
Lemma good_mark p t t' ts l w x : good p (t :: ts) l → owns t = [w] → owns t' = [w] →
  (holds t' = [] ∨ x = Busy) → (idles t' = [] ∨ x = Available) →
  good (Pool.set_workers p (<[w := x]> (workers p)) (available_workers p)) (t' :: ts) l.
Proof.
  intros Hg Ho Ho' Hx Hx'. destruct (good_alone p t ts l Hg w Ho) as ([y Hy] & Hav & Hot).
  pose proof (bind_holds_owns ts) as Hb. pose proof (bind_idles_owns ts) as Hb'.
  destruct Hg as [H1 H2 H3]. split; cbn in *.
  - rewrite (keys_present _ _ _ _ Hy), <-H1, Ho, Ho'. done.
  - intros w' Hw'. destruct (decide (w' = w)) as [->|Hne].
    + destruct Hx' as [Hx'| ->]; [|apply lookup_insert_eq]. rewrite Hx' in Hw'. exfalso.
      specialize (Hb' w). set_solver.
    + rewrite lookup_insert_ne by done. apply H2.
      pose proof (idles_owns t' w') as Hh. rewrite Ho' in Hh. set_solver.
  - intros w' Hw'. destruct (decide (w' = w)) as [->|Hne].
    + destruct Hx as [Hx| ->]; [|apply lookup_insert_eq]. rewrite Hx in Hw'. exfalso.
      specialize (Hb w). set_solver.
    + rewrite lookup_insert_ne by done. apply H3.
      pose proof (holds_owns t' w') as Hh. rewrite Ho' in Hh. set_solver.
Qed.

(** A task gives its worker back. *)
Lemma good_push p t t' ts l w : good p (t :: ts) l → owns t = [w] → idles t = [w] →
  owns t' = [] → good (Pool.push_available w p) (t' :: ts) l.
Proof.
  intros [H1 H2 H3] Ho Hid Ho'. pose proof (idles_owns t') as Hi. pose proof (holds_owns t') as Hh.
  rewrite Ho' in *. split; cbn in *.
  - rewrite <-H1, Ho, Ho'. solve_Permutation.
  - intros w' Hw'. apply H2. rewrite Hid. specialize (Hi w'). set_solver.
  - intros w' Hw'. apply H3. specialize (Hh w'). set_solver.
Qed.

Lemma good_grown p p' ts l : good p ts l → grown p p' → good p' ts l.
Proof.
  intros [H1 H2 H3] (fresh & Hnd & Hf & Ha & Hw & _).
  assert (Hold : ∀ w x, workers p !! w = Some x → workers p' !! w = Some x).
  { intros w x Hx. rewrite Hw, foldl_insert_lookup, decide_False; [done|].
    intros Hin. by rewrite (Hf w Hin) in Hx. }
  split.
  - rewrite Ha, Hw, foldl_insert_keys by done. rewrite <-H1. solve_Permutation.
  - intros w. rewrite Ha. destruct (decide (w ∈ fresh)) as [Hin|Hin].
    + by rewrite Hw, foldl_insert_lookup, decide_True.
    + intros Hin'. apply Hold, H2. set_solver.
  - intros w Hin. by apply Hold, H3.
Qed.

Lemma good_shrunk p p' ts l : good p ts l → shrunk p p' → good p' ts l.
Proof.
  intros Hg (ids & Ha & Hw & _).
  assert (Hnd : NoDup (ids ++ available_workers p' ++ (ts ≫= owns) ++ l)).
  { rewrite (assoc_L (++) ids), <-Ha, (good_perm _ _ _ Hg). apply keys_NoDup. }
  assert (Hids : ∀ w, w ∈ ids → w ∉ available_workers p' ++ (ts ≫= owns) ++ l)
    by (intros w; apply NoDup_app in Hnd as (_ & H & _); apply H).
  destruct Hg as [H1 H2 H3]. split.
  - apply (Permutation_app_inv_l ids). rewrite Hw, <-foldl_delete_keys.
    + rewrite <-H1, Ha. solve_Permutation.
    + by apply NoDup_app in Hnd as [? _].
    + intros w Hin. apply elem_of_keys. rewrite <-H1, Ha. set_solver.
  - intros w Hin. rewrite Hw, foldl_delete_lookup, decide_False.
    + apply H2. rewrite Ha. set_solver.
    + intros Hin'. apply (Hids w Hin'). pose proof (bind_idles_owns ts w). set_solver.
  - intros w Hin. rewrite Hw, foldl_delete_lookup, decide_False; [by apply H3|].
    intros Hin'. apply (Hids w Hin'). pose proof (bind_holds_owns ts w). set_solver.
Qed.

Lemma good_fields p p' ts l : workers p' = workers p →
  available_workers p' = available_workers p → good p ts l → good p' ts l.
Proof. intros Hw Ha [H1 H2 H3]. split; by rewrite ?Hw, ?Ha. Qed.

(** A checked-out worker changes hands between a task and the lost ones. *)
Lemma good_lose p t ts l w : good p (CheckinStart w :: ts) l → owns t = [] →
  good p (t :: ts) (w :: l).
Proof.
  intros [H1 H2 H3] Ho. pose proof (idles_owns t) as Hi. pose proof (holds_owns t) as Hh.
  rewrite Ho in *. split; cbn in *.
  - rewrite <-H1, Ho. solve_Permutation.
  - intros w' Hw'. apply H2. specialize (Hi w'). set_solver.
  - intros w' Hw'. apply H3. specialize (Hh w'). set_solver.
Qed.

Lemma good_find p h t ts l : good p (t :: ts) (actor_id h :: l) → owns t = [] →
  good p (CheckoutDone (Ok h) :: ts) l.
Proof.
  destruct h as [w pn ct ci]. intros [H1 H2 H3] Ho. split; cbn in *.
  - rewrite <-H1, Ho. solve_Permutation.
  - intros w' Hw'. apply H2. set_solver.
  - intros w' Hw'. apply H3. set_solver.
Qed.

Lemma send_good j r p ts l : good p ts (match r with Ok h => actor_id h :: l | Err _ => l end) →
  let s := send j r (mkSystem p ts l) in good (pool s) (tasks s) (lost s).
Proof.
  intros Hg. unfold send. cbn [tasks].
  destruct (ts !! j) as [t|] eqn:Hj; [|by destruct r].
  destruct t; try by destruct r. cbn.
  rewrite (others_insert j CheckoutWaiting) by done.
  rewrite (others_lookup j CheckoutWaiting ts Hj) in Hg.
  destruct r as [h|er]; [by eapply good_find|].
  eapply good_ext; [exact Hg|done..].
Qed.

Lemma checkout_worker_ok wall id w p x : workers p !! w = Some x →
  Pool.checkout_worker wall id w p =
  (Pool.update_metrics (Pool.count_checkout
     (Pool.set_workers p (<[w := Busy]> (workers p)) (available_workers p))),
   Ok (mkHandle w (cfg_name (config p)) (Some wall) id)).
Proof. intros Hw. unfold Pool.checkout_worker. by rewrite Hw. Qed.

Lemma scale_up_grown nw f p : Inj (=) (=) f → (∀ k, workers p !! f k = None) →
  grown p (Pool.scale_up nw f p).
Proof.
  intros Hf Hp. destruct (add_workers_grown f
    (Z.to_nat (Pool.calculate_scale_amount (config p) (Pool.len_u32 (map_to_list (workers p)))))
    p Hf Hp) as (fr & ?). by exists fr.
Qed.

Lemma scale_down_shrunk nw p : shrunk p (Pool.scale_down nw p).
Proof.
  destruct (pop_back_shrunk (Z.to_nat (Pool.calculate_scale_amount (config p)
    (Pool.len_u32 (map_to_list (workers p))))) p) as (ids & ?). by exists ids.
Qed.

Lemma auto_scaler_round_shape nw f p : Inj (=) (=) f → (∀ k, workers p !! f k = None) →
  ∃ p1, (p1 = p ∨ grown p p1) ∧
    (Pool.auto_scaler_round nw f p = p1 ∨ shrunk p1 (Pool.auto_scaler_round nw f p)).
Proof.
  intros Hf Hp. unfold Pool.auto_scaler_round. case_bool_decide; [by eauto|]. cbn zeta.
  set (p1 := if _ && _ && _ then Pool.scale_up nw f p else p). exists p1. split.
  - subst p1. case_match; [right; by apply scale_up_grown | by left].
  - case_match; [right; apply scale_down_shrunk | by left].
Qed.

Lemma auto_scaler_round_good nw f p ts l : Inj (=) (=) f → (∀ k, workers p !! f k = None) →
  good p ts l → good (Pool.auto_scaler_round nw f p) ts l.
Proof.
  intros Hf Hp Hg. destruct (auto_scaler_round_shape nw f p Hf Hp) as (p1 & Hp1 & Hr).
  assert (good p1 ts l) by (destruct Hp1 as [->|?]; [done | by eapply good_grown]).
  destruct Hr as [->|?]; [done | by eapply good_shrunk].
Qed.

Lemma remove_workers_good n p ts l : good p ts l → good (Pool.remove_workers n p).1 ts l.
Proof.
  intros Hg. eapply good_shrunk; [exact Hg|]. apply remove_workers_shrunk.
  pose proof (keys_NoDup (workers p)) as H. rewrite <-(good_perm _ _ _ Hg) in H.
  by apply NoDup_app in H as [? _].
Qed.

(** The invariant is kept by every phase. *)
Lemma run_task_good e i s s' : good (pool s) (tasks s) (lost s) → fresh_env e s →
  run_task e i s = Some s' → good (pool s') (tasks s') (lost s').
Proof.
  destruct s as [p ts l]. cbn. intros Hg [Hinj Hfr]. unfold run_task. cbn [tasks pool lost].
  destruct (ts !! i) as [t|] eqn:Hi; [|done].
  rewrite (others_lookup i t ts Hi) in Hg.
  pose proof (λ t', others_insert i t t' ts Hi) as Hins. cbn in Hfr.
  destruct t; intros Hs; try done.
  - injection Hs as <-. cbn. rewrite Hins. by eapply good_ext; [exact Hg|..]; destruct (draining p).
  - unfold Pool.pop_available in Hs. destruct (available_workers p) as [|w av] eqn:Hav;
      injection Hs as <-; cbn; rewrite Hins.
    + by eapply good_ext.
    + by eapply good_pop.
  - destruct (good_alone p _ _ l Hg w eq_refl) as ([x Hx] & _).
    rewrite (checkout_worker_ok _ _ _ _ x Hx) in Hs. injection Hs as <-. cbn. rewrite Hins.
    by eapply good_fields; [| |eapply (good_mark p _ _ _ l w Busy); [exact Hg|..]]; auto.
  - injection Hs as <-. cbn. rewrite Hins. by eapply good_ext.
  - destruct (good_alone p _ _ l Hg w eq_refl) as ([x Hx] & _).
    unfold Pool.checkin_mark in Hs. rewrite Hx in Hs. injection Hs as <-. cbn. rewrite Hins.
    by eapply good_fields; [| |eapply (good_mark p _ _ _ l w Available); [exact Hg|..]]; auto.
  - unfold Pool.pop_waiter in Hs. destruct (checkout_queue p); injection Hs as <-; cbn;
      rewrite Hins; by eapply good_ext.
  - destruct (good_alone p _ _ l Hg w eq_refl) as ([x Hx] & _).
    rewrite (checkout_worker_ok _ _ _ _ x Hx) in Hs. injection Hs as <-. cbn.
    match goal with |- good (Pool.update_metrics (pool ?s)) _ _ =>
      apply (good_fields (pool s) (Pool.update_metrics (pool s)) _ _ eq_refl eq_refl) end.
    apply send_good. cbn. rewrite Hins.
    apply good_lose; [|done].
    by eapply good_fields; [| |eapply (good_mark p _ _ _ l w Busy); [exact Hg|..]]; auto.
  - injection Hs as <-. cbn. rewrite Hins. by eapply good_push.
  - injection Hs as <-. cbn. rewrite Hins. eapply good_ext; [exact Hg|..]; try done.
    all: repeat case_match; done.
  - injection Hs as <-. cbn [next pool tasks lost]. rewrite Hins.
    apply (good_ext (Pool.spawn_workers (Pool.fresh_ids (ulids e) count) p) _ (Spawn count));
      try done. eapply good_grown; [exact Hg|].
    destruct (add_workers_grown (ulids e) count p Hinj Hfr) as (fr & ?). by exists fr.
  - injection Hs as <-. cbn [next pool tasks lost]. rewrite Hins.
    apply (good_ext (Pool.remove_workers count p).1 _ (Remove count)); try done.
    by apply remove_workers_good.
  - injection Hs as <-. cbn [next pool tasks lost]. rewrite Hins.
    apply (good_ext (Pool.auto_scaler_round (now e) (ulids e) p) _ AutoScale); try done.
    by apply auto_scaler_round_good.
Qed.

Lemma good_snoc p ts l t : good p ts l → owns t = [] → good p (ts ++ [t]) l.
Proof.
  intros [H1 H2 H3] Ho. pose proof (idles_owns t) as Hi. pose proof (holds_owns t) as Hh.
  rewrite Ho in *. split; rewrite ?bind_app; cbn.
  - by rewrite Ho, !app_nil_r.
  - intros w Hw. apply H2. specialize (Hi w). set_solver.
  - intros w Hw. apply H3. specialize (Hh w). set_solver.
Qed.

Lemma step_good s s' : good (pool s) (tasks s) (lost s) → step s s' →
  good (pool s') (tasks s') (lost s').
Proof.
  intros Hg Hs. destruct Hs as [e i s s' Hf Hr|tm i s s' He|i s s' Hc|t s Ht|s|s|s|s].
  - by eapply run_task_good.
  - unfold expire in He. destruct (tasks s !! i) as [[]|] eqn:Hi; try done. injection He as <-. cbn.
    rewrite (others_insert i _ _ _ Hi). rewrite (others_lookup i _ _ Hi) in Hg. by eapply good_ext.
  - unfold checkin in Hc. destruct (tasks s !! i) as [[| | | | |[h|]| | | | | | | | | |]|] eqn:Hi;
      try done. injection Hc as <-. cbn.
    rewrite (others_insert i _ _ _ Hi). rewrite (others_lookup i _ _ Hi) in Hg.
    rewrite <-Permutation_cons_append, (Permutation_swap Finished).
    destruct h as [w pn ct ci]. destruct Hg as [H1 H2 H3]. by split.
  - cbn. apply good_snoc; [done|]. by destruct t.
  - cbn. by eapply good_fields; [| |exact Hg].
  - cbn. by eapply good_fields; [| |exact Hg].
  - cbn. by eapply good_fields; [| |exact Hg].
  - cbn [pool tasks lost]. unfold Pool.delete_pool. apply remove_workers_good. by eapply good_fields; [| |exact Hg].
Qed.

Lemma init_good p : NoDup (available_workers p) →
  workers p = foldl (λ m id, <[id := Available]> m) ∅ (available_workers p) → good p [] [].
Proof.
  intros Hnd Hw. split; cbn.
  - rewrite Hw, foldl_insert_keys by done. cbn. by rewrite !app_nil_r.
  - intros w. rewrite app_nil_r. intros Hin. by rewrite Hw, foldl_insert_lookup, decide_True.
  - by intros w ?%not_elem_of_nil.
Qed.

Lemma new_good c f p : Inj (=) (=) f →
  Pool.new (Pool.fresh_ids f (Z.to_nat (initial_size c))) c = Ok p → good p [] [].
Proof.
  intros Hf. unfold Pool.new. repeat case_match; try done. intros [= <-].
  apply init_good; cbn; [by apply fresh_ids_NoDup | done].
Qed.

Lemma reachable_good p s : good p [] [] → steps step (init p) s →
  good (pool s) (tasks s) (lost s).
Proof.
  intros Hg. apply (steps_invariant step (λ s, good (pool s) (tasks s) (lost s)));
    [intros s1 s2; apply step_good | done].
Qed.

(** ** Waiters *)

Lemma serves_lookup i t ts k : ts !! i = Some t →
  k ∈ ts ≫= serves ↔ k ∈ serves t ∨ k ∈ others i ts ≫= serves.
Proof.
  intros Hi. transitivity (k ∈ (t :: others i ts) ≫= serves); [|apply elem_of_app].
  by rewrite <-(others_lookup i t ts Hi).
Qed.

Lemma serves_insert i t t' ts k : ts !! i = Some t →
  k ∈ <[i := t']> ts ≫= serves ↔ k ∈ serves t' ∨ k ∈ others i ts ≫= serves.
Proof. intros Hi. rewrite (others_insert i t t' ts Hi). cbn. apply elem_of_app. Qed.

(** A task moves on; the waiters that it was to serve, and the queue, are passed on. *)
Lemma queued_next i t t' p s : queued s → tasks s !! i = Some t →
  (t' = CheckoutWaiting → i ∈ checkout_queue p) →
  (∀ k, k ∈ checkout_queue (pool s) → k ∈ checkout_queue p ∨ k ∈ serves t') →
  (∀ k, k ∈ serves t → k ∈ serves t') →
  queued (next i t' p s).
Proof.
  intros Hq Hi Hw Hp Ht k. cbn. intros Hk. rewrite elem_of_app, (serves_insert i t) by done.
  destruct (decide (k = i)) as [->|Hne].
  - rewrite list_lookup_insert_eq in Hk by (by eapply lookup_lt_Some). simplify_eq. auto.
  - rewrite list_lookup_insert_ne in Hk by done. specialize (Hq k Hk).
    rewrite elem_of_app, (serves_lookup i t) in Hq by done. naive_solver.
Qed.

(** A send serves its waiter and nobody else. *)
Lemma send_waiting j h s k : tasks (send j h s) !! k = Some CheckoutWaiting →
  tasks s !! k = Some CheckoutWaiting ∧ k ≠ j.
Proof.
  unfold send. destruct (tasks s !! j) as [t|] eqn:Hj.
  - destruct t; try (destruct h; cbn; intros Hk; (split; [done | intros ->; congruence])).
    cbn [next tasks]. destruct (decide (k = j)) as [->|].
    + by rewrite list_lookup_insert_eq by (by eapply lookup_lt_Some).
    + by rewrite list_lookup_insert_ne.
  - destruct h; cbn; intros Hk; (split; [done | intros ->; congruence]).
Qed.

Lemma send_keeps j h s k : k ≠ j → tasks s !! k = Some CheckoutWaiting →
  tasks (send j h s) !! k = Some CheckoutWaiting.
Proof.
  intros Hkj Hk. unfold send. destruct (tasks s !! j) as [[]|]; try (by destruct h).
  cbn [next tasks]. by rewrite list_lookup_insert_ne.
Qed.

Lemma send_serves j h s x : x ∈ tasks (send j h s) ≫= serves ↔ x ∈ tasks s ≫= serves.
Proof.
  unfold send. destruct (tasks s !! j) as [t|] eqn:Hj; [|by destruct h].
  destruct t; try by destruct h. cbn [next tasks].
  rewrite (serves_insert j CheckoutWaiting), (serves_lookup j CheckoutWaiting (tasks s)) by done.
  reflexivity.
Qed.

Lemma send_queue j h s : checkout_queue (pool (send j h s)) = checkout_queue (pool s).
Proof. unfold send. destruct (tasks s !! j) as [[]|]; by destruct h. Qed.

Lemma send_queued i j r p s : queued s → tasks s !! i = Some (CheckinServe r j) →
  checkout_queue p = checkout_queue (pool s) →
  ∀ h, queued (send j h (next i (CheckinDone (Ok tt)) p s)).
Proof.
  intros Hq Hi Hp h k [Hk1 Hkj]%send_waiting. rewrite elem_of_app, send_queue, send_serves.
  cbn [next tasks pool] in *. rewrite Hp. destruct (decide (k = i)) as [->|Hne].
  - by rewrite list_lookup_insert_eq in Hk1 by (by eapply lookup_lt_Some).
  - rewrite list_lookup_insert_ne in Hk1 by done. specialize (Hq k Hk1).
    rewrite (serves_insert i (CheckinServe r j)) by done.
    rewrite elem_of_app, (serves_lookup i (CheckinServe r j)) in Hq by done. set_solver.
Qed.

(** Every phase but that of a check-in that serves a waiter leaves the queue as it is, at most
    longer. *)
Lemma auto_scaler_round_queue nw f p :
  checkout_queue (Pool.auto_scaler_round nw f p) = checkout_queue p.
Proof.
  unfold Pool.auto_scaler_round. case_bool_decide; [done|]. cbn zeta.
  set (p1 := if _ && _ && _ then Pool.scale_up nw f p else p).
  assert (Hp1 : checkout_queue p1 = checkout_queue p) by (subst p1; by case_match).
  rewrite <-Hp1. case_match; [|done].
  destruct (scale_down_shrunk nw p1) as (ids & _ & _ & ->). done.
Qed.

Lemma checkout_worker_queue wall id w p :
  checkout_queue (Pool.checkout_worker wall id w p).1 = checkout_queue p.
Proof. unfold Pool.checkout_worker. by destruct (workers p !! w). Qed.

Lemma run_task_queued e i s s' : queued s → run_task e i s = Some s' → queued s'.
Proof.
  intros Hq. unfold run_task. destruct (tasks s !! i) as [t|] eqn:Hi; [|done].
  pose proof (λ t' p, queued_next i t t' p s Hq Hi) as Hn.
  destruct t; intros Hs; try done.
  - injection Hs as <-. apply Hn; [by destruct (draining _)|intros; by left|by intros ? ?%not_elem_of_nil].
  - unfold Pool.pop_available in Hs. destruct (available_workers (pool s)); injection Hs as <-;
      (apply Hn; [done|intros; by left|by intros ? ?%not_elem_of_nil]).
  - pose proof (checkout_worker_queue (now e) (ulids e 0%nat) w (pool s)) as Hcw.
    destruct (Pool.checkout_worker _ _ _ _) as [p r]. injection Hs as <-.
    apply Hn; [done| |by intros ? ?%not_elem_of_nil]. intros k Hk. left. by rewrite (Hcw : checkout_queue p = _).
  - injection Hs as <-. apply Hn; [|intros k Hk; left|by intros ? ?%not_elem_of_nil]; cbn; set_solver.
  - unfold Pool.checkin_mark in Hs. destruct (workers (pool s) !! w); injection Hs as <-;
      (apply Hn; [done|intros; by left|by intros ? ?%not_elem_of_nil]).
  - unfold Pool.pop_waiter in Hs. destruct (checkout_queue (pool s)) as [|j q] eqn:Hcq;
      injection Hs as <-; (apply Hn; [done| |by intros ? ?%not_elem_of_nil]); [intros; left; by rewrite Hcq|].
    intros k Hk. rewrite ?Hcq in Hk. cbn. set_solver.
  - pose proof (checkout_worker_queue (now e) (ulids e 0%nat) w (pool s)) as Hcw.
    destruct (Pool.checkout_worker _ _ _ _) as [p r]. cbn in Hcw.
    pose proof (send_queued i waiter w p s Hq Hi Hcw r) as Hsq.
    destruct r; injection Hs as <-; exact Hsq.
  - injection Hs as <-. apply Hn; [done|intros; by left|by intros ? ?%not_elem_of_nil].
  - injection Hs as <-. apply Hn; [|intros; by left|by intros ? ?%not_elem_of_nil]. repeat case_match; done.
  - injection Hs as <-. apply Hn; [done|intros; by left|by intros ? ?%not_elem_of_nil].
  - injection Hs as <-. apply Hn; [done|intros; by left|by intros ? ?%not_elem_of_nil].
  - injection Hs as <-. apply Hn; [done| |by intros ? ?%not_elem_of_nil]. intros; left. by rewrite auto_scaler_round_queue.
Qed.

Lemma queued_snoc t p s l : queued s → t ≠ CheckoutWaiting →
  checkout_queue p = checkout_queue (pool s) → queued (mkSystem p (tasks s ++ [t]) l).
Proof.
  intros Hq Ht Hp k. cbn. rewrite Hp, bind_app, (assoc_L (++)). intros Hk. apply elem_of_app. left.
  apply lookup_app_Some in Hk as [Hk|[_ Hk]]; [by apply Hq|].
  by apply list_lookup_singleton_Some in Hk as [_ ->].
Qed.

Lemma step_queued s s' : queued s → step s s' → queued s'.
Proof.
  intros Hq Hs. destruct Hs as [e i s s' Hf Hr|tm i s s' He|i s s' Hc|t s Ht|s|s|s|s]; try exact Hq.
  - by eapply run_task_queued.
  - unfold expire in He. destruct (tasks s !! i) as [[]|] eqn:Hi; try done. injection He as <-.
    apply (queued_next i _ _ _ s Hq Hi); [done|intros; by left|done].
  - unfold checkin in Hc. destruct (tasks s !! i) as [[| | | | |[h|]| | | | | | | | | |]|] eqn:Hi;
      try done. injection Hc as <-.
    apply (queued_snoc _ (pool s) (next i Finished (pool s) s)); [|done..].
    apply (queued_next i _ _ _ s Hq Hi); [done|intros; by left|done].
  - apply queued_snoc; [done| |done]. by destruct t.
Qed.

(** ** Executable runs *)

(** An action of a run; the fresh identifiers of [ARun c] start with the character [c]. *)
Inductive Act :=
| ARun (c : Ascii.ascii) (now : Z) (i : nat)
| AExpire (timeout : Z) (i : nat)
| ACheckin (i : nat)
| ACall (t : Task)
| ADrain.

Definition stream (c : Ascii.ascii) (n : nat) : string := String c (pretty n).
#[local] Arguments ARun c%_char now%_Z i%_nat.
#[local] Arguments stream c%_char n%_nat.
Definition starts_with (c : Ascii.ascii) (s : string) : bool :=
  match s with String c' _ => bool_decide (c' = c) | _ => false end.
Definition env_ok (c : Ascii.ascii) (s : System) : bool :=
  forallb (λ id, negb (starts_with c id)) (keys (workers (pool s))).

Definition exec_act (a : Act) (s : System) : option System :=
  match a with
  | ARun c now i => if env_ok c s then run_task (mkEnv now (stream c)) i s else None
  | AExpire t i => expire t i s
  | ACheckin i => checkin i s
  | ACall t => if is_call t then Some (call t s) else None
  | ADrain => Some (mkSystem (Pool.set_draining (pool s)) (tasks s) (lost s))
  end.
Definition exec (acts : list Act) (s : System) : option System :=
  foldl (λ os a, os ≫= exec_act a) (Some s) acts.

Lemma stream_inj c : Inj (=) (=) (stream c).
Proof. intros n m [= H]. by apply (inj pretty) in H. Qed.

Lemma env_ok_fresh c now s : env_ok c s = true → fresh_env (mkEnv now (stream c)) s.
Proof.
  intros Hok. split; [apply stream_inj|]. intros n. cbn.
  destruct (workers (pool s) !! stream c n) eqn:Hn; [|done]. exfalso.
  assert (Hin : stream c n ∈ keys (workers (pool s))) by (apply elem_of_keys; eauto).
  unfold env_ok in Hok. rewrite forallb_forall in Hok.
  apply list_elem_of_In, Hok in Hin. cbn in Hin. by rewrite bool_decide_eq_true_2 in Hin.
Qed.

Lemma exec_act_step a s s' : exec_act a s = Some s' → step s s'.
Proof.
  destruct a as [c nw i|tm i|i|t|]; cbn.
  - destruct (env_ok c s) eqn:Hok; [|done]. intros Hr.
    by eapply step_run; [apply env_ok_fresh|].
  - apply step_expire.
  - apply step_checkin.
  - destruct (is_call t) eqn:Ht; [|done]. intros [= <-]. by apply step_call.
  - intros [= <-]. apply step_drain.
Qed.

Lemma exec_steps acts s s' : exec acts s = Some s' → steps step s s'.
Proof.
  revert s'. induction acts as [|a acts IH] using rev_ind; intros s'; unfold exec.
  - intros [= <-]. apply steps_refl.
  - rewrite foldl_snoc. intros (s1 & H1 & Ha)%bind_Some.
    eapply steps_step; [by apply IH | by eapply exec_act_step].
Qed.

(** ** The properties *)

Definition test_config (mn mx init : Z) : PoolConfig :=
  mkConfig "pool" mn mx init (f64_div (f64_of_Z 8) (f64_of_Z 10))
    (f64_div (f64_of_Z 3) (f64_of_Z 10)) None.
Definition test_pool (mn mx init : Z) : ElasticPool :=
  match Pool.new (Pool.fresh_ids (stream "w") (Z.to_nat init)) (test_config mn mx init) with
  | Ok p => p
  | Err _ => mkPool (test_config mn mx init) ∅ [] [] (Pool.initial_metrics (test_config mn mx init))
               Stable None None false
  end.

(** C13. However the checkouts, check-ins, time-outs and scaling operations of a pool interleave, every
    worker is either available, or taken by exactly one operation, or was handed to a waiter that had
    given up: no two checkouts hold the same worker, a held worker is busy and not available, and a
    waiting checkout is always in the queue or about to be served. *)
Theorem pool_conserves_workers c f p s :
  Inj (=) (=) f → Pool.new (Pool.fresh_ids f (Z.to_nat (initial_size c))) c = Ok p →
  steps step (init p) s →
  available_workers (pool s) ++ (tasks s ≫= owns) ++ lost s ≡ₚ keys (workers (pool s)) ∧
  (∀ w, w ∈ available_workers (pool s) → workers (pool s) !! w = Some Available) ∧
  (∀ i h, tasks s !! i = Some (CheckoutDone (Ok h)) →
     workers (pool s) !! actor_id h = Some Busy ∧
     ∀ j h', j ≠ i → tasks s !! j = Some (CheckoutDone (Ok h')) → actor_id h' ≠ actor_id h) ∧
  queued s.
Proof.
  intros Hf Hp Hs. pose proof (reachable_good p s (new_good c f p Hf Hp) Hs) as Hg.
  split_and!; [by apply good_perm | | |].
  - intros w Hw. apply (good_available _ _ _ Hg). set_solver.
  - intros i [w pn ct ci] Hi. cbn. rewrite (others_lookup i _ _ Hi) in Hg. split.
    + apply (good_busy _ _ _ Hg). cbn. set_solver.
    + intros j [w' pn' ct' ci'] Hji Hj Heq. cbn in Heq. subst w'.
      destruct (good_alone _ _ _ _ Hg w eq_refl) as (_ & _ & Hno). apply Hno, elem_of_app. left.
      apply list_elem_of_bind. exists (CheckoutDone (Ok (mkHandle w pn' ct' ci'))). split; [set_solver|].
      apply elem_of_app. destruct (decide (j < i)%nat).
      * left. apply list_elem_of_lookup. exists j. by rewrite lookup_take_lt.
      * right. apply list_elem_of_lookup. exists (j - S i)%nat. rewrite lookup_drop.
        rewrite <-Hj. f_equal. lia.
  - apply (steps_invariant step queued (init p)); [by intros ??; apply step_queued | | done].
    by intros k.
Qed.

(** A pool with one worker: the first checkout takes it. *)
Definition take_w0 : list Act :=
  [ACall CheckoutStart; ARun "a" 1 0; ARun "a" 1 0; ARun "a" 1 0].
Definition taken : System := default (init (test_pool 1 1 1)) (exec take_w0 (init (test_pool 1 1 1))).

Lemma taken_reached : exec take_w0 (init (test_pool 1 1 1)) = Some taken.
Proof. vm_compute. reflexivity. Qed.

Lemma pool_conserves_workers_witness :
  Pool.new (Pool.fresh_ids (stream "w") 1) (test_config 1 1 1) = Ok (test_pool 1 1 1) ∧
  tasks taken = [CheckoutDone (Ok (mkHandle "w0" "pool" (Some 1) "a0"))] ∧
  workers (pool taken) !! "w0" = Some Busy.
Proof.
  split_and!; [vm_compute; reflexivity..|].
  refine (proj1 (proj1 (proj2 (proj2 (pool_conserves_workers (test_config 1 1 1) (stream "w")
    (test_pool 1 1 1) taken (stream_inj "w") eq_refl (exec_steps _ _ _ taken_reached)))) 0%nat
    (mkHandle "w0" "pool" (Some 1) "a0") eq_refl)).
Defined.

(** *** Waiters that are not served *)

Lemma run_task_other e i j s s' : run_task e i s = Some s' → tasks s !! j = Some CheckoutWaiting →
  tasks s' !! j = Some CheckoutWaiting ∨ ∃ w, tasks s !! i = Some (CheckinServe w j).
Proof.
  unfold run_task. intros Hr Hj. destruct (tasks s !! i) as [t|] eqn:Hi; [|done].
  assert (Hne : t ≠ CheckoutWaiting → j ≠ i) by (intros ? ->; congruence).
  assert (Hn : ∀ t' p, t ≠ CheckoutWaiting →
    tasks (next i t' p s) !! j = Some CheckoutWaiting)
    by (intros; cbn; rewrite list_lookup_insert_ne; auto using not_eq_sym).
  destruct t; try done;
    try (injection Hr as <-; left; exact (Hn _ _ ltac:(discriminate))).
  - destruct (Pool.pop_available _). injection Hr as <-. left. by apply Hn.
  - destruct (Pool.checkout_worker _ _ _ _). injection Hr as <-. left. by apply Hn.
  - destruct (Pool.checkin_mark _ _); injection Hr as <-; left; by apply Hn.
  - destruct (Pool.pop_waiter _). injection Hr as <-. left. by apply Hn.
  - destruct (decide (j = waiter)) as [->|Hjw]; [right; by exists w|]. left.
    destruct (Pool.checkout_worker _ _ _ _) as [p r].
    assert (Hs : tasks (send waiter r (next i (CheckinDone (Ok tt)) p s)) !! j =
                 Some CheckoutWaiting).
    { apply send_keeps; [done | by apply Hn]. }
    by destruct r; injection Hr as <-.
Qed.

(** A waiting checkout leaves its wait in two ways only: it times out, or a check-in that has popped
    it from the queue serves it.  In particular the workers that [scale_to], [scale_by] or the
    auto-scaler add are never given to the checkouts that wait for one. *)
Theorem only_checkins_serve_waiters s s' j :
  step s s' → tasks s !! j = Some CheckoutWaiting →
  tasks s' !! j = Some CheckoutWaiting ∨
  (∃ t, expire t j s = Some s') ∨
  ∃ e i w, run_task e i s = Some s' ∧ tasks s !! i = Some (CheckinServe w j).
Proof.
  intros Hs Hj. destruct Hs as [e i s s' Hf Hr|tm i s s' He|i s s' Hc|t s Ht|s|s|s|s]; auto.
  - destruct (run_task_other e i j s s' Hr Hj) as [?|[w Hw]]; [by left|]. right; right. by exists e, i, w.
  - destruct (decide (i = j)) as [->|Hne]; [by right; left; exists tm|]. left.
    unfold expire in He. destruct (tasks s !! i) as [[]|]; try done. injection He as <-.
    cbn. by rewrite list_lookup_insert_ne.
  - left. unfold checkin in Hc. destruct (tasks s !! i) as [[| | | | |[h|]| | | | | | | | | |]|] eqn:Hi;
      try done. injection Hc as <-. cbn. apply lookup_app_l_Some.
    rewrite list_lookup_insert_ne; [done|]. intros ->. congruence.
  - left. cbn. by apply lookup_app_l_Some.
Qed.

(** The second checkout of a pool with one worker, waiting. *)
Definition waiting_acts : list Act :=
  take_w0 ++ [ACall CheckoutStart; ARun "a" 2 1; ARun "a" 2 1; ARun "a" 2 1].
Definition waiting : System :=
  default (init (test_pool 1 1 1)) (exec waiting_acts (init (test_pool 1 1 1))).
(** The pool is then scaled to two workers. *)
Definition scaled : System :=
  default waiting (exec [ACall (ScaleTo 2); ARun "b" 3 2; ARun "b" 3 2] waiting).
Definition spawning : System := default waiting (exec [ACall (ScaleTo 2); ARun "b" 3 2] waiting).

Lemma spawning_waits : tasks spawning !! 1%nat = Some CheckoutWaiting.
Proof. vm_compute. reflexivity. Qed.

Lemma only_checkins_serve_waiters_witness :
  step spawning scaled ∧ tasks spawning !! 1%nat = Some CheckoutWaiting ∧
  available_workers (pool scaled) = ["b0"] ∧ checkout_queue (pool scaled) = [1%nat] ∧
  (tasks scaled !! 1%nat = Some CheckoutWaiting ∨ (∃ t, expire t 1 spawning = Some scaled) ∨
   ∃ e i w, run_task e i spawning = Some scaled ∧ tasks spawning !! i = Some (CheckinServe w 1)).
Proof.
  assert (Hs : step spawning scaled) by (apply (exec_act_step (ARun "b" 3 2)); vm_compute; reflexivity).
  split; [exact Hs|]. do 3 (split; [vm_compute; reflexivity|]).
  exact (only_checkins_serve_waiters spawning scaled 1 Hs spawning_waits).
Defined.

(** A checkout that finds no worker enqueues itself in a later critical section; a check-in in between
    sees an empty queue, makes its worker available, and nobody is left to wake the waiter up: it
    waits while a worker is free and no operation is running. *)
Theorem waiter_can_miss_free_worker : ∃ s,
  steps step (init (test_pool 1 1 1)) s ∧
  tasks s !! 1%nat = Some CheckoutWaiting ∧ available_workers (pool s) = ["w0"] ∧
  checkout_queue (pool s) = [1%nat] ∧ ∀ e i, run_task e i s = None.
Proof.
  set (acts := take_w0 ++ [ACall CheckoutStart; ARun "a" 2 1; ARun "a" 2 1;
    ACheckin 0; ARun "a" 3 2; ARun "a" 3 2; ARun "a" 3 2; ARun "a" 4 1]).
  exists (default taken (exec acts (init (test_pool 1 1 1)))). split_and!.
  - apply (exec_steps acts). vm_compute. reflexivity.
  - vm_compute. reflexivity.
  - vm_compute. reflexivity.
  - vm_compute. reflexivity.
  - intros e i. do 3 (destruct i as [|i]; [vm_compute; reflexivity|]). vm_compute. reflexivity.
Qed.

(** *** Workers that are lost *)

Lemma send_lost j r s : lost s ⊆ lost (send j r s).
Proof. unfold send. destruct (tasks s !! j) as [[]|], r; cbn; set_solver. Qed.

Lemma step_lost s s' : step s s' → lost s ⊆ lost s'.
Proof.
  intros Hs. destruct Hs as [e i s s' Hf Hr|tm i s s' He|i s s' Hc|t s Ht|s|s|s|s]; try done.
  - unfold run_task in Hr. destruct (tasks s !! i) as [t|]; [|done].
    destruct t; try done; try (by injection Hr as <-).
    + destruct (Pool.pop_available _). by injection Hr as <-.
    + destruct (Pool.checkout_worker _ _ _ _). by injection Hr as <-.
    + by destruct (Pool.checkin_mark _ _); injection Hr as <-.
    + destruct (Pool.pop_waiter _). by injection Hr as <-.
    + destruct (Pool.checkout_worker _ _ _ _) as [p r].
      pose proof (send_lost waiter r (next i (CheckinDone (Ok tt)) p s)) as Hl.
      by destruct r; injection Hr as <-.
  - unfold expire in He. destruct (tasks s !! i) as [[]|]; try done. by injection He as <-.
  - unfold checkin in Hc. destruct (tasks s !! i) as [[| | | | |[h|]| | | | | | | | | |]|];
      try done. by injection Hc as <-.
Qed.

Lemma busy_workers_elem w p : workers p !! w = Some Busy → (w, Busy) ∈ Pool.busy_workers p.
Proof.
  intros Hw. apply list_elem_of_In, filter_In. split; [|done].
  by apply list_elem_of_In, elem_of_map_to_list.
Qed.

(** A worker that was handed to a waiter that had given up is lost for good: whatever happens next it
    stays busy, it is never available again, and no [drain] succeeds. *)
Theorem lost_worker_never_returns c f p s s' w :
  Inj (=) (=) f → Pool.new (Pool.fresh_ids f (Z.to_nat (initial_size c))) c = Ok p →
  steps step (init p) s → w ∈ lost s → steps step s s' →
  w ∈ lost s' ∧ workers (pool s') !! w = Some Busy ∧ (w ∉ available_workers (pool s')) ∧
  ∀ nw deadline timeout n, Pool.drain_poll nw deadline timeout (pool s') ≠ Some (Ok n).
Proof.
  intros Hf Hp Hs Hw Hs'.
  pose proof (reachable_good p s' (new_good c f p Hf Hp) (steps_trans _ _ _ _ Hs Hs')) as Hg.
  assert (Hw' : w ∈ lost s').
  { clear -Hw Hs'. induction Hs' as [|s1 s2 s3 _ IH H]; [done|]. by apply (step_lost s2), IH. }
  assert (Hb : workers (pool s') !! w = Some Busy) by (apply (good_busy _ _ _ Hg); set_solver).
  split_and!; [done|done| |].
  - intros Hav. assert (workers (pool s') !! w = Some Available); [|congruence].
    apply (good_available _ _ _ Hg). set_solver.
  - intros nw dl tm n. unfold Pool.drain_poll. apply busy_workers_elem in Hb.
    destruct (Pool.busy_workers (pool s')); [by apply not_elem_of_nil in Hb|]. cbn.
    by destruct (dl <=? nw).
Qed.

(** The waiter gives up, and the worker is checked in. *)
Definition lost_acts : list Act :=
  waiting_acts ++ [AExpire 5 1; ACheckin 0; ARun "a" 3 2; ARun "a" 3 2; ARun "a" 3 2].
Definition lossy : System :=
  default waiting (exec lost_acts (init (test_pool 1 1 1))).

Lemma lossy_reached : exec lost_acts (init (test_pool 1 1 1)) = Some lossy.
Proof. vm_compute. reflexivity. Qed.

Lemma lossy_lost : lost lossy = ["w0"].
Proof. vm_compute. reflexivity. Qed.

Lemma lost_worker_never_returns_witness :
  tasks lossy = [Finished; CheckoutDone (Err (CheckoutTimeout 5)); CheckinDone (Ok tt)] ∧
  lost lossy = ["w0"] ∧ workers (pool lossy) !! "w0" = Some Busy.
Proof.
  split_and!; [vm_compute; reflexivity..|].
  refine (proj1 (proj2 (lost_worker_never_returns (test_config 1 1 1) (stream "w")
    (test_pool 1 1 1) lossy lossy "w0" (stream_inj "w") eq_refl
    (exec_steps _ _ _ lossy_reached) _ (steps_refl _ _)))).
  rewrite lossy_lost. by left.
Defined.

(** *** Draining *)

Lemma drain_poll_None nw deadline timeout p :
  Pool.drain_poll nw deadline timeout p = None ↔ Pool.busy_workers p ≠ [] ∧ nw < deadline.
Proof.
  unfold Pool.drain_poll. destruct (Pool.busy_workers p); cbn; [split; [done | by intros []]|].
  destruct (deadline <=? nw) eqn:Hd; bool_to_Prop; (split; [done|]); [intros []; lia | done].
Qed.

Lemma drain_poll_Some nw deadline timeout p r : Pool.drain_poll nw deadline timeout p = Some r →
  r = (if bool_decide (Pool.busy_workers p = [])
       then Ok (Pool.len_u32 (map_to_list (workers p))) else Err (CheckoutTimeout timeout)).
Proof.
  unfold Pool.drain_poll. destruct (Pool.busy_workers p); cbn; [by intros [= <-]|].
  destruct (deadline <=? nw); [by intros [= <-] | done].
Qed.

Lemma drain_loop_last deadline timeout obs n k0 : deadline <= (obs (k0 + n)%nat).1 →
  ∃ k r, (k0 <= k <= k0 + n)%nat ∧ Pool.drain_loop (S n) k0 deadline timeout obs = Some r ∧
    (∀ m, (k0 <= m < k)%nat → Pool.drain_poll (obs m).1 deadline timeout (obs m).2 = None) ∧
    Pool.drain_poll (obs k).1 deadline timeout (obs k).2 = Some r.
Proof.
  revert k0. induction n as [|n IH]; intros k0 Hd; cbn [Pool.drain_loop];
    destruct (Pool.drain_poll (obs k0).1 deadline timeout (obs k0).2) as [r|] eqn:Hp.
  - exists k0, r. split_and!; [lia|lia|done|lia|done].
  - apply drain_poll_None in Hp as [_ Hlt]. rewrite Nat.add_0_r in Hd. lia.
  - exists k0, r. split_and!; [lia|lia|done|lia|done].
  - rewrite Nat.add_succ_r in Hd. destruct (IH (S k0) Hd) as (k & r & Hk & Hr & Hm & Hkr).
    exists k, r. split_and!; [lia|lia|exact Hr| |done].
    intros m Hmk. destruct (decide (m = k0)) as [->|]; [done|]. apply Hm. lia.
Qed.

(** [drain] returns: if the clock passes the deadline by the [n]th round of its loop, one of the rounds
    up to [n] is the last; its answer is the number of workers when none of them is busy, and a
    time-out when the deadline has passed first. *)
Theorem drain_terminates obs deadline timeout n :
  deadline <= (obs n).1 →
  ∃ k r, (k <= n)%nat ∧ Pool.drain_loop (S n) 0 deadline timeout obs = Some r ∧
    (∀ m, (m < k)%nat → Pool.busy_workers (obs m).2 ≠ [] ∧ (obs m).1 < deadline) ∧
    r = (if bool_decide (Pool.busy_workers (obs k).2 = [])
         then Ok (Pool.len_u32 (map_to_list (workers (obs k).2)))
         else Err (CheckoutTimeout timeout)).
Proof.
  intros Hn. destruct (drain_loop_last deadline timeout obs n 0 Hn) as (k & r & Hk & Hr & Hm & Hkr).
  exists k, r. split_and!; [lia|done| |by eapply drain_poll_Some].
  intros m Hmk. apply (drain_poll_None _ _ timeout), Hm. lia.
Qed.

Lemma drain_terminates_witness :
  ∃ k r, (k <= 3)%nat ∧
    Pool.drain_loop 4 0 3 3 (λ k, (Z.of_nat k, pool taken)) = Some r ∧
    (∀ m, (m < k)%nat → Pool.busy_workers (pool taken) ≠ [] ∧ Z.of_nat m < 3) ∧
    r = (if bool_decide (Pool.busy_workers (pool taken) = [])
         then Ok (Pool.len_u32 (map_to_list (workers (pool taken))))
         else Err (CheckoutTimeout 3)).
Proof. exact (drain_terminates (λ k, (Z.of_nat k, pool taken)) 3 3 3 ltac:(done)). Defined.

(** A checkout that has popped its worker is not counted by [drain], which reports that the pool is
    drained while the checkout goes on and returns the worker. *)
Theorem drain_misses_checkout : ∃ s s',
  steps step (init (test_pool 1 1 1)) s ∧ draining (pool s) = true ∧
  Pool.drain_poll 3 3 3 (pool s) = Some (Ok 1) ∧ steps step s s' ∧
  tasks s' !! 0%nat = Some (CheckoutDone (Ok (mkHandle "w0" "pool" (Some 4) "a0"))).
Proof.
  set (acts := [ACall CheckoutStart; ARun "a" 1 0; ARun "a" 1 0; ADrain]).
  set (s := default taken (exec acts (init (test_pool 1 1 1)))).
  exists s, (default taken (exec [ARun "a" 4 0] s)). split_and!.
  - apply (exec_steps acts). vm_compute. reflexivity.
  - vm_compute. reflexivity.
  - vm_compute. reflexivity.
  - apply (exec_steps [ARun "a" 4 0]). vm_compute. reflexivity.
  - vm_compute. reflexivity.
Qed.

(** A handle that is checked in twice makes two checkouts hold the same worker. *)
Theorem double_checkin_shares_worker : ∃ s s' h h',
  steps step (init (test_pool 1 1 1)) s ∧ tasks s !! 0%nat = Some (CheckoutDone (Ok h)) ∧
  steps step (mkSystem (pool s) (tasks s ++ [CheckinStart (actor_id h); CheckinStart (actor_id h)])
                (lost s)) s' ∧
  tasks s' !! 3%nat = Some (CheckoutDone (Ok h')) ∧
  (∃ h2, tasks s' !! 4%nat = Some (CheckoutDone (Ok h2)) ∧ actor_id h2 = actor_id h').
Proof.
  set (h := mkHandle "w0" "pool" (Some 1) "a0").
  set (acts := [ARun "a" 2 1; ARun "a" 2 1; ARun "a" 2 1; ARun "a" 2 2; ARun "a" 2 2; ARun "a" 2 2;
    ACall CheckoutStart; ARun "a" 3 3; ARun "a" 3 3; ARun "a" 3 3;
    ACall CheckoutStart; ARun "a" 4 4; ARun "a" 4 4; ARun "a" 4 4]).
  set (s1 := mkSystem (pool taken) (tasks taken ++ [CheckinStart "w0"; CheckinStart "w0"])
               (lost taken)).
  exists taken, (default taken (exec acts s1)), h, (mkHandle "w0" "pool" (Some 3) "a0").
  split_and!.
  - apply (exec_steps take_w0), taken_reached.
  - vm_compute. reflexivity.
  - apply (exec_steps acts). vm_compute. reflexivity.
  - vm_compute. reflexivity.
  - exists (mkHandle "w0" "pool" (Some 4) "a0"). split; vm_compute; reflexivity.
Qed.

(** *** Scaling *)

Lemma len_u32_size p : Z.of_nat (size (workers p)) < 2 ^ 32 →
  Pool.len_u32 (map_to_list (workers p)) = Z.of_nat (size (workers p)).
Proof.
  intros Hs. unfold Pool.len_u32, as_u32. rewrite length_map_to_list. apply wrap_small. lia.
Qed.

Lemma keys_length m : length (keys m) = size m.
Proof. unfold keys. by rewrite length_fmap, length_map_to_list. Qed.

Lemma add_workers_size f n p : Inj (=) (=) f → (∀ k, workers p !! f k = None) →
  size (workers (Pool.add_workers (Pool.fresh_ids f n) p)) = (n + size (workers p))%nat.
Proof.
  intros Hf Hp. rewrite <-!keys_length. cbn. rewrite foldl_insert_keys.
  - by rewrite length_app, fresh_ids_length.
  - by apply fresh_ids_NoDup.
  - intros id (k & -> & _)%list_elem_of_fmap. apply Hp.
Qed.

Lemma remove_workers_size n p ts l : good p ts l →
  size (workers (Pool.remove_workers n p).1) =
  (size (workers p) - n `min` length (available_workers p))%nat.
Proof.
  intros Hg. pose proof (keys_NoDup (workers p)) as Hnd. rewrite <-(good_perm _ _ _ Hg) in Hnd.
  apply NoDup_app in Hnd as [Hnd _]. set (ids := take n (available_workers p)).
  assert (Hlen : length (keys (workers p)) =
    (length ids + length (keys (workers (Pool.remove_workers n p).1)))%nat).
  { rewrite <-length_app. apply Permutation_length. cbn. apply foldl_delete_keys.
    - apply (sublist_NoDup _ (available_workers p)); [done | apply sublist_take].
    - intros w Hw. exists Available. apply (good_available _ _ _ Hg), elem_of_app. left.
      by apply (subseteq_take n (available_workers p)). }
  rewrite !keys_length in Hlen. subst ids. rewrite length_take in Hlen. lia.
Qed.

(** The clamping of [scale_by], on sizes that fit their machine integers. *)
Lemma scale_by_target_clamp d p :
  0 <= min_size (config p) <= max_size (config p) → max_size (config p) < 2 ^ 31 →
  Z.of_nat (size (workers p)) < 2 ^ 31 → - 2 ^ 31 <= Z.of_nat (size (workers p)) + d < 2 ^ 31 →
  Pool.scale_by_target d p =
  Z.min (Z.max (Z.of_nat (size (workers p)) + d) (min_size (config p))) (max_size (config p)).
Proof.
  intros Hmin Hmax Hs Hd.
  assert (H32 : ∀ x, - 2 ^ 31 <= x < 2 ^ 31 → as_i32 x = x).
  { intros x Hx. unfold as_i32, wrap. destruct (decide (0 <= x)).
    - rewrite Z.mod_small by lia. destruct (x <? 2 ^ 31) eqn:E; bool_to_Prop; lia.
    - rewrite <-(Z_mod_plus_full x 1), Z.mod_small by lia.
      destruct (x + 1 * 2 ^ 32 <? 2 ^ 31) eqn:E; bool_to_Prop; lia. }
  unfold Pool.scale_by_target. rewrite length_map_to_list.
  rewrite (H32 (Z.of_nat _)) by lia. rewrite !H32 by lia.
  unfold as_u32. rewrite wrap_small by lia. done.
Qed.

(** [scale_by] keeps its target between the configured minimum and maximum, and reaches it, or removes
    every available worker when fewer than needed are available. *)
Theorem scale_by_within_bounds f d p ts l :
  good p ts l → Inj (=) (=) f → (∀ k, workers p !! f k = None) →
  0 <= min_size (config p) <= max_size (config p) → max_size (config p) < 2 ^ 31 →
  Z.of_nat (size (workers p)) < 2 ^ 31 → - 2 ^ 31 <= Z.of_nat (size (workers p)) + d < 2 ^ 31 →
  let n := Z.of_nat (size (workers p)) in
  let target := Z.min (Z.max (n + d) (min_size (config p))) (max_size (config p)) in
  Z.of_nat (size (workers (Pool.scale_by f d p))) =
  Z.max target (n - Z.of_nat (length (available_workers p))).
Proof.
  intros Hg Hf Hfr Hmin Hmax Hs Hd n target. unfold Pool.scale_by.
  rewrite (scale_by_target_clamp d p Hmin Hmax Hs Hd). fold n. fold target.
  assert (Hav : (length (available_workers p) <= size (workers p))%nat).
  { rewrite <-keys_length, <-(good_perm _ _ _ Hg), length_app. lia. }
  unfold Pool.scale_to. rewrite len_u32_size by lia. fold n.
  destruct (n <? target) eqn:E1; bool_to_Prop.
  - change (workers (Pool.spawn_workers ?x p)) with (workers (Pool.add_workers x p)).
    rewrite add_workers_size by done. lia.
  - destruct (target <? n) eqn:E2; bool_to_Prop; [|lia].
    rewrite (remove_workers_size _ _ ts l Hg). lia.
Qed.

Lemma test_pool_good : good (test_pool 2 5 3) [] [].
Proof. apply (new_good (test_config 2 5 3) (stream "w")); [apply stream_inj | vm_compute; reflexivity]. Qed.

Lemma scale_by_within_bounds_witness :
  size (workers (test_pool 2 5 3)) = 3%nat ∧
  Z.of_nat (size (workers (Pool.scale_by (stream "a") 10 (test_pool 2 5 3)))) = 5.
Proof.
  assert (Hsize : size (workers (test_pool 2 5 3)) = 3%nat) by (vm_compute; reflexivity).
  split; [exact Hsize|].
  assert (Hw : config (test_pool 2 5 3) = test_config 2 5 3) by reflexivity.
  rewrite (scale_by_within_bounds (stream "a") 10 (test_pool 2 5 3) [] [] test_pool_good
    (stream_inj "a")); rewrite ?Hsize, ?Hw; cbn [min_size max_size test_config]; try lia.
  by destruct (env_ok_fresh "a" 0 (init (test_pool 2 5 3)) ltac:(vm_compute; reflexivity)).
Defined.

(** A round of the auto-scaler that finds the load above its threshold adds a whole step, whatever the
    room that is left below the maximum: between one and [max_scale_step] workers. *)
Theorem auto_scaler_adds_a_step nw f p :
  Inj (=) (=) f → (∀ k, workers p !! f k = None) →
  scaling_state p ≠ Paused →
  f64_ltb (scaling_threshold (config p)) (current_load (metrics p)) = true →
  f64_ltb (current_load (metrics p)) (scale_down_threshold (config p)) = false →
  total_actors (metrics p) < max_size (config p) → Pool.should_scale_up nw p = true →
  let step := Pool.calculate_scale_amount (config p) (Pool.len_u32 (map_to_list (workers p))) in
  size (workers (Pool.auto_scaler_round nw f p)) = (Z.to_nat step + size (workers p))%nat ∧
  step <= default 10 (max_scale_step <$> scaling_policy (config p)).
Proof.
  intros Hf Hfr Hp Hup Hdown Hmax Hcool step. split.
  - unfold Pool.auto_scaler_round. rewrite bool_decide_eq_false_2 by done. cbn zeta.
    rewrite Hup, Hdown, Hcool. apply Z.ltb_lt in Hmax. rewrite Hmax. cbn [andb].
    change (workers (Pool.scale_up nw f p)) with
      (workers (Pool.add_workers (Pool.fresh_ids f (Z.to_nat step)) p)).
    by apply add_workers_size.
  - subst step. unfold Pool.calculate_scale_amount. destruct (scaling_policy (config p)); cbn; lia.
Qed.

(** A pool of three workers, at most [mx], that doubles; all of them are checked out. *)
Definition doubling_config (mx : Z) : PoolConfig :=
  mkConfig "pool" 1 mx 3 (f64_div (f64_of_Z 8) (f64_of_Z 10)) (f64_div (f64_of_Z 3) (f64_of_Z 10))
    (Some (mkPolicy 2 (f64_of_Z 1) (Some 1) 1 10)).
Definition doubling_pool (mx : Z) : ElasticPool :=
  Pool.spawn_workers (Pool.fresh_ids (stream "w") 3)
    (mkPool (doubling_config mx) ∅ [] [] (Pool.initial_metrics (doubling_config mx)) Stable None None
       false).
Definition checkout_acts (i : nat) : list Act :=
  [ACall CheckoutStart; ARun "a" 1 i; ARun "a" 1 i; ARun "a" 1 i].
Definition loaded (mx : Z) : ElasticPool :=
  pool (default (init (doubling_pool mx))
    (exec (checkout_acts 0 ++ checkout_acts 1 ++ checkout_acts 2) (init (doubling_pool mx)))).

Lemma loaded_fresh k : workers (loaded 4) !! stream "b" k = None.
Proof.
  by destruct (env_ok_fresh "b" 0 (init (loaded 4)) ltac:(vm_compute; reflexivity)).
Qed.

Lemma auto_scaler_adds_a_step_witness :
  size (workers (loaded 4)) = 3%nat ∧ max_size (config (loaded 4)) = 4 ∧
  size (workers (Pool.auto_scaler_round 9 (stream "b") (loaded 4))) = 6%nat.
Proof.
  split; [vm_compute; reflexivity|]. split; [vm_compute; reflexivity|].
  rewrite (proj1 (auto_scaler_adds_a_step 9 (stream "b") (loaded 4) (stream_inj "b") loaded_fresh
    ltac:(vm_compute; discriminate) ltac:(vm_compute; reflexivity) ltac:(vm_compute; reflexivity)
    ltac:(vm_compute; reflexivity) ltac:(vm_compute; reflexivity))).
  vm_compute. reflexivity.
Defined.

(** The auto-scaler stores the load in percent where the other operations store a fraction: after a
    round that leaves half of the workers idle, the next round sees a load above a threshold of
    eighty percent of one and doubles the pool again. *)
Theorem auto_scaler_misreads_its_load :
  let p1 := Pool.auto_scaler_round nanos (stream "b") (loaded 100) in
  let p2 := Pool.auto_scaler_round (2 * nanos) (stream "c") p1 in
  size (workers p1) = 6%nat ∧ length (available_workers p1) = 3%nat ∧
  current_load (metrics p1) = f64_of_Z 50 ∧ size (workers p2) = 12%nat ∧
  current_load (metrics (Pool.update_metrics p1)) = f64_div (f64_of_Z 1) (f64_of_Z 2) ∧
  size (workers (Pool.auto_scaler_round (2 * nanos) (stream "c") (Pool.update_metrics p1))) = 6%nat.
Proof. vm_compute. split_and!; reflexivity. Qed.

(** *** Errors *)

(** The conversions of errors lose their payload only; the unspecified error reads as an actor
    error. *)
Lemma error_to_proto_of_proto e : error_to_proto (error_of_proto e) =
  match e with ElasticPoolErrorUnspecified => ElasticPoolErrorActorError | e => e end.
Proof. by destruct e. Qed.

(** A pool is created exactly when [min_size <= initial_size <= max_size]; it then has that many
    workers, all available. *)
Lemma new_iff c f : Inj (=) (=) f →
  match Pool.new (Pool.fresh_ids f (Z.to_nat (initial_size c))) c with
  | Ok p => min_size c <= initial_size c <= max_size c ∧
            size (workers p) = Z.to_nat (initial_size c) ∧
            length (available_workers p) = Z.to_nat (initial_size c)
  | Err e => (∃ msg, e = InvalidConfig msg) ∧ ¬ min_size c <= initial_size c <= max_size c
  end.
Proof.
  intros Hf. unfold Pool.new. destruct (max_size c <? min_size c) eqn:E1; bool_to_Prop.
  - split; [eauto | lia].
  - destruct (_ || _) eqn:E2.
    + split; [eauto|]. apply orb_true_iff in E2 as [E2|E2]; bool_to_Prop; lia.
    + bool_to_Prop. split; [lia|]. split; [|apply fresh_ids_length].
      change (workers (Pool.spawn_workers ?x ?p)) with (workers (Pool.add_workers x p)).
      rewrite add_workers_size; [|done|done]. cbn. rewrite map_size_empty. lia.
Qed.
