(* ===== verification/Retry.v ===== *)
(** Retry: the shared back-off of crates/common/src/retry.rs.

    The power function of the floating-point library, whose last digits the language leaves open, is
    a parameter; a random draw is an argument. Durations are in milliseconds where the code has them
    so. *)
From Stdlib Require Import Ascii.
From S2P Require Import Prelude.

Definition DEFAULT_INITIAL_DELAY_MS : Z := 100.
Definition DEFAULT_MAX_DELAY_MS : Z := 30000.
Definition DEFAULT_BACKOFF_MULTIPLIER : f64 := f64_of_Z 2.

(** A protobuf duration. *)
Record ProtoDuration := mkDuration { seconds : Z; nanos : Z }.

Record RetryPolicy := mkRetryPolicy {
  max_attempts : Z;
  backoff_multiplier : f64;
  initial_delay : option ProtoDuration;
  max_delay : option ProtoDuration;
  jitter_ratio : f64;
  retryable_errors : list string;
  allow_non_idempotent : bool
}.

Definition proto_duration_to_ms (d : ProtoDuration) : Z :=
  let s := Z.max (seconds d) 0 in
  let ns := Z.max (nanos d) 0 in
  u64_sat_add (u64_sat_mul s 1000) (ns / 1000000).

Definition ms_to_proto_duration (ms : Z) : ProtoDuration :=
  mkDuration (ms / 1000) (ms mod 1000 * 1000000).

Definition f64_is_finite (x : f64) : bool :=
  match x with S754_zero _ | S754_finite _ _ _ => true | _ => false end.
(** [f64::clamp]: a NaN stays. *)
Definition f64_clamp (x lo hi : f64) : f64 :=
  if f64_ltb x lo then lo else if f64_ltb hi x then hi else x.

Section backoff.
Context (powf : f64 → f64 → f64).

Definition initial_ms (policy : RetryPolicy) : Z :=
  match initial_delay policy with
  | Some d => Z.max (proto_duration_to_ms d) 1
  | None => DEFAULT_INITIAL_DELAY_MS
  end.
Definition max_ms (policy : RetryPolicy) : Z :=
  match max_delay policy with
  | Some d => Z.max (proto_duration_to_ms d) (initial_ms policy)
  | None => DEFAULT_MAX_DELAY_MS
  end.
Definition multiplier (policy : RetryPolicy) : f64 :=
  if f64_is_finite (backoff_multiplier policy) && f64_leb (f64_of_Z 1) (backoff_multiplier policy)
  then backoff_multiplier policy else DEFAULT_BACKOFF_MULTIPLIER.

(** The delay before jitter, which is also [compute_backoff_no_jitter]. *)
Definition compute_backoff_no_jitter (policy : RetryPolicy) (attempt : Z) : Z :=
  let exp := f64_max (f64_of_Z attempt) (f64_of_Z 1) in
  let raw := f64_mul (f64_of_Z (initial_ms policy))
               (powf (multiplier policy) (f64_add exp (f64_of_Z (-1)))) in
  Z.max (Z.min (f64_as_u64 raw) (max_ms policy)) 1.

Definition jitter_window (policy : RetryPolicy) (cap : Z) : Z :=
  f64_as_u64 (f64_mul (f64_of_Z cap) (f64_clamp (jitter_ratio policy) (f64_of_Z 0) (f64_of_Z 1))).

(** [draw] is [rng.gen_range(0..=jitter_window)]. *)
Definition compute_backoff (policy : RetryPolicy) (attempt draw : Z) : Z :=
  let cap := compute_backoff_no_jitter policy attempt in
  let jitter := f64_clamp (jitter_ratio policy) (f64_of_Z 0) (f64_of_Z 1) in
  if f64_leb jitter (f64_of_Z 0) then cap else
  let jitter_window := jitter_window policy cap in
  let base := sat_sub cap jitter_window in
  let sleep_ms := if 0 <? jitter_window then base + draw else cap in
  Z.max sleep_ms 1.

End backoff.

(** [str::eq_ignore_ascii_case] *)
Definition to_ascii_lower (c : ascii) : ascii :=
  let n := nat_of_ascii c in
  if ((65 <=? n) && (n <=? 90))%nat then ascii_of_nat (n + 32) else c.
Fixpoint eq_ignore_ascii_case (s t : string) : bool :=
  match s, t with
  | EmptyString, EmptyString => true
  | String c s, String d t =>
      Ascii.eqb (to_ascii_lower c) (to_ascii_lower d) && eq_ignore_ascii_case s t
  | _, _ => false
  end.

Definition effective_max_attempts (policy : RetryPolicy) : Z :=
  if max_attempts policy =? 0 then 1 else max_attempts policy.

Definition should_retry (policy : RetryPolicy) (attempt : Z) (error : string) : bool :=
  if effective_max_attempts policy <=? attempt then false
  else match retryable_errors policy with
       | [] => true
       | errors => existsb (λ e, eq_ignore_ascii_case e error) errors
       end.

Definition default_retry_policy : RetryPolicy :=
  mkRetryPolicy 3 DEFAULT_BACKOFF_MULTIPLIER
    (Some (ms_to_proto_duration DEFAULT_INITIAL_DELAY_MS))
    (Some (ms_to_proto_duration DEFAULT_MAX_DELAY_MS))
    (f64_div (f64_of_Z 1) (f64_of_Z 2)) [] false.

(** ** Lemmas *)

Lemma u64_sat_add_bounds x y : 0 <= x → 0 <= y → 0 <= u64_sat_add x y <= u64_max.
Proof. unfold u64_sat_add, u64_max. lia. Qed.

Lemma proto_duration_to_ms_bounds d : 0 <= proto_duration_to_ms d <= u64_max.
Proof.
  unfold proto_duration_to_ms. apply u64_sat_add_bounds.
  - unfold u64_sat_mul, u64_max. lia.
  - apply Z.div_pos; lia.
Qed.

Lemma delays_ordered policy : max_delay policy ≠ None ∨ initial_delay policy = None →
  1 <= initial_ms policy <= max_ms policy.
Proof.
  unfold max_ms, initial_ms, DEFAULT_MAX_DELAY_MS, DEFAULT_INITIAL_DELAY_MS.
  intros [H|H]; destruct (max_delay policy), (initial_delay policy); try done; lia.
Qed.

Lemma compute_backoff_no_jitter_bounds powf policy attempt :
  1 <= max_ms policy ∧ 1 <= compute_backoff_no_jitter powf policy attempt <= max_ms policy.
Proof.
  assert (H : 1 <= max_ms policy).
  { unfold max_ms, initial_ms, DEFAULT_MAX_DELAY_MS, DEFAULT_INITIAL_DELAY_MS.
    destruct (max_delay policy), (initial_delay policy); lia. }
  split; [done|]. unfold compute_backoff_no_jitter. lia.
Qed.

Lemma f64_as_u64_nonneg x : 0 <= f64_as_u64 x.
Proof. unfold f64_as_u64, f64_as_unsigned, u64_max. destruct x as [?|[]| |?]; lia. Qed.

(** Whatever the policy, the multiplier and the power function, the delay is at least a millisecond;
    it is the capped exponential delay when there is no jitter, and lies within the jitter window below
    it otherwise: the draw never brings it under [cap - window].  It is not drawn from zero. *)
Theorem backoff_within_bounds powf policy attempt draw :
  let cap := compute_backoff_no_jitter powf policy attempt in
  let window := jitter_window policy cap in
  0 <= draw <= window →
  1 <= cap <= max_ms policy ∧
  Z.max 1 (cap - window) <= compute_backoff powf policy attempt draw <= Z.max cap window ∧
  (f64_leb (f64_clamp (jitter_ratio policy) (f64_of_Z 0) (f64_of_Z 1)) (f64_of_Z 0) = true →
   compute_backoff powf policy attempt draw = cap).
Proof.
  intros cap window Hdraw.
  destruct (compute_backoff_no_jitter_bounds powf policy attempt) as [Hmax Hcap]. fold cap in Hcap.
  split; [done|]. unfold compute_backoff. fold cap. fold window.
  pose proof (f64_as_u64_nonneg (f64_mul (f64_of_Z cap)
    (f64_clamp (jitter_ratio policy) (f64_of_Z 0) (f64_of_Z 1)))) as Hw.
  change (0 <= window) in Hw. unfold sat_sub.
  split; [|by intros ->]. destruct (f64_leb _ _); [lia|].
  destruct (0 <? window) eqn:E; bool_to_Prop; lia.
Qed.

Lemma backoff_within_bounds_witness :
  let powf := λ _ _, f64_of_Z 4 in
  compute_backoff_no_jitter powf default_retry_policy 3 = 400 ∧
  jitter_window default_retry_policy 400 = 200 ∧
  200 <= compute_backoff powf default_retry_policy 3 7 <= 400.
Proof.
  cbv zeta. split; [vm_compute; reflexivity|]. split; [vm_compute; reflexivity|].
  assert (Hd : 0 <= 7 <= jitter_window default_retry_policy
    (compute_backoff_no_jitter (λ _ _, f64_of_Z 4) default_retry_policy 3))
    by (vm_compute; split; discriminate).
  pose proof (proj1 (proj2 (backoff_within_bounds (λ _ _, f64_of_Z 4) default_retry_policy 3 7 Hd)))
    as H.
  revert H. vm_compute. exact (λ H, H).
Defined.

(** A whole number of milliseconds survives the protobuf form. *)
Theorem ms_duration_roundtrip ms :
  0 <= ms <= u64_max → proto_duration_to_ms (ms_to_proto_duration ms) = ms.
Proof.
  intros Hms. unfold proto_duration_to_ms, ms_to_proto_duration, u64_sat_add, u64_sat_mul. cbn.
  pose proof (Z.div_pos ms 1000) as H1. pose proof (Z.mod_pos_bound ms 1000) as H2.
  rewrite (Z.max_l (ms / 1000)), (Z.max_l (ms mod 1000 * 1000000)), Z.div_mul by lia.
  pose proof (Z.div_mod ms 1000). lia.
Qed.

Lemma ms_duration_roundtrip_witness :
  0 <= 1500 <= u64_max ∧ ms_to_proto_duration 1500 = mkDuration 1 500000000 ∧
  proto_duration_to_ms (ms_to_proto_duration 1500) = 1500.
Proof.
  split; [unfold u64_max; lia|]. split; [reflexivity|].
  apply (ms_duration_roundtrip 1500). unfold u64_max. lia.
Defined.

(** A retry is granted only below the maximal number of attempts (one when it is not set). *)
Lemma should_retry_bound policy attempt error :
  should_retry policy attempt error = true → attempt < effective_max_attempts policy.
Proof.
  unfold should_retry. destruct (_ <=? attempt) eqn:E; [done|]. intros _. by bool_to_Prop.
Qed.

Lemma effective_max_attempts_pos policy : 0 <= max_attempts policy →
  1 <= effective_max_attempts policy.
Proof. intros H. unfold effective_max_attempts. destruct (_ =? _) eqn:E; bool_to_Prop; lia. Qed.

Lemma should_retry_all policy attempt error : retryable_errors policy = [] →
  should_retry policy attempt error = negb (effective_max_attempts policy <=? attempt).
Proof. intros H. unfold should_retry. rewrite H. by destruct (_ <=? attempt). Qed.
