(* ===== verification/WorkflowStore.v ===== *)
(** WorkflowStore: the types of crates/workflow/src/types.rs and the storage of storage/sql.rs.

    The tables of SQLite and of PostgreSQL differ in nothing but the operator LIKE ([Dialect]); a table
    is an insertion-ordered map from its primary key, which is also the order of the columns of times.
    The columns that are written and never read ([created_at], [updated_at], [started_at],
    [completed_at], the labels) are left out.  A statement ([stmt]) is one step of the database: before
    it the other connections may change the tables ([others], by the number of the statement).

    Parameters: the encoding of definitions ([DefinitionCodec]), the text of JSON values ([JsonText]),
    the upper case of Unicode, the fresh identifiers, the clock in seconds and the texts of the errors of
    the database.  A foreign key that is violated is an error; other failures of the database are not
    modelled. *)
From Stdlib Require Import Ascii String.
From stdpp Require Import sorting pretty.
From S2P Require Import Prelude Text Json Context KeyValue Retry.

#[local] Arguments String.append : simpl nomatch.

(** ** Enumerations and errors *)

Inductive StepType :=
| StepTypeUnspecified | StepTypeTask | StepTypeParallel | StepTypeMap | StepTypeWait | StepTypeChoice
| StepTypeSignal.
Inductive ExecutionStatus :=
| ExecutionStatusUnspecified | ExecutionStatusPending | ExecutionStatusRunning
| ExecutionStatusCompleted | ExecutionStatusFailed | ExecutionStatusCancelled
| ExecutionStatusTimedOut.
Inductive StepStatus :=
| StepStatusUnspecified | StepStatusPending | StepStatusRunning | StepStatusCompleted
| StepStatusFailed | StepStatusRetrying | StepStatusCancelled.
#[export] Instance StepType_eq_dec : EqDecision StepType.
Proof. solve_decision. Defined.
#[export] Instance ExecutionStatus_eq_dec : EqDecision ExecutionStatus.
Proof. solve_decision. Defined.
#[export] Instance StepStatus_eq_dec : EqDecision StepStatus.
Proof. solve_decision. Defined.

(** The numbers of the protobuf enumerations. *)
Definition StepType_of_i32 (n : Z) : option StepType :=
  match n with
  | 0 => Some StepTypeUnspecified | 1 => Some StepTypeTask | 2 => Some StepTypeParallel
  | 3 => Some StepTypeMap | 4 => Some StepTypeWait | 5 => Some StepTypeChoice
  | 6 => Some StepTypeSignal | _ => None
  end.
Definition StepType_to_i32 (t : StepType) : Z :=
  match t with
  | StepTypeUnspecified => 0 | StepTypeTask => 1 | StepTypeParallel => 2 | StepTypeMap => 3
  | StepTypeWait => 4 | StepTypeChoice => 5 | StepTypeSignal => 6
  end.
Definition ExecutionStatus_of_i32 (n : Z) : option ExecutionStatus :=
  match n with
  | 0 => Some ExecutionStatusUnspecified | 1 => Some ExecutionStatusPending
  | 2 => Some ExecutionStatusRunning | 3 => Some ExecutionStatusCompleted
  | 4 => Some ExecutionStatusFailed | 5 => Some ExecutionStatusCancelled
  | 6 => Some ExecutionStatusTimedOut | _ => None
  end.
Definition ExecutionStatus_to_i32 (s : ExecutionStatus) : Z :=
  match s with
  | ExecutionStatusUnspecified => 0 | ExecutionStatusPending => 1 | ExecutionStatusRunning => 2
  | ExecutionStatusCompleted => 3 | ExecutionStatusFailed => 4 | ExecutionStatusCancelled => 5
  | ExecutionStatusTimedOut => 6
  end.
Definition StepStatus_of_i32 (n : Z) : option StepStatus :=
  match n with
  | 0 => Some StepStatusUnspecified | 1 => Some StepStatusPending | 2 => Some StepStatusRunning
  | 3 => Some StepStatusCompleted | 4 => Some StepStatusFailed | 5 => Some StepStatusRetrying
  | 6 => Some StepStatusCancelled | _ => None
  end.
Definition StepStatus_to_i32 (s : StepStatus) : Z :=
  match s with
  | StepStatusUnspecified => 0 | StepStatusPending => 1 | StepStatusRunning => 2
  | StepStatusCompleted => 3 | StepStatusFailed => 4 | StepStatusRetrying => 5
  | StepStatusCancelled => 6
  end.

Inductive WorkflowError :=
| Storage (m : string)
| Serialization (m : string)
| NotFound (m : string)
| InvalidDefinition (m : string)
| Execution (m : string)
| ConcurrentUpdate (m : string).
Inductive WorkflowErrorProto :=
| WorkflowErrorUnspecified | WorkflowErrorStorage | WorkflowErrorSerialization | WorkflowErrorNotFound
| WorkflowErrorInvalidDefinition | WorkflowErrorExecution | WorkflowErrorConcurrentUpdate.
Definition WorkflowError_to_string (e : WorkflowError) : string :=
  match e with
  | Storage m => "Storage error: " ++ m
  | Serialization m => "Serialization error: " ++ m
  | NotFound m => "Not found: " ++ m
  | InvalidDefinition m => "Invalid definition: " ++ m
  | Execution m => "Execution error: " ++ m
  | ConcurrentUpdate m => "Concurrent update: " ++ m
  end.
Definition code (e : WorkflowError) : WorkflowErrorProto :=
  match e with
  | Storage _ => WorkflowErrorStorage
  | Serialization _ => WorkflowErrorSerialization
  | NotFound _ => WorkflowErrorNotFound
  | InvalidDefinition _ => WorkflowErrorInvalidDefinition
  | Execution _ => WorkflowErrorExecution
  | ConcurrentUpdate _ => WorkflowErrorConcurrentUpdate
  end.
Definition WorkflowError_from_proto (p : WorkflowErrorProto) : WorkflowError :=
  match p with
  | WorkflowErrorUnspecified => Execution "Unspecified error"
  | WorkflowErrorStorage => Storage "Storage error"
  | WorkflowErrorSerialization => Serialization "Serialization error"
  | WorkflowErrorNotFound => NotFound "Not found"
  | WorkflowErrorInvalidDefinition => InvalidDefinition "Invalid definition"
  | WorkflowErrorExecution => Execution "Execution error"
  | WorkflowErrorConcurrentUpdate => ConcurrentUpdate "Concurrent update"
  end.

Definition ExecutionStatus_as_sql_str (s : ExecutionStatus) : string :=
  match s with
  | ExecutionStatusPending => "PENDING"
  | ExecutionStatusRunning => "RUNNING"
  | ExecutionStatusCompleted => "COMPLETED"
  | ExecutionStatusFailed => "FAILED"
  | ExecutionStatusCancelled => "CANCELLED"
  | ExecutionStatusTimedOut => "TIMED_OUT"
  | ExecutionStatusUnspecified => "UNSPECIFIED"
  end.
Definition StepStatus_as_sql_str (s : StepStatus) : string :=
  match s with
  | StepStatusPending => "PENDING"
  | StepStatusRunning => "RUNNING"
  | StepStatusCompleted => "COMPLETED"
  | StepStatusFailed => "FAILED"
  | StepStatusRetrying => "RETRYING"
  | StepStatusCancelled => "CANCELLED"
  | StepStatusUnspecified => "UNSPECIFIED"
  end.

(** [str::to_uppercase], the map of Unicode; on ASCII it is the usual one. *)
Class Unicode := to_uppercase : string → string.
Definition ascii_upper (c : ascii) : ascii :=
  if in_range 97 122 c then ascii_of_nat (nat_of_ascii c - 32) else c.
Fixpoint str_map (f : ascii → ascii) (s : string) : string :=
  match s with EmptyString => EmptyString | String c s => String (f c) (str_map f s) end.
Class UnicodeLaws `{!Unicode} : Prop :=
  to_uppercase_ascii s : str_all (in_range 0 127) s = true →
    to_uppercase s = str_map ascii_upper s.

Definition ExecutionStatus_from_sql_str `{!Unicode} (s : string) : result WorkflowError ExecutionStatus :=
  let u := to_uppercase s in
  if String.eqb u "PENDING" then Ok ExecutionStatusPending
  else if String.eqb u "RUNNING" then Ok ExecutionStatusRunning
  else if String.eqb u "COMPLETED" then Ok ExecutionStatusCompleted
  else if String.eqb u "FAILED" then Ok ExecutionStatusFailed
  else if String.eqb u "CANCELLED" then Ok ExecutionStatusCancelled
  else if String.eqb u "TIMED_OUT" || String.eqb u "TIMEDOUT" then Ok ExecutionStatusTimedOut
  else Err (InvalidDefinition ("Unknown status: " ++ s)).
Definition StepStatus_from_sql_str `{!Unicode} (s : string) : result WorkflowError StepStatus :=
  let u := to_uppercase s in
  if String.eqb u "PENDING" then Ok StepStatusPending
  else if String.eqb u "RUNNING" then Ok StepStatusRunning
  else if String.eqb u "COMPLETED" then Ok StepStatusCompleted
  else if String.eqb u "FAILED" then Ok StepStatusFailed
  else if String.eqb u "RETRYING" then Ok StepStatusRetrying
  else if String.eqb u "CANCELLED" then Ok StepStatusCancelled
  else Err (InvalidDefinition ("Unknown step status: " ++ s)).

(** ** Definitions of workflows *)

Record Step := mkStep {
  s_id : string;
  s_name : string;
  s_type : Z;
  depends_on : list string;
  retry : option RetryPolicy;
  on_error : string;
  config : option Struct
}.
Record WorkflowDefinition := mkDefinition {
  d_id : string;
  d_name : string;
  d_version : string;
  steps : list Step
}.

Definition step_type (s : Step) : StepType := default StepTypeTask (StepType_of_i32 (s_type s)).
Definition step_config_value (s : Step) : Value := default (Object []) (struct_to_value <$> config s).
Definition step_next (s : Step) : option string := head (depends_on s).
Definition make_step (id name : string) (ty : StepType) (cfg : Value) (next err : option string)
    (r : option RetryPolicy) : Step :=
  mkStep id name (StepType_to_i32 ty) (option_list next) r (default "" err) (value_to_opt_struct cfg).
Definition make_workflow_definition (id name version : string) (ss : list Step) : WorkflowDefinition :=
  mkDefinition id name version ss.

Class DefinitionCodec := {
  encode_definition : WorkflowDefinition → bytes;
  decode_definition : bytes → result string WorkflowDefinition;
  (** Not nested deeper than the decoder accepts. *)
  encodable : WorkflowDefinition → bool
}.
Class DefinitionCodecLaws `{!DefinitionCodec} : Prop :=
  decode_encode_definition d : encodable d = true → decode_definition (encode_definition d) = Ok d.

(** ** Tables *)

Record DefinitionRow := mkDefRow {
  r_name : string;
  r_tenant_id : string;
  r_namespace : string;
  definition_proto : bytes
}.
Section tables.
Context `{!JsonText}.

Record ExecutionRow := mkExecRow {
  r_definition_id : string;
  r_definition_version : string;
  re_tenant_id : string;
  re_namespace : string;
  re_status : string;
  r_current_step_id : option string;
  re_input_json : option text;
  re_output_json : option text;
  re_error : option string;
  r_node_id : option string;
  r_version : Z;
  r_last_heartbeat : Z
}.
Record StepRow := mkStepRow {
  rs_execution_id : string;
  r_step_id : string;
  rs_status : string;
  rs_input_json : option text;
  rs_output_json : option text;
  rs_error : option string;
  r_attempt : Z
}.
Record SignalRow := mkSignal { sg_execution_id : string; signal_name : string; payload : text }.

(** [tick] counts the statements. *)
Record WorkflowStorage := mkStore {
  definitions : gmap (string * string) DefinitionRow;
  executions : list (string * ExecutionRow);
  step_executions : list (string * StepRow);
  signals : list SignalRow;
  tick : nat
}.
Definition new_in_memory : WorkflowStorage := mkStore ∅ [] [] [] 0.
Definition set_tick (s : WorkflowStorage) (n : nat) : WorkflowStorage :=
  mkStore (definitions s) (executions s) (step_executions s) (signals s) n.
Definition set_definitions (s : WorkflowStorage) ds : WorkflowStorage :=
  mkStore ds (executions s) (step_executions s) (signals s) (tick s).
Definition set_executions (s : WorkflowStorage) es : WorkflowStorage :=
  mkStore (definitions s) es (step_executions s) (signals s) (tick s).
Definition set_step_executions (s : WorkflowStorage) ss : WorkflowStorage :=
  mkStore (definitions s) (executions s) ss (signals s) (tick s).
Definition set_signals (s : WorkflowStorage) ss : WorkflowStorage :=
  mkStore (definitions s) (executions s) (step_executions s) ss (tick s).

(** What the rows are turned into. *)
Record WorkflowExecutionRow := mkWER {
  execution_id : string;
  definition_id : string;
  definition_version : string;
  status : ExecutionStatus;
  current_step_id : option string;
  input : option Value;
  output : option Value;
  error : option string;
  node_id : option string;
  version : Z;
  last_heartbeat : option Z
}.
Record StepExecutionRow := mkSER {
  step_execution_id : string;
  se_execution_id : string;
  step_id : string;
  se_status : StepStatus;
  se_input : option Value;
  se_output : option Value;
  se_error : option string;
  attempt : Z
}.
Record WorkflowExecution := mkWorkflowExecution {
  we_execution_id : string;
  we_definition_id : string;
  we_definition_version : string;
  we_status : Z;
  we_current_step_id : string;
  we_input : option Struct;
  we_output : option Struct;
  we_error : string;
  we_node_id : string;
  we_last_heartbeat : option Z
}.
Record StepExecution := mkStepExecution {
  sx_step_execution_id : string;
  sx_execution_id : string;
  sx_step_id : string;
  sx_status : Z;
  sx_input : option Struct;
  sx_output : option Struct;
  sx_error : string;
  sx_attempt : Z
}.
Definition from_execution_row (r : WorkflowExecutionRow) : WorkflowExecution :=
  mkWorkflowExecution (execution_id r) (definition_id r) (definition_version r)
    (ExecutionStatus_to_i32 (status r)) (default "" (current_step_id r)) (input r ≫= value_to_opt_struct)
    (output r ≫= value_to_opt_struct) (default "" (error r)) (default "" (node_id r))
    ((λ t, t / 1000) <$> last_heartbeat r).
Definition from_step_row (r : StepExecutionRow) : StepExecution :=
  mkStepExecution (step_execution_id r) (se_execution_id r) (step_id r) (StepStatus_to_i32 (se_status r))
    (se_input r ≫= value_to_opt_struct) (se_output r ≫= value_to_opt_struct) (default "" (se_error r))
    (attempt r).
Definition execution_status (e : WorkflowExecution) : ExecutionStatus :=
  default ExecutionStatusUnspecified (ExecutionStatus_of_i32 (we_status e)).
Definition step_status (e : StepExecution) : StepStatus :=
  default StepStatusUnspecified (StepStatus_of_i32 (sx_status e)).
Definition step_output_value (e : StepExecution) : option Value := prost_struct_to_value <$> sx_output e.
Definition step_input_value (e : StepExecution) : option Value := prost_struct_to_value <$> sx_input e.
Definition execution_output_value (e : WorkflowExecution) : option Value :=
  prost_struct_to_value <$> we_output e.

Definition read_execution `{!Unicode} (i : string) (r : ExecutionRow)
    : result WorkflowError WorkflowExecutionRow :=
  st ← ExecutionStatus_from_sql_str (re_status r);
  Ok (mkWER i (r_definition_id r) (r_definition_version r) st (r_current_step_id r)
        (re_input_json r ≫= from_str) (re_output_json r ≫= from_str) (re_error r) (r_node_id r)
        (as_u64 (r_version r)) (Some (r_last_heartbeat r))).
Definition read_step `{!Unicode} (i : string) (r : StepRow) : result WorkflowError StepExecutionRow :=
  st ← StepStatus_from_sql_str (rs_status r);
  Ok (mkSER i (rs_execution_id r) (r_step_id r) st (rs_input_json r ≫= from_str)
        (rs_output_json r ≫= from_str) (rs_error r) (as_u32 (r_attempt r))).
End tables.

Fixpoint sequence_results {E A} (l : list (result E A)) : result E (list A) :=
  match l with [] => Ok [] | r :: l => a ← r; l ← sequence_results l; Ok (a :: l) end.

(** ** Statements *)

(** What becomes of a computation: a panic ends its task, and one that polls may still be waiting. *)
Inductive outcome (A : Type) := Done (a : A) | Failed (e : WorkflowError) | Panicked | Waiting.
Arguments Done {A} a.
Arguments Failed {A} e.
Arguments Panicked {A}.
Arguments Waiting {A}.

(** The world of the storage; what a statement draws is indexed by its number. *)
Class World `{!JsonText} := {
  ulid : nat → string;
  clock : nat → Z;
  others : nat → WorkflowStorage → WorkflowStorage;
  no_rows : string;
  foreign_key : string;
  json_error : string
}.

Section storage.
Context `{!JsonText} `{!World} `{!Unicode} `{!DefinitionCodec} (dialect : Dialect).
Implicit Types (s : WorkflowStorage) (ctx : RequestContext) (v : Value).

Definition M (A : Type) : Type := WorkflowStorage → WorkflowStorage * outcome A.
#[export] Instance M_ret : MRet M := λ A a s, (s, Done a).
#[export] Instance M_bind : MBind M := λ A B k m s,
  match m s with
  | (s, Done a) => k a s
  | (s, Failed e) => (s, Failed e)
  | (s, Panicked) => (s, Panicked)
  | (s, Waiting) => (s, Waiting)
  end.
Definition fail {A} (e : WorkflowError) : M A := λ s, (s, Failed e).
Definition panic {A} : M A := λ s, (s, Panicked).
Definition lift {A} (r : result WorkflowError A) : M A := λ s,
  (s, match r with Ok a => Done a | Err e => Failed e end).

(** The tables that a statement meets, and its number. *)
Definition arrive s : nat * WorkflowStorage := (tick s, set_tick (others (tick s) s) (S (tick s))).
Definition stmt {A} (f : nat → WorkflowStorage → WorkflowStorage * outcome A) : M A := λ s,
  let '(n, s) := arrive s in f n s.

(** [CURRENT_TIMESTAMP], which SQLite gives in whole seconds. *)
Definition current_timestamp (n : nat) : Z :=
  if ignores_case dialect then clock n / 1000 * 1000 else clock n.

(** A filter of a query that is left out for an empty argument. *)
Definition filter_by (arg x : string) : bool := String.eqb arg "" || String.eqb arg x.

Definition save_definition ctx (def : WorkflowDefinition) : M () := stmt (λ n s,
  let k := (d_id def, d_version def) in
  let row := match definitions s !! k with
    | Some r => mkDefRow (d_name def) (r_tenant_id r) (r_namespace r) (encode_definition def)
    | None => mkDefRow (d_name def) (tenant_id ctx) (namespace ctx) (encode_definition def)
    end in
  (set_definitions s (<[k := row]> (definitions s)), Done tt)).

Definition decode (bs : bytes) : result WorkflowError WorkflowDefinition :=
  match decode_definition bs with Ok d => Ok d | Err e => Err (Serialization e) end.
Definition get_definition ctx (id version : string) : M WorkflowDefinition :=
  bs ← stmt (λ n s,
    match definitions s !! (id, version) with
    | Some r =>
        if filter_by (tenant_id ctx) (r_tenant_id r) && filter_by (namespace ctx) (r_namespace r)
        then (s, Done (definition_proto r))
        else (s, Failed (NotFound ("Definition " ++ id ++ ":" ++ version ++ " not found: " ++ no_rows)))
    | None => (s, Failed (NotFound ("Definition " ++ id ++ ":" ++ version ++ " not found: " ++ no_rows)))
    end);
  lift (decode bs).

Definition key_le (a b : (string * string) * DefinitionRow) : Prop := cmp a.1 b.1 ≠ Gt.
#[local] Instance key_le_dec a b : Decision (key_le a b).
Proof. unfold key_le. apply _. Defined.
Definition list_definitions ctx (name_prefix : option string) : M (list WorkflowDefinition) :=
  rows ← stmt (λ n s,
    (s, Done (snd <$> merge_sort key_le (List.filter (λ '(_, r),
       match name_prefix with Some p => like dialect (p +:+ "%") (r_name r) | None => true end
       && filter_by (tenant_id ctx) (r_tenant_id r) && filter_by (namespace ctx) (r_namespace r))
       (map_to_list (definitions s))))));
  lift (sequence_results (decode ∘ definition_proto <$> rows)).

(** A definition with executions is kept by their foreign key. *)
Definition delete_definition ctx (id version : string) : M () := stmt (λ n s,
  let gone (k : string * string) (r : DefinitionRow) :=
    String.eqb k.1 id && filter_by version k.2
    && String.eqb (r_tenant_id r) (tenant_id ctx) && String.eqb (r_namespace r) (namespace ctx) in
  let used := existsb (λ '(_, e),
    match definitions s !! (r_definition_id e, r_definition_version e) with
    | Some r => gone (r_definition_id e, r_definition_version e) r
    | None => false
    end) (executions s) in
  if used then (s, Failed (Storage foreign_key))
  else (set_definitions s (filter (λ '(k, r), gone k r = false) (definitions s)), Done tt)).

Definition create_execution_with_node ctx (definition_id definition_version : string) (input : Value)
    (node : option string) : M string := stmt (λ n s,
  let i := ulid n in
  match definitions s !! (definition_id, definition_version) with
  | None => (s, Failed (Storage foreign_key))
  | Some _ =>
      (set_executions s (executions s ++
         [(i, mkExecRow definition_id definition_version (tenant_id ctx) (namespace ctx)
                (ExecutionStatus_as_sql_str ExecutionStatusPending) None (Some (to_string input)) None None
                node 1 (current_timestamp n))]), Done i)
  end).
Definition create_execution ctx (definition_id definition_version : string) (input : Value) : M string :=
  create_execution_with_node ctx definition_id definition_version input None.

Definition get_execution_row_with_tenant (i tenant ns : string) : M WorkflowExecutionRow :=
  r ← stmt (λ n s,
    match im_get i (executions s) with
    | Some r =>
        if String.eqb (re_tenant_id r) tenant && String.eqb (re_namespace r) ns then (s, Done r)
        else (s, Failed (NotFound ("Execution " ++ i ++ " not found: " ++ no_rows)))
    | None => (s, Failed (NotFound ("Execution " ++ i ++ " not found: " ++ no_rows)))
    end);
  lift (read_execution i r).
Definition get_execution ctx (i : string) : M WorkflowExecution :=
  r ← get_execution_row_with_tenant i (tenant_id ctx) (namespace ctx);
  mret (from_execution_row r).

(** UPDATE .. WHERE execution_id = i [AND version = expected], and the number of rows affected. *)
Definition guarded (expected : option Z) (r : ExecutionRow) : bool :=
  match expected with Some v => r_version r =? as_i64 v | None => true end.
Definition update_row (i : string) (expected : option Z) (f : ExecutionRow → ExecutionRow) s
    : WorkflowStorage * Z :=
  match im_get i (executions s) with
  | Some r =>
      if guarded expected r then (set_executions s (im_update i f (executions s)), 1) else (s, 0)
  | None => (s, 0)
  end.
Definition version_mismatch (i what : string) : WorkflowError :=
  ConcurrentUpdate ("Execution " ++ i ++ " version mismatch (concurrent " ++ what ++ ")").

Definition set_status (st : ExecutionStatus) (now : Z) (r : ExecutionRow) : ExecutionRow :=
  mkExecRow (r_definition_id r) (r_definition_version r) (re_tenant_id r) (re_namespace r)
    (ExecutionStatus_as_sql_str st) (r_current_step_id r) (re_input_json r) (re_output_json r) (re_error r)
    (r_node_id r) (r_version r + 1)
    (if bool_decide (st = ExecutionStatusRunning) then now else r_last_heartbeat r).
Definition update_execution_status_with_version (i : string) (st : ExecutionStatus) (expected : option Z)
    : M () := stmt (λ n s,
  let '(s, rows) := update_row i expected (set_status st (current_timestamp n)) s in
  if bool_decide (is_Some expected) && (rows =? 0)
  then (s, Failed (version_mismatch i "update detected")) else (s, Done tt)).
Definition update_execution_status (i : string) (st : ExecutionStatus) : M () :=
  update_execution_status_with_version i st None.

Definition set_node (node : string) (now : Z) (r : ExecutionRow) : ExecutionRow :=
  mkExecRow (r_definition_id r) (r_definition_version r) (re_tenant_id r) (re_namespace r) (re_status r)
    (r_current_step_id r) (re_input_json r) (re_output_json r) (re_error r) (Some node) (r_version r + 1)
    now.
Definition transfer_ownership (i new_node : string) (expected : Z) : M () := stmt (λ n s,
  let '(s, rows) := update_row i (Some expected) (set_node new_node (current_timestamp n)) s in
  if rows =? 0 then (s, Failed (version_mismatch i "ownership transfer")) else (s, Done tt)).

Definition set_heartbeat (now : Z) (r : ExecutionRow) : ExecutionRow :=
  mkExecRow (r_definition_id r) (r_definition_version r) (re_tenant_id r) (re_namespace r) (re_status r)
    (r_current_step_id r) (re_input_json r) (re_output_json r) (re_error r) (r_node_id r) (r_version r)
    now.
Definition update_heartbeat (i node : string) : M () := stmt (λ n s,
  (set_executions s (im_update i (λ r,
     if bool_decide (r_node_id r = Some node) then set_heartbeat (current_timestamp n) r else r) (executions s)),
   Done tt)).

Definition set_output (v : Value) (r : ExecutionRow) : ExecutionRow :=
  mkExecRow (r_definition_id r) (r_definition_version r) (re_tenant_id r) (re_namespace r) (re_status r)
    (r_current_step_id r) (re_input_json r) (Some (to_string v)) (re_error r) (r_node_id r)
    (r_version r + 1) (r_last_heartbeat r).
Definition update_execution_output_with_version (i : string) (v : Value) (expected : option Z) : M () :=
  stmt (λ n s,
  let '(s, rows) := update_row i expected (set_output v) s in
  if bool_decide (is_Some expected) && (rows =? 0)
  then (s, Failed (version_mismatch i "update detected")) else (s, Done tt)).
Definition update_execution_output (i : string) (v : Value) : M () :=
  update_execution_output_with_version i v None.

Definition create_step_execution_with_attempt (i step : string) (v : Value) (attempt : Z) : M string :=
  stmt (λ n s,
  let j := ulid n in
  match im_get i (executions s) with
  | None => (s, Failed (Storage foreign_key))
  | Some _ =>
      (set_step_executions s (step_executions s ++
         [(j, mkStepRow i step (StepStatus_as_sql_str StepStatusRunning) (Some (to_string v)) None None
                attempt)]), Done j)
  end).
Definition create_step_execution (i step : string) (v : Value) : M string :=
  create_step_execution_with_attempt i step v 1.

Definition get_step_execution_row (j : string) : M StepExecutionRow :=
  r ← stmt (λ n s,
    match im_get j (step_executions s) with
    | Some r => (s, Done r)
    | None => (s, Failed (NotFound ("Step execution " ++ j ++ " not found: " ++ no_rows)))
    end);
  lift (read_step j r).
Definition get_step_execution (j : string) : M StepExecution :=
  r ← get_step_execution_row j; mret (from_step_row r).

Definition set_completed (st : StepStatus) (out : option Value) (err : option string) (r : StepRow)
    : StepRow :=
  mkStepRow (rs_execution_id r) (r_step_id r) (StepStatus_as_sql_str st) (rs_input_json r)
    (to_string <$> out) err (r_attempt r).
Definition complete_step_execution (j : string) (st : StepStatus) (out : option Value)
    (err : option string) : M () := stmt (λ n s,
  (set_step_executions s (im_update j (set_completed st out err) (step_executions s)), Done tt)).

Definition get_step_execution_history_rows (i : string) : M (list StepExecutionRow) :=
  rows ← stmt (λ n s,
    (s, Done (List.filter (λ '(_, r), String.eqb (rs_execution_id r) i) (step_executions s))));
  lift (sequence_results ((λ '(j, r), read_step j r) <$> rows)).
Definition get_step_execution_history (i : string) : M (list StepExecution) :=
  rows ← get_step_execution_history_rows i; mret (from_step_row <$> rows).

Definition send_signal (i name : string) (v : Value) : M () := stmt (λ n s,
  match im_get i (executions s) with
  | None => (s, Failed (Storage ("Failed to store signal: " ++ foreign_key)))
  | Some _ => (set_signals s (signals s ++ [mkSignal i name (to_string v)]), Done tt)
  end).

(** The two statements of [check_signal]: the oldest signal is read, and the one that is the oldest by
    then is deleted. *)
Definition is_signal (i name : string) (g : SignalRow) : bool :=
  String.eqb (sg_execution_id g) i && String.eqb (signal_name g) name.
Fixpoint delete_first {A} (f : A → bool) (l : list A) : list A :=
  match l with [] => [] | x :: l => if f x then l else x :: delete_first f l end.
Definition select_signal (i name : string) : M (option text) := stmt (λ n s,
  (s, Done (payload <$> find (is_signal i name) (signals s)))).
Definition delete_signal (i name : string) : M () := stmt (λ n s,
  (set_signals s (delete_first (is_signal i name) (signals s)), Done tt)).
Definition parse_payload (t : text) : result WorkflowError Value :=
  match from_str t with Some v => Ok v | None => Err (Serialization json_error) end.
Definition check_signal (i name : string) : M (option Value) :=
  o ← select_signal i name;
  match o with
  | Some t => v ← lift (parse_payload t); _ ← delete_signal i name; mret (Some v)
  | None => mret None
  end.

Definition list_execution_rows_by_status (sts : list ExecutionStatus) (node : option string)
    (tenant ns : string) : M (list WorkflowExecutionRow) :=
  rows ← stmt (λ n s,
    (s, Done (List.filter (λ '(_, r),
       existsb (λ st, String.eqb (ExecutionStatus_as_sql_str st) (re_status r)) sts
       && match node with Some x => bool_decide (r_node_id r = Some x) | None => true end
       && filter_by tenant (re_tenant_id r) && filter_by ns (re_namespace r)) (executions s))));
  lift (sequence_results ((λ '(i, r), read_execution i r) <$> rows)).
Definition list_executions_by_status ctx (sts : list ExecutionStatus) (node : option string)
    : M (list WorkflowExecution) :=
  rows ← list_execution_rows_by_status sts node (tenant_id ctx) (namespace ctx);
  mret (from_execution_row <$> rows).

(** The oldest heartbeats first. *)
Definition heartbeat_le (a b : string * ExecutionRow) : Prop := r_last_heartbeat a.2 <= r_last_heartbeat b.2.
#[local] Instance heartbeat_le_dec a b : Decision (heartbeat_le a b).
Proof. unfold heartbeat_le. apply _. Defined.
Definition list_stale_execution_rows (stale_threshold_seconds : Z) (sts : list ExecutionStatus)
    : M (list WorkflowExecutionRow) :=
  rows ← stmt (λ n s,
    (s, Done (merge_sort heartbeat_le (List.filter (λ '(_, r),
       existsb (λ st, String.eqb (ExecutionStatus_as_sql_str st) (re_status r)) sts
       && (1000 * as_i64 stale_threshold_seconds <? clock n - r_last_heartbeat r)) (executions s)))));
  lift (sequence_results ((λ '(i, r), read_execution i r) <$> rows)).
Definition list_stale_executions (stale_threshold_seconds : Z) (sts : list ExecutionStatus)
    : M (list WorkflowExecution) :=
  rows ← list_stale_execution_rows stale_threshold_seconds sts; mret (from_execution_row <$> rows).
End storage.

(** ** Lemmas *)

Section lemmas.
Context `{!JsonText} `{!JsonTextLaws} `{!World} `{!Unicode} `{!UnicodeLaws} `{!DefinitionCodec}
  `{!DefinitionCodecLaws} (dialect : Dialect).
Implicit Types (s : WorkflowStorage) (ctx : RequestContext).

Lemma ExecutionStatus_of_to st : ExecutionStatus_of_i32 (ExecutionStatus_to_i32 st) = Some st.
Proof. by destruct st. Qed.
Lemma StepStatus_of_to st : StepStatus_of_i32 (StepStatus_to_i32 st) = Some st.
Proof. by destruct st. Qed.
Lemma ExecutionStatus_from_as st : st ≠ ExecutionStatusUnspecified →
  ExecutionStatus_from_sql_str (ExecutionStatus_as_sql_str st) = Ok st.
Proof. intros. unfold ExecutionStatus_from_sql_str. by destruct st; rewrite to_uppercase_ascii. Qed.

(** A compare-and-set of the row of an execution. *)
Lemma update_row_Some i v f s : let '(s', n) := update_row i (Some v) f s in
  (n = 1 ∧ ∃ r, im_get i (executions s) = Some r ∧ r_version r = as_i64 v
     ∧ im_get i (executions s') = Some (f r))
  ∨ (n = 0 ∧ s' = s ∧ ∀ r, im_get i (executions s) = Some r → r_version r ≠ as_i64 v).
Proof.
  unfold update_row, guarded. destruct (im_get i (executions s)) as [r|] eqn:Hr; [|right; by split_and!].
  destruct (r_version r =? as_i64 v) eqn:Hv; [left|right].
  - apply Z.eqb_eq in Hv. split; [done|]. exists r. split_and!; [done|done|]. cbn.
    by rewrite im_get_update, decide_True, Hr.
  - apply Z.eqb_neq in Hv. by split_and!; [| |intros ? [= <-]].
Qed.
End lemmas.

(** ** Properties *)

Section properties.
Context `{!JsonText} `{!JsonTextLaws} `{!World} `{!Unicode} `{!UnicodeLaws} `{!DefinitionCodec}
  `{!DefinitionCodecLaws} (dialect : Dialect).
Implicit Types (s : WorkflowStorage) (ctx : RequestContext).

(** The row of execution [i] keeps its version or has a greater one, or is gone. *)
Definition versions_grow (i : string) s s' : Prop := ∀ r', im_get i (executions s') = Some r' →
  ∃ r, im_get i (executions s) = Some r ∧ r_version r <= r_version r'.

(** At most one node takes over an execution at a version: once a transfer succeeded, every other with
    the same expected version fails with a concurrent update and changes no table, whatever the other
    connections did meanwhile, as long as they wind no version back. *)
Theorem ownership_transferred_once i a b v s s1 s2 : (∀ n s, versions_grow i s (others n s)) →
  transfer_ownership dialect i a v s = (s1, Done tt) → versions_grow i s1 s2 →
  transfer_ownership dialect i b v s2
  = ((arrive s2).2, Failed (version_mismatch i "ownership transfer")).
Proof.
  intros Hg Hsa Hgrow. unfold transfer_ownership, stmt in *.
  destruct (arrive s) as [n t] eqn:Ha. destruct (arrive s2) as [n2 t2] eqn:Ha2. cbn [snd].
  pose proof (update_row_Some i v (set_node a (current_timestamp dialect n)) t) as Hu1.
  pose proof (update_row_Some i v (set_node b (current_timestamp dialect n2)) t2) as Hu2.
  destruct (update_row _ _ _ t) as [t' k], (update_row _ _ _ t2) as [t2' k2].
  destruct Hu1 as [(-> & r & _ & Hv & Hr)|(-> & _)]; [|done]. cbn in Hsa. injection Hsa as <-.
  destruct Hu2 as [(_ & r2 & Hr2 & Hv2 & _)|(-> & -> & _)]; [exfalso|done].
  injection Ha2 as <- <-. destruct (Hg _ _ _ Hr2) as (q & Hq & ?).
  destruct (Hgrow _ Hq) as (r' & Hr' & ?). rewrite Hr in Hr'. injection Hr' as <-. cbn in *. lia.
Qed.

(** The payloads of the signals of a name that wait for an execution. *)
Definition pending (i name : string) s : list text := payload <$> filter (λ g, is_signal i name g = true) (signals s).

Lemma find_pending i name s : payload <$> find (is_signal i name) (signals s) = head (pending i name s).
Proof.
  unfold pending. induction (signals s) as [|g gs IH]; [done|]. cbn [find].
  destruct (is_signal i name g) eqn:Hg; [by rewrite filter_cons_True|].
  rewrite filter_cons_False by congruence. done.
Qed.
Lemma is_signal_inj i name i' name' g :
  is_signal i name g = true → is_signal i' name' g = true → (i, name) = (i', name').
Proof.
  unfold is_signal. intros [->%String.eqb_eq ->%String.eqb_eq]%andb_prop
    [->%String.eqb_eq ->%String.eqb_eq]%andb_prop. done.
Qed.
Lemma delete_pending i name i' name' s : payload <$> filter (λ g, is_signal i' name' g = true)
    (delete_first (is_signal i name) (signals s))
  = if decide ((i, name) = (i', name')) then tail (pending i' name' s) else pending i' name' s.
Proof.
  unfold pending. induction (signals s) as [|g gs IH]; [by case_decide|]. cbn [delete_first].
  destruct (is_signal i name g) eqn:Hg.
  - case_decide as He; [injection He as <- <-; by rewrite filter_cons_True|].
    rewrite filter_cons_False; [done|]. intros Hg'. by apply He, (is_signal_inj _ _ _ _ g).
  - destruct (is_signal i' name' g) eqn:Hg'; [|by rewrite !filter_cons_False by congruence].
    rewrite !filter_cons_True by done. cbn. rewrite IH. case_decide as He; [|done].
    injection He as <- <-. congruence.
Qed.

(** The signals of a name to an execution are a queue when no other connection acts: a signal that is
    sent is the last of it, and the check gives the payload that was sent first and takes it out, or
    nothing when there is none; the other queues are as before. *)
Theorem signals_are_queues i name v s : (∀ n s, others n s = s) → is_Some (im_get i (executions s)) →
  (∃ s', send_signal i name v s = (s', Done tt) ∧ ∀ i' name',
     pending i' name' s' = if decide ((i, name) = (i', name')) then pending i' name' s ++ [to_string v]
                           else pending i' name' s)
  ∧ ∃ s', check_signal i name s
      = (s', match pending i name s with
             | [] => Done None
             | t :: _ => match parse_payload t with Ok v => Done (Some v) | Err e => Failed e end
             end)
    ∧ ∀ i' name', pending i' name' s'
        = if decide ((i, name) = (i', name'))
          then match pending i' name' s with
               | [] => []
               | t :: ts => match parse_payload t with Ok _ => ts | Err _ => t :: ts end
               end
          else pending i' name' s.
Proof.
  intros Hq [r Hr]. split.
  - unfold send_signal, stmt, arrive. cbn. rewrite Hq, Hr. eexists. split; [done|]. intros i' name'.
    unfold pending. cbn [signals set_signals]. rewrite filter_app, fmap_app.
    destruct (decide ((i, name) = (i', name'))) as [He|He].
    + injection He as <- <-. rewrite filter_cons_True; [done|].
      unfold is_signal. cbn. by rewrite !String.eqb_refl.
    + rewrite filter_cons_False; [by rewrite app_nil_r|]. unfold is_signal. cbn.
      intros [->%String.eqb_eq ->%String.eqb_eq]%andb_prop. done.
  - unfold check_signal, select_signal, delete_signal, stmt, arrive, mbind, M_bind. cbn.
    rewrite !Hq. cbn. rewrite find_pending. destruct (pending i name s) as [|t ts] eqn:Hp; cbn.
    { eexists. split; [done|]. intros i' name'. case_decide as He; [|done]. injection He as <- <-.
      unfold pending in *. cbn. by rewrite Hp. }
    destruct (parse_payload t) as [x|e] eqn:Hx; cbn.
    + rewrite !Hq. cbn. eexists. split; [done|]. intros i' name'. unfold pending at 1. cbn.
      rewrite delete_pending. case_decide as He; [|done]. injection He as <- <-. by rewrite Hp; cbn; rewrite Hx.
    + eexists. split; [done|]. intros i' name'. case_decide as He; [|done]. injection He as <- <-.
      unfold pending in *. cbn. by rewrite Hp, Hx.
Qed.

(** The definitions are kept by identifier and version only: a definition that another tenant saves
    under the same key is what the first tenant reads from then on, and the other does not find its
    own. *)
Theorem definition_overwritten a b (d d' : WorkflowDefinition) s s' : (∀ n s, others n s = s) →
  d_id d' = d_id d → d_version d' = d_version d → encodable d' = true →
  tenant_id b ≠ tenant_id a → tenant_id b ≠ "" → definitions s !! (d_id d, d_version d) = None →
  s' = (save_definition b d' (save_definition a d s).1).1 →
  (get_definition a (d_id d) (d_version d) s').2 = Done d'
  ∧ (get_definition b (d_id d) (d_version d) s').2
    = Failed (NotFound ("Definition " ++ d_id d ++ ":" ++ d_version d ++ " not found: " ++ no_rows)).
Proof.
  intros Hq Hi Hv He Hab Hb Hn ->.
  unfold get_definition, save_definition, stmt, arrive, mbind, M_bind. cbn. rewrite !Hq. cbn.
  rewrite Hn. cbn. rewrite Hi, Hv, !lookup_insert_eq. cbn. unfold filter_by.
  rewrite !String.eqb_refl, !orb_true_r. cbn. unfold decode. rewrite (decode_encode_definition d') by done. split; [done|].
  destruct (String.eqb_spec (tenant_id b) ""); [done|].
  by destruct (String.eqb_spec (tenant_id b) (tenant_id a)).
Qed.
End properties.

(** ** A storage to try things on

    The text of a value is the value, identifiers are the numbers of the statements, and the only
    definitions that are encoded have no steps. *)

Module Sample.
#[export] Instance value_text : JsonText := {| text := Value; to_string := id; from_str := Some |}.
#[export] Instance value_text_laws : JsonTextLaws.
Proof. by intros v. Qed.
Definition world (o : nat → WorkflowStorage → WorkflowStorage) : World :=
  {| ulid := pretty; clock := Z.of_nat; others := o; no_rows := "no rows";
     foreign_key := "FOREIGN KEY constraint failed"; json_error := "EOF" |}.
Definition quiet : World := world (λ _ s, s).
#[export] Instance ascii_case : Unicode := str_map ascii_upper.
#[export] Instance ascii_case_laws : UnicodeLaws.
Proof. done. Qed.
#[export] Instance codec : DefinitionCodec := {|
  encode_definition d := Z.of_nat ∘ nat_of_ascii <$> list_ascii_of_string (d_name d);
  decode_definition bs :=
    Ok (mkDefinition "w" (string_of_list_ascii (ascii_of_nat ∘ Z.to_nat <$> bs)) "1" []);
  encodable d := String.eqb (d_id d) "w" && String.eqb (d_version d) "1" && bool_decide (length (steps d) = 0%nat)
|}.
#[export] Instance codec_laws : DefinitionCodecLaws.
Proof.
  intros [i n v ss]. cbn. intros [[->%String.eqb_eq ->%String.eqb_eq]%andb_prop Hs%bool_decide_eq_true]%andb_prop.
  apply nil_length_inv in Hs as ->. repeat f_equal. rewrite <-list_fmap_compose.
  rewrite (list_fmap_ext _ id); [by rewrite list_fmap_id, string_of_list_ascii_of_string|].
  intros _ c _. cbn. by rewrite Nat2Z.id, ascii_nat_embedding.
Qed.

Definition ctx : RequestContext := new_without_auth "acme" "prod".
Definition row (st : string) : ExecutionRow := mkExecRow "w" "1" "acme" "prod" st None None None None None 1 0.
Definition one : WorkflowStorage := mkStore ∅ [("e", row "RUNNING")] [] [] 0.
End Sample.
#[local] Existing Instances Sample.value_text Sample.value_text_laws Sample.codec Sample.codec_laws.
#[local] Existing Instance Sample.quiet.

Lemma ownership_transferred_once_witness :
  transfer_ownership PostgreSQL "e" "b" 1 (transfer_ownership PostgreSQL "e" "a" 1 Sample.one).1
  = ((arrive (transfer_ownership PostgreSQL "e" "a" 1 Sample.one).1).2,
     Failed (version_mismatch "e" "ownership transfer")).
Proof.
  eapply (ownership_transferred_once PostgreSQL "e" "a" "b" 1 Sample.one).
  - intros n s r Hr. by exists r.
  - reflexivity.
  - intros r Hr. by exists r.
Defined.

Lemma signals_are_queues_witness :
  let s := (send_signal "e" "go" (Number 1) Sample.one).1 in
  (check_signal "e" "go" s).2 = Done (Some (Number 1)).
Proof.
  intros s. destruct (signals_are_queues "e" "go" (Number 2) s) as [_ (s' & -> & _)];
    [done|by eexists|by vm_compute].
Defined.

Lemma definition_overwritten_witness :
  let other := new_without_auth "globex" "prod" in
  let s := (save_definition other (make_workflow_definition "w" "theirs" "1" [])
             (save_definition Sample.ctx (make_workflow_definition "w" "ours" "1" []) Sample.one).1).1 in
  (get_definition Sample.ctx "w" "1" s).2 = Done (make_workflow_definition "w" "theirs" "1" [])
  ∧ ∃ e, (get_definition other "w" "1" s).2 = Failed e.
Proof.
  intros other s. destruct (definition_overwritten Sample.ctx other (make_workflow_definition "w" "ours" "1" [])
    (make_workflow_definition "w" "theirs" "1" []) Sample.one s) as [Ha Hb]; [done..|].
  split; [exact Ha|by eexists].
Defined.
