(* ===== verification/Workflow.v ===== *)
(** Workflow: the executor of crates/workflow/src/executor.rs over the storage of [WorkflowStore].

    A workflow runs its steps one after the other; the branches of a parallel step and the items of a
    batch of a map step are tasks, whose statements interleave in the order of [schedule].  A task is a
    state machine with one statement of the database per transition ([task_step]); run alone it is the
    loop of attempts of [execute_task_step].  Other connections act between any two statements
    ([others] of [WorkflowStore]); a branch without an identifier makes the step fail while the branches
    before it go on, and what these do is then part of [others].

    Sleeping has no effect; the polls of a signal step are counted by [polls] and are [Waiting] when
    there are no more.  Parameters: the power function of the floating-point library, the times that are
    printed and parsed by chrono, the schedule, the time that a signal step has waited at each poll. *)
From stdpp Require Import pretty.
From S2P Require Import Prelude Text Json Context KeyValue Retry WorkflowStore.

#[local] Arguments String.append : simpl nomatch.

(** ** Steps *)

Definition json_as_u64 (v : Value) : option Z :=
  match value_as_u64 v with Some n => Some n | None => f64_as_u64 <$> value_as_f64 v end.
Definition get_str (k : string) (v : Value) : option string := get k v ≫= value_as_str.
Definition get_u64 (k : string) (v : Value) : option Z := get k v ≫= json_as_u64.
Definition get_array (k : string) (v : Value) : option (list Value) := get k v ≫= value_as_array.

Definition duration_ms (d : ProtoDuration) : Z :=
  Z.max (seconds d) 0 * 1000 + Z.max (nanos d) 0 / 1000000.
Definition calculate_backoff (powi : f64 → Z → f64) (policy : RetryPolicy) (attempt : Z) : Z :=
  let initial_ms := from_option duration_ms 100 (initial_delay policy) in
  let max_ms := from_option duration_ms 30000 (max_delay policy) in
  let mult := if f64_leb (f64_of_Z 1) (backoff_multiplier policy)
              then backoff_multiplier policy else f64_of_Z 2 in
  let base := initial_ms * f64_as_unsigned (2 ^ 128 - 1) (powi mult (as_i32 (attempt - 1))) in
  let base := if base <? 2 ^ 128 then base else max_ms in
  as_u64 (Z.min base max_ms).

(** What happens when an action of a step fails with a message. *)
Definition simulate_step_execution `{!Unicode} (rfc3339 : string → Z → string) (step : Step)
    (input : Value) (attempt : Z) : result string Value :=
  let config := step_config_value step in
  let action := get_str "action" config in
  let rest : result string Value :=
    match get "output" config with
    | Some custom => Ok custom
    | None =>
        if String.eqb (s_id step) "say-hello"
        then Ok (json_object [("greeting", Str "Hello, World!")])
        else Ok (json_object [("step_id", Str (s_id step)); ("action", Str (default "default" action));
                              ("input_received", input)])
    end in
  match action with
  | None => rest
  | Some a =>
      if String.eqb a "fail" then Err (default "Step failed" (get_str "error" config))
      else if String.eqb a "flaky" then
        let count : option Z := get "fail_count" config ≫= (λ v,
          match value_as_f64 v with Some f => Some (f64_as_u64 f) | None => value_as_u64 v end) in
        let fail_count := as_u32 (default 0 count) in
        if attempt <=? fail_count then Err ("Flaky failure (attempt " +:+ pretty attempt +:+ ")")
        else Ok (json_object [("step_id", Str (s_id step)); ("action", Str "flaky");
                              ("succeeded_on_attempt", Number attempt)])
      else if String.eqb a "generate" then
        Ok (json_object [("generated_data", Str "test-data"); ("timestamp", Str (rfc3339 (s_id step) attempt))])
      else if String.eqb a "transform" then
        let applied (how : string) : result string Value :=
          Ok (json_object [("transformed_input", input); ("transformation", Str how)]) in
        if String.eqb (default "default" (get_str "operation" config)) "uppercase"
        then match input with
             | Str s => Ok (json_object [("result", Str (to_uppercase s))])
             | _ => applied "uppercase"
             end
        else applied "applied"
      else if String.eqb a "multiply" then
        let factor := f64_as_u64 (default (f64_of_Z 1) (get "factor" config ≫= value_as_f64)) in
        let n := match value_as_f64 input with
                 | Some f => f64_as_u64 f
                 | None => default 0 (value_as_u64 input)
                 end in
        Ok (json_object [("result", Number (wrap 64 (n * factor)))])
      else rest
  end.

Definition extract_variable (input : Value) (variable : string) : Value :=
  let field := if String.prefix "$." variable then str_drop 2 variable else variable in
  default Null (get field input).
Definition compare_numbers (lt : f64 → f64 → bool) (ltz : Z → Z → bool) (a e : Value) : bool :=
  match value_as_f64 a, value_as_f64 e with
  | Some a, Some e => lt a e
  | _, _ =>
      match value_as_i64 a, value_as_i64 e with Some a, Some e => ltz a e | _, _ => false end
  end.
Definition evaluate_condition (actual : Value) (operator : string) (expected : Value)
    : result WorkflowError bool :=
  if String.eqb operator "equals" then Ok (value_eqb actual expected)
  else if String.eqb operator "greater_than" then
    Ok (compare_numbers (λ a e, f64_ltb e a) (λ a e, e <? a) actual expected)
  else if String.eqb operator "less_than" then Ok (compare_numbers f64_ltb Z.ltb actual expected)
  else Err (InvalidDefinition ("Unknown operator: " +:+ operator)).
Definition require {A} (m : string) (o : option A) : result WorkflowError A :=
  match o with Some a => Ok a | None => Err (InvalidDefinition m) end.

(** The output that is recorded for the first choice that matches and has a next step. *)
Fixpoint choose (input : Value) (choices : list Value) : result WorkflowError (option Value) :=
  match choices with
  | [] => Ok None
  | choice :: choices =>
      variable ← require "Choice must have 'variable' field" (get_str "variable" choice);
      operator ← require "Choice must have 'operator' field" (get_str "operator" choice);
      expected ← require "Choice must have 'value' field" (get "value" choice);
      b ← evaluate_condition (extract_variable input variable) operator expected;
      match (if (b : bool) then get_str "next" choice else None) with
      | Some next =>
          Ok (Some (json_object [("choice_taken", Str next);
            ("condition", json_object [("variable", Str variable); ("operator", Str operator);
                                       ("value", expected)])]))
      | None => choose input choices
      end
  end.
(** The decision of a choice step: a choice, the default, or none. *)
Definition decide_choice (config input : Value) : result WorkflowError Value :=
  o ← choose input (default [] (get_array "choices" config));
  Ok (match o with
      | Some v => v
      | None =>
          match get_str "default" config with
          | Some d => json_object [("choice_taken", Str d); ("condition", Str "default")]
          | None => json_object [("choice_taken", Null); ("condition", Str "no_match_no_default")]
          end
      end).

Definition merge_json_objects (base overlay : Value) : Value :=
  match base, overlay with
  | Object b, Object o => Object (foldl (λ m '(k, v), obj_insert k v m) b o)
  | _, _ => overlay
  end.

(** The durations of a wait step; [Duration::from_secs_f64] panics on what is not a duration. *)
Inductive WaitFor := WaitMs (ms : Z) | WaitPanics | BadTimestamp (t : string) | NoDuration.
Definition wait_duration (parse_rfc3339 : string → option Z) (utc_now : Z) (config : Value) : WaitFor :=
  match get_u64 "duration_ms" config with
  | Some ms => WaitMs ms
  | None =>
      match get "duration_secs" config ≫= value_as_f64 with
      | Some f =>
          if f64_ltb f (f64_of_Z 0) || negb (f64_ltb f (f64_of_Z (2 ^ 64))) then WaitPanics
          else WaitMs (f64_as_u64 (f64_mul f (f64_of_Z 1000)))
      | None =>
          match get_str "until" config with
          | Some t => match parse_rfc3339 t with
                      | Some u => WaitMs (Z.max 0 (u - utc_now))
                      | None => BadTimestamp t
                      end
          | None => NoDuration
          end
      end
  end.

(** ** Tasks *)

Section executor.
Context `{!JsonText} `{!World} `{!Unicode} `{!DefinitionCodec} (dialect : Dialect).
Context (rfc3339 : string → Z → string) (parse_rfc3339 : string → option Z)
  (utc_now : Z) (schedule : nat → nat) (polls : nat) (elapsed : nat → Z).
Implicit Types (s : WorkflowStorage) (i : string) (v : Value).

Inductive TaskState :=
| Attempt (k : Z)
| Running (k : Z) (step_exec_id : string)
| Ended (r : result WorkflowError Value).

Definition max_attempts_of (step : Step) : Z := from_option max_attempts 1 (retry step).
Definition exhausted (step : Step) (last_error : option string) : WorkflowError :=
  Execution ("Step " +:+ s_id step +:+ " failed after " +:+ pretty (max_attempts_of step)
    +:+ " attempts: " +:+ default "Unknown error" last_error).

Definition task_step i (step : Step) (input : Value) (t : TaskState) : M TaskState :=
  match t with
  | Attempt k =>
      if k <=? max_attempts_of step
      then j ← create_step_execution_with_attempt i (s_id step) input k; mret (Running k j)
      else mret (Ended (Err (exhausted step None)))
  | Running k j =>
      match simulate_step_execution rfc3339 step input k with
      | Ok out =>
          _ ← complete_step_execution j StepStatusCompleted (Some out) None; mret (Ended (Ok out))
      | Err m =>
          _ ← complete_step_execution j StepStatusFailed None (Some m);
          mret (if k <? max_attempts_of step then Attempt (k + 1)
                else Ended (Err (exhausted step (Some m))))
      end
  | Ended r => mret (Ended r)
  end.
(** An error of the storage ends a task. *)
Definition task_run i (step : Step) (input : Value) (t : TaskState) : WorkflowStorage → WorkflowStorage * TaskState :=
  λ s, match task_step i step input t s with
       | (s, Done t) => (s, t)
       | (s, Failed e) => (s, Ended (Err e))
       | (s, _) => (s, t)
       end.
Definition as_outcome {A} (r : result WorkflowError A) : outcome A :=
  match r with Ok a => Done a | Err e => Failed e end.

Fixpoint drive (fuel : nat) i (step : Step) (input : Value) (t : TaskState) : M Value := λ s,
  match t with
  | Ended r => (s, as_outcome r)
  | _ =>
      match fuel with
      | O => (s, Waiting)
      | S fuel => let '(s, t) := task_run i step input t s in drive fuel i step input t s
      end
  end.
(** Two statements per attempt. *)
Definition task_fuel (step : Step) : nat := S (2 * Z.to_nat (max_attempts_of step)).
Definition execute_task_step i (step : Step) (input : Value) : M Value :=
  drive (task_fuel step) i step input (Attempt 1).

(** *** Tasks that interleave *)

Record Task := mkTask { t_step : Step; t_input : Value; t_state : TaskState }.
Definition spawn (step : Step) (input : Value) : Task := mkTask step input (Attempt 1).
Definition ended (t : Task) : option (result WorkflowError Value) :=
  match t_state t with Ended r => Some r | _ => None end.
(** The positions of the tasks that go on. *)
Definition going (ts : list Task) : list nat :=
  List.filter (λ n, match ts !! n with Some t => bool_decide (ended t = None) | None => false end)
    (seq 0 (length ts)).
Definition advance i (t : Task) s : WorkflowStorage * Task :=
  let '(s, st) := task_run i (t_step t) (t_input t) (t_state t) s in (s, mkTask (t_step t) (t_input t) st).
Fixpoint run_tasks (fuel : nat) i (ts : list Task) s : WorkflowStorage * list Task :=
  match fuel with
  | O => (s, ts)
  | S fuel =>
      match going ts with
      | [] => (s, ts)
      | gs =>
          let n := default 0%nat (gs !! (schedule (tick s) mod length gs)%nat) in
          match ts !! n with
          | Some t => let '(s, t) := advance i t s in run_tasks fuel i (<[n := t]> ts) s
          | None => (s, ts)
          end
      end
  end.
Definition total_fuel (ts : list Task) : nat := sum_list_with (λ t, task_fuel (t_step t)) ts.
(** [join_all]: the results in the order of the tasks. *)
Definition join_all i (ts : list Task) : M (list (result WorkflowError Value)) := λ s,
  let '(s, ts) := run_tasks (total_fuel ts) i ts s in
  match mapM ended ts with Some rs => (s, Done rs) | None => (s, Waiting) end.

Definition outputs_of (rs : list (result WorkflowError Value)) : list Value :=
  omap (λ r, match r with Ok v => Some v | Err _ => None end) rs.
Definition first_error (rs : list (result WorkflowError Value)) : option string :=
  head (omap (λ r, match r with Ok _ => None | Err e => Some (WorkflowError_to_string e) end) rs).

(** *** Parallel steps *)

Fixpoint branch_tasks (input : Value) (branches : list Value) : result WorkflowError (list Task) :=
  match branches with
  | [] => Ok []
  | b :: branches =>
      id ← require "Branch must have 'id' field" (get_str "id" b);
      ts ← branch_tasks input branches;
      Ok (spawn (make_step id ("Branch: " +:+ id) StepTypeTask b None None None) input :: ts)
  end.
Definition execute_parallel_step i (step : Step) (input : Value) : M Value :=
  parent ← create_step_execution i (s_id step) input;
  branches ← lift (require "Parallel step must have 'branches' array in config"
                     (get_array "branches" (step_config_value step)));
  match branches with
  | [] =>
      let out := json_object [("branches", Array [])] in
      _ ← complete_step_execution parent StepStatusCompleted (Some out) None; mret out
  | _ =>
      ts ← lift (branch_tasks input branches);
      rs ← join_all i ts;
      match first_error rs with
      | Some e =>
          _ ← complete_step_execution parent StepStatusFailed None (Some e); fail (Execution e)
      | None =>
          let out := json_object [("branches", Array (outputs_of rs))] in
          _ ← complete_step_execution parent StepStatusCompleted (Some out) None; mret out
      end
  end.

(** *** Map steps *)

Definition item_config (iterator item : Value) : Value :=
  match get "should_fail" item ≫= value_as_bool, iterator with
  | Some true, Object vs =>
      Object (obj_insert "error" (Str "Item failed") (obj_insert "action" (Str "fail") vs))
  | _, _ => iterator
  end.
Definition item_task (step : Step) (iterator : Value) (n : nat) (item : Value) : Task :=
  spawn (make_step (s_id step +:+ "-item-" +:+ pretty n) ("Map Item " +:+ pretty n) StepTypeTask
           (item_config iterator item) None None None) item.
(** [(0..n).step_by(k)] *)
Fixpoint batches {A} (fuel : nat) (k : nat) (l : list A) : list (list A) :=
  match fuel, l with
  | S fuel, _ :: _ => take k l :: batches fuel k (drop k l)
  | _, _ => []
  end.
(** The batches up to the first that fails. *)
Fixpoint run_batches i (bs : list (list Task)) : M (result string (list Value)) :=
  match bs with
  | [] => mret (Ok [])
  | b :: bs =>
      rs ← join_all i b;
      match first_error rs with
      | Some e => mret (Err e)
      | None =>
          r ← run_batches i bs;
          mret (match r with Ok vs => Ok (outputs_of rs ++ vs) | Err e => Err e end)
      end
  end.
Definition execute_map_step i (step : Step) (input : Value) : M Value :=
  let config := step_config_value step in
  parent ← create_step_execution i (s_id step) input;
  items ← lift (require "Map step must have 'items' array in config" (get_array "items" config));
  match items with
  | [] =>
      _ ← complete_step_execution parent StepStatusCompleted (Some (Array [])) None; mret (Array [])
  | _ =>
      iterator ← lift (require "Map step must have 'iterator' configuration" (get "iterator" config));
      let n := length items in
      let max_concurrency := default (Z.of_nat n) (get_u64 "max_concurrency" config) in
      if max_concurrency =? 0 then panic
      else
        let ts := imap (item_task step iterator) items in
        r ← run_batches i (batches n (Z.to_nat (Z.min max_concurrency (Z.of_nat n))) ts);
        match r with
        | Err e => _ ← complete_step_execution parent StepStatusFailed None (Some e); fail (Execution e)
        | Ok vs => _ ← complete_step_execution parent StepStatusCompleted (Some (Array vs)) None; mret (Array vs)
        end
  end.

(** *** Steps of one statement *)

Definition execute_choice_step i (step : Step) (input : Value) : M Value :=
  j ← create_step_execution i (s_id step) input;
  out ← lift (decide_choice (step_config_value step) input);
  _ ← complete_step_execution j StepStatusCompleted (Some out) None;
  mret input.

Definition execute_wait_step i (step : Step) (input : Value) : M Value :=
  j ← create_step_execution i (s_id step) input;
  match wait_duration parse_rfc3339 utc_now (step_config_value step) with
  | WaitMs _ => _ ← complete_step_execution j StepStatusCompleted (Some input) None; mret input
  | WaitPanics => panic
  | BadTimestamp t =>
      _ ← complete_step_execution j StepStatusFailed None (Some ("Invalid timestamp format: " +:+ t));
      fail (InvalidDefinition ("Invalid timestamp format in Wait step: " +:+ t))
  | NoDuration =>
      let m := "Wait step requires 'duration_ms', 'duration_secs', or 'until' config" in
      _ ← complete_step_execution j StepStatusFailed None (Some m); fail (InvalidDefinition m)
  end.

Fixpoint poll (fuel k : nat) i (name : string) (timeout_ms : option Z) (j : string) (input : Value) : M Value :=
  match fuel with
  | O => λ s, (s, Waiting)
  | S fuel =>
      o ← check_signal i name;
      match o with
      | Some payload =>
          let out := merge_json_objects input payload in
          _ ← complete_step_execution j StepStatusCompleted (Some out) None; mret out
      | None =>
          match timeout_ms with
          | Some t =>
              if t <=? elapsed k then
                let m := ("Signal '" +:+ name +:+ "' not received within " +:+ pretty t +:+ "ms timeout")%string in
                _ ← complete_step_execution j StepStatusFailed None (Some m); fail (Execution m)
              else poll fuel (S k) i name timeout_ms j input
          | None => poll fuel (S k) i name timeout_ms j input
          end
      end
  end.
Definition execute_signal_step i (step : Step) (input : Value) : M Value :=
  let config := step_config_value step in
  j ← create_step_execution i (s_id step) input;
  name ← lift (require "Signal step requires 'signal_name' in config" (get_str "signal_name" config));
  poll polls 0 i name (get_u64 "timeout_ms" config) j input.

Definition execute_step i (step : Step) (input : Value) : M Value :=
  match step_type step with
  | StepTypeParallel => execute_parallel_step i step input
  | StepTypeMap => execute_map_step i step input
  | StepTypeChoice => execute_choice_step i step input
  | StepTypeWait => execute_wait_step i step input
  | StepTypeSignal => execute_signal_step i step input
  | StepTypeTask | StepTypeUnspecified => execute_task_step i step input
  end.

(** ** Workflows *)

Record Cursor := mkCursor {
  current_input : Value;
  current_step_index : nat;
  visited : gset string;
  choice_path_taken : bool;
  current_step : string
}.
(** The map from identifiers to steps, where the last of equal identifiers wins. *)
Definition step_map (def : WorkflowDefinition) (id : string) : option Step :=
  find (λ st, String.eqb (s_id st) id) (rev (steps def)).
(** [position] *)
Fixpoint position_from (n : nat) (id : string) (ss : list Step) : option nat :=
  match ss with
  | [] => None
  | st :: ss => if String.eqb (s_id st) id then Some n else position_from (S n) id ss
  end.

Definition choice_of (h : list StepExecution) (id : string) : option Value :=
  e ← find (λ e, String.eqb (sx_step_id e) id) (rev h);
  out ← step_output_value e;
  get "choice_taken" out.
(** Where the loop goes after a step, [None] when it breaks. *)
Definition after_choice (def : WorkflowDefinition) (c : Cursor) (out : Value) (taken : option Value)
    : option Cursor :=
  next ← taken ≫= value_as_str;
  _ ← step_map def next;
  Some (mkCursor out (default (current_step_index c) (position_from 0 next (steps def))) (visited c) true next).
Definition after_step (def : WorkflowDefinition) (step : Step) (c : Cursor) (out : Value) : option Cursor :=
  if choice_path_taken c then
    next ← step_next step;
    _ ← step_map def next;
    Some (mkCursor out (current_step_index c) (visited c) false next)
  else
    match step_next step with
    | Some next =>
        _ ← step_map def next;
        Some (mkCursor out (current_step_index c) (visited c) false next)
    | None =>
        let n := S (current_step_index c) in
        st ← steps def !! n;
        Some (mkCursor out n (visited c) false (s_id st))
    end.
Definition next_of i (def : WorkflowDefinition) (step : Step) (c : Cursor) (out : Value) : M (option Cursor) :=
  if bool_decide (step_type step = StepTypeChoice) then
    h ← get_step_execution_history i; mret (after_choice def c out (choice_of h (s_id step)))
  else mret (after_step def step c out).

(** The result of a step is matched, not propagated. *)
Definition try {A} (m : M A) : M (result WorkflowError A) := λ s,
  match m s with
  | (s, Done a) => (s, Done (Ok a))
  | (s, Failed e) => (s, Done (Err e))
  | (s, Panicked) => (s, Panicked)
  | (s, Waiting) => (s, Waiting)
  end.
Definition finish i (out : Value) : M () :=
  _ ← update_execution_output i out;
  update_execution_status dialect i ExecutionStatusCompleted.
Definition visit (c : Cursor) : Cursor :=
  mkCursor (current_input c) (current_step_index c) ({[current_step c]} ∪ visited c) (choice_path_taken c)
    (current_step c).
Fixpoint loop (fuel : nat) i (def : WorkflowDefinition) (c : Cursor) : M () :=
  match fuel with
  | O => λ s, (s, Waiting)
  | S fuel =>
      if bool_decide (current_step c ∈ visited c) then finish i (current_input c)
      else
        let c := visit c in
        step ← lift (require ("Step '" +:+ current_step c +:+ "' not found in workflow definition")
                       (step_map def (current_step c)));
        r ← try (execute_step i step (current_input c));
        match r with
        | Err _ => update_execution_status dialect i ExecutionStatusFailed
        | Ok out =>
            n ← next_of i def step c out;
            match n with Some c => loop fuel i def c | None => finish i out end
        end
  end.
(** Every round visits another step. *)
Definition execute_workflow_loop i (def : WorkflowDefinition) (initial_input : Value) : M () :=
  match steps def with
  | [] => panic
  | st :: _ => loop (S (length (steps def))) i def (mkCursor initial_input 0 ∅ false (s_id st))
  end.
Definition run_definition i (def : WorkflowDefinition) (input : Value) : M () :=
  match steps def with
  | [] => update_execution_status dialect i ExecutionStatusCompleted
  | _ => execute_workflow_loop i def input
  end.

Definition start_execution (ctx : RequestContext) (definition_id definition_version : string)
    (input : Value) : M string :=
  def ← get_definition ctx definition_id definition_version;
  i ← create_execution dialect ctx definition_id definition_version input;
  _ ← update_execution_status dialect i ExecutionStatusRunning;
  _ ← run_definition i def input;
  mret i.
Definition execute_from_state (ctx : RequestContext) i : M () :=
  e ← get_execution ctx i;
  def ← get_definition ctx (we_definition_id e) (we_definition_version e);
  run_definition i def (default (Object []) (execution_input_to_value (we_input e))).
End executor.
