(* ===== verification/WorkflowSpec.v ===== *)
(** WorkflowSpec: what a workflow computes, and that the executor of [Workflow] computes it.

    [eval_step] and [eval_definition] evaluate steps and workflows without a storage: they give the rows
    that are recorded for the steps and what becomes of the execution.  [performs] and [completes] say
    that a computation of the executor adds rows, and does so while it holds a row that it completes in
    the end; tasks that interleave keep the invariant [task_inv].  The rows are compared up to their
    order, which the schedule decides. *)
From stdpp Require Import pretty.
From S2P Require Import Prelude Text Json Context KeyValue Retry WorkflowStore Workflow.

#[local] Arguments String.append : simpl nomatch.
#[local] Arguments json_object : simpl never.
#[local] Arguments to_uppercase : simpl never.
#[local] Arguments simulate_step_execution : simpl never.
#[local] Arguments exhausted : simpl never.
#[local] Arguments update_execution_status : simpl never.

Section spec.
Context `{!JsonText} `{!World} `{!Unicode} `{!DefinitionCodec} (dialect : Dialect).
Context (rfc3339 : string → Z → string) (parse_rfc3339 : string → option Z) (utc_now : Z)
  (schedule : nat → nat) (polls : nat) (elapsed : nat → Z).
Implicit Types (s : WorkflowStorage) (v input : Value) (step : Step) (def : WorkflowDefinition).
Variable i : string.

(** ** Evaluation *)

Definition running_row (id : string) input (k : Z) : StepRow :=
  mkStepRow i id (StepStatus_as_sql_str StepStatusRunning) (Some (to_string input)) None None k.
Definition completed_row (id : string) input (k : Z) (out : Value) : StepRow :=
  set_completed StepStatusCompleted (Some out) None (running_row id input k).
Definition failed_row (id : string) input (k : Z) (m : string) : StepRow :=
  set_completed StepStatusFailed None (Some m) (running_row id input k).

(** The attempts of a task from the [k]-th, with [n] left. *)
Fixpoint attempts (n : nat) step input (k : Z) : list StepRow * result WorkflowError Value :=
  match n with
  | O => ([], Err (exhausted step None))
  | S n =>
      match simulate_step_execution rfc3339 step input k with
      | Ok out => ([completed_row (s_id step) input k out], Ok out)
      | Err m =>
          let row := failed_row (s_id step) input k m in
          match n with
          | O => ([row], Err (exhausted step (Some m)))
          | _ => let '(rows, r) := attempts n step input (k + 1) in (row :: rows, r)
          end
      end
  end.
Definition eval_task step input : list StepRow * result WorkflowError Value :=
  attempts (Z.to_nat (max_attempts_of step)) step input 1.
Definition eval_tasks (ts : list Task) : list StepRow * list (result WorkflowError Value) :=
  (concat ((λ t, (eval_task (t_step t) (t_input t)).1) <$> ts),
   (λ t, (eval_task (t_step t) (t_input t)).2) <$> ts).

Definition eval_parallel step input : list StepRow * outcome Value :=
  let id := s_id step in
  match get_array "branches" (step_config_value step) with
  | None =>
      ([running_row id input 1], Failed (InvalidDefinition "Parallel step must have 'branches' array in config"))
  | Some [] =>
      let out := json_object [("branches", Array [])] in ([completed_row id input 1 out], Done out)
  | Some branches =>
      match branch_tasks input branches with
      | Err e => ([running_row id input 1], Failed e)
      | Ok ts =>
          let '(rows, rs) := eval_tasks ts in
          match first_error rs with
          | Some e => (failed_row id input 1 e :: rows, Failed (Execution e))
          | None =>
              let out := json_object [("branches", Array (outputs_of rs))] in
              (completed_row id input 1 out :: rows, Done out)
          end
      end
  end.

Fixpoint eval_batches (bs : list (list Task)) : list StepRow * result string (list Value) :=
  match bs with
  | [] => ([], Ok [])
  | b :: bs =>
      let '(rows, rs) := eval_tasks b in
      match first_error rs with
      | Some e => (rows, Err e)
      | None =>
          let '(rows', r) := eval_batches bs in
          (rows ++ rows', match r with Ok vs => Ok (outputs_of rs ++ vs) | Err e => Err e end)
      end
  end.
Definition eval_map step input : list StepRow * outcome Value :=
  let id := s_id step in
  let config := step_config_value step in
  match get_array "items" config with
  | None => ([running_row id input 1], Failed (InvalidDefinition "Map step must have 'items' array in config"))
  | Some [] => ([completed_row id input 1 (Array [])], Done (Array []))
  | Some items =>
      match get "iterator" config with
      | None =>
          ([running_row id input 1], Failed (InvalidDefinition "Map step must have 'iterator' configuration"))
      | Some iterator =>
          let n := length items in
          let max_concurrency := default (Z.of_nat n) (get_u64 "max_concurrency" config) in
          if max_concurrency =? 0 then ([running_row id input 1], Panicked)
          else
            let ts := imap (item_task step iterator) items in
            let '(rows, r) := eval_batches (batches n (Z.to_nat (Z.min max_concurrency (Z.of_nat n))) ts) in
            match r with
            | Err e => (failed_row id input 1 e :: rows, Failed (Execution e))
            | Ok vs => (completed_row id input 1 (Array vs) :: rows, Done (Array vs))
            end
      end
  end.

Definition eval_choice step input : list StepRow * outcome Value :=
  match decide_choice (step_config_value step) input with
  | Ok out => ([completed_row (s_id step) input 1 out], Done input)
  | Err e => ([running_row (s_id step) input 1], Failed e)
  end.
Definition eval_wait step input : list StepRow * outcome Value :=
  let id := s_id step in
  match wait_duration parse_rfc3339 utc_now (step_config_value step) with
  | WaitMs _ => ([completed_row id input 1 input], Done input)
  | WaitPanics => ([running_row id input 1], Panicked)
  | BadTimestamp t =>
      ([failed_row id input 1 ("Invalid timestamp format: " +:+ t)],
       Failed (InvalidDefinition ("Invalid timestamp format in Wait step: " +:+ t)))
  | NoDuration =>
      let m := "Wait step requires 'duration_ms', 'duration_secs', or 'until' config" in
      ([failed_row id input 1 m], Failed (InvalidDefinition m))
  end.
(** A signal step waits for others. *)
Definition eval_step step input : list StepRow * outcome Value :=
  match step_type step with
  | StepTypeParallel => eval_parallel step input
  | StepTypeMap => eval_map step input
  | StepTypeChoice => eval_choice step input
  | StepTypeWait => eval_wait step input
  | StepTypeSignal => ([], Waiting)
  | StepTypeTask | StepTypeUnspecified =>
      let '(rows, r) := eval_task step input in (rows, as_outcome r)
  end.

(** The step that follows. *)
Definition taken_by step input : option Value :=
  match decide_choice (step_config_value step) input with Ok out => get "choice_taken" out | Err _ => None end.
Definition eval_next def step (c : Cursor) (out : Value) : option Cursor :=
  if bool_decide (step_type step = StepTypeChoice)
  then after_choice def c out (taken_by step (current_input c)) else after_step def step c out.

(** An execution ends with an output or with the error of a step. *)
Fixpoint eval_loop (fuel : nat) def (c : Cursor) : list StepRow * outcome (result WorkflowError Value) :=
  match fuel with
  | O => ([], Waiting)
  | S fuel =>
      if bool_decide (current_step c ∈ visited c) then ([], Done (Ok (current_input c)))
      else
        match step_map def (current_step c) with
        | None =>
            ([], Failed (InvalidDefinition ("Step '" +:+ current_step c +:+ "' not found in workflow definition")))
        | Some step =>
            let '(rows, o) := eval_step step (current_input c) in
            match o with
            | Done out =>
                match eval_next def step (visit c) out with
                | Some c => let '(rows', o) := eval_loop fuel def c in (rows ++ rows', o)
                | None => (rows, Done (Ok out))
                end
            | Failed e => (rows, Done (Err e))
            | Panicked => (rows, Panicked)
            | Waiting => (rows, Waiting)
            end
        end
  end.
Definition eval_definition def input : list StepRow * outcome (result WorkflowError Value) :=
  match steps def with
  | [] => ([], Done (Ok input))
  | st :: _ => eval_loop (S (length (steps def))) def (mkCursor input 0 ∅ false (s_id st))
  end.

(** ** Computations that add rows *)

(** The step rows have distinct keys that are not drawn again, those of the execution have a status that
    reads back, and the execution is there. *)
Definition readable (r : StepRow) : Prop :=
  rs_execution_id r = i → is_Some (match StepStatus_from_sql_str (rs_status r) with Ok st => Some st | Err _ => None end).
Record good s : Prop := mkGood {
  good_keys : NoDup (step_executions s).*1;
  good_fresh n : (tick s ≤ n)%nat → ulid n ∉ (step_executions s).*1;
  good_readable : Forall (λ jr, readable jr.2) (step_executions s);
  good_execution : is_Some (im_get i (executions s))
}.
(** Nothing changes but the step rows. *)
Record same s s' : Prop := mkSame {
  same_definitions : definitions s' = definitions s;
  same_executions : executions s' = executions s;
  same_signals : signals s' = signals s;
  same_tick : (tick s ≤ tick s')%nat
}.
Definition performs {A} (m : M A) (o : outcome A) (rows : list StepRow) : Prop := ∀ s, good s →
  ∃ s' added, m s = (s', o) ∧ same s s' ∧ good s'
    ∧ step_executions s' ≡ₚ step_executions s ++ added ∧ added.*2 ≡ₚ rows.
(** The same with a row [(j, r)] that becomes [(j, r')]. *)
Definition completes {A} (j : string) (r : StepRow) (m : M A) (o : outcome A) (r' : StepRow)
    (rows : list StepRow) : Prop := ∀ s rest, good s → step_executions s ≡ₚ (j, r) :: rest →
  ∃ s' added, m s = (s', o) ∧ same s s' ∧ good s'
    ∧ step_executions s' ≡ₚ (j, r') :: rest ++ added ∧ added.*2 ≡ₚ rows.
End spec.

(** ** Lemmas *)

Section lemmas.
Context `{!JsonText} `{!JsonTextLaws} `{!World} `{!Unicode} `{!UnicodeLaws} `{!DefinitionCodec} (dialect : Dialect).
Context (rfc3339 : string → Z → string) (parse_rfc3339 : string → option Z) (utc_now : Z)
  (schedule : nat → nat) (polls : nat) (elapsed : nat → Z).
Implicit Types (s : WorkflowStorage) (v input : Value) (step : Step) (def : WorkflowDefinition).
Variable i : string.
Hypothesis others_rest : ∀ n s, others n s = s.
Hypothesis ulid_inj : ∀ m n, ulid m = ulid n → m = n.

Abbreviation good := (good i).
Abbreviation performs := (performs i).
Abbreviation completes := (completes i).
Abbreviation running_row := (running_row i).
Abbreviation completed_row := (completed_row i).
Abbreviation failed_row := (failed_row i).

#[local] Instance same_preorder : PreOrder same.
Proof.
  split; [by split|]. intros s1 s2 s3 [] []. split; try congruence. lia.
Qed.

Lemma status_strings st : StepStatus_from_sql_str (StepStatus_as_sql_str st)
  = match st with
    | StepStatusUnspecified => Err (InvalidDefinition "Unknown step status: UNSPECIFIED")
    | _ => Ok st
    end.
Proof. destruct st; unfold StepStatus_from_sql_str; by rewrite to_uppercase_ascii. Qed.
Lemma execution_status_strings st : ExecutionStatus_from_sql_str (ExecutionStatus_as_sql_str st)
  = match st with
    | ExecutionStatusUnspecified => Err (InvalidDefinition "Unknown status: UNSPECIFIED")
    | _ => Ok st
    end.
Proof. destruct st; unfold ExecutionStatus_from_sql_str; by rewrite to_uppercase_ascii. Qed.
Lemma readable_status st (r : StepRow) : rs_status r = StepStatus_as_sql_str st →
  st ≠ StepStatusUnspecified → readable i r.
Proof. intros Hr Hst _. rewrite Hr, status_strings. destruct st; by eauto. Qed.

Lemma stmt_quiet {A} (f : nat → WorkflowStorage → WorkflowStorage * outcome A) s :
  stmt f s = f (tick s) (set_tick s (S (tick s))).
Proof. unfold stmt, arrive. by rewrite others_rest. Qed.

(** *** Rows *)

Lemma im_update_fresh {V} k (f : V → V) (l : list (string * V)) : k ∉ l.*1 → im_update k f l = l.
Proof.
  induction l as [|[k' v] l IH]; [done|]. cbn. rewrite not_elem_of_cons. intros [Hk Hl].
  case_bool_decide; [congruence|]. by rewrite IH.
Qed.
Lemma im_update_here {V} k (f : V → V) (v : V) (l1 l2 : list (string * V)) : k ∉ l1.*1 →
  im_update k f (l1 ++ (k, v) :: l2) = l1 ++ (k, f v) :: l2.
Proof.
  induction l1 as [|[k' v'] l1 IH]; cbn; [by rewrite bool_decide_eq_true_2|].
  rewrite not_elem_of_cons. intros [Hk Hl]. case_bool_decide; [congruence|]. by rewrite IH.
Qed.
Lemma im_update_perm {V} k (f : V → V) (v : V) (l rest : list (string * V)) : NoDup l.*1 →
  l ≡ₚ (k, v) :: rest → im_update k f l ≡ₚ (k, f v) :: rest.
Proof.
  intros Hl Hp. assert ((k, v) ∈ l) as (l1 & l2 & ->)%list_elem_of_split by (rewrite Hp; by left).
  rewrite fmap_app, NoDup_app in Hl. destruct Hl as (_ & Hl & _). cbn in Hl.
  rewrite im_update_here.
  - rewrite <-Permutation_middle in Hp |- *. by apply Permutation_cons_inv in Hp as ->.
  - intros Hk. apply (Hl _ Hk). by left.
Qed.

Lemma good_tick s n : good s → (tick s ≤ n)%nat → good (set_tick s n).
Proof. intros [] ?. split; cbn; eauto with lia. Qed.
(** A table with other rows under the same keys. *)
Lemma good_rows s rows : good s → rows.*1 ≡ₚ (step_executions s).*1 →
  Forall (λ jr, readable i jr.2) rows → good (set_step_executions s rows).
Proof.
  intros [] Hk Hr. split; cbn; [by rewrite Hk| |done|done]. intros n Hn. rewrite Hk. eauto.
Qed.
Lemma storage_good_snoc s r : good s → readable i r →
  good (set_step_executions (set_tick s (S (tick s))) (step_executions s ++ [(ulid (tick s), r)])).
Proof.
  intros [Hk Hf Hr He] Hx. split; cbn.
  - rewrite fmap_app. apply NoDup_app. split_and!; [done| |apply NoDup_singleton].
    intros j Hj ->%list_elem_of_singleton. by apply (Hf (tick s)).
  - intros n Hn. rewrite fmap_app, elem_of_app. cbn [fmap list_fmap fst].
    rewrite list_elem_of_singleton. intros [Hj|Hj%ulid_inj]; [|lia].
    apply (Hf n); [lia|done].
  - apply Forall_app. split; [done|]. by repeat constructor.
  - done.
Qed.

(** *** Statements of steps *)

Lemma create_step_spec id input k s : good s →
  create_step_execution_with_attempt i id input k s
  = (set_step_executions (set_tick s (S (tick s))) (step_executions s ++ [(ulid (tick s), running_row id input k)]),
     Done (ulid (tick s))).
Proof.
  intros Hs. unfold create_step_execution_with_attempt. rewrite stmt_quiet. cbn.
  by destruct (good_execution _ _ Hs) as [r ->].
Qed.
Lemma complete_step_spec j st out err s :
  complete_step_execution j st out err s
  = (set_step_executions (set_tick s (S (tick s))) (im_update j (set_completed st out err) (step_executions s)),
     Done tt).
Proof. unfold complete_step_execution. by rewrite stmt_quiet. Qed.

Lemma good_complete j r st out err s rest : good s → step_executions s ≡ₚ (j, r) :: rest →
  st ≠ StepStatusUnspecified →
  let s' := set_step_executions (set_tick s (S (tick s)))
              (im_update j (set_completed st out err) (step_executions s)) in
  good s' ∧ same s s' ∧ step_executions s' ≡ₚ (j, set_completed st out err r) :: rest.
Proof.
  intros Hs Hp Hst s'. pose proof (good_keys _ _ Hs) as Hk.
  assert (step_executions s' ≡ₚ (j, set_completed st out err r) :: rest) as Hp'
    by by apply im_update_perm.
  split_and!; [| |done].
  - apply good_rows; [by apply good_tick, le_S_n; auto|..]; cbn in *.
    + by rewrite Hp', Hp.
    + rewrite Hp'. pose proof (good_readable _ _ Hs) as Hr. rewrite Hp in Hr.
      inversion_clear Hr. constructor; [|done]. by eapply readable_status.
  - split; cbn; try done. lia.
Qed.

(** *** Rules *)

Lemma performs_ret {A} (a : A) : performs (mret a) (Done a) [].
Proof. intros s Hs. exists s, []. split_and!; [done| |done|by rewrite app_nil_r|done]. by split. Qed.
Lemma performs_lift {A} (r : result WorkflowError A) : performs (lift r) (as_outcome r) [].
Proof.
  intros s Hs. exists s, []. split_and!; [by destruct r| |done|by rewrite app_nil_r|done]. by split.
Qed.
Lemma performs_fail {A} e : performs (fail (A := A) e) (Failed e) [].
Proof. intros s Hs. exists s, []. split_and!; [done| |done|by rewrite app_nil_r|done]. by split. Qed.
Lemma performs_panic {A} : performs (panic (A := A)) Panicked [].
Proof. intros s Hs. exists s, []. split_and!; [done| |done|by rewrite app_nil_r|done]. by split. Qed.

Lemma performs_bind {A B} (m : M A) (k : A → M B) a o rows1 rows2 :
  performs m (Done a) rows1 → performs (k a) o rows2 → performs (m ≫= k) o (rows1 ++ rows2).
Proof.
  intros Hm Hk s Hs. destruct (Hm s Hs) as (s1 & a1 & Hr1 & Hs1 & Hg1 & Hp1 & He1).
  destruct (Hk s1 Hg1) as (s2 & a2 & Hr2 & Hs2 & Hg2 & Hp2 & He2).
  exists s2, (a1 ++ a2). split_and!; [|by transitivity s1|done| |].
  - unfold mbind, M_bind. by rewrite Hr1.
  - by rewrite Hp2, Hp1, (assoc (++)).
  - by rewrite fmap_app, He1, He2.
Qed.
(** What an outcome that is not an answer becomes. *)
Definition coerce {A B} (o : outcome A) : outcome B :=
  match o with Done _ => Waiting | Failed e => Failed e | Panicked => Panicked | Waiting => Waiting end.
Lemma performs_stop {A B} (m : M A) (k : A → M B) o rows :
  performs m o rows → match o with Done _ => False | _ => True end → performs (m ≫= k) (coerce o) rows.
Proof.
  intros Hm Ho s Hs. destruct (Hm s Hs) as (s1 & a1 & Hr1 & Hrest). exists s1, a1. split; [|done].
  unfold mbind, M_bind. rewrite Hr1. by destruct o.
Qed.

(** A step holds its row, runs its body, and may complete it. *)
Lemma performs_step {A} id input k (body : string → M A) o r' rows :
  (∀ j, completes j (running_row id input k) (body j) o r' rows) →
  performs (j ← create_step_execution_with_attempt i id input k; body j) o (r' :: rows).
Proof.
  intros Hb s Hs. pose proof (storage_good_snoc s (running_row id input k) Hs) as Hg.
  set (s1 := set_step_executions _ _) in Hg.
  destruct (Hb (ulid (tick s)) s1 (step_executions s)) as (s2 & a2 & Hr2 & Hs2 & Hg2 & Hp2 & He2).
  - apply Hg. by eapply readable_status.
  - cbn. by rewrite <-Permutation_cons_append.
  - exists s2, ((ulid (tick s), r') :: a2). split_and!; [| |done| |].
    + unfold mbind, M_bind. by rewrite create_step_spec.
    + transitivity s1; [|done]. split; cbn; try done. lia.
    + by rewrite Hp2, <-Permutation_middle.
    + cbn. by rewrite He2.
Qed.
Lemma completes_open {A} j r (m : M A) o rows : performs m o rows → completes j r m o r rows.
Proof.
  intros Hm s rest Hs Hp. destruct (Hm s Hs) as (s1 & a1 & Hr1 & Hs1 & Hg1 & Hp1 & He1).
  exists s1, a1. split_and!; try done. by rewrite Hp1, Hp.
Qed.
Lemma completes_bind {A B} j r (m : M A) (k : A → M B) a o r' rows1 rows2 :
  performs m (Done a) rows1 → completes j r (k a) o r' rows2 → completes j r (m ≫= k) o r' (rows1 ++ rows2).
Proof.
  intros Hm Hk s rest Hs Hp. destruct (Hm s Hs) as (s1 & a1 & Hr1 & Hs1 & Hg1 & Hp1 & He1).
  destruct (Hk s1 (rest ++ a1)) as (s2 & a2 & Hr2 & Hs2 & Hg2 & Hp2 & He2).
  - done.
  - by rewrite Hp1, Hp.
  - exists s2, (a1 ++ a2). split_and!; [|by transitivity s1|done| |].
    + unfold mbind, M_bind. by rewrite Hr1.
    + by rewrite Hp2, <-(assoc (++)).
    + by rewrite fmap_app, He1, He2.
Qed.
Lemma completes_complete {B} j r st out err (k : () → M B) o : st ≠ StepStatusUnspecified →
  performs (k tt) o [] → completes j r (complete_step_execution j st out err ≫= k) o (set_completed st out err r) [].
Proof.
  intros Hst Hk s rest Hs Hp. destruct (good_complete j r st out err s rest) as (Hg & Hsm & Hp1); [done..|].
  set (s1 := set_step_executions _ _) in *. destruct (Hk s1 Hg) as (s2 & a2 & Hr2 & Hs2 & Hg2 & Hp2 & He2).
  exists s2, a2. split_and!; [|by transitivity s1|done| |done].
  - unfold mbind, M_bind. by rewrite complete_step_spec.
  - by rewrite Hp2, Hp1.
Qed.
Lemma performs_perm {A} (m : M A) o rows rows' : performs m o rows → rows ≡ₚ rows' → performs m o rows'.
Proof.
  intros Hm Hp s Hs. destruct (Hm s Hs) as (s1 & a1 & ? & ? & ? & ? & He).
  exists s1, a1. split_and!; try done. by rewrite He.
Qed.

(** *** Tasks *)

Abbreviation eval_task := (eval_task rfc3339 i).
Abbreviation attempts := (attempts rfc3339 i).

(** The rows [g] of a task and its state: its evaluation is its rows and what is left. *)
Definition left_from step input (k : Z) (g : list (string * StepRow)) : Prop :=
  let '(rows, r) := attempts (Z.to_nat (max_attempts_of step - k + 1)) step input k in
  ∃ before, before ≡ₚ g.*2 ∧ eval_task step input = (before ++ rows, r).
Definition task_inv step input (t : TaskState) (g : list (string * StepRow)) : Prop :=
  match t with
  | Attempt k => 1 <= k ∧ left_from step input k g
  | Running k j => ∃ g0, g ≡ₚ (j, running_row (s_id step) input k) :: g0
      ∧ 1 <= k <= max_attempts_of step ∧ left_from step input k g0
  | Ended r => g.*2 ≡ₚ (eval_task step input).1 ∧ r = (eval_task step input).2
  end.
(** The statements that a task has left. *)
Definition measure step (t : TaskState) : nat :=
  match t with
  | Attempt k => S (2 * Z.to_nat (max_attempts_of step - k + 1))
  | Running k _ => S (S (2 * Z.to_nat (max_attempts_of step - k)))
  | Ended _ => 0
  end.

Lemma task_inv_spawn step input : task_inv step input (Attempt 1) [].
Proof.
  split; [done|]. unfold left_from. replace (max_attempts_of step - 1 + 1) with (max_attempts_of step) by lia.
  change (attempts _ step input 1) with (eval_task step input).
  destruct (eval_task step input) as [rows r]. by exists [].
Qed.

Lemma left_from_succ step k : k <= max_attempts_of step →
  Z.to_nat (max_attempts_of step - k + 1) = S (Z.to_nat (max_attempts_of step - k)).
Proof. lia. Qed.

Lemma task_run_spec step input t g rest s : good s → step_executions s ≡ₚ g ++ rest →
  task_inv step input t g → (∀ r, t ≠ Ended r) →
  ∃ s' t' g', task_run rfc3339 i step input t s = (s', t') ∧ same s s' ∧ good s'
    ∧ step_executions s' ≡ₚ g' ++ rest ∧ task_inv step input t' g' ∧ (measure step t' < measure step t)%nat.
Proof.
  intros Hs Hp Hi Ht. destruct t as [k|k j|r]; [| |by destruct (Ht r)]; unfold task_run, task_step.
  - destruct Hi as [Hk Hl]. destruct (Z.leb_spec k (max_attempts_of step)) as [Hm|Hm].
    + unfold mbind, M_bind. rewrite create_step_spec by done. cbn.
      pose proof (storage_good_snoc s (running_row (s_id step) input k) Hs) as Hg.
      eexists _, _, ((ulid (tick s), running_row (s_id step) input k) :: g).
      split_and!; [done| | | | |].
      * split; cbn; try done. lia.
      * apply Hg. by eapply readable_status.
      * cbn. by rewrite <-Permutation_cons_append, Hp.
      * exists g. by split_and!.
      * unfold measure. lia.
    + exists s, (Ended (Err (exhausted step None))), g. split_and!; try done.
      * unfold left_from in Hl. replace (Z.to_nat _) with 0%nat in Hl by lia. cbn in Hl.
        destruct Hl as (before & Hb & He). cbn. by rewrite He, app_nil_r, Hb.
      * cbn. lia.
  - destruct Hi as (g0 & Hg0 & Hk & Hl). unfold left_from in Hl. rewrite left_from_succ in Hl by lia. cbn in Hl.
    assert (step_executions s ≡ₚ (j, running_row (s_id step) input k) :: (g0 ++ rest)) as Hp1
      by by rewrite Hp, Hg0.
    destruct (simulate_step_execution rfc3339 step input k) as [out|m]; unfold mbind, M_bind.
    + destruct (good_complete j _ StepStatusCompleted (Some out) None s _ Hs Hp1) as (Hg & Hsm & Hp2); [done|].
      destruct Hl as (before & Hb & He). rewrite complete_step_spec. cbn.
      eexists _, _, ((j, completed_row (s_id step) input k out) :: g0).
      split_and!; [done|done|done|by rewrite Hp2| |unfold measure; lia].
      cbn. by rewrite He, Hb, <-Permutation_cons_append.
    + destruct (good_complete j _ StepStatusFailed None (Some m) s _ Hs Hp1) as (Hg & Hsm & Hp2); [done|].
      rewrite complete_step_spec. cbn [fst snd mret M_ret].
      eexists _, _, ((j, failed_row (s_id step) input k m) :: g0).
      split_and!; [done|done|done|by rewrite Hp2| |].
      * destruct (Z.ltb_spec k (max_attempts_of step)) as [Hlt|Hge].
        -- replace (Z.to_nat (max_attempts_of step - k)) with
             (S (Z.to_nat (max_attempts_of step - (k + 1)))) in Hl by lia.
           split; [lia|]. unfold left_from. rewrite left_from_succ by lia.
           destruct (attempts (S (Z.to_nat (max_attempts_of step - (k + 1)))) step input (k + 1)) as [rows r].
           destruct Hl as (before & Hb & He). exists (before ++ [failed_row (s_id step) input k m]). split.
           ++ cbn. by rewrite Hb, <-Permutation_cons_append.
           ++ by rewrite He, <-(assoc (++)).
        -- replace (Z.to_nat (max_attempts_of step - k)) with 0%nat in Hl by lia.
           destruct Hl as (before & Hb & He). cbn. by rewrite He, Hb, <-Permutation_cons_append.
      * destruct (Z.ltb_spec k (max_attempts_of step)) as [Hlt|Hge]; unfold measure; lia.
Qed.

(** *** Tasks that interleave *)

Definition kept (t : Task) (g : list (string * StepRow)) : Prop :=
  task_inv (t_step t) (t_input t) (t_state t) g.
Definition work (t : Task) : nat := measure (t_step t) (t_state t).
Definition job (t : Task) : Step * Value := (t_step t, t_input t).

Lemma work_ended t : work t = 0%nat → is_Some (ended t).
Proof. destruct t as [st x []]; cbn; [lia..|eauto]. Qed.
Lemma elem_of_going ts n : n ∈ going ts ↔ ∃ t, ts !! n = Some t ∧ ended t = None.
Proof.
  unfold going. rewrite elem_of_filterb, elem_of_seq. split.
  - intros [Hn Hb]. destruct (ts !! n) as [t|]; [|done]. exists t. split; [done|].
    by apply bool_decide_eq_true in Hb.
  - intros (t & Hn & He). rewrite Hn. apply lookup_lt_Some in Hn.
    split; [lia|]. by apply bool_decide_eq_true_2.
Qed.
Lemma going_nil ts : going ts = [] → Forall (λ t, is_Some (ended t)) ts.
Proof.
  intros Hg. apply Forall_lookup. intros n t Hn. destruct (ended t) as [r|] eqn:He; [by eauto|].
  assert (n ∈ going ts) as Hin by (apply elem_of_going; eauto). rewrite Hg in Hin.
  by apply not_elem_of_nil in Hin.
Qed.
Lemma going_pick ts (k : nat) : going ts ≠ [] →
  default 0%nat (going ts !! (k mod length (going ts))%nat) ∈ going ts.
Proof.
  intros Hg. assert (length (going ts) ≠ 0%nat) by by destruct (going ts).
  destruct (lookup_lt_is_Some_2 (going ts) (k mod length (going ts))%nat) as [n Hn];
    [by apply Nat.mod_upper_bound|].
  rewrite Hn. cbn. by apply list_elem_of_lookup_2 in Hn.
Qed.

Lemma advance_spec t g rest s : good s → step_executions s ≡ₚ g ++ rest → kept t g → ended t = None →
  ∃ s' t' g', advance rfc3339 i t s = (s', t') ∧ same s s' ∧ good s'
    ∧ step_executions s' ≡ₚ g' ++ rest ∧ kept t' g' ∧ job t' = job t ∧ (work t' < work t)%nat.
Proof.
  intros Hs Hp Hk He. destruct (task_run_spec (t_step t) (t_input t) (t_state t) g rest s)
    as (s' & st & g' & Hr & Hsm & Hg & Hp' & Hi & Hm); [done..| |].
  - intros r Hr. unfold ended in He. by rewrite Hr in He.
  - exists s', (mkTask (t_step t) (t_input t) st), g'. unfold advance. by rewrite Hr.
Qed.

Lemma run_tasks_spec fuel ts gs rest s : good s → step_executions s ≡ₚ concat gs ++ rest →
  Forall2 kept ts gs → (sum_list_with work ts ≤ fuel)%nat →
  ∃ s' ts' gs', run_tasks rfc3339 schedule fuel i ts s = (s', ts') ∧ same s s' ∧ good s'
    ∧ step_executions s' ≡ₚ concat gs' ++ rest ∧ Forall2 kept ts' gs' ∧ job <$> ts' = job <$> ts
    ∧ Forall (λ t, is_Some (ended t)) ts'.
Proof.
  revert ts gs s. induction fuel as [|fuel IH]; intros ts gs s Hs Hp Hk Hf.
  - exists s, ts, gs. split_and!; try done. apply Forall_forall. intros t Ht. apply work_ended.
    assert (work t ≤ sum_list_with work ts)%nat; [|lia]. clear -Ht.
    induction Ht as [|? ? ? ? IH]; cbn; lia.
  - cbn [run_tasks]. destruct (going ts) as [|n0 ns] eqn:Hg.
    { exists s, ts, gs. split_and!; try done. by apply going_nil. }
    rewrite <-Hg. assert (going ts ≠ []) as Hne by by rewrite Hg.
    pose proof (going_pick ts (schedule (tick s)) Hne) as Hin. clear Hg n0 ns.
    set (n := default 0%nat _) in *. apply elem_of_going in Hin as (t & Hn & He). rewrite Hn.
    destruct (Forall2_lookup_l _ _ _ _ _ Hk Hn) as (g & Hgn & Hkg).
    pose proof (take_drop_middle _ _ _ Hn) as Ht. pose proof (take_drop_middle _ _ _ Hgn) as Hgs.
    pose proof (lookup_lt_Some _ _ _ Hn) as Hln. pose proof (lookup_lt_Some _ _ _ Hgn) as Hlg.
    assert (∀ x, concat (<[n := x]> gs) ≡ₚ x ++ concat (take n gs ++ drop (S n) gs)) as Hc.
    { intros x. rewrite insert_take_drop by done. rewrite !concat_app. cbn.
      by rewrite (assoc (++)), (Permutation_app_comm (concat _) x), <-(assoc (++)). }
    destruct (advance_spec t g (concat (take n gs ++ drop (S n) gs) ++ rest) s)
      as (s1 & t1 & g1 & Hr & Hsm & Hg1 & Hp1 & Hk1 & Hj & Hw); [done| |done|done|].
    { rewrite Hp, (assoc (++)), <-Hc, list_insert_id by done. done. }
    rewrite Hr. destruct (IH (<[n := t1]> ts) (<[n := g1]> gs) s1) as (s2 & ts2 & gs2 & Hr2 & Hsm2 & Hg2 & Hp2 & Hk2 & Hj2 & He2).
    + done.
    + by rewrite Hp1, Hc, (assoc (++)).
    + by apply Forall2_insert.
    + rewrite <-Ht in Hf. rewrite insert_take_drop by done.
      rewrite !sum_list_with_app in *. cbn in *. lia.
    + exists s2, ts2, gs2. split_and!; try done; [by transitivity s1|].
      rewrite Hj2, list_fmap_insert, Hj. apply list_insert_id. by rewrite list_lookup_fmap, Hn.
Qed.

Abbreviation eval_tasks := (eval_tasks rfc3339 i).
Definition fresh_task (t : Task) : Prop := t_state t = Attempt 1.
Definition evaluated (t : Task) : list StepRow * result WorkflowError Value :=
  eval_task (t_step t) (t_input t).

Lemma kept_fresh ts : Forall fresh_task ts → Forall2 kept ts (replicate (length ts) []).
Proof.
  induction 1 as [|t ts Ht _ IH]; cbn; constructor; [|done].
  unfold kept. rewrite Ht. apply task_inv_spawn.
Qed.
Lemma work_fresh ts : Forall fresh_task ts → sum_list_with work ts = total_fuel ts.
Proof.
  unfold total_fuel. induction 1 as [|t ts Ht _ IH]; cbn; [done|]. rewrite IH. f_equal.
  unfold work, task_fuel, measure. rewrite Ht. do 3 f_equal. lia.
Qed.
Lemma concat_replicate_nil {A} n : concat (replicate n ([] : list A)) = [].
Proof. by induction n. Qed.
(** Tasks that have ended hold their rows and their results. *)
Lemma kept_ended ts gs : Forall2 kept ts gs → Forall (λ t, is_Some (ended t)) ts →
  (concat gs).*2 ≡ₚ concat (fst ∘ evaluated <$> ts) ∧ mapM ended ts = Some (snd ∘ evaluated <$> ts).
Proof.
  induction 1 as [|t g ts gs Hk _ IH]; intros He; [done|]. inversion_clear He as [|? ? [r Hr] He'].
  destruct (IH He') as [Hp Hm]. unfold kept, ended in Hk, Hr. destruct (t_state t) as [| |r'] eqn:Ht; [done..|].
  destruct Hk as [Hg Hr']. split.
  - cbn. rewrite fmap_app, Hp. by rewrite Hg.
  - cbn. replace (ended t) with (Some r') by (unfold ended; by rewrite Ht).
    cbn. rewrite Hm. cbn. by rewrite Hr'.
Qed.
Lemma job_evaluated (ts ts' : list Task) : job <$> ts' = job <$> ts → evaluated <$> ts' = evaluated <$> ts.
Proof.
  intros Hj. transitivity ((λ '(st, x), eval_task st x) <$> (job <$> ts')).
  - by rewrite <-list_fmap_compose.
  - rewrite Hj. by rewrite <-list_fmap_compose.
Qed.

Lemma performs_join_all ts : Forall fresh_task ts →
  performs (join_all rfc3339 schedule i ts) (Done (eval_tasks ts).2) (eval_tasks ts).1.
Proof.
  intros Hf s Hs. destruct (run_tasks_spec (total_fuel ts) ts (replicate (length ts) []) (step_executions s) s)
    as (s' & ts' & gs & Hr & Hsm & Hg & Hp & Hk & Hj & He).
  - done.
  - by rewrite concat_replicate_nil.
  - by apply kept_fresh.
  - by rewrite work_fresh.
  - destruct (kept_ended _ _ Hk He) as [Hrows Hres]. apply job_evaluated in Hj.
    exists s', (concat gs). unfold join_all. rewrite Hr, Hres.
    rewrite !list_fmap_compose, Hj in Hrows |- *. rewrite <-!list_fmap_compose in Hrows |- *.
    split_and!; try done. by rewrite Hp, Permutation_app_comm.
Qed.

Lemma drive_spec fuel step input t g rest s : good s → step_executions s ≡ₚ g ++ rest →
  task_inv step input t g → (measure step t ≤ fuel)%nat →
  ∃ s' g', drive rfc3339 fuel i step input t s = (s', as_outcome (eval_task step input).2)
    ∧ same s s' ∧ good s' ∧ step_executions s' ≡ₚ g' ++ rest ∧ g'.*2 ≡ₚ (eval_task step input).1.
Proof.
  revert t g s. induction fuel as [|fuel IH]; intros t g s Hs Hp Hi Hf.
  - destruct t as [| |r]; [cbn in Hf; lia..|]. destruct Hi as [Hg ->]. by exists s, g.
  - destruct t as [k|k j|r]; [| |destruct Hi as [Hg ->]; by exists s, g].
    all: edestruct task_run_spec as (s1 & t1 & g1 & Hr & Hsm & Hg1 & Hp1 & Hi1 & Hm); [exact Hs|exact Hp|exact Hi|done|].
    all: cbn [drive]; rewrite Hr.
    all: destruct (IH t1 g1 s1) as (s2 & g2 & Hr2 & Hsm2 & Hrest); [done..|lia|].
    all: exists s2, g2; split; [done|]; split; [by transitivity s1|done].
Qed.
Lemma performs_task step input :
  performs (execute_task_step rfc3339 i step input) (as_outcome (eval_task step input).2) (eval_task step input).1.
Proof.
  intros s Hs. destruct (drive_spec (task_fuel step) step input (Attempt 1) [] (step_executions s) s)
    as (s' & g & Hr & Hsm & Hg & Hp & He); [done|done|apply task_inv_spawn| |].
  - unfold measure, task_fuel. lia.
  - exists s', g. split_and!; try done. by rewrite Hp, Permutation_app_comm.
Qed.

(** *** Steps *)

Lemma performs_finish {A} j r st out err (a : outcome A) (m : M A) : st ≠ StepStatusUnspecified →
  performs m a [] →
  completes j r (_ ← complete_step_execution j st out err; m) a (set_completed st out err r) [].
Proof. intros. by apply completes_complete. Qed.
Lemma completes_lift {A B} j r (x : result WorkflowError A) (k : A → M B) o r' rows :
  match x with
  | Ok a => completes j r (k a) o r' rows
  | Err e => o = Failed e ∧ r' = r ∧ rows = []
  end → completes j r (a ← lift x; k a) o r' rows.
Proof.
  destruct x as [a|e].
  - intros Hk. change rows with ([] ++ rows). eapply completes_bind; [apply (performs_lift (Ok a))|done].
  - intros (-> & -> & ->). apply completes_open, (performs_stop _ _ _ _ (performs_lift (Err e))). done.
Qed.

Lemma branch_tasks_fresh input bs ts : branch_tasks input bs = Ok ts → Forall fresh_task ts.
Proof.
  revert ts. induction bs as [|b bs IH]; intros ts; [by intros [= <-]|]. cbn.
  destruct (get_str "id" b) as [id|]; [|done]. cbn. destruct (branch_tasks input bs) as [ts'|e]; [|done].
  intros [= <-]. constructor; [done|by apply IH].
Qed.
Lemma item_tasks_fresh step iterator items : Forall fresh_task (imap (item_task step iterator) items).
Proof.
  apply Forall_lookup. intros n t. rewrite list_lookup_imap. destruct (items !! n); [|done].
  by intros [= <-].
Qed.
Lemma batches_fresh fuel k ts : Forall fresh_task ts → Forall (Forall fresh_task) (batches fuel k ts).
Proof.
  revert ts. induction fuel as [|fuel IH]; intros ts Hts; [constructor|]. destruct ts as [|t ts]; [constructor|].
  cbn [batches]. constructor; [by apply Forall_take|by apply IH, Forall_drop].
Qed.

Lemma performs_parallel step input :
  performs (execute_parallel_step rfc3339 schedule i step input) (eval_parallel rfc3339 i step input).2
    (eval_parallel rfc3339 i step input).1.
Proof.
  unfold execute_parallel_step, eval_parallel, create_step_execution.
  destruct (get_array "branches" (step_config_value step)) as [[|b bs]|]; cbn [require fst snd].
  - apply performs_step. intros j. apply completes_lift. apply performs_finish; [done|apply performs_ret].
  - destruct (branch_tasks input (b :: bs)) as [ts|e] eqn:Hb.
    + pose proof (performs_join_all ts (branch_tasks_fresh _ _ _ Hb)) as Hj.
      destruct (eval_tasks ts) as [rows rs]. cbn [fst snd] in Hj.
      destruct (first_error rs) as [e|] eqn:He; cbn [fst snd].
      all: apply performs_step; intros j; apply completes_lift, completes_lift; rewrite Hb.
      all: rewrite <-(app_nil_r rows); eapply completes_bind; [exact Hj|]; cbn beta; rewrite He.
      * apply performs_finish; [done|apply performs_fail].
      * apply performs_finish; [done|apply performs_ret].
    + apply performs_step. intros j. apply completes_lift, completes_lift. by rewrite Hb.
  - apply performs_step. intros j. by apply completes_lift.
Qed.

Lemma performs_batches bs : Forall (Forall fresh_task) bs →
  performs (run_batches rfc3339 schedule i bs) (Done (eval_batches rfc3339 i bs).2) (eval_batches rfc3339 i bs).1.
Proof.
  induction 1 as [|b bs Hb _ IH]; [apply performs_ret|]. cbn [run_batches eval_batches].
  pose proof (performs_join_all b Hb) as Hj. destruct (eval_tasks b) as [rows rs]. cbn [fst snd] in Hj.
  destruct (first_error rs) as [e|] eqn:He; cbn [fst snd].
  - rewrite <-(app_nil_r rows). eapply performs_bind; [exact Hj|]. rewrite He. apply performs_ret.
  - destruct (eval_batches rfc3339 i bs) as [rows' r]. cbn [fst snd] in IH |- *.
    eapply performs_bind; [exact Hj|]. rewrite He. rewrite <-(app_nil_r rows').
    eapply performs_bind; [exact IH|]. apply performs_ret.
Qed.
Lemma performs_map step input :
  performs (execute_map_step rfc3339 schedule i step input) (eval_map rfc3339 i step input).2
    (eval_map rfc3339 i step input).1.
Proof.
  unfold execute_map_step, eval_map, create_step_execution.
  destruct (get_array "items" (step_config_value step)) as [[|x xs]|]; cbn [require fst snd].
  - apply performs_step. intros j. apply completes_lift. apply performs_finish; [done|apply performs_ret].
  - destruct (get "iterator" (step_config_value step)) as [it|]; cbn [require].
    + destruct (_ =? 0) eqn:Hm.
      * apply performs_step. intros j. apply completes_lift, completes_lift. rewrite Hm.
        apply completes_open, performs_panic.
      * set (bs := batches _ _ _). assert (Forall (Forall fresh_task) bs) as Hb
          by apply batches_fresh, item_tasks_fresh.
        pose proof (performs_batches bs Hb) as Hr. destruct (eval_batches rfc3339 i bs) as [rows r].
        cbn [fst snd] in Hr. destruct r as [vs|e]; cbn [fst snd].
        all: apply performs_step; intros j; apply completes_lift, completes_lift; rewrite Hm.
        all: rewrite <-(app_nil_r rows); eapply completes_bind; [exact Hr|]; cbn beta iota.
        -- apply performs_finish; [done|apply performs_ret].
        -- apply performs_finish; [done|apply performs_fail].
    + apply performs_step. intros j. apply completes_lift. by apply completes_lift.
  - apply performs_step. intros j. by apply completes_lift.
Qed.

Lemma performs_choice step input :
  performs (execute_choice_step i step input) (eval_choice i step input).2 (eval_choice i step input).1.
Proof.
  unfold execute_choice_step, eval_choice, create_step_execution.
  destruct (decide_choice (step_config_value step) input) as [out|e]; cbn [fst snd].
  - apply performs_step. intros j. apply completes_lift. apply performs_finish; [done|apply performs_ret].
  - apply performs_step. intros j. by apply completes_lift.
Qed.
Lemma performs_wait step input :
  performs (execute_wait_step parse_rfc3339 utc_now i step input) (eval_wait parse_rfc3339 utc_now i step input).2
    (eval_wait parse_rfc3339 utc_now i step input).1.
Proof.
  unfold execute_wait_step, eval_wait, create_step_execution.
  destruct (wait_duration _ _ _); cbn [fst snd]; apply performs_step; intros j.
  - apply performs_finish; [done|apply performs_ret].
  - apply completes_open, performs_panic.
  - apply performs_finish; [done|apply performs_fail].
  - apply performs_finish; [done|apply performs_fail].
Qed.
Lemma performs_execute step input : step_type step ≠ StepTypeSignal →
  performs (execute_step rfc3339 parse_rfc3339 utc_now schedule polls elapsed i step input)
    (eval_step rfc3339 parse_rfc3339 utc_now i step input).2
    (eval_step rfc3339 parse_rfc3339 utc_now i step input).1.
Proof.
  intros Ht. unfold execute_step, eval_step.
  destruct (step_type step); try done;
    first [apply performs_parallel | apply performs_map | apply performs_wait | apply performs_choice | idtac].
  all: pose proof (performs_task step input) as Hp; by destruct (eval_task step input).
Qed.

(** *** Choices read back *)

Definition storable_choices (config : Value) : bool :=
  forallb (λ c, from_option (storable_at 125) true (get "value" c)) (default [] (get_array "choices" config)).

Lemma choose_shape input choices out : choose input choices = Ok (Some out) →
  ∃ next variable operator expected, out = json_object [("choice_taken", Str next);
      ("condition", json_object [("variable", Str variable); ("operator", Str operator); ("value", expected)])]
    ∧ ∃ c, c ∈ choices ∧ get "value" c = Some expected.
Proof.
  induction choices as [|c cs IH]; cbn; [done|].
  destruct (get_str "variable" c) as [va|]; [|done]. destruct (get_str "operator" c) as [op|]; [|done].
  destruct (get "value" c) as [e|] eqn:He; [|done]. cbn. destruct (evaluate_condition _ _ _) as [b|]; [|done]. cbn.
  destruct (if b then get_str "next" c else None) as [next|].
  - intros [= <-]. exists next, va, op, e. split; [done|]. exists c. split; [by left|done].
  - intros Hc. destruct (IH Hc) as (n & v & o & x & -> & d & Hd & Hx). exists n, v, o, x. split; [done|].
    exists d. split; [by right|done].
Qed.
Lemma decide_choice_shape config input out : decide_choice config input = Ok out →
  ∃ x y, out = Object [("choice_taken", x); ("condition", y)] ∧ as_doubles x = x
    ∧ (storable_choices config = true → storable out = true).
Proof.
  unfold decide_choice. destruct (choose input _) as [[o|]|e] eqn:Hc; [| |done]; cbn [mbind result_bind]; intros [= <-].
  - apply choose_shape in Hc as (n & v & o' & e & -> & c & Hin & He).
    exists (Str n), (Object [("operator", Str o'); ("value", e); ("variable", Str v)]).
    split; [reflexivity|]. split; [done|]. intros Hs. unfold storable_choices in Hs.
    rewrite forallb_forall in Hs. apply list_elem_of_In, Hs in Hin. rewrite He in Hin. cbn [from_option] in Hin.
    apply (storable_object 126); [done|].
    apply Forall_cons_2; [by apply storable_at_scalar|]. apply Forall_cons_2; [|by apply Forall_nil_2].
    apply (storable_object 125); [done|]. apply Forall_cons_2; [by apply storable_at_scalar|].
    apply Forall_cons_2; [done|]. apply Forall_cons_2; [by apply storable_at_scalar|by apply Forall_nil_2].
  - destruct (get_str "default" config) as [d|]; eexists _, _; (split; [reflexivity|]); (split; [done|]); intros _.
    all: apply (storable_object 126); [done|]; by repeat constructor; apply storable_at_scalar.
Qed.

Lemma sequence_results_ok {A B E} (f : A → result E B) (l : list A) :
  Forall (λ a, ∃ b, f a = Ok b) l → ∃ l', sequence_results (f <$> l) = Ok l'.
Proof.
  induction 1 as [|a l [b Hb] _ [l' IH]]; cbn; [by eexists|]. rewrite Hb. cbn. rewrite IH. by eexists.
Qed.
Lemma sequence_results_snoc {E A} (l : list (result E A)) (x : result E A) l' b :
  sequence_results l = Ok l' → x = Ok b → sequence_results (l ++ [x]) = Ok (l' ++ [b]).
Proof.
  revert l'. induction l as [|y l IH]; intros l'; cbn.
  - by intros [= <-] ->.
  - destruct y as [a|]; [|done]. cbn. destruct (sequence_results l) as [l''|]; [|done]. cbn.
    intros [= <-] Hx. by rewrite (IH l'').
Qed.
Lemma readable_reads j r : readable i r → rs_execution_id r = i → ∃ x, read_step j r = Ok x.
Proof.
  intros Hr Hi. destruct (Hr Hi) as [st Hst]. unfold read_step.
  destruct (StepStatus_from_sql_str (rs_status r)); [by eexists|done].
Qed.

(** The last row of an execution, when it is that of a choice. *)
Lemma choice_reads_back j r x y s l : good s → step_executions s = l ++ [(j, r)] →
  rs_execution_id r = i → let out := Object [("choice_taken", x); ("condition", y)] in
  rs_output_json r = Some (to_string out) → storable out = true →
  ∃ h, get_step_execution_history i s = (set_tick s (S (tick s)), Done h)
    ∧ choice_of h (r_step_id r) = Some (as_doubles x).
Proof.
  intros Hs Hl Hi out Ho Hst. pose proof (good_readable _ _ Hs) as Hr. rewrite Hl in Hr.
  apply Forall_app in Hr as [Hr [Hrr _]%Forall_cons_1]. cbn in Hrr.
  set (mine := (λ '(_, r), String.eqb (rs_execution_id r) i) : string * StepRow → bool).
  destruct (sequence_results_ok (λ '(j, r), read_step j r) (List.filter mine l)) as [rows Hrows].
  { apply Forall_forall. intros [j' r'] [Hin He]%elem_of_filterb. apply String.eqb_eq in He.
    rewrite Forall_forall in Hr. apply Hr in Hin. by apply readable_reads. }
  destruct (readable_reads j r Hrr Hi) as [b Hb].
  unfold get_step_execution_history, get_step_execution_history_rows, mbind, M_bind.
  rewrite stmt_quiet. cbn [set_tick step_executions]. rewrite Hl, filterb_app. cbn [List.filter].
  rewrite (proj2 (String.eqb_eq _ _) Hi). rewrite fmap_app.
  fold mine. change ((λ '(j, r), read_step j r) <$> [(j, r)]) with [read_step j r].
  rewrite (sequence_results_snoc _ _ rows b Hrows) by done. cbn. eexists. split; [done|].
  unfold choice_of. rewrite fmap_app, rev_app_distr. cbn.
  assert (∃ st, b = mkSER j i (r_step_id r) st (rs_input_json r ≫= from_str) (Some out) (rs_error r)
    (as_u32 (r_attempt r))) as [st ->].
  { unfold read_step in Hb. destruct (StepStatus_from_sql_str (rs_status r)) as [st|]; [|done].
    cbn in Hb. rewrite Ho in Hb. cbn in Hb. rewrite from_to_string in Hb by done. injection Hb as <-.
    exists st. by rewrite Hi. }
  cbn. rewrite String.eqb_refl. cbn.
  by rewrite bool_decide_eq_true_2, prost_value_same, value_roundtrip.
Qed.

(** ** The loop *)

Definition usable step : Prop :=
  step_type step ≠ StepTypeSignal ∧ (step_type step = StepTypeChoice → storable_choices (step_config_value step) = true).

(** What the end of an execution writes. *)
Definition settle (r : result WorkflowError Value) : ExecutionRow → ExecutionRow :=
  match r with
  | Ok out => λ row, set_status ExecutionStatusCompleted 0 (set_output out row)
  | Err _ => set_status ExecutionStatusFailed 0
  end.
Definition settled (o : outcome (result WorkflowError Value)) (es : list (string * ExecutionRow)) :
    list (string * ExecutionRow) :=
  match o with Done r => im_update i (settle r) es | _ => es end.
Definition answered (o : outcome (result WorkflowError Value)) : outcome () :=
  match o with Done _ => Done tt | Failed e => Failed e | Panicked => Panicked | Waiting => Waiting end.
Definition runs_at s (x : WorkflowStorage * outcome ())
    (e : list StepRow * outcome (result WorkflowError Value)) : Prop :=
  ∃ added, x.2 = answered e.2 ∧ executions x.1 = settled e.2 (executions s)
    ∧ definitions x.1 = definitions s ∧ signals x.1 = signals s
    ∧ step_executions x.1 ≡ₚ step_executions s ++ added ∧ added.*2 ≡ₚ e.1.
Definition runs (m : M ()) (e : list StepRow * outcome (result WorkflowError Value)) : Prop :=
  ∀ s, good s → runs_at s (m s) e.

Lemma update_status_spec st s : st ≠ ExecutionStatusRunning → good s →
  update_execution_status dialect i st s
  = (set_executions (set_tick s (S (tick s))) (im_update i (set_status st 0) (executions s)), Done tt).
Proof.
  intros Hst Hs. unfold update_execution_status, update_execution_status_with_version. rewrite stmt_quiet.
  unfold update_row. cbn. destruct (good_execution _ _ Hs) as [r ->]. cbn. do 2 f_equal.
  unfold set_status. by rewrite !bool_decide_eq_false_2.
Qed.
Lemma finish_spec out s : good s →
  finish dialect i out s
  = (set_executions (set_tick s (S (S (tick s)))) (im_update i (settle (Ok out)) (executions s)), Done tt).
Proof.
  intros Hs. unfold finish, mbind, M_bind. unfold update_execution_output, update_execution_output_with_version.
  rewrite stmt_quiet. unfold update_row at 1. cbn. destruct (good_execution _ _ Hs) as [r Hr]. rewrite Hr. cbn.
  rewrite update_status_spec; [|done|].
  - cbn. by rewrite im_update_compose.
  - destruct Hs as [Hk Hf Hre _]. split; cbn; [done| |done|].
    + intros n Hn. apply Hf. lia.
    + rewrite im_get_update, decide_True by done. by rewrite Hr.
Qed.

(** A choice and the reading of its decision. *)
Lemma choice_next def step (c : Cursor) out s : good s → step_type step = StepTypeChoice →
  storable_choices (step_config_value step) = true →
  decide_choice (step_config_value step) (current_input c) = Ok out →
  ∃ s1, execute_choice_step i step (current_input c) s = (s1, Done (current_input c)) ∧ same s s1
    ∧ good s1 ∧ step_executions s1 ≡ₚ step_executions s ++ [(ulid (tick s), completed_row (s_id step) (current_input c) 1 out)]
    ∧ next_of i def step c (current_input c) s1
      = (set_tick s1 (S (tick s1)), Done (eval_next def step c (current_input c))).
Proof.
  intros Hs Ht Hc Hd. destruct (decide_choice_shape _ _ _ Hd) as (x & y & Hout & Hx & Hst).
  specialize (Hst Hc). set (row := running_row (s_id step) (current_input c) 1).
  assert (good (set_step_executions (set_tick s (S (tick s))) (step_executions s ++ [(ulid (tick s), row)]))) as Hg1
    by (apply storage_good_snoc; [done|by eapply readable_status]).
  set (s0 := set_step_executions _ _) in Hg1.
  destruct (good_complete (ulid (tick s)) row StepStatusCompleted (Some out) None s0 (step_executions s))
    as (Hg & Hsm & Hp); [done|cbn; by rewrite <-Permutation_cons_append|done|].
  set (s1 := set_step_executions _ (im_update _ _ _)) in *. exists s1. split_and!; [|..|].
  - unfold execute_choice_step, create_step_execution, mbind, M_bind. rewrite create_step_spec by done.
    rewrite Hd. cbn [lift]. by rewrite complete_step_spec.
  - split; [done..|]. cbn. lia.
  - done.
  - by rewrite Hp, <-Permutation_cons_append.
  - assert (step_executions s1 = step_executions s ++ [(ulid (tick s), completed_row (s_id step) (current_input c) 1 out)]) as Hl.
    { apply (im_update_here (ulid (tick s)) (set_completed StepStatusCompleted (Some out) None) row
        (step_executions s) []). by apply (good_fresh _ _ Hs (tick s)). }
    destruct (choice_reads_back _ _ x y s1 _ Hg Hl) as (h & Hh & Hch); [done|by rewrite Hout|by rewrite <-Hout|].
    unfold next_of, eval_next. rewrite bool_decide_eq_true_2 by done. unfold mbind, M_bind. rewrite Hh.
    unfold taken_by. rewrite Hd, Hout. cbn in Hch |- *. by rewrite Hch, Hx.
Qed.

Lemma runs_after s s1 a1 rows1 x e : same s s1 → step_executions s1 ≡ₚ step_executions s ++ a1 →
  a1.*2 ≡ₚ rows1 → runs_at s1 x e → runs_at s x (rows1 ++ e.1, e.2).
Proof.
  intros [Hd He Hg _] Hp1 Hr1 (a2 & Ho & He2 & Hd2 & Hg2 & Hp2 & Hr2). exists (a1 ++ a2).
  split_and!; [done|by rewrite He2, He|congruence|congruence| |].
  - by rewrite Hp2, Hp1, (assoc (++)).
  - cbn. by rewrite fmap_app, Hr1, Hr2.
Qed.
Lemma runs_finish out s : good s → runs_at s (finish dialect i out s) ([], Done (Ok out)).
Proof. intros Hs. rewrite finish_spec by done. exists []. split_and!; try done. by rewrite app_nil_r. Qed.
Lemma runs_failed e s : good s →
  runs_at s (update_execution_status dialect i ExecutionStatusFailed s) ([], Done (Err e)).
Proof. intros Hs. rewrite update_status_spec by done. exists []. split_and!; try done. by rewrite app_nil_r. Qed.
Lemma runs_unchanged s o (e : outcome (result WorkflowError Value)) : o = answered e →
  match e with Done _ => False | _ => True end → runs_at s (s, o) ([], e).
Proof. intros -> He. exists []. split_and!; try done; [by destruct e|by rewrite app_nil_r]. Qed.

Lemma step_map_in def id step : step_map def id = Some step → step ∈ steps def ∧ s_id step = id.
Proof.
  unfold step_map. intros Hf. apply find_some in Hf as [Hin He]. apply String.eqb_eq in He.
  split; [|done]. by apply list_elem_of_In, in_rev.
Qed.

Abbreviation run_loop := (loop dialect rfc3339 parse_rfc3339 utc_now schedule polls elapsed).
Abbreviation eval_loop := (eval_loop rfc3339 parse_rfc3339 utc_now i).
Abbreviation run_step := (execute_step rfc3339 parse_rfc3339 utc_now schedule polls elapsed i).
Abbreviation eval_step := (eval_step rfc3339 parse_rfc3339 utc_now i).

(** A step, and where it leads. *)
Lemma step_next_spec def step (c : Cursor) s : good s → usable step →
  let e := eval_step step (current_input c) in
  ∃ s1 a1, same s s1 ∧ good s1 ∧ step_executions s1 ≡ₚ step_executions s ++ a1 ∧ a1.*2 ≡ₚ e.1
    ∧ run_step step (current_input c) s = (s1, e.2)
    ∧ ∀ out, e.2 = Done out → ∃ s2, same s1 s2 ∧ good s2 ∧ step_executions s2 = step_executions s1
        ∧ next_of i def step c out s1 = (s2, Done (eval_next def step c out)).
Proof.
  intros Hs [Hsig Hch] e. destruct (decide (step_type step = StepTypeChoice)) as [Ht|Ht].
  - assert (e = eval_choice i step (current_input c)) as ->
      by (unfold e, eval_step; by rewrite Ht).
    assert (run_step step (current_input c) = execute_choice_step i step (current_input c)) as ->
      by (unfold execute_step; by rewrite Ht).
    destruct (decide_choice (step_config_value step) (current_input c)) as [out|err] eqn:Hd.
    + destruct (choice_next def step c out s) as (s1 & Hr & Hsm & Hg & Hp & Hn); auto.
      unfold eval_choice. rewrite Hd.
      exists s1, [(ulid (tick s), completed_row (s_id step) (current_input c) 1 out)].
      split_and!; try done. intros o [= <-]. exists (set_tick s1 (S (tick s1))). split_and!; try done.
      * split; cbn; try done. lia.
      * apply good_tick; [done|lia].
    + destruct (performs_choice step (current_input c) s Hs) as (s1 & a1 & Hr & Hsm & Hg & Hp & Hrows).
      exists s1, a1. split_and!; try done. unfold eval_choice. rewrite Hd. done.
  - destruct (performs_execute step (current_input c) Hsig s Hs) as (s1 & a1 & Hr & Hsm & Hg & Hp & Hrows).
    exists s1, a1. split_and!; try done. intros out _. exists s1. split_and!; try done.
    unfold next_of, eval_next. by rewrite !bool_decide_eq_false_2.
Qed.

Lemma loop_runs fuel def c : Forall usable (steps def) → runs (run_loop fuel i def c) (eval_loop fuel def c).
Proof.
  intros Hu. revert c. induction fuel as [|fuel IH]; intros c s Hs; cbn [loop WorkflowSpec.eval_loop].
  - by apply runs_unchanged.
  - case_bool_decide; [by apply runs_finish|].
    unfold mbind at 1, M_bind at 1. cbn [current_step visit].
    destruct (step_map def (current_step c)) as [step|] eqn:Hm; [|by apply runs_unchanged].
    cbn [require lift]. apply step_map_in in Hm as [Hin _]. rewrite Forall_forall in Hu.
    destruct (step_next_spec def step (visit c) s Hs (Hu _ Hin))
      as (s1 & a1 & Hsm & Hg & Hp & Hrows & Hr & Hn). cbn [visit current_input] in Hrows, Hr, Hn |- *.
    unfold mbind at 1, M_bind at 1. unfold try. rewrite Hr.
    destruct (eval_step step (current_input c)) as [rows o]. cbn [fst snd] in *.
    destruct o as [out|e| |].
    + destruct (Hn out eq_refl) as (s2 & Hsm2 & Hg2 & Hst & Hnx).
      unfold mbind, M_bind. rewrite Hnx.
      assert (same s s2) as Hss by by transitivity s1. rewrite <-Hst in Hp.
      destruct (eval_next def step (visit c) out) as [c'|].
      * pose proof (IH c' s2 Hg2) as Hl. destruct (eval_loop fuel def c') as [rows' o'].
        by apply (runs_after s s2 a1 rows _ (rows', o')).
      * rewrite <-(app_nil_r rows). apply (runs_after s s2 a1 rows _ ([], Done (Ok out))); try done.
        by apply runs_finish.
    + rewrite <-(app_nil_r rows). apply (runs_after s s1 a1 rows _ ([], Done (Err e))); try done.
      by apply runs_failed.
    + rewrite <-(app_nil_r rows). apply (runs_after s s1 a1 rows _ ([], Panicked)); try done.
      by apply runs_unchanged.
    + rewrite <-(app_nil_r rows). apply (runs_after s s1 a1 rows _ ([], Waiting)); try done.
      by apply runs_unchanged.
Qed.

(** ** Termination *)

Definition ids def : gset string := list_to_set (s_id <$> steps def).
Lemma elem_of_step_ids def step : step ∈ steps def → s_id step ∈ ids def.
Proof. intros. unfold ids. apply elem_of_list_to_set. by apply list_elem_of_fmap_2. Qed.
Lemma ids_step_map def id : id ∈ ids def → is_Some (step_map def id).
Proof.
  unfold ids. rewrite elem_of_list_to_set, list_elem_of_fmap. intros (step & -> & Hin).
  unfold step_map. destruct (find _ _) as [st|] eqn:Hf; [by eexists|].
  apply find_none with (x := step) in Hf; [by rewrite String.eqb_refl in Hf|].
  rewrite <-in_rev. by apply list_elem_of_In.
Qed.

Lemma eval_next_in def step (c c' : Cursor) out : eval_next def step c out = Some c' →
  current_step c' ∈ ids def ∧ visited c' = visited c.
Proof.
  assert (∀ id st, step_map def id = Some st → id ∈ ids def) as Hid.
  { intros id st [Hin <-]%step_map_in. by apply elem_of_step_ids. }
  unfold eval_next, after_choice, after_step. case_bool_decide; [|destruct (choice_path_taken c)].
  - destruct (taken_by _ _ ≫= _) as [id|]; [|done]. cbn. destruct (step_map def id) eqn:Hm; [|done]. cbn.
    intros [= <-]. cbn. eauto.
  - destruct (step_next step) as [id|]; [|done]. cbn. destruct (step_map def id) eqn:Hm; [|done]. cbn.
    intros [= <-]. cbn. eauto.
  - destruct (step_next step) as [id|].
    + destruct (step_map def id) eqn:Hm; [|done]. cbn. intros [= <-]. cbn. eauto.
    + destruct (steps def !! _) as [st|] eqn:Hst; [|done]. cbn. intros [= <-]. cbn. split; [|done].
      by eapply elem_of_step_ids, list_elem_of_lookup_2.
Qed.
Lemma eval_step_answers step input : usable step → (eval_step step input).2 ≠ Waiting.
Proof.
  intros [Hs _]. unfold WorkflowSpec.eval_step, eval_parallel, eval_map, eval_choice, eval_wait.
  destruct (step_type step); try done; repeat (case_match; try done).
  all: match goal with |- context [as_outcome ?r] => by destruct r | _ => idtac end.
Qed.
(** The steps that are left to visit bound the rounds. *)
Lemma eval_loop_settles fuel def c : Forall usable (steps def) → current_step c ∈ ids def →
  (size (ids def ∖ visited c) < fuel)%nat →
  (∃ r, (eval_loop fuel def c).2 = Done r) ∨ (eval_loop fuel def c).2 = Panicked.
Proof.
  intros Hu. revert c. induction fuel as [|fuel IH]; intros c Hc Hf; [lia|]. cbn [WorkflowSpec.eval_loop].
  case_bool_decide as Hv; [by left; eexists|]. destruct (ids_step_map def _ Hc) as [step Hm]. rewrite Hm.
  apply step_map_in in Hm as [Hin _]. rewrite Forall_forall in Hu.
  pose proof (eval_step_answers step (current_input c) (Hu _ Hin)) as Ho.
  destruct (eval_step step (current_input c)) as [rows [out|e| |]]; cbn in Ho;
    [|by left; eexists|by right|done].
  destruct (eval_next def step (visit c) out) as [c'|] eqn:Hn; [|by left; eexists].
  apply eval_next_in in Hn as [Hc' Hv'].
  destruct (eval_loop fuel def c') as [rows' o] eqn:He.
  enough ((∃ r, (eval_loop fuel def c').2 = Done r) ∨ (eval_loop fuel def c').2 = Panicked) as Hr
    by by rewrite He in Hr.
  apply IH; [done|]. rewrite Hv'. cbn. eapply Nat.lt_le_trans; [|apply le_S_n, Hf].
  apply subset_size. clear -Hc Hv. set_solver.
Qed.
Lemma size_ids def : (size (ids def) ≤ length (steps def))%nat.
Proof.
  unfold ids. induction (steps def) as [|st ss IH]; cbn; [by rewrite size_empty|].
  rewrite size_union_alt, size_singleton. apply le_n_S. etrans; [|exact IH].
  apply subseteq_size. clear. set_solver.
Qed.

(** ** Pipelines *)

Definition is_task step : Prop :=
  (step_type step = StepTypeTask ∨ step_type step = StepTypeUnspecified) ∧ step_next step = None.
(** The steps in order, each on the output of the one before, up to the first that fails. *)
Fixpoint pipeline (ss : list Step) (input : Value) : list StepRow * result WorkflowError Value :=
  match ss with
  | [] => ([], Ok input)
  | st :: ss =>
      let '(rows, r) := eval_task st input in
      match r with
      | Ok out => let '(rows', r) := pipeline ss out in (rows ++ rows', r)
      | Err e => (rows, Err e)
      end
  end.

Lemma step_map_unique def n step : NoDup (s_id <$> steps def) → steps def !! n = Some step →
  step_map def (s_id step) = Some step.
Proof.
  intros Hd Hn. destruct (ids_step_map def (s_id step)) as [st Hm].
  - by eapply elem_of_step_ids, list_elem_of_lookup_2.
  - rewrite Hm. apply step_map_in in Hm as [[m Hin]%list_elem_of_lookup He]. f_equal.
    assert (m = n) as ->; [|congruence].
    eapply NoDup_lookup; [exact Hd|rewrite list_lookup_fmap, Hin; reflexivity|].
    by rewrite list_lookup_fmap, Hn, He.
Qed.
Lemma eval_pipeline def n step (vis : gset string) input fuel : Forall is_task (steps def) →
  NoDup (s_id <$> steps def) → steps def !! n = Some step →
  (∀ m st, steps def !! m = Some st → (n ≤ m)%nat → s_id st ∉ vis) → (length (steps def) < fuel + n)%nat →
  eval_loop fuel def (mkCursor input n vis false (s_id step))
  = let '(rows, r) := pipeline (drop n (steps def)) input in (rows, Done r).
Proof.
  intros Ht Hd. revert n step vis input. induction fuel as [|fuel IH]; intros n step vis input Hn Hv Hf.
  { apply lookup_lt_Some in Hn. lia. }
  cbn [WorkflowSpec.eval_loop current_step visited current_input].
  rewrite bool_decide_eq_false_2 by by eapply Hv. rewrite (step_map_unique _ _ _ Hd Hn).
  pose proof Hn as Hdrop. apply drop_S in Hdrop. rewrite Hdrop. cbn [pipeline].
  pose proof (Forall_lookup_1 _ _ _ _ Ht Hn) as [Hty Hnext].
  assert (eval_step step input = let '(rows, r) := eval_task step input in (rows, as_outcome r)) as ->.
  { unfold WorkflowSpec.eval_step. by destruct Hty as [-> | ->]. }
  destruct (eval_task step input) as [rows [out|e]]; cbn [as_outcome]; [|done].
  unfold eval_next. rewrite bool_decide_eq_false_2 by (by destruct Hty as [-> | ->]).
  unfold after_step, visit. cbn [choice_path_taken current_step_index visited current_step]. rewrite Hnext.
  destruct (steps def !! S n) as [st|] eqn:Hs; cbn.
  - rewrite (IH (S n) st _ out Hs); [|..].
    + by destruct (pipeline (drop (S n) (steps def)) out).
    + intros m st' Hm Hle. apply not_elem_of_union. split; [|eapply Hv; [exact Hm|lia]].
      apply not_elem_of_singleton. intros He. assert (m = n); [|lia].
      eapply NoDup_lookup; [exact Hd|rewrite list_lookup_fmap, Hm; reflexivity|].
      by rewrite list_lookup_fmap, Hn, He.
    + lia.
  - apply lookup_ge_None in Hs. rewrite drop_ge by done. cbn. by rewrite app_nil_r.
Qed.
End lemmas.

(** ** Properties *)

Section properties.
Context `{!JsonText} `{!JsonTextLaws} `{!World} `{!Unicode} `{!UnicodeLaws} (dialect : Dialect).
Context (rfc3339 : string → Z → string) (parse_rfc3339 : string → option Z) (utc_now : Z)
  (schedule : nat → nat) (polls : nat) (elapsed : nat → Z).
Implicit Types (s : WorkflowStorage) (v input : Value) (step : Step) (def : WorkflowDefinition).

(** No other connection acts, and identifiers are never drawn twice. *)
Definition alone : Prop := (∀ n s, others n s = s) ∧ ∀ m n, ulid m = ulid n → m = n.

Abbreviation run := (run_definition dialect rfc3339 parse_rfc3339 utc_now schedule polls elapsed).
Abbreviation eval := (eval_definition rfc3339 parse_rfc3339 utc_now).

(** C9. A run of a workflow without signals is its evaluation, whatever the order in which the branches of
    parallel steps and the items of map steps interleave: it answers when the evaluation does, writes the
    status and the output of the evaluation to the execution and to nothing else, and records the attempts
    of the evaluation with their inputs, outputs and errors. *)
Theorem workflow_refines_evaluation i def input s : alone → good i s → Forall usable (steps def) → steps def ≠ [] →
  let '(rows, o) := eval i def input in
  let '(s', r) := run i def input s in
  r = answered o ∧ executions s' = settled i o (executions s)
  ∧ definitions s' = definitions s ∧ signals s' = signals s
  ∧ ∃ added, step_executions s' ≡ₚ step_executions s ++ added ∧ added.*2 ≡ₚ rows.
Proof.
  intros [Hq Hi] Hs Hu Hne. unfold eval_definition, run_definition, execute_workflow_loop.
  destruct (steps def) as [|st ss] eqn:Hst; [done|]. rewrite <-Hst in *.
  pose proof (loop_runs dialect rfc3339 parse_rfc3339 utc_now schedule polls elapsed i Hq Hi
    (S (length (steps def))) def (mkCursor input 0 ∅ false (s_id st)) Hu s Hs) as (added & Hr).
  destruct (eval_loop _ _ _ _ _ _ _) as [rows o]. destruct (loop _ _ _ _ _ _ _ _ _ _ _ s) as [s' r].
  destruct Hr as (? & ? & ? & ? & ? & ?). split_and!; try done. by exists added.
Qed.

(** C24. A run of a workflow without signals ends: the execution is COMPLETED or FAILED, or a step has
    panicked and nothing is written to it. *)
Theorem workflow_terminates i def input s : alone → good i s → Forall usable (steps def) → steps def ≠ [] →
  let '(s', r) := run i def input s in
  (r = Done tt ∧ ∃ row, im_get i (executions s') = Some row ∧ (re_status row = "COMPLETED" ∨ re_status row = "FAILED"))
  ∨ (r = Panicked ∧ executions s' = executions s).
Proof.
  intros Ha Hs Hu Hne. pose proof (workflow_refines_evaluation i def input s Ha Hs Hu Hne) as Hr.
  assert ((∃ x, (eval i def input).2 = Done x) ∨ (eval i def input).2 = Panicked) as Ho.
  { unfold eval_definition. destruct (steps def) as [|st ss] eqn:Hst; [done|]. rewrite <-Hst in *.
    apply eval_loop_settles; [done|apply elem_of_step_ids; rewrite Hst; by left|].
    cbn [visited]. rewrite difference_empty_L. apply le_n_S, size_ids. }
  destruct (eval i def input) as [rows o]. destruct (run i def input s) as [s' r].
  destruct Hr as (-> & He & _). cbn in Ho. destruct Ho as [[x ->]| ->]; [left|by right].
  split; [done|]. rewrite He. cbn. rewrite im_get_update, decide_True by done.
  destruct (good_execution _ _ Hs) as [row ->]. eexists. split; [done|]. destruct x; cbn; auto.
Qed.

(** A workflow of tasks that name no successor runs its steps in order, each on the output of the one
    before, up to the first that fails; the output of the last is that of the execution. *)
Theorem tasks_run_as_pipeline i def input s : alone → good i s → Forall is_task (steps def) →
  NoDup (s_id <$> steps def) → steps def ≠ [] →
  let '(rows, r) := pipeline rfc3339 i (steps def) input in
  let '(s', o) := run i def input s in
  o = Done tt ∧ executions s' = im_update i (settle r) (executions s)
  ∧ ∃ added, step_executions s' ≡ₚ step_executions s ++ added ∧ added.*2 ≡ₚ rows.
Proof.
  intros Ha Hs Ht Hd Hne.
  assert (Forall usable (steps def)) as Hu.
  { eapply Forall_impl; [exact Ht|]. intros st [[Hty|Hty] _]; split; rewrite Hty; try done; discriminate. }
  pose proof (workflow_refines_evaluation i def input s Ha Hs Hu Hne) as Hr.
  unfold eval_definition in Hr. destruct (steps def) as [|st ss] eqn:Hst; [done|]. rewrite <-Hst in *.
  rewrite (eval_pipeline rfc3339 parse_rfc3339 utc_now i def 0 st) in Hr;
    [|done|done|by rewrite Hst|intros ? ? _ _; apply not_elem_of_empty|lia].
  cbn [drop] in Hr. destruct (pipeline _ _ _ _) as [rows r]. destruct (run _ _ _ _) as [s' o].
  by destruct Hr as (-> & He & _ & _ & Hrows).
Qed.

Lemma attempts_succeed i step input out (msg : Z → string) n m (k : Z) :
  (∀ j, k <= j < k + Z.of_nat n → simulate_step_execution rfc3339 step input j = Err (msg j)) →
  simulate_step_execution rfc3339 step input (k + Z.of_nat n) = Ok out →
  attempts rfc3339 i (n + S m) step input k
  = (((λ j, failed_row i (s_id step) input j (msg j)) <$> seqZ k (Z.of_nat n))
       ++ [completed_row i (s_id step) input (k + Z.of_nat n) out], Ok out).
Proof.
  revert k. induction n as [|n IH]; intros k Hf Ho.
  - rewrite Z.add_0_r in *. cbn. by rewrite Ho.
  - cbn [attempts Nat.add]. rewrite Hf by lia.
    replace (k + Z.of_nat (S n)) with ((k + 1) + Z.of_nat n) in * by lia.
    rewrite (IH (k + 1)); [|intros; apply Hf; lia|done].
    rewrite (seqZ_cons k) by lia. replace (Z.succ k) with (k + 1) by lia.
    replace (Z.pred (Z.of_nat (S n))) with (Z.of_nat n) by lia. by destruct (n + S m)%nat eqn:He; [lia|].
Qed.
(** A task is attempted until it succeeds: the attempts before are recorded as failed with their errors,
    the last as completed, and no other is made. *)
Theorem task_retries_until_success i step input s out (msg : Z → string) (k : Z) : alone → good i s →
  1 <= k <= max_attempts_of step →
  (∀ j, 1 <= j < k → simulate_step_execution rfc3339 step input j = Err (msg j)) →
  simulate_step_execution rfc3339 step input k = Ok out →
  let '(s', o) := execute_task_step rfc3339 i step input s in
  o = Done out ∧ executions s' = executions s ∧ ∃ added, step_executions s' ≡ₚ step_executions s ++ added
  ∧ added.*2 ≡ₚ ((λ j, failed_row i (s_id step) input j (msg j)) <$> seqZ 1 (k - 1))
                 ++ [completed_row i (s_id step) input k out].
Proof.
  intros [Hq Hi] Hs Hk Hf Ho.
  destruct (performs_task rfc3339 i Hq Hi step input s Hs) as (s' & added & -> & [_ He _ _] & _ & Hp & Hrows).
  assert (eval_task rfc3339 i step input
    = (((λ j, failed_row i (s_id step) input j (msg j)) <$> seqZ 1 (k - 1))
         ++ [completed_row i (s_id step) input k out], Ok out)) as He'; [|by rewrite He' in *; eauto].
  unfold eval_task.
  replace (Z.to_nat (max_attempts_of step))
    with (Z.to_nat (k - 1) + S (Z.to_nat (max_attempts_of step - k)))%nat by lia.
  assert (1 + Z.of_nat (Z.to_nat (k - 1)) = k) as Hn by lia.
  rewrite (attempts_succeed i step input out msg), Hn; [|intros; apply Hf; lia|by rewrite Hn].
  by rewrite Z2Nat.id by lia.
Qed.
End properties.

(** ** Runs among other connections *)

Section concurrent.
Context `{!JsonText} `{!World} `{!Unicode} `{!DefinitionCodec} (dialect : Dialect).
Context (rfc3339 : string → Z → string) (parse_rfc3339 : string → option Z) (utc_now : Z)
  (schedule : nat → nat) (polls : nat) (elapsed : nat → Z).
Implicit Types (s : WorkflowStorage) (v input : Value) (step : Step) (def : WorkflowDefinition).

Definition over s i : Prop := ∀ row, im_get i (executions s) = Some row →
  re_status row = "COMPLETED" ∨ re_status row = "FAILED".

Lemma bind_done {A B} (m : M A) (k : A → M B) s s' (b : B) : (m ≫= k) s = (s', Done b) →
  ∃ s1 a, m s = (s1, Done a) ∧ k a s1 = (s', Done b).
Proof. unfold mbind, M_bind. destruct (m s) as [s1 [a| | |]]; try done. by eauto. Qed.
Lemma update_status_done i st s s' : update_execution_status dialect i st s = (s', Done tt) →
  ∀ row, im_get i (executions s') = Some row → re_status row = ExecutionStatus_as_sql_str st.
Proof.
  unfold update_execution_status, update_execution_status_with_version, stmt, update_row, guarded.
  destruct (arrive s) as [n t]. destruct (im_get i (executions t)) as [r|] eqn:Hr; cbn; intros [= <-] row.
  - cbn. rewrite im_get_update, decide_True, Hr by done. cbn. by intros [= <-].
  - by rewrite Hr.
Qed.
Lemma finish_done i out s s' : finish dialect i out s = (s', Done tt) → over s' i.
Proof.
  intros (s1 & a & _ & Hu)%bind_done row Hrow. left.
  by rewrite (update_status_done i ExecutionStatusCompleted s1 s' Hu row Hrow).
Qed.
Lemma loop_done i def fuel : ∀ c s s',
  loop dialect rfc3339 parse_rfc3339 utc_now schedule polls elapsed fuel i def c s = (s', Done tt) → over s' i.
Proof.
  induction fuel as [|fuel IH]; intros c s s'; [done|]. cbn [loop].
  case_bool_decide; [apply finish_done|].
  intros (s1 & step & _ & (s2 & r & _ & Hr)%bind_done)%bind_done. destruct r as [out|e].
  - apply bind_done in Hr as (s3 & n & _ & Hn). destruct n as [c'|]; [by eapply IH|by eapply finish_done].
  - intros row Hrow. right. by rewrite (update_status_done i ExecutionStatusFailed s2 s' Hr row Hrow).
Qed.

(** A run that answers leaves its execution COMPLETED or FAILED, whatever the other connections do
    between its statements and whatever the definition: an execution that was cancelled or timed out
    meanwhile does not stay so. *)
Theorem run_overwrites_status i def input s s' :
  run_definition dialect rfc3339 parse_rfc3339 utc_now schedule polls elapsed i def input s = (s', Done tt) →
  over s' i.
Proof.
  unfold run_definition, execute_workflow_loop. destruct (steps def) as [|st ss].
  - intros Hu row Hrow. left. by rewrite (update_status_done i ExecutionStatusCompleted s s' Hu row Hrow).
  - apply loop_done.
Qed.
End concurrent.

(** ** Runs of workflows *)

#[local] Existing Instances Sample.value_text Sample.value_text_laws Sample.ascii_case
  Sample.ascii_case_laws Sample.codec.
Section sample.
#[local] Existing Instance Sample.quiet.

Definition sample_run (def : WorkflowDefinition) : Value → M () :=
  run_definition SQLite (λ _ _, "now") (λ _, None) 0 id 10 (λ k, Z.of_nat k * 10) "e" def.
Definition statuses (s : WorkflowStorage) : list (string * string) * list string :=
  ((λ '(_, r), (r_step_id r, rs_status r)) <$> step_executions s, (λ '(_, r), re_status r) <$> executions s).
Definition echo (id : string) (next : option string) : Step :=
  make_step id id StepTypeTask (json_object [("output", Str id)]) next None None.
Definition failing (id : string) : Step :=
  make_step id id StepTypeTask (json_object [("action", Str "fail")]) None None None.
Definition workflow (ss : list Step) : WorkflowDefinition := make_workflow_definition "w" "w" "1" ss.

Lemma sample_alone : alone.
Proof. split; [done|]. cbn. intros m n Hmn. by apply (inj pretty). Qed.
Lemma sample_good : good "e" Sample.one.
Proof. split; [constructor|intros n _; apply not_elem_of_nil|constructor|by eexists]. Qed.

Lemma workflow_refines_evaluation_witness :
  (sample_run (workflow [echo "a" None; failing "b"; echo "c" None]) Null Sample.one).2 = Done tt.
Proof.
  pose proof (workflow_refines_evaluation SQLite (λ _ _, "now") (λ _, None) 0 id 10 (λ k, Z.of_nat k * 10)
    "e" (workflow [echo "a" None; failing "b"; echo "c" None]) Null Sample.one sample_alone sample_good) as H.
  unfold sample_run. destruct (eval_definition _ _ _ _ _ _) as [rows o] eqn:He.
  destruct (run_definition _ _ _ _ _ _ _ _ _ _) as [s' r]. cbn [snd].
  destruct H as [-> _]; [repeat (apply Forall_cons_2; [by split|]); apply Forall_nil_2|done|].
  enough (o = (eval_definition (λ _ _, "now") (λ _, None) 0 "e"
    (workflow [echo "a" None; failing "b"; echo "c" None]) Null).2) as -> by by vm_compute.
  by rewrite He.
Defined.

Lemma workflow_terminates_witness :
  let '(s', r) := sample_run (workflow [echo "a" None; failing "b"]) Null Sample.one in
  (r = Done tt ∧ ∃ row, im_get "e" (executions s') = Some row ∧ (re_status row = "COMPLETED" ∨ re_status row = "FAILED"))
  ∨ (r = Panicked ∧ executions s' = executions Sample.one).
Proof.
  apply (workflow_terminates SQLite (λ _ _, "now") (λ _, None) 0 id 10 (λ k, Z.of_nat k * 10)
    "e" _ Null Sample.one sample_alone sample_good); [|done].
  repeat (apply Forall_cons_2; [by split|]). apply Forall_nil_2.
Defined.

Lemma tasks_run_as_pipeline_witness :
  (sample_run (workflow [echo "a" None; echo "b" None]) Null Sample.one).2 = Done tt.
Proof.
  pose proof (tasks_run_as_pipeline SQLite (λ _ _, "now") (λ _, None) 0 id 10 (λ k, Z.of_nat k * 10)
    "e" (workflow [echo "a" None; echo "b" None]) Null Sample.one sample_alone sample_good) as H.
  unfold sample_run. destruct (pipeline _ _ _ _) as [rows r].
  destruct (run_definition _ _ _ _ _ _ _ _ _ _) as [s' o].
  destruct H as [-> _]; [|by vm_compute; repeat constructor; set_solver|done|done].
  repeat (apply Forall_cons_2; [by split; [left|]|]). apply Forall_nil_2.
Defined.

(** A step that fails twice, with three attempts. *)
Definition flaky : Step :=
  make_step "f" "f" StepTypeTask (json_object [("action", Str "flaky"); ("fail_count", Number 2)]) None None
    (Some (mkRetryPolicy 3 (f64_of_Z 2) None None (f64_of_Z 0) [] false)).
Lemma task_retries_until_success_witness :
  ∃ s', execute_task_step (λ _ _, "now") "e" flaky Null Sample.one
    = (s', Done (json_object [("step_id", Str "f"); ("action", Str "flaky"); ("succeeded_on_attempt", Number 3)])).
Proof.
  pose proof (task_retries_until_success (λ _ _, "now") "e" flaky Null Sample.one
    (json_object [("step_id", Str "f"); ("action", Str "flaky"); ("succeeded_on_attempt", Number 3)])
    (λ k, "Flaky failure (attempt " +:+ pretty k +:+ ")") 3 sample_alone sample_good) as H.
  destruct (execute_task_step _ _ _ _ _) as [s' o]. exists s'. destruct H as [-> _]; [done| |done|done].
  intros j Hj. assert (j = 1 ∨ j = 2) as [-> | ->] by lia; by vm_compute.
Defined.

(** *** What workflows do on the edges *)

(** The index does not follow a jump to the successor that a step names: after [C] comes [B], the step
    after [A], then the run ends at [C] again, and [D] never runs. *)
Example jump_keeps_the_index :
  statuses (sample_run (workflow [echo "A" (Some "C"); echo "B" None; echo "C" None; echo "D" None]) Null
    Sample.one).1
  = ([("A", "COMPLETED"); ("C", "COMPLETED"); ("B", "COMPLETED")], ["COMPLETED"]).
Proof. by vm_compute. Qed.

(** A cycle of successors is left at the first step that comes again, and the execution is COMPLETED. *)
Example cycle_completes :
  statuses (sample_run (workflow [echo "A" (Some "B"); echo "B" (Some "A")]) Null Sample.one).1
  = ([("A", "COMPLETED"); ("B", "COMPLETED")], ["COMPLETED"]).
Proof. by vm_compute. Qed.

(** A step whose configuration is refused fails the execution and stays RUNNING itself. *)
Example refused_step_stays_running :
  statuses (sample_run (workflow [make_step "P" "P" StepTypeParallel Null None None None]) Null Sample.one).1
  = ([("P", "RUNNING")], ["FAILED"]).
Proof. by vm_compute. Qed.

(** A map step of no concurrency panics, and the execution stays RUNNING. *)
Example no_concurrency_panics :
  let '(s, r) := sample_run (workflow [make_step "M" "M" StepTypeMap
    (json_object [("items", Array [Null]); ("iterator", Object []); ("max_concurrency", Number 0)]) None None None])
    Null Sample.one in
  r = Panicked ∧ statuses s = ([("M", "RUNNING")], ["RUNNING"]).
Proof. by vm_compute. Qed.

(** A task of no attempts fails the execution without a record. *)
Example no_attempts_fail :
  statuses (sample_run (workflow [make_step "T" "T" StepTypeTask Null None None
    (Some (mkRetryPolicy 0 (f64_of_Z 2) None None (f64_of_Z 0) [] false))]) Null Sample.one).1
  = ([], ["FAILED"]).
Proof. by vm_compute. Qed.

(** The number that a configuration compares with is a double: the same choice goes one way for the
    integer of a request and the other way for the double that is read back from the execution. *)
Definition five : WorkflowDefinition := workflow
  [make_step "Q" "Q" StepTypeChoice (json_object [("choices", Array [json_object
     [("variable", Str "$.n"); ("operator", Str "equals"); ("value", Number 5); ("next", Str "B")]])]) None None None;
   echo "B" None].
Example equals_depends_on_the_text_of_numbers :
  (statuses (sample_run five (json_object [("n", Number 5)]) Sample.one).1).1 = [("Q", "COMPLETED")]
  ∧ (statuses (sample_run five (json_object [("n", Float (f64_of_Z 5))]) Sample.one).1).1
    = [("Q", "COMPLETED"); ("B", "COMPLETED")].
Proof. by vm_compute. Qed.
End sample.

(** *** A cancellation in the middle *)

Section cancelled.
Definition cancelling : World := Sample.world (λ n s,
  if bool_decide (n = 1%nat)
  then set_executions s (im_update "e" (set_status ExecutionStatusCancelled 0) (executions s)) else s).
#[local] Existing Instance cancelling.

Lemma run_overwrites_status_witness :
  let s := (run_definition SQLite (λ _ _, "now") (λ _, None) 0 id 10 (λ k, Z.of_nat k * 10) "e"
              (workflow [echo "a" None; echo "b" None]) Null Sample.one).1 in
  over s "e" ∧ (re_status <$> im_get "e" (executions s)) = Some "COMPLETED".
Proof.
  intros s. split; [|by vm_compute].
  apply (run_overwrites_status SQLite (λ _ _, "now") (λ _, None) 0 id 10 (λ k, Z.of_nat k * 10) "e"
    (workflow [echo "a" None; echo "b" None]) Null Sample.one). by vm_compute.
Defined.
(** Two connections that check for a signal at once get the same payload, and take out two. *)
Definition checking : World := Sample.world (λ n s,
  if bool_decide (n = 1%nat) then (delete_signal (H0 := Sample.quiet) "e" "go" (set_tick s 5)).1 else s).
Example signal_delivered_twice :
  let s := set_signals Sample.one [mkSignal "e" "go" (Str "1"); mkSignal "e" "go" (Str "2")] in
  (check_signal (H0 := checking) "e" "go" s).2 = Done (Some (Str "1"))
  ∧ (check_signal (H0 := Sample.quiet) "e" "go" s).2 = Done (Some (Str "1"))
  ∧ signals (check_signal (H0 := checking) "e" "go" s).1 = [].
Proof. by vm_compute. Qed.
End cancelled.
