(* ===== verification/WorkflowService.v ===== *)
(** WorkflowService: the two fronts of the workflow executor, the gRPC service of
    crates/workflow/src/service.rs and the actor of workflow_actor.rs.

    A handler of the service takes the context of its request, or the error of its authentication; what
    it answers is a value or a status of gRPC.  The page and the request identifier of an answer are left
    out.  Parameters, besides those of [Workflow]: the text of JSON as a string. *)
From S2P Require Import Prelude Text Json Context KeyValue Retry WorkflowStore Workflow.

#[local] Arguments String.append : simpl nomatch.
#[local] Arguments json_object : simpl never.
#[local] Arguments update_execution_status : simpl never.

(** ** The gRPC service *)

Inductive Status :=
| Internal (m : string)
| InvalidArgument (m : string)
| StatusNotFound (m : string)
| FailedPrecondition (m : string)
| Unauthenticated (m : string).

Definition workflow_error_to_status (e : WorkflowError) : Status :=
  match e with
  | Storage m => Internal ("Storage error: " ++ m)
  | Serialization m => InvalidArgument ("Serialization error: " ++ m)
  | NotFound m => StatusNotFound m
  | InvalidDefinition m => InvalidArgument ("Invalid definition: " ++ m)
  | Execution m => Internal ("Execution error: " ++ m)
  | ConcurrentUpdate m => FailedPrecondition ("Concurrent update: " ++ m)
  end.

(** There is no answer when the handler has panicked or still waits. *)
Inductive reply (A : Type) := Answered (a : A) | Refused (st : Status) | NoReply.
Arguments Answered {A} a.
Arguments Refused {A} st.
Arguments NoReply {A}.

Section service.
Context `{!JsonText} `{!World} `{!Unicode} `{!DefinitionCodec} (dialect : Dialect).
Context (rfc3339 : string → Z → string) (parse_rfc3339 : string → option Z) (utc_now : Z)
  (schedule : nat → nat) (polls : nat) (elapsed : nat → Z).
Context (parse_json : string → option Value) (print_json : Value → string).
Implicit Types (s : WorkflowStorage) (ctx : RequestContext) (auth : result string RequestContext).

Definition Handler (A : Type) : Type := WorkflowStorage → WorkflowStorage * reply A.
#[export] Instance Handler_ret : MRet Handler := λ A a s, (s, Answered a).
#[export] Instance Handler_bind : MBind Handler := λ A B k m s,
  match m s with
  | (s, Answered a) => k a s
  | (s, Refused st) => (s, Refused st)
  | (s, NoReply) => (s, NoReply)
  end.
Definition refuse {A} (st : Status) : Handler A := λ s, (s, Refused st).
(** [.map_err(Self::workflow_error_to_status)] *)
Definition call {A} (m : M A) : Handler A := λ s,
  match m s with
  | (s, Done a) => (s, Answered a)
  | (s, Failed e) => (s, Refused (workflow_error_to_status e))
  | (s, _) => (s, NoReply)
  end.
Definition authenticated auth : Handler RequestContext :=
  match auth with Ok ctx => mret ctx | Err e => refuse (Unauthenticated e) end.
Definition present (field x : string) : Handler () :=
  if String.eqb x "" then refuse (InvalidArgument (field ++ " is required")) else mret tt.
Definition version_or_latest (v : string) : string := if String.eqb v "" then "latest" else v.

Definition svc_save_definition auth (def : option WorkflowDefinition) : Handler WorkflowDefinition :=
  ctx ← authenticated auth;
  match def with
  | Some d => _ ← call (save_definition ctx d); mret d
  | None => refuse (InvalidArgument "definition is required")
  end.
Definition svc_create_definition := svc_save_definition.
Definition svc_update_definition := svc_save_definition.
Definition svc_get_definition auth (id version : string) : Handler WorkflowDefinition :=
  ctx ← authenticated auth;
  _ ← present "id" id;
  call (get_definition ctx id (version_or_latest version)).
Definition svc_list_definitions auth (name_prefix : string) : Handler (list WorkflowDefinition) :=
  ctx ← authenticated auth;
  call (list_definitions dialect ctx (if String.eqb name_prefix "" then None else Some name_prefix)).
Definition svc_delete_definition auth (id version : string) : Handler () :=
  ctx ← authenticated auth;
  _ ← present "id" id;
  call (delete_definition ctx id version).

(** The input of the request is not read. *)
Definition svc_start_execution auth (definition_id definition_version : string) (req_input : option Struct)
    : Handler string :=
  ctx ← authenticated auth;
  _ ← present "definition_id" definition_id;
  call (start_execution dialect rfc3339 parse_rfc3339 utc_now schedule polls elapsed ctx definition_id
          (version_or_latest definition_version) (Object [])).
Definition svc_get_execution auth (i : string) : Handler WorkflowExecution :=
  ctx ← authenticated auth;
  _ ← present "execution_id" i;
  call (get_execution ctx i).

Definition all_statuses : list ExecutionStatus :=
  [ExecutionStatusPending; ExecutionStatusRunning; ExecutionStatusCompleted; ExecutionStatusFailed;
   ExecutionStatusCancelled; ExecutionStatusTimedOut].
Definition svc_list_executions auth (st : Z) (definition_id : string) : Handler (list WorkflowExecution) :=
  ctx ← authenticated auth;
  sts ← (if st =? 0 then mret all_statuses
         else match ExecutionStatus_of_i32 st with
              | None | Some ExecutionStatusUnspecified => refuse (InvalidArgument "Invalid execution status")
              | Some st => mret [st]
              end);
  es ← call (list_executions_by_status ctx sts None);
  mret (List.filter (λ e, filter_by definition_id (we_definition_id e)) es).

(** The context of these three is only authenticated. *)
Definition svc_cancel_execution auth (i : string) : Handler () :=
  _ ← authenticated auth;
  _ ← present "execution_id" i;
  call (update_execution_status dialect i ExecutionStatusCancelled).
Definition signal_payload (data : option PValue) : Value :=
  match data with
  | Some (StringValue t) => default (Str t) (parse_json t)
  | Some (BoolValue b) => Bool b
  | Some (NumberValue x) => match float_to_value x with Null => Number 0 | v => v end
  | Some (NullValue | PNone | ListValue _ | StructValue _) | None => Null
  end.
Definition svc_signal_execution auth (i name : string) (data : option PValue) : Handler () :=
  _ ← authenticated auth;
  _ ← present "execution_id" i;
  _ ← present "signal_name" name;
  call (send_signal i name (signal_payload data)).
Definition svc_get_step_executions auth (i : string) : Handler (list StepExecution) :=
  _ ← authenticated auth;
  _ ← present "execution_id" i;
  call (get_step_execution_history i).

Definition status_text (e : WorkflowExecution) : string :=
  match ExecutionStatus_of_i32 (we_status e) with
  | Some st => ExecutionStatus_as_sql_str st
  | None => "UNSPECIFIED"
  end.
Definition svc_query_execution auth (i name : string) : Handler PValue :=
  ctx ← authenticated auth;
  _ ← present "execution_id" i;
  _ ← present "query_name" name;
  e ← call (get_execution ctx i);
  if String.eqb name "status" then mret (StringValue (status_text e))
  else if String.eqb name "current_step" then mret (StringValue (we_current_step_id e))
  else if String.eqb name "context" || String.eqb name "state" then
    mret (StringValue (print_json (json_object
      [("execution_id", Str (we_execution_id e)); ("definition_id", Str (we_definition_id e));
       ("definition_version", Str (we_definition_version e)); ("status", Str (status_text e));
       ("current_step_id", Str (we_current_step_id e)); ("error", Str (we_error e))])))
  else refuse (InvalidArgument ("Unknown query_name: " +:+ name +:+ ". Supported: status, current_step, context")).
End service.

(** ** The actor *)

Inductive WorkflowMessage :=
| Start (definition_id definition_version : string) (input : Value)
| Query (execution_id : string)
| Cancel (execution_id : string)
| Signal (execution_id signal_name : string) (payload : Value)
| Resume (execution_id : string).
Inductive WorkflowResponse :=
| Started (execution_id : string)
| StatusIs (status_code : Z) (output : option Value)
| Cancelled
| SignalSent
| Resumed
| ErrorResponse (message : string).
Definition response_status (r : WorkflowResponse) : option ExecutionStatus :=
  match r with StatusIs n _ => ExecutionStatus_of_i32 n | _ => None end.

Section actor.
Context `{!JsonText} `{!World} `{!Unicode} `{!DefinitionCodec} (dialect : Dialect).
Context (rfc3339 : string → Z → string) (parse_rfc3339 : string → option Z) (utc_now : Z)
  (schedule : nat → nat) (polls : nat) (elapsed : nat → Z).
Implicit Types (s : WorkflowStorage).

(** [active_executions] maps executions to the tasks that run them; nothing inserts into it. *)
Record WorkflowActor := mkActor { a_ctx : RequestContext; active_executions : list (string * nat) }.

(** The message's answer, the actor after it and the tasks it has aborted. *)
Definition handle_message (a : WorkflowActor) (m : WorkflowMessage) : M (WorkflowResponse * WorkflowActor * list nat) :=
  match m with
  | Start definition_id definition_version input =>
      i ← start_execution dialect rfc3339 parse_rfc3339 utc_now schedule polls elapsed (a_ctx a) definition_id
            definition_version input;
      mret (Started i, a, [])
  | Query i =>
      e ← get_execution (a_ctx a) i;
      mret (StatusIs (we_status e) (execution_output_value e), a, [])
  | Cancel i =>
      _ ← update_execution_status dialect i ExecutionStatusCancelled;
      mret (Cancelled, mkActor (a_ctx a) (im_remove i (active_executions a)),
            option_list (im_get i (active_executions a)))
  | Signal i name payload => _ ← send_signal i name payload; mret (SignalSent, a, [])
  | Resume i =>
      _ ← execute_from_state dialect rfc3339 parse_rfc3339 utc_now schedule polls elapsed (a_ctx a) i;
      mret (Resumed, a, [])
  end.
Fixpoint handle_messages (a : WorkflowActor) (ms : list WorkflowMessage) : M (WorkflowActor * list nat) :=
  match ms with
  | [] => mret (a, [])
  | m :: ms =>
      '(_, a, gone) ← handle_message a m;
      '(a, gone') ← handle_messages a ms;
      mret (a, gone ++ gone')
  end.
Definition new_actor (ctx : RequestContext) : WorkflowActor := mkActor ctx [].
End actor.

(** ** Properties *)

Section properties.
Context `{!JsonText} `{!World} `{!Unicode} `{!DefinitionCodec} (dialect : Dialect).
Context (rfc3339 : string → Z → string) (parse_rfc3339 : string → option Z) (utc_now : Z)
  (schedule : nat → nat) (polls : nat) (elapsed : nat → Z).
Context (parse_json : string → option Value) (print_json : Value → string).
Implicit Types (s : WorkflowStorage) (ctx : RequestContext).

Lemma get_execution_other ctx i s row : (∀ n s, others n s = s) → im_get i (executions s) = Some row →
  re_tenant_id row ≠ tenant_id ctx ∨ re_namespace row ≠ namespace ctx →
  (get_execution ctx i s).2 = Failed (NotFound ("Execution " ++ i ++ " not found: " ++ no_rows)).
Proof.
  intros Hq Hr Ho. unfold get_execution, get_execution_row_with_tenant, stmt, arrive, mbind, M_bind. cbn.
  rewrite Hq, Hr. destruct (String.eqb_spec (re_tenant_id row) (tenant_id ctx)); [|done].
  destruct (String.eqb_spec (re_namespace row) (namespace ctx)); [|done]. by destruct Ho.
Qed.

(** The service keeps tenants apart when it reads an execution and nowhere else: a caller of another
    tenant or namespace is told that the execution is not found when it gets or queries it, and yet its
    cancellation is done, its signal is stored for the execution, and it is given the step records. *)
Theorem service_isolates_reads_only ctx i name q s row : (∀ n s, others n s = s) → i ≠ "" → name ≠ "" → q ≠ "" →
  im_get i (executions s) = Some row → re_tenant_id row ≠ tenant_id ctx ∨ re_namespace row ≠ namespace ctx →
  let missing := StatusNotFound ("Execution " ++ i ++ " not found: " ++ no_rows) in
  (svc_get_execution (Ok ctx) i s).2 = Refused missing
  ∧ (svc_query_execution print_json (Ok ctx) i q s).2 = Refused missing
  ∧ (let '(s', r) := svc_cancel_execution dialect (Ok ctx) i s in
     r = Answered tt ∧ (re_status <$> im_get i (executions s')) = Some "CANCELLED")
  ∧ (let '(s', r) := svc_signal_execution parse_json (Ok ctx) i name None s in
     r = Answered tt ∧ pending i name s' = pending i name s ++ [to_string Null])
  ∧ (svc_get_step_executions (Ok ctx) i s).2 = (call (get_step_execution_history i) s).2.
Proof.
  intros Hq Hi Hn Hquery Hr Ho missing.
  pose proof (get_execution_other ctx i s row Hq Hr Ho) as Hg.
  assert (present "execution_id" i s = (s, Answered tt)) as Hp.
  { unfold present. by destruct (String.eqb_spec i ""). }
  split_and!.
  - unfold svc_get_execution, authenticated, mbind, Handler_bind. cbn. rewrite Hp. unfold call.
    destruct (get_execution ctx i s) as [s' r]. cbn in *. by rewrite Hg.
  - unfold svc_query_execution, authenticated, mbind, Handler_bind. cbn. rewrite Hp. unfold present at 1.
    destruct (String.eqb_spec q ""); [done|]. cbn. unfold call.
    destruct (get_execution ctx i s) as [s' r]. cbn in *. by rewrite Hg.
  - unfold svc_cancel_execution, authenticated, mbind, Handler_bind. cbn. rewrite Hp.
    unfold call, update_execution_status, update_execution_status_with_version, stmt, arrive, update_row, guarded.
    cbn. rewrite Hq, Hr. cbn. split; [done|]. by rewrite im_get_update, decide_True, Hr.
  - unfold svc_signal_execution, authenticated, mbind, Handler_bind. cbn. rewrite Hp.
    unfold present, call. destruct (String.eqb_spec name ""); [done|]. cbn. unfold send_signal, stmt, arrive.
    cbn. rewrite Hq, Hr. cbn. split; [done|]. unfold pending. cbn [signals set_signals].
    rewrite filter_app, fmap_app, filter_cons_True; [done|]. unfold is_signal. cbn. by rewrite !String.eqb_refl.
  - unfold svc_get_step_executions, authenticated, mbind, Handler_bind. cbn. by rewrite Hp.
Qed.

(** No message aborts a task: the actor never learns of the tasks that run its executions, so that a
    cancellation changes the status in the storage and nothing else. *)
Theorem cancellation_aborts_nothing ctx ms s : let '(s', o) := handle_messages dialect rfc3339 parse_rfc3339 utc_now
    schedule polls elapsed (new_actor ctx) ms s in
  match o with Done (a, gone) => a = new_actor ctx ∧ gone = [] | _ => True end.
Proof.
  revert s. induction ms as [|m ms IH]; intros s; [done|]. cbn [handle_messages]. unfold mbind, M_bind.
  assert (let '(s', o) := handle_message dialect rfc3339 parse_rfc3339 utc_now schedule polls elapsed
    (new_actor ctx) m s in match o with Done (_, a, gone) => a = new_actor ctx ∧ gone = [] | _ => True end) as Hm.
  { destruct m; cbn [handle_message]; unfold mbind, M_bind; repeat (case_match; simplify_eq/=); try done;
    match goal with E : mret _ _ = _ |- _ => by injection E as <- <- <- <- end. }
  destruct (handle_message _ _ _ _ _ _ _ _ m s) as [s1 [[[r a] gone]| | |]]; [|done..]. destruct Hm as [-> ->].
  specialize (IH s1). destruct (handle_messages _ _ _ _ _ _ _ _ ms s1) as [s2 [[a gone]| | |]]; [|done..].
  by destruct IH as [-> ->].
Qed.
End properties.

(** ** Executions that are controlled *)

#[local] Existing Instances Sample.value_text Sample.ascii_case Sample.codec Sample.quiet.

Lemma service_isolates_reads_only_witness :
  let other := new_without_auth "globex" "prod" in
  (svc_get_execution (Ok other) "e" Sample.one).2
  = Refused (StatusNotFound "Execution e not found: no rows")
  ∧ let '(s', r) := svc_cancel_execution SQLite (Ok other) "e" Sample.one in
    r = Answered tt ∧ (re_status <$> im_get "e" (executions s')) = Some "CANCELLED".
Proof.
  intros other. assert (re_tenant_id (Sample.row "RUNNING") ≠ tenant_id other) as Ht by done.
  assert (∀ n s, others n s = s) as Hq by done.
  destruct (service_isolates_reads_only SQLite (λ _, None) (λ _, "") other "e" "go" "status" Sample.one
    (Sample.row "RUNNING") Hq ltac:(done) ltac:(done) ltac:(done) eq_refl (or_introl Ht))
    as (Hg & _ & Hc & _). split; [exact Hg|exact Hc].
Defined.

(** Definitions that are read back as one of a single task. *)
#[local] Instance one_task : DefinitionCodec := {|
  encode_definition _ := [];
  decode_definition _ := Ok (make_workflow_definition "w" "w" "1"
    [make_step "a" "a" StepTypeTask Null None None None]);
  encodable _ := false
|}.
Definition sample_actor (o : nat → nat) : list WorkflowMessage → M (WorkflowActor * list nat) :=
  handle_messages SQLite (λ _ _, "now") (λ _, None) 0 o 10 (λ k, Z.of_nat k * 10) (new_actor Sample.ctx).

(** A resumed execution starts again at the first step, although the steps before the one that waits
    are on record: the execution of a workflow of one task that has run is run once more. *)
Example resume_starts_again :
  let def := make_workflow_definition "w" "w" "1" [] in
  let s := (save_definition Sample.ctx def new_in_memory).1 in
  let '(s, r) := sample_actor id [Start "w" "1" (Object []); Resume "2"] s in
  r = Done (new_actor Sample.ctx, [])
  ∧ ((λ '(_, r), (rs_execution_id r, r_step_id r, rs_status r)) <$> step_executions s)
    = [("2", "a", "COMPLETED"); ("2", "a", "COMPLETED")].
Proof. by vm_compute. Qed.
