(* ===== verification/Channels.v ===== *)
(** Channels: the channel trait of crates/channel/src/channel.rs, with the contract of a channel that
    delivers at least once, and the in-memory channel of in_memory.rs.

    A bounded or unbounded queue of the asynchronous runtime is the list of its messages; an operation
    that would have to wait says so in its result.  Durations are in nanoseconds. *)
From S2P Require Import Prelude.

(** ** Messages, errors and configuration *)

(** The fields of a message that channels and the outbox use. *)
Record Message := mkMessage {
  id : string;
  receiver_id : string;
  payload : list Z;
  delivery_count : Z
}.
#[export] Instance Message_eq_dec : EqDecision Message.
Proof. solve_decision. Defined.

Inductive ChannelError :=
| ChannelFull (msg : string)
| ChannelClosed (msg : string)
| Timeout (msg : string)
| MessageNotFound (msg : string)
| InvalidConfiguration (msg : string)
| BackendError (msg : string)
| SerializationError (msg : string)
| InternalError (msg : string).

Inductive ChannelErrorCode :=
| ChannelErrorUnspecified | ChannelErrorFull | ChannelErrorClosed | ChannelErrorTimeout
| ChannelErrorMessageNotFound | ChannelErrorInvalidConfiguration.

Definition code (e : ChannelError) : ChannelErrorCode :=
  match e with
  | ChannelFull _ => ChannelErrorFull
  | ChannelClosed _ => ChannelErrorClosed
  | Timeout _ => ChannelErrorTimeout
  | MessageNotFound _ => ChannelErrorMessageNotFound
  | InvalidConfiguration _ => ChannelErrorInvalidConfiguration
  | BackendError _ | SerializationError _ | InternalError _ => ChannelErrorUnspecified
  end.

#[local] Abbreviation res := (result ChannelError).

(** [DEFAULT_MAX_RETRIES], and the maximum of a configured policy. *)
Definition DEFAULT_MAX_RETRIES : Z := 3.
Definition max_retries_from_config (max_attempts : option Z) : Z :=
  match max_attempts with
  | Some v => if 0 <? v then v else DEFAULT_MAX_RETRIES
  | None => DEFAULT_MAX_RETRIES
  end.

(** The values of [ChannelProvider]. *)
Definition ChannelProviderInMemory : Z := 1.

Record ChannelConfig := mkConfig {
  name : string;
  provider : Z;
  capacity : Z;
  send_timeout : option Z;
  receive_timeout : option Z
}.

(** ** The trait *)

(** The operations of the trait [Channel] that the outbox uses. *)
Class Channel (C : Type) := {
  ch_try_receive : nat → C → C * res (list Message);
  ch_ack : string → C → C * res ();
  ch_nack : string → bool → option Z → C → C * res ()
}.

(** The documented contract of a channel with delivery at least once.  [owed] are the identifiers of
    the messages that are neither acknowledged nor sent to the dead-letter queue, [retries] the number
    of times that a message went back for another delivery.  An acknowledgement may fail before or after it has
    taken effect; a rejected message that is to be requeued goes back, or to the dead-letter queue where the
    channel itself limits its retries; a rejection that fails changes nothing.  An answer to a message leaves the
    others alone, and nothing is promised of answers to a message that is not owed.

    The channel of sqlite_backend.rs keeps this contract while its dead-letter queue is enabled
    ([SqliteChannel]).  The in-memory channel does not: it forgets a message when it is received. *)
Definition others_kept {C} (owed : C → gset string) (retries : C → string → Z) (i : string) (c c' : C) : Prop :=
  ∀ j, j ≠ i → (j ∈ owed c' ↔ j ∈ owed c) ∧ retries c' j = retries c j.
Class AtLeastOnce (C : Type) `{!Channel C} := {
  owed : C → gset string;
  retries : C → string → Z;
  dead_letters : C → gset string;
  try_receive_spec : ∀ n c c' r, ch_try_receive n c = (c', r) →
    owed c' = owed c ∧ dead_letters c' = dead_letters c ∧ (∀ i, retries c' i = retries c i) ∧
    match r with
    | Ok ms => NoDup (id <$> ms) ∧
        ∀ m, m ∈ ms → id m ∈ owed c ∧ delivery_count m = retries c (id m)
    | Err _ => True
    end;
  ack_spec : ∀ i c c' r, i ∈ owed c → ch_ack i c = (c', r) →
    dead_letters c' = dead_letters c ∧ others_kept owed retries i c c' ∧
    match r with
    | Ok _ => i ∉ owed c'
    | Err _ => i ∈ owed c' → retries c' i = retries c i
    end;
  nack_spec : ∀ i requeue delay c c' r, i ∈ owed c → ch_nack i requeue delay c = (c', r) →
    dead_letters c ⊆ dead_letters c' ∧ others_kept owed retries i c c' ∧
    match r with
    | Ok _ => ((i ∉ owed c') ∧ i ∈ dead_letters c') ∨
        (requeue = true ∧ i ∈ owed c' ∧ retries c' i = retries c i + 1)
    | Err _ => i ∈ owed c' ∧ retries c' i = retries c i
    end
}.

(** ** The in-memory channel *)

Record ChannelStatsData := mkStats {
  messages_sent : Z;
  messages_received : Z;
  messages_pending : Z;
  messages_failed : Z
}.

(** A receiver of the broadcast channel: its buffer, and whether messages were overwritten before it
    read them. *)
Record Subscriber := mkSubscriber { sub_buffer : list Message; sub_lagged : bool }.

Record InMemoryChannel := mkChannel {
  config : ChannelConfig;
  queue : list Message;
  broadcast_tx : option (list Subscriber);
  stats : ChannelStatsData;
  closed : bool
}.

Module Imc.

Definition new (c : ChannelConfig) : res InMemoryChannel :=
  if negb (provider c =? ChannelProviderInMemory)
  then Err (InvalidConfiguration "Invalid backend for InMemoryChannel")
  else Ok (mkChannel c [] None (mkStats 0 0 0 0) false).

Definition set_queue (c : InMemoryChannel) (q : list Message) : InMemoryChannel :=
  mkChannel (config c) q (broadcast_tx c) (stats c) (closed c).
Definition set_stats (c : InMemoryChannel) (s : ChannelStatsData) : InMemoryChannel :=
  mkChannel (config c) (queue c) (broadcast_tx c) s (closed c).
Definition set_subscribers (c : InMemoryChannel) (l : option (list Subscriber))
    : InMemoryChannel :=
  mkChannel (config c) (queue c) l (stats c) (closed c).

(** *** Sending *)

(** A queue of capacity zero is unbounded. *)
Definition has_room (c : InMemoryChannel) : bool :=
  (capacity (config c) =? 0) || (Z.of_nat (length (queue c)) <? capacity (config c)).
(** The sender of the queue: [None] waits for room. *)
Definition push (m : Message) (c : InMemoryChannel) : option InMemoryChannel :=
  if has_room c then Some (set_queue c (queue c ++ [m])) else None.
Definition count_sent (c : InMemoryChannel) : InMemoryChannel :=
  let s := stats c in
  set_stats c (mkStats (u64_add (messages_sent s) 1) (messages_received s)
                 (u64_add (messages_pending s) 1) (messages_failed s)).

(** How an attempt to send ends; a blocked one is resumed or, with a configured timeout, expires. *)
Inductive SendOutcome :=
| Sent (c : InMemoryChannel) (msg_id : string)
| SendBlocked
| SendFailed (e : ChannelError).
Definition send (m : Message) (c : InMemoryChannel) : SendOutcome :=
  if closed c then SendFailed (ChannelClosed (name (config c)))
  else match push m c with
       | Some c => Sent (count_sent c) (id m)
       | None => SendBlocked
       end.
Definition send_expired (c : InMemoryChannel) : option ChannelError :=
  match send_timeout (config c) with Some _ => Some (Timeout "Send timeout") | None => None end.

(** *** Receiving *)

Definition count_received (n : nat) (c : InMemoryChannel) : InMemoryChannel :=
  let s := stats c in
  set_stats c (mkStats (messages_sent s) (u64_add (messages_received s) (Z.of_nat n))
                 (sat_sub (messages_pending s) (Z.of_nat n)) (messages_failed s)).

(** The loop of [receive] with [n] rounds left and the messages [acc] received so far: it stops when
    its rounds are used up, and waits when the queue is empty. *)
Fixpoint receive_loop (n : nat) (acc : list Message) (c : InMemoryChannel)
    : InMemoryChannel * nat * list Message :=
  match n with
  | O => (c, O, acc)
  | S n' =>
      match queue c with
      | [] => (c, n, acc)
      | m :: q => receive_loop n' (acc ++ [m]) (set_queue c q)
      end
  end.
Inductive ReceiveOutcome :=
| Received (c : InMemoryChannel) (ms : list Message)
| ReceiveBlocked (c : InMemoryChannel) (remaining : nat) (acc : list Message)
| ReceiveFailed (c : InMemoryChannel) (e : ChannelError).
(** [receive], or its continuation after it was blocked. *)
Definition receive_from (n : nat) (acc : list Message) (c : InMemoryChannel) : ReceiveOutcome :=
  match receive_loop n acc c with
  | (c, O, acc) => Received (count_received (length acc) c) acc
  | (c, S n', acc) => ReceiveBlocked c (S n') acc
  end.
Definition receive (max_messages : nat) (c : InMemoryChannel) : ReceiveOutcome :=
  receive_from max_messages [] c.
(** The timeout of a blocked [receive]. *)
Definition receive_expired (acc : list Message) (c : InMemoryChannel) : option ReceiveOutcome :=
  match receive_timeout (config c) with
  | Some _ =>
      Some (match acc with
            | [] => ReceiveFailed c (Timeout "Receive timeout")
            | _ => Received (count_received (length acc) c) acc
            end)
  | None => None
  end.

Definition try_receive (max_messages : nat) (c : InMemoryChannel)
    : InMemoryChannel * res (list Message) :=
  let ms := take max_messages (queue c) in
  let c := set_queue c (drop max_messages (queue c)) in
  (match ms with [] => c | _ => count_received (length ms) c end, Ok ms).

(** *** Publishing *)

(** The capacity of the broadcast channel. *)
Definition BROADCAST_CAPACITY : nat := 1024.
Definition sub_push (m : Message) (s : Subscriber) : Subscriber :=
  let b := sub_buffer s ++ [m] in
  if (BROADCAST_CAPACITY <? length b)%nat then mkSubscriber (drop 1 b) true
  else mkSubscriber b (sub_lagged s).

Definition subscribe (c : InMemoryChannel) : InMemoryChannel :=
  set_subscribers c (Some (default [] (broadcast_tx c) ++ [mkSubscriber [] false])).
(** The stream of a subscription ends at the first error of its receiver. *)
Inductive Next := Item (m : Message) (s : Subscriber) | Waiting | Ended.
Definition next (s : Subscriber) : Next :=
  if sub_lagged s then Ended
  else match sub_buffer s with
       | m :: b => Item m (mkSubscriber b false)
       | [] => Waiting
       end.

Definition publish (m : Message) (c : InMemoryChannel) : InMemoryChannel * res Z :=
  if closed c then (c, Err (ChannelClosed (name (config c))))
  else
    let count := match broadcast_tx c with
                 | None => 0 | Some l => as_u32 (Z.of_nat (length l)) end in
    let c := set_subscribers c ((λ l : list Subscriber, sub_push m <$> l) <$> broadcast_tx c) in
    let s := stats c in
    (set_stats c (mkStats (u64_add (messages_sent s) 1) (messages_received s) (messages_pending s)
                    (messages_failed s)), Ok count).

(** *** Acknowledgements and closing *)

Definition ack (message_id : string) (c : InMemoryChannel) : InMemoryChannel * res () := (c, Ok tt).
Definition nack (message_id : string) (requeue : bool) (delay : option Z) (c : InMemoryChannel)
    : InMemoryChannel * res () := (c, Ok tt).
Definition get_stats (c : InMemoryChannel) : ChannelStatsData := stats c.
Definition close (c : InMemoryChannel) : InMemoryChannel :=
  mkChannel (config c) (queue c) (broadcast_tx c) (stats c) true.
Definition is_closed (c : InMemoryChannel) : bool := closed c.

End Imc.

#[export] Instance in_memory_channel : Channel InMemoryChannel := {|
  ch_try_receive := Imc.try_receive;
  ch_ack := Imc.ack;
  ch_nack := Imc.nack
|}.

(** ** Runs *)

(** What a client of the channel does, and the messages that it received. *)
Inductive Op :=
| OpSend (m : Message)
| OpReceive (max_messages : nat)
| OpTryReceive (max_messages : nat)
| OpPublish (m : Message)
| OpAck (i : string)
| OpNack (i : string) (requeue : bool)
| OpClose.

(** One operation: the channel, the messages accepted and the messages handed out; [None] when the
    operation has to wait. *)
Definition apply (o : Op) (c : InMemoryChannel)
    : option (InMemoryChannel * list Message * list Message) :=
  match o with
  | OpSend m =>
      match Imc.send m c with
      | Imc.Sent c _ => Some (c, [m], []) | Imc.SendBlocked => None
      | Imc.SendFailed _ => Some (c, [], []) end
  | OpReceive n =>
      match Imc.receive n c with
      | Imc.Received c ms => Some (c, [], ms) | _ => None end
  | OpTryReceive n =>
      match Imc.try_receive n c with
      | (c, Ok ms) => Some (c, [], ms) | (c, Err _) => Some (c, [], []) end
  | OpPublish m => Some ((Imc.publish m c).1, [], [])
  | OpAck i => Some ((Imc.ack i c).1, [], [])
  | OpNack i b => Some ((Imc.nack i b None c).1, [], [])
  | OpClose => Some (Imc.close c, [], [])
  end.
Fixpoint run (ops : list Op) (c : InMemoryChannel)
    : option (InMemoryChannel * list Message * list Message) :=
  match ops with
  | [] => Some (c, [], [])
  | o :: ops =>
      '(c, sent, got) ← apply o c;
      '(c, sent', got') ← run ops c;
      Some (c, sent ++ sent', got ++ got')
  end.

(** ** Lemmas *)

Lemma receive_loop_shape n acc c c' n' acc' : Imc.receive_loop n acc c = (c', n', acc') →
  ∃ ms, acc' = acc ++ ms ∧ queue c = ms ++ queue c' ∧ config c' = config c ∧ closed c' = closed c ∧
    stats c' = stats c ∧ broadcast_tx c' = broadcast_tx c ∧ (n = length ms + n')%nat ∧
    (n' = 0%nat ∨ queue c' = []).
Proof.
  revert acc c. induction n as [|n IH]; intros acc c; cbn [Imc.receive_loop].
  - intros [= <- <- <-]. exists []. rewrite app_nil_r. split_and!; auto.
  - destruct (queue c) as [|m q] eqn:Hq.
    + intros [= <- <- <-]. exists []. rewrite app_nil_r, Hq. split_and!; auto.
    + intros (ms & -> & Hms & Hc & Hcl & Hs & Hb & Hn & Hend)%IH. exists (m :: ms). cbn in *.
      rewrite <-(assoc_L (++)). split_and!; first [done | lia | by rewrite Hms].
Qed.

(** The queue after an operation: what was handed out is its front, what was accepted its back. *)
Lemma apply_queue o c c' sent got : apply o c = Some (c', sent, got) →
  queue c ++ sent = got ++ queue c' ∧ config c' = config c.
Proof.
  destruct o; cbn.
  - unfold Imc.send. destruct (closed c); [intros [= <- <- <-]; by rewrite app_nil_r|].
    unfold Imc.push. destruct (Imc.has_room c); [|done]. by intros [= <- <- <-].
  - unfold Imc.receive, Imc.receive_from.
    destruct (Imc.receive_loop max_messages [] c) as [[c1 n1] acc1] eqn:Hl.
    apply receive_loop_shape in Hl as (ms & -> & Hq & Hc & _). destruct n1; [|done].
    intros [= <- <- <-]. cbn. by rewrite app_nil_r, Hc.
  - intros [= <- <- <-]. rewrite app_nil_r.
    destruct (take max_messages (queue c)) eqn:Ht; cbn; (split; [|done]);
      rewrite <-(take_drop max_messages (queue c)) at 1; by rewrite Ht.
  - intros [= <- <- <-]. rewrite app_nil_r. unfold Imc.publish. by destruct (closed c).
  - intros [= <- <- <-]. by rewrite app_nil_r.
  - intros [= <- <- <-]. by rewrite app_nil_r.
  - intros [= <- <- <-]. by rewrite app_nil_r.
Qed.

Lemma apply_bounded o c c' sent got : apply o c = Some (c', sent, got) →
  capacity (config c) ≠ 0 → Z.of_nat (length (queue c)) <= capacity (config c) →
  Z.of_nat (length (queue c')) <= capacity (config c).
Proof.
  intros Ha Hcap Hlen. destruct (apply_queue o c c' sent got Ha) as [Hq _].
  apply (f_equal length) in Hq. rewrite !length_app in Hq.
  destruct o; cbn in Ha; try (injection Ha as <- <- <-; cbn in *; lia).
  - unfold Imc.send, Imc.push, Imc.has_room in Ha. destruct (closed c); [by injection Ha as <- <- <-|].
    destruct (_ || _) eqn:E; [|done]. injection Ha as <- <- <-. cbn. rewrite length_app. cbn.
    apply orb_prop in E as [E|E]; bool_to_Prop; lia.
  - destruct (Imc.receive max_messages c); [|done|done]. injection Ha as <- <- <-. cbn in *. lia.
Qed.

Lemma run_queue ops c c' sent got : run ops c = Some (c', sent, got) →
  queue c ++ sent = got ++ queue c' ∧ config c' = config c.
Proof.
  revert c sent got. induction ops as [|o ops IH]; intros c sent got; cbn [run].
  - intros [= <- <- <-]. by rewrite app_nil_r.
  - intros ([[c1 s1] g1] & Ha & ([[c2 s2] g2] & Hr & [= <- <- <-])%bind_Some)%bind_Some.
    apply apply_queue in Ha as [Hq1 Hc1]. apply IH in Hr as [Hq2 Hc2]. split; [|congruence].
    by rewrite (assoc_L (++)), Hq1, <-!(assoc_L (++)), Hq2.
Qed.

(** The in-memory channel is a bounded first-in first-out queue: over any run of its operations, the
    messages handed out are those accepted, in their order, each of them once, and the rest is what the
    queue holds; a bounded queue never holds more than its capacity. *)
Theorem in_memory_channel_is_fifo cfg c ops c' sent got :
  Imc.new cfg = Ok c → run ops c = Some (c', sent, got) →
  sent = got ++ queue c' ∧
  (0 < capacity cfg → Z.of_nat (length (queue c')) <= capacity cfg).
Proof.
  unfold Imc.new. destruct (negb _); [done|]. intros [= <-] Hr. split.
  - by apply run_queue in Hr as [? _].
  - intros Hcap. remember (mkChannel cfg [] None (mkStats 0 0 0 0) false) as c eqn:Hc.
    assert (Hlen : Z.of_nat (length (queue c)) <= capacity (config c)) by (subst; cbn; lia).
    assert (Hcfg : config c = cfg) by (by subst). clear Hc.
    revert c sent got Hr Hlen Hcfg. induction ops as [|o ops IH]; intros c sent got; cbn [run].
    + intros [= <- <- <-] ? <-. done.
    + intros ([[c1 s1] g1] & Ha & ([[c2 s2] g2] & Hr & [= <- <- <-])%bind_Some)%bind_Some Hlen Hcfg.
      destruct (apply_queue _ _ _ _ _ Ha) as [_ Hc1].
      apply (IH c1 s2 g2 Hr); [|congruence]. rewrite Hc1.
      eapply apply_bounded; [done | rewrite Hcfg; lia | done].
Qed.

Definition test_config : ChannelConfig := mkConfig "work-queue" 1 2 None None.
Definition test_message (i : string) : Message := mkMessage i "a" [] 0.
Definition test_channel : InMemoryChannel := mkChannel test_config [] None (mkStats 0 0 0 0) false.
Definition test_ops : list Op :=
  [OpSend (test_message "m1"); OpSend (test_message "m2"); OpTryReceive 1; OpNack "m1" true;
   OpSend (test_message "m3")].
Definition test_after : InMemoryChannel :=
  match run test_ops test_channel with Some (c, _, _) => c | None => test_channel end.

Lemma in_memory_channel_is_fifo_witness :
  Imc.new test_config = Ok test_channel ∧
  [test_message "m1"; test_message "m2"; test_message "m3"] =
  [test_message "m1"] ++ queue test_after ∧
  (0 < 2 → Z.of_nat (length (queue test_after)) <= 2).
Proof.
  split; [reflexivity|].
  apply (in_memory_channel_is_fifo test_config test_channel test_ops test_after); reflexivity.
Defined.

(** [receive] of at most [max] messages waits until it has [max] of them: it answers at once exactly
    when so many are queued, and otherwise blocks with the messages that it has already taken from the
    queue, which its timeout hands out. *)
Theorem receive_waits_for_full_batch n c :
  match Imc.receive n c with
  | Imc.Received c' ms =>
      ms = take n (queue c) ∧ length ms = n ∧ queue c' = drop n (queue c)
  | Imc.ReceiveBlocked c' k acc =>
      acc = queue c ∧ queue c' = [] ∧ (k + length (queue c) = n)%nat ∧ (0 < k)%nat ∧
      Imc.receive_expired acc c' =
        (match receive_timeout (config c) with
         | Some _ => Some (match queue c with
                           | [] => Imc.ReceiveFailed c' (Timeout "Receive timeout")
                           | q => Imc.Received (Imc.count_received (length q) c') q end)
         | None => None end)
  | Imc.ReceiveFailed _ _ => False
  end.
Proof.
  unfold Imc.receive, Imc.receive_from.
  destruct (Imc.receive_loop n [] c) as [[c1 k] acc] eqn:Hl.
  apply receive_loop_shape in Hl as (ms & -> & Hq & Hc & _ & _ & _ & Hn & Hend). cbn [app] in *.
  destruct k as [|k].
  - rewrite Hq. cbn. rewrite take_app_length', drop_app_length' by lia.
    split_and!; [done|lia|done].
  - destruct Hend as [|Hend]; [done|]. rewrite Hend, app_nil_r in Hq. rewrite Hq.
    unfold Imc.receive_expired. rewrite Hc.
    split_and!; [done|done|lia|lia|]. destruct (receive_timeout (config c)); [|done]. by destruct ms.
Qed.

(** A receive between the two critical sections of a send leaves the counter of pending messages at
    one with an empty queue. *)
Lemma pending_counter_drifts :
  let m := test_message "m1" in
  ∃ c1, Imc.push m test_channel = Some c1 ∧
    let c2 := Imc.count_sent (Imc.try_receive 1 c1).1 in
    queue c2 = [] ∧ messages_pending (stats c2) = 1.
Proof. eexists. split; [reflexivity|]. split; reflexivity. Qed.

(** A subscriber that falls behind by more than the capacity of the broadcast channel loses its
    subscription, and the messages that are still buffered for it. *)
Lemma lagging_subscription_ends s m : length (sub_buffer s) = Imc.BROADCAST_CAPACITY →
  Imc.next (Imc.sub_push m s) = Imc.Ended.
Proof.
  intros Hl. unfold Imc.sub_push. rewrite length_app, Hl.
  replace (Imc.BROADCAST_CAPACITY <? Imc.BROADCAST_CAPACITY + length [m])%nat with true; [done|].
  symmetry. apply Nat.ltb_lt. cbn [length]. lia.
Qed.
