(* ===== verification/Outbox.v ===== *)
(** Outbox: the flow-controlled dispatch of crates/outbox/src: the concurrency limiter
    (concurrency_limiter.rs), the router (hash_router.rs), the relay (outbox_relay.rs), its partitioned
    form (partitioned_relay.rs) and the status helpers (dispatch_helpers.rs).

    The relay is written against the interface [Channel] of [Channels] and proved to keep the promise of
    delivery at least once for every channel with the contract [AtLeastOnce]; the partitioned relay
    runs on the in-memory channel.  The delivery of a message ([MessageDelivery]) is a function on a
    state of its own; [log] lists the deliveries that were attempted, with their results. *)
From Stdlib Require Import Ascii.
From stdpp Require Import pretty.
From S2P Require Import Prelude Retry Channels.

#[local] Arguments String.append : simpl nomatch.

(** ** The concurrency limiter *)

Definition DEFAULT_INITIAL_LIMIT : Z := 100.
Definition DEFAULT_MIN_LIMIT : Z := 1.
Definition DEFAULT_MAX_LIMIT : Z := 10000.

Inductive ConcurrencyStrategy := Aimd | Fixed.
(** [ConcurrencyStrategy::try_from(x).unwrap_or(ConcurrencyStrategyAimd)] *)
Definition strategy_of_i32 (x : Z) : ConcurrencyStrategy := if x =? 1 then Fixed else Aimd.

Record ConcurrencyConfig := mkConcurrency {
  initial_limit : Z;
  min_limit : Z;
  max_limit : Z;
  cc_strategy : Z
}.

Record ConcurrencyLimiter := mkLimiter {
  current_limit : Z;
  in_flight : Z;
  lim_min : Z;
  lim_max : Z;
  lim_strategy : ConcurrencyStrategy
}.

Module Lim.

Definition or_default (x d : Z) : Z := if x =? 0 then d else x.

(** [None]: [clamp] panics when its minimum exceeds its maximum. *)
Definition new_limiter (c : ConcurrencyConfig) : option ConcurrencyLimiter :=
  let initial := or_default (initial_limit c) DEFAULT_INITIAL_LIMIT in
  let min := or_default (min_limit c) DEFAULT_MIN_LIMIT in
  let max := or_default (max_limit c) DEFAULT_MAX_LIMIT in
  if max <? min then None
  else Some (mkLimiter (Z.min (Z.max initial min) max) 0 min max (strategy_of_i32 (cc_strategy c))).
Definition with_defaults : ConcurrencyLimiter :=
  mkLimiter DEFAULT_INITIAL_LIMIT 0 DEFAULT_MIN_LIMIT DEFAULT_MAX_LIMIT Aimd.

Definition set_limit (l : ConcurrencyLimiter) (n : Z) : ConcurrencyLimiter :=
  mkLimiter n (in_flight l) (lim_min l) (lim_max l) (lim_strategy l).
Definition set_in_flight (l : ConcurrencyLimiter) (n : Z) : ConcurrencyLimiter :=
  mkLimiter (current_limit l) n (lim_min l) (lim_max l) (lim_strategy l).

(** The new limits that the two loops compute from the current one. *)
Definition increased (l : ConcurrencyLimiter) (current : Z) : Z :=
  Z.min (u32_add current 1) (lim_max l).
Definition decreased (l : ConcurrencyLimiter) (current : Z) : Z := Z.max (current / 2) (lim_min l).

(** The operations when nobody interferes; the drop of a permit gives its slot back. *)
Definition try_acquire (l : ConcurrencyLimiter) : option ConcurrencyLimiter :=
  if current_limit l <=? in_flight l then None
  else Some (set_in_flight l (u32_add (in_flight l) 1)).
Definition drop_permit (l : ConcurrencyLimiter) : ConcurrencyLimiter :=
  set_in_flight l (wrap 32 (in_flight l - 1)).
Definition on_success (l : ConcurrencyLimiter) : ConcurrencyLimiter :=
  drop_permit (match lim_strategy l with
               | Aimd => set_limit l (increased l (current_limit l)) | Fixed => l end).
Definition on_rejection (l : ConcurrencyLimiter) : ConcurrencyLimiter :=
  drop_permit (match lim_strategy l with
               | Aimd => set_limit l (decreased l (current_limit l)) | Fixed => l end).
Definition available (l : ConcurrencyLimiter) : Z := sat_sub (current_limit l) (in_flight l).

(** *** Interleaved operations

    A user of the limiter, between two accesses to its atomic variables. *)
Inductive Task :=
| AcqStart
| AcqLoaded (current : Z)
| AcqChecked (current : Z)
| Holding
| SuccStart
| SuccLoaded (current : Z)
| RejStart
| RejLoaded (current : Z)
| Dropping
| Done.

(** One access of a task; [ok] is false when the weak compare-and-exchange fails spuriously. *)
Definition access (ok : bool) (t : Task) (l : ConcurrencyLimiter)
    : option (Task * ConcurrencyLimiter) :=
  match t with
  | AcqStart => Some (AcqLoaded (in_flight l), l)
  | AcqLoaded current => Some (if current_limit l <=? current then Done else AcqChecked current, l)
  | AcqChecked current =>
      Some (if ok && (in_flight l =? current)
            then (Holding, set_in_flight l (u32_add current 1)) else (AcqStart, l))
  | SuccStart =>
      Some (match lim_strategy l with
            | Aimd => SuccLoaded (current_limit l) | Fixed => Dropping end, l)
  | SuccLoaded current =>
      Some (if ok && (current_limit l =? current)
            then (Dropping, set_limit l (increased l current)) else (SuccStart, l))
  | RejStart =>
      Some (match lim_strategy l with
            | Aimd => RejLoaded (current_limit l) | Fixed => Dropping end, l)
  | RejLoaded current =>
      Some (if ok && (current_limit l =? current)
            then (Dropping, set_limit l (decreased l current)) else (RejStart, l))
  | Dropping => Some (Done, drop_permit l)
  | Holding | Done => None
  end.

(** The limiter and its users. *)
Inductive step : ConcurrencyLimiter * list Task → ConcurrencyLimiter * list Task → Prop :=
| step_access l ts i t ok t' l' : ts !! i = Some t → access ok t l = Some (t', l') →
    step (l, ts) (l', <[i := t']> ts)
| step_start l ts : step (l, ts) (l, ts ++ [AcqStart])
| step_finish l ts i t : ts !! i = Some Holding → t = SuccStart ∨ t = RejStart ∨ t = Dropping →
    step (l, ts) (l, <[i := t]> ts).

Definition holds_permit (t : Task) : bool :=
  match t with
  | Holding | SuccStart | SuccLoaded _ | RejStart | RejLoaded _ | Dropping => true
  | _ => false
  end.
Definition permits (ts : list Task) : Z :=
  Z.of_nat (length (List.filter holds_permit ts)).

End Lim.

(** ** The router *)

Record HashRouter := mkRouter { num_partitions : Z }.

Module Router.
(** [None]: the assertion fails. *)
Definition new_router (n : Z) : option HashRouter := if 0 <? n then Some (mkRouter n) else None.
Definition fnv1a_byte (hash : Z) (b : Z) : Z := wrap 32 (Z.lxor hash b * 16777619).
Definition fnv1a (data : list Z) : Z := foldl fnv1a_byte 2166136261 data.
Definition bytes (s : string) : list Z := (λ c, Z.of_nat (nat_of_ascii c)) <$> String.list_ascii_of_string s.
Definition route (r : HashRouter) (target_actor_id : string) : Z :=
  fnv1a (bytes target_actor_id) mod num_partitions r.
End Router.

(** ** The relay *)

Inductive DeliveryError :=
| Capacity (message : string) (retry_after_ms : Z)
| Transient (message : string).
Definition DeliveryError_to_string (e : DeliveryError) : string :=
  match e with
  | Capacity message ms =>
      "RESOURCE_EXHAUSTED: " ++ message ++ " (retry_after_ms=" ++ pretty ms ++ ")"
  | Transient message => message
  end.

Record RelayStats := mkRelayStats {
  delivered : Z;
  failed : Z;
  dead_lettered : Z;
  pending : Z
}.

Record OutboxConfig := mkOutboxConfig {
  concurrency : option ConcurrencyConfig;
  retry_policy : option RetryPolicy;
  relay_interval_ms : Z;
  relay_batch_size : Z
}.

Definition DEFAULT_RELAY_INTERVAL_MS : Z := 50.
Definition DEFAULT_RELAY_BATCH_SIZE : Z := 100.
(** [RetryPolicy::default()] of the protobuf library: every field is zero. *)
Definition zero_policy : RetryPolicy := mkRetryPolicy 0 (f64_of_Z 0) None None (f64_of_Z 0) [] false.

(** A delivery that was attempted. *)
Definition Attempt : Type := Message * result DeliveryError ().

Record OutboxRelay {C D : Type} := mkRelay {
  channel : C;
  limiter : ConcurrencyLimiter;
  world : D;
  policy : RetryPolicy;
  relay_interval : Z;
  batch_size : Z;
  running : bool;
  stats : RelayStats
}.
Arguments OutboxRelay : clear implicits.
Arguments mkRelay {C D} channel limiter world policy relay_interval batch_size running stats.

Module Relay.
Section relay.
Context {C D : Type} `{!Channel C}.
(** The receiver of the messages, the power function and the random draws of the back-off. *)
Context (deliver : Message → D → D * result DeliveryError ()) (powf : f64 → f64 → f64).
Context (draw : Message → Z).
Implicit Types (r : OutboxRelay C D).

Definition new_relay (c : OutboxConfig) (ch : C) (l : ConcurrencyLimiter) (w : D) : OutboxRelay C D :=
  mkRelay ch l w (default zero_policy (retry_policy c))
    (if relay_interval_ms c =? 0 then DEFAULT_RELAY_INTERVAL_MS else relay_interval_ms c)
    (if relay_batch_size c =? 0 then DEFAULT_RELAY_BATCH_SIZE else relay_batch_size c)
    false (mkRelayStats 0 0 0 0).

Definition set_running r (b : bool) : OutboxRelay C D :=
  mkRelay (channel r) (limiter r) (world r) (policy r) (relay_interval r) (batch_size r) b (stats r).
Definition set_channel r (c : C) : OutboxRelay C D :=
  mkRelay c (limiter r) (world r) (policy r) (relay_interval r) (batch_size r) (running r) (stats r).
Definition set_stats r (s : RelayStats) : OutboxRelay C D :=
  mkRelay (channel r) (limiter r) (world r) (policy r) (relay_interval r) (batch_size r) (running r)
    s.
Definition set_pending r (n : Z) : OutboxRelay C D :=
  set_stats r (mkRelayStats (delivered (stats r)) (failed (stats r)) (dead_lettered (stats r)) n).

Definition stop r : OutboxRelay C D := set_running r false.

Definition count_delivered (s : RelayStats) : RelayStats :=
  mkRelayStats (u64_add (delivered s) 1) (failed s) (dead_lettered s) (pending s).
Definition count_dead (s : RelayStats) : RelayStats :=
  mkRelayStats (delivered s) (u64_add (failed s) 1) (u64_add (dead_lettered s) 1) (pending s).

(** The outcome of a delivery: the limiter, the statistics and the answer to the channel. *)
Definition finish (m : Message) (res : result DeliveryError ()) (l : ConcurrencyLimiter) (w : D) r
    : OutboxRelay C D :=
  let mk l s c := mkRelay c l w (policy r) (relay_interval r) (batch_size r) (running r) s in
  match res with
  | Ok _ => mk (Lim.on_success l) (count_delivered (stats r)) (ch_ack (id m) (channel r)).1
  | Err err =>
      let l := match err with
               | Capacity _ _ => Lim.on_rejection l | Transient _ => Lim.on_success l end in
      let attempt := u32_add (delivery_count m) 1 in
      if should_retry (policy r) attempt (DeliveryError_to_string err)
      then
        let backoff := compute_backoff powf (policy r) attempt (draw m) * 1000000 in
        mk l (stats r) (ch_nack (id m) true (Some backoff) (channel r)).1
      else mk l (count_dead (stats r)) (ch_nack (id m) false None (channel r)).1
  end.

Definition process_message (m : Message) r : OutboxRelay C D * list Attempt :=
  match Lim.try_acquire (limiter r) with
  | None => (set_channel r (ch_nack (id m) true None (channel r)).1, [])
  | Some l =>
      let '(w, res) := deliver m (world r) in
      (finish m res l w r, [(m, res)])
  end.

Fixpoint process_all (ms : list Message) r : OutboxRelay C D * list Attempt :=
  match ms with
  | [] => (r, [])
  | m :: ms =>
      let '(r, log) := process_message m r in
      let '(r, log') := process_all ms r in (r, log ++ log')
  end.

(** One round of the loop of [run]. *)
Definition round r : OutboxRelay C D * list Attempt :=
  let batch_limit := Z.min (Lim.available (limiter r)) (as_u32 (batch_size r)) in
  if batch_limit =? 0 then (r, [])
  else match ch_try_receive (Z.to_nat batch_limit) (channel r) with
       | (c, Ok []) => (set_pending (set_channel r c) 0, [])
       | (c, Ok ms) => process_all ms (set_pending (set_channel r c) (Z.of_nat (length ms)))
       | (c, Err _) => (set_channel r c, [])
       end.

(** [n] rounds of [run]. *)
Fixpoint rounds (n : nat) r : OutboxRelay C D * list Attempt :=
  match n with
  | O => (r, [])
  | S n => let '(r, log) := round r in let '(r, log') := rounds n r in (r, log ++ log')
  end.

End relay.
End Relay.

(** ** Status *)

Record DispatcherStatus := mkStatus {
  dispatcher_id : string;
  pending_count : Z;
  in_flight_count : Z;
  delivered_count : Z;
  failed_count : Z;
  dead_letter_count : Z;
  current_concurrency_limit : Z;
  success_rate : f64
}.

Definition rate (delivered total : Z) : f64 :=
  if 0 <? total then f64_div (f64_of_Z delivered) (f64_of_Z total) else f64_of_Z 1.
Definition build_dispatcher_status (dispatcher_id : string) (s : RelayStats)
    (l : ConcurrencyLimiter) : DispatcherStatus :=
  mkStatus dispatcher_id (pending s) (in_flight l) (delivered s) (failed s) (dead_lettered s)
    (current_limit l) (rate (delivered s) (u64_add (delivered s) (failed s))).

Definition validate_config (c : OutboxConfig) : result string () :=
  let bad := match concurrency c with
             | Some cc => (max_limit cc <? min_limit cc) && (0 <? max_limit cc) | None => false end in
  if bad then Err "concurrency.min_limit > max_limit"%string
  else if 10000 <? relay_batch_size c then Err "relay_batch_size exceeds 10,000"%string
  else Ok tt.

(** ** The partitioned relay *)

Record PartitionedOutboxConfig := mkPartitionedConfig {
  cfg_num_partitions : Z;
  per_partition : option OutboxConfig
}.

Record PartitionedOutboxRelay {D : Type} := mkPartitioned {
  router : HashRouter;
  partitions : list (OutboxRelay InMemoryChannel D);
  p_dispatcher_id : string
}.
Arguments PartitionedOutboxRelay : clear implicits.
Arguments mkPartitioned {D} router partitions p_dispatcher_id.

Module Part.
Section part.
Context {D : Type}.
Context (deliver : Message → D → D * result DeliveryError ()) (powf : f64 → f64 → f64).
Context (draw : Message → Z).
Implicit Types (p : PartitionedOutboxRelay D).

Definition zero_config : OutboxConfig := mkOutboxConfig None None 0 0.
Definition zero_concurrency : ConcurrencyConfig := mkConcurrency 0 0 0 0.

Definition new_partition (dispatcher_id : string) (c : OutboxConfig) (w : D) (i : nat)
    : option (OutboxRelay InMemoryChannel D) :=
  let cc := Channels.mkConfig (dispatcher_id ++ "-partition-" ++ pretty i)%string
              ChannelProviderInMemory (wrap 64 (Z.max (relay_batch_size c) 100 * 10)) None None in
  match Imc.new cc with
  | Err _ => None
  | Ok ch =>
      l ← Lim.new_limiter (default zero_concurrency (concurrency c));
      Some (Relay.new_relay c ch l w)
  end.
(** [None] when an assertion fails, or the limits of the configuration are inconsistent. *)
Definition new_partitioned (dispatcher_id : string) (c : PartitionedOutboxConfig) (w : D)
    : option (PartitionedOutboxRelay D) :=
  r ← Router.new_router (cfg_num_partitions c);
  ps ← mapM (new_partition dispatcher_id (default zero_config (per_partition c)) w)
         (seq 0 (Z.to_nat (cfg_num_partitions c)));
  Some (mkPartitioned r ps dispatcher_id).

Definition partition_of p (target_actor_id : string) : nat :=
  Z.to_nat (Router.route (router p) target_actor_id).
Definition set_partition p (i : nat) (r : OutboxRelay InMemoryChannel D)
    : PartitionedOutboxRelay D :=
  mkPartitioned (router p) (<[i := r]> (partitions p)) (p_dispatcher_id p).

(** [None] waits for room in the channel of the partition. *)
Definition send_to (target_actor_id : string) (m : Message) p
    : option (PartitionedOutboxRelay D * result ChannelError string) :=
  let i := partition_of p target_actor_id in
  r ← partitions p !! i;
  match Imc.send m (channel r) with
  | Imc.Sent c msg_id => Some (set_partition p i (Relay.set_channel r c), Ok msg_id)
  | Imc.SendBlocked => None
  | Imc.SendFailed e => Some (p, Err e)
  end.

(** A round of the relay of partition [i]. *)
Definition round_partition (i : nat) p : option (PartitionedOutboxRelay D * list Attempt) :=
  r ← partitions p !! i;
  let '(r, log) := Relay.round deliver powf draw r in
  Some (set_partition p i r, log).

Definition stop_all p : PartitionedOutboxRelay D :=
  mkPartitioned (router p) (Relay.stop <$> partitions p) (p_dispatcher_id p).

Record Status := mkPartitionedStatus {
  st_dispatcher_id : string;
  st_num_partitions : Z;
  partition_statuses : list DispatcherStatus;
  total_delivered : Z;
  total_failed : Z;
  total_pending : Z;
  aggregate_success_rate : f64
}.
Definition status p : Status :=
  let sum (f : RelayStats → Z) := foldl (λ a r, u64_add a (f (stats r))) 0 (partitions p) in
  mkPartitionedStatus (p_dispatcher_id p) (as_u32 (Z.of_nat (length (partitions p))))
    (imap (λ i r, build_dispatcher_status (p_dispatcher_id p ++ "-partition-" ++ pretty i)%string
                    (stats r) (limiter r)) (partitions p))
    (sum delivered) (sum failed) (sum pending)
    (rate (sum delivered) (u64_add (sum delivered) (sum failed))).

(** A run: sends to targets, and rounds of the partitions.  The history lists, in order, the messages
    that were accepted with their partition and the attempts with theirs. *)
Inductive Op := Send (target : string) (m : Message) | Round (i : nat).
Fixpoint run (ops : list Op) p
    : option (PartitionedOutboxRelay D * list (nat * Message) * list (nat * Attempt)) :=
  match ops with
  | [] => Some (p, [], [])
  | Send target m :: ops =>
      '(p1, r) ← send_to target m p;
      '(p2, sent, log) ← run ops p1;
      Some (p2, match r with Ok _ => [(partition_of p target, m)] | Err _ => [] end ++ sent, log)
  | Round i :: ops =>
      '(p1, l) ← round_partition i p;
      '(p2, sent, log) ← run ops p1;
      Some (p2, sent, (pair i <$> l) ++ log)
  end.

End part.
End Part.

(** ** Lemmas: the limiter *)

Import Lim (holds_permit, permits, access).

Lemma permits_cons t ts : permits (t :: ts) = Z.b2z (holds_permit t) + permits ts.
Proof. unfold permits. cbn [List.filter]. destruct (holds_permit t); cbn [length Z.b2z]; lia. Qed.

Lemma permits_insert ts i t t' : ts !! i = Some t →
  permits (<[i := t']> ts) = permits ts + Z.b2z (holds_permit t') - Z.b2z (holds_permit t).
Proof.
  revert i. induction ts as [|u ts IH]; intros [|i] Hi; simplify_eq/=; rewrite !permits_cons.
  - lia.
  - rewrite (IH i Hi). lia.
Qed.

Lemma permits_snoc ts t : permits (ts ++ [t]) = permits ts + Z.b2z (holds_permit t).
Proof.
  unfold permits. rewrite List.filter_app, length_app. cbn [List.filter].
  destruct (holds_permit t); cbn [length Z.b2z]; lia.
Qed.

Lemma permits_nonneg ts : 0 <= permits ts.
Proof. unfold permits. lia. Qed.

(** The bounds of a limiter and of the accesses in progress. *)
Record limiter_ok (s : ConcurrencyLimiter * list Lim.Task) : Prop := {
  ok_config : 1 <= lim_min s.1 <= lim_max s.1 ∧ lim_max s.1 < u32_max;
  ok_limit : lim_min s.1 <= current_limit s.1 <= lim_max s.1;
  ok_in_flight : in_flight s.1 = permits s.2 ∧ permits s.2 <= lim_max s.1;
  ok_checked : ∀ i c, s.2 !! i = Some (Lim.AcqChecked c) → 0 <= c < lim_max s.1;
  ok_loaded : ∀ i c, s.2 !! i = Some (Lim.AcqLoaded c) → 0 <= c
}.

Lemma limiter_ok_insert l ts i t t' l' : limiter_ok (l, ts) → ts !! i = Some t →
  lim_min l' = lim_min l → lim_max l' = lim_max l →
  lim_min l <= current_limit l' <= lim_max l →
  in_flight l' = permits (<[i := t']> ts) → permits (<[i := t']> ts) <= lim_max l →
  (∀ c, t' = Lim.AcqChecked c → 0 <= c < lim_max l) → (∀ c, t' = Lim.AcqLoaded c → 0 <= c) →
  limiter_ok (l', <[i := t']> ts).
Proof.
  intros [H1 H2 H3 H4 H5] Hi Hmin Hmax Hl Hf Hp Hc Hld. cbn in *.
  split; cbn; rewrite ?Hmin, ?Hmax; try done.
  - intros j c [(_ & Ht & _)|[_ Hj]]%list_lookup_insert_Some; [by apply Hc | by eapply H4].
  - intros j c [(_ & Ht & _)|[_ Hj]]%list_lookup_insert_Some; [by apply Hld | by eapply H5].
Qed.

Lemma increased_bounds l c : lim_min l <= c <= lim_max l → 0 <= lim_min l → lim_max l < u32_max →
  lim_min l <= Lim.increased l c <= lim_max l ∧ Lim.increased l c = Z.min (c + 1) (lim_max l).
Proof.
  unfold Lim.increased, u32_add, u32_max. intros Hc Hmin Hmax.
  rewrite wrap_small by lia. lia.
Qed.

Lemma decreased_bounds l c : lim_min l <= c <= lim_max l → 0 <= lim_min l →
  lim_min l <= Lim.decreased l c <= lim_max l.
Proof.
  unfold Lim.decreased. intros Hc Hmin. pose proof (Z.div_le_upper_bound c 2 c). lia.
Qed.

(** One access by the task [t] at [i]. *)
Ltac lim_step t :=
  match goal with |- limiter_ok (_, <[?i := _]> ?ts) =>
    eapply (limiter_ok_insert _ ts i t); cbn; try eassumption; try done; try lia;
    try (intros ? [=]; subst; lia)
  end.

Lemma access_ok ok l ts i t t' l' : limiter_ok (l, ts) → ts !! i = Some t →
  access ok t l = Some (t', l') → limiter_ok (l', <[i := t']> ts).
Proof.
  intros Hok Hi Ha. pose proof Hok as [H1 H2 [H3 H3'] H4 H5]. cbn in *.
  pose proof (permits_insert ts i t t' Hi) as Hp. pose proof (permits_nonneg ts) as H0.
  assert (Hu : u32_max < 2 ^ 32) by (unfold u32_max; lia).
  destruct t; cbn in Ha; try done.
  - injection Ha as <- <-. cbn in Hp.
    lim_step Lim.AcqStart.
  - injection Ha as <- <-. specialize (H5 i current Hi).
    destruct (current_limit l <=? current) eqn:E; bool_to_Prop; cbn in Hp;
      lim_step (Lim.AcqLoaded current).
  - specialize (H4 i current Hi). destruct (ok && _) eqn:E; injection Ha as <- <-; cbn in Hp.
    + apply andb_prop in E as [_ E]. bool_to_Prop.
      lim_step (Lim.AcqChecked current).
      unfold u32_add. rewrite wrap_small by lia. lia.
    + lim_step (Lim.AcqChecked current).
  - injection Ha as <- <-. destruct (lim_strategy l); cbn in Hp;
      lim_step Lim.SuccStart.
  - destruct (ok && _) eqn:E; injection Ha as <- <-; cbn in Hp;
      lim_step (Lim.SuccLoaded current).
    apply andb_prop in E as [_ E]. bool_to_Prop. subst.
    apply (increased_bounds l (current_limit l)); lia.
  - injection Ha as <- <-. destruct (lim_strategy l); cbn in Hp;
      lim_step Lim.RejStart.
  - destruct (ok && _) eqn:E; injection Ha as <- <-; cbn in Hp;
      lim_step (Lim.RejLoaded current).
    apply andb_prop in E as [_ E]. bool_to_Prop. subst.
    apply (decreased_bounds l (current_limit l)); lia.
  - injection Ha as <- <-. cbn in Hp. pose proof (permits_nonneg (<[i:=Lim.Done]> ts)).
    lim_step Lim.Dropping.
    rewrite wrap_small; lia.
Qed.

Lemma step_ok s s' : limiter_ok s → Lim.step s s' → limiter_ok s'.
Proof.
  intros Hok Hs. revert Hok. destruct Hs as [l ts i t ok t' l' Hi Ha|l ts|l ts i t Hi Ht]; intros Hok;
    [by eapply access_ok| |].
  - destruct Hok as [H1 H2 H3 H4 H5]. split; cbn in *; try done.
    + rewrite permits_snoc. cbn. by rewrite Z.add_0_r.
    + intros i c [Hi|[_ Hi]]%lookup_app_Some; [by eapply H4|].
      by apply list_lookup_singleton_Some in Hi as [_ [=]].
    + intros i c [Hi|[_ Hi]]%lookup_app_Some; [by eapply H5|].
      by apply list_lookup_singleton_Some in Hi as [_ [=]].
  - pose proof (permits_insert ts i Lim.Holding t Hi) as Hp. destruct Hok as [H1 H2 H3 H4 H5].
    cbn in *. destruct Ht as [->|[->| ->]]; cbn in Hp;
      lim_step Lim.Holding.
Qed.

Lemma new_limiter_ok c l : Lim.new_limiter c = Some l → 0 <= min_limit c → 0 <= max_limit c < u32_max →
  limiter_ok (l, []).
Proof.
  unfold Lim.new_limiter. destruct (_ <? _) eqn:E; [done|]. intros [= <-] Hmin Hmax. bool_to_Prop.
  assert (1 <= Lim.or_default (min_limit c) DEFAULT_MIN_LIMIT).
  { unfold Lim.or_default, DEFAULT_MIN_LIMIT. destruct (min_limit c =? 0) eqn:E'; bool_to_Prop; lia. }
  assert (Lim.or_default (max_limit c) DEFAULT_MAX_LIMIT < u32_max).
  { unfold Lim.or_default, DEFAULT_MAX_LIMIT, u32_max. destruct (max_limit c =? 0); [lia|].
    unfold u32_max in Hmax. lia. }
  split; cbn; [lia|lia|split; [done|]|done|done]. change (permits []) with 0. lia.
Qed.

(** However the users of a limiter interleave, and whichever of their exchanges fail, the limit stays
    between its bounds and the slots in flight are exactly the permits held, never more than the
    maximal limit. *)
Theorem limiter_is_bounded c l l' ts :
  Lim.new_limiter c = Some l → 0 <= min_limit c → 0 <= max_limit c < u32_max →
  steps Lim.step (l, []) (l', ts) →
  lim_min l' <= current_limit l' <= lim_max l' ∧ 1 <= lim_min l' ∧
  in_flight l' = permits ts ∧ permits ts <= lim_max l'.
Proof.
  intros Hn Hmin Hmax Hs.
  assert (Hok : limiter_ok (l', ts)).
  { apply (steps_invariant Lim.step limiter_ok (l, [])); [|by eapply new_limiter_ok|done].
    intros s1 s2. apply step_ok. }
  destruct Hok. cbn in *. lia.
Qed.

(** Two users of a limiter with a single slot: one gets it. *)
Definition one_slot : ConcurrencyLimiter := mkLimiter 1 0 1 1 Aimd.
Lemma limiter_is_bounded_witness :
  Lim.new_limiter (mkConcurrency 1 1 1 0) = Some one_slot ∧
  1 <= 1 <= 1 ∧ 1 <= 1 ∧ 1 = permits [Lim.Holding; Lim.Done] ∧ permits [Lim.Holding; Lim.Done] <= 1.
Proof.
  split; [reflexivity|].
  refine (limiter_is_bounded (mkConcurrency 1 1 1 0) one_slot (Lim.set_in_flight one_slot 1)
    [Lim.Holding; Lim.Done] eq_refl _ _ _); [cbn; lia|unfold u32_max; cbn; lia|].
  eapply steps_step; [|apply (Lim.step_access (Lim.set_in_flight one_slot 1) [Lim.Holding; Lim.AcqLoaded 1] 1
    (Lim.AcqLoaded 1) true); reflexivity].
  eapply steps_step; [|apply (Lim.step_access (Lim.set_in_flight one_slot 1) [Lim.Holding; Lim.AcqStart] 1
    Lim.AcqStart true); reflexivity].
  eapply steps_step; [|apply (Lim.step_access one_slot [Lim.AcqChecked 0; Lim.AcqStart] 0
    (Lim.AcqChecked 0) true); reflexivity].
  eapply steps_step; [|apply (Lim.step_access one_slot [Lim.AcqLoaded 0; Lim.AcqStart] 0
    (Lim.AcqLoaded 0) true); reflexivity].
  eapply steps_step; [|apply (Lim.step_access one_slot [Lim.AcqStart; Lim.AcqStart] 0
    Lim.AcqStart true); reflexivity].
  eapply steps_step; [|apply (Lim.step_start one_slot [Lim.AcqStart])].
  eapply steps_step; [apply steps_refl | apply (Lim.step_start one_slot [])].
Defined.

(** A maximal limit of [u32::MAX] is not safe: a success at the limit wraps it to zero, and nothing is
    admitted any more. *)
Lemma limit_wraps_to_zero :
  let l := mkLimiter u32_max 1 1 u32_max Aimd in
  current_limit (Lim.on_success l) = 0 ∧ Lim.try_acquire (Lim.on_success l) = None.
Proof. split; vm_compute; reflexivity. Qed.

(** ** The relay over a channel that delivers at least once *)

(** A limiter that nobody uses at the moment: the relay finds its limiter so before each message. *)
Definition idle (l : ConcurrencyLimiter) : Prop :=
  in_flight l = 0 ∧ 1 <= lim_min l <= current_limit l ∧ current_limit l <= lim_max l < u32_max.

Lemma idle_acquire l : idle l → Lim.try_acquire l = Some (Lim.set_in_flight l 1).
Proof.
  intros (Hf & Hl & _). unfold Lim.try_acquire. rewrite Hf.
  destruct (current_limit l <=? 0) eqn:E; bool_to_Prop; [lia|done].
Qed.

Lemma idle_success l : idle l → idle (Lim.on_success (Lim.set_in_flight l 1)).
Proof.
  intros (Hf & Hl & Hm). destruct l as [cl fl mn mx st]. cbn in *.
  destruct (increased_bounds (mkLimiter cl 1 mn mx st) cl) as [Hi _]; cbn; [lia..|].
  unfold Lim.on_success, idle. destruct st; cbn -[Lim.increased]; (split; [reflexivity|]); [|lia].
  unfold Lim.increased in *. cbn in *. lia.
Qed.

Lemma idle_rejection l : idle l → idle (Lim.on_rejection (Lim.set_in_flight l 1)).
Proof.
  intros (Hf & Hl & Hm). destruct l as [cl fl mn mx st]. cbn in *.
  pose proof (decreased_bounds (mkLimiter cl 1 mn mx st) cl) as Hi.
  unfold Lim.on_rejection, idle. destruct st; cbn -[Lim.decreased]; (split; [reflexivity|]); [|lia].
  unfold Lim.decreased in *. cbn in *. lia.
Qed.

(** The number of attempts for a message. *)
Definition attempts (i : string) (log : list Attempt) : Z :=
  Z.of_nat (length (List.filter (λ a, bool_decide (id a.1 = i)) log)).

Lemma attempts_app i log log' : attempts i (log ++ log') = attempts i log + attempts i log'.
Proof. unfold attempts. rewrite List.filter_app, length_app. apply Nat2Z.inj_add. Qed.

Lemma attempts_one i m res : attempts i [(m, res)] = if decide (id m = i) then 1 else 0.
Proof.
  unfold attempts. cbn [List.filter fst]. destruct (decide (id m = i)) as [Hd|Hd].
  - by rewrite bool_decide_eq_true_2.
  - by rewrite bool_decide_eq_false_2.
Qed.

Section at_least_once.
Context {C D : Type} `{!Channel C, !AtLeastOnce C}.
Context (deliver : Message → D → D * result DeliveryError ()) (powf : f64 → f64 → f64).
Context (draw : Message → Z).
Implicit Types (r : OutboxRelay C D).

(** What happens to the messages owed by [c] until [c'] owes them no more. *)
Definition accounted (c c' : C) (log : list Attempt) : Prop :=
  dead_letters c ⊆ dead_letters c' ∧
  ∀ i, i ∈ owed c →
    i ∈ owed c' ∨ i ∈ dead_letters c' ∨ ∃ m, (m, Ok tt) ∈ log ∧ id m = i.

Lemma accounted_refl c : accounted c c [].
Proof. split; [done | by left]. Qed.

Lemma accounted_trans c1 c2 c3 log log' : accounted c1 c2 log → accounted c2 c3 log' →
  accounted c1 c3 (log ++ log').
Proof.
  intros [H1 H2] [H3 H4]. split; [set_solver|]. intros i Hi.
  destruct (H2 i Hi) as [Ho|[Hd|(m & Hm & He)]].
  - destruct (H4 i Ho) as [|[|(m & Hm & He)]]; [auto..|]. right; right. exists m. set_solver.
  - right; left. set_solver.
  - right; right. exists m. set_solver.
Qed.

Lemma ack_accounted m c log : id m ∈ owed c → (m, Ok tt) ∈ log → accounted c (ch_ack (id m) c).1 log.
Proof.
  intros Ho Hm. destruct (ch_ack (id m) c) as [c' r] eqn:Ha.
  destruct (ack_spec _ _ _ _ Ho Ha) as (H1 & H2 & _). cbn. split; [by rewrite H1|]. intros i Hi.
  destruct (decide (i = id m)) as [->|Hne]; [right; right; by exists m|]. left. by apply H2.
Qed.

Lemma nack_accounted i requeue delay c log : i ∈ owed c → accounted c (ch_nack i requeue delay c).1 log.
Proof.
  intros Ho. destruct (ch_nack i requeue delay c) as [c' r] eqn:Hn.
  destruct (nack_spec _ _ _ _ _ _ Ho Hn) as (H1 & H2 & H3). cbn. split; [done|]. intros j Hj.
  destruct (decide (j = i)) as [->|Hne]; [|left; by apply H2]. destruct r; [|left; apply H3].
  destruct H3 as [[_ ?]|(_ & ? & _)]; auto.
Qed.

Lemma ack_others i c : i ∈ owed c → others_kept owed retries i c (ch_ack i c).1.
Proof. intros Ho. destruct (ch_ack i c) eqn:Ha. by apply (ack_spec _ _ _ _ Ho Ha). Qed.
Lemma nack_others i b d c : i ∈ owed c → others_kept owed retries i c (ch_nack i b d c).1.
Proof. intros Ho. destruct (ch_nack i b d c) eqn:Hn. by apply (nack_spec _ _ _ _ _ _ Ho Hn). Qed.

(** One message that is owed is accounted for, and the others are left alone. *)
Lemma process_message_accounted m r r' log :
  Relay.process_message deliver powf draw m r = (r', log) → id m ∈ owed (channel r) →
  accounted (channel r) (channel r') log ∧ others_kept owed retries (id m) (channel r) (channel r').
Proof.
  unfold Relay.process_message. destruct (Lim.try_acquire (limiter r)) as [l|].
  - destruct (deliver m (world r)) as [w res]. intros [= <- <-] Ho. unfold Relay.finish.
    destruct res as [[]|err]; [split; [apply ack_accounted; [done|by left]|by apply ack_others]|].
    destruct (should_retry _ _ _); (split; [by apply nack_accounted|by apply nack_others]).
  - intros [= <- <-] Ho. split; [by apply nack_accounted|by apply nack_others].
Qed.
(** The messages that wait for their turn stay owed. *)
Lemma batch_kept (c c' : C) m ms : NoDup (id <$> m :: ms) → others_kept owed retries (id m) c c' →
  ∀ m', m' ∈ ms → (id m' ∈ owed c' ↔ id m' ∈ owed c) ∧ retries c' (id m') = retries c (id m').
Proof.
  intros [Hm _]%NoDup_cons Hoth m' Hm'. apply Hoth. intros He. apply Hm. rewrite <-He. by apply list_elem_of_fmap_2.
Qed.

Lemma process_all_accounted ms r r' log : Relay.process_all deliver powf draw ms r = (r', log) →
  NoDup (id <$> ms) → (∀ m, m ∈ ms → id m ∈ owed (channel r)) → accounted (channel r) (channel r') log.
Proof.
  revert r r' log. induction ms as [|m ms IH]; intros r r' log; cbn [Relay.process_all].
  - intros [= <- <-] _ _. apply accounted_refl.
  - destruct (Relay.process_message _ _ _ _ _) as [r1 l1] eqn:H1.
    destruct (Relay.process_all _ _ _ _ _) as [r2 l2] eqn:H2. intros [= <- <-] Hnd Hms.
    destruct (process_message_accounted _ _ _ _ H1) as [Ha Hoth]; [apply Hms; by left|].
    eapply accounted_trans; [exact Ha|]. eapply IH; [exact H2|by apply NoDup_cons in Hnd as [_ ?]|].
    intros m' Hm'. apply (batch_kept _ _ _ _ Hnd Hoth m' Hm'). apply Hms. by right.
Qed.

Lemma round_accounted r r' log : Relay.round deliver powf draw r = (r', log) →
  accounted (channel r) (channel r') log.
Proof.
  unfold Relay.round. destruct (_ =? 0); [intros [= <- <-]; apply accounted_refl|].
  destruct (ch_try_receive _ _) as [c res] eqn:Ht.
  destruct (try_receive_spec _ _ _ _ Ht) as (Ho & Hd & _ & Hres).
  assert (Ha : accounted (channel r) c []).
  { split; [by rewrite Hd|]. intros i. rewrite Ho. by left. }
  destruct res as [[|m ms]|e]; [by intros [= <- <-]| |by intros [= <- <-]].
  destruct Hres as [Hnd Hms]. intros Hp. eapply (accounted_trans _ c _ []); [done|].
  apply (process_all_accounted _ _ _ _ Hp Hnd). intros m' Hm'. cbn. rewrite Ho. by apply Hms.
Qed.

(** C25. The relay keeps the promise of delivery at least once: whatever the receiver answers and however
    often, a message that the channel owes is still owed after any number of rounds, or was delivered,
    or is in the dead-letter queue. *)
Theorem relay_delivers_at_least_once n r r' log :
  Relay.rounds deliver powf draw n r = (r', log) →
  ∀ i, i ∈ owed (channel r) →
    i ∈ owed (channel r') ∨ i ∈ dead_letters (channel r') ∨ ∃ m, (m, Ok tt) ∈ log ∧ id m = i.
Proof.
  intros Hr. cut (accounted (channel r) (channel r') log); [by intros []|].
  revert r r' log Hr. induction n as [|n IH]; intros r r' log; cbn.
  - intros [= <- <-]. apply accounted_refl.
  - destruct (Relay.round _ _ _ _) as [r1 l1] eqn:H1.
    destruct (Relay.rounds _ _ _ _ _) as [r2 l2] eqn:H2. intros [= <- <-].
    eapply accounted_trans; [by eapply round_accounted | by eapply IH].
Qed.

End at_least_once.

(** *** Failing answers

    A channel under audit: it counts, for each message, the acknowledgements and rejections that failed.  The
    relay only logs them. *)
Record Audited (C : Type) := mkAudited { audited : C; refused : string → Z }.
Arguments mkAudited {C}.
Arguments audited {C}.
Arguments refused {C}.
Definition note {A} (i : string) (r : result ChannelError A) (f : string → Z) : string → Z :=
  if is_ok r then f else λ j, f j + (if decide (j = i) then 1 else 0).

Section audit.
Context {C : Type} `{!Channel C}.
#[export] Instance audited_channel : Channel (Audited C) := {|
  ch_try_receive n c := let '(c', r) := ch_try_receive n (audited c) in (mkAudited c' (refused c), r);
  ch_ack i c := let '(c', r) := ch_ack i (audited c) in (mkAudited c' (note i r (refused c)), r);
  ch_nack i b d c := let '(c', r) := ch_nack i b d (audited c) in (mkAudited c' (note i r (refused c)), r)
|}.
#[export] Instance audited_at_least_once `{!AtLeastOnce C} : AtLeastOnce (Audited C).
Proof.
  refine {| owed c := owed (audited c); retries c := retries (audited c); dead_letters c := dead_letters (audited c) |}.
  - intros n c c' r. cbn. destruct (ch_try_receive n (audited c)) as [c1 r1] eqn:E. intros [= <- <-].
    exact (try_receive_spec _ _ _ _ E).
  - intros i c c' r Hi. cbn. destruct (ch_ack i (audited c)) as [c1 r1] eqn:E. intros [= <- <-].
    exact (ack_spec _ _ _ _ Hi E).
  - intros i b d c c' r Hi. cbn. destruct (ch_nack i b d (audited c)) as [c1 r1] eqn:E. intros [= <- <-].
    exact (nack_spec _ _ _ _ _ _ Hi E).
Defined.
End audit.

Section attempts.
Context {C D : Type} `{!Channel C, !AtLeastOnce C}.
Context (deliver : Message → D → D * result DeliveryError ()) (powf : f64 → f64 → f64).
Context (draw : Message → Z).

(** The audit changes nothing. *)
Definition unaudited (r : OutboxRelay (Audited C) D) : OutboxRelay C D :=
  mkRelay (audited (channel r)) (limiter r) (world r) (policy r) (relay_interval r) (batch_size r) (running r) (stats r).
Lemma unaudited_message m r :
  Relay.process_message deliver powf draw m (unaudited r) =
  (unaudited (Relay.process_message deliver powf draw m r).1, (Relay.process_message deliver powf draw m r).2).
Proof.
  unfold Relay.process_message. cbn [limiter unaudited world]. destruct (Lim.try_acquire _) as [l|].
  - destruct (deliver m (world r)) as [w res]. cbn [fst snd]. unfold Relay.finish, unaudited. destruct res as [u|err].
    + cbn. by destruct (ch_ack _ _).
    + cbn. destruct (should_retry _ _ _); cbn; by destruct (ch_nack _ _ _ _).
  - cbn. unfold Relay.set_channel, unaudited. cbn. by destruct (ch_nack _ _ _ _).
Qed.
Lemma unaudited_rounds n r :
  Relay.rounds deliver powf draw n (unaudited r) =
  (unaudited (Relay.rounds deliver powf draw n r).1, (Relay.rounds deliver powf draw n r).2).
Proof.
  assert (Hall : ∀ ms r, Relay.process_all deliver powf draw ms (unaudited r) =
    (unaudited (Relay.process_all deliver powf draw ms r).1, (Relay.process_all deliver powf draw ms r).2)).
  { clear. induction ms as [|m ms IH]; intros r; [done|]. cbn [Relay.process_all]. rewrite unaudited_message.
    destruct (Relay.process_message _ _ _ m r) as [r1 l1]. cbn [fst snd]. rewrite IH.
    by destruct (Relay.process_all _ _ _ ms r1). }
  revert r. induction n as [|n IH]; intros r; [done|]. cbn [Relay.rounds].
  assert (Hr : Relay.round deliver powf draw (unaudited r) =
    (unaudited (Relay.round deliver powf draw r).1, (Relay.round deliver powf draw r).2)).
  { unfold Relay.round. cbn [limiter unaudited batch_size channel]. destruct (_ =? 0); [done|].
    cbn [ch_try_receive audited_channel]. destruct (ch_try_receive _ (audited (channel r))) as [c [[|m ms]|e]]; [done| |done].
    apply (Hall (m :: ms) (Relay.set_pending (Relay.set_channel r (mkAudited c (refused (channel r)))) _)). }
  rewrite Hr. destruct (Relay.round _ _ _ r) as [r1 l1]. cbn [fst snd]. rewrite IH.
  by destruct (Relay.rounds _ _ _ n r1).
Qed.

(** The attempts [log] of the messages of [c]: each was attempted at most [mx] times, and once more for each failed
    answer; while it is owed, once for each time that it went back and for each failed answer. *)
Definition tried (mx : Z) (c : Audited C) (log : list Attempt) : Prop := ∀ i,
  attempts i log <= mx + refused c i ∧
  (i ∈ owed c → attempts i log = retries c i + refused c i ∧ 0 <= retries c i < mx).

Lemma note_ne {A} i (r : result ChannelError A) f j : j ≠ i → note i r f j = f j.
Proof. intros. unfold note. destruct (is_ok r); [done|]. rewrite decide_False by done. lia. Qed.
Lemma note_eq {A} i (r : result ChannelError A) f : note i r f i = f i + (if is_ok r then 0 else 1).
Proof. unfold note. destruct (is_ok r); [lia|]. by rewrite decide_True. Qed.

Lemma ack_tried mx m c log res : id m ∈ owed c → tried mx c log →
  tried mx (ch_ack (id m) c).1 (log ++ [(m, res)]).
Proof.
  intros Ho Ht. cbn. destruct (ch_ack (id m) (audited c)) as [c' r] eqn:Ha.
  destruct (ack_spec (id m) (audited c) _ _ Ho Ha) as (_ & Hoth & Hr). intros j. cbn. rewrite attempts_app, attempts_one.
  destruct (decide (id m = j)) as [<-|Hne].
  - rewrite note_eq. destruct (Ht (id m)) as [_ H2]. destruct (H2 Ho) as [He Hlt]. cbn in He, Hlt.
    destruct r; cbn; (split; [lia|]); [done|]. intros Hin. rewrite (Hr Hin). lia.
  - rewrite note_ne by done. destruct (Hoth j) as [Ho' Hr']; [done|]. rewrite Ho', Hr', Z.add_0_r. apply Ht.
Qed.
Lemma nack_tried mx m b d c log res : id m ∈ owed c → tried mx c log →
  (b = true → retries c (id m) + 1 < mx) → tried mx (ch_nack (id m) b d c).1 (log ++ [(m, res)]).
Proof.
  intros Ho Ht Hb. cbn. destruct (ch_nack (id m) b d (audited c)) as [c' r] eqn:Ha.
  destruct (nack_spec (id m) b d (audited c) _ _ Ho Ha) as (_ & Hoth & Hr). intros j. cbn. rewrite attempts_app, attempts_one.
  destruct (decide (id m = j)) as [<-|Hne].
  - rewrite note_eq. destruct (Ht (id m)) as [_ H2]. destruct (H2 Ho) as [He Hlt]. cbn in He, Hlt, Hb.
    destruct r; cbn.
    + destruct Hr as [[Hn _]|(-> & _ & Hr)]; (split; [lia|]); [done|]. intros _. specialize (Hb eq_refl). lia.
    + destruct Hr as [_ Hr]. split; [lia|]. intros _. lia.
  - rewrite note_ne by done. destruct (Hoth j) as [Ho' Hr']; [done|]. rewrite Ho', Hr', Z.add_0_r. apply Ht.
Qed.

(** One message: it is attempted once. *)
Lemma process_message_tried m (r r' : OutboxRelay (Audited C) D) log0 log :
  Relay.process_message deliver powf draw m r = (r', log) → idle (limiter r) →
  effective_max_attempts (policy r) <= u32_max →
  id m ∈ owed (channel r) → delivery_count m = retries (channel r) (id m) →
  tried (effective_max_attempts (policy r)) (channel r) log0 →
  idle (limiter r') ∧ policy r' = policy r ∧
  tried (effective_max_attempts (policy r)) (channel r') (log0 ++ log).
Proof.
  intros Hp Hid Hmx Hown Hcnt Ht. unfold Relay.process_message in Hp.
  rewrite (idle_acquire _ Hid) in Hp. destruct (deliver m (world r)) as [w res].
  injection Hp as <- <-. destruct (proj2 (Ht (id m)) Hown) as [_ Hlt].
  unfold Relay.finish. destruct res as [u|err]; cbn [channel limiter policy].
  - split_and!; [by apply idle_success|done|by apply ack_tried].
  - assert (Hl : idle (match err with
      | Capacity _ _ => Lim.on_rejection (Lim.set_in_flight (limiter r) 1)
      | Transient _ => Lim.on_success (Lim.set_in_flight (limiter r) 1) end))
      by (destruct err; [by apply idle_rejection | by apply idle_success]).
    destruct (should_retry (policy r) _ _) eqn:Hs; cbn [channel limiter policy];
      (split_and!; [done|done|apply nack_tried; [done|done|intros Hb; try done]]).
    apply should_retry_bound in Hs. unfold u32_add in Hs. unfold u32_max in Hmx.
    rewrite wrap_small in Hs by lia. lia.
Qed.

Lemma process_all_tried ms (r r' : OutboxRelay (Audited C) D) log0 log :
  Relay.process_all deliver powf draw ms r = (r', log) → idle (limiter r) →
  effective_max_attempts (policy r) <= u32_max → NoDup (id <$> ms) →
  (∀ m, m ∈ ms → id m ∈ owed (channel r) ∧ delivery_count m = retries (channel r) (id m)) →
  tried (effective_max_attempts (policy r)) (channel r) log0 →
  idle (limiter r') ∧ policy r' = policy r ∧
  tried (effective_max_attempts (policy r)) (channel r') (log0 ++ log).
Proof.
  revert r r' log0 log. induction ms as [|m ms IH]; intros r r' log0 log; cbn [Relay.process_all].
  - intros [= <- <-]. by rewrite app_nil_r.
  - destruct (Relay.process_message _ _ _ _ _) as [r1 l1] eqn:H1.
    destruct (Relay.process_all _ _ _ _ _) as [r2 l2] eqn:H2. intros [= <- <-] Hid Hmx Hnd Hms Ht.
    destruct (Hms m) as [Ho Hc]; [by left|].
    destruct (process_message_tried m r r1 log0 l1 H1 Hid Hmx Ho Hc Ht) as (Hid1 & Hp1 & Ht1).
    destruct (process_message_accounted _ _ _ _ _ _ _ H1 Ho) as [_ Hoth].
    rewrite <-Hp1 in Ht1, Hmx |- *. rewrite (assoc_L (++)).
    apply (IH r1 r2 (log0 ++ l1) l2 H2 Hid1 Hmx); [by apply NoDup_cons in Hnd as [_ ?]| |done].
    intros m' Hm'. destruct (batch_kept _ _ _ _ Hnd Hoth m' Hm') as [-> ->]. apply Hms. by right.
Qed.

Lemma round_tried (r r' : OutboxRelay (Audited C) D) log0 log :
  Relay.round deliver powf draw r = (r', log) → idle (limiter r) →
  effective_max_attempts (policy r) <= u32_max →
  tried (effective_max_attempts (policy r)) (channel r) log0 →
  idle (limiter r') ∧ policy r' = policy r ∧
  tried (effective_max_attempts (policy r)) (channel r') (log0 ++ log).
Proof.
  intros Hr Hid Hmx Ht. unfold Relay.round in Hr.
  destruct (_ =? 0); [injection Hr as <- <-; by rewrite app_nil_r|].
  destruct (ch_try_receive _ _) as [c res] eqn:Hc.
  destruct (try_receive_spec _ _ _ _ Hc) as (Ho & _ & Hre & Hres).
  assert (Hf : refused c = refused (channel r)).
  { cbn in Hc. destruct (ch_try_receive _ (audited (channel r))). by injection Hc as <- _. }
  assert (Ht' : tried (effective_max_attempts (policy r)) c log0)
    by (intros i; rewrite Ho, Hre, Hf; apply Ht).
  destruct res as [[|m ms]|e].
  - injection Hr as <- <-. by rewrite app_nil_r.
  - destruct Hres as [Hnd Hms]. destruct (process_all_tried _ _ _ log0 _ Hr) as (? & ? & ?); try done.
    intros m' Hm'. cbn [channel Relay.set_pending Relay.set_channel Relay.set_stats]. rewrite Ho, Hre. by apply Hms.
  - injection Hr as <- <-. by rewrite app_nil_r.
Qed.

(** C27. Retries end.  The relay runs over any channel with the contract of delivery at least once, whose answers
    may fail, and with a limiter that nobody else uses.  A message that had not gone back before is attempted at
    most [max_attempts] times (once when the policy leaves it unset) and once more for each acknowledgement or
    rejection of it that failed; while it is owed, it has been attempted exactly as often as it went back, which
    is less than [max_attempts], and once for each failed answer. *)
Theorem retries_terminate n (r r' : OutboxRelay (Audited C) D) log :
  Relay.rounds deliver powf draw n r = (r', log) → idle (limiter r) →
  0 <= max_attempts (policy r) <= u32_max →
  (∀ i, i ∈ owed (channel r) → retries (channel r) i = 0) → (∀ i, refused (channel r) i = 0) →
  ∀ i, attempts i log <= effective_max_attempts (policy r) + refused (channel r') i ∧
    (i ∈ owed (channel r') → attempts i log = retries (channel r') i + refused (channel r') i ∧
       retries (channel r') i < effective_max_attempts (policy r)).
Proof.
  intros Hr Hid Hmx H0 Hf0.
  assert (Hpos : 1 <= effective_max_attempts (policy r)) by (apply effective_max_attempts_pos; lia).
  assert (Hle : effective_max_attempts (policy r) <= u32_max).
  { unfold effective_max_attempts, u32_max in *. destruct (_ =? 0); lia. }
  assert (Ht : tried (effective_max_attempts (policy r)) (channel r) []).
  { intros i. rewrite Hf0. unfold attempts. cbn [List.filter length Z.of_nat]. split; [lia|]. intros Hi. rewrite (H0 i Hi). lia. }
  assert (Hall : ∀ log0, tried (effective_max_attempts (policy r)) (channel r) log0 →
    tried (effective_max_attempts (policy r)) (channel r') (log0 ++ log)).
  { clear Ht H0 Hpos Hmx Hf0. revert r r' log Hr Hid Hle. induction n as [|n IH]; intros r r' log; cbn.
    - intros [= <- <-] _ _ log0. by rewrite app_nil_r.
    - destruct (Relay.round _ _ _ _) as [r1 l1] eqn:H1.
      destruct (Relay.rounds _ _ _ _ _) as [r2 l2] eqn:H2. intros [= <- <-] Hid Hle log0 Ht.
      destruct (round_tried r r1 log0 l1 H1 Hid Hle Ht) as (Hid1 & Hp1 & Ht1).
      rewrite <-Hp1 in Hle, Ht1 |- *. rewrite (assoc_L (++)). by apply (IH r1 r2 l2 H2 Hid1 Hle). }
  intros i. destruct (Hall [] Ht i) as [H1 H2]. split; [done|]. intros [? ?]%H2. cbn in *. lia.
Qed.
End attempts.

(** ** A channel that redelivers

    A model of the contract: the messages that wait, in a list without duplicates, how often each went
    back, and the dead letters. *)

Record Redelivery := mkRedelivery {
  waiting : list Message;
  counts : gmap string Z;
  dead : gset string
}.

Definition count (c : Redelivery) (i : string) : Z := default 0 (counts c !! i).
Definition with_count (c : Redelivery) (m : Message) : Message :=
  mkMessage (id m) (receiver_id m) (Channels.payload m) (count c (id m)).
Definition without (i : string) (ms : list Message) : list Message :=
  List.filter (λ m, negb (bool_decide (id m = i))) ms.

#[export] Instance redelivery_channel : Channel Redelivery := {|
  ch_try_receive n c :=
    (c, Ok (if decide (NoDup (id <$> waiting c)) then with_count c <$> take n (waiting c) else []));
  ch_ack i c := (mkRedelivery (without i (waiting c)) (counts c) (dead c), Ok tt);
  ch_nack i requeue _ c :=
    (if requeue then mkRedelivery (waiting c) (<[i := count c i + 1]> (counts c)) (dead c)
     else mkRedelivery (without i (waiting c)) (counts c) (dead c ∪ {[i]}), Ok tt)
|}.

Lemma without_ids i ms :
  list_to_set (id <$> without i ms) = (list_to_set (id <$> ms) ∖ {[i]} : gset string).
Proof.
  apply set_eq. intros x. unfold without.
  rewrite elem_of_difference, !elem_of_list_to_set, !list_elem_of_fmap. split.
  - intros (m & -> & Hm%elem_of_filterb). destruct Hm as [Hin Hm]. bool_to_Prop. set_solver.
  - intros [(m & -> & Hm) Hi]. exists m. split; [done|]. apply elem_of_filterb.
    rewrite bool_decide_eq_false_2 by set_solver. done.
Qed.

#[export] Instance redelivery_at_least_once : AtLeastOnce Redelivery.
Proof.
  refine {| owed c := list_to_set (id <$> waiting c); retries := count; dead_letters := dead |}.
  - intros n c c' r [= <- <-]. do 3 (split; [done|]). destruct (decide _) as [Hnd|].
    + assert (He : id <$> (with_count c <$> take n (waiting c)) = id <$> take n (waiting c))
        by (rewrite <-list_fmap_compose; done).
      rewrite He. split.
      * rewrite fmap_take. apply (sublist_NoDup _ (id <$> waiting c)); [done | apply sublist_take].
      * intros m (m' & -> & Hm')%list_elem_of_fmap. split; [|done]. cbn.
        apply elem_of_list_to_set, list_elem_of_fmap. exists m'. split; [done|].
        by apply (subseteq_take n).
    + split; [apply NoDup_nil_2 | by intros m ?%not_elem_of_nil].
  - intros i c c' r _ [= <- <-]. split; [done|]. cbn. unfold others_kept. cbn. rewrite without_ids. set_solver.
  - intros i b d c c' r Hi [= <- <-]. destruct b; cbn.
    + split; [done|]. unfold others_kept, count. cbn. split.
      * intros j Hj. by rewrite lookup_insert_ne.
      * right. by rewrite lookup_insert_eq.
    + unfold others_kept. cbn. rewrite without_ids. set_solver.
Defined.

(** A receiver that fails on its first two messages, and a policy of three attempts. *)
Definition flaky (m : Message) (n : nat) : nat * result DeliveryError () :=
  (S n, if (n <? 2)%nat then Err (Transient "down") else Ok tt).
Definition three_attempts : RetryPolicy := default_retry_policy.
Definition test_relay {C : Type} (c : C) : OutboxRelay C nat :=
  mkRelay c (mkLimiter 100 0 1 10000 Aimd) 0%nat three_attempts 50 100 true (mkRelayStats 0 0 0 0).
Definition one_waiting : Redelivery := mkRedelivery [test_message "m1"] ∅ ∅.
Definition no_powf (x y : f64) : f64 := f64_of_Z 1.
Definition no_draw (m : Message) : Z := 0.
Definition three_rounds : OutboxRelay Redelivery nat * list Attempt :=
  Relay.rounds flaky no_powf no_draw 3 (test_relay one_waiting).

Lemma relay_delivers_at_least_once_witness :
  (∃ r, three_rounds = (r,
    [(test_message "m1", Err (Transient "down"));
     (mkMessage "m1" "a" [] 1, Err (Transient "down")); (mkMessage "m1" "a" [] 2, Ok tt)])) ∧
  ("m1" ∈ owed (channel three_rounds.1) ∨ "m1" ∈ dead_letters (channel three_rounds.1) ∨
   ∃ m, (m, Ok tt) ∈ three_rounds.2 ∧ id m = "m1").
Proof.
  split; [eexists; vm_compute; reflexivity|].
  apply (relay_delivers_at_least_once flaky no_powf no_draw 3 (test_relay one_waiting)
    three_rounds.1 three_rounds.2); [exact (surjective_pairing three_rounds) | cbn; set_solver].
Defined.

Lemma test_relay_idle {C} (c : C) : idle (limiter (test_relay c)).
Proof. unfold idle, u32_max. cbn. lia. Qed.

Definition audited_rounds : OutboxRelay (Audited Redelivery) nat * list Attempt :=
  Relay.rounds flaky no_powf no_draw 3 (test_relay (mkAudited one_waiting (λ _, 0))).
Lemma retries_terminate_witness :
  attempts "m1" audited_rounds.2 = 3 ∧
  attempts "m1" audited_rounds.2 <= effective_max_attempts three_attempts + refused (channel audited_rounds.1) "m1".
Proof.
  split; [vm_compute; reflexivity|].
  refine (proj1 (retries_terminate flaky no_powf no_draw 3 (test_relay (mkAudited one_waiting (λ _, 0)))
    audited_rounds.1 audited_rounds.2 _ (test_relay_idle _) _ _ _ "m1")).
  - exact (surjective_pairing audited_rounds).
  - unfold u32_max. cbn. lia.
  - intros i _. reflexivity.
  - intros i. reflexivity.
Defined.

(** ** The relay over the in-memory channel *)

Section in_memory.
Context {D : Type}.
Context (deliver : Message → D → D * result DeliveryError ()) (powf : f64 → f64 → f64).
Context (draw : Message → Z).
Implicit Types (r : OutboxRelay InMemoryChannel D).

Lemma memory_process_message m r : idle (limiter r) →
  let '(r', log) := Relay.process_message deliver powf draw m r in
  idle (limiter r') ∧ channel r' = channel r ∧ log.*1 = [m].
Proof.
  intros Hid. unfold Relay.process_message. rewrite (idle_acquire _ Hid).
  destruct (deliver m (world r)) as [w [u|err]]; unfold Relay.finish; cbn.
  - split; [by apply idle_success | done].
  - assert (Hl : idle (match err with
      | Capacity _ _ => Lim.on_rejection (Lim.set_in_flight (limiter r) 1)
      | Transient _ => Lim.on_success (Lim.set_in_flight (limiter r) 1) end))
      by (destruct err; [by apply idle_rejection | by apply idle_success]).
    by destruct (should_retry _ _ _).
Qed.

Lemma memory_process_all ms r : idle (limiter r) →
  let '(r', log) := Relay.process_all deliver powf draw ms r in
  idle (limiter r') ∧ channel r' = channel r ∧ log.*1 = ms.
Proof.
  revert r. induction ms as [|m ms IH]; intros r Hid; cbn; [done|].
  pose proof (memory_process_message m r Hid) as H1.
  destruct (Relay.process_message _ _ _ _ _) as [r1 l1]. destruct H1 as (Hid1 & Hc1 & Hl1).
  specialize (IH r1 Hid1). destruct (Relay.process_all _ _ _ _ _) as [r2 l2].
  destruct IH as (Hid2 & Hc2 & Hl2). split_and!; [done|congruence|].
  by rewrite fmap_app, Hl1, Hl2.
Qed.

(** A round attempts the messages that it takes off the queue, once each and in their order. *)
Lemma memory_round r : idle (limiter r) →
  let '(r', log) := Relay.round deliver powf draw r in
  idle (limiter r') ∧ queue (channel r) = log.*1 ++ queue (channel r').
Proof.
  intros Hid. unfold Relay.round. destruct (_ =? 0); [done|]. cbn.
  set (n := Z.to_nat _). pose proof (take_drop n (queue (channel r))) as Htd.
  destruct (take n (queue (channel r))) as [|m ms] eqn:Ht.
  - cbn. split; [done|]. by rewrite <-Htd at 1.
  - match goal with |- context [Relay.process_all _ _ _ ?ms ?r1] =>
      pose proof (memory_process_all ms r1 Hid) as Hp end.
    destruct (Relay.process_all _ _ _ _ _) as [r2 l2]. destruct Hp as (Hid2 & Hc2 & Hl2).
    split; [done|]. rewrite Hl2, Hc2. cbn. by rewrite <-Htd at 1.
Qed.

(** A delivery that fails and is to be retried is lost: the in-memory channel ignores the negative
    acknowledgement, so the message is neither in the queue nor in a dead-letter queue, and neither
    statistic of failures counts it. *)
Theorem memory_relay_loses_retried_message m r w err :
  idle (limiter r) → deliver m (world r) = (w, Err err) →
  should_retry (policy r) (u32_add (delivery_count m) 1) (DeliveryError_to_string err) = true →
  let '(r', log) := Relay.process_message deliver powf draw m r in
  log = [(m, Err err)] ∧ channel r' = channel r ∧ stats r' = stats r.
Proof.
  intros Hid Hd Hs. unfold Relay.process_message. rewrite (idle_acquire _ Hid), Hd.
  unfold Relay.finish. rewrite Hs. done.
Qed.

End in_memory.

Lemma memory_relay_loses_retried_message_witness :
  should_retry three_attempts 1 "down" = true ∧
  [(test_message "m1", Err (Transient "down"))] =
    [(test_message "m1", Err (Transient "down") : result DeliveryError ())] ∧
  channel (Relay.process_message flaky no_powf no_draw (test_message "m1")
             (test_relay test_channel)).1 = test_channel.
Proof.
  split; [reflexivity|].
  destruct (memory_relay_loses_retried_message flaky no_powf no_draw (test_message "m1")
    (test_relay test_channel) 1%nat (Transient "down") (test_relay_idle _) eq_refl eq_refl)
    as (_ & Hc & _).
  split; [reflexivity | exact Hc].
Defined.

(** ** The partitioned relay *)

Lemma fnv1a_vectors : Router.fnv1a (Router.bytes "") = 2166136261 ∧
  Router.fnv1a (Router.bytes "a") = 3826002220 ∧ Router.fnv1a (Router.bytes "foobar") = 3214735720.
Proof. split_and!; vm_compute; reflexivity. Qed.

Lemma route_bounds n r target : Router.new_router n = Some r →
  0 <= Router.route r target < n ∧ num_partitions r = n.
Proof.
  unfold Router.new_router. destruct (0 <? n) eqn:E; [|done]. intros [= <-]. bool_to_Prop.
  split; [|done]. apply Z.mod_pos_bound. cbn. lia.
Qed.

(** The entries of a history that concern partition [i]. *)
Definition of_partition {A} (i : nat) (l : list (nat * A)) : list A :=
  snd <$> List.filter (λ x, bool_decide (x.1 = i)) l.

Lemma of_partition_app {A} i (l l' : list (nat * A)) :
  of_partition i (l ++ l') = of_partition i l ++ of_partition i l'.
Proof. unfold of_partition. by rewrite List.filter_app, fmap_app. Qed.

Lemma of_partition_pair {A} i j (l : list A) :
  of_partition i (pair j <$> l) = if decide (j = i) then l else [].
Proof.
  unfold of_partition. induction l as [|x l IH]; [by case_decide|]. cbn.
  case_decide as Hd; [rewrite bool_decide_eq_true_2 by done | rewrite bool_decide_eq_false_2 by done];
    cbn; by rewrite IH.
Qed.

Section partitioned.
Context {D : Type}.
Context (deliver : Message → D → D * result DeliveryError ()) (powf : f64 → f64 → f64).
Context (draw : Message → Z).
Implicit Types (p : PartitionedOutboxRelay D).

Definition all_idle p : Prop := ∀ i r, partitions p !! i = Some r → idle (limiter r).

(** The messages that partition [i] holds. *)
Definition held p (i : nat) : list Message :=
  match partitions p !! i with Some r => queue (channel r) | None => [] end.

Lemma send_held target m p p' res : all_idle p → Part.send_to target m p = Some (p', res) →
  all_idle p' ∧ router p' = router p ∧
  ∀ i, held p i ++ of_partition i (match res with
                                  | Ok _ => [(Part.partition_of p target, m)] | Err _ => [] end) =
       held p' i.
Proof.
  intros Hid Hs. unfold Part.send_to in Hs. apply bind_Some in Hs as (r & Hr & Hs).
  destruct (Imc.send m (channel r)) as [c x| |e] eqn:Hc; [|done|].
  - injection Hs as <- <-. unfold Imc.send in Hc. destruct (closed (channel r)); [done|].
    unfold Imc.push in Hc. destruct (Imc.has_room (channel r)); [|done]. injection Hc as <- _.
    split_and!; [|done|].
    + intros i r' [(_ & <- & _)|[_ Hi]]%list_lookup_insert_Some; cbn; by eapply Hid.
    + intros i. unfold held, of_partition. cbn. destruct (decide (Part.partition_of p target = i)) as [<-|Hne].
      * rewrite Hr, bool_decide_eq_true_2 by done.
        rewrite list_lookup_insert_eq by (by eapply lookup_lt_Some). done.
      * rewrite bool_decide_eq_false_2 by done. rewrite list_lookup_insert_ne by done.
        apply app_nil_r.
  - injection Hs as <- <-. split_and!; [done|done|]. intros i. apply app_nil_r.
Qed.

Lemma round_held i p p' log : all_idle p → Part.round_partition deliver powf draw i p = Some (p', log) →
  all_idle p' ∧ router p' = router p ∧
  ∀ j, held p j = (of_partition j (pair i <$> log)).*1 ++ held p' j.
Proof.
  intros Hid Hs. unfold Part.round_partition in Hs. apply bind_Some in Hs as (r & Hr & Hs).
  pose proof (memory_round deliver powf draw r (Hid i r Hr)) as Hm.
  destruct (Relay.round _ _ _ _) as [r1 l1]. injection Hs as <- <-. destruct Hm as [Hid1 Hq].
  split_and!; [|done|].
  - intros j r' [(_ & <- & _)|[_ Hi]]%list_lookup_insert_Some; [done | by eapply Hid].
  - intros j. rewrite of_partition_pair. unfold held. cbn.
    destruct (decide (i = j)) as [<-|Hne].
    + rewrite Hr, list_lookup_insert_eq by (by eapply lookup_lt_Some). done.
    + by rewrite list_lookup_insert_ne.
Qed.

Lemma run_held ops p p' sent log : all_idle p → Part.run deliver powf draw ops p = Some (p', sent, log) →
  ∀ i, held p i ++ of_partition i sent = (of_partition i log).*1 ++ held p' i.
Proof.
  revert p sent log. induction ops as [|o ops IH]; intros p sent log Hid; cbn [Part.run].
  - intros [= <- <- <-] i. cbn. apply app_nil_r.
  - destruct o as [target m|j].
    + intros ([p1 res] & Hs & ([[p2 s2] l2] & Hr & [= <- <- <-])%bind_Some)%bind_Some i.
      destruct (send_held target m p p1 res Hid Hs) as (Hid1 & _ & Hh).
      by rewrite of_partition_app, (assoc_L (++)), Hh, (IH p1 s2 l2 Hid1 Hr).
    + intros ([p1 l1] & Hs & ([[p2 s2] l2] & Hr & [= <- <- <-])%bind_Some)%bind_Some i.
      destruct (round_held j p p1 l1 Hid Hs) as (Hid1 & _ & Hh).
      by rewrite of_partition_app, fmap_app, Hh, <-!(assoc_L (++)), (IH p1 s2 l2 Hid1 Hr).
Qed.

Lemma new_idle d c w p : Part.new_partitioned d c w = Some p →
  (let cc := default Part.zero_concurrency (concurrency (default Part.zero_config (per_partition c)))
   in 0 <= min_limit cc ∧ 0 <= max_limit cc < u32_max) →
  all_idle p ∧ (∀ i, held p i = []) ∧ length (partitions p) = Z.to_nat (cfg_num_partitions c).
Proof.
  intros Hn Hlim. unfold Part.new_partitioned in Hn.
  apply bind_Some in Hn as (r & Hr & (ps & Hps & [= <-])%bind_Some).
  apply mapM_Some in Hps. cbn.
  assert (Hall : ∀ i r', ps !! i = Some r' → idle (limiter r') ∧ queue (channel r') = []).
  { intros i r' Hi. destruct (Forall2_lookup_r _ _ _ _ _ Hps Hi) as (k & _ & Hk).
    unfold Part.new_partition in Hk. cbn in Hk. apply bind_Some in Hk as (l & Hl & [= <-]). cbn.
    split; [|done]. destruct (new_limiter_ok _ _ Hl) as [H1 H2 [H3 _] _ _]; [apply Hlim..|].
    cbn in *. unfold idle. rewrite H3. change (permits []) with 0. lia. }
  split_and!.
  - intros i r' Hi. by apply (Hall i).
  - intros i. unfold held. cbn. destruct (ps !! i) eqn:Hi; [by apply (Hall i)|done].
  - apply Forall2_length in Hps. by rewrite <-Hps, length_seq.
Qed.

(** The partitioned relay keeps the order of each recipient and attempts every message at most once:
    over any run of sends and rounds, the messages attempted by a partition are the first of those
    sent to it, in their order, and the others are still queued; a target always goes to the same
    partition.  With a channel that delivers at least once (which the configuration asks for) a failed
    message would come back; here it does not. *)
Theorem partitioned_relay_attempts_once d c w p ops p' sent log :
  Part.new_partitioned d c w = Some p →
  (let cc := default Part.zero_concurrency (concurrency (default Part.zero_config (per_partition c)))
   in 0 <= min_limit cc ∧ 0 <= max_limit cc < u32_max) →
  Part.run deliver powf draw ops p = Some (p', sent, log) →
  (∀ i, of_partition i sent = (of_partition i log).*1 ++ held p' i) ∧
  ∀ target, (Part.partition_of p target < length (partitions p))%nat.
Proof.
  intros Hn Hlim Hr. destruct (new_idle d c w p Hn Hlim) as (Hid & Hh & Hlen). split.
  - intros i. pose proof (run_held ops p p' sent log Hid Hr i) as H. by rewrite Hh in H.
  - intros target. rewrite Hlen. unfold Part.new_partitioned in Hn.
    apply bind_Some in Hn as (r & Hr' & (ps & _ & [= <-])%bind_Some).
    destruct (route_bounds _ r target Hr') as [Hb _]. unfold Part.partition_of. cbn. lia.
Qed.

End partitioned.

(** Four partitions; one message is lost when its first delivery fails, the next is delivered. *)
Definition four_partitions : PartitionedOutboxConfig :=
  mkPartitionedConfig 4 (Some (mkOutboxConfig None (Some three_attempts) 0 0)).
Definition fails_first (m : Message) (n : nat) : nat * result DeliveryError () :=
  (S n, if (n <? 1)%nat then Err (Transient "down") else Ok tt).
Definition test_partitioned : PartitionedOutboxRelay nat :=
  default (mkPartitioned (mkRouter 4) [] "d") (Part.new_partitioned "d" four_partitions 0%nat).
Definition test_sends : list Part.Op :=
  [Part.Send "a" (test_message "m1"); Part.Send "a" (test_message "m2"); Part.Round 0;
   Part.Round 0; Part.Round 0].
Definition test_run := Part.run fails_first no_powf no_draw test_sends test_partitioned.

Definition test_end : PartitionedOutboxRelay nat :=
  match test_run with Some (p, _, _) => p | None => test_partitioned end.
Definition test_sent : list (nat * Message) :=
  match test_run with Some (_, sent, _) => sent | None => [] end.
Definition test_log : list (nat * Attempt) :=
  match test_run with Some (_, _, log) => log | None => [] end.

Lemma test_run_result : Part.run fails_first no_powf no_draw test_sends test_partitioned =
  Some (test_end, test_sent, test_log).
Proof. vm_compute. reflexivity. Qed.
Lemma test_partitioned_new : Part.new_partitioned "d" four_partitions 0%nat = Some test_partitioned.
Proof. vm_compute. reflexivity. Qed.
Lemma test_histories :
  of_partition 0 test_sent = [test_message "m1"; test_message "m2"] ∧
  of_partition 0 test_log = [(test_message "m1", Err (Transient "down")); (test_message "m2", Ok tt)].
Proof. split; vm_compute; reflexivity. Qed.

Lemma partitioned_relay_attempts_once_witness :
  of_partition 0 test_sent = [test_message "m1"; test_message "m2"] ∧
  of_partition 0 test_log =
    [(test_message "m1", Err (Transient "down")); (test_message "m2", Ok tt)] ∧
  of_partition 0 test_sent = (of_partition 0 test_log).*1 ++ held test_end 0.
Proof.
  split; [exact (proj1 test_histories)|]. split; [exact (proj2 test_histories)|].
  refine (proj1 (partitioned_relay_attempts_once fails_first no_powf no_draw "d" four_partitions 0%nat
    test_partitioned test_sends test_end test_sent test_log test_partitioned_new _ test_run_result) 0%nat).
  unfold u32_max. cbn. lia.
Defined.

(** An error that names its code with a message is not found among the codes of a policy. *)
Lemma retryable_codes_never_match :
  let policy := mkRetryPolicy 5 (f64_of_Z 2) None None (f64_of_Z 0) ["RESOURCE_EXHAUSTED"] false in
  should_retry policy 1 (DeliveryError_to_string (Capacity "mailbox full" 100)) = false.
Proof. vm_compute. reflexivity. Qed.

(** A transient error raises the limit of the limiter. *)
Lemma transient_error_raises_limit :
  let r := test_relay test_channel in
  current_limit (limiter (Relay.process_message flaky no_powf no_draw (test_message "m1") r).1) = 101.
Proof. vm_compute. reflexivity. Qed.
