(* ===== verification/SqliteChannel.v ===== *)
(** SqliteChannel: the channel of crates/channel/src/sqlite_backend.rs over its table of messages, with the proof
    that it keeps the contract [AtLeastOnce] of [Channels] while its dead-letter queue is enabled, so that the
    relay of [Outbox] over it delivers at least once.

    The table maps the primary key to the rows, those of other channels and tenants included.  Each statement of
    the database may fail: [faults] says which of the next ones do, and [clock] lists the next readings of the
    time in milliseconds.  Time stamps and headers of messages, which nothing depends on, and the table
    of pending acknowledgements, which is only written, are left out. *)
From stdpp Require Import sorting.
From S2P Require Import Prelude Retry Channels Outbox.

(** ** Data *)

Record SqliteConfig := mkSqliteConfig {
  sq_tenant_id : string;
  sq_namespace : string;
  sq_name : string;
  dlq_enabled : bool;
  dead_letter_queue : string;
  retry_max_attempts : option Z;
  cleanup_acked : bool;
  cleanup_age_seconds : Z
}.
Record Row := mkRow {
  row_tenant_id : string;
  row_namespace : string;
  row_channel : string;
  row_payload : list Z;
  row_idempotency_key : string;
  row_conflict_resolution : Z;
  row_acked : bool;
  row_dead_lettered : bool;
  row_delivery_count : Z;
  send_at : Z;
  created_at : Z
}.
(** A message that is sent, with the fields that only this channel uses. *)
Record Outgoing := mkOutgoing { message : Message; msg_idempotency_key : string; msg_conflict_resolution : Z }.

Record SqliteChannel := mkSqlite {
  sq_config : SqliteConfig;
  table : gmap string Row;
  sq_stats : ChannelStatsData;
  sq_closed : bool;
  clock : list Z;
  faults : list bool
}.

#[local] Abbreviation res := (result ChannelError).

Module Sqc.

Definition set_table (c : SqliteChannel) (t : gmap string Row) : SqliteChannel :=
  mkSqlite (sq_config c) t (sq_stats c) (sq_closed c) (clock c) (faults c).
Definition set_stats (c : SqliteChannel) (s : ChannelStatsData) : SqliteChannel :=
  mkSqlite (sq_config c) (table c) s (sq_closed c) (clock c) (faults c).
(** [SystemTime::now()] *)
Definition now (c : SqliteChannel) : Z * SqliteChannel :=
  match clock c with
  | t :: ts => (t, mkSqlite (sq_config c) (table c) (sq_stats c) (sq_closed c) ts (faults c))
  | [] => (0, c)
  end.
(** Whether the next statement fails. *)
Definition statement (c : SqliteChannel) : bool * SqliteChannel :=
  match faults c with
  | f :: fs => (f, mkSqlite (sq_config c) (table c) (sq_stats c) (sq_closed c) (clock c) fs)
  | [] => (false, c)
  end.

(** [tenant_id = ? AND namespace = ? AND channel_name = ?] *)
Definition own (c : SqliteConfig) (r : Row) : bool :=
  String.eqb (row_tenant_id r) (sq_tenant_id c) && String.eqb (row_namespace r) (sq_namespace c)
  && String.eqb (row_channel r) (sq_name c).
(** The rows of a table with a property. *)
Definition rows (f : Row → bool) (t : gmap string Row) : gmap string Row :=
  filter (λ x, f x.2 = true) t.
Definition find (i : string) (c : SqliteChannel) : option Row :=
  match table c !! i with Some r => if own (sq_config c) r then Some r else None | None => None end.
Definition update (i : string) (f : Row → Row) (c : SqliteChannel) : SqliteChannel :=
  set_table c (alter f i (table c)).

(** A count that is read as [i32]; [None]: it does not fit, which the limit of retries excludes. *)
Definition as_i32 (z : Z) : option Z := if (- 2 ^ 31 <=? z) && (z <? 2 ^ 31) then Some z else None.
Definition max_retries (c : SqliteChannel) : Z := max_retries_from_config (retry_max_attempts (sq_config c)).

(** *** Sending *)

Definition ConflictResolutionPolicyOverwrite : Z := 1.
Definition overwritten (c : SqliteConfig) (key : string) (r : Row) : bool :=
  own c r && String.eqb (row_idempotency_key r) key && negb (row_acked r).
Definition overwrite_row (m : Outgoing) (r : Row) : Row :=
  mkRow (row_tenant_id r) (row_namespace r) (row_channel r) (payload (message m)) (row_idempotency_key r)
    (msg_conflict_resolution m) (row_acked r) (row_dead_lettered r) (row_delivery_count r) (send_at r) (created_at r).
Definition count_sent (pending : Z) (c : SqliteChannel) : SqliteChannel :=
  let s := sq_stats c in
  set_stats c (mkStats (u64_add (messages_sent s) 1) (messages_received s) (u64_add (messages_pending s) pending)
                 (messages_failed s)).
Definition insert_message (created : Z) (m : Outgoing) (c : SqliteChannel) : SqliteChannel * res string :=
  let cfg := sq_config c in
  let '(bad, c) := statement c in
  if bad then (c, Err (BackendError "Failed to send message"))
  else match table c !! id (message m) with
       | Some _ => (c, Err (BackendError "Failed to send message"))
       | None =>
           let row := mkRow (sq_tenant_id cfg) (sq_namespace cfg) (sq_name cfg) (payload (message m))
             (msg_idempotency_key m) (msg_conflict_resolution m) false false 0 0 created in
           (count_sent 1 (set_table c (<[id (message m) := row]> (table c))), Ok (id (message m)))
       end.
Definition send (m : Outgoing) (c : SqliteChannel) : SqliteChannel * res string :=
  if sq_closed c then (c, Err (ChannelClosed (sq_name (sq_config c))))
  else
    let '(created, c) := now c in
    if (msg_conflict_resolution m =? ConflictResolutionPolicyOverwrite)
       && negb (String.eqb (msg_idempotency_key m) "") then
      let '(bad, c) := statement c in
      if bad then (c, Err (BackendError "OVERWRITE update failed"))
      else
        let hit := overwritten (sq_config c) (msg_idempotency_key m) in
        if existsb hit (map_to_list (table c)).*2
        then (count_sent 0 (set_table c ((λ r, if hit r then overwrite_row m r else r) <$> table c)),
              Ok (id (message m)))
        else insert_message created m c
    else insert_message created m c.

(** *** Receiving *)

Definition eligible (c : SqliteConfig) (t : Z) (r : Row) : bool :=
  own c r && negb (row_acked r) && negb (row_dead_lettered r) && ((send_at r =? 0) || (send_at r <=? t)).
(** [ORDER BY send_at ASC, created_at ASC] *)
Definition before (x y : string * Row) : Prop :=
  send_at x.2 < send_at y.2 ∨ send_at x.2 = send_at y.2 ∧ created_at x.2 <= created_at y.2.
#[export] Instance before_dec x y : Decision (before x y).
Proof. unfold before. apply _. Defined.
Definition select (t : Z) (n : nat) (c : SqliteChannel) : list (string * Row) :=
  take n (merge_sort before (List.filter (λ x, eligible (sq_config c) t x.2) (map_to_list (table c)))).
(** The row does not hold the receiver of the message. *)
Definition to_message (x : string * Row) : Message :=
  mkMessage x.1 "" (row_payload x.2) (as_u32 (default 0 (as_i32 (row_delivery_count x.2)))).
Definition try_receive (max_messages : nat) (c : SqliteChannel) : SqliteChannel * res (list Message) :=
  let '(t, c) := now c in
  let '(bad, c) := statement c in
  if bad then (c, Err (BackendError "Failed to receive messages"))
  else
    let ms := to_message <$> select t max_messages c in
    let s := sq_stats c in
    (match ms with
     | [] => c
     | _ => set_stats c (mkStats (messages_sent s) (u64_add (messages_received s) (Z.of_nat (length ms)))
                           (messages_pending s) (messages_failed s))
     end, Ok ms).

(** The database has no subscriptions. *)
Definition subscribe (consumer_group : option string) : res () :=
  Err (BackendError "SQLite backend does not support subscribe (use receive instead)").
Definition publish (m : Outgoing) (c : SqliteChannel) : SqliteChannel * res Z :=
  match send m c with (c, Ok _) => (c, Ok 0) | (c, Err e) => (c, Err e) end.

(** *** Creation *)

Definition recover_unacked_messages (c : SqliteChannel) : SqliteChannel * res () :=
  let '(t, c) := now c in
  let '(bad, c) := statement c in
  if bad then (c, Err (BackendError "Failed to recover messages"))
  else
    let s := sq_stats c in
    let n := size (rows (eligible (sq_config c) t) (table c)) in
    (set_stats c (mkStats (messages_sent s) (messages_received s) (Z.of_nat n) (messages_failed s)), Ok tt).
(** The database holds [t]; [clock] and [faults] are to come. *)
Definition from_shared_pool (tenant_id namespace name : string) (dlq : bool) (dead_letter_queue : string)
    (max_attempts : option Z) (t : gmap string Row) (clock : list Z) (faults : list bool)
    : SqliteChannel * res () :=
  let cfg := mkSqliteConfig tenant_id namespace name dlq dead_letter_queue max_attempts false 0 in
  recover_unacked_messages (mkSqlite cfg t (mkStats 0 0 0 0) false clock faults).

(** *** Acknowledgements *)

Definition cleanup_acked_messages (c : SqliteChannel) : SqliteChannel * res () :=
  let cfg := sq_config c in
  if negb (cleanup_acked cfg) || (cleanup_age_seconds cfg =? 0) then (c, Ok tt)
  else
    let '(t, c) := now c in
    let cutoff := t - as_i64 (cleanup_age_seconds cfg) * 1000 in
    let '(bad, c) := statement c in
    if bad then (c, Err (BackendError "Failed to cleanup messages"))
    else (set_table c (rows (λ r, negb (own cfg r && row_acked r && (created_at r <? cutoff))) (table c)), Ok tt).

Definition set_acked (b : bool) (r : Row) : Row :=
  mkRow (row_tenant_id r) (row_namespace r) (row_channel r) (row_payload r) (row_idempotency_key r)
    (row_conflict_resolution r) b (row_dead_lettered r) (row_delivery_count r) (send_at r) (created_at r).
Definition requeued (at_ms : Z) (r : Row) : Row :=
  mkRow (row_tenant_id r) (row_namespace r) (row_channel r) (row_payload r) (row_idempotency_key r)
    (row_conflict_resolution r) false (row_dead_lettered r) (row_delivery_count r + 1) at_ms (created_at r).
Definition buried (r : Row) : Row :=
  mkRow (row_tenant_id r) (row_namespace r) (row_channel r) (row_payload r) (row_idempotency_key r)
    (row_conflict_resolution r) (row_acked r) true (row_delivery_count r + 1) (send_at r) (created_at r).

Definition ack (i : string) (c : SqliteChannel) : SqliteChannel * res () :=
  let '(bad, c) := statement c in
  if bad then (c, Err (BackendError "Failed to check message status"))
  else match find i c with
       | None => (c, Err (MessageNotFound i))
       | Some r =>
           if row_acked r then (c, Err (MessageNotFound i))
           else
             let '(bad, c) := statement c in
             if bad then (c, Err (BackendError "Failed to ack message"))
             else
               let c := update i (set_acked true) c in
               let s := sq_stats c in
               cleanup_acked_messages
                 (set_stats c (mkStats (messages_sent s) (messages_received s) (u64_sub (messages_pending s) 1)
                                 (messages_failed s)))
       end.

Definition count_failed (c : SqliteChannel) : SqliteChannel :=
  let s := sq_stats c in
  set_stats c (mkStats (messages_sent s) (messages_received s) (messages_pending s) (u64_add (messages_failed s) 1)).
Definition nack (i : string) (requeue : bool) (delay : option Z) (c : SqliteChannel) : SqliteChannel * res () :=
  let '(bad, c) := statement c in
  if bad then (c, Err (BackendError "Failed to check message status"))
  else match find i c with
       | None => (c, Err (MessageNotFound i))
       | Some r =>
           match as_i32 (row_delivery_count r) with
           | None => (c, Err (BackendError "Failed to check message status"))
           | Some count =>
               if requeue && (as_u32 count <? max_retries c) then
                 let '(at_ms, c) := match delay with
                                    | Some d => let '(t, c) := now c in (t + as_i64 (d / 1000000), c)
                                    | None => (0, c) end in
                 let '(bad, c) := statement c in
                 if bad then (c, Err (BackendError "Failed to nack/requeue message"))
                 else (count_failed (update i (requeued at_ms) c), Ok tt)
               else if dlq_enabled (sq_config c) && negb (String.eqb (dead_letter_queue (sq_config c)) "") then
                 let '(bad, c) := statement c in
                 if bad then (c, Err (BackendError "Failed to dead-letter message"))
                 else (count_failed (update i buried c), Ok tt)
               else
                 match ack i c with
                 | (c, Ok _) => (count_failed c, Ok tt)
                 | (c, Err e) => (c, Err e)
                 end
           end
       end.

Definition get_stats (c : SqliteChannel) : SqliteChannel * res ChannelStatsData :=
  let '(bad, c) := statement c in
  if bad then (c, Err (BackendError "Failed to get stats"))
  else
    let s := sq_stats c in
    let n := size (rows (λ r, own (sq_config c) r && negb (row_acked r)) (table c)) in
    (c, Ok (mkStats (messages_sent s) (messages_received s) (Z.of_nat n) (messages_failed s))).
Definition close (c : SqliteChannel) : SqliteChannel :=
  mkSqlite (sq_config c) (table c) (sq_stats c) true (clock c) (faults c).
Definition is_closed (c : SqliteChannel) : bool := sq_closed c.

End Sqc.

#[export] Instance sqlite_channel : Channel SqliteChannel := {|
  ch_try_receive := Sqc.try_receive;
  ch_ack := Sqc.ack;
  ch_nack := Sqc.nack
|}.

(** ** The messages of a channel *)

(** Delivered again until they are answered, and in the dead-letter queue. *)
Definition live (c : SqliteChannel) : gmap string Row :=
  Sqc.rows (λ r, Sqc.own (sq_config c) r && negb (row_acked r) && negb (row_dead_lettered r)) (table c).
Definition graves (c : SqliteChannel) : gmap string Row :=
  Sqc.rows (λ r, Sqc.own (sq_config c) r && negb (row_acked r) && row_dead_lettered r) (table c).
Definition sq_retries (c : SqliteChannel) (i : string) : Z := default 0 (row_delivery_count <$> live c !! i).

(** The dead-letter queue is enabled, and a message went back at most [max_retries] times, a number that the
    column of the counts can hold. *)
Record sq_ok (c : SqliteChannel) : Prop := {
  ok_dlq : dlq_enabled (sq_config c) && negb (String.eqb (dead_letter_queue (sq_config c)) "") = true;
  ok_max : Sqc.max_retries c < 2 ^ 31;
  ok_counts : ∀ i r, table c !! i = Some r → Sqc.own (sq_config c) r = true → row_dead_lettered r = false →
    0 <= row_delivery_count r <= Sqc.max_retries c
}.

Lemma rows_lookup f t i :
  Sqc.rows f t !! i = match t !! i with Some r => if f r then Some r else None | None => None end.
Proof.
  unfold Sqc.rows. destruct (t !! i) as [r|] eqn:Hi.
  - destruct (f r) eqn:Hf.
    + by apply map_lookup_filter_Some.
    + apply map_lookup_filter_None. right. intros r' Hr'. cbn. congruence.
  - apply map_lookup_filter_None. by left.
Qed.

(** *** What the operations change *)

(** The statements and the clock change nothing that the messages depend on. *)
Definition same_rows (c c' : SqliteChannel) : Prop := sq_config c' = sq_config c ∧ table c' = table c.

Lemma same_live c c' : same_rows c c' → live c' = live c ∧ graves c' = graves c.
Proof. intros [Hc Ht]. unfold live, graves. by rewrite Hc, Ht. Qed.
Lemma same_ok c c' : same_rows c c' → sq_ok c → sq_ok c'.
Proof. intros [Hc Ht] [H1 H2 H3]. split; unfold Sqc.max_retries in *; rewrite ?Hc, ?Ht; done. Qed.
Lemma now_same c t c' : Sqc.now c = (t, c') → same_rows c c'.
Proof. unfold Sqc.now. destruct (clock c); by intros [= <- <-]. Qed.
Lemma statement_same c b c' : Sqc.statement c = (b, c') → same_rows c c'.
Proof. unfold Sqc.statement. destruct (faults c); by intros [= <- <-]. Qed.

(** Some acknowledged messages of the channel may be gone. *)
Definition swept (c c' : SqliteChannel) : Prop :=
  sq_config c' = sq_config c ∧ ∀ j, table c' !! j = table c !! j ∨
    (table c' !! j = None ∧ ∃ r, table c !! j = Some r ∧ row_acked r = true).

Lemma swept_live c c' : swept c c' → live c' = live c ∧ graves c' = graves c.
Proof.
  intros [Hc Ht]. unfold live, graves. rewrite Hc.
  split; apply map_eq; intros j; rewrite !rows_lookup;
    (destruct (Ht j) as [->|(-> & r & -> & ->)]; [done|]); by destruct (Sqc.own _ _).
Qed.
Lemma swept_ok c c' : swept c c' → sq_ok c → sq_ok c'.
Proof.
  intros [Hc Ht] [H1 H2 H3]. split; unfold Sqc.max_retries in *; rewrite ?Hc; [done..|].
  intros j r Hj. destruct (Ht j) as [E|[E _]]; rewrite E in Hj; [by eapply H3 | done].
Qed.
Lemma same_swept c c' c'' : same_rows c c' → swept c' c'' → swept c c''.
Proof. intros [Hc Ht] [Hc' Ht']. split; [congruence|]. intros j. by rewrite <-Ht. Qed.
Lemma same_is_swept c c' : same_rows c c' → swept c c'.
Proof. intros [Hc Ht]. split; [done|]. intros j. left. by rewrite Ht. Qed.

Lemma cleanup_swept c c' r : Sqc.cleanup_acked_messages c = (c', r) → swept c c'.
Proof.
  unfold Sqc.cleanup_acked_messages. destruct (_ || _); [intros [= <- <-]; by apply same_is_swept|].
  destruct (Sqc.now c) as [t c1] eqn:Hn. destruct (Sqc.statement c1) as [b c2] eqn:Hs.
  assert (H02 : same_rows c c2).
  { apply now_same in Hn as [? ?]. apply statement_same in Hs as [? ?]. split; congruence. }
  destruct b; intros [= <- <-]; [by apply same_is_swept|].
  apply (same_swept _ c2); [done|]. split; [done|]. intros j. cbn. rewrite rows_lookup.
  destruct (table c2 !! j) as [r|] eqn:Hj; [|by left].
  destruct (Sqc.own (sq_config c) r && row_acked r && _) eqn:E; [right | by left].
  apply andb_prop in E as [E _]. apply andb_prop in E as [_ E]. split; [done | by exists r].
Qed.

(** A row of the channel is changed by [f]. *)
Definition changed (i : string) (f : Row → Row) (c c' : SqliteChannel) : Prop :=
  sq_config c' = sq_config c ∧ table c' = alter f i (table c).

Lemma find_Some i c r : Sqc.find i c = Some r ↔ table c !! i = Some r ∧ Sqc.own (sq_config c) r = true.
Proof.
  unfold Sqc.find. destruct (table c !! i) as [r'|]; [|by split; [|intros []]].
  destruct (Sqc.own _ r') eqn:E; split; [by intros [= <-] | by intros [[= <-] _] | done |].
  intros [[= <-] ?]. congruence.
Qed.
Lemma same_find c c' i : same_rows c c' → Sqc.find i c' = Sqc.find i c.
Proof. intros [Hc Ht]. unfold Sqc.find. by rewrite Hc, Ht. Qed.

(** An acknowledgement fails, or marks the row and may then remove acknowledged rows. *)
Lemma ack_effect i c c' r : Sqc.ack i c = (c', r) →
  (same_rows c c' ∧ ∃ e, r = Err e) ∨
  (∃ row c1, Sqc.find i c = Some row ∧ changed i (Sqc.set_acked true) c c1 ∧ swept c1 c').
Proof.
  unfold Sqc.ack. destruct (Sqc.statement c) as [b c1] eqn:Hs. apply statement_same in Hs as Hs1.
  destruct b; [intros [= <- <-]; left; eauto|]. rewrite (same_find _ _ _ Hs1).
  destruct (Sqc.find i c) as [row|] eqn:Hf; [|intros [= <- <-]; left; eauto].
  destruct (row_acked row); [intros [= <- <-]; left; eauto|].
  destruct (Sqc.statement c1) as [b c2] eqn:Hs'. apply statement_same in Hs' as Hs2.
  assert (H02 : same_rows c c2) by (destruct Hs1, Hs2; split; congruence).
  destruct b; [intros [= <- <-]; left; eauto|]. intros Hcl%cleanup_swept. right.
  eexists row, _. split; [done|]. split; [|exact Hcl]. destruct H02 as [Hc Ht].
  split; cbn; [done | by rewrite Ht].
Qed.

Lemma changed_others i f c c' j : changed i f c c' → j ≠ i →
  live c' !! j = live c !! j ∧ graves c' !! j = graves c !! j.
Proof.
  intros [Hc Ht] Hj. unfold live, graves. by rewrite !rows_lookup, Hc, Ht, !lookup_alter_ne.
Qed.
Lemma changed_lookup i f c c' : changed i f c c' → table c' !! i = f <$> table c !! i.
Proof. intros [_ ->]. apply lookup_alter_eq. Qed.

(** A rejected message goes back, or to the dead-letter queue. *)
Lemma nack_effect i requeue delay c c' r : sq_ok c → Sqc.nack i requeue delay c = (c', r) →
  (same_rows c c' ∧ ∃ e, r = Err e) ∨
  (r = Ok tt ∧ ∃ row, Sqc.find i c = Some row ∧ (changed i Sqc.buried c c' ∨
     (requeue = true ∧ 0 <= row_delivery_count row < Sqc.max_retries c ∧ ∃ t, changed i (Sqc.requeued t) c c'))).
Proof.
  intros Hok. unfold Sqc.nack. destruct (Sqc.statement c) as [b c1] eqn:Hs. apply statement_same in Hs as Hs1.
  destruct b; [intros [= <- <-]; left; eauto|]. rewrite (same_find _ _ _ Hs1).
  destruct (Sqc.find i c) as [row|]; [|intros [= <- <-]; left; eauto].
  pose proof (ok_max c Hok) as Hmx. destruct Hs1 as [Hc1 Ht1].
  assert (Hm1 : Sqc.max_retries c1 = Sqc.max_retries c) by (unfold Sqc.max_retries; by rewrite Hc1).
  unfold Sqc.as_i32. destruct (_ && _) eqn:Hi; [|intros [= <- <-]; left; split; [by split | eauto]].
  rewrite Hm1, Hc1, (ok_dlq c Hok). destruct (requeue && _) eqn:E.
  - apply andb_prop in E as [-> E]. bool_to_Prop.
    assert (Hct : 0 <= row_delivery_count row < Sqc.max_retries c).
    { unfold as_u32, wrap in E. destruct (Z.leb_spec 0 (row_delivery_count row)) as [?|Hn].
      - rewrite Z.mod_small in E by lia. lia.
      - rewrite <-(Z_mod_plus_full _ 1), Z.mod_small in E by lia. lia. }
    destruct (match delay with Some _ => _ | None => _ end) as [t c2] eqn:Hd.
    assert (H2 : same_rows c1 c2).
    { destruct delay; [|by injection Hd as <- <-]. destruct (Sqc.now c1) as [t' c3] eqn:Hn.
      injection Hd as _ <-. by apply now_same in Hn. }
    destruct (Sqc.statement c2) as [b c3] eqn:Hs3. apply statement_same in Hs3.
    assert (H03 : same_rows c c3) by (destruct H2, Hs3; split; congruence).
    destruct b; intros [= <- <-]; [left; eauto|]. right. split; [done|]. exists row. split; [done|]. right.
    split; [done|]. split; [done|]. exists t. destruct H03 as [Hc3 Ht3]. split; cbn; [done | by rewrite Ht3].
  - destruct (Sqc.statement c1) as [b c3] eqn:Hs3. apply statement_same in Hs3.
    assert (H03 : same_rows c c3) by (destruct Hs3; split; congruence).
    destruct b; intros [= <- <-]; [left; eauto|]. right. split; [done|]. exists row. split; [done|]. left.
    destruct H03 as [Hc3 Ht3]. split; cbn; [done | by rewrite Ht3].
Qed.

Lemma receive_effect n c c' r : Sqc.try_receive n c = (c', r) →
  same_rows c c' ∧ match r with Ok ms => ∃ t, ms = Sqc.to_message <$> Sqc.select t n c | Err _ => True end.
Proof.
  unfold Sqc.try_receive. destruct (Sqc.now c) as [t c1] eqn:Hn. destruct (Sqc.statement c1) as [b c2] eqn:Hs.
  assert (H02 : same_rows c c2).
  { apply now_same in Hn as [? ?]. apply statement_same in Hs as [? ?]. split; congruence. }
  destruct b; intros [= <- <-]; [done|]. destruct H02 as [Hc Ht].
  assert (He : Sqc.select t n c2 = Sqc.select t n c) by (unfold Sqc.select; by rewrite Hc, Ht).
  rewrite He. split; [|by exists t]. by destruct (Sqc.to_message <$> _).
Qed.

(** *** The operations keep the channel well formed *)

Lemma changed_ok i f c c' : sq_ok c → changed i f c c' →
  (∀ r, Sqc.find i c = Some r → Sqc.own (sq_config c) (f r) = true → row_dead_lettered (f r) = false →
     0 <= row_delivery_count (f r) <= Sqc.max_retries c) →
  (∀ r, Sqc.own (sq_config c) (f r) = Sqc.own (sq_config c) r) → sq_ok c'.
Proof.
  intros [H1 H2 H3] [Hc Ht] Hf Hown. split; unfold Sqc.max_retries in *; rewrite ?Hc; [done..|].
  intros j r. rewrite Ht. destruct (decide (j = i)) as [->|Hj]; [|rewrite lookup_alter_ne by done; by eapply H3].
  rewrite lookup_alter_eq. intros (r0 & Hr0 & ->)%fmap_Some_1 Ho Hd. apply Hf; [|done..].
  apply find_Some. by rewrite <-Hown.
Qed.

Lemma ack_ok i c c' r : sq_ok c → Sqc.ack i c = (c', r) → sq_ok c'.
Proof.
  intros Hok [[Hs _]|(row & c1 & _ & Hch & Hsw)]%ack_effect; [by eapply same_ok|].
  apply (swept_ok c1); [done|]. apply (changed_ok i _ c c1 Hok Hch); [|done].
  intros r0 [Hr0 Ho]%find_Some _ Hd. by apply (ok_counts c Hok i r0).
Qed.
Lemma nack_ok i requeue delay c c' r : sq_ok c → Sqc.nack i requeue delay c = (c', r) → sq_ok c'.
Proof.
  intros Hok [[Hs _]|(_ & row & Hf & [Hch|(_ & Hct & t & Hch)])]%nack_effect; [by eapply same_ok| | |done].
  - by apply (changed_ok i _ c c' Hok Hch).
  - apply (changed_ok i _ c c' Hok Hch); [|done]. intros r0 Hr0 _ _. cbn. replace r0 with row by congruence. lia.
Qed.
Lemma receive_ok n c c' r : sq_ok c → Sqc.try_receive n c = (c', r) → sq_ok c'.
Proof. intros Hok [Hs _]%receive_effect. by eapply same_ok. Qed.

Lemma max_retries_pos c : 0 < Sqc.max_retries c.
Proof. unfold Sqc.max_retries, max_retries_from_config, DEFAULT_MAX_RETRIES. repeat case_match; bool_to_Prop; lia. Qed.
Lemma insert_ok created m c c' r : sq_ok c → Sqc.insert_message created m c = (c', r) → sq_ok c'.
Proof.
  intros Hok. unfold Sqc.insert_message. destruct (Sqc.statement c) as [b c1] eqn:Hs. apply statement_same in Hs.
  apply (same_ok _ _ Hs) in Hok as Hok1. destruct b; [by intros [= <- <-]|].
  destruct (table c1 !! _) eqn:Hf; [by intros [= <- <-]|]. intros [= <- <-]. destruct Hok1 as [H1 H2 H3].
  split; cbn; [exact H1 | exact H2 |]. intros j r [[_ <-]|[_ Hj]]%lookup_insert_Some; [|by eapply H3].
  intros _ _. pose proof (max_retries_pos c1). cbn. unfold Sqc.max_retries in *. cbn. lia.
Qed.
(** Messages are sent to a well formed channel; a channel is created over a table whose counts are in range. *)
Lemma send_ok m c c' r : sq_ok c → Sqc.send m c = (c', r) → sq_ok c'.
Proof.
  intros Hok. unfold Sqc.send. destruct (sq_closed c); [by intros [= <- <-]|].
  destruct (Sqc.now c) as [t c1] eqn:Hn. apply now_same in Hn. apply (same_ok _ _ Hn) in Hok as Hok1.
  destruct (_ && _); [|by apply insert_ok].
  destruct (Sqc.statement c1) as [b c2] eqn:Hs. apply statement_same in Hs. apply (same_ok _ _ Hs) in Hok1 as Hok2.
  destruct b; [by intros [= <- <-]|]. destruct (existsb _ _); [|by apply insert_ok].
  intros [= <- <-]. destruct Hok2 as [H1 H2 H3]. split; cbn; [exact H1 | exact H2 |].
  intros j r. rewrite lookup_fmap. intros (r0 & Hj & ->)%fmap_Some_1.
  destruct (Sqc.overwritten _ _ r0); cbn; [|by apply (H3 j)]. intros Ho Hd. by apply (H3 j r0).
Qed.
Lemma from_shared_pool_ok tenant namespace name dlq queue attempts t clock faults c :
  Sqc.from_shared_pool tenant namespace name dlq queue attempts t clock faults = (c, Ok tt) →
  dlq && negb (String.eqb queue "") = true → max_retries_from_config attempts < 2 ^ 31 →
  (∀ i r, t !! i = Some r → 0 <= row_delivery_count r <= max_retries_from_config attempts) → sq_ok c.
Proof.
  unfold Sqc.from_shared_pool, Sqc.recover_unacked_messages. set (c0 := mkSqlite _ _ _ _ _ _).
  destruct (Sqc.now c0) as [u c1] eqn:Hn. destruct (Sqc.statement c1) as [b c2] eqn:Hs.
  apply now_same in Hn. apply statement_same in Hs. destruct b; [done|]. intros [= <-] H1 H2 H3.
  apply (same_ok c2); [done|]. apply (same_ok c1); [done|]. apply (same_ok c0); [done|].
  split; [done..|]. intros i r Hi _ _. by apply (H3 i).
Qed.

(** ** The contract *)

Lemma live_Some c i r : live c !! i = Some r ↔
  Sqc.find i c = Some r ∧ row_acked r = false ∧ row_dead_lettered r = false.
Proof.
  unfold live, Sqc.find. rewrite rows_lookup. destruct (table c !! i) as [r'|]; [|by split; [|intros (? & _)]].
  destruct (Sqc.own _ r'); [|by split; [|intros (? & _)]]. cbn.
  destruct (row_acked r') eqn:Ea, (row_dead_lettered r') eqn:Ed; cbn; split; try done;
    try (intros ([= <-] & ? & ?); congruence); by intros [= <-].
Qed.
Lemma retries_Some c i r : live c !! i = Some r → sq_retries c i = row_delivery_count r.
Proof. unfold sq_retries. by intros ->. Qed.

(** The messages that are handed out are live, each once, with the number of times that they went back. *)
Lemma receive_contract n c c' ms : sq_ok c → Sqc.try_receive n c = (c', Ok ms) →
  NoDup (id <$> ms) ∧ ∀ m, m ∈ ms → id m ∈ dom (live c) ∧ delivery_count m = sq_retries c (id m).
Proof.
  intros Hok [_ (t & ->)]%receive_effect.
  set (l := List.filter (λ x, Sqc.eligible (sq_config c) t x.2) (map_to_list (table c))).
  assert (Hl : NoDup l).
  { apply NoDup_ListNoDup, List.NoDup_filter, NoDup_ListNoDup, NoDup_map_to_list. }
  assert (Hin : ∀ x, x ∈ Sqc.select t n c → x ∈ l).
  { intros x Hx%(subseteq_take n). by rewrite merge_sort_Permutation in Hx. }
  assert (Hrow : ∀ i r, (i, r) ∈ l → live c !! i = Some r).
  { intros i r [Hm He]%elem_of_filterb. apply elem_of_map_to_list in Hm. unfold Sqc.eligible in He. cbn in He.
    bool_to_Prop. apply live_Some. by rewrite find_Some. }
  split.
  - rewrite <-list_fmap_compose. change (NoDup (Sqc.select t n c).*1). apply NoDup_fmap_fst.
    + intros i r1 r2 H1%Hin%Hrow H2%Hin%Hrow. congruence.
    + apply (sublist_NoDup _ (merge_sort Sqc.before l)); [|apply sublist_take]. by rewrite merge_sort_Permutation.
  - intros m ([i r] & -> & Hr%Hin%Hrow)%list_elem_of_fmap. cbn. split; [by apply elem_of_dom_2 in Hr|].
    rewrite (retries_Some c i r Hr). apply live_Some in Hr as ([Ht Ho]%find_Some & _ & Hd).
    pose proof (ok_counts c Hok i r Ht Ho Hd). pose proof (ok_max c Hok).
    unfold Sqc.as_i32. destruct (_ && _) eqn:E; [|apply andb_false_iff in E as [E|E]; bool_to_Prop; lia].
    cbn. unfold as_u32. apply wrap_small. lia.
Qed.

(** A row that [f] takes out of the live ones, or keeps there. *)
Lemma changed_live i f c c' r : changed i f c c' → Sqc.find i c = Some r →
  Sqc.own (sq_config c) (f r) = Sqc.own (sq_config c) r →
  live c' = (if negb (row_acked (f r)) && negb (row_dead_lettered (f r)) then <[i := f r]> (live c) else delete i (live c)) ∧
  graves c' = (if negb (row_acked (f r)) && row_dead_lettered (f r) then <[i := f r]> (graves c) else delete i (graves c)).
Proof.
  intros Hch [Ht Ho]%find_Some Hf. pose proof (changed_lookup _ _ _ _ Hch) as Hi. rewrite Ht in Hi. cbn in Hi.
  split; apply map_eq; intros j; (destruct (decide (j = i)) as [->|Hj];
    [|destruct (changed_others i f c c' j Hch Hj) as [H1 H2];
      first [rewrite H1 | rewrite H2]; case_match; by rewrite ?lookup_insert_ne, ?lookup_delete_ne]);
    unfold live, graves; rewrite rows_lookup, Hi, (proj1 Hch), Hf, Ho; cbn; destruct (_ && _);
    by rewrite ?lookup_insert_eq, ?lookup_delete_eq.
Qed.

Lemma live_others c c' i : (∀ j, j ≠ i → live c' !! j = live c !! j) →
  others_kept (λ c, dom (live c)) sq_retries i c c'.
Proof. intros H j Hj. unfold sq_retries. by rewrite !elem_of_dom, H. Qed.

Lemma ack_contract i c c' r : i ∈ dom (live c) → Sqc.ack i c = (c', r) →
  dom (graves c') = dom (graves c) ∧ others_kept (λ c, dom (live c)) sq_retries i c c' ∧
  match r with Ok _ => i ∉ dom (live c') | Err _ => i ∈ dom (live c') → sq_retries c' i = sq_retries c i end.
Proof.
  intros [r0 Hr0]%elem_of_dom [[Hs [e ->]]|(row & c1 & Hf & Hch & Hsw)]%ack_effect.
  - destruct (same_live _ _ Hs) as [Hl Hg]. rewrite Hg. split_and!; [done|by apply live_others; intros; rewrite Hl|].
    unfold sq_retries. by rewrite Hl.
  - destruct (swept_live _ _ Hsw) as [Hl Hg]. destruct (changed_live _ _ _ _ _ Hch Hf eq_refl) as [Hl1 Hg1].
    cbn in Hl1, Hg1. rewrite Hl1 in Hl. rewrite Hg1 in Hg. rewrite Hg, dom_delete_L. split_and!.
    + apply live_Some in Hr0 as ([Ht Ho]%find_Some & _ & Hd). apply difference_disjoint_L.
      apply disjoint_singleton_r. intros [r1 Hr1]%elem_of_dom. unfold graves in Hr1.
      rewrite rows_lookup, Ht, Hd, andb_false_r in Hr1. done.
    + apply live_others. intros j Hj. by rewrite Hl, lookup_delete_ne.
    + assert (Hi : i ∉ dom (live c')) by (rewrite Hl, dom_delete_L; set_solver).
      by destruct r.
Qed.

Lemma nack_contract i requeue delay c c' r : sq_ok c → i ∈ dom (live c) → Sqc.nack i requeue delay c = (c', r) →
  dom (graves c) ⊆ dom (graves c') ∧ others_kept (λ c, dom (live c)) sq_retries i c c' ∧
  match r with
  | Ok _ => ((i ∉ dom (live c')) ∧ i ∈ dom (graves c')) ∨
      (requeue = true ∧ i ∈ dom (live c') ∧ sq_retries c' i = sq_retries c i + 1)
  | Err _ => i ∈ dom (live c') ∧ sq_retries c' i = sq_retries c i
  end.
Proof.
  intros Hok Hi [[Hs [e ->]]|(-> & row & Hf & Hch)]%nack_effect; [| |done].
  - destruct (same_live _ _ Hs) as [Hl Hg]. rewrite Hg. unfold sq_retries. rewrite Hl.
    split_and!; [done|by apply live_others; intros; rewrite Hl|done|done].
  - assert (Hoth : ∀ f, changed i f c c' → others_kept (λ c, dom (live c)) sq_retries i c c').
    { intros f Hf'. apply live_others. intros j Hj. by apply (changed_others i f). }
    apply elem_of_dom in Hi as [r0 Hr0]. pose proof (retries_Some _ _ _ Hr0) as Hre.
    apply live_Some in Hr0 as (Hf0 & Ha & Hd). replace r0 with row in * by congruence.
    destruct Hch as [Hch|(-> & _ & t & Hch)]; (split; [|split; [by eapply Hoth|]]);
      destruct (changed_live _ _ _ _ _ Hch Hf eq_refl) as [Hl Hg]; cbn in Hl, Hg; rewrite ?Ha, ?Hd in Hl, Hg; cbn in Hl, Hg.
    + rewrite Hg. set_solver.
    + left. rewrite Hl, Hg. set_solver.
    + rewrite Hg, dom_delete_L. apply find_Some in Hf as [Ht Ho].
      assert (i ∉ dom (graves c)); [|set_solver]. intros [r1 Hr1]%elem_of_dom. unfold graves in Hr1.
      rewrite rows_lookup, Ht, Hd, andb_false_r in Hr1. done.
    + right. split; [done|]. unfold sq_retries at 1. rewrite Hl, lookup_insert_eq, Hre. split; [set_solver | done].
Qed.

(** A channel whose dead-letter queue is enabled, with the operations of the outbox. *)
Record Kept := mkKept { kept : SqliteChannel; kept_ok : sq_ok kept }.
Definition lift {A} (f : SqliteChannel → SqliteChannel * A) (H : ∀ c c' r, sq_ok c → f c = (c', r) → sq_ok c')
    (k : Kept) : Kept * A :=
  (mkKept (f (kept k)).1 (H _ _ _ (kept_ok k) (surjective_pairing _)), (f (kept k)).2).
#[export] Instance kept_channel : Channel Kept := {|
  ch_try_receive n := lift (Sqc.try_receive n) (receive_ok n);
  ch_ack i := lift (Sqc.ack i) (ack_ok i);
  ch_nack i requeue delay := lift (Sqc.nack i requeue delay) (nack_ok i requeue delay)
|}.

(** The channel keeps the contract of delivery at least once. *)
#[export] Instance kept_at_least_once : AtLeastOnce Kept.
Proof.
  refine {| owed k := dom (live (kept k)); retries k := sq_retries (kept k);
            dead_letters k := dom (graves (kept k)) |}; intros *; cbn; unfold lift.
  - intros [= <- <-]. cbn. destruct (Sqc.try_receive n (kept c)) as [c1 res] eqn:E. cbn.
    destruct (receive_effect _ _ _ _ E) as [Hs _]. destruct (same_live _ _ Hs) as [Hl Hg]. unfold sq_retries at 1.
    rewrite Hl, Hg. split_and!; [done..|]. destruct res; [|done]. by apply (receive_contract _ _ _ _ (kept_ok c) E).
  - intros Hi [= <- <-]. exact (ack_contract i (kept c) _ _ Hi (surjective_pairing _)).
  - intros Hi [= <- <-]. exact (nack_contract i requeue delay (kept c) _ _ (kept_ok c) Hi (surjective_pairing _)).
Defined.

(** ** Behaviour at concrete inputs *)

Definition sqlite_config (dlq : bool) : SqliteConfig := mkSqliteConfig "t" "n" "work" dlq "work-dlq" None false 0.
Definition sqlite_channel_at (dlq : bool) (clock : list Z) (faults : list bool) : SqliteChannel :=
  mkSqlite (sqlite_config dlq) ∅ (mkStats 0 0 0 0) false clock faults.
Definition outgoing (i key : string) (policy : Z) : Outgoing := mkOutgoing (mkMessage i "actor" [] 0) key policy.
Definition with_m1 (dlq : bool) (clock : list Z) (faults : list bool) : SqliteChannel :=
  (Sqc.send (outgoing "m1" "k" 0) (sqlite_channel_at dlq clock faults)).1.

(** Without a dead-letter queue, a message that is rejected for good is answered with success and dropped. *)
Example rejected_message_is_dropped :
  let '(c, r) := Sqc.nack "m1" false None (with_m1 false [] []) in
  r = Ok tt ∧ live c = ∅ ∧ graves c = ∅.
Proof. vm_compute. split_and!; reflexivity. Qed.

(** A newer version of a message whose first version is in the dead-letter queue is accepted, written over the
    dead letter, and never delivered. *)
Example overwrite_revises_dead_letter :
  let c := (Sqc.nack "m1" false None (with_m1 true [] [])).1 in
  let '(c, r) := Sqc.send (outgoing "m2" "k" Sqc.ConflictResolutionPolicyOverwrite) c in
  r = Ok "m2"%string ∧ live c = ∅ ∧ (Sqc.try_receive 10 c).2 = Ok [].
Proof. vm_compute. split_and!; reflexivity. Qed.

(** The receiver of a message is not stored: it comes back without one. *)
Example receiver_is_lost :
  (Sqc.try_receive 10 (with_m1 true [] [])).2 = Ok [mkMessage "m1" "" [] 0].
Proof. vm_compute. reflexivity. Qed.

(** Deliveries 1 and 2 fail and go back; delivery 3 succeeds but its acknowledgement fails; delivery 4 is one
    more than the policy allows. *)
Definition failing_ack : SqliteChannel :=
  with_m1 true ((λ n, Z.of_nat n * 1000000) <$> seq 1 20)
    [false; false; false; false; false; false; false; false; true].
Definition sqlite_relay_rounds (n : nat) : list Attempt :=
  (Relay.rounds flaky no_powf no_draw n (test_relay failing_ack)).2.
Example failed_ack_is_delivered_again :
  map (λ a : Attempt, (delivery_count a.1, is_ok a.2)) (sqlite_relay_rounds 6) =
    [(0, false); (1, false); (2, true); (2, true)] ∧
  effective_max_attempts three_attempts = 3.
Proof. split; vm_compute; reflexivity. Qed.
