(* ===== verification/Journal.v ===== *)
(** Journal: the persistent half of crates/journaling.

    The entries and checkpoints of proto/plexspaces/v1/journaling/journaling.proto; the storage trait
    of crates/service-traits/src/journal_storage.rs as a class ([JournalStorage]) with the contract
    that the durability facet relies on ([JournalLaws]); its SQLite back end
    (storage/sql/sqlite.rs, module [Sql]), whose tables discharge the contract; the cache of side
    effects (execution_context.rs, module [Ctx]); and the checkpoint manager
    (checkpoint_manager.rs, module [Ckpt]).

    Events, reminders, statistics and the purge of a namespace are not modelled.  The protobuf
    encoding of a row is not modelled: a row holds the entry itself. *)
From stdpp Require Import pretty sorting.
From S2P Require Import Prelude.

(** ** Data *)

Record Timestamp := mkTimestamp { ts_seconds : Z; ts_nanos : Z }.
Record Duration := mkDuration { d_seconds : Z; d_nanos : Z }.
#[export] Instance Timestamp_eq_dec : EqDecision Timestamp.
Proof. solve_decision. Defined.

(** The [oneof] of a journal entry. *)
Inductive Entry :=
| MessageReceived (message_id sender_id message_type : string) (payload : list Z)
    (metadata : gmap string string)
| MessageProcessed (message_id : string) (result : Z) (error_message : string)
    (response_payload : list Z)
| StateChanged (old_state new_state : list Z) (change_type : string)
| SideEffectExecuted (effect_id : string) (effect_type : Z) (request response : list Z)
    (error : string)
| TimerScheduled (timer_id : string) (delay : option Duration) (timer_data : list Z)
| TimerFired (timer_id : string)
| PromiseCreated (promise_id : string) (timeout : option Duration)
| PromiseResolved (promise_id : string) (result : list Z) (error : string).

Record JournalEntry := mkEntry {
  id : string;
  actor_id : string;
  sequence : Z;
  timestamp : option Timestamp;
  correlation_id : string;
  entry : option Entry
}.

Record Checkpoint := mkCheckpoint {
  cp_actor_id : string;
  cp_sequence : Z;
  cp_timestamp : option Timestamp;
  state_data : list Z;
  cp_compression : Z;
  cp_metadata : gmap string string;
  state_schema_version : Z
}.

Definition with_sequence (n : Z) (e : JournalEntry) : JournalEntry :=
  mkEntry (id e) (actor_id e) n (timestamp e) (correlation_id e) (entry e).
Definition with_timestamp (t : option Timestamp) (c : Checkpoint) : Checkpoint :=
  mkCheckpoint (cp_actor_id c) (cp_sequence c) t (state_data c) (cp_compression c) (cp_metadata c)
    (state_schema_version c).

Inductive JournalError :=
| Storage (msg : string)
| EntryNotFound (actor_id : string) (sequence : Z)
| CheckpointNotFound (actor_id : string)
| Compression (msg : string)
| Decompression (msg : string)
| Serialization (msg : string)
| Configuration (msg : string)
| InvalidConfiguration (msg : string)
| Replay (msg : string)
| IncompatibleSchemaVersion (checkpoint_version current_version : Z) (actor_id : string).

Definition JournalError_to_string (e : JournalError) : string :=
  match e with
  | Storage m => "Storage error: " ++ m
  | EntryNotFound a n => "Journal entry not found: actor_id=" ++ a ++ ", sequence=" ++ pretty n
  | CheckpointNotFound a => "Checkpoint not found: actor_id=" ++ a
  | Compression m => "Compression error: " ++ m
  | Decompression m => "Decompression error: " ++ m
  | Serialization m => "Serialization error: " ++ m
  | Configuration m => "Configuration error: " ++ m
  | InvalidConfiguration m => "Invalid configuration: " ++ m
  | Replay m => "Replay error: " ++ m
  | IncompatibleSchemaVersion v w a =>
      "Incompatible checkpoint schema version: checkpoint=" ++ pretty v ++ ", current=" ++ pretty w
        ++ ", actor_id=" ++ a
  end.

Inductive JournalErrorCode :=
| JournalErrorUnspecified | JournalErrorStorage | JournalErrorEntryNotFound | JournalErrorCheckpointNotFound
| JournalErrorCompression | JournalErrorSerialization | JournalErrorConflict.

Definition code (e : JournalError) : JournalErrorCode :=
  match e with
  | Storage _ => JournalErrorStorage
  | EntryNotFound _ _ => JournalErrorEntryNotFound
  | CheckpointNotFound _ => JournalErrorCheckpointNotFound
  | Compression _ | Decompression _ => JournalErrorCompression
  | Serialization _ => JournalErrorSerialization
  | Configuration _ | InvalidConfiguration _ => JournalErrorStorage
  | Replay _ => JournalErrorStorage
  | IncompatibleSchemaVersion _ _ _ => JournalErrorConflict
  end.

#[local] Abbreviation res := (result JournalError).

(** ** The storage trait *)

Class JournalStorage (S : Type) := {
  append_entry : JournalEntry → S → S * res Z;
  append_batch : list JournalEntry → S → S * res (Z * Z * nat);
  replay_from : string → Z → S → res (list JournalEntry);
  get_latest_checkpoint : string → S → res Checkpoint;
  save_checkpoint : Checkpoint → S → S * res ();
  truncate_to : string → Z → S → S * res Z;
  flush : S → S * res ()
}.

Definition from (n : Z) (es : list JournalEntry) : list JournalEntry :=
  List.filter (λ e, n <=? sequence e) es.
(** The sequence number of the last entry, [n] for an empty journal. *)
Definition last_from (n : Z) (es : list JournalEntry) : Z :=
  match last es with Some e => sequence e | None => n end.
Definition last_sequence (es : list JournalEntry) : Z := last_from 0 es.

(** A sequence number as the back ends hold it: an [i64] column. *)
Definition column (n : Z) : Prop := 0 <= n < 2 ^ 63.

(** Entries that extend a journal: of one actor, in increasing order above its last entry. *)
Fixpoint ascending (a : string) (n : Z) (es : list JournalEntry) : Prop :=
  match es with
  | [] => True
  | e :: es => actor_id e = a ∧ n < sequence e ∧ column (sequence e) ∧ ascending a (sequence e) es
  end.

(** What the facet relies on, in the absence of failures: an actor's journal ([entries]) and latest
    checkpoint ([latest]) change as the trait documents, and those of other actors do not.  [used]
    holds the identifiers of the stored entries. *)
Class JournalLaws (S : Type) `{!JournalStorage S} := {
  sane : S → Prop;
  entries : string → S → list JournalEntry;
  latest : string → S → option Checkpoint;
  used : S → gset string;
  entries_ascending a s : sane s → ascending a 0 (entries a s);
  replay_from_spec a n s : sane s → column n → replay_from a n s = Ok (from n (entries a s));
  get_latest_checkpoint_spec a s : sane s →
    get_latest_checkpoint a s =
      match latest a s with Some c => Ok c | None => Err (CheckpointNotFound a) end;
  append_entry_spec e s : sane s → ascending (actor_id e) (last_sequence (entries (actor_id e) s)) [e] →
    id e ∉ used s →
    ∃ s', append_entry e s = (s', Ok (sequence e)) ∧ sane s' ∧
      (∀ a, entries a s' = entries a s ++ if decide (a = actor_id e) then [e] else []) ∧
      (∀ a, latest a s' = latest a s) ∧ used s' = {[id e]} ∪ used s;
  append_batch_spec a es s : sane s → es ≠ [] → ascending a (last_sequence (entries a s)) es →
    NoDup (id <$> es) → Forall (λ e, id e ∉ used s) es →
    ∃ s' r, append_batch es s = (s', Ok r) ∧ sane s' ∧
      (∀ a', entries a' s' = entries a' s ++ if decide (a' = a) then es else []) ∧
      (∀ a', latest a' s' = latest a' s) ∧ used s' = list_to_set (id <$> es) ∪ used s;
  save_checkpoint_spec c s : sane s → column (cp_sequence c) →
    (∀ c', latest (cp_actor_id c) s = Some c' → cp_sequence c' <= cp_sequence c) →
    ∃ s' t, save_checkpoint c s = (s', Ok ()) ∧ sane s' ∧
      (∀ a, entries a s' = entries a s) ∧
      (∀ a, latest a s' = if decide (a = cp_actor_id c) then Some (with_timestamp t c) else latest a s) ∧
      used s' = used s;
  truncate_to_spec a n s : sane s → column n →
    ∃ s' k, truncate_to a n s = (s', Ok k) ∧ sane s' ∧
      (∀ a', entries a' s' = if decide (a' = a) then from (n + 1) (entries a s) else entries a' s) ∧
      (∀ a', latest a' s' = latest a' s) ∧ used s' ⊆ used s;
  flush_spec s : sane s →
    ∃ s', flush s = (s', Ok ()) ∧ sane s' ∧ (∀ a, entries a s' = entries a s) ∧
      (∀ a, latest a s' = latest a s) ∧ used s' = used s
}.

(** ** The SQLite back end *)

Record SqliteJournalStorage := mkSqlite {
  journal_entries : list JournalEntry;
  checkpoints : list Checkpoint;
  sequences : gmap string Z
}.

Module Sql.

Section sqlite.

(** The clock of the process in milliseconds, and the texts of two errors of the driver: a violated
    [UNIQUE] or [PRIMARY KEY] constraint, and a pool without a free connection. *)
Context (now_ms : Z) (unique_violation pool_timed_out : string).

Definition proto_timestamp_to_unix_ms (ts : option Timestamp) : Z :=
  match ts with
  | Some t => as_i64 (ts_seconds t * 1000 + Z.quot (ts_nanos t) 1000000)
  | None => now_ms
  end.
Definition unix_ms_to_proto_timestamp (ms : Z) : option Timestamp :=
  Some (mkTimestamp (Z.quot ms 1000) (Z.rem ms 1000 * 1000000)).

Definition set_entries (es : list JournalEntry) (t : SqliteJournalStorage) : SqliteJournalStorage :=
  mkSqlite es (checkpoints t) (sequences t).
Definition set_checkpoints (cs : list Checkpoint) (t : SqliteJournalStorage) : SqliteJournalStorage :=
  mkSqlite (journal_entries t) cs (sequences t).
Definition cache (a : string) (n : Z) (t : SqliteJournalStorage) : SqliteJournalStorage :=
  mkSqlite (journal_entries t) (checkpoints t) (<[a := n]> (sequences t)).

Definition of_actor (a : string) (es : list JournalEntry) : list JournalEntry :=
  List.filter (λ e, bool_decide (actor_id e = a)) es.
Definition before (e1 e2 : JournalEntry) : Prop := as_i64 (sequence e1) <= as_i64 (sequence e2).
#[local] Instance before_dec : RelDecision before := λ e1 e2, decide (_ <= _).
(** [ORDER BY sequence ASC] *)
Definition ordered (es : list JournalEntry) : list JournalEntry := merge_sort before es.

(** [INSERT INTO journal_entries], which fails on a repeated primary key or (actor, sequence). *)
Definition insert_row (e : JournalEntry) (es : list JournalEntry) : option (list JournalEntry) :=
  if existsb (λ e', bool_decide (id e' = id e) ||
       (bool_decide (actor_id e' = actor_id e) &&
        (as_i64 (sequence e') =? as_i64 (sequence e)))) es
  then None else Some (es ++ [e]).

(** [COALESCE(MAX(sequence), 0)] *)
Definition max_sequence (a : string) (es : list JournalEntry) : Z :=
  match of_actor a es with
  | [] => 0
  | e :: es => foldl (λ m e, Z.max m (as_i64 (sequence e))) (as_i64 (sequence e)) es
  end.

Definition next_sequence (a : string) (t : SqliteJournalStorage) : SqliteJournalStorage * Z :=
  match sequences t !! a with
  | Some n => (cache a (u64_add n 1) t, n)
  | None =>
      let next := as_u64 (max_sequence a (journal_entries t) + 1) in
      (cache a (u64_add next 1) t, next)
  end.

Definition sql_append_entry (e : JournalEntry) (t : SqliteJournalStorage)
    : SqliteJournalStorage * res Z :=
  let '(t, e) :=
    if sequence e =? 0
    then let '(t, n) := next_sequence (actor_id e) t in (t, with_sequence n e)
    else (cache (actor_id e) (u64_add (sequence e) 1) t, e) in
  match insert_row e (journal_entries t) with
  | Some es => (set_entries es t, Ok (sequence e))
  | None => (t, Err (Storage unique_violation))
  end.

(** The loop of [append_batch].  The transaction works on [es]; the cache of sequence numbers is
    outside of it.  Its connection is the only one of the pool, so that the query of a cache miss
    waits for a connection until the pool gives up. *)
Fixpoint batch_loop (batch es : list JournalEntry) (first : option Z) (last : Z) (t : SqliteJournalStorage)
    : SqliteJournalStorage * res (list JournalEntry * (option Z * Z)) :=
  match batch with
  | [] => (t, Ok (es, (first, last)))
  | e :: batch =>
      let go n t :=
        match insert_row (with_sequence n e) es with
        | Some es => batch_loop batch es (Some (default n first)) n t
        | None => (t, Err (Serialization unique_violation))
        end in
      if sequence e =? 0 then
        match sequences t !! actor_id e with
        | Some n => go n (cache (actor_id e) (u64_add n 1) t)
        | None => (t, Err (Storage pool_timed_out))
        end
      else go (sequence e) (cache (actor_id e) (u64_add (sequence e) 1) t)
  end.
Definition sql_append_batch (batch : list JournalEntry) (t : SqliteJournalStorage)
    : SqliteJournalStorage * res (Z * Z * nat) :=
  match batch with
  | [] => (t, Ok (0, 0, 0%nat))
  | _ =>
      match batch_loop batch (journal_entries t) None 0 t with
      | (t, Ok (es, (first, last))) => (set_entries es t, Ok (default 0 first, last, length batch))
      | (t, Err e) => (t, Err e)
      end
  end.

Definition sql_replay_from (a : string) (n : Z) (t : SqliteJournalStorage) : res (list JournalEntry) :=
  Ok (List.filter (λ e, as_i64 n <=? as_i64 (sequence e))
        (ordered (of_actor a (journal_entries t)))).

(** [ORDER BY sequence DESC LIMIT 1] *)
Definition newer (c : option Checkpoint) (c' : Checkpoint) : option Checkpoint :=
  match c with
  | Some c => if as_i64 (cp_sequence c) <=? as_i64 (cp_sequence c') then Some c' else Some c
  | None => Some c'
  end.
Definition newest (a : string) (cs : list Checkpoint) : option Checkpoint :=
  foldl newer None (List.filter (λ c, bool_decide (cp_actor_id c = a)) cs).
Definition sql_get_latest_checkpoint (a : string) (t : SqliteJournalStorage) : res Checkpoint :=
  match newest a (checkpoints t) with
  | Some c => Ok c
  | None => Err (CheckpointNotFound a)
  end.

(** [INSERT OR REPLACE]; the columns hold the timestamp in milliseconds. *)
Definition stored (c : Checkpoint) : Checkpoint :=
  with_timestamp (unix_ms_to_proto_timestamp (proto_timestamp_to_unix_ms (cp_timestamp c))) c.
Definition same_key (c c' : Checkpoint) : bool :=
  bool_decide (cp_actor_id c = cp_actor_id c') &&
  (as_i64 (cp_sequence c) =? as_i64 (cp_sequence c')).
Definition sql_save_checkpoint (c : Checkpoint) (t : SqliteJournalStorage)
    : SqliteJournalStorage * res () :=
  (set_checkpoints (List.filter (λ c', negb (same_key c c')) (checkpoints t) ++ [stored c]) t, Ok ()).

Definition sql_truncate_to (a : string) (n : Z) (t : SqliteJournalStorage)
    : SqliteJournalStorage * res Z :=
  let gone e := bool_decide (actor_id e = a) && (as_i64 (sequence e) <=? as_i64 n) in
  (set_entries (List.filter (λ e, negb (gone e)) (journal_entries t)) t,
   Ok (Z.of_nat (length (List.filter gone (journal_entries t))))).

Definition sql_flush (t : SqliteJournalStorage) : SqliteJournalStorage * res () := (t, Ok ()).

(** The rows of an actor in [journal_entries] and [checkpoints]; its events and reminders are not part
    of the model. *)
Definition purge_actor (a : string) (t : SqliteJournalStorage) : SqliteJournalStorage * res Z :=
  let mine := of_actor a (journal_entries t) in
  let cs := List.filter (λ c, bool_decide (cp_actor_id c = a)) (checkpoints t) in
  (mkSqlite (List.filter (λ e, negb (bool_decide (actor_id e = a))) (journal_entries t))
     (List.filter (λ c, negb (bool_decide (cp_actor_id c = a))) (checkpoints t))
     (delete (a ++ ":events")%string (delete a (sequences t))),
   Ok (Z.of_nat (length mine) + Z.of_nat (length cs))).

#[export] Instance sqlite : JournalStorage SqliteJournalStorage := {
  append_entry := sql_append_entry;
  append_batch := sql_append_batch;
  replay_from := sql_replay_from;
  get_latest_checkpoint := sql_get_latest_checkpoint;
  save_checkpoint := sql_save_checkpoint;
  truncate_to := sql_truncate_to;
  flush := sql_flush
}.

End sqlite.
End Sql.

(** ** The execution context *)

Inductive ExecutionMode :=
| ExecutionModeUnspecified | ExecutionModeNormal | ExecutionModeReplay.

Record SideEffectEntry := mkSideEffect {
  side_effect_id : string;
  side_effect_type : string;
  input_data : list Z;
  output_data : list Z;
  executed_at : option Timestamp;
  se_metadata : gmap string string
}.

(** The proto context with the entries recorded since they were last taken. *)
Record ExecutionContextImpl := mkCtx {
  ctx_actor_id : string;
  current_sequence : Z;
  mode_value : Z;
  side_effect_cache : gmap string (list Z);
  ctx_metadata : gmap string string;
  side_effects : list SideEffectEntry
}.

Module Ctx.

Definition mode_i32 (m : ExecutionMode) : Z :=
  match m with
  | ExecutionModeUnspecified => 0 | ExecutionModeNormal => 1 | ExecutionModeReplay => 2
  end.

Definition new_context (a : string) (m : ExecutionMode) : ExecutionContextImpl :=
  mkCtx a 0 (mode_i32 m) ∅ ∅ [].
Definition set_sequence (n : Z) (c : ExecutionContextImpl) : ExecutionContextImpl :=
  mkCtx (ctx_actor_id c) n (mode_value c) (side_effect_cache c) (ctx_metadata c) (side_effects c).
Definition ctx_sequence (c : ExecutionContextImpl) : Z := current_sequence c.
(** [ExecutionMode::try_from(mode).unwrap_or(ExecutionModeUnspecified)] *)
Definition mode (c : ExecutionContextImpl) : ExecutionMode :=
  if mode_value c =? 1 then ExecutionModeNormal
  else if mode_value c =? 2 then ExecutionModeReplay
  else ExecutionModeUnspecified.
Definition set_mode (m : ExecutionMode) (c : ExecutionContextImpl) : ExecutionContextImpl :=
  mkCtx (ctx_actor_id c) (current_sequence c) (mode_i32 m) (side_effect_cache c) (ctx_metadata c)
    (side_effects c).
Definition cache_output (i : string) (out : list Z) (c : ExecutionContextImpl) : ExecutionContextImpl :=
  mkCtx (ctx_actor_id c) (current_sequence c) (mode_value c) (<[i := out]> (side_effect_cache c))
    (ctx_metadata c) (side_effects c).
Definition push_side_effect (e : SideEffectEntry) (c : ExecutionContextImpl) : ExecutionContextImpl :=
  mkCtx (ctx_actor_id c) (current_sequence c) (mode_value c) (side_effect_cache c) (ctx_metadata c)
    (side_effects c ++ [e]).

Definition load_side_effects (es : list SideEffectEntry) (c : ExecutionContextImpl)
    : ExecutionContextImpl :=
  foldl (λ c e, cache_output (side_effect_id e) (output_data e) c) c es.

Definition take_side_effects (c : ExecutionContextImpl)
    : ExecutionContextImpl * list SideEffectEntry :=
  (mkCtx (ctx_actor_id c) (current_sequence c) (mode_value c) (side_effect_cache c) (ctx_metadata c) [],
   side_effects c).

(** [REPLAY] mode: the cached result. *)
Definition replayed (i : string) (c : ExecutionContextImpl) : res (list Z) :=
  match side_effect_cache c !! i with
  | Some out => Ok out
  | None => Err (Serialization ("Side effect not found in cache during replay: " ++ i)%string)
  end.

(** The cache and the entry of an executed side effect; [secs] is the Unix time. *)
Definition executed (i ty : string) (out : list Z) (secs : Z) (c : ExecutionContextImpl)
    : ExecutionContextImpl :=
  push_side_effect (mkSideEffect i ty [] out (Some (mkTimestamp secs 0)) ∅) (cache_output i out c).

(** The executor is a step of the world [W]. *)
Definition record_side_effect_raw {W} (i ty : string) (executor : W → W * result string (list Z))
    (secs : Z) (c : ExecutionContextImpl) (w : W) : ExecutionContextImpl * W * res (list Z) :=
  match mode c with
  | ExecutionModeReplay => (c, w, replayed i c)
  | ExecutionModeNormal | ExecutionModeUnspecified =>
      match executor w with
      | (w, Err e) => (c, w, Err (Serialization e))
      | (w, Ok out) => (executed i ty out secs c, w, Ok out)
      end
  end.

(** [encode] is the protobuf encoding of the result. *)
Definition record_side_effect {W T} (encode : T → result string (list Z)) (i ty : string)
    (executor : W → W * result string T) (secs : Z) (c : ExecutionContextImpl) (w : W)
    : ExecutionContextImpl * W * res (list Z) :=
  match mode c with
  | ExecutionModeReplay => (c, w, replayed i c)
  | ExecutionModeNormal | ExecutionModeUnspecified =>
      match executor w with
      | (w, Err e) => (c, w, Err (Serialization e))
      | (w, Ok v) =>
          match encode v with
          | Err e => (c, w, Err (Serialization e))
          | Ok out => (executed i ty out secs c, w, Ok out)
          end
      end
  end.

End Ctx.

(** ** The checkpoint manager *)

Record CheckpointConfig := mkCheckpointConfig {
  enabled : bool;
  entry_interval : Z;
  time_interval : option Duration;
  compression : Z;
  retention_count : Z;
  auto_truncate : bool;
  async_checkpointing : bool;
  cc_metadata : gmap string string
}.

Record CheckpointManagerStats := mkStats {
  checkpoints_created : Z;
  avg_checkpoint_duration : option Duration;
  last_checkpoint_size : Z;
  entries_truncated : Z;
  last_checkpoint_at : option Timestamp
}.

(** Of an actor: the sequence number and the time (a monotonic clock, in nanoseconds) of its last
    checkpoint. *)
Record ActorCheckpointState := mkActorState { last_checkpoint : Z; last_time : Z }.

Record CheckpointManager := mkManager {
  cm_config : CheckpointConfig;
  actor_state : gmap string ActorCheckpointState;
  cm_stats : CheckpointManagerStats;
  schema_version : Z
}.

(** The readings of the clocks in one operation: monotonic nanoseconds at its start, the nanoseconds
    that the creation of a checkpoint takes, and the Unix time in seconds. *)
Record Clock := mkClock { instant : Z; elapsed : Z; unix_secs : Z }.

Module Ckpt.
Section manager.

(** The compressors that the build enables (crates [zstd] and [snap]). *)
Context (zstd snappy : option (list Z → result string (list Z))).
Context {S : Type} `{!JournalStorage S}.

Definition new_manager (config : CheckpointConfig) (version : Z) : CheckpointManager :=
  mkManager config ∅ (mkStats 0 None 0 0 None) version.
Definition with_default_version (config : CheckpointConfig) : CheckpointManager :=
  new_manager config 1.

Definition set_actor_state (f : gmap string ActorCheckpointState → gmap string ActorCheckpointState)
    (m : CheckpointManager) : CheckpointManager :=
  mkManager (cm_config m) (f (actor_state m)) (cm_stats m) (schema_version m).
Definition set_stats (f : CheckpointManagerStats → CheckpointManagerStats) (m : CheckpointManager)
    : CheckpointManager :=
  mkManager (cm_config m) (actor_state m) (f (cm_stats m)) (schema_version m).

Definition stats (m : CheckpointManager) : CheckpointManagerStats := cm_stats m.
Definition last_checkpoint_sequence (a : string) (m : CheckpointManager) : Z :=
  match actor_state m !! a with Some st => last_checkpoint st | None => 0 end.

Definition compress_with (z : option (list Z → result string (list Z))) (disabled : string)
    (data : list Z) : res (list Z) :=
  match z with
  | Some f => match f data with Ok d => Ok d | Err e => Err (Compression e) end
  | None => Err (Compression disabled)
  end.
Definition compress_state_data (m : CheckpointManager) (data : list Z) : res (list Z) :=
  let c := compression (cm_config m) in
  if (c =? 0) || (c =? 1) then Ok data
  else if c =? 2 then
    compress_with zstd "ZSTD compression not enabled (enable 'compression-zstd' feature)" data
  else if c =? 3 then
    compress_with snappy "Snappy compression not enabled (enable 'compression-snappy' feature)" data
  else Err (Compression ("Unknown compression type: " ++ pretty c)%string).

Definition create_checkpoint (a : string) (n : Z) (data : list Z) (k : Clock) (m : CheckpointManager)
    : res Checkpoint :=
  data ← compress_state_data m data;
  Ok (mkCheckpoint a n (Some (mkTimestamp (unix_secs k) 0)) data (compression (cm_config m))
        (cc_metadata (cm_config m)) (schema_version m)).

(** [as_secs] and [subsec_nanos] of a duration of that many nanoseconds. *)
Definition duration_of_nanos (n : Z) : Duration := mkDuration (n / 1000000000) (n mod 1000000000).
(** The running average: the mean of the previous average and the last duration. *)
Definition averaged (avg : option Duration) (n : Z) : Duration :=
  match avg with
  | Some avg =>
      let old := as_i64 (d_seconds avg * 1000000000 + d_nanos avg) in
      let new := Z.quot (as_i64 (old + as_i64 n)) 2 in
      mkDuration (Z.quot new 1000000000) (Z.rem new 1000000000)
  | None => duration_of_nanos n
  end.

Definition nanos_of (d : Duration) : Z := as_u64 (d_seconds d) * 1000000000 + as_u64 (d_nanos d).

Definition entry_interval_reached (m : CheckpointManager) (st : ActorCheckpointState) (n : Z) : bool :=
  (0 <? entry_interval (cm_config m)) &&
  (entry_interval (cm_config m) <=? u64_sub n (last_checkpoint st)).
Definition time_interval_reached (m : CheckpointManager) (st : ActorCheckpointState) (k : Clock) : bool :=
  match time_interval (cm_config m) with
  | Some d => nanos_of d <=? sat_sub (instant k) (last_time st)
  | None => false
  end.

Definition maybe_checkpoint (a : string) (n : Z) (data : list Z) (k : Clock)
    (m : CheckpointManager) (s : S) : CheckpointManager * S * res (option Z) :=
  if negb (enabled (cm_config m)) then (m, s, Ok None) else
  let st := default (mkActorState 0 (instant k)) (actor_state m !! a) in
  let m := set_actor_state <[a := st]> m in
  if negb (entry_interval_reached m st n) && negb (time_interval_reached m st k)
  then (m, s, Ok None) else
  match create_checkpoint a n data k m with
  | Err e => (m, s, Err e)
  | Ok c =>
      match save_checkpoint c s with
      | (s, Err e) => (m, s, Err e)
      | (s, Ok _) =>
          let m := set_actor_state (alter (λ _, mkActorState n (instant k + elapsed k)) a) m in
          let m := set_stats (λ t, mkStats (u64_add (checkpoints_created t) 1)
            (Some (averaged (avg_checkpoint_duration t) (elapsed k)))
            (Z.of_nat (length (state_data c))) (entries_truncated t) (cp_timestamp c)) m in
          if auto_truncate (cm_config m) && (0 <? n) then
            match truncate_to a (n - 1) s with
            | (s, Err e) => (m, s, Err e)
            | (s, Ok truncated) =>
                (set_stats (λ t, mkStats (checkpoints_created t) (avg_checkpoint_duration t)
                   (last_checkpoint_size t) (u64_add (entries_truncated t) truncated)
                   (last_checkpoint_at t)) m, s, Ok (Some n))
            end
          else (m, s, Ok (Some n))
      end
  end.

Definition save_checkpoint_now (a : string) (n : Z) (data : list Z) (k : Clock)
    (m : CheckpointManager) (s : S) : CheckpointManager * S * res Z :=
  match create_checkpoint a n data k m with
  | Err e => (m, s, Err e)
  | Ok c =>
      match save_checkpoint c s with
      | (s, Err e) => (m, s, Err e)
      | (s, Ok _) =>
          let m := set_actor_state <[a := mkActorState n (instant k + elapsed k)]> m in
          (set_stats (λ t, mkStats (u64_add (checkpoints_created t) 1)
             (Some (duration_of_nanos (elapsed k))) (Z.of_nat (length (state_data c)))
             (entries_truncated t) (cp_timestamp c)) m, s, Ok n)
      end
  end.

(** Version 0, of an unversioned checkpoint, counts as version 1. *)
Definition validate_checkpoint_version (c : Checkpoint) (m : CheckpointManager) : res () :=
  let v := if state_schema_version c =? 0 then 1 else state_schema_version c in
  if schema_version m <? v
  then Err (IncompatibleSchemaVersion v (schema_version m) (cp_actor_id c))
  else Ok ().
Definition load_validated_checkpoint (a : string) (m : CheckpointManager) (s : S) : res Checkpoint :=
  c ← get_latest_checkpoint a s; _ ← validate_checkpoint_version c m; Ok c.

End manager.
End Ckpt.

(** ** Lemmas on ascending entries *)

Lemma as_i64_column n : column n → as_i64 n = n.
Proof.
  unfold column, as_i64, wrap. intros [H0 H1]. rewrite Z.mod_small by lia.
  destruct (n <? 2 ^ 63) eqn:E; [done|]. apply Z.ltb_ge in E. lia.
Qed.

Lemma last_from_cons n e es : last_from n (e :: es) = last_from (sequence e) es.
Proof.
  revert n e. induction es as [|x es IH]; intros n e; [done|].
  transitivity (last_from n (x :: es)); [done|]. by rewrite !IH.
Qed.
Lemma last_from_app n es es' : last_from n (es ++ es') = last_from (last_from n es) es'.
Proof.
  revert n. induction es as [|e es IH]; intros n; [done|].
  cbn [app]. by rewrite !last_from_cons, IH.
Qed.

Lemma ascending_app a n es es' :
  ascending a n (es ++ es') ↔ ascending a n es ∧ ascending a (last_from n es) es'.
Proof.
  revert n. induction es as [|e es IH]; intros n; cbn [app ascending].
  - unfold last_from. cbn. tauto.
  - rewrite IH, last_from_cons. tauto.
Qed.

Lemma ascending_last a n es : ascending a n es → n <= last_from n es.
Proof.
  revert n. induction es as [|e es IH]; intros n; [done|]. rewrite last_from_cons. cbn [ascending].
  intros (_ & Hn & _ & Hes). specialize (IH _ Hes). lia.
Qed.

Lemma ascending_elem a n es e : ascending a n es → e ∈ es →
  actor_id e = a ∧ n < sequence e ∧ sequence e <= last_from n es ∧ column (sequence e).
Proof.
  revert n. induction es as [|x es IH]; intros n; [by intros _ ?%not_elem_of_nil|].
  cbn [ascending]. rewrite last_from_cons. intros (Ha & Hn & Hc & Hes) [->|He]%elem_of_cons.
  - pose proof (ascending_last _ _ _ Hes). by split_and!.
  - destruct (IH _ Hes He) as (? & ? & ? & ?). split_and!; [done|lia|done..].
Qed.

Lemma ascending_weaken a n n' es : n' <= n → ascending a n es → ascending a n' es.
Proof. destruct es; [done|]. cbn. intros ? (? & ? & ?). split_and!; [done|lia|naive_solver..]. Qed.

Lemma ascending_inj a n es e1 e2 : ascending a n es → e1 ∈ es → e2 ∈ es →
  sequence e1 = sequence e2 → e1 = e2.
Proof.
  revert n. induction es as [|x es IH]; intros n; [by intros _ ?%not_elem_of_nil|].
  cbn [ascending]. intros (_ & _ & _ & Hes) H1 H2 Heq.
  apply elem_of_cons in H1 as [->|H1]; apply elem_of_cons in H2 as [->|H2]; [done|..].
  - pose proof (ascending_elem _ _ _ _ Hes H2). lia.
  - pose proof (ascending_elem _ _ _ _ Hes H1). lia.
  - by apply (IH (sequence x)).
Qed.

Lemma ascending_filter a n f es : ascending a n es → ascending a n (List.filter f es).
Proof.
  revert n. induction es as [|x es IH]; intros n; [done|]. cbn [ascending List.filter].
  intros (? & ? & ? & Hes). destruct (f x); [by split_and!; auto|].
  apply (ascending_weaken _ (sequence x)); [lia|auto].
Qed.

Lemma ascending_column a n es : column n → ascending a n es → column (last_from n es).
Proof.
  revert n. induction es as [|x es IH]; intros n; [done|]. cbn [ascending]. rewrite last_from_cons.
  intros _ (_ & _ & Hc & Hes). by apply IH.
Qed.

Lemma from_all a n k es : ascending a n es → k <= n + 1 → from k es = es.
Proof.
  intros Hes Hk. unfold from. apply List.forallb_filter_id, List.forallb_forall.
  intros e He%list_elem_of_In. pose proof (ascending_elem _ _ _ _ Hes He). apply Z.leb_le. lia.
Qed.
Lemma from_none a n k es : ascending a n es → last_from n es < k → from k es = [].
Proof.
  intros Hes Hk. destruct (from k es) as [|e l] eqn:E; [done|exfalso].
  assert (e ∈ from k es) as [He Hb]%elem_of_filterb by (rewrite E; constructor).
  pose proof (ascending_elem _ _ _ _ Hes He). apply Z.leb_le in Hb. lia.
Qed.
Lemma from_app k es es' : from k (es ++ es') = from k es ++ from k es'.
Proof. apply filterb_app. Qed.

#[export] Hint Resolve ascending_filter ascending_column : plex.

(** ** The tables of SQLite discharge the contract *)

Section sqlite_laws.
Context (now_ms : Z) (unique_violation pool_timed_out : string).
#[local] Existing Instance Sql.before_dec.
#[local] Instance sqlite_storage : JournalStorage SqliteJournalStorage :=
  Sql.sqlite now_ms unique_violation pool_timed_out.

#[local] Instance before_total : Total Sql.before.
Proof. intros x y. unfold Sql.before. lia. Qed.
#[local] Instance before_trans : Transitive Sql.before.
Proof. intros x y z. unfold Sql.before. lia. Qed.

Lemma ascending_before a n es : ascending a n es → StronglySorted Sql.before es.
Proof.
  revert n. induction es as [|x es IH]; intros n; [constructor|]. cbn [ascending].
  intros (_ & _ & Hc & Hes). constructor; [eauto|]. apply Forall_forall. intros y Hy.
  destruct (ascending_elem _ _ _ _ Hes Hy) as (_ & ? & _ & ?).
  unfold Sql.before. rewrite !as_i64_column by done. lia.
Qed.

Lemma ordered_perm a n es es' : es ≡ₚ es' → ascending a n es' → Sql.ordered es = es'.
Proof.
  intros Hp Hes. assert (Sql.ordered es ≡ₚ es') as Hp' by (by unfold Sql.ordered; rewrite merge_sort_Permutation).
  apply (StronglySorted_unique_strong Sql.before); [|by apply (StronglySorted_merge_sort _)|by eapply ascending_before|done].
  intros e1 e2 H1 H2. rewrite Hp' in H1. unfold Sql.before.
  destruct (ascending_elem _ _ _ _ Hes H1) as (_ & _ & _ & ?).
  destruct (ascending_elem _ _ _ _ Hes H2) as (_ & _ & _ & ?).
  rewrite !as_i64_column by done. intros ??. eapply ascending_inj; [done..|lia].
Qed.

Definition sql_entries (a : string) (t : SqliteJournalStorage) : list JournalEntry :=
  Sql.ordered (Sql.of_actor a (journal_entries t)).
Definition sql_latest (a : string) (t : SqliteJournalStorage) : option Checkpoint :=
  Sql.newest a (checkpoints t).
Definition sql_used (t : SqliteJournalStorage) : gset string :=
  list_to_set (id <$> journal_entries t).
Definition sql_sane (t : SqliteJournalStorage) : Prop :=
  (∀ a, ascending a 0 (sql_entries a t)) ∧ Forall (λ c, column (cp_sequence c)) (checkpoints t).

Lemma of_actor_batch a b n es : ascending b n es →
  Sql.of_actor a es = if decide (a = b) then es else [].
Proof.
  revert n. induction es as [|e es IH]; intros n; [by case_decide|]. cbn [ascending].
  intros (Ha & _ & _ & Hes). unfold Sql.of_actor. cbn [List.filter]. fold (Sql.of_actor a es).
  rewrite (IH _ Hes), Ha. case_bool_decide; case_decide; congruence.
Qed.

Lemma ordered_app a b rows es : ascending a 0 (Sql.ordered (Sql.of_actor a rows)) →
  ascending b (last_sequence (Sql.ordered (Sql.of_actor b rows))) es →
  Sql.ordered (Sql.of_actor a (rows ++ es)) =
    Sql.ordered (Sql.of_actor a rows) ++ (if decide (a = b) then es else []) ∧
  ascending a 0 (Sql.ordered (Sql.of_actor a (rows ++ es))).
Proof.
  intros Ha Hes. assert (ascending a 0 (Sql.ordered (Sql.of_actor a rows) ++
    (if decide (a = b) then es else []))) as Happ.
  { apply ascending_app. split; [done|]. case_decide; [by subst|done]. }
  assert (Sql.ordered (Sql.of_actor a (rows ++ es)) = Sql.ordered (Sql.of_actor a rows) ++
    (if decide (a = b) then es else [])) as ->; [|done].
  apply (ordered_perm a 0); [|done]. unfold Sql.of_actor at 1. rewrite filterb_app.
  fold (Sql.of_actor a rows) (Sql.of_actor a es). rewrite (of_actor_batch _ _ _ _ Hes).
  apply Permutation_app_tail. unfold Sql.ordered. by rewrite merge_sort_Permutation.
Qed.

(** A new row violates no constraint when its identifier is new and it follows its actor's entries. *)
Lemma insert_row_fresh e rows : ascending (actor_id e) 0 (Sql.ordered (Sql.of_actor (actor_id e) rows)) →
  last_sequence (Sql.ordered (Sql.of_actor (actor_id e) rows)) < sequence e → column (sequence e) →
  id e ∉ id <$> rows → Sql.insert_row e rows = Some (rows ++ [e]).
Proof.
  intros Ha Hlt Hc Hid. unfold Sql.insert_row. case_match eqn:E; [exfalso|done].
  apply existsb_exists in E as (e' & He' & Hb). apply list_elem_of_In in He'.
  apply orb_true_iff in Hb as [Hb|Hb].
  - apply bool_decide_eq_true in Hb. apply Hid, list_elem_of_fmap. by exists e'.
  - apply andb_true_iff in Hb as [Hact Hseq%Z.eqb_eq]. apply bool_decide_eq_true in Hact.
    assert (e' ∈ Sql.ordered (Sql.of_actor (actor_id e) rows)) as Hin.
    { unfold Sql.ordered. rewrite merge_sort_Permutation. apply elem_of_filterb.
      by rewrite bool_decide_eq_true. }
    destruct (ascending_elem _ _ _ _ Ha Hin) as (_ & _ & ? & ?).
    rewrite !as_i64_column in Hseq by done. unfold last_sequence in *. lia.
Qed.

Lemma batch_loop_ascending a batch rows first last t :
  ascending a 0 (Sql.ordered (Sql.of_actor a rows)) →
  ascending a (last_sequence (Sql.ordered (Sql.of_actor a rows))) batch →
  NoDup (id <$> batch) → Forall (λ e, id e ∉ id <$> rows) batch →
  ∃ t' r, Sql.batch_loop unique_violation pool_timed_out batch rows first last t =
      (t', Ok (rows ++ batch, r)) ∧
    journal_entries t' = journal_entries t ∧ checkpoints t' = checkpoints t.
Proof.
  revert rows first last t. induction batch as [|e batch IH]; intros rows first last t Ha Hes Hnd Hid.
  { exists t. eexists. by rewrite app_nil_r. }
  cbn [ascending fmap list_fmap] in *. destruct Hes as (<- & Hlt & Hc & Hes).
  apply NoDup_cons in Hnd as [Hne Hnd]. apply Forall_cons in Hid as [He Hid].
  assert (0 <= last_sequence (Sql.ordered (Sql.of_actor (actor_id e) rows)))
    by (apply (ascending_last _ _ _ Ha)).
  cbn [Sql.batch_loop]. destruct (Z.eqb_spec (sequence e) 0) as [|_]; [lia|].
  assert (with_sequence (sequence e) e = e) as -> by (by destruct e).
  rewrite insert_row_fresh by done.
  destruct (ordered_app (actor_id e) (actor_id e) rows [e] Ha) as [Heq Ha']; [done|].
  rewrite decide_True in Heq by done.
  destruct (IH (rows ++ [e]) (Some (default (sequence e) first)) (sequence e)
    (Sql.cache (actor_id e) (u64_add (sequence e) 1) t)) as (t' & r & -> & ? & ?).
  - done.
  - rewrite Heq. unfold last_sequence in *. by rewrite last_from_app.
  - done.
  - rewrite Forall_forall in *. intros x Hx. specialize (Hid x Hx). rewrite fmap_app.
    intros [?|Hin]%elem_of_app; [done|]. apply Hne. cbn in Hin. apply list_elem_of_singleton in Hin.
    rewrite <- Hin. apply list_elem_of_fmap. by exists x.
  - exists t', r. by rewrite <- app_assoc.
Qed.

Lemma elem_of_snoc {A} (x y : A) l : x ∈ l ++ [y] ↔ x ∈ l ∨ x = y.
Proof. by rewrite elem_of_app, list_elem_of_singleton. Qed.

Lemma newest_spec a cs : match Sql.newest a cs with
  | Some c => c ∈ cs ∧ cp_actor_id c = a ∧
      ∀ c', c' ∈ cs → cp_actor_id c' = a → as_i64 (cp_sequence c') <= as_i64 (cp_sequence c)
  | None => ∀ c', c' ∈ cs → cp_actor_id c' ≠ a
  end.
Proof.
  unfold Sql.newest. induction cs as [|c cs IH] using rev_ind; [by intros ? ?%not_elem_of_nil|].
  rewrite filterb_app, foldl_app. cbn [List.filter]. set (acc := foldl _ _ _) in *.
  case_bool_decide as Hc; cbn [foldl].
  - destruct acc as [x|]; cbn [Sql.newer].
    + destruct IH as (Hx & Hax & Hmax). destruct (Z.leb_spec (as_i64 (cp_sequence x)) (as_i64 (cp_sequence c))).
      * split_and!; [set_solver|done|]. intros c' [Hc'| ->]%elem_of_snoc Ha; [|done].
        specialize (Hmax _ Hc' Ha). lia.
      * split_and!; [set_solver|done|]. intros c' [Hc'| ->]%elem_of_snoc Ha; [auto|lia].
    + split_and!; [set_solver|done|]. intros c' [Hc'| ->]%elem_of_snoc Ha; [|done].
      by apply IH in Hc'.
  - destruct acc as [x|].
    + destruct IH as (Hx & Hax & Hmax). split_and!; [set_solver|done|].
      intros c' [Hc'| ->]%elem_of_snoc Ha; [auto|done].
    + intros c' [Hc'| ->]%elem_of_snoc; [auto|done].
Qed.

Lemma newest_save a c t : Forall (λ c, column (cp_sequence c)) (checkpoints t) → column (cp_sequence c) →
  (∀ c', sql_latest (cp_actor_id c) t = Some c' → cp_sequence c' <= cp_sequence c) →
  Sql.newest a (List.filter (λ c', negb (Sql.same_key c c')) (checkpoints t) ++ [Sql.stored now_ms c]) =
    if decide (a = cp_actor_id c) then Some (Sql.stored now_ms c) else Sql.newest a (checkpoints t).
Proof.
  intros Hcol Hc Hle. unfold Sql.newest at 1. rewrite filterb_app, foldl_app.
  fold (Sql.newest a (List.filter (λ c', negb (Sql.same_key c c')) (checkpoints t))).
  cbn [List.filter Sql.stored with_timestamp cp_actor_id]. case_decide as Ha.
  - subst a. rewrite bool_decide_true by done. cbn [foldl].
    pose proof (newest_spec (cp_actor_id c) (List.filter (λ c', negb (Sql.same_key c c')) (checkpoints t))) as Hn.
    destruct (Sql.newest _ _) as [x|]; [|done]. destruct Hn as (Hx & Hax & _). apply elem_of_filterb in Hx as [Hx _].
    cbn [Sql.newer Sql.stored with_timestamp cp_sequence]. rewrite Forall_forall in Hcol.
    rewrite (proj2 (Z.leb_le _ _)); [done|]. pose proof (newest_spec (cp_actor_id c) (checkpoints t)) as Hn.
    unfold sql_latest in Hle. destruct (Sql.newest _ (checkpoints t)) as [y|] eqn:Hy.
    + destruct Hn as (Hyin & _ & Hmax). specialize (Hmax _ Hx Hax). specialize (Hle _ eq_refl).
      rewrite (as_i64_column (cp_sequence y)), (as_i64_column (cp_sequence c)) in * by auto. lia.
    + by destruct (Hn _ Hx).
  - rewrite bool_decide_false by congruence. cbn [foldl]. unfold Sql.newest. f_equal.
    rewrite filter_filter. apply filter_ext_in. intros c' _. unfold Sql.same_key.
    destruct (bool_decide_reflect (cp_actor_id c' = a)) as [H1|_]; [|by rewrite andb_false_r].
    by rewrite (bool_decide_false (cp_actor_id c = _)) by congruence.
Qed.

Lemma sane_truncated a f t : sql_sane t →
  let t' := Sql.set_entries (List.filter f (journal_entries t)) t in
  sql_entries a t' = List.filter f (sql_entries a t) ∧ ascending a 0 (sql_entries a t').
Proof.
  intros [Ha _]. assert (ascending a 0 (List.filter f (sql_entries a t))) as Hf by eauto with plex.
  assert (sql_entries a (Sql.set_entries (List.filter f (journal_entries t)) t) =
    List.filter f (sql_entries a t)) as Heq; [|by cbv zeta; rewrite Heq].
  apply (ordered_perm a 0); [|done]. cbn [Sql.set_entries journal_entries]. unfold sql_entries, Sql.ordered.
  rewrite merge_sort_Permutation. unfold Sql.of_actor. rewrite !filter_filter.
  erewrite filter_ext_in; [done|]. intros x _. apply andb_comm.
Qed.

Lemma sql_used_app t es rows : journal_entries t = rows ++ es →
  sql_used t = list_to_set (id <$> es) ∪ list_to_set (id <$> rows).
Proof. intros H. unfold sql_used. rewrite H, fmap_app, list_to_set_app_L. set_solver. Qed.

Lemma sql_replay_law a n t : sql_sane t → column n →
  replay_from a n t = Ok (from n (sql_entries a t)).
Proof.
  intros [Ha _] Hn. cbn. unfold Sql.sql_replay_from, from. f_equal. apply filter_ext_in.
  intros e He. destruct (ascending_elem _ _ _ _ (Ha a) He) as (_ & _ & _ & ?).
  by rewrite !as_i64_column.
Qed.

Lemma sql_append_law e t : sql_sane t →
  ascending (actor_id e) (last_sequence (sql_entries (actor_id e) t)) [e] → id e ∉ sql_used t →
  ∃ t', append_entry e t = (t', Ok (sequence e)) ∧ sql_sane t' ∧
    (∀ a, sql_entries a t' = sql_entries a t ++ if decide (a = actor_id e) then [e] else []) ∧
    (∀ a, sql_latest a t' = sql_latest a t) ∧ sql_used t' = {[id e]} ∪ sql_used t.
Proof.
  intros [Ha Hcs] Hes Hid. pose proof Hes as (_ & Hlt & Hc & _).
  pose proof (ascending_last _ _ _ (Ha (actor_id e))). unfold last_sequence, sql_entries in *.
  cbn. unfold Sql.sql_append_entry. destruct (Z.eqb_spec (sequence e) 0) as [|_]; [lia|].
  cbn [Sql.cache journal_entries].
  rewrite insert_row_fresh by (done || (unfold sql_used in Hid; by rewrite elem_of_list_to_set in Hid)).
  eexists. split; [done|]. split; [|split; [|split]].
  - split; [|done]. intros a. by apply (ordered_app a (actor_id e)).
  - intros a. by apply (ordered_app a (actor_id e)).
  - done.
  - erewrite sql_used_app by done. cbn. set_solver.
Qed.

Lemma sql_append_batch_law a es t : sql_sane t → es ≠ [] →
  ascending a (last_sequence (sql_entries a t)) es → NoDup (id <$> es) →
  Forall (λ e, id e ∉ sql_used t) es →
  ∃ t' r, append_batch es t = (t', Ok r) ∧ sql_sane t' ∧
    (∀ a', sql_entries a' t' = sql_entries a' t ++ if decide (a' = a) then es else []) ∧
    (∀ a', sql_latest a' t' = sql_latest a' t) ∧
    sql_used t' = list_to_set (id <$> es) ∪ sql_used t.
Proof.
  intros [Ha Hcs] Hne Hes Hnd Hid. cbn. unfold Sql.sql_append_batch.
  destruct es as [|e es]; [done|]. unfold sql_used in Hid.
  destruct (batch_loop_ascending a (e :: es) (journal_entries t) None 0 t) as (t' & [f l] & -> & _ & Hcp);
    [by apply Ha|done..| |].
  { eapply Forall_impl; [exact Hid|]. intros x. cbv beta. by rewrite elem_of_list_to_set. }
  do 2 eexists. split; [done|]. split; [|split; [|split]].
  - split; [|by cbn; rewrite Hcp]. intros a'. apply (ordered_app a' a); [apply Ha|done].
  - intros a'. apply (ordered_app a' a); [apply Ha|done].
  - intros a'. unfold sql_latest. cbn. by rewrite Hcp.
  - by apply sql_used_app.
Qed.

Lemma sql_save_law c t : sql_sane t → column (cp_sequence c) →
  (∀ c', sql_latest (cp_actor_id c) t = Some c' → cp_sequence c' <= cp_sequence c) →
  ∃ t' ts, save_checkpoint c t = (t', Ok ()) ∧ sql_sane t' ∧
    (∀ a, sql_entries a t' = sql_entries a t) ∧
    (∀ a, sql_latest a t' =
      if decide (a = cp_actor_id c) then Some (with_timestamp ts c) else sql_latest a t) ∧
    sql_used t' = sql_used t.
Proof.
  intros [Ha Hcs] Hc Hle. cbn. unfold Sql.sql_save_checkpoint. do 2 eexists. split; [done|].
  split; [split; [done|]|split; [done|split; [|done]]].
  - apply Forall_app. split; [|by apply Forall_singleton]. rewrite Forall_forall in *.
    intros c' [Hin _]%elem_of_filterb. auto.
  - intros a. by apply newest_save.
Qed.

Lemma sql_truncate_law a n t : sql_sane t → column n →
  ∃ t' k, truncate_to a n t = (t', Ok k) ∧ sql_sane t' ∧
    (∀ a', sql_entries a' t' =
      if decide (a' = a) then from (n + 1) (sql_entries a t) else sql_entries a' t) ∧
    (∀ a', sql_latest a' t' = sql_latest a' t) ∧ sql_used t' ⊆ sql_used t.
Proof.
  intros Hs Hn. cbn. unfold Sql.sql_truncate_to. do 2 eexists. split; [done|].
  split; [|split; [|split; [done|]]].
  - split; [|apply Hs]. intros a'. by apply sane_truncated.
  - intros a'. rewrite (proj1 (sane_truncated _ _ _ Hs)). destruct Hs as [Ha _].
    case_decide as Heq; [subst a'; unfold from|].
    + apply filter_ext_in. intros e He. destruct (ascending_elem _ _ _ _ (Ha a) He) as (-> & _ & _ & ?).
      rewrite bool_decide_true, !as_i64_column by done. cbn.
      destruct (Z.leb_spec (sequence e) n), (Z.leb_spec (n + 1) (sequence e)); (done || lia).
    + apply List.forallb_filter_id, List.forallb_forall. intros e He%list_elem_of_In.
      destruct (ascending_elem _ _ _ _ (Ha a') He) as (-> & _). by rewrite bool_decide_false.
  - unfold sql_used. cbn. intros x. rewrite !elem_of_list_to_set, !list_elem_of_fmap.
    intros (e & -> & [He _]%elem_of_filterb). by exists e.
Qed.

Lemma sql_sane_empty : sql_sane (mkSqlite [] [] ∅).
Proof. split; [|constructor]. intros a. by unfold sql_entries, Sql.ordered. Qed.

#[export] Instance sqlite_laws : JournalLaws SqliteJournalStorage.
Proof.
  refine {| sane := sql_sane; entries := sql_entries; latest := sql_latest; used := sql_used |}.
  - by intros a s [Ha _].
  - exact sql_replay_law.
  - done.
  - exact sql_append_law.
  - exact sql_append_batch_law.
  - exact sql_save_law.
  - exact sql_truncate_law.
  - intros s Hs. by exists s.
Defined.

(** A batch that leaves the choice of its numbers to a storage that has not yet seen the actor fails:
    the query for the last number waits for the connection that the transaction holds. *)
Theorem cold_batch_fails e batch t : sequence e = 0 → sequences t !! actor_id e = None →
  append_batch (e :: batch) t = (t, Err (Storage pool_timed_out)).
Proof. intros H0 Hc. cbn. rewrite H0. cbn. by rewrite Hc. Qed.

End sqlite_laws.

(** ** The execution context *)

Lemma load_side_effects_lookup es c i :
  side_effect_cache (Ctx.load_side_effects es c) !! i =
    match last (List.filter (λ e, bool_decide (side_effect_id e = i)) es) with
    | Some e => Some (output_data e)
    | None => side_effect_cache c !! i
    end.
Proof.
  unfold Ctx.load_side_effects. induction es as [|e es IH] using rev_ind; [done|].
  rewrite foldl_app, filterb_app. cbn [foldl Ctx.cache_output side_effect_cache List.filter].
  case_bool_decide as Hi.
  - by rewrite <- Hi, lookup_insert_eq, last_snoc.
  - by rewrite lookup_insert_ne, app_nil_r.
Qed.

Lemma load_side_effects_mode es c : Ctx.mode (Ctx.load_side_effects es c) = Ctx.mode c.
Proof. unfold Ctx.load_side_effects. revert c. induction es; [done|]. intros c. cbn. by rewrite IHes. Qed.

Section effects.
Context {W : Type}.

(** An actor's run of side effects: identifier, type, executor. *)
Fixpoint run_effects (effs : list (string * string * (W → W * result string (list Z)))) (secs : Z)
    (c : ExecutionContextImpl) (w : W) : ExecutionContextImpl * W * list (result JournalError (list Z)) :=
  match effs with
  | [] => (c, w, [])
  | (i, ty, ex) :: effs =>
      let '(c, w, r) := Ctx.record_side_effect_raw i ty ex secs c w in
      let '(c, w, rs) := run_effects effs secs c w in
      (c, w, r :: rs)
  end.

Lemma run_effects_normal effs secs c w c' w' rs : Ctx.mode c = ExecutionModeNormal →
  run_effects effs secs c w = (c', w', rs) → Forall (λ r, is_ok r = true) rs →
  ∃ es, side_effects c' = side_effects c ++ es ∧ Ctx.mode c' = ExecutionModeNormal ∧
    Forall2 (λ x e, x.1.1 = side_effect_id e) effs es ∧
    Forall2 (λ e r, r = Ok (output_data e)) es rs.
Proof.
  revert c w c' w' rs. induction effs as [|[[i ty] ex] effs IH]; intros c w c' w' rs Hm Hrun Hok; cbn in Hrun.
  { simplify_eq. exists []. rewrite app_nil_r. by split_and!; [..|constructor|constructor]. }
  unfold Ctx.record_side_effect_raw in Hrun. rewrite Hm in Hrun.
  destruct (ex w) as [w1 [out|e]].
  - set (c1 := Ctx.executed i ty out secs c) in Hrun.
    destruct (run_effects effs secs c1 w1) as [[c2 w2] rs2] eqn:E. simplify_eq.
    apply Forall_cons in Hok as [_ Hok].
    destruct (IH c1 _ _ _ _ Hm E Hok) as (es & Hes & Hm' & H1 & H2).
    eexists (_ :: es). split; [by rewrite Hes; cbn; rewrite <- app_assoc|].
    split; [done|]. split; constructor; (done || by cbn).
  - destruct (run_effects effs secs c w1) as [[c2 w2] rs2]. simplify_eq.
    by apply Forall_cons in Hok as [? _].
Qed.

Lemma run_effects_replay effs es rs secs c w : Ctx.mode c = ExecutionModeReplay →
  Forall2 (λ x e, x.1.1 = side_effect_id e) effs es → Forall2 (λ e r, r = Ok (output_data e)) es rs →
  Forall (λ e, side_effect_cache c !! side_effect_id e = Some (output_data e)) es →
  run_effects effs secs c w = (c, w, rs).
Proof.
  intros Hm Heffs. revert rs. induction Heffs as [|[[i ty] ex] e effs es Hi _ IH]; intros rs Hrs Hc.
  - by inversion Hrs.
  - inversion Hrs as [|? r ? rs' -> Hrs']; subst. apply Forall_cons in Hc as [Hc1 Hc].
    cbn in Hi |- *. subst i. unfold Ctx.record_side_effect_raw. rewrite Hm. unfold Ctx.replayed.
    rewrite Hc1. by rewrite (IH _ Hrs' Hc).
Qed.

Lemma last_filter_NoDup (es : list SideEffectEntry) e : NoDup (side_effect_id <$> es) → e ∈ es →
  last (List.filter (λ e', bool_decide (side_effect_id e' = side_effect_id e)) es) = Some e.
Proof.
  induction es as [|x es IH] using rev_ind; [by intros _ ?%not_elem_of_nil|].
  rewrite fmap_app, filterb_app, NoDup_app. cbn [fmap list_fmap List.filter].
  intros (Hnd & Hx & _) [He| ->]%elem_of_snoc.
  - rewrite bool_decide_false, app_nil_r; [auto|]. intros Heq. apply (Hx (side_effect_id e)).
    + apply list_elem_of_fmap. by exists e.
    + rewrite Heq. constructor.
  - by rewrite bool_decide_true, last_snoc.
Qed.

(** Deterministic replay of side effects: the outputs that a run recorded in normal mode (under
    distinct identifiers) are returned again in the same order by a run in replay mode over the
    recorded entries, whatever the executors and the state of the outside world, which a replay does
    not touch. *)
Theorem recorded_effects_replay (effs effs' : list (string * string * (W → W * result string (list Z))))
    secs secs' a w w' c1 w1 rs :
  effs.*1 = effs'.*1 → NoDup effs.*1.*1 →
  run_effects effs secs (Ctx.new_context a ExecutionModeNormal) w = (c1, w1, rs) →
  Forall (λ r, is_ok r = true) rs →
  let c := Ctx.load_side_effects (Ctx.take_side_effects c1).2 (Ctx.new_context a ExecutionModeReplay) in
  run_effects effs' secs' c w' = (c, w', rs).
Proof.
  intros Heq Hnd Hrun Hok c.
  destruct (run_effects_normal _ _ (Ctx.new_context a ExecutionModeNormal) _ _ _ _ eq_refl Hrun Hok)
    as (es & Hes & _ & H1 & H2). cbn in Hes.
  assert (effs.*1.*1 = side_effect_id <$> es) as Hids.
  { clear -H1. induction H1 as [|[[??]?] ? ? ? Hx ? IH]; [done|]. cbn in *. by rewrite Hx, IH. }
  apply (run_effects_replay _ es).
  - unfold c. by rewrite load_side_effects_mode.
  - rewrite Heq in Hids. clear -Hids. revert es Hids.
    induction effs' as [|[[i ty] ex] l IH]; intros [|e es]; cbn; intros ?; simplify_eq; constructor; auto.
  - done.
  - apply Forall_forall. intros e He. unfold c. cbn [Ctx.take_side_effects snd]. rewrite Hes.
    rewrite load_side_effects_lookup, last_filter_NoDup by (done || by rewrite <- Hids). done.
Qed.

End effects.

(** ** The checkpoint manager *)

Section manager_laws.
Context (zstd snappy : option (list Z → result string (list Z))).
Context {S : Type} `{!JournalStorage S, !JournalLaws S}.

(** Whether [maybe_checkpoint] is to save a checkpoint. *)
Definition due (m : CheckpointManager) (a : string) (n : Z) (k : Clock) : bool :=
  let st := default (mkActorState 0 (instant k)) (actor_state m !! a) in
  enabled (cm_config m) &&
  (Ckpt.entry_interval_reached m st n || Ckpt.time_interval_reached m st k).

Definition uncompressed (m : CheckpointManager) : Prop :=
  compression (cm_config m) = 0 ∨ compression (cm_config m) = 1.
(** The checkpoint that a manager without compression saves, up to the stored form of its time. *)
Definition checkpoint_of (m : CheckpointManager) (a : string) (n : Z) (t : option Timestamp)
    (data : list Z) : Checkpoint :=
  mkCheckpoint a n t data (compression (cm_config m)) (cc_metadata (cm_config m)) (schema_version m).
Definition same_setup (m m' : CheckpointManager) : Prop :=
  cm_config m' = cm_config m ∧ schema_version m' = schema_version m.

Lemma create_checkpoint_uncompressed m a n data k : uncompressed m →
  Ckpt.create_checkpoint zstd snappy a n data k m =
    Ok (checkpoint_of m a n (Some (mkTimestamp (unix_secs k) 0)) data).
Proof.
  unfold uncompressed, checkpoint_of, Ckpt.create_checkpoint, Ckpt.compress_state_data.
  by intros [Hc|Hc]; rewrite Hc.
Qed.

(** What [maybe_checkpoint] does when the storage does not fail: nothing unless a checkpoint is due;
    else the checkpoint is the latest and the entries before it are dropped if so configured. *)
Lemma maybe_checkpoint_outcome m a n data k s : sane s → column n → uncompressed m →
  (∀ c, latest a s = Some c → cp_sequence c <= n) →
  ∃ m' s' t, Ckpt.maybe_checkpoint zstd snappy a n data k m s =
      (m', s', Ok (if due m a n k then Some n else None)) ∧
    same_setup m m' ∧ sane s' ∧ used s' ⊆ used s ∧
    if due m a n k then
      latest a s' = Some (checkpoint_of m a n t data) ∧ Ckpt.last_checkpoint_sequence a m' = n ∧
      entries a s' = if auto_truncate (cm_config m) && (0 <? n) then from n (entries a s) else entries a s
    else s' = s.
Proof.
  intros Hs Hn Hc Hle. unfold Ckpt.maybe_checkpoint, due.
  destruct (enabled (cm_config m)) eqn:He; cbn [negb andb]; [|by exists m, s, None].
  set (st := default _ _). set (m1 := Ckpt.set_actor_state _ m).
  assert (Ckpt.entry_interval_reached m1 st n = Ckpt.entry_interval_reached m st n) as -> by done.
  assert (Ckpt.time_interval_reached m1 st k = Ckpt.time_interval_reached m st k) as -> by done.
  rewrite <- negb_orb. destruct (_ || _); cbn [negb]; [|by exists m1, s, None].
  rewrite create_checkpoint_uncompressed by done.
  destruct (save_checkpoint_spec (checkpoint_of m1 a n (Some (mkTimestamp (unix_secs k) 0)) data) s)
    as (s1 & t & -> & Hs1 & Hes & Hl & Hu); [done..|].
  cbn [checkpoint_of cp_actor_id with_timestamp] in Hl. specialize (Hl a). rewrite decide_True in Hl by done.
  set (m2 := Ckpt.set_stats _ _).
  assert (Ckpt.last_checkpoint_sequence a m2 = n) as Hlast.
  { unfold Ckpt.last_checkpoint_sequence, m2, m1. cbn. by rewrite lookup_alter_eq, lookup_insert_eq. }
  assert (cm_config m2 = cm_config m) as Hcfg by done. rewrite Hcfg.
  destruct (auto_truncate (cm_config m) && (0 <? n)) eqn:Htr.
  - apply andb_true_iff in Htr as [_ Hpos%Z.ltb_lt].
    destruct (truncate_to_spec a (n - 1) s1 Hs1) as (s2 & k2 & -> & Hs2 & Hes2 & Hl2 & Hu2);
      [unfold column in *; lia|].
    do 2 eexists. exists t. split; [done|]. split; [done|]. split; [done|]. split; [by rewrite <- Hu|].
    rewrite Hl2, Hl, Hes2, decide_True, Hes by done. by replace (n - 1 + 1) with n by lia.
  - exists m2, s1, t. split; [done|]. split; [done|]. split; [done|]. split; [by rewrite Hu|].
    by rewrite Hl, Hes.
Qed.

Lemma save_checkpoint_now_outcome m a n data k s : sane s → column n → uncompressed m →
  (∀ c, latest a s = Some c → cp_sequence c <= n) →
  ∃ m' s' t, Ckpt.save_checkpoint_now zstd snappy a n data k m s = (m', s', Ok n) ∧
    same_setup m m' ∧ sane s' ∧ used s' = used s ∧ entries a s' = entries a s ∧
    latest a s' = Some (checkpoint_of m a n t data).
Proof.
  intros Hs Hn Hc Hle. unfold Ckpt.save_checkpoint_now. rewrite create_checkpoint_uncompressed by done.
  destruct (save_checkpoint_spec (checkpoint_of m a n (Some (mkTimestamp (unix_secs k) 0)) data) s)
    as (s1 & t & -> & Hs1 & Hes & Hl & Hu); [done..|].
  do 2 eexists. exists t. split; [done|]. split; [done|]. rewrite Hes, Hl, decide_True by done.
  by split_and!.
Qed.
End manager_laws.

(** ** Witnesses *)

(** A random number and a request, whose results depend on the state of the world. *)
Definition sample_effects : list (string * string * (Z → Z * result string (list Z))) :=
  [("random_1", "random", λ w, (w + 1, Ok [w])); ("http_1", "http_request", λ w, (w * 2, Ok [w; w]))]%string.
Definition sample_run := run_effects sample_effects 7 (Ctx.new_context "a" ExecutionModeNormal) 5.

Lemma sample_results : sample_run.2 = [Ok [5]; Ok [6; 6]].
Proof. reflexivity. Qed.
Lemma sample_keys : NoDup sample_effects.*1.*1.
Proof. by apply (bool_decide_unpack _). Qed.

Lemma recorded_effects_replay_witness :
  let c := Ctx.load_side_effects (Ctx.take_side_effects sample_run.1.1).2
    (Ctx.new_context "a" ExecutionModeReplay) in
  run_effects (W := Z) [("random_1", "random", λ w, (w, Err "no entropy")); ("http_1", "http_request", λ w, (w, Ok []))]%string
    9 c 0 = (c, 0, sample_run.2).
Proof.
  apply (recorded_effects_replay sample_effects _ 7 9 "a" 5 0 sample_run.1.1 sample_run.1.2 sample_run.2).
  - reflexivity.
  - exact sample_keys.
  - reflexivity.
  - rewrite sample_results. by repeat constructor.
Defined.
