(* ===== verification/Durability.v ===== *)
(** Durability: the durability facet (crates/journaling/src/durability_facet.rs, module [Df]) over the
    storage of [Journal], with the traits through which it reaches the actor (replay_handler.rs and
    state_loader.rs) and the part of the actor that drives it (crates/actor/src/mod.rs: the handlers of
    replay and checkpoints, the attachment of the facet, and the processing of a message between the
    interceptors of the facet, module [Act]).

    The state of an operation ([Cell]) is the facet, the storage, the actor ([W]) and the number of
    identifiers drawn so far; identifiers are [ulid 0], [ulid 1], and so on.  The facets of an actor
    are reduced to this one. *)
From S2P Require Import Prelude Json Journal.

#[local] Arguments String.append : simpl nomatch.

(** ** Data *)

(** The fields of [common.v1.Message] that the journal or a handler of this file reads or sets. *)
Record Message := mkMessage {
  msg_id : string;
  sender_id : string;
  receiver_id : string;
  message_type : string;
  payload : list Z;
  headers : gmap string string;
  msg_correlation_id : string
}.

Inductive FacetError :=
| NotFound (msg : string)
| ConfigurationError (msg : string)
| AlreadyAttached (msg : string)
| InvalidConfig (msg : string)
| AttachmentFailed (msg : string)
| DetachmentFailed (msg : string)
| InterceptionFailed (msg : string).
Definition FacetError_to_string (e : FacetError) : string :=
  match e with
  | NotFound m => "Facet not found: " ++ m
  | ConfigurationError m => "Configuration error: " ++ m
  | AlreadyAttached m => "Facet already attached: " ++ m
  | InvalidConfig m => "Invalid configuration: " ++ m
  | AttachmentFailed m => "Attachment failed: " ++ m
  | DetachmentFailed m => "Detachment failed: " ++ m
  | InterceptionFailed m => "Interception failed: " ++ m
  end.

Inductive InterceptResult :=
| Continue
| ReplaceArgs (args : list Z)
| ReplaceResult (result : list Z)
| ShortCircuit (result : list Z).

Inductive ErrorHandling :=
| Propagate
| Retry (max_attempts : Z)
| Default (value : list Z)
| Transform (error : string).

Record DurabilityConfig := mkDurability {
  checkpoint_interval : Z;
  checkpoint_timeout : option Duration;
  replay_on_activation : bool;
  cache_side_effects : bool;
  dc_compression : Z;
  dc_schema_version : Z
}.

(** ** The traits between the facet and the actor *)

Section traits.
Context (W : Type).

(** A handler reaches the execution context of the facet that it runs under. *)
Record ReplayHandler := mkReplayHandler {
  replay_message : Message → option ExecutionContextImpl → W → option ExecutionContextImpl * W * result string ();
  on_replay_start : W → W;
  on_replay_end : W → W
}.

Record StateLoader := mkStateLoader {
  loaded_value : Type;
  deserialize : list Z → result JournalError loaded_value;
  loader_restore_state : loaded_value → W → W * result JournalError ()
}.

Record CheckpointStateAdapter := mkAdapter {
  capture_state : W → W * result JournalError (option (list Z));
  restore_state : list Z → W → W * result JournalError bool
}.

Record DurabilityFacet := mkFacet {
  config_value : Value;
  priority : Z;
  facet_actor_id : option string;
  config : DurabilityConfig;
  checkpoint_manager : CheckpointManager;
  execution_context : option ExecutionContextImpl;
  message_sequence : Z;
  latest_checkpoint : option Checkpoint;
  pending_promises : gset string;
  resolved_promises : gmap string (result string (list Z) * Timestamp);
  replay_handler : option ReplayHandler;
  state_loader : option StateLoader;
  checkpoint_state_adapter : option CheckpointStateAdapter
}.
End traits.
Arguments mkReplayHandler {W}.
Arguments replay_message {W}.
Arguments on_replay_start {W}.
Arguments on_replay_end {W}.
Arguments deserialize {W}.
Arguments loader_restore_state {W}.
Arguments mkAdapter {W}.
Arguments capture_state {W}.
Arguments restore_state {W}.
Arguments mkFacet {W}.
Arguments config_value {W}.
Arguments priority {W}.
Arguments facet_actor_id {W}.
Arguments config {W}.
Arguments checkpoint_manager {W}.
Arguments execution_context {W}.
Arguments message_sequence {W}.
Arguments latest_checkpoint {W}.
Arguments pending_promises {W}.
Arguments resolved_promises {W}.
Arguments replay_handler {W}.
Arguments state_loader {W}.
Arguments checkpoint_state_adapter {W}.

Record Cell (W S : Type) := mkCell {
  facet : DurabilityFacet W;
  store : S;
  world : W;
  drawn : nat
}.
Arguments mkCell {W S}.
Arguments facet {W S}.
Arguments store {W S}.
Arguments world {W S}.
Arguments drawn {W S}.

Module Df.

(** *** Configuration *)

Definition parse_config (v : Value) : DurabilityConfig :=
  mkDurability
    (default 100 (as_u64 <$> (get "checkpoint_interval" v ≫= value_as_i64)))
    None
    (default true (get "replay_on_activation" v ≫= value_as_bool))
    (default true (get "cache_side_effects" v ≫= value_as_bool))
    (default 1 (((λ n, let y := wrap 32 n in if y <? 2 ^ 31 then y else y - 2 ^ 32) : Z → Z) <$>
       (get "compression" v ≫= value_as_i64)))
    (default 1 (as_u32 <$> (get "state_schema_version" v ≫= value_as_i64))).

Definition checkpoint_config (d : DurabilityConfig) : CheckpointConfig :=
  mkCheckpointConfig (0 <? checkpoint_interval d) (checkpoint_interval d) (checkpoint_timeout d)
    (dc_compression d) 2 false false ∅.

Section facet.
Context {W : Type} {S : Type} `{!JournalStorage S}.
Context (zstd snappy : option (list Z → result string (list Z))).
Context (ulid : nat → string).

#[local] Abbreviation Facet := (DurabilityFacet W).

Definition new (v : Value) (prio : Z) : Facet :=
  let d := parse_config v in
  mkFacet v prio None d
    (Ckpt.new_manager (checkpoint_config d) (if 0 <? dc_schema_version d then dc_schema_version d else 1))
    None 0 None ∅ ∅ None None None.

Definition set_actor_id (a : option string) (f : Facet) : Facet :=
  mkFacet (config_value f) (priority f) a (config f) (checkpoint_manager f) (execution_context f)
    (message_sequence f) (latest_checkpoint f) (pending_promises f) (resolved_promises f)
    (replay_handler f) (state_loader f) (checkpoint_state_adapter f).
Definition set_manager (m : CheckpointManager) (f : Facet) : Facet :=
  mkFacet (config_value f) (priority f) (facet_actor_id f) (config f) m (execution_context f)
    (message_sequence f) (latest_checkpoint f) (pending_promises f) (resolved_promises f)
    (replay_handler f) (state_loader f) (checkpoint_state_adapter f).
Definition set_context (c : option ExecutionContextImpl) (f : Facet) : Facet :=
  mkFacet (config_value f) (priority f) (facet_actor_id f) (config f) (checkpoint_manager f) c
    (message_sequence f) (latest_checkpoint f) (pending_promises f) (resolved_promises f)
    (replay_handler f) (state_loader f) (checkpoint_state_adapter f).
Definition set_sequence (n : Z) (f : Facet) : Facet :=
  mkFacet (config_value f) (priority f) (facet_actor_id f) (config f) (checkpoint_manager f)
    (execution_context f) n (latest_checkpoint f) (pending_promises f) (resolved_promises f)
    (replay_handler f) (state_loader f) (checkpoint_state_adapter f).
Definition set_latest (c : option Checkpoint) (f : Facet) : Facet :=
  mkFacet (config_value f) (priority f) (facet_actor_id f) (config f) (checkpoint_manager f)
    (execution_context f) (message_sequence f) c (pending_promises f) (resolved_promises f)
    (replay_handler f) (state_loader f) (checkpoint_state_adapter f).
Definition set_promises (p : gset string) (r : gmap string (result string (list Z) * Timestamp))
    (f : Facet) : Facet :=
  mkFacet (config_value f) (priority f) (facet_actor_id f) (config f) (checkpoint_manager f)
    (execution_context f) (message_sequence f) (latest_checkpoint f) p r
    (replay_handler f) (state_loader f) (checkpoint_state_adapter f).
Definition set_replay_handler (h : option (ReplayHandler W)) (f : Facet) : Facet :=
  mkFacet (config_value f) (priority f) (facet_actor_id f) (config f) (checkpoint_manager f)
    (execution_context f) (message_sequence f) (latest_checkpoint f) (pending_promises f)
    (resolved_promises f) h (state_loader f) (checkpoint_state_adapter f).
Definition set_state_loader (l : option (StateLoader W)) (f : Facet) : Facet :=
  mkFacet (config_value f) (priority f) (facet_actor_id f) (config f) (checkpoint_manager f)
    (execution_context f) (message_sequence f) (latest_checkpoint f) (pending_promises f)
    (resolved_promises f) (replay_handler f) l (checkpoint_state_adapter f).
Definition set_checkpoint_state_adapter (a : option (CheckpointStateAdapter W)) (f : Facet) : Facet :=
  mkFacet (config_value f) (priority f) (facet_actor_id f) (config f) (checkpoint_manager f)
    (execution_context f) (message_sequence f) (latest_checkpoint f) (pending_promises f)
    (resolved_promises f) (replay_handler f) (state_loader f) a.

(** *** The monad of the operations *)

Definition M (E A : Type) : Type := Cell W S → Cell W S * result E A.
#[local] Instance M_ret {E} : MRet (M E) := λ A a c, (c, Ok a).
#[local] Instance M_bind {E} : MBind (M E) := λ A B k m c,
  match m c with
  | (c, Ok a) => k a c
  | (c, Err e) => (c, Err e)
  end.
Definition throw {E A} (e : E) : M E A := λ c, (c, Err e).
Definition gets {E A} (f : Facet → A) : M E A := λ c, (c, Ok (f (facet c))).
Definition modify {E} (f : Facet → Facet) : M E () := λ c,
  (mkCell (f (facet c)) (store c) (world c) (drawn c), Ok ()).
Definition map_err {E E' A} (f : E → E') (m : M E A) : M E' A := λ c,
  match m c with (c, Ok a) => (c, Ok a) | (c, Err e) => (c, Err (f e)) end.
(** An operation of the storage, a reading of it, and a step of the actor. *)
Definition on_store {E A} (f : S → S * result E A) : M E A := λ c,
  let '(s, r) := f (store c) in (mkCell (facet c) s (world c) (drawn c), r).
Definition reading {E A} (f : S → result E A) : M E A := λ c, (c, f (store c)).
Definition on_world {E A} (f : W → W * result E A) : M E A := λ c,
  let '(w, r) := f (world c) in (mkCell (facet c) (store c) w (drawn c), r).
Definition fresh {E} : M E string := λ c,
  (mkCell (facet c) (store c) (world c) (Datatypes.S (drawn c)), Ok (ulid (drawn c))).
Definition next_sequence {E} : M E Z := λ c,
  let n := u64_add (message_sequence (facet c)) 1 in
  (mkCell (set_sequence n (facet c)) (store c) (world c) (drawn c), Ok n).

Definition attached_id {E} (e : E) : M E string :=
  a ← gets facet_actor_id;
  match a with Some a => mret a | None => throw e end.

(** The timestamp of a new entry: the Unix time in whole seconds. *)
Definition now (k : Clock) : option Timestamp := Some (mkTimestamp (unix_secs k) 0).

(** *** Checkpoints *)

Definition get_latest (c : Cell W S) : result JournalError (option Checkpoint) :=
  match facet_actor_id (facet c) with
  | None => Err (Serialization "Actor not attached")
  | Some a =>
      match get_latest_checkpoint a (store c) with
      | Ok cp => Ok (Some cp)
      | Err (CheckpointNotFound _) => Ok None
      | Err e => Err e
      end
  end.

Definition with_manager {A}
    (f : CheckpointManager → S → CheckpointManager * S * result JournalError A) : M JournalError A := λ c,
  let '(m, s, r) := f (checkpoint_manager (facet c)) (store c) in
  (mkCell (set_manager m (facet c)) s (world c) (drawn c), r).

(** *** Interception *)

Definition intercepted {A} : M JournalError A → M FacetError A :=
  map_err (λ e, InterceptionFailed (JournalError_to_string e)).

Definition before_method (method : string) (args : list Z) (k : Clock) : M FacetError InterceptResult :=
  a ← attached_id (InterceptionFailed "Actor ID not set");
  n ← next_sequence;
  i ← fresh;
  mid ← fresh;
  _ ← intercepted (on_store (append_entry
        (mkEntry i a n (now k) "" (Some (MessageReceived mid "" method args ∅)))));
  mret Continue.

(** The journal entries of the side effects taken from the context. *)
Fixpoint side_effect_entries (a : string) (ses : list SideEffectEntry)
    : M FacetError (list JournalEntry) :=
  match ses with
  | [] => mret []
  | se :: ses =>
      n ← next_sequence;
      i ← fresh;
      es ← side_effect_entries a ses;
      mret (mkEntry i a n (executed_at se) ""
        (Some (SideEffectExecuted (side_effect_id se) 1 (input_data se) (output_data se) "")) :: es)
  end.

Definition take_context_side_effects : M FacetError (list SideEffectEntry) :=
  c ← gets execution_context;
  match c with
  | None => mret []
  | Some c =>
      let '(c, ses) := Ctx.take_side_effects c in
      _ ← modify (set_context (Some c)); mret ses
  end.

Definition periodic_checkpoint (a : string) (k : Clock) : M FacetError InterceptResult :=
  n ← gets message_sequence;
  d ← gets config;
  if (0 <? checkpoint_interval d) && (n mod checkpoint_interval d =? 0) then
    ad ← gets checkpoint_state_adapter;
    match ad with
    | None => mret Continue
    | Some ad =>
        data ← intercepted (on_world (capture_state ad));
        match data with
        | None => mret Continue
        | Some data =>
            _ ← intercepted (with_manager (Ckpt.maybe_checkpoint zstd snappy a n data k));
            mret Continue
        end
    end
  else mret Continue.

Definition after_method (method : string) (args res : list Z) (k : Clock) : M FacetError InterceptResult :=
  a ← attached_id (InterceptionFailed "Actor ID not set");
  n ← next_sequence;
  i ← fresh;
  mid ← fresh;
  ses ← take_context_side_effects;
  es ← side_effect_entries a ses;
  _ ← intercepted (on_store (append_batch
        (mkEntry i a n (now k) "" (Some (MessageProcessed mid 1 "" res)) :: es)));
  periodic_checkpoint a k.

Definition on_error (method error : string) : ErrorHandling := Propagate.

(** *** Replay *)

(** The side effects among the entries of a journal. *)
Definition recorded_effects (es : list JournalEntry) : list SideEffectEntry :=
  omap (λ e, match entry e with
    | Some (SideEffectExecuted i ty request response _) =>
        Some (mkSideEffect i (pretty.pretty ty) request response (timestamp e) ∅)
    | _ => None
    end) es.

(** [message_sequence] becomes the number of the last of all the entries. *)
Definition restore_sequence (a : string) (ctx : ExecutionContextImpl)
    : M JournalError ExecutionContextImpl :=
  all ← reading (replay_from a 0);
  match last all with
  | Some e => _ ← modify (set_sequence (sequence e)); mret (Ctx.set_sequence (sequence e) ctx)
  | None => mret ctx
  end.

Definition replay_journal (a : string) (n : Z) : M JournalError ExecutionContextImpl :=
  es ← reading (replay_from a n);
  restore_sequence a
    (Ctx.load_side_effects (recorded_effects es) (Ctx.new_context a ExecutionModeReplay)).

(** The message that a [MessageReceived] entry stands for. *)
Definition message_of (a : string) (e : JournalEntry) : option Message :=
  match entry e with
  | Some (MessageReceived mid sender ty args md) =>
      Some (mkMessage mid sender a ty args md (correlation_id e))
  | _ => None
  end.

Definition run_handler (h : ReplayHandler W) (m : Message) : M string () := λ c,
  let '(ctx, w, r) := replay_message h m (execution_context (facet c)) (world c) in
  (mkCell (set_context ctx (facet c)) (store c) w (drawn c), r).

Fixpoint replay_messages (h : ReplayHandler W) (a : string) (es : list JournalEntry)
    : M JournalError () :=
  match es with
  | [] => mret ()
  | e :: es =>
      match message_of a e with
      | None => replay_messages h a es
      | Some m => λ c,
          match run_handler h m c with
          | (c, Ok _) => replay_messages h a es c
          | (c, Err e) =>
              (mkCell (facet c) (store c) (on_replay_end h (world c)) (drawn c),
               Err (Replay ("Replay failed: " ++ e)%string))
          end
      end
  end.

Definition replay_journal_with_handler (a : string) (n : Z) : M JournalError ExecutionContextImpl :=
  es ← reading (replay_from a n);
  let ctx := Ctx.load_side_effects (recorded_effects es) (Ctx.new_context a ExecutionModeReplay) in
  h ← gets replay_handler;
  _ ← match h with
      | Some h =>
          _ ← on_world (λ w, (on_replay_start h w, Ok ()));
          _ ← replay_messages h a es;
          on_world (λ w, (on_replay_end h w, Ok ()))
      | None => mret ()
      end;
  restore_sequence a ctx.

(** *** Promises *)

Definition create_promise (p : string) (timeout : option Duration) (k : Clock) : M JournalError () :=
  a ← attached_id (Serialization "Actor not attached");
  pending ← gets pending_promises;
  resolved ← gets resolved_promises;
  if bool_decide (p ∈ pending) || bool_decide (is_Some (resolved !! p))
  then throw (Serialization ("Promise " ++ p ++ " already exists")%string) else
  n ← next_sequence;
  i ← fresh;
  _ ← on_store (append_entry (mkEntry i a n (now k) "" (Some (PromiseCreated p timeout))));
  modify (λ f, set_promises ({[p]} ∪ pending_promises f) (resolved_promises f) f).

Definition resolve_promise (p : string) (r : result string (list Z)) (k : Clock) : M JournalError () :=
  a ← attached_id (Serialization "Actor not attached");
  pending ← gets pending_promises;
  if negb (bool_decide (p ∈ pending))
  then throw (Serialization ("Promise " ++ p ++ " not found or already resolved")%string) else
  n ← next_sequence;
  i ← fresh;
  let '(bytes, err) := match r with Ok bytes => (bytes, EmptyString) | Err e => ([], e) end in
  let e := mkEntry i a n (now k) "" (Some (PromiseResolved p bytes err)) in
  _ ← on_store (append_entry e);
  modify (λ f, set_promises (pending_promises f ∖ {[p]})
    (<[p := (r, default (mkTimestamp 0 0) (timestamp e))]> (resolved_promises f)) f).

Definition get_pending_promises (f : Facet) : list string := elements (pending_promises f).
Definition get_promise_result (p : string) (f : Facet) : option (result string (list Z) * Timestamp) :=
  resolved_promises f !! p.

(** One entry of the journal, as [load_promises_from_journal] reads it. *)
Definition load_promise (st : gset string * gmap string (result string (list Z) * Timestamp))
    (e : JournalEntry) : gset string * gmap string (result string (list Z) * Timestamp) :=
  let '(pending, resolved) := st in
  match entry e with
  | Some (PromiseCreated p _) =>
      match resolved !! p with
      | Some _ => (pending, resolved)
      | None => ({[p]} ∪ pending, resolved)
      end
  | Some (PromiseResolved p bytes err) =>
      (pending ∖ {[p]},
       <[p := (if String.eqb err EmptyString then Ok bytes else Err err,
               default (mkTimestamp 0 0) (timestamp e))]> resolved)
  | _ => (pending, resolved)
  end.
Definition load_promises_from_journal (a : string) : M JournalError () :=
  es ← reading (replay_from a 0);
  let '(p, r) := foldl load_promise (∅, ∅) es in
  modify (set_promises p r).

(** *** Life cycle *)

Definition invalid {A} (prefix : string) : M JournalError A → M FacetError A :=
  map_err (λ e, InvalidConfig (prefix ++ JournalError_to_string e)%string).

(** [CheckpointStateAdapter], then [StateLoader], then the actor itself. *)
Definition restore_checkpoint (cp : Checkpoint) : M FacetError () :=
  ad ← gets checkpoint_state_adapter;
  restored ← match ad with
    | Some ad => invalid "Failed to restore checkpoint state: " (on_world (restore_state ad (state_data cp)))
    | None => mret false
    end;
  if (restored : bool) then mret () else
  l ← gets state_loader;
  match l with
  | Some l =>
      match deserialize l (state_data cp) with
      | Ok v => invalid "Failed to restore checkpoint state: " (on_world (loader_restore_state l v))
      | Err e => throw (InvalidConfig ("Failed to deserialize checkpoint state: " ++ JournalError_to_string e)%string)
      end
  | None => modify (set_latest (Some cp))
  end.

Definition load_checkpoint (a : string) : M FacetError Z := λ c,
  match get_latest_checkpoint a (store c) with
  | Ok cp =>
      let current := dc_schema_version (config (facet c)) in
      if current <? state_schema_version cp
      then (c, Err (InvalidConfig ("Incompatible checkpoint schema version: checkpoint="
              ++ pretty.pretty (state_schema_version cp) ++ ", current=" ++ pretty.pretty current
              ++ ", actor_id=" ++ a)%string))
      else (_ ← restore_checkpoint cp; mret (u64_add (cp_sequence cp) 1)) c
  | Err (CheckpointNotFound _) => (c, Ok 0)
  | Err e => (c, Err (InvalidConfig ("Failed to load checkpoint: " ++ JournalError_to_string e)%string))
  end.

Definition on_attach (a : string) : M FacetError () :=
  _ ← modify (set_actor_id (Some a));
  d ← gets config;
  if replay_on_activation d then
    n ← load_checkpoint a;
    h ← gets replay_handler;
    ctx ← invalid "" (match h with
      | Some _ => replay_journal_with_handler a n
      | None => replay_journal a n
      end);
    _ ← invalid "" (load_promises_from_journal a);
    modify (set_context (Some (Ctx.set_mode ExecutionModeNormal ctx)))
  else
    es ← invalid "" (reading (replay_from a 0));
    _ ← match last es with
        | Some e => modify (set_sequence (sequence e))
        | None => mret ()
        end;
    _ ← modify (set_context (Some (Ctx.new_context a ExecutionModeNormal)));
    invalid "" (load_promises_from_journal a).

(** An error of the checkpoint is logged. *)
Definition on_exit (a : string) (k : Clock) : M FacetError () := λ c,
  ((with_manager (Ckpt.maybe_checkpoint zstd snappy a (message_sequence (facet c)) [] k) c).1, Ok ()).

Definition on_down : M FacetError () := mret ().

Definition on_detach : M FacetError () :=
  _ ← intercepted (on_store flush);
  modify (λ f, set_checkpoint_state_adapter None (set_context None (set_latest None (set_actor_id None f)))).

Definition on_terminate_start (a : string) (k : Clock) : M FacetError () :=
  ad ← gets checkpoint_state_adapter;
  match ad with
  | None => mret ()
  | Some ad =>
      data ← intercepted (on_world (capture_state ad));
      match data with
      | None => mret ()
      | Some data =>
          n ← gets message_sequence;
          _ ← intercepted (with_manager (Ckpt.save_checkpoint_now zstd snappy a n data k));
          mret ()
      end
  end.

End facet.
End Df.

(** ** The actor's side *)

(** What an actor's behaviour offers (traits [Actor] and [ActorContext] of crates/actor). *)
Class Behavior (W : Type) := {
  handle_message : Message → option ExecutionContextImpl → W → option ExecutionContextImpl * W * result string ();
  set_replay_signal : bool → W → W;
  capture_checkpoint_state : W → W * result string (option (list Z));
  restore_checkpoint_state : list Z → W → W * result string bool
}.

Inductive ActorError := FacetFailed (msg : string) | BehaviorError (msg : string).

Module Act.
Section actor.
Context {W : Type} {S : Type} `{!JournalStorage S, !Behavior W}.
Context (zstd snappy : option (list Z → result string (list Z))).
Context (ulid : nat → string).
#[local] Existing Instances Df.M_ret Df.M_bind.

Definition ActorReplayHandler : ReplayHandler W :=
  mkReplayHandler handle_message (set_replay_signal true) (set_replay_signal false).

Definition serialization {A} (prefix : string) (r : W * result string A) : W * result JournalError A :=
  match r with
  | (w, Ok a) => (w, Ok a)
  | (w, Err e) => (w, Err (Serialization (prefix ++ e)%string))
  end.
Definition ActorCheckpointStateAdapter : CheckpointStateAdapter W :=
  mkAdapter
    (λ w, serialization "Failed to capture checkpoint state: " (capture_checkpoint_state w))
    (λ d w, serialization "Failed to restore checkpoint state: " (restore_checkpoint_state d w)).

Definition facet_failed {A} : Df.M (W := W) (S := S) FacetError A → Df.M ActorError A :=
  Df.map_err (λ e, FacetFailed (FacetError_to_string e)).

Definition attach_facet (a : string) : Df.M (W := W) (S := S) ActorError () :=
  _ ← Df.modify (Df.set_replay_handler (Some ActorReplayHandler));
  _ ← Df.modify (Df.set_checkpoint_state_adapter (Some ActorCheckpointStateAdapter));
  facet_failed (Df.on_attach a).

Definition handle (m : Message) : Df.M (S := S) ActorError () := λ c,
  let '(ctx, w, r) := handle_message m (execution_context (facet c)) (world c) in
  (mkCell (Df.set_context ctx (facet c)) (store c) w (drawn c),
   match r with Ok u => Ok u | Err e => Err (BehaviorError e) end).

(** The handler on the arguments that the interceptors leave, and [intercept_after], whose result is
    dropped. *)
Definition with_payload (args : list Z) (m : Message) : Message :=
  mkMessage (msg_id m) (sender_id m) (receiver_id m) (message_type m) args (headers m)
    (msg_correlation_id m).
Definition after (m : Message) (k : Clock) : Df.M (W := W) (S := S) ActorError () := λ c,
  ((Df.after_method zstd snappy ulid (message_type m) (payload m) [] k c).1, Ok ()).
Definition call_actor (m : Message) (k : Clock) : Df.M (W := W) (S := S) ActorError () :=
  _ ← handle m; after m k.

(** [intercept_before] of a single facet.  A message that the facet answers itself is not handled. *)
Definition process_message (m : Message) (k : Clock) : Df.M (W := W) (S := S) ActorError () :=
  r ← facet_failed (Df.before_method ulid (message_type m) (payload m) k);
  match r with
  | ShortCircuit _ => mret ()
  | ReplaceArgs args => call_actor (with_payload args m) k
  | Continue | ReplaceResult _ => call_actor m k
  end.

(** The stop of an actor: the hooks of termination and detachment; an error of the first is logged. *)
Definition stop (a : string) (k : Clock) : Df.M (W := W) (S := S) FacetError () := λ c,
  Df.on_detach (Df.on_terminate_start zstd snappy a k c).1.

(** A new incarnation, of which only the storage and the identifiers in use are left: a fresh facet on
    an actor in its initial state [w0]. *)
Definition incarnate (v : Value) (prio : Z) (w0 : W) (c : Cell W S) : Cell W S :=
  mkCell (Df.new v prio) (store c) w0 (drawn c).

End actor.
End Act.

(** ** Lemmas: appending to the journal *)

Section laws.
Context {W : Type} {S : Type} `{!JournalStorage S, !JournalLaws S}.
Context (zstd snappy : option (list Z → result string (list Z))).
Context (ulid : nat → string) `{!Inj (=) (=) ulid}.
#[local] Existing Instances Df.M_ret Df.M_bind.

Ltac monad := cbv [mbind mret Df.M_bind Df.M_ret Df.gets Df.modify Df.throw Df.map_err Df.on_store
  Df.reading Df.on_world Df.fresh Df.next_sequence Df.attached_id Df.intercepted Df.invalid
  Df.with_manager Act.facet_failed].

(** The stored identifiers have been drawn. *)
Definition issued (s : S) (d : nat) : Prop := ∀ i, i ∈ used s → ∃ n, (n < d)%nat ∧ i = ulid n.

(** The well-formed states of the facet of actor [a], once attached. *)
Record attached (a : string) (c : Cell W S) : Prop := mkAttached {
  attached_sane : sane (store c);
  attached_actor : facet_actor_id (facet c) = Some a;
  attached_sequence : message_sequence (facet c) = last_sequence (entries a (store c));
  attached_issued : issued (store c) (drawn c);
  attached_latest cp : latest a (store c) = Some cp →
    0 <= cp_sequence cp <= message_sequence (facet c)
}.

Lemma issued_mono s s' d d' : issued s d → used s' ⊆ used s → (d <= d')%nat → issued s' d'.
Proof. intros H Hu Hd i Hi. destruct (H i (Hu _ Hi)) as (n & ? & ?). exists n. split; [lia|done]. Qed.

Lemma fresh_ulid s d n : issued s d → (d <= n)%nat → ulid n ∉ used s.
Proof. intros H Hn Hi. destruct (H _ Hi) as (m & Hm & Heq%(inj ulid)). lia. Qed.

Lemma attached_column a c : attached a c → column (message_sequence (facet c)).
Proof.
  intros [Hs _ Hq _ _]. rewrite Hq. apply (ascending_column a); [done|by apply entries_ascending].
Qed.

Lemma next_number a c n : attached a c → 0 < n → column (message_sequence (facet c) + n) →
  u64_add (message_sequence (facet c)) n = message_sequence (facet c) + n.
Proof.
  intros Hc%attached_column Hn Hcol. apply u64_add_small. unfold column, u64_max in *. lia.
Qed.

(** A batch of entries that carry the next numbers, with the [f i]-th identifier on entry [i]. *)
Definition numbered (a : string) (n : Z) (f : nat → nat) (es : list JournalEntry) : Prop :=
  ∀ i e, es !! i = Some e → actor_id e = a ∧ sequence e = n + 1 + Z.of_nat i ∧ id e = ulid (f i).

Lemma numbered_ascending a n f es : 0 <= n → column (n + Z.of_nat (length es)) → numbered a n f es →
  ascending a n es ∧ last_from n es = n + Z.of_nat (length es).
Proof.
  revert n f. induction es as [|e es IH]; intros n f H0 Hc Hn; [split; [done|cbn; lia]|].
  destruct (Hn 0%nat e eq_refl) as (Ha & Hseq & _). cbn [length] in *. rewrite last_from_cons. cbn [ascending].
  destruct (IH (sequence e) (λ i, f (Datatypes.S i))) as [Hasc Hlast].
  - lia.
  - by replace (sequence e + Z.of_nat (length es)) with (n + Z.of_nat (Datatypes.S (length es))) by lia.
  - intros i x Hi. destruct (Hn (Datatypes.S i) x Hi) as (? & ? & ?). split_and!; [done|lia|done].
  - split; [split_and!; [done|lia|unfold column in *; lia|done]|lia].
Qed.

Lemma numbered_ids a n f es : Inj (=) (=) f → numbered a n f es → NoDup (id <$> es).
Proof.
  intros Hf Hn. apply NoDup_alt. intros i j x Hi Hj.
  apply list_lookup_fmap_Some in Hi as (e1 & -> & H1). apply list_lookup_fmap_Some in Hj as (e2 & Heq & H2).
  destruct (Hn _ _ H1) as (_ & _ & Hi1), (Hn _ _ H2) as (_ & _ & Hi2).
  rewrite Hi1, Hi2 in Heq. by apply Hf, (inj ulid).
Qed.

(** Appending a numbered batch, entry by entry or at once, keeps the facet well formed when
    [message_sequence] follows. *)
Lemma append_attached a c c' es s f : attached a c → numbered a (message_sequence (facet c)) f es →
  column (message_sequence (facet c) + Z.of_nat (length es)) →
  (∀ i, (i < length es)%nat → (f i < drawn c')%nat) →
  (drawn c <= drawn c')%nat → store c' = s → sane s → (∀ a', entries a' s = entries a' (store c) ++ if decide (a' = a) then es else []) →
  (∀ a', latest a' s = latest a' (store c)) → used s = list_to_set (id <$> es) ∪ used (store c) →
  facet_actor_id (facet c') = Some a →
  message_sequence (facet c') = message_sequence (facet c) + Z.of_nat (length es) →
  attached a c' ∧ entries a (store c') = entries a (store c) ++ es.
Proof.
  intros Ha Hn Hc Hf Hd <- Hs Hes Hl Hu Hid Hseq. specialize (Hes a). rewrite decide_True in Hes by done.
  split; [|done]. pose proof (attached_column _ _ Ha) as Hcol. destruct Ha as [_ _ Hq Hi Hcp].
  destruct (numbered_ascending _ _ _ _ (proj1 Hcol) Hc Hn) as [_ Hlast].
  constructor; [done..| | |].
  - rewrite Hes, Hseq. unfold last_sequence. rewrite last_from_app.
    fold (last_sequence (entries a (store c))). by rewrite <- Hq.
  - intros i. rewrite Hu, elem_of_union, elem_of_list_to_set, list_elem_of_fmap.
    intros [(e & -> & (j & Hj)%list_elem_of_lookup)|Hin].
    + destruct (Hn _ _ Hj) as (_ & _ & ->). exists (f j). split; [|done].
      apply Hf. by apply lookup_lt_Some in Hj.
    + destruct (Hi _ Hin) as (n & ? & ->). exists n. split; [lia|done].
  - intros cp. rewrite Hl, Hseq. intros Hcp'%Hcp. lia.
Qed.

(** One entry, as [append_entry] stores it. *)
Lemma append_one a c e d' : attached a c → column (message_sequence (facet c) + 1) →
  actor_id e = a → sequence e = message_sequence (facet c) + 1 → id e = ulid (drawn c) →
  (drawn c < d')%nat →
  ∃ s, append_entry e (store c) = (s, Ok (sequence e)) ∧
    (∀ a', latest a' s = latest a' (store c)) ∧
    ∀ f, facet_actor_id f = Some a → message_sequence f = sequence e →
      ∀ w, attached a (mkCell f s w d') ∧ entries a s = entries a (store c) ++ [e].
Proof.
  intros Ha Hc <- Hseq Hid Hd. pose proof (attached_column _ _ Ha) as Hcol.
  destruct (append_entry_spec e (store c)) as (s & Happ & Hs & Hes & Hl & Hu).
  - apply Ha.
  - cbn. rewrite <- (attached_sequence _ _ Ha), Hseq. split_and!; [done|lia|done|done].
  - rewrite Hid. eapply fresh_ulid; [apply Ha|done].
  - exists s. split; [done|]. split; [done|]. intros f Hf Hm w.
    eapply (append_attached (actor_id e) c (mkCell f s w d') [e] s (λ _, drawn c)); try done.
    + intros [|i] x Hx; [|done]. cbn in Hx. simplify_eq. split_and!; [done|lia|done].
    + cbn. lia.
    + rewrite Hu. cbn. by rewrite (right_id_L ∅ (∪)).
    + cbn. lia.
Qed.

(** ** The interceptors *)

Definition received (a : string) (n : Z) (d : nat) (method : string) (args : list Z) (k : Clock)
    : JournalEntry :=
  mkEntry (ulid d) a n (Df.now k) "" (Some (MessageReceived (ulid (Datatypes.S d)) "" method args ∅)).

Lemma before_method_spec a c method args k : attached a c → column (message_sequence (facet c) + 1) →
  ∃ c', Df.before_method ulid method args k c = (c', Ok Continue) ∧ attached a c' ∧
    facet c' = Df.set_sequence (message_sequence (facet c) + 1) (facet c) ∧ world c' = world c ∧
    entries a (store c') = entries a (store c) ++
      [received a (message_sequence (facet c) + 1) (drawn c) method args k] ∧
    latest a (store c') = latest a (store c).
Proof.
  intros Ha Hc. unfold Df.before_method. monad. rewrite (attached_actor _ _ Ha).
  rewrite (next_number a c 1 Ha) by (done || lia). cbn [facet store world drawn].
  destruct (append_one a c (received a (message_sequence (facet c) + 1) (drawn c) method args k)
    (Datatypes.S (Datatypes.S (drawn c))) Ha Hc) as (s & Happ & Hl & Hatt); [done..|lia|].
  unfold received in Happ at 1. cbn [sequence] in Happ. rewrite Happ. destruct (Hatt (Df.set_sequence (message_sequence (facet c) + 1) (facet c))
    (attached_actor _ _ Ha) eq_refl (world c)) as [Hatt' Hes].
  eexists. by split_and!.
Qed.
(** Entries that a recovery does not replay: results and side effects. *)
Definition quiet (e : JournalEntry) : Prop :=
  match entry e with
  | Some (MessageProcessed _ _ _ _) | Some (SideEffectExecuted _ _ _ _ _) => True
  | _ => False
  end.

Lemma side_effect_entries_spec a ses (c : Cell W S) : 0 <= message_sequence (facet c) →
  column (message_sequence (facet c) + Z.of_nat (length ses)) →
  ∃ es f, Df.side_effect_entries ulid a ses c =
      (mkCell f (store c) (world c) (drawn c + length ses), Ok es) ∧
    f = Df.set_sequence (message_sequence (facet c) + Z.of_nat (length ses)) (facet c) ∧
    length es = length ses ∧ Forall quiet es ∧
    numbered a (message_sequence (facet c)) (λ i, drawn c + i)%nat es.
Proof.
  revert c. induction ses as [|se ses IH]; intros c H0 Hc.
  - exists [], (facet c). cbn. rewrite Z.add_0_r, Nat.add_0_r. destruct c as [[] ? ? ?]. by split_and!.
  - cbn [Df.side_effect_entries length]. monad.
    rewrite u64_add_small by (unfold column, u64_max in *; cbn [length] in Hc; lia).
    set (c1 := mkCell _ _ _ _). destruct (IH c1) as (es & f & -> & -> & Hlen & Hq & Hn).
    + cbn. lia.
    + cbn in Hc |- *. unfold column in *. lia.
    + do 2 eexists. split; [by cbn [drawn c1]; rewrite <- plus_n_Sm|]. cbn [length].
      split; [|split; [by rewrite Hlen|split; [by constructor|]]].
      * cbn. unfold Df.set_sequence. f_equal. lia.
      * intros [|i] e Hi; cbn in Hi; [simplify_eq; cbn; rewrite Nat.add_0_r; split_and!; [done|lia|done]|].
        destruct (Hn _ _ Hi) as (? & ? & Hid). cbn [c1 facet Df.set_sequence message_sequence drawn] in *.
        split_and!; [done|lia|]. rewrite Hid. f_equal. lia.
Qed.

Definition taken (f : DurabilityFacet W) : list SideEffectEntry :=
  match execution_context f with Some ctx => side_effects ctx | None => [] end.
Definition drained (f : DurabilityFacet W) : DurabilityFacet W :=
  Df.set_context ((λ ctx, (Ctx.take_side_effects ctx).1) <$> execution_context f) f.

Lemma take_context_spec (c : Cell W S) : Df.take_context_side_effects c =
  (mkCell (drained (facet c)) (store c) (world c) (drawn c), Ok (taken (facet c))).
Proof.
  unfold Df.take_context_side_effects, taken, drained. monad.
  destruct c as [[? ? ? ? ? [ctx|] ? ? ? ? ? ? ?] ? ? ?]; done.
Qed.

(** A batch, as [append_batch] stores it. *)
Lemma append_many a c es g d' : attached a c → es ≠ [] →
  column (message_sequence (facet c) + Z.of_nat (length es)) →
  numbered a (message_sequence (facet c)) g es → Inj (=) (=) g →
  (∀ i, (i < length es)%nat → (drawn c <= g i < d')%nat) → (drawn c <= d')%nat →
  ∃ s r, append_batch es (store c) = (s, Ok r) ∧ (∀ a', latest a' s = latest a' (store c)) ∧
    ∀ f, facet_actor_id f = Some a →
      message_sequence f = message_sequence (facet c) + Z.of_nat (length es) →
      ∀ w, attached a (mkCell f s w d') ∧ entries a s = entries a (store c) ++ es.
Proof.
  intros Ha Hne Hc Hn Hg Hd Hle. pose proof (attached_column _ _ Ha) as [Hcol _].
  destruct (append_batch_spec a es (store c)) as (s & r & Happ & Hs & Hes & Hl & Hu).
  - apply Ha.
  - done.
  - rewrite <- (attached_sequence _ _ Ha). by apply (numbered_ascending _ _ g _ Hcol Hc).
  - by apply (numbered_ids a (message_sequence (facet c)) g).
  - apply Forall_forall. intros x (i & Hi)%list_elem_of_lookup. destruct (Hn _ _ Hi) as (_ & _ & ->).
    eapply fresh_ulid; [apply Ha|]. apply lookup_lt_Some in Hi. by apply Hd.
  - exists s, r. split; [done|]. split; [done|]. intros f Hf Hm w.
    apply (append_attached a c (mkCell f s w d') es s g); try done. intros i Hi. by apply Hd.
Qed.

Definition result_entry (a : string) (n : Z) (d : nat) (res : list Z) (k : Clock) : JournalEntry :=
  mkEntry (ulid d) a n (Df.now k) "" (Some (MessageProcessed (ulid (Datatypes.S d)) 1 "" res)).

(** After a message: the result and the side effects are journaled, then comes the checkpoint. *)
Lemma after_method_spec a c method args res k : attached a c →
  column (message_sequence (facet c) + 1 + Z.of_nat (length (taken (facet c)))) →
  ∃ c' es, Df.after_method zstd snappy ulid method args res k c =
      Df.periodic_checkpoint zstd snappy a k c' ∧ attached a c' ∧
    facet c' = Df.set_sequence (message_sequence (facet c) + 1 + Z.of_nat (length (taken (facet c))))
      (drained (facet c)) ∧ world c' = world c ∧
    entries a (store c') = entries a (store c) ++ es ∧ Forall quiet es ∧
    latest a (store c') = latest a (store c).
Proof.
  intros Ha Hc. pose proof (attached_column _ _ Ha) as Hcol.
  assert (column (message_sequence (facet c) + 1)) by (unfold column in *; lia).
  unfold Df.after_method. monad. rewrite (attached_actor _ _ Ha).
  rewrite (next_number a c 1 Ha) by (done || lia). rewrite take_context_spec.
  cbn [facet store world drawn]. change (taken (Df.set_sequence _ _)) with (taken (facet c)).
  set (c1 := mkCell (drained _) _ _ _).
  destruct (side_effect_entries_spec a (taken (facet c)) c1) as (es & f & -> & -> & Hlen & Hq & Hn).
  { cbn. unfold column in *. lia. }
  { done. }
  set (e := result_entry a (message_sequence (facet c) + 1) (drawn c) res k).
  set (g := λ i, match i with O => drawn c | Datatypes.S i => (2 + drawn c + i)%nat end).
  destruct (append_many a c (e :: es) g (2 + drawn c + length (taken (facet c)))) as (s & r & Happ & Hl & Hatt).
  { done. }
  { done. }
  { cbn [length]. by replace (message_sequence (facet c) + Z.of_nat (Datatypes.S (length es))) with
      (message_sequence (facet c) + 1 + Z.of_nat (length (taken (facet c)))) by lia. }
  { intros [|i] x Hi; cbn in Hi; [simplify_eq; split_and!; [done|cbn; lia|done]|].
    destruct (Hn _ _ Hi) as (? & Hs & ?). cbn in Hs. split_and!; [done|lia|done]. }
  { intros [] []; cbn; lia. }
  { intros [|i] Hi; cbn [length g] in *; lia. }
  { lia. }
  cbn [facet store world drawn c1]. unfold e, result_entry in Happ. rewrite Happ.
  destruct (Hatt (Df.set_sequence (message_sequence (facet c) + 1 + Z.of_nat (length (taken (facet c))))
    (drained (facet c))) (attached_actor _ _ Ha)) with (w := world c) as [Hatt' Hes]; [cbn [length]; cbn; lia|].
  do 2 eexists. split; [done|]. by split_and!; [..|constructor|].
Qed.
(** ** Checkpoints of the facet *)

(** A facet that saves its checkpoints uncompressed and keeps the journal, as [new] configures it. *)
Definition plain (f : DurabilityFacet W) : Prop :=
  uncompressed (checkpoint_manager f) ∧ auto_truncate (cm_config (checkpoint_manager f)) = false.

Lemma attached_manager a c m s w : attached a c → sane s → entries a s = entries a (store c) →
  used s ⊆ used (store c) →
  (∀ cp, latest a s = Some cp → 0 <= cp_sequence cp <= message_sequence (facet c)) →
  attached a (mkCell (Df.set_manager m (facet c)) s w (drawn c)).
Proof.
  intros [H1 H2 H3 H4 H5] Hs Hes Hu Hl. constructor; [done|done| | |done].
  - cbn. by rewrite Hes.
  - by eapply issued_mono.
Qed.

Lemma maybe_checkpoint_facet a c data k : attached a c → plain (facet c) →
  ∃ m s r, Df.with_manager (Ckpt.maybe_checkpoint zstd snappy a (message_sequence (facet c)) data k) c =
      (mkCell (Df.set_manager m (facet c)) s (world c) (drawn c), Ok r) ∧
    same_setup (checkpoint_manager (facet c)) m ∧
    (∀ w, attached a (mkCell (Df.set_manager m (facet c)) s w (drawn c))) ∧
    entries a s = entries a (store c) ∧
    if due (checkpoint_manager (facet c)) a (message_sequence (facet c)) k
    then ∃ t, latest a s =
      Some (checkpoint_of (checkpoint_manager (facet c)) a (message_sequence (facet c)) t data)
    else latest a s = latest a (store c).
Proof.
  intros Ha [Hc Ht]. pose proof (attached_column _ _ Ha) as Hcol.
  destruct (maybe_checkpoint_outcome zstd snappy (checkpoint_manager (facet c)) a
    (message_sequence (facet c)) data k (store c)) as (m & s & t & Heq & Hm & Hs & Hu & Hd).
  { apply Ha. }
  { done. }
  { done. }
  { intros cp Hcp. by apply (attached_latest _ _ Ha). }
  unfold Df.with_manager. rewrite Heq. exists m, s. eexists. split; [done|]. split; [done|].
  rewrite Ht in Hd. destruct (due _ _ _ _).
  - destruct Hd as (Hl & _ & Hes). split; [|split; [done|by exists t]].
    intros w. apply attached_manager; [done..|]. intros cp. rewrite Hl. intros [= <-]. cbn.
    unfold column in *. lia.
  - subst s. split; [|done]. intros w. apply attached_manager; [done..|apply Ha].
Qed.

(** The periodic checkpoint: skipped, or of the state that the adapter captures. *)
Lemma periodic_checkpoint_spec a c k ad w data : attached a c → plain (facet c) →
  checkpoint_state_adapter (facet c) = Some ad → capture_state ad (world c) = (w, Ok (Some data)) →
  ∃ m s w', Df.periodic_checkpoint zstd snappy a k c =
      (mkCell (Df.set_manager m (facet c)) s w' (drawn c), Ok Continue) ∧
    same_setup (checkpoint_manager (facet c)) m ∧
    attached a (mkCell (Df.set_manager m (facet c)) s w' (drawn c)) ∧
    entries a s = entries a (store c) ∧
    (w' = world c ∧ latest a s = latest a (store c) ∨
     w' = w ∧ (∃ t, latest a s =
       Some (checkpoint_of (checkpoint_manager (facet c)) a (message_sequence (facet c)) t data)) ∨
     w' = w ∧ latest a s = latest a (store c)).
Proof.
  intros Ha Hp Had Hcap. unfold Df.periodic_checkpoint. monad.
  destruct (_ && _).
  - rewrite Had, Hcap. set (c1 := mkCell (facet c) (store c) w (drawn c)).
    assert (attached a c1) as Ha1 by (destruct Ha; by constructor).
    destruct (maybe_checkpoint_facet a c1 data k Ha1 Hp) as (m & s & r & Heq & Hm & Hatt & Hes & Hd).
    unfold Df.with_manager in Heq. cbn [c1 facet store world drawn] in *. rewrite Heq.
    do 3 eexists. split; [done|]. split; [done|]. split; [done|]. split; [done|].
    destruct (due _ _ _ _); [right; left|right; right]; done.
  - exists (checkpoint_manager (facet c)), (store c), (world c).
    assert (Df.set_manager (checkpoint_manager (facet c)) (facet c) = facet c) as ->
      by (by destruct (facet c)).
    destruct c. split; [done|]. split; [done|]. split; [done|]. split; [done|]. by left.
Qed.

Lemma on_terminate_start_spec a c k ad w data : attached a c → plain (facet c) →
  checkpoint_state_adapter (facet c) = Some ad → capture_state ad (world c) = (w, Ok (Some data)) →
  ∃ m s t, Df.on_terminate_start zstd snappy a k c =
      (mkCell (Df.set_manager m (facet c)) s w (drawn c), Ok ()) ∧
    same_setup (checkpoint_manager (facet c)) m ∧
    attached a (mkCell (Df.set_manager m (facet c)) s w (drawn c)) ∧
    entries a s = entries a (store c) ∧
    latest a s = Some (checkpoint_of (checkpoint_manager (facet c)) a (message_sequence (facet c)) t data).
Proof.
  intros Ha Hp Had Hcap. pose proof (attached_column _ _ Ha) as Hcol.
  unfold Df.on_terminate_start. monad. rewrite Had, Hcap. cbn [facet store world drawn].
  destruct (save_checkpoint_now_outcome zstd snappy (checkpoint_manager (facet c)) a
    (message_sequence (facet c)) data k (store c)) as (m & s & t & Heq & Hm & Hs & Hu & Hes & Hl).
  { apply Ha. }
  { done. }
  { apply Hp. }
  { intros cp Hcp. by apply (attached_latest _ _ Ha). }
  rewrite Heq. do 2 eexists. exists t. split; [done|]. split; [done|]. split; [|done].
  apply attached_manager; [done..|by rewrite Hu|]. intros cp. rewrite Hl. intros [= <-]. cbn.
  unfold column in *. lia.
Qed.

(** ** Promises *)

Lemma create_promise_spec a c p timeout k : attached a c → column (message_sequence (facet c) + 1) →
  (p ∈ pending_promises (facet c) ∨ is_Some (resolved_promises (facet c) !! p)) ∧
    (∃ e, Df.create_promise ulid p timeout k c = (c, Err e)) ∨
  (p ∉ pending_promises (facet c)) ∧ resolved_promises (facet c) !! p = None ∧
    ∃ c', Df.create_promise ulid p timeout k c = (c', Ok ()) ∧ attached a c' ∧ world c' = world c ∧
      facet c' = Df.set_promises ({[p]} ∪ pending_promises (facet c)) (resolved_promises (facet c))
        (Df.set_sequence (message_sequence (facet c) + 1) (facet c)) ∧
      entries a (store c') = entries a (store c) ++
        [mkEntry (ulid (drawn c)) a (message_sequence (facet c) + 1) (Df.now k) "" (Some (PromiseCreated p timeout))] ∧
      latest a (store c') = latest a (store c).
Proof.
  intros Ha Hc. unfold Df.create_promise. monad. rewrite (attached_actor _ _ Ha).
  destruct (bool_decide (p ∈ _)) eqn:E1; cbn [orb].
  { apply bool_decide_eq_true in E1. left. split; [by left|by eexists]. }
  destruct (bool_decide (is_Some _)) eqn:E2.
  { apply bool_decide_eq_true in E2. left. split; [by right|by eexists]. }
  apply bool_decide_eq_false in E1, E2. right. split; [done|]. split; [by apply eq_None_not_Some|].
  rewrite (next_number a c 1 Ha) by (done || lia). cbn [facet store world drawn].
  set (e := mkEntry _ _ _ _ _ _).
  destruct (append_one a c e (Datatypes.S (drawn c)) Ha Hc) as (s & Happ & Hl & Hatt); [done..|lia|].
  rewrite Happ. cbn [facet store world drawn].
  destruct (Hatt (Df.set_promises ({[p]} ∪ pending_promises (facet c)) (resolved_promises (facet c))
    (Df.set_sequence (message_sequence (facet c) + 1) (facet c))) (attached_actor _ _ Ha) eq_refl (world c)).
  eexists. by split_and!.
Qed.

Lemma resolve_promise_spec a c p r k : attached a c → column (message_sequence (facet c) + 1) →
  (p ∉ pending_promises (facet c)) ∧ (∃ e, Df.resolve_promise ulid p r k c = (c, Err e)) ∨
  p ∈ pending_promises (facet c) ∧
    ∃ c', Df.resolve_promise ulid p r k c = (c', Ok ()) ∧ attached a c' ∧ world c' = world c ∧
      facet c' = Df.set_promises (pending_promises (facet c) ∖ {[p]})
        (<[p := (r, mkTimestamp (unix_secs k) 0)]> (resolved_promises (facet c)))
        (Df.set_sequence (message_sequence (facet c) + 1) (facet c)) ∧
      entries a (store c') = entries a (store c) ++
        [mkEntry (ulid (drawn c)) a (message_sequence (facet c) + 1) (Df.now k) ""
          (Some (PromiseResolved p (match r with Ok b => b | Err _ => [] end)
            (match r with Ok _ => EmptyString | Err e => e end)))] ∧
      latest a (store c') = latest a (store c).
Proof.
  intros Ha Hc. unfold Df.resolve_promise. monad. rewrite (attached_actor _ _ Ha).
  destruct (bool_decide (p ∈ _)) eqn:E1; cbn [negb]; [apply bool_decide_eq_true in E1|apply bool_decide_eq_false in E1];
    [right|left; split; [done|by eexists]]. split; [done|].
  rewrite (next_number a c 1 Ha) by (done || lia). cbn [facet store world drawn].
  set (e := mkEntry (ulid (drawn c)) a (message_sequence (facet c) + 1) (Df.now k) ""
    (Some (PromiseResolved p (match r with Ok b => b | Err _ => [] end)
            (match r with Ok _ => EmptyString | Err e => e end)))).
  destruct (append_one a c e (Datatypes.S (drawn c)) Ha Hc) as (s & Happ & Hl & Hatt); [done..|lia|].
  set (f := Df.set_promises (pending_promises (facet c) ∖ {[p]})
    (<[p := (r, mkTimestamp (unix_secs k) 0)]> (resolved_promises (facet c)))
    (Df.set_sequence (message_sequence (facet c) + 1) (facet c))).
  destruct (Hatt f (attached_actor _ _ Ha) eq_refl (world c)).
  exists (mkCell f s (world c) (Datatypes.S (drawn c))). split; [|by split_and!].
  destruct r; cbn [facet store world drawn]; unfold e in Happ; cbn [sequence] in Happ; by rewrite Happ.
Qed.

(** ** Recovery *)

Definition messages (es : list JournalEntry) : list (string * list Z) :=
  omap (λ e, match entry e with
    | Some (MessageReceived _ _ ty args _) => Some (ty, args)
    | _ => None
    end) es.
Definition promises (es : list JournalEntry)
    : gset string * gmap string (result string (list Z) * Timestamp) :=
  foldl Df.load_promise (∅, ∅) es.

Lemma messages_app es es' : messages (es ++ es') = messages es ++ messages es'.
Proof. apply omap_app. Qed.
Lemma messages_quiet es : Forall quiet es → messages es = [].
Proof.
  induction 1 as [|e es He _ IH]; [done|]. unfold messages in *. cbn. unfold quiet in He.
  by destruct (entry e) as [[]|].
Qed.
Lemma promises_snoc es e : promises (es ++ [e]) = Df.load_promise (promises es) e.
Proof. unfold promises. by rewrite foldl_app. Qed.
Lemma promises_quiet es es' : Forall quiet es' → promises (es ++ es') = promises es.
Proof.
  revert es. induction es' as [|e es' IH]; intros es H; [by rewrite app_nil_r|].
  apply Forall_cons in H as [He H]. rewrite cons_middle, app_assoc, (IH _ H), promises_snoc.
  destruct (promises es) as [P R]. unfold quiet in He. cbn. by destruct (entry e) as [[]|].
Qed.
Lemma promises_received a n d ty args k es :
  promises (es ++ [received a n d ty args k]) = promises es.
Proof. rewrite promises_snoc. by destruct (promises es). Qed.

(** An error with an empty text is read back as an empty result. *)
Definition reread (r : result string (list Z)) : result string (list Z) :=
  match r with Err EmptyString => Ok [] | _ => r end.
Definition reread_promise (x : result string (list Z) * Timestamp) : result string (list Z) * Timestamp :=
  (reread x.1, x.2).
(** The promises of the facet, as the journal gives them back. *)
Definition agreed (a : string) (c : Cell W S) : Prop :=
  promises (entries a (store c)) =
    (pending_promises (facet c), reread_promise <$> resolved_promises (facet c)).

Lemma create_promise_agreed a c c' p timeout k r : attached a c → column (message_sequence (facet c) + 1) →
  agreed a c → Df.create_promise ulid p timeout k c = (c', r) → agreed a c'.
Proof.
  unfold agreed. intros Ha Hc Hag Heq.
  destruct (create_promise_spec a c p timeout k Ha Hc) as [(_ & e & He)|(Hp & Hr & c1 & H1 & _ & _ & Hf & Hes & _)];
    [by rewrite He in Heq; simplify_eq|].
  rewrite H1 in Heq. simplify_eq. rewrite Hes, promises_snoc, Hag, Hf. cbn.
  by rewrite lookup_fmap, Hr.
Qed.

Lemma resolve_promise_agreed a c c' p res k r : attached a c → column (message_sequence (facet c) + 1) →
  agreed a c → Df.resolve_promise ulid p res k c = (c', r) → agreed a c'.
Proof.
  unfold agreed. intros Ha Hc Hag Heq.
  destruct (resolve_promise_spec a c p res k Ha Hc) as [(_ & e & He)|(Hp & c1 & H1 & _ & _ & Hf & Hes & _)];
    [by rewrite He in Heq; simplify_eq|].
  rewrite H1 in Heq. simplify_eq. rewrite Hes, promises_snoc, Hag, Hf. cbn.
  rewrite fmap_insert. by destruct res as [|[]].
Qed.

Section recovery.
Context `{!Behavior W}.

(** An actor whose state is what its messages made of it, and whose checkpoints hold all of it.  It
    has no replay signal and uses no side effects. *)
Class Replayable := {
  apply : string → list Z → W → W;
  handle_apply m ctx w :
    handle_message m ctx w = (ctx, apply (message_type m) (payload m) w, Ok ());
  signal_neutral b w : set_replay_signal b w = w;
  snapshot w : ∃ d, capture_checkpoint_state w = (w, Ok (Some d)) ∧
    ∀ w', restore_checkpoint_state d w' = (w, Ok true)
}.
Context `{!Replayable}.

Definition run_messages (ms : list (string * list Z)) (w : W) : W :=
  foldl (λ w m, apply m.1 m.2 w) w ms.
(** The state that the journal and the latest checkpoint stand for. *)
Definition recovered (a : string) (w0 : W) (s : S) : W :=
  match latest a s with
  | Some cp => run_messages (messages (from (cp_sequence cp + 1) (entries a s)))
      (restore_checkpoint_state (state_data cp) w0).1
  | None => run_messages (messages (entries a s)) w0
  end.

Lemma run_messages_app ms ms' w : run_messages (ms ++ ms') w = run_messages ms' (run_messages ms w).
Proof. apply foldl_app. Qed.

Lemma replay_messages_spec a es (c : Cell W S) : Df.replay_messages Act.ActorReplayHandler a es c =
  (mkCell (facet c) (store c) (run_messages (messages es) (world c)) (drawn c), Ok ()).
Proof.
  revert c. induction es as [|e es IH]; intros c; [by destruct c|].
  cbn [Df.replay_messages]. unfold Df.message_of, messages. cbn.
  destruct (entry e) as [[]|] eqn:He; try apply IH.
  unfold Df.run_handler. cbn. rewrite handle_apply. cbn [message_type payload].
  assert (Df.set_context (execution_context (facet c)) (facet c) = facet c) as -> by (by destruct (facet c)).
  by rewrite IH.
Qed.

Lemma restore_sequence_spec a ctx (c : Cell W S) : sane (store c) → message_sequence (facet c) = 0 →
  ∃ ctx', Df.restore_sequence a ctx c =
      (mkCell (Df.set_sequence (last_sequence (entries a (store c))) (facet c)) (store c) (world c) (drawn c),
       Ok ctx') ∧ side_effects ctx' = side_effects ctx.
Proof.
  intros Hs H0. unfold Df.restore_sequence. monad. rewrite replay_from_spec by done.
  rewrite (from_all a 0) by (lia || by apply entries_ascending). unfold last_sequence, last_from.
  destruct (last _) as [e|].
  - by exists (Ctx.set_sequence (sequence e) ctx).
  - exists ctx. split; [|done]. rewrite <- H0. by destruct c as [[] ? ? ?].
Qed.

Lemma load_side_effects_entries es ctx : side_effects (Ctx.load_side_effects es ctx) = side_effects ctx.
Proof. unfold Ctx.load_side_effects. revert ctx. induction es as [|e es IH]; [done|]. intros ctx. cbn. by rewrite IH. Qed.

(** The checkpoint of the storage is one that this actor restores, not newer than its schema. *)
Definition restorable (d : DurabilityConfig) (cp : Checkpoint) : Prop :=
  state_schema_version cp <= dc_schema_version d ∧
  ∃ w, ∀ w', restore_checkpoint_state (state_data cp) w' = (w, Ok true).

Lemma load_checkpoint_spec a (c : Cell W S) : sane (store c) →
  checkpoint_state_adapter (facet c) = Some Act.ActorCheckpointStateAdapter →
  (∀ cp, latest a (store c) = Some cp → restorable (config (facet c)) cp ∧
    0 <= cp_sequence cp ∧ column (cp_sequence cp + 1)) →
  Df.load_checkpoint a c =
    match latest a (store c) with
    | Some cp => (mkCell (facet c) (store c) (restore_checkpoint_state (state_data cp) (world c)).1 (drawn c),
        Ok (cp_sequence cp + 1))
    | None => (c, Ok 0)
    end.
Proof.
  intros Hs Had Hl. unfold Df.load_checkpoint. rewrite get_latest_checkpoint_spec by done.
  destruct (latest a (store c)) as [cp|]; [|done].
  destruct (Hl cp eq_refl) as ([Hv (w & Hw)] & H0 & Hc). destruct (Z.ltb_spec (dc_schema_version (config (facet c)))
    (state_schema_version cp)) as [|_]; [lia|].
  unfold Df.restore_checkpoint. monad. rewrite Had. cbn. rewrite Hw. cbn.
  rewrite u64_add_small by (unfold column, u64_max in *; lia). done.
Qed.

(** The facet of an actor of this kind, as [attach_facet] leaves it. *)
Record equipped (v : Value) (f : DurabilityFacet W) : Prop := mkEquipped {
  equipped_config : config f = Df.parse_config v;
  equipped_handler : replay_handler f = Some Act.ActorReplayHandler;
  equipped_adapter : checkpoint_state_adapter f = Some Act.ActorCheckpointStateAdapter;
  equipped_manager : cm_config (checkpoint_manager f) = Df.checkpoint_config (Df.parse_config v);
  equipped_version : schema_version (checkpoint_manager f) = dc_schema_version (Df.parse_config v)
}.

(** The configurations of the theorems: replay, no compression, a schema version. *)
Definition replaying (v : Value) : Prop :=
  replay_on_activation (Df.parse_config v) = true ∧ 0 < dc_schema_version (Df.parse_config v) ∧
  (dc_compression (Df.parse_config v) = 0 ∨ dc_compression (Df.parse_config v) = 1).

Lemma equipped_plain v f : replaying v → equipped v f → plain f.
Proof.
  intros (_ & _ & Hc) [_ _ _ Hm _]. unfold plain, uncompressed. rewrite Hm. by split.
Qed.

Lemma attach_spec v prio a w0 (c : Cell W S) : replaying v → sane (store c) → issued (store c) (drawn c) →
  column (last_sequence (entries a (store c)) + 1) →
  (∀ cp, latest a (store c) = Some cp → restorable (Df.parse_config v) cp ∧
    0 <= cp_sequence cp <= last_sequence (entries a (store c))) →
  ∃ c', Act.attach_facet a (Act.incarnate v prio w0 c) = (c', Ok ()) ∧ attached a c' ∧
    store c' = store c ∧ drawn c' = drawn c ∧ world c' = recovered a w0 (store c) ∧ equipped v (facet c') ∧
    taken (facet c') = [] ∧
    (pending_promises (facet c'), resolved_promises (facet c')) = promises (entries a (store c)).
Proof.
  intros (Hre & Hv & Hcmp) Hs Hi Hc Hl. unfold Act.attach_facet, Df.on_attach. monad.
  cbn [facet store world drawn Act.incarnate]. set (f1 := Df.set_actor_id _ _).
  change (config f1) with (Df.parse_config v). rewrite Hre.
  set (c1 := mkCell f1 (store c) w0 (drawn c)). rewrite (load_checkpoint_spec a c1); [|done|done|].
  2:{ intros cp Hcp. destruct (Hl cp Hcp) as [? ?]. split; [done|]. unfold column in *. lia. }
  set (n := match latest a (store c) with Some cp => cp_sequence cp + 1 | None => 0 end).
  set (w1 := match latest a (store c) with
    | Some cp => (restore_checkpoint_state (state_data cp) w0).1 | None => w0 end).
  assert (match latest a (store c1) with
    | Some cp => (mkCell (facet c1) (store c1) (restore_checkpoint_state (state_data cp) (world c1)).1 (drawn c1),
        @Ok FacetError Z (cp_sequence cp + 1))
    | None => (c1, Ok 0)
    end = (mkCell f1 (store c) w1 (drawn c), Ok n)) as -> by (subst n w1; cbn; by destruct (latest a (store c))).
  assert (column n) as Hn.
  { subst n. destruct (latest a (store c)) as [cp|]; [|done]. destruct (Hl cp eq_refl). unfold column in *. lia. }
  cbn [facet store world drawn]. change (replay_handler f1) with (Some (Act.ActorReplayHandler (W := W))).
  unfold Df.replay_journal_with_handler. monad. cbn [facet store world drawn].
  rewrite replay_from_spec by done. change (replay_handler f1) with (Some (Act.ActorReplayHandler (W := W))).
  cbn [on_replay_start Act.ActorReplayHandler]. rewrite signal_neutral.
  rewrite replay_messages_spec. cbn [facet store world drawn on_replay_end Act.ActorReplayHandler].
  rewrite signal_neutral. set (ctx := Ctx.load_side_effects _ _). set (c2 := mkCell f1 (store c) _ _).
  destruct (restore_sequence_spec a ctx c2) as (ctx' & -> & Hses); [done|done|].
  unfold Df.load_promises_from_journal. monad. cbn [facet store world drawn c2].
  rewrite replay_from_spec by done. rewrite (from_all a 0) by (lia || by apply entries_ascending).
  fold (promises (entries a (store c))). destruct (promises (entries a (store c))) as [P R].
  eexists. split; [done|]. split; [constructor; try done|].
  { intros cp Hcp. by apply Hl. }
  split; [done|]. split; [done|]. split.
  { unfold recovered. subst n w1. cbn. destruct (latest a (store c)); [done|].
    by rewrite (from_all a 0) by (lia || by apply entries_ascending). }
  split; [constructor; try done|].
  { change (schema_version _) with
      (if 0 <? dc_schema_version (Df.parse_config v) then dc_schema_version (Df.parse_config v) else 1).
    destruct (Z.ltb_spec 0 (dc_schema_version (Df.parse_config v))); lia. }
  split; [|done]. unfold taken. cbn. rewrite Hses. apply load_side_effects_entries.
Qed.

(** *** Runs of an actor: messages, promises, stops and crashes

    A state is a [Cell] with the messages accepted so far.  The guards keep the numbers of the journal
    within its column. *)
Inductive lives (v : Value) (prio : Z) (w0 : W) (a : string) :
    Cell W S * list (string * list Z) → Cell W S * list (string * list Z) → Prop :=
| lives_process m k c c' r ms :
    column (message_sequence (facet c) + 3) →
    Act.process_message zstd snappy ulid m k c = (c', r) →
    lives v prio w0 a (c, ms) (c', ms ++ [(message_type m, payload m)])
| lives_crash_in_message m k c c1 c2 r1 r2 ms :
    column (message_sequence (facet c) + 2) →
    Df.before_method ulid (message_type m) (payload m) k c = (c1, r1) →
    Act.attach_facet a (Act.incarnate v prio w0 c1) = (c2, r2) →
    lives v prio w0 a (c, ms) (c2, ms ++ [(message_type m, payload m)])
| lives_crash c c' r ms :
    Act.attach_facet a (Act.incarnate v prio w0 c) = (c', r) →
    lives v prio w0 a (c, ms) (c', ms)
| lives_stop k c c1 c2 r1 r2 ms :
    Act.stop zstd snappy a k c = (c1, r1) →
    Act.attach_facet a (Act.incarnate v prio w0 c1) = (c2, r2) →
    lives v prio w0 a (c, ms) (c2, ms)
| lives_create p timeout k c c' r ms :
    column (message_sequence (facet c) + 2) →
    Df.create_promise ulid p timeout k c = (c', r) →
    lives v prio w0 a (c, ms) (c', ms)
| lives_resolve p res k c c' r ms :
    column (message_sequence (facet c) + 2) →
    Df.resolve_promise ulid p res k c = (c', r) →
    lives v prio w0 a (c, ms) (c', ms).

(** The invariant: the journal and the latest checkpoint stand for the actor's state. *)
Record durable (v : Value) (w0 : W) (a : string) (x : Cell W S * list (string * list Z)) : Prop := mkDurable {
  durable_attached : attached a x.1;
  durable_equipped : equipped v (facet x.1);
  durable_idle : taken (facet x.1) = [];
  durable_room : column (message_sequence (facet x.1) + 1);
  durable_latest cp : latest a (store x.1) = Some cp → restorable (Df.parse_config v) cp;
  durable_world : world x.1 = run_messages x.2 w0;
  durable_recovered : recovered a w0 (store x.1) = world x.1;
  durable_promises : agreed a x.1
}.

(** The storage of a durable state with entries appended. *)
Lemma recovered_append a w0 s s' es : sane s' → entries a s' = entries a s ++ es → latest a s' = latest a s →
  (∀ cp, latest a s = Some cp → 0 <= cp_sequence cp <= last_sequence (entries a s)) →
  recovered a w0 s' = run_messages (messages es) (recovered a w0 s).
Proof.
  intros Hs Hes Hl Hcp. unfold recovered. rewrite Hl, Hes.
  destruct (latest a s) as [cp|]; [|by rewrite messages_app, run_messages_app].
  specialize (Hcp cp eq_refl). pose proof (entries_ascending a s' Hs) as Hasc.
  rewrite Hes in Hasc. apply ascending_app in Hasc as [_ Hasc].
  rewrite from_app, (from_all a (last_from 0 (entries a s)) _ es) by (done || unfold last_sequence in *; lia).
  by rewrite messages_app, run_messages_app.
Qed.

(** A checkpoint of the current state at the last number. *)
Lemma recovered_checkpoint a w0 w s s' cp : sane s → entries a s' = entries a s → latest a s' = Some cp →
  cp_sequence cp = last_sequence (entries a s) →
  restore_checkpoint_state (state_data cp) w0 = (w, Ok true) → recovered a w0 s' = w.
Proof.
  intros Hs Hes Hl Hseq Hr. unfold recovered. rewrite Hl, Hes, Hseq, Hr.
  by rewrite (from_none a 0) by (by apply entries_ascending || (unfold last_sequence; lia)).
Qed.

Lemma agreed_append a c c' es : entries a (store c') = entries a (store c) ++ es →
  promises (entries a (store c) ++ es) = promises (entries a (store c)) →
  pending_promises (facet c') = pending_promises (facet c) →
  resolved_promises (facet c') = resolved_promises (facet c) → agreed a c → agreed a c'.
Proof. unfold agreed. intros -> -> -> ->. done. Qed.

Lemma equipped_sequence v f n : equipped v f → equipped v (Df.set_sequence n f).
Proof. by intros []. Qed.

(** One step of [before_method] keeps everything but the actor's own state. *)
Lemma durable_before v w0 a c c' ms m k r : durable v w0 a (c, ms) → column (message_sequence (facet c) + 2) →
  Df.before_method ulid (message_type m) (payload m) k c = (c', r) →
  r = Ok Continue ∧ message_sequence (facet c') = message_sequence (facet c) + 1 ∧
  world c' = world c ∧
  durable v w0 a (mkCell (facet c') (store c') (apply (message_type m) (payload m) (world c)) (drawn c'),
    ms ++ [(message_type m, payload m)]).
Proof.
  intros [Ha He Hi Hroom Hlat Hw Hrec Hag] Hc Heq. cbn [fst snd] in *.
  destruct (before_method_spec a c (message_type m) (payload m) k Ha) as (c1 & H1 & Ha' & Hf & Hw' & Hes & Hl).
  { done. }
  rewrite H1 in Heq. simplify_eq. split; [done|]. rewrite Hf. split; [done|]. split; [done|].
  constructor; cbn [fst snd facet store world drawn].
  - rewrite <- Hf. destruct Ha'. by constructor.
  - by apply equipped_sequence.
  - done.
  - cbn. by rewrite <- Z.add_assoc.
  - intros cp. rewrite Hl. apply Hlat.
  - by rewrite run_messages_app, Hw.
  - rewrite (recovered_append a w0 (store c) (store c') _ (attached_sane _ _ Ha') Hes Hl), Hrec; [done|].
    intros cp Hcp. rewrite <- (attached_sequence _ _ Ha). by apply (attached_latest _ _ Ha).
  - by eapply (agreed_append a c); [exact Hes|apply promises_received|..].
Qed.

Lemma checkpoint_restorable v f a n t w d : replaying v → equipped v f →
  (∀ w', restore_checkpoint_state d w' = (w, Ok true)) →
  restorable (Df.parse_config v) (checkpoint_of (checkpoint_manager f) a n t d).
Proof.
  intros _ [_ _ _ _ Hv] Hr. split; [by cbn; rewrite Hv|]. by exists w.
Qed.

Lemma equipped_set_manager v f m : equipped v f → same_setup (checkpoint_manager f) m →
  equipped v (Df.set_manager m f).
Proof. intros [? ? ? Hm Hv] [H1 H2]. constructor; [done..|by rewrite <- Hm|by rewrite <- Hv]. Qed.

(** A durable state after [after_method]. *)
Lemma durable_after v w0 a c ms method args k : replaying v → durable v w0 a (c, ms) →
  column (message_sequence (facet c) + 2) →
  durable v w0 a ((Df.after_method zstd snappy ulid method args [] k c).1, ms).
Proof.
  intros Hv [Ha He Hi Hroom Hlat Hw Hrec Hag] Hc. cbn [fst snd] in *.
  destruct (after_method_spec a c method args [] k Ha) as (c1 & es & -> & Ha1 & Hf & Hw1 & Hes & Hq & Hl).
  { by rewrite Hi, Z.add_0_r. }
  rewrite Hi, Z.add_0_r in Hf.
  assert (equipped v (facet c1)) as He1 by (rewrite Hf; by destruct He).
  assert (recovered a w0 (store c1) = world c1) as Hrec1.
  { rewrite Hw1, <- Hrec. rewrite (recovered_append a w0 (store c) _ es), messages_quiet; [done..|apply Ha1|done|done|].
    intros cp Hcp. rewrite <- (attached_sequence _ _ Ha). by apply (attached_latest _ _ Ha). }
  destruct (snapshot (world c1)) as (d & Hcap & Hr).
  destruct (periodic_checkpoint_spec a c1 k Act.ActorCheckpointStateAdapter (world c1) d Ha1) as
    (m & s & w' & -> & Hm & Hatt & Hes2 & Hcase).
  { by eapply equipped_plain. }
  { apply He1. }
  { cbn. by rewrite Hcap. }
  assert (w' = world c1) as -> by tauto.
  assert (recovered a w0 s = world c1 ∧ ∀ cp, latest a s = Some cp → restorable (Df.parse_config v) cp) as [Hrec2 Hlat2].
  { assert (latest a s = latest a (store c1) ∨ ∃ t, latest a s =
      Some (checkpoint_of (checkpoint_manager (facet c1)) a (message_sequence (facet c1)) t d)) as [Hs|[t Hs]] by tauto.
    - split; [by unfold recovered in *; rewrite Hs, Hes2|]. intros cp. rewrite Hs, Hl. apply Hlat.
    - split; [|intros cp; rewrite Hs; intros [= <-]; by eapply checkpoint_restorable].
      eapply recovered_checkpoint; [apply (attached_sane _ _ Ha1)|done|done|apply (attached_sequence _ _ Ha1)|apply Hr]. }
  constructor; cbn [fst snd facet store world drawn]; try done.
  - by apply equipped_set_manager.
  - unfold taken in *. cbn. rewrite Hf. cbn. by destruct (execution_context (facet c)).
  - cbn. rewrite Hf. cbn. by rewrite <- Z.add_assoc.
  - by rewrite Hw1.
  - eapply (agreed_append a c); [by cbn; rewrite Hes2, Hes|by apply promises_quiet|by cbn; rewrite Hf..|done].
Qed.

(** A new incarnation of a durable state. *)
Lemma durable_attach v prio w0 a c x c' ms r : replaying v → durable v w0 a (x, ms) → store c = store x →
  drawn c = drawn x → Act.attach_facet a (Act.incarnate v prio w0 c) = (c', r) →
  r = Ok () ∧ durable v w0 a (c', ms) ∧ message_sequence (facet c') = message_sequence (facet x) ∧
  pending_promises (facet c') = pending_promises (facet x) ∧
  resolved_promises (facet c') = reread_promise <$> resolved_promises (facet x).
Proof.
  intros Hv [Ha He Hi Hroom Hlat Hw Hrec Hag] Hst Hd Heq. cbn [fst snd] in *.
  pose proof Ha as [Hs Hid Hseq Hiss Hcp].
  destruct (attach_spec v prio a w0 c Hv) as (c1 & H1 & Ha1 & Hst1 & Hd1 & Hw1 & He1 & Hi1 & Hp1).
  { by rewrite Hst. }
  { by rewrite Hst, Hd. }
  { by rewrite Hst, <- Hseq. }
  { intros cp Hl. rewrite Hst in Hl. split; [by apply Hlat|]. rewrite Hst, <- Hseq. by apply Hcp. }
  rewrite H1 in Heq. simplify_eq. split; [done|].
  assert (message_sequence (facet c') = message_sequence (facet x)) as Hseq1.
  { by rewrite (attached_sequence _ _ Ha1), Hst1, Hst, Hseq. }
  unfold agreed in Hag. rewrite Hst, Hag in Hp1. injection Hp1 as Hp1 Hp2.
  split; [|by split_and!]. constructor; cbn [fst snd]; try done.
  - by rewrite Hseq1.
  - intros cp. rewrite Hst1, Hst. apply Hlat.
  - by rewrite Hw1, Hst, Hrec.
  - by rewrite Hst1, Hw1.
  - unfold agreed. rewrite Hst1, Hst, Hag, Hp1, Hp2. f_equal. apply map_eq. intros i.
    rewrite !lookup_fmap. destruct (resolved_promises (facet x) !! i) as [[[b|[]] t]|]; done.
Qed.
(** The state that a stop leaves in the storage. *)
Lemma durable_stop v w0 a c ms k c1 r : replaying v → durable v w0 a (c, ms) →
  Act.stop zstd snappy a k c = (c1, r) →
  ∃ x, durable v w0 a (x, ms) ∧ store c1 = store x ∧ drawn c1 = drawn x ∧
    message_sequence (facet x) = message_sequence (facet c) ∧
    pending_promises (facet x) = pending_promises (facet c) ∧
    resolved_promises (facet x) = resolved_promises (facet c).
Proof.
  intros Hv [Ha He Hi Hroom Hlat Hw Hrec Hag] Heq. cbn [fst snd] in *.
  destruct (snapshot (world c)) as (d & Hcap & Hr).
  destruct (on_terminate_start_spec a c k Act.ActorCheckpointStateAdapter (world c) d Ha) as
    (m & s & t & H1 & Hm & Hatt & Hes & Hl).
  { by eapply equipped_plain. }
  { apply He. }
  { cbn. by rewrite Hcap. }
  unfold Act.stop in Heq. rewrite H1 in Heq. cbn [fst] in Heq. unfold Df.on_detach in Heq. revert Heq. monad.
  cbn [facet store world drawn]. destruct (flush_spec s (attached_sane _ _ Hatt)) as (s' & -> & Hs' & Hes' & Hl' & Hu').
  intros [= <- <-]. exists (mkCell (Df.set_manager m (facet c)) s' (world c) (drawn c)).
  split; [|done]. assert (latest a s' = Some (checkpoint_of (checkpoint_manager (facet c)) a
    (message_sequence (facet c)) t d)) as Hls by (by rewrite Hl').
  assert (entries a s' = entries a (store c)) as Hess by (by rewrite Hes').
  constructor; cbn [fst snd facet store world drawn]; try done.
  - destruct Hatt as [_ H2 H3 H4 H5]. constructor; cbn [facet store drawn] in *; [done|done|by rewrite Hes'| |by rewrite Hl'].
    eapply issued_mono; [exact H4|by rewrite Hu'|done].
  - by apply equipped_set_manager.
  - intros cp. rewrite Hls. intros [= <-]. by eapply checkpoint_restorable.
  - eapply (recovered_checkpoint a w0 _ (store c)); [apply Ha|done|done|apply Ha|apply Hr].
  - unfold agreed in *. cbn. by rewrite Hess.
Qed.

(** A message, from its journaling to the checkpoint. *)
Lemma durable_process v w0 a c c' ms m k r : replaying v → durable v w0 a (c, ms) →
  column (message_sequence (facet c) + 3) → Act.process_message zstd snappy ulid m k c = (c', r) →
  r = Ok () ∧ durable v w0 a (c', ms ++ [(message_type m, payload m)]).
Proof.
  intros Hv Hd Hc. pose proof (attached_column _ _ (durable_attached _ _ _ _ Hd)).
  assert (column (message_sequence (facet c) + 2)) as Hc2 by (unfold column in *; cbn [fst] in *; lia).
  unfold Act.process_message. monad.
  destruct (Df.before_method ulid (message_type m) (payload m) k c) as [c1 r1] eqn:H1.
  destruct (durable_before _ _ _ _ _ _ _ _ _ Hd Hc2 H1) as (-> & Hseq & Hw & Hd1).
  unfold Act.call_actor, Act.after, Act.handle. monad. rewrite handle_apply. cbn [facet store world drawn].
  assert (Df.set_context (execution_context (facet c1)) (facet c1) = facet c1) as -> by (by destruct (facet c1)).
  rewrite Hw. intros [= <- <-]. split; [done|]. apply durable_after; [done..|].
  cbn [facet]. rewrite Hseq. by replace (message_sequence (facet c) + 1 + 2) with (message_sequence (facet c) + 3) by lia.
Qed.

(** An entry of a promise. *)
Lemma durable_promise v w0 a c c' ms e P R : durable v w0 a (c, ms) → column (message_sequence (facet c) + 2) →
  attached a c' → world c' = world c →
  facet c' = Df.set_promises P R (Df.set_sequence (message_sequence (facet c) + 1) (facet c)) →
  entries a (store c') = entries a (store c) ++ [e] → messages [e] = [] →
  latest a (store c') = latest a (store c) → agreed a c' → durable v w0 a (c', ms).
Proof.
  intros [Ha He Hi Hroom Hlat Hw Hrec Hag] Hc Ha1 Hw1 Hf Hes Hm Hl Hag1. cbn [fst snd] in *.
  constructor; cbn [fst snd]; try done.
  - rewrite Hf. by destruct He.
  - by rewrite Hf.
  - rewrite Hf. cbn. by rewrite <- Z.add_assoc.
  - intros cp. rewrite Hl. apply Hlat.
  - by rewrite Hw1.
  - rewrite Hw1, <- Hrec. rewrite (recovered_append a w0 (store c) _ _ (attached_sane _ _ Ha1) Hes Hl), Hm; [done|].
    intros cp Hcp. rewrite <- (attached_sequence _ _ Ha). by apply (attached_latest _ _ Ha).
Qed.

Lemma durable_lives v prio w0 a x x' : replaying v → durable v w0 a x → lives v prio w0 a x x' →
  durable v w0 a x'.
Proof.
  intros Hv Hd Hl. revert Hd.
  destruct Hl as [m k c c' r ms Hc Heq|m k c c1 c2 r1 r2 ms Hc H1 H2|c c' r ms Heq|k c c1 c2 r1 r2 ms H1 H2
    |p timeout k c c' r ms Hc Heq|p res k c c' r ms Hc Heq]; intros Hd.
  - by eapply durable_process.
  - destruct (durable_before _ _ _ _ _ _ _ _ _ Hd Hc H1) as (_ & _ & _ & Hd1).
    by eapply durable_attach; [..|exact H2].
  - by eapply durable_attach; [..|exact Heq].
  - destruct (durable_stop _ _ _ _ _ _ _ _ Hv Hd H1) as (x & Hx & Hst & Hdr & _).
    by eapply durable_attach; [exact Hv|exact Hx|..|exact H2].
  - pose proof (durable_room _ _ _ _ Hd) as Hc1. pose proof (durable_attached _ _ _ _ Hd) as Ha.
    pose proof (create_promise_agreed _ _ _ _ _ _ _ Ha Hc1 (durable_promises _ _ _ _ Hd) Heq) as Hag.
    destruct (create_promise_spec a c p timeout k Ha Hc1) as [(_ & e & H1)|(_ & _ & c1 & H1 & Ha1 & Hw1 & Hf & Hes & Hl)];
      rewrite H1 in Heq; simplify_eq; [by destruct Hd; constructor|]. by eapply durable_promise.
  - pose proof (durable_room _ _ _ _ Hd) as Hc1. pose proof (durable_attached _ _ _ _ Hd) as Ha.
    pose proof (resolve_promise_agreed _ _ _ _ _ _ _ Ha Hc1 (durable_promises _ _ _ _ Hd) Heq) as Hag.
    destruct (resolve_promise_spec a c p res k Ha Hc1) as [(_ & e & H1)|(_ & c1 & H1 & Ha1 & Hw1 & Hf & Hes & Hl)];
      rewrite H1 in Heq; simplify_eq; [by destruct Hd; constructor|]. by eapply durable_promise.
Qed.

Lemma durable_initial v prio w0 a s0 d0 : replaying v → sane s0 → issued s0 d0 → entries a s0 = [] →
  latest a s0 = None →
  ∃ c0, Act.attach_facet a (mkCell (Df.new v prio) s0 w0 d0) = (c0, Ok ()) ∧ durable v w0 a (c0, []).
Proof.
  intros Hv Hs Hi Hes Hl.
  destruct (attach_spec v prio a w0 (mkCell (Df.new v prio) s0 w0 d0) Hv Hs Hi)
    as (c0 & Hatt & Ha & Hst & _ & Hw & He & Ht & Hp).
  - cbn. by rewrite Hes.
  - cbn. intros cp. by rewrite Hl.
  - exists c0. split; [done|]. cbn [store] in *. rewrite Hes in Hp. injection Hp as Hp Hr.
    assert (recovered a w0 s0 = w0) as Hrec by (unfold recovered; by rewrite Hl, Hes).
    constructor; cbn [fst snd]; [done|done|done| | |by rewrite Hw|by rewrite Hst, Hw|].
    + rewrite (attached_sequence _ _ Ha), Hst, Hes. done.
    + intros cp. by rewrite Hst, Hl.
    + unfold agreed. by rewrite Hst, Hes, Hp, Hr, fmap_empty.
Qed.

Lemma durable_runs v prio w0 a x x' : replaying v → durable v w0 a x → steps (lives v prio w0 a) x x' →
  durable v w0 a x'.
Proof. intros Hv. apply steps_invariant. intros x1 x2. by apply durable_lives. Qed.

(** C10. Durable execution.  Take an actor whose state is what its messages made of it, attached for the
    first time to an empty journal.  Through any run of messages, promises, graceful stops and crashes
    (at rest or between the journaling of a message and its handling), its state is the one that all
    its accepted messages make of the initial state, and every new attachment succeeds and finds that
    state and the next free number of the journal again, from the latest checkpoint and the messages
    journaled after it. *)
Theorem recovery_restores_state v prio w0 a s0 d0 c0 c ms : replaying v → sane s0 → issued s0 d0 →
  entries a s0 = [] → latest a s0 = None →
  Act.attach_facet a (mkCell (Df.new v prio) s0 w0 d0) = (c0, Ok ()) →
  steps (lives v prio w0 a) (c0, []) (c, ms) →
  world c = run_messages ms w0 ∧
  ∃ c', Act.attach_facet a (Act.incarnate v prio w0 c) = (c', Ok ()) ∧
    world c' = run_messages ms w0 ∧ message_sequence (facet c') = message_sequence (facet c).
Proof.
  intros Hv Hs Hi Hes Hl Hatt Hrun.
  destruct (durable_initial v prio w0 a s0 d0 Hv Hs Hi Hes Hl) as (c1 & Hatt' & Hd).
  rewrite Hatt' in Hatt. injection Hatt as ->. pose proof (durable_runs _ _ _ _ _ _ Hv Hd Hrun) as Hd'.
  split; [exact (durable_world _ _ _ _ Hd')|].
  destruct (Act.attach_facet a (Act.incarnate v prio w0 c)) as [c' r] eqn:H1.
  destruct (durable_attach v prio w0 a c c c' ms r Hv Hd' eq_refl eq_refl H1) as (-> & Hd2 & Hseq & _).
  exists c'. split; [done|]. split; [exact (durable_world _ _ _ _ Hd2)|done].
Qed.

(** Promises survive: after any run as above, a new attachment reads back from the journal exactly
    the pending promises, and every resolved promise with its result and the time of its resolution;
    only a rejection with an empty text reads back as a fulfilment with an empty result. *)
Theorem promises_survive_restart v prio w0 a s0 d0 c0 c ms : replaying v → sane s0 → issued s0 d0 →
  entries a s0 = [] → latest a s0 = None →
  Act.attach_facet a (mkCell (Df.new v prio) s0 w0 d0) = (c0, Ok ()) →
  steps (lives v prio w0 a) (c0, []) (c, ms) →
  ∃ c', Act.attach_facet a (Act.incarnate v prio w0 c) = (c', Ok ()) ∧
    pending_promises (facet c') = pending_promises (facet c) ∧
    ∀ p, Df.get_promise_result p (facet c') =
      match Df.get_promise_result p (facet c) with
      | Some (Err EmptyString, t) => Some (Ok [], t)
      | r => r
      end.
Proof.
  intros Hv Hs Hi Hes Hl Hatt Hrun.
  destruct (durable_initial v prio w0 a s0 d0 Hv Hs Hi Hes Hl) as (c1 & Hatt' & Hd).
  rewrite Hatt' in Hatt. injection Hatt as ->. pose proof (durable_runs _ _ _ _ _ _ Hv Hd Hrun) as Hd'.
  destruct (Act.attach_facet a (Act.incarnate v prio w0 c)) as [c' r] eqn:H1.
  destruct (durable_attach v prio w0 a c c c' ms r Hv Hd' eq_refl eq_refl H1) as (-> & _ & _ & Hp & Hr).
  exists c'. split; [done|]. split; [done|]. intros p. unfold Df.get_promise_result. rewrite Hr, lookup_fmap.
  by destruct (resolved_promises (facet c) !! p) as [[[b|[]] t]|].
Qed.

(** A message takes two numbers, and no checkpoint when the second is no multiple of the interval. *)
Lemma process_numbers v w0 a c c' ms m k r : replaying v → durable v w0 a (c, ms) →
  column (message_sequence (facet c) + 3) → Act.process_message zstd snappy ulid m k c = (c', r) →
  (message_sequence (facet c) + 2) mod checkpoint_interval (Df.parse_config v) ≠ 0 →
  message_sequence (facet c') = message_sequence (facet c) + 2 ∧ latest a (store c') = latest a (store c).
Proof.
  intros Hv Hd Hc. pose proof (attached_column _ _ (durable_attached _ _ _ _ Hd)).
  assert (column (message_sequence (facet c) + 2)) as Hc2 by (unfold column in *; cbn [fst] in *; lia).
  destruct (before_method_spec a c (message_type m) (payload m) k (durable_attached _ _ _ _ Hd))
    as (c1 & H1 & _ & Hf & _ & _ & Hl); [exact (durable_room _ _ _ _ Hd)|].
  destruct (durable_before _ _ _ _ _ _ _ _ _ Hd Hc2 H1) as (_ & Hseq & Hw & [Ha1 He1 Hi1 _ _ _ _ _]).
  unfold Act.process_message. monad. rewrite H1.
  unfold Act.call_actor, Act.after, Act.handle. monad. rewrite handle_apply. cbn [facet store world drawn].
  assert (Df.set_context (execution_context (facet c1)) (facet c1) = facet c1) as -> by (by destruct (facet c1)).
  rewrite Hw. set (c2 := mkCell (facet c1) (store c1) _ (drawn c1)) in *. cbn [fst] in *.
  destruct (after_method_spec a c2 (message_type m) (payload m) [] k Ha1) as (c3 & es & -> & Ha3 & Hf3 & _ & _ & _ & Hl3).
  { rewrite Hi1. cbn. rewrite Hseq. unfold column in *. lia. }
  intros [= <- <-] Hmod. rewrite Hi1 in Hf3. cbn [c2 facet length] in Hf3.
  assert (message_sequence (facet c3) = message_sequence (facet c) + 2) as Hseq3 by (rewrite Hf3; cbn; lia).
  assert (config (facet c3) = Df.parse_config v) as Hcfg by (rewrite Hf3; apply He1).
  unfold Df.periodic_checkpoint. monad. rewrite Hseq3, Hcfg, (proj2 (Z.eqb_neq _ _) Hmod), andb_false_r.
  cbn. by rewrite Hl3, <- Hl.
Qed.

(** A journal whose numbers have the wrong parity is never checkpointed: with an even interval, an
    actor without side effects whose last number is odd (which one crash between the journaling and
    the result of a message, or one promise, leaves behind) gets no periodic checkpoint any more,
    however many messages it processes. *)
Theorem misaligned_journal_never_checkpoints v w0 a c ms msgs : replaying v → durable v w0 a (c, ms) →
  Z.even (checkpoint_interval (Df.parse_config v)) = true →
  Z.odd (message_sequence (facet c)) = true →
  column (message_sequence (facet c) + 2 * Z.of_nat (length msgs) + 1) →
  let c' := foldl (λ c mk, (Act.process_message zstd snappy ulid mk.1 mk.2 c).1) c msgs in
  latest a (store c') = latest a (store c).
Proof.
  intros Hv Hd Hev. revert c ms Hd. induction msgs as [|[m k] msgs IH]; intros c ms Hd Hodd Hc; [done|].
  cbn [foldl fst snd length] in *. pose proof (attached_column _ _ (durable_attached _ _ _ _ Hd)) as Hcol.
  cbn [fst] in Hcol.
  destruct (Act.process_message zstd snappy ulid m k c) as [c' r] eqn:Hproc.
  assert (column (message_sequence (facet c) + 3)) as Hc3 by (unfold column in *; lia).
  destruct (durable_process _ _ _ _ _ _ _ _ _ Hv Hd Hc3 Hproc) as [_ Hd'].
  destruct (process_numbers _ _ _ _ _ _ _ _ _ Hv Hd Hc3 Hproc) as [Hseq Hl].
  { intros Hmod. apply Z.even_spec in Hev as [h Hh]. apply Z.odd_spec in Hodd as [o Ho].
    destruct (Z.eq_dec (checkpoint_interval (Df.parse_config v)) 0) as [Hz|Hz]; [rewrite Hz, Z.mod_0_r in Hmod; lia|].
    apply Z.mod_divide in Hmod as [q Hq]; [|done]. rewrite Hh, Ho in Hq. lia. }
  cbn [fst]. rewrite (IH c' _ Hd'), Hl; [done|..].
  - rewrite Hseq. by rewrite Z.odd_add, Hodd.
  - rewrite Hseq. unfold column in *. lia.
Qed.

(** An exit signal loses the state: when a checkpoint is due, [on_exit] saves an empty one at the
    last number, so that the next attachment replays no message and leaves the actor with what it
    makes of no bytes at all. *)
Theorem exit_checkpoint_erases_state v prio w0 w1 a c ms k : replaying v → durable v w0 a (c, ms) →
  due (checkpoint_manager (facet c)) a (message_sequence (facet c)) k = true →
  (∀ w, restore_checkpoint_state [] w = (w1, Ok true)) →
  ∃ c1 c2, Df.on_exit zstd snappy a k c = (c1, Ok ()) ∧ world c1 = world c ∧
    Act.attach_facet a (Act.incarnate v prio w0 c1) = (c2, Ok ()) ∧ world c2 = w1.
Proof.
  intros Hv [Ha He Hi Hroom Hlat Hw Hrec Hag] Hdue Hr. cbn [fst snd] in *.
  destruct (maybe_checkpoint_facet a c [] k Ha) as (m & s & r & Heq & Hm & Hatt & Hes & Hd).
  { by eapply equipped_plain. }
  rewrite Hdue in Hd. destruct Hd as [t Hl]. set (c1 := mkCell (Df.set_manager m (facet c)) s (world c) (drawn c)).
  exists c1. specialize (Hatt (world c)). fold c1 in Hatt.
  destruct (attach_spec v prio a w0 c1 Hv) as (c2 & H2 & _ & _ & _ & Hw2 & _).
  - apply Hatt.
  - apply Hatt.
  - cbn. by rewrite Hes, <- (attached_sequence _ _ Ha).
  - cbn. intros cp. rewrite Hl. intros [= <-]. split; [by eapply checkpoint_restorable|]. cbn.
    rewrite Hes, (attached_sequence _ _ Ha). pose proof (attached_column _ _ Ha) as [Hcol _].
    rewrite (attached_sequence _ _ Ha) in Hcol. lia.
  - exists c2. unfold Df.on_exit. rewrite Heq. split; [done|]. split; [done|]. split; [done|].
    rewrite Hw2. eapply (recovered_checkpoint a w0 w1 (store c)); [apply Ha|done|done|apply (attached_sequence _ _ Ha)|apply Hr].
Qed.
End recovery.

(** ** Limits of recovery *)

Section limits.
Context `{!Behavior W}.

(** A handler that rejects every message of a type and payload. *)
Definition rejects (ty : string) (args : list Z) : Prop :=
  ∀ m ctx w, message_type m = ty → payload m = args → ∃ ctx' w' e, handle_message m ctx w = (ctx', w', Err e).

Lemma replay_rejected a ty args es : rejects ty args →
  (∃ e mid sender md, e ∈ es ∧ entry e = Some (MessageReceived mid sender ty args md)) →
  ∀ c : Cell W S, ∃ c' e, Df.replay_messages Act.ActorReplayHandler a es c = (c', Err e).
Proof.
  intros Hrej. induction es as [|x es IH]; intros (e & mid & sender & md & Hin & He) c;
    [by apply not_elem_of_nil in Hin|].
  cbn [Df.replay_messages]. destruct (Df.message_of a x) as [m|] eqn:Hx.
  - destruct (Df.run_handler Act.ActorReplayHandler m c) as [c1 [[]|er]] eqn:Hrun; [|by do 2 eexists].
    apply elem_of_cons in Hin as [<-|Hin]; [|apply IH; by exists e, mid, sender, md].
    exfalso. unfold Df.message_of in Hx. rewrite He in Hx. simplify_eq.
    unfold Df.run_handler in Hrun. cbn in Hrun.
    destruct (Hrej (mkMessage mid sender a ty args md (correlation_id e)) (execution_context (facet c)) (world c))
      as (ctx' & w' & er & Heq); [done..|]. rewrite Heq in Hrun. simplify_eq.
  - apply elem_of_cons in Hin as [<-|Hin]; [|apply IH; by exists e, mid, sender, md].
    unfold Df.message_of in Hx. by rewrite He in Hx.
Qed.

(** A successful [load_checkpoint] gives the number after the latest checkpoint and keeps the rest. *)
Lemma load_checkpoint_number a (c c' : Cell W S) n : sane (store c) →
  Df.load_checkpoint a c = (c', Ok n) →
  store c' = store c ∧ replay_handler (facet c') = replay_handler (facet c) ∧
  n = match latest a (store c) with Some cp => u64_add (cp_sequence cp) 1 | None => 0 end.
Proof.
  intros Hs. unfold Df.load_checkpoint. rewrite get_latest_checkpoint_spec by done.
  destruct (latest a (store c)) as [cp|]; [|intros; simplify_eq; done].
  case_match; [done|]. unfold Df.restore_checkpoint. monad.
  destruct (checkpoint_state_adapter (facet c)) as [ad|].
  - destruct (restore_state ad (state_data cp) (world c)) as [w [[]|e]]; [intros; simplify_eq; done| |done].
    cbn. destruct (state_loader (facet c)) as [l|]; [|intros; simplify_eq; done].
    destruct (deserialize l (state_data cp)) as [x|]; [|done].
    cbn [facet store world drawn]. destruct (loader_restore_state l x w) as [w' [[]|]]; intros; simplify_eq; done.
  - destruct (state_loader (facet c)) as [l|]; [|intros; simplify_eq; done].
    destruct (deserialize l (state_data cp)) as [x|]; [|done].
    destruct (loader_restore_state l x (world c)) as [w' [[]|]]; intros; simplify_eq; done.
Qed.

(** A rejected message blocks recovery: the message is in the journal before the actor answers it
    with an error; from then on no attachment of an actor that rejects it again succeeds, in any
    configuration that replays, until a checkpoint covers it. *)
Theorem rejected_message_blocks_recovery a c m k : attached a c → column (message_sequence (facet c) + 1) →
  rejects (message_type m) (payload m) →
  let c1 := (Act.process_message zstd snappy ulid m k c).1 in
  (Act.process_message zstd snappy ulid m k c).2 ≠ Ok () ∧
  ∀ v prio w0 x, store x = store c1 → replay_on_activation (Df.parse_config v) = true →
    ∃ e, (Act.attach_facet a (Act.incarnate v prio w0 x)).2 = Err e.
Proof.
  intros Ha Hc Hrej.
  destruct (before_method_spec a c (message_type m) (payload m) k Ha Hc) as (c0 & H0 & Ha0 & Hf0 & _ & Hes & Hl).
  destruct (Hrej m (execution_context (facet c0)) (world c0) eq_refl eq_refl) as (ctx & w & er & Her).
  assert (Act.process_message zstd snappy ulid m k c =
    (mkCell (Df.set_context ctx (facet c0)) (store c0) w (drawn c0), Err (BehaviorError er))) as ->.
  { unfold Act.process_message. monad. rewrite H0. unfold Act.call_actor, Act.handle. monad. by rewrite Her. }
  split; [done|]. intros v prio w0 x Hx Hre. cbn in Hx. unfold Act.attach_facet, Df.on_attach. monad.
  cbn [facet store world drawn Act.incarnate]. set (f1 := Df.set_actor_id _ _).
  change (config f1) with (Df.parse_config v). rewrite Hre. rewrite Hx. set (c1 := mkCell f1 _ _ _).
  destruct (Df.load_checkpoint a c1) as [c2 [n|e]] eqn:Hload; [|by eexists].
  apply load_checkpoint_number in Hload as (Hst & Hh & Hn); [|apply Ha0]. cbn [store c1] in *.
  rewrite Hh. change (replay_handler (facet c1)) with (Some (Act.ActorReplayHandler (W := W))). cbn iota.
  unfold Df.replay_journal_with_handler. monad. rewrite Hst. pose proof (attached_column _ _ Ha) as Hcol.
  assert (column n ∧ n <= message_sequence (facet c) + 1) as [Hcn Hle].
  { rewrite Hn, Hl. destruct (latest a (store c)) as [cp|] eqn:Hcp; [|split; [done|unfold column in *; lia]].
    pose proof (attached_latest _ _ Ha _ Hcp). rewrite u64_add_small by (unfold column, u64_max in *; lia).
    unfold column in *. lia. }
  rewrite replay_from_spec by (done || apply Ha0). rewrite Hh.
  change (replay_handler (facet c1)) with (Some (Act.ActorReplayHandler (W := W))). cbn iota.
  assert (∀ x : Cell W S, ∃ c' e, Df.replay_messages Act.ActorReplayHandler a (from n (entries a (store c0))) x =
    (c', Err e)) as Hall.
  { apply (replay_rejected a _ _ _ Hrej).
    exists (received a (message_sequence (facet c) + 1) (drawn c) (message_type m) (payload m) k). do 3 eexists.
    split; [|done]. unfold from. apply elem_of_filterb. rewrite Hes, elem_of_snoc. split; [by right|].
    cbn. apply Z.leb_le. lia. }
  cbv beta. match goal with |- context [Df.replay_messages _ _ _ ?x] => destruct (Hall x) as (c4 & e & ->) end.
  by eexists.
Qed.

(** A configuration with the explicit schema version 0 cannot read its own checkpoints: the manager
    stamps them with version 1, and the attachment compares that with 0. *)
Theorem version_zero_locks_out v prio w0 a (c : Cell W S) cp : sane (store c) → latest a (store c) = Some cp →
  replay_on_activation (Df.parse_config v) = true → dc_schema_version (Df.parse_config v) = 0 →
  state_schema_version cp = schema_version (checkpoint_manager (Df.new (W := W) v prio)) →
  ∃ e, (Act.attach_facet a (Act.incarnate v prio w0 c)).2 = Err e.
Proof.
  intros Hs Hl Hre H0 Hcp. unfold Act.attach_facet, Df.on_attach. monad.
  cbn [facet store world drawn Act.incarnate]. set (f1 := Df.set_actor_id _ _).
  change (config f1) with (Df.parse_config v). rewrite Hre.
  unfold Df.load_checkpoint. cbn [store facet]. rewrite get_latest_checkpoint_spec, Hl by done.
  change (config f1) with (Df.parse_config v). rewrite Hcp. unfold Df.new.
  cbn [checkpoint_manager schema_version Ckpt.new_manager]. rewrite H0. cbn. by eexists.
Qed.

(** The messages of a replay, run one after the other in the facet's own execution context. *)
Fixpoint run_handlers (ms : list Message) (ctx : option ExecutionContextImpl) (w : W) : W :=
  match ms with
  | [] => w
  | m :: ms =>
      match handle_message m ctx w with
      | (ctx, w, Ok _) => run_handlers ms ctx w
      | (_, w, Err _) => set_replay_signal false w
      end
  end.

Lemma replay_messages_world a es (c : Cell W S) :
  world (Df.replay_messages Act.ActorReplayHandler a es c).1 =
    run_handlers (omap (Df.message_of a) es) (execution_context (facet c)) (world c).
Proof.
  revert c. induction es as [|e es IH]; intros c; [done|]. cbn [Df.replay_messages omap list_omap].
  destruct (Df.message_of a e) as [m|]; [|apply IH]. unfold Df.run_handler. cbn.
  destruct (handle_message m (execution_context (facet c)) (world c)) as [[ctx w] [[]|er]]; [|done].
  by rewrite IH.
Qed.

(** The cached side effects do not reach the handler: what a replay makes of the actor is a function of
    the journaled messages and of the facet's own context, which is unset while a facet is attached,
    whatever outputs the journal holds. *)
Theorem replay_ignores_cached_effects a n es (c : Cell W S) :
  world (Df.replay_messages Act.ActorReplayHandler a (from n es) c).1 =
  world (Df.replay_messages Act.ActorReplayHandler a
    (List.filter (λ e, match entry e with Some (SideEffectExecuted _ _ _ _ _) => false | _ => true end)
      (from n es)) c).1.
Proof.
  rewrite !replay_messages_world. f_equal. induction (from n es) as [|e l IH]; [done|].
  cbn [List.filter]. case_match eqn:Hf; cbn [omap list_omap].
  - by rewrite IH.
  - assert (Df.message_of a e = None) as -> by (unfold Df.message_of; by destruct (entry e) as [[]|]). done.
Qed.
End limits.

(** ** The well-formed states *)

Lemma attached_world a c w : attached a c → attached a (mkCell (facet c) (store c) w (drawn c)).
Proof. intros []. by constructor. Qed.

Lemma periodic_checkpoint_attached a c k : attached a c → plain (facet c) →
  attached a (Df.periodic_checkpoint zstd snappy a k c).1.
Proof.
  intros Ha Hp. unfold Df.periodic_checkpoint. monad. destruct (_ && _); [|done].
  destruct (checkpoint_state_adapter (facet c)) as [ad|]; [|done].
  destruct (capture_state ad (world c)) as [w [[data|]|e]]; [|by apply attached_world..].
  destruct (maybe_checkpoint_facet a (mkCell (facet c) (store c) w (drawn c)) data k) as
    (m & s & r & Heq & _ & Hatt & _); [by apply attached_world|done|].
  unfold Df.with_manager in Heq. cbn [facet store world drawn] in *. rewrite Heq. apply Hatt.
Qed.

Lemma on_terminate_start_attached a c k : attached a c → plain (facet c) →
  attached a (Df.on_terminate_start zstd snappy a k c).1.
Proof.
  intros Ha Hp. destruct (checkpoint_state_adapter (facet c)) as [ad|] eqn:Had.
  - destruct (capture_state ad (world c)) as [w [[data|]|e]] eqn:Hcap;
      [|by unfold Df.on_terminate_start; monad; rewrite Had, Hcap; apply attached_world..].
    by destruct (on_terminate_start_spec a c k ad w data Ha Hp Had Hcap) as (m & s & t & -> & _ & Hatt & _).
  - unfold Df.on_terminate_start. monad. by rewrite Had.
Qed.

(** C29. Well-formedness.  Every operation of an attached facet, whatever actor, adapter and side effects
    it works with and whether it succeeds or fails, leaves a well-formed state: the journal ascends
    within the column of the storage, [message_sequence] is its last number, the latest checkpoint is
    not above it, and every stored identifier has been drawn. *)
Theorem facet_stays_well_formed a c k : attached a c → plain (facet c) →
  column (message_sequence (facet c) + 1 + Z.of_nat (length (taken (facet c)))) →
  (∀ method args, attached a (Df.before_method ulid method args k c).1) ∧
  (∀ method args res, attached a (Df.after_method zstd snappy ulid method args res k c).1) ∧
  (∀ p timeout, attached a (Df.create_promise ulid p timeout k c).1) ∧
  (∀ p res, attached a (Df.resolve_promise ulid p res k c).1) ∧
  attached a (Df.on_exit zstd snappy a k c).1 ∧
  attached a (Df.on_terminate_start zstd snappy a k c).1.
Proof.
  intros Ha Hp Hc. pose proof (attached_column _ _ Ha) as Hcol.
  assert (column (message_sequence (facet c) + 1)) as Hc1 by (unfold column in *; lia).
  split; [|split; [|split; [|split; [|split]]]].
  - intros method args. by destruct (before_method_spec a c method args k Ha Hc1) as (c' & -> & ? & _).
  - intros method args res. destruct (after_method_spec a c method args res k Ha Hc) as (c' & es & -> & Ha' & Hf & _).
    apply periodic_checkpoint_attached; [done|by rewrite Hf].
  - intros p timeout.
    by destruct (create_promise_spec a c p timeout k Ha Hc1) as [(_ & e & ->)|(_ & _ & c' & -> & ? & _)].
  - intros p res.
    by destruct (resolve_promise_spec a c p res k Ha Hc1) as [(_ & e & ->)|(_ & c' & -> & ? & _)].
  - unfold Df.on_exit. destruct (maybe_checkpoint_facet a c [] k Ha Hp) as (m & s & r & -> & _ & Hatt & _).
    apply Hatt.
  - by apply on_terminate_start_attached.
Qed.
End laws.

(** ** Witnesses *)

(** A counter that adds up the payloads of its messages, on a SQLite journal, with a checkpoint every
    four entries. *)
Section counter.
#[local] Instance counter_storage : JournalStorage SqliteJournalStorage := Sql.sqlite 0 "UNIQUE" "timeout".
#[local] Instance counter_laws : JournalLaws SqliteJournalStorage := sqlite_laws 0 "UNIQUE" "timeout".
#[local] Instance counter_behavior : Behavior Z := {
  handle_message m ctx w := (ctx, foldl Z.add w (payload m), Ok ());
  set_replay_signal _ w := w;
  capture_checkpoint_state w := (w, Ok (Some [w]));
  restore_checkpoint_state d _ := (default 0 (head d), Ok true)
}.
#[local] Instance counter_replayable : Replayable := {
  apply _ args w := foldl Z.add w args;
  handle_apply _ _ _ := eq_refl;
  signal_neutral _ _ := eq_refl;
  snapshot w := ex_intro _ [w] (conj eq_refl (λ _, eq_refl))
}.

Definition counter_ulid (n : nat) : string := pretty.pretty n.
#[local] Instance counter_ulid_inj : Inj (=) (=) counter_ulid.
Proof. apply _. Qed.
Definition counter_config : Value := Object [("checkpoint_interval", Number 4)]%string.
Definition counter_clock : Clock := mkClock 0 10 1700000000.
Definition counter_message (n : Z) : Message := mkMessage "m" "s" "a" "cast" [n] ∅ "".
Definition empty_db : SqliteJournalStorage := mkSqlite [] [] ∅.

#[local] Abbreviation attach := (Act.attach_facet (W := Z) (S := SqliteJournalStorage) "a").
#[local] Abbreviation process n c :=
  (Act.process_message None None counter_ulid (counter_message n) counter_clock c).
Definition counter0 := (attach (mkCell (Df.new counter_config 50) empty_db 0 0)).1.
Definition counter1 := (process 1 counter0).1.
Definition counter2 := (process 2 counter1).1.
Definition counter3 := (Df.before_method counter_ulid "cast" [3] counter_clock counter2).1.
Definition counter4 := (attach (Act.incarnate counter_config 50 0 counter3)).1.
Definition counter5 := (Df.create_promise counter_ulid "p" None counter_clock counter4).1.
Definition counter6 := (Df.resolve_promise counter_ulid "p" (Ok [9]) counter_clock counter5).1.

Definition counter_messages : list (string * list Z) := [("cast", [1]); ("cast", [2]); ("cast", [3])]%string.

Lemma counter_attached : (attach (mkCell (Df.new counter_config 50) empty_db 0 0)).2 = Ok ().
Proof. vm_compute. reflexivity. Qed.
Lemma counter_first : attach (mkCell (Df.new counter_config 50) empty_db 0 0) = (counter0, Ok ()).
Proof. rewrite <- counter_attached. apply surjective_pairing. Qed.
Lemma counter_room0 : column (message_sequence (facet counter0) + 3).
Proof. vm_compute. by split. Qed.
Lemma counter_room1 : column (message_sequence (facet counter1) + 3).
Proof. vm_compute. by split. Qed.
Lemma counter_room2 : column (message_sequence (facet counter2) + 2).
Proof. vm_compute. by split. Qed.
Lemma counter_room4 : column (message_sequence (facet counter4) + 2).
Proof. vm_compute. by split. Qed.
Lemma counter_room5 : column (message_sequence (facet counter5) + 2).
Proof. vm_compute. by split. Qed.
Lemma counter_replaying : replaying counter_config.
Proof. split; [|split; [|right]]; vm_compute; reflexivity. Qed.
Lemma empty_sane : sane empty_db.
Proof. apply sql_sane_empty. Qed.
Lemma empty_entries : entries "a" empty_db = [].
Proof. vm_compute. reflexivity. Qed.
Lemma empty_latest : latest "a" empty_db = None.
Proof. vm_compute. reflexivity. Qed.
Lemma empty_issued : issued counter_ulid empty_db 0.
Proof. intros i. by intros ?%not_elem_of_empty. Qed.

#[local] Abbreviation counter_step := (lives None None counter_ulid counter_config 50 0 "a").
#[local] Opaque counter0 counter1 counter2 counter3 counter4 counter5 counter6.
Lemma counter_eq1 : process 1 counter0 = (counter1, (process 1 counter0).2).
Proof. apply surjective_pairing. Qed.
Lemma counter_eq2 : process 2 counter1 = (counter2, (process 2 counter1).2).
Proof. apply surjective_pairing. Qed.
Lemma counter_eq3 : Df.before_method counter_ulid "cast" [3] counter_clock counter2 =
  (counter3, (Df.before_method counter_ulid "cast" [3] counter_clock counter2).2).
Proof. apply surjective_pairing. Qed.
Lemma counter_eq4 : attach (Act.incarnate counter_config 50 0 counter3) =
  (counter4, (attach (Act.incarnate counter_config 50 0 counter3)).2).
Proof. apply surjective_pairing. Qed.
Lemma counter_eq5 : Df.create_promise counter_ulid "p" None counter_clock counter4 =
  (counter5, (Df.create_promise counter_ulid "p" None counter_clock counter4).2).
Proof. apply surjective_pairing. Qed.
Lemma counter_eq6 : Df.resolve_promise counter_ulid "p" (Ok [9]) counter_clock counter5 =
  (counter6, (Df.resolve_promise counter_ulid "p" (Ok [9]) counter_clock counter5).2).
Proof. apply surjective_pairing. Qed.

Lemma counter_lives4 : steps counter_step (counter0, []) (counter4, counter_messages).
Proof.
  apply (steps_step _ _ (counter2, [("cast", [1]); ("cast", [2])]%string)).
  - apply (steps_step _ _ (counter1, [("cast", [1])]%string)).
    + apply (steps_step _ _ (counter0, [])); [apply steps_refl|].
      exact (lives_process _ _ _ _ _ _ _ (counter_message 1) _ _ _ _ [] counter_room0 counter_eq1).
    + exact (lives_process _ _ _ _ _ _ _ (counter_message 2) _ _ _ _ [_] counter_room1 counter_eq2).
  - exact (lives_crash_in_message _ _ _ _ _ _ _ (counter_message 3) _ _ _ _ _ _ [_; _] counter_room2 counter_eq3
      counter_eq4).
Qed.
Lemma counter_lives6 : steps counter_step (counter0, []) (counter6, counter_messages).
Proof.
  apply (steps_step _ _ (counter5, counter_messages)).
  - apply (steps_step _ _ (counter4, counter_messages)); [exact counter_lives4|].
    exact (lives_create _ _ _ _ _ _ _ _ _ _ _ _ _ _ counter_room4 counter_eq5).
  - exact (lives_resolve _ _ _ _ _ _ _ _ _ _ _ _ _ _ counter_room5 counter_eq6).
Qed.

Lemma recovery_restores_state_witness :
  world counter6 = run_messages counter_messages 0 ∧
  ∃ c', attach (Act.incarnate counter_config 50 0 counter6) = (c', Ok ()) ∧
    world c' = run_messages counter_messages 0 ∧ message_sequence (facet c') = message_sequence (facet counter6).
Proof.
  apply (recovery_restores_state None None counter_ulid counter_config 50 0 "a" empty_db 0 counter0 counter6
    counter_messages counter_replaying empty_sane empty_issued empty_entries empty_latest counter_first counter_lives6).
Defined.

Lemma promises_survive_restart_witness :
  ∃ c', attach (Act.incarnate counter_config 50 0 counter6) = (c', Ok ()) ∧
    pending_promises (facet c') = pending_promises (facet counter6) ∧
    ∀ p, Df.get_promise_result p (facet c') =
      match Df.get_promise_result p (facet counter6) with
      | Some (Err EmptyString, t) => Some (Ok [], t)
      | r => r
      end.
Proof.
  apply (promises_survive_restart None None counter_ulid counter_config 50 0 "a" empty_db 0 counter0 counter6
    counter_messages counter_replaying empty_sane empty_issued empty_entries empty_latest counter_first counter_lives6).
Defined.

Lemma counter_durable0 : durable counter_ulid counter_config 0 "a" (counter0, []).
Proof.
  destruct (durable_initial counter_ulid counter_config 50 0 "a" empty_db 0 counter_replaying empty_sane
    empty_issued empty_entries empty_latest) as (c & Hc & Hd). rewrite counter_first in Hc. by injection Hc as <-.
Qed.
Lemma counter_durable4 : durable counter_ulid counter_config 0 "a" (counter4, counter_messages).
Proof. exact (durable_runs _ _ _ _ _ _ _ _ _ counter_replaying counter_durable0 counter_lives4). Qed.
Lemma counter_odd : Z.odd (message_sequence (facet counter4)) = true.
Proof. vm_compute. reflexivity. Qed.
Lemma counter_even : Z.even (checkpoint_interval (Df.parse_config counter_config)) = true.
Proof. vm_compute. reflexivity. Qed.
Lemma counter_column : column (message_sequence (facet counter4) + 2 * 5 + 1).
Proof. vm_compute. by split. Qed.

Lemma misaligned_journal_never_checkpoints_witness :
  latest "a" (store (foldl (λ c mk, (Act.process_message None None counter_ulid mk.1 mk.2 c).1) counter4
    (replicate 5 (counter_message 7, counter_clock)))) = latest "a" (store counter4).
Proof.
  apply (misaligned_journal_never_checkpoints None None counter_ulid counter_config 0 "a" counter4
    counter_messages (replicate 5 (counter_message 7, counter_clock)) counter_replaying counter_durable4
    counter_even counter_odd counter_column).
Defined.

Lemma counter_due : due (checkpoint_manager (facet counter4)) "a" (message_sequence (facet counter4))
  counter_clock = true.
Proof. vm_compute. reflexivity. Qed.
Lemma exit_checkpoint_erases_state_witness :
  ∃ c1 c2, Df.on_exit None None "a" counter_clock counter4 = (c1, Ok ()) ∧ world c1 = world counter4 ∧
    attach (Act.incarnate counter_config 50 0 c1) = (c2, Ok ()) ∧ world c2 = 0.
Proof.
  apply (exit_checkpoint_erases_state None None counter_ulid counter_config 50 0 0 "a" counter4 counter_messages
    counter_clock counter_replaying counter_durable4 counter_due (λ _, eq_refl)).
Defined.
End counter.

(** An actor that rejects every message. *)
Section rejecting.
#[local] Instance rejecting_storage : JournalStorage SqliteJournalStorage := Sql.sqlite 0 "UNIQUE" "timeout".
#[local] Instance rejecting_laws : JournalLaws SqliteJournalStorage := sqlite_laws 0 "UNIQUE" "timeout".
#[local] Existing Instance counter_ulid_inj.
#[local] Instance rejecting_behavior : Behavior Z := {
  handle_message m ctx w := (ctx, w, Err "rejected"%string);
  set_replay_signal _ w := w;
  capture_checkpoint_state w := (w, Ok None);
  restore_checkpoint_state d w := (w, Ok false)
}.
Definition rejecting_cell : Cell Z SqliteJournalStorage :=
  mkCell (Df.set_actor_id (Some "a"%string) (Df.new counter_config 50)) empty_db 0 0.
Lemma rejecting_attached : attached counter_ulid "a" rejecting_cell.
Proof. constructor; [exact empty_sane|done|done|apply empty_issued|done]. Qed.
Lemma rejecting_rejects : rejects (message_type (counter_message 7)) (payload (counter_message 7)).
Proof. intros m ctx w _ _. by do 3 eexists. Qed.
Lemma rejecting_room : column (message_sequence (facet rejecting_cell) + 1).
Proof. vm_compute. by split. Qed.

Lemma rejected_message_blocks_recovery_witness :
  let c1 := (Act.process_message None None counter_ulid (counter_message 7) counter_clock rejecting_cell).1 in
  (Act.process_message None None counter_ulid (counter_message 7) counter_clock rejecting_cell).2 ≠ Ok () ∧
  ∀ v prio w0 x, store x = store c1 → replay_on_activation (Df.parse_config v) = true →
    ∃ e, (Act.attach_facet "a" (Act.incarnate v prio w0 x)).2 = Err e.
Proof.
  exact (rejected_message_blocks_recovery None None counter_ulid "a" rejecting_cell (counter_message 7)
    counter_clock rejecting_attached rejecting_room rejecting_rejects).
Defined.

Lemma rejecting_plain : plain (facet rejecting_cell).
Proof. split; [right|]; vm_compute; reflexivity. Qed.
Lemma rejecting_room_taken : column (message_sequence (facet rejecting_cell) + 1 +
  Z.of_nat (length (taken (facet rejecting_cell)))).
Proof. vm_compute. by split. Qed.
Lemma facet_stays_well_formed_witness :
  attached counter_ulid "a" (Df.before_method counter_ulid "cast" [7] counter_clock rejecting_cell).1.
Proof.
  exact (proj1 (facet_stays_well_formed None None counter_ulid "a" rejecting_cell counter_clock
    rejecting_attached rejecting_plain rejecting_room_taken) "cast"%string [7]).
Defined.
End rejecting.
